(* ===== verification/_CoqProject ===== *)
-Q . S2P
Prelude.v
Bytes.v
Float64.v
Net.v
IpText.v
TokenBucket.v
Sni.v
Tls.v
Protection.v
ProtectionRace.v
ProxyProtocol.v
Balancer.v
BalancerState.v
Metrics.v
Failover.v
Router.v
HttpHead.v
HttpPump.v
HttpSession.v
Background.v
Forwarding.v
Task.v
Suspended.v
Liveness.v
Sockets.v
Connection.v
ConnectionRuns.v
Handover.v
HttpListener.v
Pool.v
Config.v
Proxy.v
ProxyLife.v
ThreadCpu.v
System.v
SystemHealth.v
SystemLoad.v
SystemReports.v
Cluster.v
