(* ===== verification/Prelude.v ===== *)
(** * Symphony: a verification library for the TLS/SNI proxy

    Symphony is a TCP proxy for many tenants on one port. It peeks a client's
    TLS ClientHello, decides by address and fingerprint whether to talk to it,
    finds the route of the server name, and either forwards the encrypted stream,
    or terminates TLS and forwards the plaintext to a Unix-socket or TCP upstream;
    when the local upstream is down, draining or busy it hands the connection,
    still encrypted, to a peer node. The library models the Rust core under
    src/src and proves what each part promises to the others.

    ** The files and the code they model

    - [Prelude] (this file), [Bytes], [Float64]: results, machine integers as [Z]
      with their wrap-around written out, lists; byte strings, text and UTF-8;
      the IEEE operations the code uses, on [SpecFloat].
    - [Net], [IpText]: addresses, CIDR lists (router.rs, [SourceAllowlist] and
      [parse_source_network]); the std parsers of addresses.
    - [TokenBucket]: the refill-and-consume limiter of protection.rs and
      [RouteTokenBucket] of router.rs, as a function ([Module Atomic]) and as
      threads of single atomic steps ([Module Threads]); the class [Limiter] is
      what a client of a limiter may rely on.
    - [Sni]: sni.rs, from the poll loop of [peek_reassemble], with its poll
      interval and timeout, through the parser to JA3 and JA4.
    - [Protection], [ProtectionRace]: protection.rs ([check_at], eviction, the
      blocked report) and its configuration parser of proxy.rs; and a check as the
      two halves it has in the code, with anything in between.
    - [ProxyProtocol]: the headers of upstream.rs and the failover ingress of
      ingress.rs, with load queries and answers.
    - [Balancer], [BalancerState]: balancer.rs, and [connect_uds] of upstream.rs
      over it; the counts and affinity that connections share through a balancer,
      also after a reload has replaced it.
    - [Metrics]: metrics.rs.
    - [Tls]: tls.rs and mtls.rs, the configuration cache and client verifier.
    - [Failover]: failover.rs: policies, peers, forwarding, the spill controller,
      the load poll's answers, the probe pass.
    - [Router]: router.rs: specifications, building and reloading a table, lookup.
    - [HttpHead], [HttpPump], [HttpSession]: http_proxy.rs: heads, framing and
      rewriting, the two pumps over byte streams, and both on one connection.
    - [Background]: the tasks that run beside the connections: probing and
      reporting health, polling peers for their load (failover.rs), the affinity
      sweep (router.rs).
    - [Forwarding]: what proxy_conn.rs tells an upstream about the client: the
      PROXY prefix with its TLVs and the headers it owns.
    - [Task]: programs that ask questions of their surroundings, their runs, and
      the rules to prove that every run is safe.
    - [Suspended], [Liveness]: suspended.rs and the half-close watch of
      liveness.rs.
    - [Sockets]: the listening sockets of listener.rs, their keepalive
      (liveness.rs) and the errors of error.rs.
    - [Connection], [ConnectionRuns]: [handle] of proxy_conn.rs, the task of one
      connection, over all the components above ([connect] of upstream.rs is
      here); and what holds of all its runs.
    - [Handover]: two hosts and one client: the bytes a host sends the peer that
      takes a connection, and the peer's run on them.
    - [HttpListener]: http_listener.rs, the task of a plaintext connection, on the
      heads of [HttpHead].
    - [Pool]: the accept loops of listener.rs and http_listener.rs and any number
      of connections of both kinds that interleave, are aborted and finish, while
      tables and settings are reloaded.
    - [Config], [Proxy], [ProxyLife]: proxy.rs: the configuration objects and
      their parsers; the proxy object with [new], [start], [stop],
      [update_config], [resolve_connection] and its reports (with the
      environment hooks of bench_hooks.rs and [set_rlimit_nofile] of listener.rs);
      and what holds for its whole life.
    - [ThreadCpu]: thread_cpu.rs: whose CPU use counts as the load of a socket.
    - [System], [SystemHealth], [SystemLoad]: the whole process. The proxy object,
      the connections of [Pool] and every task [start] spawns (accept loops, probe,
      load poll, CPU sampler, sweeps) on one state, each step the component's own
      operation; and what holds in every state a configuration can reach.
    - [SystemReports], [Cluster]: what a process holds of its peers' loads; and
      several processes that ask each other for them, over the network.

    Each file has its data, one definition per function of the code under the
    function's name (with the type's name in front where two clash), lemmas, and
    a [Module Properties] with the theorems that are its contract and, for each
    theorem with hypotheses, a concrete instance of it. Long async functions are
    cut at the numbered steps of their own comments.

    ** How the code is represented

    Functions return what they return: [Result] is [result], [Option] is
    [option]. State is passed explicitly. What the code shares through an [Arc]
    across connections and reloads, and whose identity matters (slot health, CPU
    cells, peers, spill state, TLS configurations, metric identities), is an
    identifier into a store that the operations thread, so that aliasing is
    visible: see [Balancer.shared], [Failover.fleet], [Tls.config_store]. Atomics
    are read and written as single steps where interleaving is the subject
    ([TokenBucket.Threads]); elsewhere an operation runs by itself, as in the one
    task that owns the state. So does [Protection.check_at], also where connections
    interleave, although the code gives the table's lock up before it counts:
    [ProtectionRace] is about what may come between.

    An async function is a [Task.task]: a tree of questions ([Connection.connE],
    [HttpListener.httpE]) whose answers are the components' own operations on the
    state of the process, or inputs. Between two questions of one connection
    anything may happen to that state ([Task.runs], [Pool.step],
    [System.sys_step]), so a theorem about runs holds under every interleaving at
    the await points and between the operations on shared state. What the code
    releases when a scope ends is a list of guards that the pool drops when a task
    ends or is aborted.

    Clocks, the outcome of network operations, the way a stream is cut into
    reads, and whether something outside holds an [Arc] are arguments: the
    theorems hold for all of them. Crates are classes with their documented
    behaviour as a second class: [Net.NetLib] (ipnetwork), [Sni.Digests] (md5,
    sha256), [Tls.TlsLib] (rustls and its PEM reader), [Protection.Lowercase]
    (Unicode lower-casing).

    Fuel: every loop that is not structural takes fuel from the data it consumes
    (the bytes left, one more than they are; the number of slots; the number of
    specifications), and the theorems about such a loop show that it ends with a
    result and not by running out: [connect_tries_each_slot_once], [every_request_head_is_rewritten],
    [responses_are_forwarded_verbatim], [uncontended_call_is_atomic].

    ** What the theorems show

    - Routing: a name is served by the one specification that decides it, and a
      rejected one is refused rather than falling through; after any number of
      reloads the answering route enforces its current specification.
    - Admission: limits are exact, the penalty box holds, eviction is invisible,
      reports agree with decisions, and blocklisted fingerprints are refused.
    - Inspection: a complete peek is the whole ClientHello however it is cut, one
      that arrives within the timeout is complete, and parsing inverts the layout of
      the RFC.
    - Wire formats: PROXY v2 headers, load queries and answers, and packed words
      are read back as written, and a certificate chain is left out of a header
      exactly when it would not fit.
    - Upstreams: a balancer tries each slot once and reaches one that accepts;
      health, CPU samples and affinity survive rebuilds and eviction.
    - Failover: forwarding never loses a client, tries a peer at most once and
      closes a client only when the local upstream is down; failing peers are
      backed off, and two nodes never spill to each other. Between hosts, a load that is held for a peer
      is one it answered for that very route, and a connection is only spilled to a
      peer that said it has room. A client that is handed over is served there as
      itself, on the hello the first host saw, and goes no further.
    - TLS: session state survives reloads, and sharing never mixes client policies.
    - HTTP: every request head on a connection is rewritten, bodies are framed in
      one way or refused, responses are passed on as they are, and a tunnel past
      the rewriting needs the upstream's own consent.
    - Background tasks: a route's health changes are reported once and in order, a
      probe never hides a newer refusal, and peers are not flooded with queries.
      In the whole process the application hears of a route name's health what the
      probe found, through every reload that keeps its failover and metrics group.
    - Connections: an upstream is only contacted for a client that every check
      has cleared, a connection from a peer is never handed on and nothing is read
      from one that is not trusted, what the attempts on upstreams and peers take
      is taken off the handshake timeout, and a run is counted by how it ended.
    - The process: the gauges, the counts per address and those of each balancer
      slot are exact in every reachable state, and [metrics] shows them; every
      connection is served in the mode, and under the limit, protection and ingress
      settings, of the listener that accepted it; the half-close bound fires exactly when it is due; a parked
      connection gets its own answer, once.
    - The proxy object: construction, reconfiguration and start are all or
      nothing, down to the sockets and their keepalive and up to the limit on open
      files, which a refused start leaves raised; its settings stay within their
      bounds, and what is served is what was configured last.
    - Plain HTTP: all that can be seen of a connection is one of nine traces; only
      ACME challenges reach an upstream, as one request, and a redirect cannot be
      split.
    - Load: only threads tied to the owner of a socket count, for as long as every
      look at the socket file finds it unchanged; a published load is bounded and
      expires, and what a peer reads back from an answer is the higher of what the
      last passes left for the route's balancers, for routes that are served and
      healthy.
    - Limits of the code: the limiter's refill can credit an interval twice under
      a race; an address can exceed its limit when its entry is evicted during a
      check; the connection limit can be overshot; an accepted update is seen in
      parts by connections that arrive meanwhile; a challenge that is not UTF-8
      keeps its framing; listeners share the first one's idle timeout; the default
      of requireClientCert differs between routes and listeners; and a bare LF in
      a client line is forwarded.

    ** What is not modelled

    The runtime's threads, the time a background task sleeps (a step may come at any
    time), the
    texts of most errors (they are constructors of the error types; the display of
    error.rs is [Sockets.display]), messages on standard error, the bytes of a plain
    copy, and the TypeScript side. Returning memory to the system (bench_hooks.rs) is
    a task whose steps change nothing here.

    Where steps are coarser or freer than the code: the build of a table and one pass
    of reports are each one step ([update_config] is its validation and then one step
    per store); what the choices inside one connect saw of a shared balancer is an
    input ([Connection.io_seen]), because other connections count on it meanwhile; a
    task of an earlier [start] may still take steps after [stop] until it has seen
    the signal, and the steps of two such tasks mix. Between hosts, only the load
    queries are tied together: a connection that is handed to a peer is, there, a
    connection like any other. *)

From stdpp Require Export base list gmap strings option.
From Stdlib Require Export ZArith Lia.

Open Scope Z_scope.

#[global] Arguments Z.pow : simpl never.
#[global] Arguments Z.shiftl : simpl never.
#[global] Arguments Z.shiftr : simpl never.
#[global] Arguments Z.land : simpl never.
#[global] Arguments Z.lor : simpl never.
#[global] Arguments Z.div : simpl never.
#[global] Arguments Z.modulo : simpl never.
#[global] Arguments Z.mul : simpl never.

(** ** Results

    Fallible Rust functions return [Result<T, E>]; here [result E T], with the
    monad operations of stdpp so that [x ← m; k] is the [?] operator. *)

Inductive result (E A : Type) : Type :=
  | Ok (a : A)
  | Err (e : E).
Arguments Ok {E A} a.
Arguments Err {E A} e.

#[global] Instance result_ret {E} : MRet (result E) := fun A a => Ok a.
#[global] Instance result_bind {E} : MBind (result E) := fun A B f m =>
  match m with Ok a => f a | Err e => Err e end.
#[global] Instance result_fmap {E} : FMap (result E) := fun A B f m =>
  match m with Ok a => Ok (f a) | Err e => Err e end.

(** [opt.ok_or(e)] *)
Definition ok_or {E A} (e : E) (o : option A) : result E A :=
  match o with Some a => Ok a | None => Err e end.

(** [res.ok()] *)
Definition result_ok {E A} (r : result E A) : option A :=
  match r with Ok a => Some a | Err _ => None end.

(** [iter.map(f).collect::<Result<Vec<_>, _>>()]: the first error wins. *)
Fixpoint try_map {E A B} (f : A -> result E B) (l : list A) : result E (list B) :=
  match l with
  | [] => Ok []
  | a :: l' =>
      match f a with
      | Err e => Err e
      | Ok b => match try_map f l' with Err e => Err e | Ok bs => Ok (b :: bs) end
      end
  end.

(** [iter.map(f).collect::<Option<Vec<_>>>()] *)
Fixpoint try_map_opt {A B} (f : A -> option B) (l : list A) : option (list B) :=
  match l with
  | [] => Some []
  | a :: l' =>
      match f a with
      | None => None
      | Some b => match try_map_opt f l' with None => None | Some bs => Some (b :: bs) end
      end
  end.

(** ** Machine integers

    An unsigned integer of width [w] is a [Z] in [0, 2^w); the operations the
    code uses are written out with their saturation or wrap-around. *)

Definition u8_max : Z := 255.
Definition u16_max : Z := 65535.
Definition u32_max : Z := 4294967295.
Definition u64_max : Z := 18446744073709551615.

Definition u32_saturating_add (a b : Z) : Z := Z.min u32_max (a + b).
Definition u64_saturating_add (a b : Z) : Z := Z.min u64_max (a + b).
Definition u64_saturating_mul (a b : Z) : Z := Z.min u64_max (a * b).
Definition saturating_sub (a b : Z) : Z := Z.max 0 (a - b).
Definition u32_wrapping_add (a b : Z) : Z := (a + b) mod (u32_max + 1).
Definition u64_wrapping_add (a b : Z) : Z := (a + b) mod (u64_max + 1).
Definition u64_wrapping_sub (a b : Z) : Z := (a - b) mod (u64_max + 1).

Definition is_u32 (z : Z) : Prop := 0 <= z <= u32_max.
Definition is_u64 (z : Z) : Prop := 0 <= z <= u64_max.
Definition is_byte (z : Z) : Prop := 0 <= z < 256.

(** ** Automation *)

Create HintDb symphony.

Ltac unfold_ints :=
  unfold is_u32, is_u64, is_byte, u32_saturating_add, u64_saturating_add,
    u64_saturating_mul, saturating_sub in *;
  unfold u8_max, u16_max, u32_max, u64_max in *.

(** Arithmetic on machine integers. *)
Ltac ulia := intros; unfold_ints; lia.

(** Turns the boolean comparisons of a hypothesis or goal into propositions. *)
Ltac bool_to_prop :=
  repeat match goal with
  | H : (_ <? _) = true |- _ => apply Z.ltb_lt in H
  | H : (_ <? _) = false |- _ => apply Z.ltb_ge in H
  | H : (_ <=? _) = true |- _ => apply Z.leb_le in H
  | H : (_ <=? _) = false |- _ => apply Z.leb_gt in H
  | H : (_ =? _) = true |- _ => apply Z.eqb_eq in H
  | H : (_ =? _) = false |- _ => apply Z.eqb_neq in H
  | H : (_ <? _)%nat = true |- _ => apply Nat.ltb_lt in H
  | H : (_ <? _)%nat = false |- _ => apply Nat.ltb_ge in H
  | H : (_ <=? _)%nat = true |- _ => apply Nat.leb_le in H
  | H : (_ <=? _)%nat = false |- _ => apply Nat.leb_gt in H
  | H : (_ =? _)%nat = true |- _ => apply Nat.eqb_eq in H
  | H : (_ =? _)%nat = false |- _ => apply Nat.eqb_neq in H
  | H : _ && _ = true |- _ => apply andb_true_iff in H as [? ?]
  | H : _ || _ = false |- _ => apply orb_false_iff in H as [? ?]
  | H : negb _ = true |- _ => apply negb_true_iff in H
  | H : negb _ = false |- _ => apply negb_false_iff in H
  end.

(** Case analysis on the scrutinee of the first [if]/[match] of the goal. *)
Ltac case_goal :=
  match goal with
  | |- context [if ?b then _ else _] => destruct b eqn:?
  | |- context [match ?x with _ => _ end] => destruct x eqn:?
  end.

(** ** Lists: the iterator operations of the standard library *)

Section Lists.
Context {A : Type}.

(** [iter.position(p)] *)
Fixpoint position (p : A -> bool) (l : list A) : option nat :=
  match l with
  | [] => None
  | a :: l' => if p a then Some O else S <$> position p l'
  end.

(** [iter.find(p)] *)
Fixpoint find_first (p : A -> bool) (l : list A) : option A :=
  match l with
  | [] => None
  | a :: l' => if p a then Some a else find_first p l'
  end.

(** [iter.reduce]-style minimum: the first of several equal minima, as
    [min_by_key] returns it. [le a b] says that [a]'s key is at most [b]'s. *)
Fixpoint min_by_from (le : A -> A -> bool) (best : A) (l : list A) : A :=
  match l with
  | [] => best
  | a :: l' => min_by_from le (if le best a then best else a) l'
  end.

Definition min_by (le : A -> A -> bool) (l : list A) : option A :=
  match l with [] => None | a :: l' => Some (min_by_from le a l') end.

Context (le : A -> A -> bool).
Hypothesis le_refl : forall a, le a a = true.
Hypothesis le_trans : forall a b c, le a b = true -> le b c = true -> le a c = true.
Hypothesis le_total : forall a b, le a b = true \/ le b a = true.

Lemma min_by_from_spec best l :
  (min_by_from le best l = best \/ min_by_from le best l ∈ l) /\
  le (min_by_from le best l) best = true /\
  forall a, a ∈ l -> le (min_by_from le best l) a = true.
Proof.
  revert best; induction l as [|x l IH]; intros best; simpl.
  { split_and!; [by left | by apply le_refl |]. intros a Ha; by apply elem_of_nil in Ha. }
  destruct (le best x) eqn:Hle.
  - destruct (IH best) as (Hin & Hb & Hall). split_and!; [| done |].
    + destruct Hin as [-> | ?]; [by left | right; by constructor].
    + intros a [-> | Ha]%elem_of_cons; [by eapply le_trans | by apply Hall].
  - destruct (IH x) as (Hin & Hb & Hall).
    assert (le x best = true) as Hxb by (destruct (le_total best x); congruence).
    split_and!.
    + right. destruct Hin as [-> | ?]; by constructor.
    + by eapply le_trans.
    + intros a [-> | Ha]%elem_of_cons; [done | by apply Hall].
Qed.

Lemma min_by_spec l m :
  min_by le l = Some m -> m ∈ l /\ forall a, a ∈ l -> le m a = true.
Proof.
  destruct l as [|x l]; simpl; [done |]. intros [= <-].
  destruct (min_by_from_spec x l) as (Hin & Hb & Hall). split.
  - destruct Hin as [-> | ?]; by constructor.
  - intros a [-> | Ha]%elem_of_cons; [done | by apply Hall].
Qed.

Lemma min_by_None l : min_by le l = None <-> l = [].
Proof. destruct l; simpl; split; congruence. Qed.
End Lists.

Lemma position_Some {A} (p : A -> bool) (l : list A) i :
  position p l = Some i ->
  (exists a, l !! i = Some a /\ p a = true) /\
  (forall j a, (j < i)%nat -> l !! j = Some a -> p a = false).
Proof.
  revert i; induction l as [|x l IH]; intros i; simpl; [done |].
  destruct (p x) eqn:Hp.
  - intros [= <-]. split; [by exists x |]. intros j a Hj; lia.
  - destruct (position p l) as [k|]; simpl; [|done]. intros [= <-].
    destruct (IH k eq_refl) as [(a & Ha & Hpa) Hfirst]. split; [by exists a |].
    intros [|j] b Hj Hb; simpl in Hb; [by simplify_eq | apply (Hfirst j); [lia | done]].
Qed.

Lemma position_None {A} (p : A -> bool) (l : list A) :
  position p l = None <-> Forall (fun a => p a = false) l.
Proof.
  induction l as [|x l IH]; simpl; [split; constructor |].
  destruct (p x) eqn:Hp; rewrite Forall_cons_iff.
  - split; [done | intros [??]; congruence].
  - rewrite <- IH. destruct (position p l); simpl; split; [done | by intros [] | done | done].
Qed.

Lemma find_first_Some {A} (p : A -> bool) (l : list A) a :
  find_first p l = Some a -> a ∈ l /\ p a = true.
Proof.
  induction l as [|x l IH]; simpl; [done |]. destruct (p x) eqn:Hp.
  - intros [= <-]. split; [constructor | done].
  - intros H. destruct (IH H). split; [by constructor | done].
Qed.

Lemma find_first_None {A} (p : A -> bool) (l : list A) :
  find_first p l = None <-> forall a, a ∈ l -> p a = false.
Proof.
  induction l as [|x l IH]; simpl.
  { split; [intros _ a Ha; by apply elem_of_nil in Ha | done]. }
  destruct (p x) eqn:Hp.
  - split; [done | intros H; specialize (H x (list_elem_of_here _ _)); congruence].
  - rewrite IH. split.
    + intros H a [-> | ?]%elem_of_cons; [done | by apply H].
    + intros H a Ha. apply H. by constructor.
Qed.

Lemma find_first_app {A} (p : A -> bool) (l k : list A) :
  find_first p (l ++ k) = match find_first p l with Some a => Some a | None => find_first p k end.
Proof. induction l as [|x l IH]; simpl; [done |]. by destruct (p x). Qed.

Lemma find_first_ext {A} (p q : A -> bool) (l : list A) :
  (forall a, a ∈ l -> p a = q a) -> find_first p l = find_first q l.
Proof.
  induction l as [|x l IH]; intros Heq; simpl; [done |]. rewrite (Heq x) by constructor.
  destruct (q x); [done |]. apply IH. intros a Ha. apply Heq. by constructor.
Qed.

Lemma try_map_Ok {E A B} (f : A -> result E B) l bs :
  try_map f l = Ok bs <-> Forall2 (fun a b => f a = Ok b) l bs.
Proof.
  revert bs; induction l as [|a l IH]; intros bs; simpl.
  { split; [intros [= <-]; constructor | by inversion 1]. }
  destruct (f a) as [b|e] eqn:Hf.
  - destruct (try_map f l) as [bs'|e].
    + split.
      * intros [= <-]. constructor; [done | by apply IH].
      * inversion 1; subst. assert (Ok bs' = @Ok E _ l') as [= <-] by by apply IH. congruence.
    + split; [done |]. inversion 1; subst.
      assert (@Err E (list B) e = Ok l') by by apply IH. done.
  - split; [done |]. inversion 1; subst. congruence.
Qed.

Lemma try_map_is_Ok {E A B} (f : A -> result E B) l :
  (exists bs, try_map f l = Ok bs) <-> (forall a, a ∈ l -> exists b, f a = Ok b).
Proof.
  induction l as [|a l IH]; simpl.
  { split; [intros _ a Ha; by apply not_elem_of_nil in Ha | by exists []]. }
  split.
  - intros [bs Hb]. destruct (f a) as [b|] eqn:Hf; [|done]. destruct (try_map f l) as [bs'|]; [|done].
    intros x [->|Hx]%elem_of_cons; [by exists b |]. apply (proj1 IH); [by exists bs' | done].
  - intros Hall. destruct (Hall a) as [b ->]; [by apply elem_of_cons; left |].
    destruct (proj2 IH) as [bs' ->]; [|by exists (b :: bs')]. intros x Hx. apply Hall. by apply elem_of_cons; right.
Qed.

(** A byte list is well formed when every element is an 8-bit value. *)
Abbreviation bytes_ok := (Forall is_byte).

Lemma bytes_ok_app (l k : list Z) : bytes_ok (l ++ k) <-> bytes_ok l /\ bytes_ok k.
Proof. apply Forall_app. Qed.

#[export] Hint Resolve Forall_nil_2 Forall_take Forall_drop : symphony.

(** ** Bit fields

    [hi << n | lo] with [lo] in the low [n] bits is [hi * 2^n + lo]; the two
    fields come back by mask and shift. *)

Lemma lor_shiftl_add hi lo n :
  0 <= n -> 0 <= lo < 2 ^ n -> Z.lor (Z.shiftl hi n) lo = hi * 2 ^ n + lo.
Proof.
  intros Hn Hlo. rewrite Z.shiftl_mul_pow2 by lia.
  assert (Z.land (hi * 2 ^ n) lo = 0) as Hland.
  { apply Z.bits_inj'. intros i Hi. rewrite Z.land_spec, Z.bits_0.
    destruct (Z.lt_ge_cases i n).
    - by rewrite Z.mul_pow2_bits_low by lia.
    - rewrite <- (Z.mod_small lo (2 ^ n)) by lia.
      rewrite Z.mod_pow2_bits_high by lia. apply andb_false_r. }
  rewrite <- Z.lxor_lor by done. by rewrite <- Z.add_nocarry_lxor.
Qed.

Lemma low_field hi lo n : 0 <= n -> 0 <= lo < 2 ^ n -> (hi * 2 ^ n + lo) mod 2 ^ n = lo.
Proof. intros. rewrite Z.add_comm, Z.mod_add by lia. by apply Z.mod_small. Qed.

Lemma high_field hi lo n : 0 <= n -> 0 <= lo < 2 ^ n -> (hi * 2 ^ n + lo) / 2 ^ n = hi.
Proof. intros. rewrite Z.add_comm, Z.div_add by lia. rewrite Z.div_small by lia. lia. Qed.

(** [x & ((1 << n) - 1)] *)
Lemma land_mask x n : 0 <= n -> Z.land x (2 ^ n - 1) = x mod 2 ^ n.
Proof. intros. rewrite <- Z.land_ones by done. by rewrite Z.ones_equiv, Z.sub_1_r. Qed.
