(* ===== verification/Bytes.v ===== *)
(** * Byte strings and the text operations of the standard library

    A Rust [&str], [String] or [&[u8]] is a list of 8-bit values. This file holds
    the standard-library operations the proxy uses on them: searching and
    splitting, ASCII classes, UTF-8 validation, big-endian integers, and the
    decimal and hexadecimal formats with their parsers. *)

From S2P Require Import Prelude.
From Stdlib Require Import Ascii.

Open Scope Z_scope.

Abbreviation bytes := (list Z).

(** Literals: [bs "h2"] is the Rust [b"h2"]. *)
Fixpoint bs (s : string) : bytes :=
  match s with
  | EmptyString => []
  | String c s' => Z.of_nat (nat_of_ascii c) :: bs s'
  end.

Definition bytes_eqb (a b : bytes) : bool := bool_decide (a = b).

(** [s.starts_with(p)] *)
Fixpoint starts_with (p s : bytes) : bool :=
  match p, s with
  | [], _ => true
  | x :: p', y :: s' => (x =? y) && starts_with p' s'
  | _ :: _, [] => false
  end.

(** [s.strip_prefix(p)] *)
Definition strip_prefix (p s : bytes) : option bytes :=
  if starts_with p s then Some (drop (length p) s) else None.

Definition ends_with (p s : bytes) : bool :=
  (length p <=? length s)%nat && bytes_eqb (drop (length s - length p) s) p.

(** [s.strip_suffix(p)] *)
Definition strip_suffix (p s : bytes) : option bytes :=
  if ends_with p s then Some (take (length s - length p) s) else None.

(** [s.windows(p.len()).position(|w| w == p)]: the first occurrence of [p]. *)
Fixpoint find_sub (p s : bytes) : option nat :=
  if starts_with p s then Some O
  else match s with [] => None | _ :: s' => S <$> find_sub p s' end.

Definition contains_byte (b : Z) (s : bytes) : bool := existsb (Z.eqb b) s.

(** [s.split(|b| b == sep)]: always at least one piece. *)
Fixpoint split_on (sep : Z) (s : bytes) : list bytes :=
  match s with
  | [] => [[]]
  | b :: s' =>
      if b =? sep then [] :: split_on sep s'
      else match split_on sep s' with
           | [] => [[b]]
           | p :: ps => (b :: p) :: ps
           end
  end.

(** ** ASCII classes *)

Definition is_digit (b : Z) : bool := (48 <=? b) && (b <=? 57).
Definition is_upper (b : Z) : bool := (65 <=? b) && (b <=? 90).
Definition is_lower (b : Z) : bool := (97 <=? b) && (b <=? 122).
Definition is_alphanumeric (b : Z) : bool := is_digit b || is_upper b || is_lower b.
Definition is_hexdigit (b : Z) : bool :=
  is_digit b || ((65 <=? b) && (b <=? 70)) || ((97 <=? b) && (b <=? 102)).
(** [u8::is_ascii_whitespace]: tab, LF, FF, CR and space. *)
Definition is_whitespace (b : Z) : bool :=
  (b =? 9) || (b =? 10) || (b =? 12) || (b =? 13) || (b =? 32).
Definition to_lower (b : Z) : Z := if is_upper b then b + 32 else b.
Definition eq_ignore_ascii_case (a b : bytes) : bool :=
  bytes_eqb (to_lower <$> a) (to_lower <$> b).

(** ** UTF-8 *)

Definition is_cont (b : Z) : bool := (128 <=? b) && (b <=? 191).

(** [str::from_utf8]'s acceptance: no overlong forms, no surrogates, at most
    U+10FFFF. [fuel] is the length. *)
Fixpoint utf8_ok (fuel : nat) (s : bytes) : bool :=
  match fuel, s with
  | _, [] => true
  | O, _ => false
  | S fuel', b :: s' =>
      if b <=? 127 then utf8_ok fuel' s'
      else if (194 <=? b) && (b <=? 223) then
        match s' with c :: r => is_cont c && utf8_ok fuel' r | [] => false end
      else if (224 <=? b) && (b <=? 239) then
        match s' with
        | c :: d :: r =>
            (if b =? 224 then (160 <=? c) && (c <=? 191)
             else if b =? 237 then (128 <=? c) && (c <=? 159)
             else is_cont c) && is_cont d && utf8_ok fuel' r
        | _ => false
        end
      else if (240 <=? b) && (b <=? 244) then
        match s' with
        | c :: d :: e :: r =>
            (if b =? 240 then (144 <=? c) && (c <=? 191)
             else if b =? 244 then (128 <=? c) && (c <=? 143)
             else is_cont c) && is_cont d && is_cont e && utf8_ok fuel' r
        | _ => false
        end
      else false
  end.

Definition is_utf8 (s : bytes) : bool := utf8_ok (length s) s.

(** [str::from_utf8(s).ok()] *)
Definition from_utf8 (s : bytes) : option bytes := if is_utf8 s then Some s else None.

(** ** Big-endian integers *)

Definition u16_to_be (z : Z) : bytes := [Z.shiftr z 8 mod 256; z mod 256].
Definition u32_to_be (z : Z) : bytes :=
  [Z.shiftr z 24 mod 256; Z.shiftr z 16 mod 256; Z.shiftr z 8 mod 256; z mod 256].
Definition u16_from_be (hi lo : Z) : Z := Z.lor (Z.shiftl hi 8) lo.

(** ** Formatting and parsing integers *)

Fixpoint digits_of (base : Z) (digit : Z -> Z) (fuel : nat) (z : Z) : bytes :=
  match fuel with
  | O => []
  | S f => if z <? base then [digit z]
           else digits_of base digit f (z / base) ++ [digit (z mod base)]
  end.

Definition dec_digit (d : Z) : Z := 48 + d.
(** [char::from_digit(d, 16)] for [d < 16] *)
Definition hex_digit (d : Z) : Z := if d <? 10 then 48 + d else 87 + d.

(** [format!("{z}")]: 20 digits hold every [u64]. *)
Definition to_decimal (z : Z) : bytes := digits_of 10 dec_digit 20 z.

(** [format!("{z:02}")] and [format!("{z:04x}")] *)
Definition pad_left (n : nat) (c : Z) (s : bytes) : bytes :=
  replicate (n - length s) c ++ s.
Definition to_dec02 (z : Z) : bytes := pad_left 2 48 (to_decimal z).
Definition to_hex04 (z : Z) : bytes := pad_left 4 48 (digits_of 16 hex_digit 16 z).

Definition digit_val (base : Z) (b : Z) : option Z :=
  let v := if is_digit b then b - 48
           else if is_lower b then b - 87
           else if is_upper b then b - 55
           else base in
  if v <? base then Some v else None.

Fixpoint parse_digits (base mx : Z) (acc : Z) (s : bytes) : option Z :=
  match s with
  | [] => Some acc
  | b :: s' =>
      match digit_val base b with
      | None => None
      | Some v => let acc' := acc * base + v in
                  if mx <? acc' then None else parse_digits base mx acc' s'
      end
  end.

(** [uN::from_str_radix]: an optional leading [+], at least one digit, overflow
    is an error. *)
Definition from_str_radix (base mx : Z) (s : bytes) : option Z :=
  match s with
  | [] => None
  | b :: s' =>
      if b =? 43 then match s' with [] => None | _ => parse_digits base mx 0 s' end
      else parse_digits base mx 0 s
  end.

Definition parse_u16 : bytes -> option Z := from_str_radix 10 u16_max.
Definition parse_u32 : bytes -> option Z := from_str_radix 10 u32_max.
Definition parse_u64 : bytes -> option Z := from_str_radix 10 u64_max.

(** ** Joining *)

(** [pieces.join(sep)] *)
Fixpoint join (sep : bytes) (pieces : list bytes) : bytes :=
  match pieces with
  | [] => []
  | [p] => p
  | p :: ps => p ++ sep ++ join sep ps
  end.

(** ** Lemmas *)

Lemma bytes_eqb_eq a b : bytes_eqb a b = true <-> a = b.
Proof. apply bool_decide_eq_true. Qed.

Lemma starts_with_spec p s : starts_with p s = true <-> exists r, s = p ++ r.
Proof.
  revert s; induction p as [|x p IH]; intros s; simpl; [split; eauto |].
  destruct s as [|y s]; [split; [done | by intros [r ?]] |].
  rewrite andb_true_iff, Z.eqb_eq, IH. split.
  - intros [-> [r ->]]. by exists r.
  - intros [r [= -> ->]]. eauto.
Qed.

Lemma starts_with_app p r : starts_with p (p ++ r) = true.
Proof. apply starts_with_spec. by exists r. Qed.

Lemma strip_prefix_app p r : strip_prefix p (p ++ r) = Some r.
Proof. unfold strip_prefix. by rewrite starts_with_app, drop_app_length. Qed.

Lemma strip_prefix_Some p s r : strip_prefix p s = Some r <-> s = p ++ r.
Proof.
  split; [|by intros ->; apply strip_prefix_app]. unfold strip_prefix.
  destruct (starts_with p s) eqn:Hs; [|done]. apply starts_with_spec in Hs as [r' ->].
  rewrite drop_app_length. by intros [= ->].
Qed.

Lemma strip_prefix_None p s : strip_prefix p s = None <-> starts_with p s = false.
Proof. unfold strip_prefix. by destruct (starts_with p s). Qed.

Lemma find_sub_Some p s i :
  find_sub p s = Some i ->
  starts_with p (drop i s) = true /\
  forall j, (j < i)%nat -> starts_with p (drop j s) = false.
Proof.
  revert i; induction s as [|b s IH]; intros i.
  - cbn [find_sub]. destruct (starts_with p []) eqn:Hp; [|done].
    intros [= <-]. split; [done | lia].
  - cbn [find_sub]. destruct (starts_with p (b :: s)) eqn:Hp.
    + intros [= <-]. split; [done | lia].
    + destruct (find_sub p s) as [k|]; simpl; [|done]. intros [= <-].
      destruct (IH k eq_refl) as [Hk Hfirst]. split; [done |].
      intros [|j] Hj; [done | apply Hfirst; lia].
Qed.

Lemma find_sub_None p s :
  find_sub p s = None -> forall j, (j <= length s)%nat -> starts_with p (drop j s) = false.
Proof.
  induction s as [|b s IH]; cbn [find_sub].
  - destruct (starts_with p []) eqn:Hp; [done |]. intros _ [|j] ?; [done | by simpl].
  - destruct (starts_with p (b :: s)) eqn:Hp; [done |].
    destruct (find_sub p s) as [k|]; simpl; [done |]. intros _ [|j] Hj; [done |].
    simpl. apply IH; [done | lia].
Qed.

Lemma u16_from_to_be z : 0 <= z <= u16_max ->
  u16_from_be (Z.shiftr z 8 mod 256) (z mod 256) = z.
Proof.
  intros Hz. unfold u16_from_be, u16_max in *.
  pose proof (Z.mod_pos_bound z 256). pose proof (Z.div_mod z 256).
  rewrite lor_shiftl_add by lia. rewrite Z.shiftr_div_pow2 by lia. change (2 ^ 8) with 256.
  rewrite (Z.mod_small (z / 256)); [lia |].
  split; [apply Z.div_pos; lia | apply Z.div_lt_upper_bound; lia].
Qed.

Lemma length_u16_to_be z : length (u16_to_be z) = 2%nat.
Proof. done. Qed.

Lemma u16_to_be_ok z : bytes_ok (u16_to_be z).
Proof. repeat constructor; apply Z.mod_pos_bound; lia. Qed.

Lemma u32_to_be_ok z : bytes_ok (u32_to_be z).
Proof. repeat constructor; apply Z.mod_pos_bound; lia. Qed.

#[export] Hint Resolve u16_to_be_ok u32_to_be_ok : symphony.

Lemma digit_val_dec d : 0 <= d < 10 -> digit_val 10 (dec_digit d) = Some d.
Proof.
  intros Hd. unfold digit_val, dec_digit, is_digit.
  rewrite (proj2 (Z.leb_le 48 (48 + d))), (proj2 (Z.leb_le (48 + d) 57)) by lia. simpl.
  replace (48 + d - 48) with d by lia. by rewrite (proj2 (Z.ltb_lt d 10)) by lia.
Qed.

Lemma parse_digits_app base mx acc s d :
  parse_digits base mx acc (s ++ [d]) =
  (v ← parse_digits base mx acc s; parse_digits base mx v [d]).
Proof.
  revert acc; induction s as [|b s IH]; intros acc; [done |]. cbn [parse_digits app].
  destruct (digit_val base b); [|done]. cbv zeta. case_match; [done |]. apply IH.
Qed.

(** Printing in base 10 and parsing back gives the number. *)
Lemma parse_digits_of mx fuel z :
  0 <= z <= mx -> z < 10 ^ Z.of_nat fuel ->
  parse_digits 10 mx 0 (digits_of 10 dec_digit fuel z) = Some z.
Proof.
  revert z; induction fuel as [|fuel IH]; intros z Hz Hf.
  { simpl in Hf. assert (z = 0) as -> by lia. done. }
  cbn [digits_of]. destruct (Z.ltb_spec z 10) as [Hlt|Hge].
  - cbn [parse_digits]. rewrite digit_val_dec by lia. cbv zeta.
    replace (0 * 10 + z) with z by lia. by rewrite (proj2 (Z.ltb_ge mx z)) by lia.
  - assert (0 <= z / 10 <= z) by (split; [apply Z.div_pos; lia | apply Z.div_le_upper_bound; lia]).
    assert (z / 10 < 10 ^ Z.of_nat fuel).
    { apply Z.div_lt_upper_bound; [lia |]. rewrite Nat2Z.inj_succ, Z.pow_succ_r in Hf by lia. lia. }
    pose proof (Z.mod_pos_bound z 10). pose proof (Z.div_mod z 10).
    rewrite parse_digits_app, IH by lia. cbn [mbind option_bind parse_digits].
    rewrite digit_val_dec by lia. cbv zeta.
    replace (z / 10 * 10 + z mod 10) with z by lia.
    by rewrite (proj2 (Z.ltb_ge mx z)) by lia.
Qed.

Lemma digits_of_nonempty base digit fuel z : (0 < fuel)%nat -> digits_of base digit fuel z <> [].
Proof.
  destruct fuel; [lia |]. simpl. case_match; [done |]. intros _ Hnil. by destruct (app_eq_nil _ _ Hnil).
Qed.

Lemma digits_of_Forall base digit fuel z (P : Z -> Prop) :
  0 < base -> 0 <= z -> (forall d, 0 <= d < base -> P (digit d)) ->
  Forall P (digits_of base digit fuel z).
Proof.
  intros Hb Hz HP. revert z Hz; induction fuel as [|fuel IH]; intros z Hz; simpl; [constructor |].
  destruct (Z.ltb_spec z base).
  - constructor; [apply HP; lia | constructor].
  - apply Forall_app; split; [apply IH, Z.div_pos; lia |].
    constructor; [apply HP, Z.mod_pos_bound; lia | constructor].
Qed.

(** Texts one after the other are a text. *)
Lemma utf8_ok_app fuel fuel' a b :
  utf8_ok fuel a = true -> (a = [] -> utf8_ok (fuel + fuel') b = true) ->
  (forall n, (n <= fuel)%nat -> utf8_ok (n + fuel') b = true) -> utf8_ok (fuel + fuel') (a ++ b) = true.
Proof.
  revert a. induction fuel as [|fuel IH]; intros a Ha Hb Hn; [destruct a; [by apply Hb | done] |].
  assert (forall r, utf8_ok fuel r = true -> utf8_ok (fuel + fuel') (r ++ b) = true) as Hr.
  { intros r Hr. apply IH; [done | intros _; apply Hn; lia | intros n Hle; apply Hn; lia]. }
  destruct a as [|x a]; [by apply Hb |]. cbn [app utf8_ok Nat.add] in *.
  destruct (x <=? 127); [by apply Hr |].
  destruct ((194 <=? x) && (x <=? 223)).
  { destruct a as [|c r]; [done |]. simpl. apply andb_true_iff in Ha as [-> Ha]. by apply Hr. }
  destruct ((224 <=? x) && (x <=? 239)).
  { destruct a as [|c [|d r]]; try done. simpl. apply andb_true_iff in Ha as [-> Ha]. by apply Hr. }
  destruct ((240 <=? x) && (x <=? 244)); [|done].
  destruct a as [|c [|d [|e r]]]; try done. simpl. apply andb_true_iff in Ha as [-> Ha]. by apply Hr.
Qed.

Lemma utf8_ok_more n fuel b : utf8_ok fuel b = true -> utf8_ok (n + fuel) b = true.
Proof.
  intros Hb. rewrite Nat.add_comm, <- (app_nil_r b).
  apply utf8_ok_app; [done | by intros _; destruct (fuel + n)%nat | intros k _; by destruct (k + n)%nat].
Qed.

Lemma is_utf8_app a b : is_utf8 a = true -> is_utf8 b = true -> is_utf8 (a ++ b) = true.
Proof.
  unfold is_utf8. intros Ha Hb. rewrite length_app.
  apply utf8_ok_app; [done | intros _; by apply utf8_ok_more | intros n _; by apply utf8_ok_more].
Qed.

Lemma parse_to_decimal mx z :
  0 <= z <= mx -> mx <= u64_max -> from_str_radix 10 mx (to_decimal z) = Some z.
Proof.
  intros Hz Hmx. unfold from_str_radix, to_decimal.
  destruct (digits_of 10 dec_digit 20 z) as [|b s] eqn:E.
  { by apply digits_of_nonempty in E; [|lia]. }
  assert (Forall (fun b => 48 <= b <= 57) (b :: s)) as HF.
  { rewrite <- E. apply digits_of_Forall; [lia | lia |]. unfold dec_digit. intros; lia. }
  apply Forall_cons_1 in HF as [Hb _]. rewrite (proj2 (Z.eqb_neq b 43)) by lia.
  rewrite <- E. apply parse_digits_of; [lia |]. unfold u64_max in *. lia.
Qed.

Lemma parse_digits_range base mx acc s z :
  0 < base -> 0 <= acc <= mx -> parse_digits base mx acc s = Some z -> 0 <= z <= mx.
Proof.
  intros Hb. revert acc; induction s as [|b s IH]; intros acc Hacc; cbn [parse_digits]; [by intros [= <-] |].
  destruct (digit_val base b) as [d|] eqn:Hd; [|done].
  assert (0 <= d) as Hd0.
  { unfold digit_val, is_digit, is_lower, is_upper in Hd. repeat case_match; bool_to_prop; simplify_eq; lia. }
  destruct (Z.ltb_spec mx (acc * base + d)); [done |]. apply IH. nia.
Qed.

Lemma from_str_radix_range base mx s z : 0 < base -> 0 <= mx -> from_str_radix base mx s = Some z -> 0 <= z <= mx.
Proof.
  intros Hb Hm. unfold from_str_radix. destruct s as [|b s]; [done |].
  destruct (b =? 43); [destruct s; [done |] |]; apply parse_digits_range; lia.
Qed.
