(* ===== verification/Float64.v ===== *)
(** * IEEE 754 binary64, as the rate limiters and the spill controller use it

    Rust's [f64] is modelled by the Standard Library's executable specification
    of binary floating point ([SpecFloat], precision 53, maximal exponent 1024,
    round to nearest even), so a refill or a controller step evaluates here to
    the value the proxy computes. Decimal literals are written as a correctly
    rounded quotient of integers, which is the value a Rust literal denotes. *)

From S2P Require Import Prelude.
From Stdlib Require Import SpecFloat.

Open Scope Z_scope.

Definition f64 : Type := spec_float.

Definition f64_mul (x y : f64) : f64 := SFmul 53 1024 x y.
Definition f64_div (x y : f64) : f64 := SFdiv 53 1024 x y.
Definition f64_add (x y : f64) : f64 := SFadd 53 1024 x y.
Definition f64_sub (x y : f64) : f64 := SFsub 53 1024 x y.
Definition f64_ltb (x y : f64) : bool := SFltb x y.
Definition f64_leb (x y : f64) : bool := SFleb x y.
Definition f64_eqb (x y : f64) : bool := SFeqb x y.

(** [z as f64] for an integer: the nearest double. *)
Definition f64_of_Z (z : Z) : f64 := binary_normalize 53 1024 z 0 false.

(** The literal [n / d], for example [f64_lit 3 4] for [0.75]. *)
Definition f64_lit (n d : Z) : f64 := f64_div (f64_of_Z n) (f64_of_Z d).

Definition f64_zero : f64 := S754_zero false.

(** [x.is_finite()] *)
Definition f64_is_finite (x : f64) : bool :=
  match x with S754_zero _ | S754_finite _ _ _ => true | _ => false end.

(** The integer part of [m * 2^e], [m > 0]. *)
Definition trunc_mag (m : positive) (e : Z) : Z :=
  if 0 <=? e then Z.shiftl (Zpos m) e else Z.shiftr (Zpos m) (- e).

(** [x as uN]: truncation towards zero, saturating; NaN is 0. *)
Definition f64_as_uint (mx : Z) (x : f64) : Z :=
  match x with
  | S754_zero _ | S754_nan => 0
  | S754_infinity s => if s then 0 else mx
  | S754_finite s m e => if s then 0 else Z.min mx (trunc_mag m e)
  end.

Definition f64_as_u32 : f64 -> Z := f64_as_uint u32_max.
Definition f64_as_u64 : f64 -> Z := f64_as_uint u64_max.

(** [x.round()]: half away from zero. Doubles of exponent [>= 0] are integers. *)
Definition f64_round (x : f64) : f64 :=
  match x with
  | S754_finite s m e =>
      if 0 <=? e then x
      else
        let r := Z.shiftr (Zpos m + Z.shiftl 1 (- e - 1)) (- e) in
        if r =? 0 then S754_zero s
        else binary_normalize 53 1024 (if s then - r else r) 0 s
  | _ => x
  end.

(** [x.max(y)], [x.min(y)]: the other operand when one is NaN. *)
Definition f64_is_nan (x : f64) : bool := match x with S754_nan => true | _ => false end.
Definition f64_max (x y : f64) : f64 :=
  if f64_is_nan x then y else if f64_is_nan y then x else if f64_ltb x y then y else x.
Definition f64_min (x y : f64) : f64 :=
  if f64_is_nan x then y else if f64_is_nan y then x else if f64_ltb y x then y else x.

(** [x.clamp(lo, hi)]; [clamp] panics unless [lo <= hi], which the callers
    establish. *)
Definition f64_clamp (lo hi x : f64) : f64 :=
  let x := if f64_ltb x lo then lo else x in
  if f64_ltb hi x then hi else x.

(** [x % y]: exact, with the sign of [x]. The remainder has no more digits than
    one of the operands, so it is only ever shifted left. *)
Definition f64_rem (x y : f64) : f64 :=
  match x, y with
  | S754_nan, _ | _, S754_nan | S754_infinity _, _ | _, S754_zero _ => S754_nan
  | S754_zero _, _ | _, S754_infinity _ => x
  | S754_finite s m e, S754_finite _ m' e' =>
      let k := Z.min e e' in
      let r := Z.shiftl (Zpos m) (e - k) mod Z.shiftl (Zpos m') (e' - k) in
      match r with
      | Zpos p =>
          let n := Z.min (53 - Zpos (digits2_pos p)) (k + 1074) in S754_finite s (Pos.shiftl p (Z.to_N n)) (k - n)
      | _ => S754_zero s
      end
  end.

#[global] Arguments f64_mul : simpl never.
#[global] Arguments f64_div : simpl never.
#[global] Arguments f64_add : simpl never.
#[global] Arguments f64_sub : simpl never.
#[global] Arguments f64_of_Z : simpl never.
#[global] Arguments f64_as_u32 : simpl never.
#[global] Arguments f64_as_u64 : simpl never.

(** ** Bounds *)

Lemma trunc_mag_nonneg m e : 0 <= trunc_mag m e.
Proof.
  unfold trunc_mag. destruct (0 <=? e).
  - by apply Z.shiftl_nonneg.
  - by apply Z.shiftr_nonneg.
Qed.

Lemma f64_as_uint_bounds mx x : 0 <= mx -> 0 <= f64_as_uint mx x <= mx.
Proof.
  intros Hmx. destruct x as [s|s| |s m e]; simpl; try (destruct s); try lia.
  pose proof (trunc_mag_nonneg m e). lia.
Qed.

Lemma f64_as_u32_bounds x : is_u32 (f64_as_u32 x).
Proof. apply f64_as_uint_bounds. unfold u32_max. lia. Qed.

Lemma f64_as_u64_bounds x : is_u64 (f64_as_u64 x).
Proof. apply f64_as_uint_bounds. unfold u64_max. lia. Qed.

#[export] Hint Resolve f64_as_u32_bounds f64_as_u64_bounds : symphony.

(** ** Order and truncation

    A double is an integer number of the smallest positive double, [2^-1074]. *)

Definition f64_valid (x : f64) : Prop := valid_binary 53 1024 x = true.

Definition ulps (x : f64) : Z :=
  match x with S754_finite s m e => (if s then -1 else 1) * (Zpos m * 2 ^ (e + 1074)) | _ => 0 end.

(** An integer in that unit. *)
Definition in_ulps (z : Z) : Z := z * 2 ^ 1074.

Lemma pow_split a b : 0 <= a -> 0 <= b -> 2 ^ (a + b) = 2 ^ a * 2 ^ b.
Proof. intros. by apply Z.pow_add_r. Qed.

Lemma digits_bounds m : 2 ^ (Zpos (digits2_pos m) - 1) <= Zpos m < 2 ^ Zpos (digits2_pos m).
Proof.
  induction m as [m IH|m IH|]; simpl digits2_pos; [| |by simpl];
    rewrite Pos2Z.inj_succ; replace (Z.succ (Zpos (digits2_pos m)) - 1) with (Zpos (digits2_pos m)) by lia;
    rewrite Z.pow_succ_r by lia;
    replace (2 ^ Zpos (digits2_pos m)) with (2 * 2 ^ (Zpos (digits2_pos m) - 1)) in *
      by (rewrite <- Z.pow_succ_r by lia; f_equal; lia); lia.
Qed.

(** A valid mantissa has at most 53 digits, and exactly 53 above the least exponent. *)
Lemma valid_finite s m e :
  f64_valid (S754_finite s m e) ->
  -1074 <= e /\ Zpos m < 2 ^ 53 /\ (-1074 < e -> 2 ^ 52 <= Zpos m).
Proof.
  unfold f64_valid, valid_binary, bounded, canonical_mantissa. rewrite andb_true_iff. intros [He _].
  apply Z.eqb_eq in He. unfold fexp, emin in He. pose proof (digits_bounds m) as Hm. split; [lia |]. split.
  - eapply Z.lt_le_trans; [apply Hm |]. apply Z.pow_le_mono_r; lia.
  - intros Hlt. etrans; [|apply Hm]. apply Z.pow_le_mono_r; lia.
Qed.

Lemma exponent_decides s m e s' m' e' :
  f64_valid (S754_finite s m e) -> f64_valid (S754_finite s' m' e') -> e < e' ->
  Zpos m * 2 ^ (e + 1074) < Zpos m' * 2 ^ (e' + 1074).
Proof.
  intros Hx Hy Hlt. apply valid_finite in Hx as (Hx & Hm & _). apply valid_finite in Hy as (_ & _ & Hm').
  specialize (Hm' ltac:(lia)). assert (0 < 2 ^ (e + 1074)) by (apply Z.pow_pos_nonneg; lia).
  assert (2 ^ (e + 1074) * 2 <= 2 ^ (e' + 1074)).
  { change 2 with (2 ^ 1) at 2. rewrite <- pow_split by lia. apply Z.pow_le_mono_r; lia. }
  change (2 ^ 53) with (2 ^ 52 * 2) in Hm. nia.
Qed.

Lemma f64_ltb_positive m e m' e' :
  f64_valid (S754_finite false m e) -> f64_valid (S754_finite false m' e') ->
  f64_ltb (S754_finite false m e) (S754_finite false m' e') = true <->
  ulps (S754_finite false m e) < ulps (S754_finite false m' e').
Proof.
  intros Hx Hy. unfold f64_ltb, SFltb, SFcompare. cbn [ulps]. rewrite !Z.mul_1_l.
  destruct (Z.compare_spec e e') as [->|Hlt|Hgt].
  - pose proof (valid_finite _ _ _ Hx) as (He & _). assert (0 < 2 ^ (e' + 1074)) by (apply Z.pow_pos_nonneg; lia).
    change (Pcompare m m' Eq) with (Pos.compare m m'). destruct (Pos.compare_spec m m'); [subst| |];
      (split; [done || (intros _) | done || (intros)]); nia.
  - split; [intros _ | done]. by eapply exponent_decides.
  - pose proof (exponent_decides _ _ _ _ _ _ Hy Hx Hgt). split; [done | lia].
Qed.

(** A finite double that is not below a positive one is positive, and at least
    that many units. *)
Lemma not_below x m' e' :
  f64_valid x -> f64_valid (S754_finite false m' e') -> f64_is_finite x = true ->
  f64_ltb x (S754_finite false m' e') = false ->
  exists m e, x = S754_finite false m e /\ ulps (S754_finite false m' e') <= ulps x.
Proof.
  intros Hx Hy Hf Hlt. destruct x as [s|s| |[] m e]; try done. exists m, e. split; [done |].
  pose proof (f64_ltb_positive m e m' e' Hx Hy). rewrite Hlt in *. destruct (Z.lt_ge_cases (ulps (S754_finite false m e))
    (ulps (S754_finite false m' e'))); [|done]. by assert (false = true) by tauto.
Qed.

Lemma not_above m e m' e' :
  f64_valid (S754_finite false m e) -> f64_valid (S754_finite false m' e') ->
  f64_ltb (S754_finite false m' e') (S754_finite false m e) = false ->
  ulps (S754_finite false m e) <= ulps (S754_finite false m' e').
Proof.
  intros Hx Hy Hlt. pose proof (f64_ltb_positive m' e' m e Hy Hx). rewrite Hlt in *.
  destruct (Z.lt_ge_cases (ulps (S754_finite false m' e')) (ulps (S754_finite false m e))); [|done].
  by assert (false = true) by tauto.
Qed.

Lemma trunc_ulps m e : -1074 <= e -> trunc_mag m e = Zpos m * 2 ^ (e + 1074) / 2 ^ 1074.
Proof.
  intros He. unfold trunc_mag. destruct (Z.leb_spec 0 e).
  - rewrite Z.shiftl_mul_pow2, pow_split, Z.mul_assoc by lia. by rewrite Z.div_mul.
  - rewrite Z.shiftr_div_pow2 by lia. replace (2 ^ 1074) with (2 ^ (- e) * 2 ^ (e + 1074))
      by (rewrite <- pow_split by lia; f_equal; lia).
    rewrite Z.div_mul_cancel_r; [done | |]; apply Z.pow_nonzero; lia.
Qed.

(** A remainder of zero: a whole multiple. *)
Lemma rem_zero m e m' e' :
  -1074 <= e -> -1074 <= e' -> f64_eqb (f64_rem (S754_finite false m e) (S754_finite false m' e')) f64_zero = true ->
  exists q, ulps (S754_finite false m e) = q * ulps (S754_finite false m' e').
Proof.
  intros He He'. unfold f64_rem. set (k := Z.min e e'). cbv zeta. cbn [ulps]. rewrite !Z.mul_1_l.
  set (X := Z.shiftl (Zpos m) (e - k)). set (Y := Z.shiftl (Zpos m') (e' - k)). intros Hr. exists (X / Y).
  assert (0 < Y) as HY.
  { unfold Y. rewrite Z.shiftl_mul_pow2 by lia. apply Z.mul_pos_pos; [lia |]. apply Z.pow_pos_nonneg; lia. }
  assert (X mod Y = 0) as H0.
  { pose proof (Z.mod_pos_bound X Y HY). destruct (X mod Y) as [|p|p]; [done | discriminate Hr | lia]. }
  assert (forall n x, k <= x -> n * 2 ^ (x + 1074) = Z.shiftl n (x - k) * 2 ^ (k + 1074)) as Hs.
  { intros n x Hx. rewrite Z.shiftl_mul_pow2, <- Z.mul_assoc, <- pow_split by lia. do 2 f_equal. lia. }
  rewrite (Hs (Zpos m) e), (Hs (Zpos m') e') by lia. fold X Y. rewrite Z.mul_assoc. f_equal.
  pose proof (Z.div_mod X Y). lia.
Qed.

(** ** Integers up to 2^53 are exact *)

Lemma shifted_value m n : Zpos (Pos.iter xO m n) = Zpos m * 2 ^ Zpos n.
Proof.
  induction n as [|n IH] using Pos.peano_ind; [simpl; lia |]. rewrite Pos.iter_succ.
  change (2 * Zpos (Pos.iter xO m n) = Zpos m * 2 ^ Zpos (Pos.succ n)). rewrite IH, Pos2Z.inj_succ, Z.pow_succ_r; lia.
Qed.

Lemma shifted_digits m n : digits2_pos (Pos.iter xO m n) = (digits2_pos m + n)%positive.
Proof.
  induction n as [|n IH] using Pos.peano_ind; [by rewrite Pos.add_1_r |]. rewrite Pos.iter_succ. simpl. rewrite IH. lia.
Qed.

(** A mantissa of full length is neither shifted nor rounded. *)
Lemma round_full m e :
  Zpos (digits2_pos m) = 53 -> -1074 <= e <= 971 ->
  binary_round_aux 53 1024 false (Zpos m) e loc_Exact = S754_finite false m e.
Proof.
  intros Hd He. unfold binary_round_aux, shr_fexp, Zdigits2. rewrite Hd.
  assert (fexp 53 1024 (53 + e) - e = 0) as -> by (unfold fexp, emin; lia). simpl. rewrite Hd.
  assert (fexp 53 1024 (53 + e) - e = 0) as -> by (unfold fexp, emin; lia). cbn [shr shr_record_of_loc shr_m]. change (1024 - 53) with 971.
  by destruct (Z.leb_spec e 971); [|lia].
Qed.

Lemma f64_of_Z_exact mx z : 0 <= z < 2 ^ 53 -> z <= mx -> f64_as_uint mx (f64_of_Z z) = z.
Proof.
  intros [H0 H53] Hmx. destruct z as [|m|m]; [done | | lia].
  pose proof (digits_bounds m) as [Hlo _].
  assert (Zpos (digits2_pos m) <= 53) as Hd.
  { destruct (Z.le_gt_cases (Zpos (digits2_pos m)) 53); [done |]. exfalso.
    pose proof (Z.pow_le_mono_r 2 53 (Zpos (digits2_pos m) - 1)). lia. }
  unfold f64_of_Z, binary_normalize, binary_round, shl_align.
  assert (fexp 53 1024 (Zpos (digits2_pos m) + 0) - 0 = Zpos (digits2_pos m) - 53) as -> by (unfold fexp, emin; lia).
  assert (fexp 53 1024 (Zpos (digits2_pos m) + 0) = Zpos (digits2_pos m) - 53) as -> by (unfold fexp, emin; lia).
  destruct (Zpos (digits2_pos m) - 53) as [|n|n] eqn:En; [| lia |].
  - rewrite round_full by lia. unfold f64_as_uint. change (trunc_mag m 0) with (Zpos m). by rewrite Z.min_r.
  - rewrite round_full; [| rewrite shifted_digits; lia | lia]. unfold f64_as_uint, trunc_mag.
    change (0 <=? Zneg n) with false. change (- Zneg n) with (Zpos n).
    rewrite shifted_value, Z.shiftr_div_pow2, Z.div_mul by lia. by rewrite Z.min_r.
Qed.

(** Concrete values, checked against the doubles a Rust program computes. *)
Example f64_half_up : f64_as_u32 (f64_round (f64_lit 5 2)) = 3.
Proof. reflexivity. Qed.
Example f64_point_one : f64_as_u64 (f64_mul (f64_lit 1 10) (f64_of_Z 1000)) = 100.
Proof. reflexivity. Qed.
Example f64_saturates : f64_as_u32 (f64_of_Z (2 ^ 40)) = u32_max.
Proof. reflexivity. Qed.
Example f64_rem_fraction : f64_rem (f64_lit 2001 2) (f64_of_Z 1000) = f64_lit 1 2.
Proof. reflexivity. Qed.
Example f64_div_zero : f64_as_u32 (f64_div f64_zero f64_zero) = 0.
Proof. reflexivity. Qed.
