(* ===== verification/Net.v ===== *)
(** * Addresses

    [std::net::IpAddr] and [SocketAddr] with the canonical form of an
    IPv4-mapped address, and the interface of the [ipnetwork] crate, which is
    not part of the repository: CIDR blocks are a parameter of the model. *)

From S2P Require Import Prelude Bytes.

Open Scope Z_scope.

(** An address is its integer: 32 bits for IPv4, 128 bits for IPv6 (the bounds
    are 2^32 and 2^128, the mapped prefix is 0xffff * 2^32). *)
Inductive IpAddr : Type :=
  | V4 (a : Z)
  | V6 (a : Z).

#[global] Instance IpAddr_eq_dec : EqDecision IpAddr.
Proof. solve_decision. Defined.

#[global] Instance IpAddr_countable : Countable IpAddr.
Proof.
  apply (inj_countable'
    (fun ip => match ip with V4 a => inl a | V6 a => inr a end)
    (fun s => match s with inl a => V4 a | inr a => V6 a end)).
  by intros [].
Defined.

Definition ip_ok (ip : IpAddr) : Prop :=
  match ip with
  | V4 a => 0 <= a < 4294967296
  | V6 a => 0 <= a < 340282366920938463463374607431768211456
  end.

(** [Ipv6Addr::to_ipv4_mapped]: the low 32 bits of an address in ::ffff:0:0/96. *)
Definition to_ipv4_mapped (a : Z) : option Z :=
  if Z.shiftr a 32 =? 65535 then Some (a mod 4294967296) else None.

(** [IpAddr::to_canonical] *)
Definition to_canonical (ip : IpAddr) : IpAddr :=
  match ip with
  | V4 a => V4 a
  | V6 a => match to_ipv4_mapped a with Some v4 => V4 v4 | None => V6 a end
  end.

Record SocketAddr : Type := mkSocketAddr { sa_ip : IpAddr; sa_port : Z }.

#[global] Instance SocketAddr_eq_dec : EqDecision SocketAddr.
Proof. solve_decision. Defined.

Definition addr_ok (a : SocketAddr) : Prop := ip_ok (sa_ip a) /\ 0 <= sa_port a <= u16_max.

(** [octets()] and [From<[u8; N]>]: big-endian bytes of an [n]-byte integer. *)
Fixpoint to_be (n : nat) (z : Z) : bytes :=
  match n with
  | O => []
  | S n' => to_be n' (z / 256) ++ [z mod 256]
  end.

Definition from_be (s : bytes) : Z := foldl (fun acc b => acc * 256 + b) 0 s.

Lemma length_to_be n z : length (to_be n z) = n.
Proof. revert z; induction n as [|n IH]; intros z; simpl; [done |]. rewrite length_app, IH. simpl. lia. Qed.

Lemma to_be_ok n z : bytes_ok (to_be n z).
Proof.
  revert z; induction n as [|n IH]; intros z; simpl; [constructor |].
  apply Forall_app; split; [apply IH |]. constructor; [apply Z.mod_pos_bound; lia | constructor].
Qed.

Lemma from_to_be n z : 0 <= z < 256 ^ Z.of_nat n -> from_be (to_be n z) = z.
Proof.
  unfold from_be. revert z; induction n as [|n IH]; intros z Hz.
  { simpl in *. lia. }
  cbn [to_be]. rewrite foldl_app. rewrite IH.
  - cbn [foldl]. rewrite Z.mul_comm. symmetry. by apply Z.div_mod.
  - rewrite Nat2Z.inj_succ in Hz. rewrite Z.pow_succ_r in Hz by apply Nat2Z.is_nonneg.
    destruct Hz as [Hz0 Hz1]. split; [by apply Z.div_pos |]. by apply Z.div_lt_upper_bound.
Qed.

Lemma to_canonical_idemp ip : to_canonical (to_canonical ip) = to_canonical ip.
Proof.
  destruct ip as [a|a]; [reflexivity |]. unfold to_canonical at 2 3.
  destruct (to_ipv4_mapped a) eqn:E; [reflexivity |]. unfold to_canonical. by rewrite E.
Qed.

(** The IPv6 form under which a dual-stack listener reports an IPv4 client. *)
Definition mapped (a : Z) : IpAddr := V6 (281470681743360 + a).

Lemma to_canonical_mapped a : 0 <= a < 4294967296 -> to_canonical (mapped a) = V4 a.
Proof.
  intros Ha. unfold to_canonical, mapped, to_ipv4_mapped.
  rewrite Z.shiftr_div_pow2 by lia. change (2 ^ 32) with 4294967296.
  replace ((281470681743360 + a) / 4294967296) with 65535.
  - rewrite Z.eqb_refl. f_equal. symmetry. apply (Z.mod_unique _ _ 65535); lia.
  - apply (Z.div_unique _ _ _ a); lia.
Qed.

Lemma to_canonical_ok ip : ip_ok ip -> ip_ok (to_canonical ip).
Proof.
  destruct ip as [a|a]; [auto |]. unfold to_canonical, to_ipv4_mapped. intros Ha.
  destruct (Z.shiftr a 32 =? 65535); [apply Z.mod_pos_bound; lia | assumption].
Qed.

(** ** The [ipnetwork] crate

    A CIDR block with its membership test and its parser ([FromStr]); [net_v6]
    exposes the address and prefix of an IPv6 block, [net_of_v4] builds an IPv4
    one, as the constructors of the crate do. *)
Class NetLib : Type := {
  IpNetwork : Type;
  net_contains : IpNetwork -> IpAddr -> bool;
  net_parse : bytes -> option IpNetwork;
  net_v6 : IpNetwork -> option (Z * Z);
  net_of_v4 : Z -> Z -> option IpNetwork;
}.

(** A concrete instance, used by the witnesses: a block is an address and a
    prefix length, and an entry is parsed from the address's raw bytes. *)
Definition prefix_contains (width a len b : Z) : bool :=
  Z.shiftr a (width - len) =? Z.shiftr b (width - len).

Inductive cidr : Type := Cidr4 (a len : Z) | Cidr6 (a len : Z).

#[local] Instance cidr_lib : NetLib := {|
  IpNetwork := cidr;
  net_contains n ip :=
    match n, ip with
    | Cidr4 a len, V4 b => prefix_contains 32 a len b
    | Cidr6 a len, V6 b => prefix_contains 128 a len b
    | _, _ => false
    end;
  net_parse s :=
    match s with
    | [len; a; b; c; d] => if (0 <=? len) && (len <=? 32) then Some (Cidr4 (from_be [a; b; c; d]) len) else None
    | len :: s' => if (length s' =? 16)%nat && (0 <=? len) && (len <=? 128) then Some (Cidr6 (from_be s') len) else None
    | [] => None
    end;
  net_v6 n := match n with Cidr6 a len => Some (a, len) | _ => None end;
  net_of_v4 a len := if len <=? 32 then Some (Cidr4 a len) else None;
|}.

(** Documented behaviour of the crate: a block contains the addresses of its own
    family that share its prefix, and a prefix is at most the width. *)
Class NetLibOk `{NetLib} : Prop := {
  net_v6_contains : forall n a len ip, net_v6 n = Some (a, len) ->
    net_contains n ip =
    match ip with V6 b => prefix_contains 128 a len b | V4 _ => false end;
  net_v6_range : forall e n a len,
    net_parse e = Some n -> net_v6 n = Some (a, len) -> 0 <= len <= 128;
  net_of_v4_total : forall a len, 0 <= len <= 32 -> is_Some (net_of_v4 a len);
  net_of_v4_contains : forall a len n ip, net_of_v4 a len = Some n ->
    net_contains n ip =
    match ip with V4 b => prefix_contains 32 a len b | V6 _ => false end;
}.

(** ** Source lists (src/src/router.rs)

    [allowedSources], the protection allow and block lists and the failover
    ingress's trusted sources all come through [parse_source_network]. *)

Inductive source_error : Type :=
  | CidrInvalid
  | MappedPrefixUnder96
  | MappedRange.

Section Sources.
Context `{NetLib}.

Definition parse_source_network (entry : bytes) : result source_error IpNetwork :=
  network ← ok_or CidrInvalid (net_parse entry);
  match net_v6 network with
  | Some (ip, prefix) =>
      match to_ipv4_mapped ip with
      | Some v4 =>
          if prefix <? 96 then Err MappedPrefixUnder96
          else ok_or MappedRange (net_of_v4 v4 (prefix - 96))
      | None => Ok network
      end
  | None => Ok network
  end.

Definition SourceAllowlist : Type := list IpNetwork.

Definition parse_required (entries : list bytes) : result source_error SourceAllowlist :=
  try_map parse_source_network entries.

Definition SourceAllowlist_parse (entries : list bytes)
    : result source_error (option SourceAllowlist) :=
  match entries with
  | [] => Ok None
  | _ => nets ← parse_required entries; Ok (Some nets)
  end.

(** [any] over a list of blocks *)
Definition any_contains (nets : list IpNetwork) (ip : IpAddr) : bool :=
  existsb (fun n => net_contains n ip) nets.

Definition permits (nets : SourceAllowlist) (peer : IpAddr) : bool :=
  any_contains nets (to_canonical peer).
End Sources.

Lemma shiftr_high hi lo k :
  0 <= k <= 32 -> Z.shiftr (hi * 4294967296 + lo) k = hi * 2 ^ (32 - k) + Z.shiftr lo k.
Proof.
  intros Hk. rewrite !Z.shiftr_div_pow2 by lia.
  replace (hi * 4294967296) with (hi * 2 ^ (32 - k) * 2 ^ k).
  - rewrite Z.div_add_l; [done |]. apply Z.pow_nonzero; lia.
  - rewrite <- Z.mul_assoc, <- Z.pow_add_r by lia. by replace (32 - k + k) with 32 by lia.
Qed.

Lemma mapped_prefix a v4 len b :
  to_ipv4_mapped a = Some v4 -> 96 <= len <= 128 ->
  prefix_contains 32 v4 (len - 96) b = prefix_contains 128 a len (281470681743360 + b).
Proof.
  unfold to_ipv4_mapped, prefix_contains. intros Ha Hlen.
  case_match eqn:E; [|done]. injection Ha as <-. bool_to_prop.
  rewrite Z.shiftr_div_pow2 in E by lia. change (2 ^ 32) with 4294967296 in E.
  pose proof (Z.div_mod a 4294967296) as Hdm. rewrite E in Hdm.
  replace (32 - (len - 96)) with (128 - len) by lia.
  replace a with (65535 * 4294967296 + a mod 4294967296) at 2 by lia.
  change 281470681743360 with (65535 * 4294967296).
  rewrite !shiftr_high by lia. apply eq_true_iff_eq. rewrite !Z.eqb_eq. lia.
Qed.

Lemma cidr_lib_ok : NetLibOk (H := cidr_lib).
Proof.
  split; cbn [net_v6 net_contains net_parse net_of_v4 cidr_lib IpNetwork].
  - intros n a len ip E. destruct n, ip; simplify_eq; done.
  - intros e n a len Hp Hn. destruct n as [? ?|a' len']; simplify_eq.
    assert (forall s, match s with
      | l :: s' => if (length s' =? 16)%nat && (0 <=? l) && (l <=? 128)
                   then Some (Cidr6 (from_be s') l) else None
      | [] => None end = Some (Cidr6 a len) -> 0 <= len <= 128) as Hgen.
    { intros [|l s']; [discriminate |]. destruct (_ && _) eqn:E; [|discriminate].
      intros [= _ <-]. bool_to_prop. lia. }
    specialize (Hgen e).
    destruct e as [|l [|x1 [|x2 [|x3 [|x4 [|x5 e]]]]]]; try exact (Hgen Hp).
    destruct (_ && _) in Hp; discriminate Hp.
  - intros a len Hl. rewrite (proj2 (Z.leb_le _ _)) by lia. by eexists.
  - intros a len n ip. case_match; [|done]. intros [= <-]. by destruct ip.
Qed.

(** ** Properties *)

Module Properties.

(** An entry written as an IPv4-mapped block ([::ffff:a.b.c.d/96+p]) is
    accepted as the IPv4 block it denotes: it admits an IPv4 client, in either
    of the two forms a listener may report, exactly when the block as written
    contains the client's mapped address; with a prefix below 96 it is refused. *)
Theorem mapped_entry_means_its_ipv4_block `{NetLibOk} entry n a len v4 b :
  net_parse entry = Some n -> net_v6 n = Some (a, len) -> to_ipv4_mapped a = Some v4 ->
  0 <= b < 4294967296 ->
  match parse_source_network entry with
  | Ok n' =>
      96 <= len /\
      permits [n'] (V4 b) = net_contains n (mapped b) /\
      permits [n'] (mapped b) = net_contains n (mapped b)
  | Err e => len < 96 /\ e = MappedPrefixUnder96
  end.
Proof.
  intros Hp Hn Ha Hb. pose proof (net_v6_range entry n a len Hp Hn) as Hlen.
  unfold parse_source_network. rewrite Hp. cbn [ok_or mbind result_bind]. rewrite Hn, Ha.
  destruct (Z.ltb_spec len 96); [done |].
  destruct (net_of_v4_total v4 (len - 96)) as [n' Hn']; [lia |]. rewrite Hn'. cbn [ok_or].
  unfold permits, any_contains. rewrite (to_canonical_mapped b Hb). cbn [existsb to_canonical].
  rewrite (net_of_v4_contains v4 (len - 96) n' _ Hn'), orb_false_r.
  unfold mapped. rewrite (net_v6_contains n a len _ Hn).
  rewrite (mapped_prefix a v4 len b Ha) by lia. done.
Qed.

Lemma mapped_entry_means_its_ipv4_block_witness :
  let entry := 104 :: to_be 16 (281470681743360 + 167772160) in
  match parse_source_network entry with
  | Ok n' => permits [n'] (V4 167772161) = true /\ permits [n'] (V4 184549376) = false
  | Err _ => False
  end.
Proof.
  intros entry.
  pose proof (mapped_entry_means_its_ipv4_block (H0 := cidr_lib_ok) entry
    (Cidr6 (281470681743360 + 167772160) 104) (281470681743360 + 167772160) 104 167772160 167772161
    eq_refl eq_refl eq_refl ltac:(lia)) as Hin.
  pose proof (mapped_entry_means_its_ipv4_block (H0 := cidr_lib_ok) entry
    (Cidr6 (281470681743360 + 167772160) 104) (281470681743360 + 167772160) 104 167772160 184549376
    eq_refl eq_refl eq_refl ltac:(lia)) as Hout.
  destruct (parse_source_network entry) as [n'|e] eqn:E; [| by vm_compute in E].
  split; [rewrite (proj1 (proj2 Hin)) | rewrite (proj1 (proj2 Hout))]; by vm_compute.
Defined.
End Properties.
