(* ===== verification/IpText.v ===== *)
(** * Addresses as text

    The parsers of [std::net] that the configuration code calls through
    [str::parse]: [IpAddr] (failover peers) and [SocketAddr] (TCP upstreams).
    They follow the library's recursive descent: a reader takes the rest of the
    input and returns what it read with what is left, or fails and consumes
    nothing; the whole text must be consumed. *)

From S2P Require Import Prelude Bytes Net.

Open Scope Z_scope.

Definition reader (A : Type) : Type := bytes -> option (A * bytes).

Definition read_given (c : Z) : reader unit := fun s =>
  match s with b :: s' => if b =? c then Some (tt, s') else None | [] => None end.

(** Digits while they last; [None] on overflow past [mx] or on too many. *)
Fixpoint read_digits (radix mx : Z) (max_digits : option nat) (s : bytes) (count : nat) (acc : Z)
    : option (Z * nat * bytes) :=
  match s with
  | b :: s' =>
      match digit_val radix b with
      | Some d =>
          let acc' := acc * radix + d in
          if mx <? acc' then None
          else if match max_digits with Some m => (m <? S count)%nat | None => false end then None
          else read_digits radix mx max_digits s' (S count) acc'
      | None => Some (acc, count, s)
      end
  | [] => Some (acc, count, [])
  end.

Definition read_number (radix mx : Z) (max_digits : option nat) (allow_zero_prefix : bool) : reader Z :=
  fun s =>
    '(v, count, rest) ← read_digits radix mx max_digits s 0 0;
    if (count =? 0)%nat then None
    else if negb allow_zero_prefix && match s with 48 :: _ => true | _ => false end && (1 <? count)%nat
    then None
    else Some (v, rest).

Definition read_separator {A} (sep : Z) (index : nat) (inner : reader A) : reader A := fun s =>
  if (index =? 0)%nat then inner s else '(_, s') ← read_given sep s; inner s'.

Fixpoint read_octets (n index : nat) (acc : Z) : reader Z := fun s =>
  match n with
  | O => Some (acc, s)
  | S n' =>
      '(o, s') ← read_separator 46 index (read_number 10 u8_max (Some 3%nat) false) s;
      read_octets n' (S index) (acc * 256 + o) s'
  end.
Definition read_ipv4_addr : reader Z := read_octets 4 0 0.

(** [read_groups] on a slice of [n] groups: what it filled, and whether the last
    two came from an embedded IPv4 address. *)
Fixpoint read_groups (n index : nat) (s : bytes) : list Z * bool * bytes :=
  match n with
  | O => ([], false, s)
  | S n' =>
      match (if (0 <? n')%nat then read_separator 58 index read_ipv4_addr s else None) with
      | Some (v4, s') => ([Z.shiftr v4 16; Z.land v4 65535], true, s')
      | None =>
          match read_separator 58 index (read_number 16 u16_max (Some 4%nat) true) s with
          | Some (g, s') => let '(gs, v4, s'') := read_groups n' (S index) s' in (g :: gs, v4, s'')
          | None => ([], false, s)
          end
      end
  end.

Definition groups_value (gs : list Z) : Z := foldl (fun acc g => acc * 65536 + g) 0 gs.

Definition read_ipv6_addr : reader Z := fun s =>
  let '(head, head_ipv4, s1) := read_groups 8 0 s in
  if (length head =? 8)%nat then Some (groups_value head, s1)
  else if head_ipv4 then None
  else
    '(_, s2) ← read_given 58 s1;
    '(_, s3) ← read_given 58 s2;
    let '(tail, _, s4) := read_groups (8 - (length head + 1)) 0 s3 in
    Some (groups_value (head ++ replicate (8 - length head - length tail) 0 ++ tail), s4).

Definition whole {A} (r : reader A) (s : bytes) : option A :=
  match r s with Some (a, []) => Some a | _ => None end.

(** The first reader, or the second from the same place. *)
Definition or_else {A} (r1 r2 : reader A) : reader A := fun s =>
  match r1 s with Some x => Some x | None => r2 s end.

Definition map_reader {A B} (f : A -> B) (r : reader A) : reader B := fun s =>
  '(a, s') ← r s; Some (f a, s').

(** [str::parse::<IpAddr>] *)
Definition parse_ip : bytes -> option IpAddr :=
  whole (or_else (map_reader V4 read_ipv4_addr) (map_reader V6 read_ipv6_addr)).

Definition read_port : reader Z := fun s =>
  '(_, s') ← read_given 58 s; read_number 10 u16_max None true s'.

Definition read_socket_v4 : reader SocketAddr := fun s =>
  '(ip, s1) ← read_ipv4_addr s; '(port, s2) ← read_port s1; Some (mkSocketAddr (V4 ip) port, s2).

Definition skip_scope_id (s : bytes) : bytes :=
  match ('(_, s1) ← read_given 37 s; read_number 10 u32_max None true s1) with
  | Some (_, s2) => s2
  | None => s
  end.

Definition read_socket_v6 : reader SocketAddr := fun s =>
  '(_, s1) ← read_given 91 s;
  '(ip, s2) ← read_ipv6_addr s1;
  '(_, s3) ← read_given 93 (skip_scope_id s2);
  '(port, s4) ← read_port s3;
  Some (mkSocketAddr (V6 ip) port, s4).

(** [str::parse::<SocketAddr>]; a scope id is read and not kept. *)
Definition parse_socket_addr : bytes -> option SocketAddr := whole (or_else read_socket_v4 read_socket_v6).

(** ** Examples *)

Example parse_ip_v4 : parse_ip (bs "10.0.0.255") = Some (V4 167772415). Proof. by vm_compute. Qed.
Example parse_ip_leading_zero : parse_ip (bs "10.0.0.05") = None. Proof. by vm_compute. Qed.
Example parse_ip_short : parse_ip (bs "10.0.0") = None. Proof. by vm_compute. Qed.
Example parse_ip_v6 : parse_ip (bs "2001:db8::1") = Some (V6 42540766411282592856903984951653826561).
Proof. by vm_compute. Qed.
Example parse_ip_mapped : parse_ip (bs "::ffff:10.0.0.1") = Some (mapped 167772161). Proof. by vm_compute. Qed.
Example parse_ip_two_gaps : parse_ip (bs "1::2::3") = None. Proof. by vm_compute. Qed.
Example parse_socket_v4 :
  parse_socket_addr (bs "127.0.0.1:1") = Some (mkSocketAddr (V4 2130706433) 1).
Proof. by vm_compute. Qed.
Example parse_socket_v6 :
  parse_socket_addr (bs "[::1%3]:443") = Some (mkSocketAddr (V6 1) 443).
Proof. by vm_compute. Qed.
Example parse_socket_bare_v6 : parse_socket_addr (bs "::1:443") = None. Proof. by vm_compute. Qed.
