(* ===== verification/TokenBucket.v ===== *)
(** * Token buckets

    The lock-free fixed-point token bucket, which the code has twice:
    [refill_and_consume] in src/src/protection.rs (two buckets per client
    address) and [RouteTokenBucket] in src/src/router.rs (one per route).

    - [Limiter]/[LimiterOk] is the contract both keep, and [Limiter_admissions]
      is proved against the contract alone.
    - [Module Atomic] runs one call at a time; it is the function the components
      that use a bucket call.
    - [Module Threads] is the same code as a step relation: any number of
      threads interleave at every atomic load and compare-exchange. *)

From S2P Require Import Prelude Float64.

Open Scope Z_scope.

(** One token in fixed point. *)
Definition ONE_TOKEN : Z := 1000.

(** [(elapsed as f64 * rate_per_ns * 1000.0) as u32] with
    [elapsed = now.saturating_sub(last)] *)
Definition refill_amount (now last : Z) (rate : f64) : Z :=
  f64_as_u32 (f64_mul (f64_mul (f64_of_Z (saturating_sub now last)) rate) (f64_of_Z 1000)).

(** [old.saturating_add(refill).min(burst_fp)] *)
Definition refilled (old refill burst : Z) : Z := Z.min (u32_saturating_add old refill) burst.

Lemma refill_amount_bounds now last rate : is_u32 (refill_amount now last rate).
Proof. apply f64_as_u32_bounds. Qed.

#[export] Hint Resolve refill_amount_bounds : symphony.

(** ** The contract of a rate limiter *)

Class Limiter (S : Type) : Type := {
  lim_ok : S -> Prop;
  lim_tokens : S -> Z;
  lim_burst : S -> Z;
  lim_gain : S -> Z -> Z;
  lim_acquire : S -> Z -> bool * S;
}.

(** What one call promises: it first credits [lim_gain] (which never lifts the
    count above the ceiling), then takes exactly one token when there is one and
    nothing when there is not. *)
Class LimiterOk (S : Type) `{Limiter S} : Prop := {
  lim_acquire_ok : forall s now, lim_ok s -> lim_ok (lim_acquire s now).2;
  lim_acquire_burst : forall s now, lim_burst (lim_acquire s now).2 = lim_burst s;
  lim_bounds : forall s, lim_ok s -> 0 <= lim_tokens s <= lim_burst s;
  lim_gain_bounds : forall s now, lim_ok s ->
    0 <= lim_gain s now /\ lim_tokens s + lim_gain s now <= lim_burst s;
  lim_conserves : forall s now, lim_ok s ->
    lim_tokens (lim_acquire s now).2 + (if (lim_acquire s now).1 then ONE_TOKEN else 0)
    = lim_tokens s + lim_gain s now;
  lim_decides : forall s now, lim_ok s ->
    (lim_acquire s now).1 = (ONE_TOKEN <=? lim_tokens s + lim_gain s now);
}.

Section LimiterClient.
Context {S : Type} `{LimiterOk S}.

(** A run of calls at the given times: how many were admitted, what was
    credited in total, and the state left. *)
Fixpoint lim_run (s : S) (times : list Z) : Z * Z * S :=
  match times with
  | [] => (0, 0, s)
  | t :: times' =>
      let '(b, s') := lim_acquire s t in
      let '(n, g, s'') := lim_run s' times' in
      ((if b then 1 else 0) + n, lim_gain s t + g, s'')
  end.

Lemma lim_run_spec s times :
  lim_ok s ->
  let '(n, g, s') := lim_run s times in
  lim_ok s' /\ lim_burst s' = lim_burst s /\
  lim_tokens s' + ONE_TOKEN * n = lim_tokens s + g.
Proof.
  revert s; induction times as [|t times IH]; intros s Hok; simpl.
  { split_and!; [done | done | unfold ONE_TOKEN; lia]. }
  pose proof (lim_acquire_ok s t Hok) as Hok'.
  pose proof (lim_acquire_burst s t) as Hb.
  pose proof (lim_conserves s t Hok) as Hc.
  destruct (lim_acquire s t) as [b s']; simpl in *.
  specialize (IH s' Hok'). destruct (lim_run s' times) as [[n g] s''].
  destruct IH as (? & ? & ?). split_and!; [done | congruence |].
  destruct b; lia.
Qed.

(** Admissions never outrun the tokens there were plus the tokens credited. *)
Lemma Limiter_admissions s times :
  lim_ok s ->
  let '(n, g, _) := lim_run s times in
  ONE_TOKEN * n <= lim_tokens s + g /\ ONE_TOKEN * n <= lim_burst s + g.
Proof.
  intros Hok. pose proof (lim_run_spec s times Hok) as Hrun.
  destruct (lim_run s times) as [[n g] s']. destruct Hrun as (Hok' & _ & Heq).
  pose proof (lim_bounds s' Hok'). pose proof (lim_bounds s Hok). lia.
Qed.
End LimiterClient.

(** ** One call at a time *)

Module Atomic.
(** The two atomics of a bucket: the count in fixed point and the time of the
    last refill. *)
Record bucket : Type := mkBucket { tokens : Z; last_refill_ns : Z }.

Definition bucket_ok (burst : Z) (b : bucket) : Prop :=
  0 <= tokens b <= burst /\ is_u32 burst.

(** The refill phase. *)
Definition refill (b : bucket) (now : Z) (rate : f64) (burst : Z) : bucket :=
  let r := refill_amount now (last_refill_ns b) rate in
  if r =? 0 then b else mkBucket (refilled (tokens b) r burst) now.

(** The refill phase, then the consume phase. *)
Definition refill_and_consume (b : bucket) (now : Z) (rate : f64) (burst : Z) : bool * bucket :=
  let b' := refill b now rate burst in
  if tokens b' <? ONE_TOKEN then (false, b')
  else (true, mkBucket (tokens b' - ONE_TOKEN) (last_refill_ns b')).

(** [RouteTokenBucket]: the bucket with its rate and ceiling. *)
Record RouteTokenBucket : Type := mkRouteBucket {
  rb_bucket : bucket;
  rb_rate_per_ns : f64;
  rb_burst_fp : Z;
}.

Definition route_bucket_new (cps : f64) (burst : option f64) (now : Z) : RouteTokenBucket :=
  let ceiling := f64_max (default cps burst) (f64_of_Z 1) in
  let burst_fp := f64_as_u32 (f64_mul ceiling (f64_of_Z 1000)) in
  mkRouteBucket (mkBucket burst_fp now) (f64_div cps (f64_of_Z 1000000000)) burst_fp.

Definition try_acquire (r : RouteTokenBucket) (now : Z) : bool * RouteTokenBucket :=
  let last := last_refill_ns (rb_bucket r) in
  let credit := refill_amount now last (rb_rate_per_ns r) in
  let b :=
    if credit =? 0 then rb_bucket r
    else mkBucket (refilled (tokens (rb_bucket r)) credit (rb_burst_fp r)) now in
  if tokens b <? ONE_TOKEN then (false, mkRouteBucket b (rb_rate_per_ns r) (rb_burst_fp r))
  else (true, mkRouteBucket (mkBucket (tokens b - ONE_TOKEN) (last_refill_ns b))
                (rb_rate_per_ns r) (rb_burst_fp r)).

Lemma refilled_bounds old r burst :
  0 <= old <= burst -> is_u32 burst -> 0 <= r ->
  old <= refilled old r burst <= burst.
Proof. unfold refilled. ulia. Qed.

Lemma refill_bounds b now rate burst :
  bucket_ok burst b -> tokens b <= tokens (refill b now rate burst) <= burst.
Proof.
  intros [Hb Hu]. unfold refill. pose proof (refill_amount_bounds now (last_refill_ns b) rate).
  case_match; simpl; [lia |]. apply refilled_bounds; [done | done | ulia].
Qed.

Lemma refill_and_consume_ok b now rate burst :
  bucket_ok burst b -> bucket_ok burst (refill_and_consume b now rate burst).2.
Proof.
  intros Hok. pose proof (refill_bounds b now rate burst Hok). destruct Hok as [? ?].
  unfold refill_and_consume, bucket_ok. case_match eqn:E; bool_to_prop; simpl;
    unfold ONE_TOKEN in *; split; auto; lia.
Qed.

(** A bucket of a client address as a [Limiter], for a fixed rate and ceiling. *)
Record paced : Type := mkPaced { p_bucket : bucket; p_rate : f64; p_burst : Z }.

#[global] Instance paced_limiter : Limiter paced := {|
  lim_ok p := bucket_ok (p_burst p) (p_bucket p);
  lim_tokens p := tokens (p_bucket p);
  lim_burst p := p_burst p;
  lim_gain p now :=
    tokens (refill (p_bucket p) now (p_rate p) (p_burst p)) - tokens (p_bucket p);
  lim_acquire p now :=
    let '(ok, b) := refill_and_consume (p_bucket p) now (p_rate p) (p_burst p) in
    (ok, mkPaced b (p_rate p) (p_burst p));
|}.

#[global] Instance paced_limiter_ok : LimiterOk paced.
Proof.
  split; intros [b r burst]; simpl.
  - intros now Hok. pose proof (refill_and_consume_ok b now r burst Hok).
    by destruct (refill_and_consume b now r burst).
  - intros now. by destruct (refill_and_consume b now r burst).
  - by intros [? _].
  - intros now Hok. pose proof (refill_bounds b now r burst Hok). lia.
  - intros now Hok. unfold refill_and_consume. cbv zeta. destruct (_ <? _); simpl; lia.
  - intros now Hok. unfold refill_and_consume.
    replace (tokens b + (tokens (refill b now r burst) - tokens b))
      with (tokens (refill b now r burst)) by lia.
    rewrite Z.ltb_antisym. by destruct (ONE_TOKEN <=? tokens (refill b now r burst)).
Qed.

(** The route's bucket is the address's bucket under its own rate and ceiling. *)
Lemma try_acquire_eq r now :
  try_acquire r now =
  (let '(ok, b) := refill_and_consume (rb_bucket r) now (rb_rate_per_ns r) (rb_burst_fp r) in
   (ok, mkRouteBucket b (rb_rate_per_ns r) (rb_burst_fp r))).
Proof. unfold try_acquire, refill_and_consume, refill. repeat case_match; simplify_eq; done. Qed.

#[global] Instance route_limiter : Limiter RouteTokenBucket := {|
  lim_ok r := bucket_ok (rb_burst_fp r) (rb_bucket r);
  lim_tokens r := tokens (rb_bucket r);
  lim_burst := rb_burst_fp;
  lim_gain r now :=
    tokens (refill (rb_bucket r) now (rb_rate_per_ns r) (rb_burst_fp r)) - tokens (rb_bucket r);
  lim_acquire := try_acquire;
|}.

Lemma route_limiter_ok_instance : LimiterOk RouteTokenBucket.
Proof.
  destruct paced_limiter_ok as [H1 H2 H3 H4 H5 H6].
  split; intros [b rt bu]; simpl.
  - intros now Hok. specialize (H1 (mkPaced b rt bu) now Hok). simpl in H1.
    rewrite try_acquire_eq. simpl. by destruct (refill_and_consume b now rt bu).
  - intros now. rewrite try_acquire_eq. simpl. by destruct (refill_and_consume b now rt bu).
  - apply (H3 (mkPaced b rt bu)).
  - intros now. apply (H4 (mkPaced b rt bu)).
  - intros now Hok. specialize (H5 (mkPaced b rt bu) now Hok). simpl in H5.
    rewrite try_acquire_eq. simpl. by destruct (refill_and_consume b now rt bu).
  - intros now Hok. specialize (H6 (mkPaced b rt bu) now Hok). simpl in H6.
    rewrite try_acquire_eq. simpl. by destruct (refill_and_consume b now rt bu).
Qed.

#[global] Existing Instance route_limiter_ok_instance.

Lemma route_bucket_new_ok cps burst now :
  bucket_ok (rb_burst_fp (route_bucket_new cps burst now)) (rb_bucket (route_bucket_new cps burst now)).
Proof.
  unfold route_bucket_new, bucket_ok. simpl.
  pose proof (f64_as_u32_bounds (f64_mul (f64_max (default cps burst) (f64_of_Z 1)) (f64_of_Z 1000))).
  ulia.
Qed.
End Atomic.

(** ** Any interleaving of threads

    The control points of [refill_and_consume]: every load and every
    compare-exchange is a separate step, so another thread may run between any
    two. A failed compare-exchange goes back to the top of its loop. *)

Module Threads.
Section Interleaving.
Context (rate : f64) (burst : Z).

Inductive pc : Type :=
  | LoadLast                      (* about to load [last_refill_ns] *)
  | LoadTokens (last refill : Z)  (* about to load [tokens] *)
  | CasTokens (last refill old : Z)
  | CasLast (last : Z)
  | LoadConsume
  | CasConsume (t : Z)
  | Returned (admitted : bool).

(** A thread is its clock reading and its control point; [granted] is a ghost
    total of what the refill exchanges added to the count. *)
Record cstate : Type := mkC {
  c_tokens : Z;
  c_last : Z;
  c_granted : Z;
  c_threads : list (Z * pc);
}.

(** One atomic step of a thread whose clock reads [now]. *)
Definition step_pc (now : Z) (p : pc) (tokens last granted : Z) : option (pc * Z * Z * Z) :=
  match p with
  | LoadLast =>
      let r := refill_amount now last rate in
      Some (if r =? 0 then LoadConsume else LoadTokens last r, tokens, last, granted)
  | LoadTokens l r => Some (CasTokens l r tokens, tokens, last, granted)
  | CasTokens l r old =>
      if tokens =? old then
        Some (CasLast l, refilled old r burst, last, granted + (refilled old r burst - old))
      else Some (LoadLast, tokens, last, granted)
  | CasLast l => Some (LoadConsume, tokens, (if last =? l then now else last), granted)
  | LoadConsume =>
      Some (if tokens <? ONE_TOKEN then Returned false else CasConsume tokens, tokens, last, granted)
  | CasConsume t =>
      if tokens =? t then Some (Returned true, t - ONE_TOKEN, last, granted)
      else Some (LoadConsume, tokens, last, granted)
  | Returned _ => None
  end.

(** Thread [i] takes its next step. *)
Definition step_thread (s : cstate) (i : nat) : option cstate :=
  match c_threads s !! i with
  | None => None
  | Some (now, p) =>
      match step_pc now p (c_tokens s) (c_last s) (c_granted s) with
      | None => None
      | Some (p', t', l', g') => Some (mkC t' l' g' (<[i := (now, p')]> (c_threads s)))
      end
  end.

Definition cstep (s s' : cstate) : Prop := exists i, step_thread s i = Some s'.

(** A schedule names the thread of each step. *)
Fixpoint run (sched : list nat) (s : cstate) : option cstate :=
  match sched with
  | [] => Some s
  | i :: sched' => match step_thread s i with None => None | Some s' => run sched' s' end
  end.

Definition is_admitted (t : Z * pc) : bool :=
  match t.2 with Returned true => true | _ => false end.

Definition admitted (s : cstate) : Z := Z.of_nat (length (filter is_admitted (c_threads s))).

(** What a thread carries between its steps. *)
Definition pc_ok (p : pc) : Prop :=
  match p with
  | LoadTokens _ r => 0 <= r
  | CasTokens _ r old => 0 <= r /\ 0 <= old
  | CasConsume t => ONE_TOKEN <= t
  | _ => True
  end.

Record cinv (total : Z) (s : cstate) : Prop := {
  inv_tokens : 0 <= c_tokens s <= burst;
  inv_pcs : Forall (fun t => pc_ok t.2) (c_threads s);
  inv_ledger : c_tokens s + ONE_TOKEN * admitted s = total + c_granted s;
  inv_granted : 0 <= c_granted s;
}.

Lemma admitted_insert (ts : list (Z * pc)) i old new :
  ts !! i = Some old ->
  Z.of_nat (length (filter is_admitted (<[i := new]> ts))) =
  Z.of_nat (length (filter is_admitted ts))
  - (if is_admitted old then 1 else 0) + (if is_admitted new then 1 else 0).
Proof.
  revert i; induction ts as [|t ts IH]; intros [|i]; simpl; [done | done | |].
  - intros [= ->]. rewrite !filter_cons.
    destruct (is_admitted old), (is_admitted new); simpl; lia.
  - intros Hi. rewrite !filter_cons. specialize (IH i Hi).
    destruct (is_admitted t); simpl; lia.
Qed.

Hypothesis burst_u32 : is_u32 burst.

Lemma step_preserves total s s' : cstep s s' -> cinv total s -> cinv total s'.
Proof.
  intros [i Hstep] [Ht Hpc Hled Hg]. unfold step_thread in Hstep.
  destruct (c_threads s !! i) as [[now p]|] eqn:Hi; [|done].
  destruct (step_pc _ _ _ _ _) as [[[[p' t'] l'] g']|] eqn:Hs; [|done].
  injection Hstep as <-.
  assert (pc_ok p) as Hp by (apply (Forall_lookup_1 _ _ _ _ Hpc Hi)).
  pose proof (refill_amount_bounds now (c_last s) rate) as Hr.
  assert (0 <= t' <= burst /\ pc_ok p' /\ 0 <= g' /\
          t' + ONE_TOKEN * ((if is_admitted (now, p') then 1 else 0) - (if is_admitted (now, p) then 1 else 0)) - g'
          = c_tokens s - c_granted s) as (Ht' & Hp' & Hg' & Heq).
  { unfold step_pc in Hs.
    destruct p; simpl in Hp; repeat case_match; simplify_eq; bool_to_prop; simpl;
      unfold is_admitted, ONE_TOKEN, refilled in *; simpl; ulia. }
  pose proof (admitted_insert (c_threads s) i (now, p) (now, p') Hi) as Hadm.
  split; simpl; [done | by apply Forall_insert | | done].
  unfold admitted in *. simpl. rewrite Hadm. unfold ONE_TOKEN in *. lia.
Qed.

Lemma steps_preserve total s s' : rtc cstep s s' -> cinv total s -> cinv total s'.
Proof. induction 1; eauto using step_preserves. Qed.

(** Threads that all start the call, on a bucket holding [t0] at time [l0]. *)
Definition start (t0 l0 : Z) (clocks : list Z) : cstate :=
  mkC t0 l0 0 ((fun now => (now, LoadLast)) <$> clocks).

Lemma start_inv t0 l0 clocks : 0 <= t0 <= burst -> cinv t0 (start t0 l0 clocks).
Proof.
  intros Ht. split; simpl; [done | | | lia].
  - apply Forall_fmap, Forall_true. done.
  - unfold admitted. simpl. rewrite (proj2 (length_zero_iff_nil _)); [lia |].
    induction clocks as [|c cs IH]; [done |]. exact IH.
Qed.

(** Steps of thread [i] alone, until it returns or [fuel] runs out. *)
Fixpoint run_alone (fuel : nat) (s : cstate) (i : nat) : option cstate :=
  match c_threads s !! i with
  | Some (_, Returned _) => Some s
  | _ => match fuel with
         | O => None
         | S f => match step_thread s i with None => None | Some s' => run_alone f s' i end
         end
  end.

(** The same on the thread's own view of the state. *)
Fixpoint solo (fuel : nat) (now : Z) (p : pc) (t l g : Z) : option (bool * Z * Z * Z) :=
  match p with
  | Returned ok => Some (ok, t, l, g)
  | _ => match fuel with
         | O => None
         | S f => match step_pc now p t l g with
                  | None => None
                  | Some (p', t', l', g') => solo f now p' t' l' g'
                  end
         end
  end.

Lemma run_alone_solo fuel s i now p ok t l g :
  c_threads s !! i = Some (now, p) ->
  solo fuel now p (c_tokens s) (c_last s) (c_granted s) = Some (ok, t, l, g) ->
  run_alone fuel s i = Some (mkC t l g (<[i := (now, Returned ok)]> (c_threads s))).
Proof.
  revert s p; induction fuel as [|fuel IH]; intros s p Hi Hsolo.
  - destruct p; simpl in *; simplify_eq. rewrite Hi. f_equal.
    rewrite list_insert_id by done. by destruct s.
  - destruct p; cbn [solo] in Hsolo; cbn [run_alone]; rewrite Hi;
      try (simplify_eq; rewrite list_insert_id by done; by destruct s);
      unfold step_thread; rewrite Hi;
      destruct (step_pc _ _ _ _ _) as [[[[p' t'] l'] g']|]; try done;
      rewrite (IH (mkC t' l' g' (<[i := (now, p')]> (c_threads s))) p'); simpl;
      rewrite ?list_insert_insert_eq; try done;
      apply list_lookup_insert_eq; by eapply lookup_lt_Some.
Qed.

Lemma solo_six now t l g :
  exists ok t' l' g', solo 6 now LoadLast t l g = Some (ok, t', l', g') /\
    Atomic.refill_and_consume (Atomic.mkBucket t l) now rate burst = (ok, Atomic.mkBucket t' l').
Proof.
  unfold Atomic.refill_and_consume, Atomic.refill. cbn [Atomic.tokens Atomic.last_refill_ns].
  cbn [solo step_pc]. destruct (refill_amount now l rate =? 0).
  - cbn [solo step_pc]. cbn [Atomic.tokens]. destruct (t <? ONE_TOKEN); cbn [solo step_pc];
      rewrite ?Z.eqb_refl; cbn [solo]; eauto 10.
  - cbn [solo step_pc]. rewrite Z.eqb_refl. cbn [solo step_pc]. rewrite Z.eqb_refl.
    cbn [Atomic.tokens]. destruct (refilled t _ burst <? ONE_TOKEN); cbn [solo step_pc];
      rewrite ?Z.eqb_refl; cbn [solo]; eauto 10.
Qed.

End Interleaving.
End Threads.

Lemma run_rtc rate burst sched s s' :
  Threads.run rate burst sched s = Some s' -> rtc (Threads.cstep rate burst) s s'.
Proof.
  revert s; induction sched as [|i sched IH]; intros s; simpl; [by intros [= ->] |].
  destruct (Threads.step_thread _ _ s i) as [s1|] eqn:Hs; [|done].
  intros Hrun. eapply rtc_l; [by exists i | by apply IH].
Qed.

Lemma refill_amount_now now rate : refill_amount now now rate = 0.
Proof.
  unfold refill_amount, saturating_sub. rewrite Z.sub_diag.
  change (f64_of_Z (Z.max 0 0)) with f64_zero. by destruct rate as [[]|[]| |[]].
Qed.

Lemma simultaneous_admissions (r : Atomic.RouteTokenBucket) now n :
  lim_ok r -> Atomic.last_refill_ns (Atomic.rb_bucket r) = now ->
  (lim_run r (replicate n now)).1.1 = Z.min (Z.of_nat n) (lim_tokens r / ONE_TOKEN).
Proof.
  revert r; induction n as [|n IH]; intros r Hok Hlast; cbn [replicate lim_run].
  { destruct (lim_bounds r Hok) as [Hpos _].
    assert (0 <= lim_tokens r / ONE_TOKEN) by (apply Z.div_pos; [exact Hpos | by unfold ONE_TOKEN]).
    cbn [fst]. change (Z.of_nat 0) with 0. by rewrite Z.min_l. }
  pose proof (lim_acquire_ok r now Hok) as Hok'. pose proof (lim_bounds r Hok) as Hb.
  pose proof (lim_bounds _ Hok') as Hb'.
  simpl in Hok', Hb'. revert Hok' Hb'.
  cbn [lim_acquire lim_tokens Atomic.route_limiter]. unfold Atomic.try_acquire. rewrite Hlast.
  rewrite refill_amount_now. cbn [Z.eqb].
  destruct (Z.ltb_spec (Atomic.tokens (Atomic.rb_bucket r)) ONE_TOKEN) as [Hlt|Hge];
    cbn [fst snd]; intros Hok' Hb'; rewrite <- Hlast.
  - specialize (IH (Atomic.mkRouteBucket (Atomic.rb_bucket r) (Atomic.rb_rate_per_ns r) (Atomic.rb_burst_fp r)) Hok' Hlast).
    rewrite <- Hlast in IH. destruct (lim_run _ _) as [[k g] s']. simpl in IH |- *. rewrite IH.
    simpl in Hb. rewrite Z.div_small by lia. lia.
  - set (r' := Atomic.mkRouteBucket _ _ _) in *.
    specialize (IH r' Hok' Hlast). rewrite <- Hlast in IH.
    destruct (lim_run r' _) as [[k g] s']. simpl in IH |- *. rewrite IH.
    assert (Atomic.tokens (Atomic.rb_bucket r) / ONE_TOKEN =
            (Atomic.tokens (Atomic.rb_bucket r) - ONE_TOKEN) / ONE_TOKEN + 1) as ->.
    { rewrite <- Z.div_add by done. f_equal. lia. }
    rewrite Nat2Z.inj_succ. lia.
Qed.

(** ** Properties *)

Module Properties.
Import Atomic Threads.

(** C28: Under every interleaving of any number of threads running
    [refill_and_consume] on one bucket, the count stays between zero and the
    burst ceiling, and the tokens handed out (1000 units per admitted
    connection) never exceed what the bucket held plus what was credited. *)
Theorem interleaved_calls_safe rate burst t0 l0 clocks s :
  is_u32 burst -> 0 <= t0 <= burst ->
  rtc (cstep rate burst) (start t0 l0 clocks) s ->
  0 <= c_tokens s <= burst /\
  c_tokens s + ONE_TOKEN * admitted s = t0 + c_granted s /\
  ONE_TOKEN * admitted s <= t0 + c_granted s.
Proof.
  intros Hb Ht Hsteps.
  assert (cinv burst t0 s) as Hinv by (eapply steps_preserve; eauto using start_inv).
  pose proof (inv_tokens _ _ _ Hinv). pose proof (inv_ledger _ _ _ Hinv). lia.
Qed.

Lemma interleaved_calls_safe_witness :
  exists s, rtc (cstep (f64_lit 1 1000000000) 10000) (start 5000 0 [7; 9]) s /\
    admitted s = 1 /\ 0 <= c_tokens s <= 10000.
Proof.
  exists (mkC 4000 0 0 [(7, Returned true); (9, LoadLast)]).
  assert (rtc (cstep (f64_lit 1 1000000000) 10000) (start 5000 0 [7; 9])
            (mkC 4000 0 0 [(7, Returned true); (9, LoadLast)])) as Hsteps.
  { apply (rtc_l _ _ (mkC 5000 0 0 [(7, LoadConsume); (9, LoadLast)])).
    { exists 0%nat. vm_compute. reflexivity. }
    apply (rtc_l _ _ (mkC 5000 0 0 [(7, CasConsume 5000); (9, LoadLast)])).
    { exists 0%nat. vm_compute. reflexivity. }
    apply rtc_once. exists 0%nat. vm_compute. reflexivity. }
  split; [exact Hsteps | split; [reflexivity |]].
  apply (interleaved_calls_safe (f64_lit 1 1000000000) 10000 5000 0 [7; 9]);
    [ulia | lia | exact Hsteps].
Defined.

(** A thread that runs without interference finishes the compare-exchange
    loops within six atomic steps, and the result and the bucket it leaves are
    those of [refill_and_consume] as a function. *)
Theorem uncontended_call_is_atomic rate burst s i now :
  c_threads s !! i = Some (now, LoadLast) ->
  exists s' ok b,
    run_alone rate burst 6 s i = Some s' /\
    refill_and_consume (mkBucket (c_tokens s) (c_last s)) now rate burst = (ok, b) /\
    c_threads s' !! i = Some (now, Returned ok) /\
    mkBucket (c_tokens s') (c_last s') = b.
Proof.
  intros Hi.
  destruct (solo_six rate burst now (c_tokens s) (c_last s) (c_granted s))
    as (ok & t & l & g & Hsolo & Heq).
  eexists _, ok, (mkBucket t l).
  split_and!; [by eapply run_alone_solo | done | | done].
  simpl. apply list_lookup_insert_eq. by eapply lookup_lt_Some.
Qed.

Lemma uncontended_call_is_atomic_witness :
  exists s' ok b,
    run_alone (f64_lit 1 1000000000) 10000 6 (start 500 0 [2000000000; 3]) 0 = Some s' /\
    refill_and_consume (mkBucket 500 0) 2000000000 (f64_lit 1 1000000000) 10000 = (ok, b) /\
    c_threads s' !! 0%nat = Some (2000000000, Returned ok) /\
    mkBucket (c_tokens s') (c_last s') = b.
Proof.
  apply (uncontended_call_is_atomic (f64_lit 1 1000000000) 10000
           (start 500 0 [2000000000; 3]) 0 2000000000). reflexivity.
Defined.

(** C40: The refill's two exchanges are not one: a thread that reads the old
    timestamp after another thread's count exchange and before its timestamp
    exchange credits the same interval again. With one token per second, an
    empty bucket and two calls one second later, both calls are admitted. *)
Theorem refill_race_credits_twice :
  exists s, rtc (cstep (f64_lit 1 1000000000) 10000) (start 0 0 [1000000000; 1000000000]) s /\
    admitted s = 2 /\
    refill_amount 1000000000 0 (f64_lit 1 1000000000) = ONE_TOKEN /\
    (refill_and_consume (mkBucket 0 0) 1000000000 (f64_lit 1 1000000000) 10000).1 = true /\
    (refill_and_consume
       (refill_and_consume (mkBucket 0 0) 1000000000 (f64_lit 1 1000000000) 10000).2
       1000000000 (f64_lit 1 1000000000) 10000).1 = false.
Proof.
  destruct (run (f64_lit 1 1000000000) 10000 [0; 0; 0; 1; 1; 1; 0; 1; 0; 0; 1; 1]%nat
              (start 0 0 [1000000000; 1000000000])) as [s|] eqn:Hrun; [|by vm_compute in Hrun].
  exists s. split; [by eapply run_rtc |].
  vm_compute in Hrun. injection Hrun as <-. repeat split; by vm_compute.
Qed.

(** Calls at one instant get no refill: a fresh route limiter admits exactly
    as many of [n] simultaneous connections as its burst ceiling holds whole
    tokens, whatever the configured rate. *)
Theorem fresh_route_bucket_burst cps burst now n :
  let r := route_bucket_new cps burst now in
  (lim_run r (replicate n now)).1.1 = Z.min (Z.of_nat n) (rb_burst_fp r / ONE_TOKEN).
Proof.
  intros r. apply simultaneous_admissions; [apply route_bucket_new_ok | done].
Qed.
End Properties.
