(* ===== verification/Sni.v ===== *)
(** * The ClientHello peek (src/src/sni.rs)

    - [scan_handshake_records]: TLS records are stripped and their payloads
      reassembled into the handshake message.
    - [peek_reassemble]/[peek_with_timeout]: the poll loop over [MSG_PEEK], as a
      function of what the successive polls observe and how long each is waited
      for; it ends when the time it is given is spent.
    - [Parser], [parse_client_hello], [extract_sni], [alpn_offers_h2],
      [compute_ja3], [compute_ja4]: the ClientHello and what is taken from it.

    MD5 and SHA-256 come from the crates [md5] and [sha2], which are not part of
    the repository: they are the class [Digests]. *)

From stdpp Require Import sorting.
From Stdlib Require Import ZifyBool.
From S2P Require Import Prelude Bytes.

Open Scope Z_scope.

(** ** Reassembly *)

Definition MAX_CLIENT_HELLO : nat := Z.to_nat 16384.
Definition INITIAL_PEEK : nat := Z.to_nat 4096.
(** Nanoseconds. *)
Definition REASSEMBLY_TIMEOUT : Z := 5000000000.
Definition PEEK_POLL_INTERVAL : Z := 10000000.

Inductive RecordScan : Type :=
  | Invalid
  | NeedMoreRaw (target : nat)
  | Complete (hs : bytes) (wire_len : nat).

(** [raw[i]], where the guards of the code make [i] in range. *)
Definition byte_at (raw : bytes) (i : nat) : Z := default 0 (raw !! i).

(** The handshake length field: [hs_buf[1] << 16 | hs_buf[2] << 8 | hs_buf[3]]. *)
Definition hs_body_len (hs : bytes) : nat :=
  Z.to_nat (Z.lor (Z.lor (Z.shiftl (byte_at hs 1) 16) (Z.shiftl (byte_at hs 2) 8)) (byte_at hs 3)).

(** The head of the loop: is the declared length already there? *)
Definition scan_done (hs : bytes) (declared : option nat) : option bytes :=
  match declared with
  | Some total => if (total <=? length hs)%nat then Some (take total hs) else None
  | None => None
  end.

(** The tail of the loop: the checks on the handshake header once a record's
    payload has been appended; [None] is the fail-fast return. *)
Definition scan_header (hs : bytes) (declared : option nat) : option (option nat) :=
  match declared with
  | Some total => Some (Some total)
  | None =>
      match hs with
      | [] => Some None
      | b :: _ =>
          if negb (b =? 1) then None
          else if (4 <=? length hs)%nat then Some (Some (4 + hs_body_len hs)%nat)
          else Some None
      end
  end.

(** One iteration per unit of fuel: every iteration that does not return moves
    [offset] by at least 5, so [length raw + 1] iterations are enough
    ([scan_loop_enough]). *)
Fixpoint scan_loop (fuel : nat) (raw : bytes) (offset : nat) (hs : bytes)
    (declared : option nat) : option RecordScan :=
  match fuel with
  | O => None
  | S fuel' =>
      match scan_done hs declared with
      | Some hs' => Some (Complete hs' offset)
      | None =>
          if (offset <? length raw)%nat && negb (byte_at raw offset =? 22) then Some Invalid
          else if (length raw <? offset + 5)%nat then Some (NeedMoreRaw (offset + 5))
          else
            let record_len :=
              Z.to_nat (u16_from_be (byte_at raw (offset + 3)) (byte_at raw (offset + 4))) in
            let record_end := (offset + 5 + record_len)%nat in
            if (length raw <? record_end)%nat then Some (NeedMoreRaw record_end)
            else
              let hs' := hs ++ take record_len (drop (offset + 5) raw) in
              match scan_header hs' declared with
              | None => Some Invalid
              | Some declared' => scan_loop fuel' raw record_end hs' declared'
              end
      end
  end.

Definition scan_handshake_records (raw : bytes) : option RecordScan :=
  scan_loop (S (length raw)) raw 0 [] None.

Definition wrap_as_record (hs : bytes) : bytes :=
  [22] ++ [3; 1] ++ u16_to_be (Z.of_nat (length hs) mod 65536) ++ hs.

(** What one [stream.peek] finds: the bytes the kernel has buffered so far (the
    call copies at most the buffer's length of them), or an error. *)
Inductive peek_poll : Type :=
  | PeekErr
  | PeekBuffered (kernel : bytes).

Inductive peek_outcome : Type :=
  | PeekNone
  | PeekSome (buf : bytes) (hello_len : option nat)
  | PeekTimedOut.

(** [peek_reassemble] under [tokio::time::timeout], at [elapsed] since it began. A
    poll comes with the time the kernel and the scheduler take to answer it; it
    counts if it is answered before the timeout, and the next one begins a poll
    interval later. When there is no further poll the client is silent, and the
    timeout ends the wait. *)
Fixpoint peek_reassemble (timeout elapsed : Z) (polls : list (Z * peek_poll)) (buf_len : nat) : peek_outcome :=
  match polls with
  | [] => PeekTimedOut
  | (wait, poll) :: polls' =>
      let elapsed := elapsed + wait in
      if timeout <? elapsed then PeekTimedOut
      else
        match poll with
        | PeekErr => PeekNone
        | PeekBuffered kernel =>
            let raw := take buf_len kernel in
            match raw with
            | [] => PeekNone
            | _ =>
                match scan_handshake_records raw with
                | None => PeekTimedOut
                | Some Invalid => PeekNone
                | Some (Complete hs wire_len) => PeekSome (wrap_as_record hs) (Some wire_len)
                | Some (NeedMoreRaw target) =>
                    if (MAX_CLIENT_HELLO <? target)%nat then PeekSome raw None
                    else peek_reassemble timeout (elapsed + PEEK_POLL_INTERVAL) polls' (Nat.max buf_len target)
                end
            end
        end
  end.

(** ** The parser

    A [Parser] is the unread suffix [buf[pos..]]; each read returns the value
    and the parser advanced past it, or [None] with the caller giving up. *)

Definition parser : Type := bytes.

Definition remaining (p : parser) : nat := length p.

Definition read_u8 (p : parser) : option (Z * parser) :=
  match p with b :: p' => Some (b, p') | _ => None end.

Definition read_u16 (p : parser) : option (Z * parser) :=
  match p with a :: b :: p' => Some (u16_from_be a b, p') | _ => None end.

Definition read_u24 (p : parser) : option (Z * parser) :=
  match p with
  | a :: b :: c :: p' => Some (Z.lor (Z.lor (Z.shiftl a 16) (Z.shiftl b 8)) c, p')
  | _ => None
  end.

Definition read_bytes (n : nat) (p : parser) : option (bytes * parser) :=
  if (remaining p <? n)%nat then None else Some (take n p, drop n p).

Definition skip (n : nat) (p : parser) : option parser :=
  if (remaining p <? n)%nat then None else Some (drop n p).

Record ClientHello : Type := mkHello {
  legacy_version : Z;
  cipher_suites : bytes;
  extensions : bytes;
}.

Definition Parser_parse_client_hello (p : parser) : option ClientHello :=
  '(content_type, p) ← read_u8 p;
  if negb (content_type =? 22) then None else
  p ← skip 2 p;
  '(_, p) ← read_u16 p;
  '(msg_type, p) ← read_u8 p;
  if negb (msg_type =? 1) then None else
  '(_, p) ← read_u24 p;
  '(version, p) ← read_u16 p;
  p ← skip 32 p;
  '(session_id_len, p) ← read_u8 p;
  p ← skip (Z.to_nat session_id_len) p;
  '(cs_len, p) ← read_u16 p;
  '(suites, p) ← read_bytes (Z.to_nat cs_len) p;
  '(cm_len, p) ← read_u8 p;
  p ← skip (Z.to_nat cm_len) p;
  if (remaining p <? 2)%nat then Some (mkHello version suites []) else
  '(ext_len, p) ← read_u16 p;
  '(exts, _) ← read_bytes (Nat.min (Z.to_nat ext_len) (remaining p)) p;
  Some (mkHello version suites exts).

(** ** ALPN *)

(** The loop over the protocol names of one ALPN list. *)
Fixpoint alpn_list_has_h2 (fuel : nat) (protocols : parser) : bool :=
  match fuel with
  | O => false
  | S fuel' =>
      match read_u8 protocols with
      | None => false
      | Some (len, p) =>
          match read_bytes (Z.to_nat len) p with
          | None => false
          | Some (name, p') => if bytes_eqb name (bs "h2") then true else alpn_list_has_h2 fuel' p'
          end
      end
  end.

Fixpoint alpn_loop (fuel : nat) (p : parser) : bool :=
  match fuel with
  | O => false
  | S fuel' =>
      match ('(t, p1) ← read_u16 p; '(l, p2) ← read_u16 p1; Some (t, l, p2)) with
      | None => false
      | Some (ext_type, ext_len, p2) =>
          match read_bytes (Z.to_nat ext_len) p2 with
          | None => false
          | Some (ext_data, p3) =>
              if negb (ext_type =? 16) then alpn_loop fuel' p3
              else match ('(list_len, d) ← read_u16 ext_data; read_bytes (Z.to_nat list_len) d) with
                   | None => false
                   | Some (protos, _) => alpn_list_has_h2 (S (length protos)) protos
                   end
          end
      end
  end.

Definition alpn_offers_h2 (exts : bytes) : bool := alpn_loop (S (length exts)) exts.

(** ** Server name *)

(** [s.trim_end_matches(c)] *)
Fixpoint trim_start_byte (c : Z) (s : bytes) : bytes :=
  match s with b :: s' => if b =? c then trim_start_byte c s' else s | [] => [] end.
Definition trim_end_byte (c : Z) (s : bytes) : bytes := rev (trim_start_byte c (rev s)).

(** The checks on a host_name entry: UTF-8, the trailing dots trimmed, then the
    structural limits. *)
Definition host_name (name_data : bytes) : option bytes :=
  raw ← from_utf8 name_data;
  let sni := trim_end_byte 46 raw in
  if bool_decide (sni = []) || (253 <? length sni)%nat || contains_byte 58 sni || contains_byte 47 sni
  then None else Some sni.

(** The loop over the entries of a server-name list: [Some r] returns [r] from
    [extract_sni] ([?] included), [None] falls through to the next extension. *)
Fixpoint sni_entries (fuel : nat) (sp : parser) : option (option bytes) :=
  match fuel with
  | O => None
  | S fuel' =>
      if (remaining sp <? 3)%nat then None
      else match ('(ty, sp) ← read_u8 sp; '(len, sp) ← read_u16 sp;
                  '(data, sp) ← read_bytes (Z.to_nat len) sp; Some (ty, data, sp)) with
           | None => Some None
           | Some (ty, data, sp') =>
               if ty =? 0 then Some (host_name data) else sni_entries fuel' sp'
           end
  end.

Fixpoint sni_loop (fuel : nat) (p : parser) : option bytes :=
  match fuel with
  | O => None
  | S fuel' =>
      if (remaining p <? 4)%nat then None
      else
        '(ext_type, p) ← read_u16 p;
        '(ext_len, p) ← read_u16 p;
        '(ext_data, p) ← read_bytes (Z.to_nat ext_len) p;
        if negb (ext_type =? 0) then sni_loop fuel' p
        else
          '(_, sp) ← read_u16 ext_data;
          match sni_entries (S (length sp)) sp with
          | Some r => r
          | None => sni_loop fuel' p
          end
  end.

Definition extract_sni (exts : bytes) : option bytes := sni_loop (S (length exts)) exts.

(** ** Fingerprints *)

(** The hash functions of the crates [md5] and [sha2]. *)
Class Digests : Type := {
  md5 : bytes -> bytes;
  sha256 : bytes -> bytes;
}.

(** Their documented output: 16 and 32 bytes. *)
Class DigestsOk `{Digests} : Prop := {
  md5_length : forall d, length (md5 d) = 16%nat;
  md5_bytes : forall d, bytes_ok (md5 d);
  sha256_length : forall d, length (sha256 d) = 32%nat;
  sha256_bytes : forall d, bytes_ok (sha256 d);
}.

Definition is_grease (v : Z) : bool :=
  let lo := Z.land v 255 in
  let hi := Z.land (Z.shiftr v 8) 255 in
  (hi =? lo) && (Z.land lo 15 =? 10).

Fixpoint bytes_to_hex (s : bytes) : bytes :=
  match s with
  | [] => []
  | b :: s' => hex_digit (Z.shiftr b 4) :: hex_digit (Z.land b 15) :: bytes_to_hex s'
  end.

(** [chunks_exact(2)] read as big-endian u16; a trailing odd byte is dropped. *)
Fixpoint u16_chunks (s : bytes) : list Z :=
  match s with
  | a :: b :: s' => u16_from_be a b :: u16_chunks s'
  | _ => []
  end.

Definition not_grease (l : list Z) : list Z := List.filter (fun v => negb (is_grease v)) l.

(** The loop head the two fingerprints share: the [(type, data)] pairs the body
    sees, until fewer than 4 bytes are left or an extension is truncated. *)
Fixpoint walk_loop (fuel : nat) (p : parser) : list (Z * bytes) :=
  match fuel with
  | O => []
  | S fuel' =>
      if (remaining p <? 4)%nat then []
      else match ('(t, p) ← read_u16 p; '(l, p) ← read_u16 p;
                  '(data, p) ← read_bytes (Z.to_nat l) p; Some (t, data, p)) with
           | None => []
           | Some (t, data, p') => (t, data) :: walk_loop fuel' p'
           end
  end.

Definition walk_extensions (exts : bytes) : list (Z * bytes) := walk_loop (S (length exts)) exts.

(** A list prefixed by its length in two bytes, then in one byte: as much of it
    as is there. *)
Definition list16 (data : bytes) : bytes :=
  match data with
  | a :: b :: rest => take (Nat.min (Z.to_nat (u16_from_be a b)) (length rest)) rest
  | _ => []
  end.
Definition list8 (data : bytes) : bytes :=
  match data with
  | n :: rest => take (Nat.min (Z.to_nat n) (length rest)) rest
  | [] => []
  end.

Record ja3_acc : Type := mkJa3 {
  ext_types : list Z;
  elliptic_curves : list Z;
  ec_point_formats : list Z;
}.

Definition ja3_step (acc : ja3_acc) (ext : Z * bytes) : ja3_acc :=
  let '(t, data) := ext in
  if is_grease t then acc else
  let ts := ext_types acc ++ [t] in
  if t =? 10 then
    mkJa3 ts (elliptic_curves acc ++ not_grease (u16_chunks (list16 data))) (ec_point_formats acc)
  else if t =? 11 then
    mkJa3 ts (elliptic_curves acc) (ec_point_formats acc ++ list8 data)
  else mkJa3 ts (elliptic_curves acc) (ec_point_formats acc).

Definition join_u16 (vals : list Z) : bytes := join (bs "-") (to_decimal <$> vals).
Definition join_u8 (vals : list Z) : bytes := join (bs "-") (to_decimal <$> vals).
Definition join_hex4 (vals : list Z) : bytes := join (bs ",") (to_hex04 <$> vals).

Record ja4_acc : Type := mkJa4 {
  ext_ids : list Z;
  supported_versions : list Z;
  alpn_first : option bytes;
  sig_algs : list Z;
}.

(** The first protocol name of an ALPN extension, when it is whole. *)
Definition first_protocol (data : bytes) : option bytes :=
  match list16 data with
  | [] => None
  | n :: rest =>
      let proto_len := Z.to_nat n in
      if (0 <? proto_len)%nat && (proto_len <? length (n :: rest))%nat
      then Some (take proto_len rest) else None
  end.

Definition ja4_step (acc : ja4_acc) (ext : Z * bytes) : ja4_acc :=
  let '(t, data) := ext in
  if is_grease t then acc else
  let ids := ext_ids acc ++ [t] in
  if t =? 43 then
    mkJa4 ids (supported_versions acc ++ not_grease (u16_chunks (list8 data)))
      (alpn_first acc) (sig_algs acc)
  else if t =? 16 then
    mkJa4 ids (supported_versions acc)
      (match first_protocol data with Some p => Some p | None => alpn_first acc end) (sig_algs acc)
  else if t =? 13 then
    mkJa4 ids (supported_versions acc) (alpn_first acc)
      (sig_algs acc ++ not_grease (u16_chunks (list16 data)))
  else mkJa4 ids (supported_versions acc) (alpn_first acc) (sig_algs acc).

Definition ja4_scan (exts : bytes) : ja4_acc :=
  foldl ja4_step (mkJa4 [] [] None []) (walk_extensions exts).

(** [iter.max().unwrap_or(d)] *)
Definition max_or (d : Z) (l : list Z) : Z :=
  match l with [] => d | a :: l' => foldl Z.max a l' end.

Definition ver_str (tls_version : Z) : bytes :=
  if tls_version =? 772 then bs "13"
  else if tls_version =? 771 then bs "12"
  else if tls_version =? 770 then bs "11"
  else if tls_version =? 769 then bs "10"
  else bs "00".

Definition alpn_chars (alpn : option bytes) : bytes :=
  match alpn with
  | None => bs "00"
  | Some [] => bs "00"
  | Some (first :: rest) =>
      let proto := first :: rest in
      let last := List.last proto 0 in
      if is_alphanumeric first && is_alphanumeric last then [to_lower first; to_lower last]
      else let hex := bytes_to_hex proto in [List.hd 0 hex; List.last hex 0]
  end.

Definition capped (l : list Z) : Z := Z.of_nat (Nat.min (length l) 99).

Definition ja4_part_a (version : Z) (ciphers : list Z) (acc : ja4_acc) : bytes :=
  bs "t" ++ ver_str (max_or version (supported_versions acc)) ++
  (if existsb (Z.eqb 0) (ext_ids acc) then bs "d" else bs "i") ++
  to_dec02 (capped ciphers) ++ to_dec02 (capped (ext_ids acc)) ++ alpn_chars (alpn_first acc).

Definition sort_u16 (l : list Z) : list Z := merge_sort Z.le l.

Section Fingerprints.
Context `{Digests}.

Definition md5_hex (data : bytes) : bytes := bytes_to_hex (md5 data).
Definition sha256_hex12 (data : bytes) : bytes := bytes_to_hex (take 6 (sha256 data)).

Definition compute_ja3 (version : Z) (suites exts : bytes) : bytes :=
  let ciphers := not_grease (u16_chunks suites) in
  let acc := foldl ja3_step (mkJa3 [] [] []) (walk_extensions exts) in
  md5_hex (to_decimal version ++ bs "," ++ join_u16 ciphers ++ bs "," ++
           join_u16 (ext_types acc) ++ bs "," ++ join_u16 (elliptic_curves acc) ++ bs "," ++
           join_u8 (ec_point_formats acc)).

Definition ja4_part_b (ciphers : list Z) : bytes :=
  let sorted := sort_u16 ciphers in
  match sorted with [] => bs "000000000000" | _ => sha256_hex12 (join_hex4 sorted) end.

Definition ja4_part_c (acc : ja4_acc) : bytes :=
  let ext_for_hash :=
    sort_u16 (List.filter (fun t => negb (t =? 0) && negb (t =? 16)) (ext_ids acc)) in
  let ext_str := join_hex4 ext_for_hash in
  let hash_input :=
    match sig_algs acc with [] => ext_str | algs => ext_str ++ bs "_" ++ join_hex4 algs end in
  match hash_input with [] => bs "000000000000" | _ => sha256_hex12 hash_input end.

Definition compute_ja4 (version : Z) (suites exts : bytes) : bytes :=
  let acc := ja4_scan exts in
  let ciphers := not_grease (u16_chunks suites) in
  ja4_part_a version ciphers acc ++ bs "_" ++ ja4_part_b ciphers ++ bs "_" ++ ja4_part_c acc.

(** ** The peek *)

Record PeekInfo : Type := mkPeek {
  pi_sni : option bytes;
  pi_ja3 : bytes;
  pi_ja4 : bytes;
  pi_complete : bool;
  pi_hello_len : nat;
  pi_offers_h2 : bool;
}.

Definition PeekInfo_default : PeekInfo := mkPeek None [] [] false 0 false.

Definition parse_client_hello (buf : bytes) : PeekInfo :=
  match Parser_parse_client_hello buf with
  | None => PeekInfo_default
  | Some hello =>
      mkPeek (extract_sni (extensions hello))
        (compute_ja3 (legacy_version hello) (cipher_suites hello) (extensions hello))
        (compute_ja4 (legacy_version hello) (cipher_suites hello) (extensions hello))
        false 0 (alpn_offers_h2 (extensions hello))
  end.

Definition peek_with_timeout (timeout : Z) (polls : list (Z * peek_poll)) : PeekInfo :=
  match peek_reassemble timeout 0 polls INITIAL_PEEK with
  | PeekSome buf hello_len =>
      let info := parse_client_hello buf in
      mkPeek (pi_sni info) (pi_ja3 info) (pi_ja4 info)
        (bool_decide (is_Some hello_len)) (default O hello_len) (pi_offers_h2 info)
  | PeekNone | PeekTimedOut => PeekInfo_default
  end.

Definition peek (polls : list (Z * peek_poll)) : PeekInfo := peek_with_timeout REASSEMBLY_TIMEOUT polls.
End Fingerprints.

(** ** Lemmas: reassembly *)

Lemma byte_at_app_l (s t : bytes) i : (i < length s)%nat -> byte_at (s ++ t) i = byte_at s i.
Proof. intros. unfold byte_at. by rewrite lookup_app_l. Qed.

Lemma byte_at_app_r (s t : bytes) i : byte_at (s ++ t) (length s + i) = byte_at t i.
Proof. unfold byte_at. rewrite lookup_app_r by lia. do 2 f_equal. lia. Qed.

Lemma take_drop_app_l (s t : bytes) n k :
  (n + k <= length s)%nat -> take k (drop n (s ++ t)) = take k (drop n s).
Proof.
  intros. rewrite drop_app_le by lia. rewrite take_app_le; [done |]. rewrite length_drop. lia.
Qed.

(** Enough fuel: every iteration that goes on moves the offset forward within
    the buffer. *)
Lemma scan_loop_enough fuel raw off hs d :
  (off <= length raw)%nat -> (length raw - off < fuel)%nat ->
  is_Some (scan_loop fuel raw off hs d).
Proof.
  revert off hs d; induction fuel as [|fuel IH]; intros off hs d Hoff Hf; [lia |].
  cbn [scan_loop]. cbv zeta. repeat (case_match; [by eexists |]).
  bool_to_prop. repeat (case_match; [| by eexists]). apply IH; lia.
Qed.

Lemma scan_total raw : is_Some (scan_handshake_records raw).
Proof. apply scan_loop_enough; lia. Qed.

Lemma scan_loop_more_fuel fuel k raw off hs d r :
  scan_loop fuel raw off hs d = Some r -> scan_loop (fuel + k) raw off hs d = Some r.
Proof.
  revert off hs d; induction fuel as [|fuel IH]; intros off hs d; [done |].
  cbn [scan_loop Nat.add]. cbv zeta. repeat (case_match; [done |]).
  case_match; [apply IH | done].
Qed.

Definition decisive (r : RecordScan) : Prop :=
  match r with NeedMoreRaw _ => False | _ => True end.

Lemma scan_loop_extend fuel raw ext off hs d r :
  (off <= length raw)%nat -> decisive r ->
  scan_loop fuel raw off hs d = Some r -> scan_loop fuel (raw ++ ext) off hs d = Some r.
Proof.
  intros Hoff Hr. revert off hs d Hoff; induction fuel as [|fuel IH]; intros off hs d Hoff; [done |].
  cbn [scan_loop]. cbv zeta. destruct (scan_done hs d); [done |].
  rewrite length_app.
  destruct ((off <? length raw)%nat && negb (byte_at raw off =? 22)) eqn:Hty.
  { bool_to_prop. intros [= <-]. rewrite byte_at_app_l by lia.
    rewrite (proj2 (Z.eqb_neq _ _)), (proj2 (Nat.ltb_lt _ _)) by lia. done. }
  destruct (Nat.ltb_spec (length raw) (off + 5)) as [|Hhdr]; [by intros [= <-] |].
  rewrite !byte_at_app_l by lia.
  assert ((off <? length raw)%nat = true) as Hlt by (apply Nat.ltb_lt; lia).
  rewrite Hlt in Hty. simpl in Hty. rewrite Hty, andb_false_r.
  rewrite (proj2 (Nat.ltb_ge (length raw + length ext) (off + 5))) by lia.
  set (n := Z.to_nat _).
  destruct (Nat.ltb_spec (length raw) (off + 5 + n)) as [|Hend]; [by intros [= <-] |].
  rewrite (proj2 (Nat.ltb_ge (length raw + length ext) _)) by lia.
  rewrite take_drop_app_l by lia. case_match; [apply IH; lia | done].
Qed.

Lemma scan_extend raw ext r :
  decisive r -> scan_handshake_records raw = Some r ->
  scan_handshake_records (raw ++ ext) = Some r.
Proof.
  intros Hr Hscan. unfold scan_handshake_records in *.
  rewrite length_app. rewrite <- Nat.add_succ_l. apply scan_loop_more_fuel.
  apply scan_loop_extend; [lia | done | done].
Qed.

Lemma scan_loop_target fuel raw off hs d t :
  scan_loop fuel raw off hs d = Some (NeedMoreRaw t) -> (length raw < t)%nat.
Proof.
  revert off hs d; induction fuel as [|fuel IH]; intros off hs d; [done |].
  cbn [scan_loop]. cbv zeta.
  repeat (case_match; try done); intros; simplify_eq; bool_to_prop; try lia; eauto.
Qed.

Lemma scan_loop_wire_len fuel raw off hs d m w :
  scan_loop fuel raw off hs d = Some (Complete m w) -> (off <= w)%nat.
Proof.
  revert off hs d; induction fuel as [|fuel IH]; intros off hs d; [done |].
  cbn [scan_loop]. cbv zeta.
  repeat (case_match; try done); intros Hs; simplify_eq; try lia. apply IH in Hs. lia.
Qed.

(** More bytes are asked for only up to where the message completes. *)
Lemma scan_loop_target_le fuel fuel' raw ext off hs d t m w :
  (off <= length raw)%nat ->
  scan_loop fuel raw off hs d = Some (NeedMoreRaw t) ->
  scan_loop fuel' (raw ++ ext) off hs d = Some (Complete m w) -> (t <= w)%nat.
Proof.
  revert fuel' off hs d; induction fuel as [|fuel IH]; intros [|fuel'] off hs d Hoff; try done.
  cbn [scan_loop]. cbv zeta. destruct (scan_done hs d); [done |].
  rewrite length_app.
  destruct ((off <? length raw)%nat && _); [done |].
  destruct (Nat.ltb_spec (length raw) (off + 5)) as [|Hhdr].
  { intros [= <-]. repeat (case_match; [done |]). case_match; [| done].
    intros Hs%scan_loop_wire_len. lia. }
  rewrite !byte_at_app_l by lia. set (n := Z.to_nat _).
  destruct (Nat.ltb_spec (length raw) (off + 5 + n)) as [|Hend].
  { intros [= <-]. repeat (case_match; [done |]). case_match; [| done].
    intros Hs%scan_loop_wire_len. lia. }
  rewrite take_drop_app_l by lia. case_match; [| done].
  repeat (case_match; [done |]). apply IH; lia.
Qed.

(** *** Fragmented messages *)

(** A handshake record on the wire with its (ignored) version bytes. *)
Record fragment : Type := mkFrag { fr_version : Z * Z; fr_payload : bytes }.

Definition encode_fragment (f : fragment) : bytes :=
  [22; (fr_version f).1; (fr_version f).2] ++
  u16_to_be (Z.of_nat (length (fr_payload f))) ++ fr_payload f.

Definition encode_fragments (fs : list fragment) : bytes := concat (encode_fragment <$> fs).

(** A ClientHello message: type 1, and the length field counts its body. *)
Definition hello_message (m : bytes) : Prop :=
  (4 <= length m)%nat /\ byte_at m 0 = 1 /\ length m = (4 + hs_body_len m)%nat.

(** [fs] carries [m]: the payloads concatenate to it, each fits the 16-bit
    record length, and the last one is not empty (an empty record after the
    message is complete is not part of it). *)
Definition fragments_of (m : bytes) (fs : list fragment) : Prop :=
  concat (fr_payload <$> fs) = m /\
  Forall (fun f => Z.of_nat (length (fr_payload f)) <= u16_max) fs /\
  exists fs' f, fs = fs' ++ [f] /\ fr_payload f <> [].

(** What the scan knows of the declared length after reading [hs]. *)
Definition expected (hs m : bytes) : option nat :=
  if (4 <=? length hs)%nat then Some (length m) else None.

Lemma hs_body_len_prefix hs t : (4 <= length hs)%nat -> hs_body_len (hs ++ t) = hs_body_len hs.
Proof. intros. unfold hs_body_len. by rewrite !byte_at_app_l by lia. Qed.

Lemma scan_header_expected hs p t m :
  hello_message m -> m = hs ++ p ++ t ->
  scan_header (hs ++ p) (expected hs m) = Some (expected (hs ++ p) m).
Proof.
  intros (_ & H0 & Hlen) Hm. unfold expected.
  destruct (Nat.leb_spec 4 (length hs)) as [H4|H4].
  { cbn [scan_header]. rewrite length_app, (proj2 (Nat.leb_le 4 _)) by lia. done. }
  cbn [scan_header]. destruct (hs ++ p) as [|b r] eqn:E; [done |].
  assert (m = (b :: r) ++ t) as Hm' by by rewrite <- E, <- app_assoc.
  rewrite Hm' in H0. unfold byte_at in H0. simpl in H0. subst b. simpl (negb _). cbv iota.
  destruct (Nat.leb_spec 4 (length (1 :: r))) as [H4'|]; [|done].
  rewrite Hlen, Hm', hs_body_len_prefix by lia. done.
Qed.

Lemma scan_done_expected hs m : (length hs < length m)%nat -> scan_done hs (expected hs m) = None.
Proof.
  intros. unfold expected. destruct (4 <=? length hs)%nat; [|done].
  simpl. by rewrite (proj2 (Nat.leb_gt _ _)) by lia.
Qed.

Lemma length_encode_fragment f : length (encode_fragment f) = (5 + length (fr_payload f))%nat.
Proof. done. Qed.

(** One iteration over a whole record. *)
Lemma scan_fragment fuel pre f post hs d :
  Z.of_nat (length (fr_payload f)) <= u16_max -> scan_done hs d = None ->
  scan_loop (S fuel) (pre ++ encode_fragment f ++ post) (length pre) hs d =
  match scan_header (hs ++ fr_payload f) d with
  | None => Some Invalid
  | Some d' => scan_loop fuel (pre ++ encode_fragment f ++ post)
                 (length (pre ++ encode_fragment f)) (hs ++ fr_payload f) d'
  end.
Proof.
  intros Hlen Hdone. cbn [scan_loop]. rewrite Hdone. cbv zeta.
  set (raw := pre ++ encode_fragment f ++ post).
  assert (length raw = (length pre + 5 + length (fr_payload f) + length post)%nat) as Hraw
    by (unfold raw; rewrite !length_app, length_encode_fragment; lia).
  assert (byte_at raw (length pre) = 22) as ->.
  { rewrite <- (Nat.add_0_r (length pre)). unfold raw. by rewrite byte_at_app_r. }
  rewrite andb_false_r, (proj2 (Nat.ltb_ge _ _)) by lia.
  assert (Z.to_nat (u16_from_be (byte_at raw (length pre + 3)) (byte_at raw (length pre + 4)))
          = length (fr_payload f)) as ->.
  { unfold raw. rewrite !byte_at_app_r. unfold byte_at. simpl.
    rewrite u16_from_to_be by ulia. lia. }
  rewrite (proj2 (Nat.ltb_ge _ _)) by lia.
  replace (length pre + 5 + length (fr_payload f))%nat with (length (pre ++ encode_fragment f))
    by (rewrite length_app, length_encode_fragment; lia).
  replace (take _ (drop (length pre + 5) raw)) with (fr_payload f); [done |].
  unfold raw. rewrite <- drop_drop, drop_app_length.
  change (drop 5 (encode_fragment f ++ post)) with (fr_payload f ++ post).
  by rewrite take_app_length.
Qed.

Lemma scan_fragments m fs fuel pre hs post :
  hello_message m -> fragments_of (drop (length hs) m) fs -> m = hs ++ drop (length hs) m ->
  (length fs < fuel)%nat ->
  scan_loop fuel (pre ++ encode_fragments fs ++ post) (length pre) hs (expected hs m) =
  Some (Complete m (length (pre ++ encode_fragments fs))).
Proof.
  intros Hm. revert fuel pre hs; induction fs as [|f fs IH]; intros fuel pre hs Hfs Heq Hfuel.
  { destruct Hfs as (_ & _ & fs' & f & Hnil & _). by destruct fs'. }
  destruct fuel as [|fuel]; [simpl in Hfuel; lia |].
  destruct Hfs as (Hcat & Hsz & Hlast). apply Forall_cons_iff in Hsz as [Hsz1 Hsz].
  cbn [fmap list_fmap concat] in Hcat. rewrite <- Hcat in Heq.
  assert (length hs < length m)%nat as Hlt.
  { rewrite Heq, !length_app. destruct Hlast as (fs' & g & Hg & Hne).
    assert (0 < length (concat (fr_payload <$> (f :: fs))))%nat as Hpos;
      [| cbn [fmap list_fmap concat] in Hpos; rewrite length_app in Hpos; lia].
    rewrite Hg, fmap_app, concat_app, length_app. simpl. rewrite app_nil_r.
    destruct (fr_payload g); [done | simpl; lia]. }
  unfold encode_fragments. cbn [fmap list_fmap concat].
  change (concat (encode_fragment <$> fs)) with (encode_fragments fs).
  rewrite <- app_assoc, scan_fragment by auto using scan_done_expected.
  rewrite (scan_header_expected hs _ (concat (fr_payload <$> fs)) m) by done.
  rewrite (app_assoc pre), (app_assoc pre).
  destruct fs as [|f' fs].
  - unfold encode_fragments. cbn [fmap list_fmap concat] in *. rewrite app_nil_r in *.
    destruct fuel as [|fuel]; [simpl in Hfuel; lia |]. cbn [scan_loop].
    rewrite <- Heq. unfold expected. destruct Hm as (H4 & _ & _).
    rewrite (proj2 (Nat.leb_le 4 _)) by lia. cbn [scan_done].
    rewrite (proj2 (Nat.leb_le _ _)) by lia. by rewrite take_ge.
  - apply IH; [| | simpl in *; lia].
    + rewrite Heq, app_assoc, drop_app_length. split_and!; [done | done |].
      destruct Hlast as ([|g fs'] & g' & Hg & Hne); [done |].
      injection Hg as _ Hg. by exists fs', g'.
    + rewrite Heq at 2. rewrite app_assoc, drop_app_length. by rewrite <- app_assoc.
Qed.

Lemma length_encode_fragments fs : (length fs <= length (encode_fragments fs))%nat.
Proof.
  unfold encode_fragments. induction fs as [|f fs IH]; [done |].
  cbn [fmap list_fmap concat]. rewrite length_app, length_encode_fragment. simpl. lia.
Qed.

(** The scan of a fragmented ClientHello: the message, and the length of its
    records. *)
Lemma scan_reassembles m fs rest :
  hello_message m -> fragments_of m fs ->
  scan_handshake_records (encode_fragments fs ++ rest) =
  Some (Complete m (length (encode_fragments fs))).
Proof.
  intros Hm Hfs. unfold scan_handshake_records.
  apply (scan_fragments m fs _ [] [] rest); [done | done | done |].
  rewrite length_app. pose proof (length_encode_fragments fs). lia.
Qed.

(** What a shorter capture of the same stream can scan to. *)
Lemma scan_prefix m fs rest raw :
  hello_message m -> fragments_of m fs -> raw `prefix_of` (encode_fragments fs ++ rest) ->
  scan_handshake_records raw = Some (Complete m (length (encode_fragments fs))) \/
  exists t, scan_handshake_records raw = Some (NeedMoreRaw t) /\
    (length raw < t <= length (encode_fragments fs))%nat.
Proof.
  intros Hm Hfs [ext Hext].
  pose proof (scan_reassembles m fs rest Hm Hfs) as Hfull. rewrite Hext in Hfull.
  destruct (scan_total raw) as [r Hr]. destruct r as [|t|m' w].
  - by rewrite (scan_extend raw ext Invalid I Hr) in Hfull.
  - right. exists t. split; [done |]. split; [by eapply scan_loop_target |].
    eapply scan_loop_target_le; [| exact Hr | exact Hfull]; lia.
  - left. rewrite (scan_extend raw ext (Complete m' w) I Hr) in Hfull. congruence.
Qed.

(** ** Lemmas: the poll loop *)

(** The polls see captures of one stream. *)
Definition polls_of (wire : bytes) (polls : list (Z * peek_poll)) : Prop :=
  Forall (fun p => match p.2 with PeekErr => True | PeekBuffered k => k `prefix_of` wire end) polls.

Lemma peek_reassemble_safe m fs rest timeout elapsed polls n buf w :
  hello_message m -> fragments_of m fs -> polls_of (encode_fragments fs ++ rest) polls ->
  peek_reassemble timeout elapsed polls n = PeekSome buf (Some w) ->
  buf = wrap_as_record m /\ w = length (encode_fragments fs).
Proof.
  intros Hm Hfs Hpolls. revert elapsed n; induction Hpolls as [|[wait p] polls Hp _ IH]; intros elapsed n; [done |].
  cbn [peek_reassemble]. cbv zeta. destruct (_ <? _); [done |]. destruct p as [|k]; [done |].
  destruct (take n k) eqn:Hraw; [done |]. rewrite <- Hraw.
  destruct (scan_prefix m fs rest (take n k)) as [-> | (t & -> & Ht)]; [done | done | | |].
  - transitivity k; [apply prefix_take | done].
  - by intros [= <- <-].
  - destruct (_ <? _)%nat; [done |]. apply IH.
Qed.

(** The ends of the record headers and of the records, the only lengths the scan
    asks for. *)
Fixpoint marks (offset : nat) (fs : list fragment) : list nat :=
  match fs with
  | [] => []
  | f :: fs' => (offset + 5)%nat :: (offset + 5 + length (fr_payload f))%nat ::
                marks (offset + 5 + length (fr_payload f)) fs'
  end.

Lemma length_marks offset fs : length (marks offset fs) = (2 * length fs)%nat.
Proof. revert offset; induction fs as [|f fs IH]; intros offset; [done |]. simpl. rewrite IH. lia. Qed.

(** A record that the capture cuts short. *)
Lemma scan_cut_record fuel raw pre f post hs d t :
  Z.of_nat (length (fr_payload f)) <= u16_max -> scan_done hs d = None ->
  raw `prefix_of` pre ++ encode_fragment f ++ post ->
  (length raw < length pre + length (encode_fragment f))%nat ->
  scan_loop (S fuel) raw (length pre) hs d = Some (NeedMoreRaw t) ->
  t = (length pre + 5)%nat \/ t = (length pre + 5 + length (fr_payload f))%nat.
Proof.
  intros Hsz Hd Hpre Hcut. cbn [scan_loop]. rewrite Hd. destruct (_ && _); [done |].
  destruct (Nat.ltb_spec (length raw) (length pre + 5)); [by intros [= <-]; left |].
  assert (forall i, (i < 5)%nat -> byte_at raw (length pre + i) = byte_at (encode_fragment f ++ post) i) as Hb.
  { intros i Hi. destruct Hpre as [ext Hext]. rewrite <- (byte_at_app_r pre (encode_fragment f ++ post) i), Hext.
    by rewrite byte_at_app_l by lia. }
  rewrite !Hb by lia. cbv zeta.
  assert (Z.to_nat (u16_from_be (byte_at (encode_fragment f ++ post) 3) (byte_at (encode_fragment f ++ post) 4))
          = length (fr_payload f)) as ->.
  { unfold byte_at. simpl. rewrite u16_from_to_be by ulia. lia. }
  rewrite length_encode_fragment in Hcut. rewrite (proj2 (Nat.ltb_lt _ _)) by lia. intros [= <-]. by right.
Qed.

Lemma fragments_tail m hs f fs :
  fragments_of (drop (length hs) m) (f :: fs) -> m = hs ++ drop (length hs) m ->
  (length hs < length m)%nat /\
  (fs = [] /\ m = hs ++ fr_payload f \/
   fragments_of (drop (length (hs ++ fr_payload f)) m) fs /\
   m = (hs ++ fr_payload f) ++ drop (length (hs ++ fr_payload f)) m) /\
  m = hs ++ fr_payload f ++ concat (fr_payload <$> fs).
Proof.
  intros (Hcat & Hsz & Hlast) Heq. apply Forall_cons_iff in Hsz as [Hsz1 Hsz].
  cbn [fmap list_fmap concat] in Hcat. rewrite <- Hcat in Heq.
  assert (length hs < length m)%nat as Hlt.
  { rewrite Heq, !length_app. destruct Hlast as (fs' & g & Hg & Hne).
    assert (0 < length (concat (fr_payload <$> (f :: fs))))%nat as Hpos;
      [| cbn [fmap list_fmap concat] in Hpos; rewrite length_app in Hpos; lia].
    rewrite Hg, fmap_app, concat_app, length_app. simpl. rewrite app_nil_r.
    destruct (fr_payload g); [done | simpl; lia]. }
  split; [done |]. split; [|done]. destruct fs as [|f' fs].
  - left. cbn [fmap list_fmap concat] in Heq. by rewrite app_nil_r in Heq.
  - right. rewrite Heq, app_assoc, drop_app_length. split; [|done]. split_and!; [done | done |].
    destruct Hlast as ([|g fs'] & g' & Hg & Hne); [done |]. injection Hg as _ Hg. by exists fs', g'.
Qed.

Lemma scan_asks_for_marks m fs fuel pre hs post raw t :
  hello_message m -> fragments_of (drop (length hs) m) fs -> m = hs ++ drop (length hs) m ->
  raw `prefix_of` pre ++ encode_fragments fs ++ post -> (length pre <= length raw)%nat ->
  scan_loop fuel raw (length pre) hs (expected hs m) = Some (NeedMoreRaw t) -> t ∈ marks (length pre) fs.
Proof.
  intros Hm. revert fuel pre hs; induction fs as [|f fs IH]; intros fuel pre hs Hfs Heq Hpre Hle Hscan.
  { destruct Hfs as (_ & _ & fs' & f & Hnil & _). by destruct fs'. }
  destruct fuel as [|fuel]; [done |]. pose proof Hfs as (_ & [Hsz _]%Forall_cons_iff & _).
  destruct (fragments_tail m hs f fs Hfs Heq) as (Hlt & Htail & Hall).
  unfold encode_fragments in Hpre. cbn [fmap list_fmap concat] in Hpre.
  change (concat (encode_fragment <$> fs)) with (encode_fragments fs) in Hpre. rewrite <- app_assoc in Hpre.
  pose proof (scan_done_expected hs m Hlt) as Hdone. cbn [marks].
  destruct (Nat.lt_ge_cases (length raw) (length pre + length (encode_fragment f))) as [Hcut|Hwhole].
  { destruct (scan_cut_record fuel raw pre f (encode_fragments fs ++ post) hs _ t Hsz Hdone Hpre Hcut Hscan) as [->| ->];
      [left | right; left]. }
  assert (exists more, raw = pre ++ encode_fragment f ++ more /\ more `prefix_of` encode_fragments fs ++ post)
    as (more & -> & Hmore).
  { rewrite app_assoc in Hpre. destruct Hpre as [ext Hext].
    exists (take (length raw - length (pre ++ encode_fragment f)) (encode_fragments fs ++ post)).
    split; [|apply prefix_take]. rewrite app_assoc, <- take_app_ge by (rewrite length_app; lia).
    by rewrite Hext, take_app_length. }
  rewrite scan_fragment, (scan_header_expected hs _ (concat (fr_payload <$> fs)) m) in Hscan by done.
  right. right. replace (length pre + 5 + length (fr_payload f))%nat with (length (pre ++ encode_fragment f))
    by (rewrite length_app, length_encode_fragment; lia).
  destruct Htail as [[-> Hend]|[Hfs' Heq']].
  - rewrite <- Hend in Hscan. destruct fuel as [|fuel]; [done |]. cbn [scan_loop] in Hscan. unfold expected in Hscan.
    destruct Hm as (H4 & _ & _). rewrite (proj2 (Nat.leb_le 4 _)) in Hscan by lia. cbn [scan_done] in Hscan.
    by rewrite (proj2 (Nat.leb_le _ _)) in Hscan by lia.
  - apply (IH fuel (pre ++ encode_fragment f) (hs ++ fr_payload f)); try done.
    + rewrite <- !app_assoc. by apply prefix_app, prefix_app.
    + rewrite !length_app. lia.
Qed.

(** How many more lengths the scan may ask for when the buffer has [n] bytes. *)
Definition marks_beyond (n : nat) (fs : list fragment) : nat :=
  length (List.filter (fun t => (n <? t)%nat) (marks 0 fs)).

Lemma marks_inside offset fs : Forall (fun t => (t <= offset + length (encode_fragments fs))%nat) (marks offset fs).
Proof.
  revert offset; induction fs as [|f fs IH]; intros offset; [constructor |]. cbn [marks].
  assert (length (encode_fragments (f :: fs)) = (5 + length (fr_payload f) + length (encode_fragments fs))%nat) as Hl
    by (unfold encode_fragments; cbn [fmap list_fmap concat]; by rewrite length_app, length_encode_fragment).
  rewrite Hl. repeat constructor; try lia. eapply Forall_impl; [|apply IH]. simpl. intros t. lia.
Qed.

Lemma no_marks_beyond n fs : (length (encode_fragments fs) <= n)%nat -> marks_beyond n fs = 0%nat.
Proof.
  intros Hn. unfold marks_beyond. pose proof (marks_inside 0 fs) as Hall.
  induction Hall as [|t l Ht _ IH]; [done |]. simpl. by rewrite (proj2 (Nat.ltb_ge _ _)) by lia.
Qed.

Lemma fewer_or_same_marks n n' l :
  (n <= n')%nat ->
  (length (List.filter (fun t => (n' <? t)%nat) l) <= length (List.filter (fun t => (n <? t)%nat) l))%nat.
Proof.
  intros Hn. induction l as [|x l IH]; simpl; [done |].
  destruct (Nat.ltb_spec n' x), (Nat.ltb_spec n x); simpl; lia.
Qed.

Lemma fewer_marks n n' l t :
  (n < t <= n')%nat -> t ∈ l ->
  (length (List.filter (fun t => (n' <? t)%nat) l) < length (List.filter (fun t => (n <? t)%nat) l))%nat.
Proof.
  intros Ht. induction l as [|x l IH]; [by intros ?%elem_of_nil |]. intros [<-|Hin]%elem_of_cons; simpl.
  - pose proof (fewer_or_same_marks n n' l ltac:(lia)).
    destruct (Nat.ltb_spec n' t), (Nat.ltb_spec n t); simpl; lia.
  - specialize (IH Hin). destruct (Nat.ltb_spec n' x), (Nat.ltb_spec n x); simpl; lia.
Qed.

(** When the last of the polls is answered. *)
Fixpoint time_of (polls : list (Z * peek_poll)) : Z :=
  match polls with
  | [] => 0
  | [p] => p.1
  | p :: polls' => p.1 + PEEK_POLL_INTERVAL + time_of polls'
  end.

Lemma time_of_cons p polls : polls <> [] -> time_of (p :: polls) = p.1 + PEEK_POLL_INTERVAL + time_of polls.
Proof. by destruct polls. Qed.

Lemma time_of_pos polls : Forall (fun p => 0 <= p.1) polls -> 0 <= time_of polls.
Proof.
  induction 1 as [|p polls Hp _ IH]; [done |]. destruct polls as [|q polls]; [done |].
  rewrite time_of_cons by done. unfold PEEK_POLL_INTERVAL. lia.
Qed.

(** One poll of a capture of the hello: it completes, or grows the buffer to the
    next mark. *)
Lemma peek_one m fs rest timeout elapsed wait k polls n :
  hello_message m -> fragments_of m fs -> (length (encode_fragments fs) <= MAX_CLIENT_HELLO)%nat ->
  k `prefix_of` encode_fragments fs ++ rest -> (0 < n)%nat -> k <> [] -> elapsed + wait <= timeout ->
  peek_reassemble timeout elapsed ((wait, PeekBuffered k) :: polls) n =
    PeekSome (wrap_as_record m) (Some (length (encode_fragments fs))) \/
  exists t, t ∈ marks 0 fs /\ (length (take n k) < t)%nat /\ (length (take n k) < length (encode_fragments fs))%nat /\
    peek_reassemble timeout elapsed ((wait, PeekBuffered k) :: polls) n =
    peek_reassemble timeout (elapsed + wait + PEEK_POLL_INTERVAL) polls (Nat.max n t).
Proof.
  intros Hm Hfs Hcap Hk Hn Hne Ht. cbn [peek_reassemble]. cbv zeta. rewrite (proj2 (Z.ltb_ge _ _)) by done.
  assert (take n k `prefix_of` encode_fragments fs ++ rest) as Hpre by (transitivity k; [apply prefix_take | done]).
  destruct (take n k) as [|b raw] eqn:E; [destruct k, n; simpl in E; done || lia |].
  destruct (scan_prefix m fs rest (b :: raw) Hm Hfs Hpre) as [->|(t & Hs & Hlt)]; [by left |].
  right. rewrite Hs, (proj2 (Nat.ltb_ge _ _)) by lia. exists t. split_and!; [| lia | lia | done].
  unfold scan_handshake_records in Hs.
  apply (scan_asks_for_marks m fs _ [] [] rest (b :: raw) t Hm Hfs eq_refl Hpre ltac:(simpl; lia) Hs).
Qed.

(** Once every poll sees the whole hello, each one that is not the last reaches
    another mark. *)
Lemma peek_reassemble_live m fs timeout elapsed polls n :
  hello_message m -> fragments_of m fs -> (length (encode_fragments fs) <= MAX_CLIENT_HELLO)%nat ->
  Forall (fun p => 0 <= p.1 /\ exists rest, p.2 = PeekBuffered (encode_fragments fs ++ rest)) polls ->
  (0 < n)%nat -> (marks_beyond n fs < length polls)%nat -> elapsed + time_of polls <= timeout ->
  peek_reassemble timeout elapsed polls n = PeekSome (wrap_as_record m) (Some (length (encode_fragments fs))).
Proof.
  intros Hm Hfs Hcap Hpolls. revert elapsed n; induction Hpolls as [|[wait p] polls [Hw [rest Hp]] Hps IH];
    intros elapsed n Hn Hlen Ht; [simpl in Hlen; lia |]. simpl in Hw, Hp. subst p.
  assert (encode_fragments fs ++ rest <> []) as Hne.
  { destruct Hfs as (_ & _ & fs' & f & -> & _). unfold encode_fragments. rewrite fmap_app, concat_app.
    intros Heq%(f_equal length). rewrite !length_app in Heq. cbn [fmap list_fmap concat] in Heq.
    rewrite length_app, length_encode_fragment in Heq. simpl in Heq. lia. }
  assert (0 <= time_of polls) by (apply time_of_pos; eapply Forall_impl; [|exact Hps]; by intros ? []).
  assert (elapsed + wait <= timeout) as Hin.
  { destruct (decide (polls = [])) as [->|]; [simpl in Ht; lia |]. rewrite time_of_cons in Ht by done.
    unfold PEEK_POLL_INTERVAL in Ht. simpl in Ht. lia. }
  destruct (peek_one m fs rest timeout elapsed wait (encode_fragments fs ++ rest) polls n) as [->|(t & Hmark & Hlt & Hshort & ->)];
    try done. rewrite length_take, length_app in Hlt, Hshort.
  assert (marks_beyond (Nat.max n t) fs < marks_beyond n fs)%nat
    by (apply fewer_marks with t; [lia | done]).
  assert (polls <> []) as Hne' by (intros ->; simpl in Hlen; lia).
  simpl in Hlen. rewrite time_of_cons in Ht by done. simpl in Ht. apply IH; lia.
Qed.

(** Polls that see less only grow the buffer. *)
Lemma peek_reassemble_completes m fs rest timeout elapsed early late n :
  hello_message m -> fragments_of m fs -> (length (encode_fragments fs) <= MAX_CLIENT_HELLO)%nat ->
  Forall (fun p => 0 <= p.1 /\ exists k, p.2 = PeekBuffered k /\ k <> [] /\ k `prefix_of` encode_fragments fs ++ rest) early ->
  Forall (fun p => 0 <= p.1 /\ exists rest, p.2 = PeekBuffered (encode_fragments fs ++ rest)) late ->
  (0 < n)%nat -> (marks_beyond n fs < length late)%nat -> elapsed + time_of (early ++ late) <= timeout ->
  peek_reassemble timeout elapsed (early ++ late) n = PeekSome (wrap_as_record m) (Some (length (encode_fragments fs))).
Proof.
  intros Hm Hfs Hcap Hearly Hlate.
  revert elapsed n; induction Hearly as [|[wait p] early (Hw & k & Hp & Hk & Hpre) Hes IH]; intros elapsed n Hn Hlen Ht.
  { by apply peek_reassemble_live. }
  simpl in Hw, Hp. subst p. assert (early ++ late <> []) as Hne by (destruct early, late; simpl in *; done || lia).
  assert (0 <= time_of (early ++ late)).
  { apply time_of_pos, Forall_app. split; (eapply Forall_impl; [|eassumption]; by intros ? []). }
  cbn [app] in *. rewrite time_of_cons in Ht by done. simpl in Ht.
  destruct (peek_one m fs rest timeout elapsed wait k (early ++ late) n) as [->|(t & Hmark & _ & _ & ->)];
    try done; [unfold PEEK_POLL_INTERVAL in Ht; lia |].
  apply IH; [lia | | lia]. eapply Nat.le_lt_trans; [|exact Hlen]. apply fewer_or_same_marks. lia.
Qed.

(** ** Lemmas: parsing what was encoded *)

Lemma read_u8_cons b r : read_u8 (b :: r) = Some (b, r).
Proof. done. Qed.

Lemma read_u16_be z r : 0 <= z <= u16_max -> read_u16 (u16_to_be z ++ r) = Some (z, r).
Proof. intros. simpl. by rewrite u16_from_to_be. Qed.

Lemma read_bytes_app s r : read_bytes (length s) (s ++ r) = Some (s, r).
Proof.
  unfold read_bytes, remaining. rewrite length_app, (proj2 (Nat.ltb_ge _ _)) by lia.
  by rewrite take_app_length, drop_app_length.
Qed.

Lemma read_bytes_all s : read_bytes (length s) s = Some (s, []).
Proof. rewrite <- (app_nil_r s) at 2. apply read_bytes_app. Qed.

Lemma skip_app s r : skip (length s) (s ++ r) = Some r.
Proof.
  unfold skip, remaining. rewrite length_app, (proj2 (Nat.ltb_ge _ _)) by lia.
  by rewrite drop_app_length.
Qed.

(** A ClientHello as RFC 8446 (4.1.2) lays it out. *)
Record hello_fields : Type := mkFields {
  hf_version : Z;
  hf_random : bytes;
  hf_session_id : bytes;
  hf_suites : bytes;
  hf_compression : bytes;
  hf_extensions : bytes;
}.

Definition len8 (s : bytes) : bytes := Z.of_nat (length s) :: s.
Definition len16 (s : bytes) : bytes := u16_to_be (Z.of_nat (length s)) ++ s.

Definition encode_body (h : hello_fields) : bytes :=
  u16_to_be (hf_version h) ++ hf_random h ++ len8 (hf_session_id h) ++ len16 (hf_suites h) ++
  len8 (hf_compression h) ++ len16 (hf_extensions h).

Definition u24_to_be (z : Z) : bytes :=
  [Z.shiftr z 16 mod 256; Z.shiftr z 8 mod 256; z mod 256].

Definition encode_hello (h : hello_fields) : bytes :=
  [1] ++ u24_to_be (Z.of_nat (length (encode_body h))) ++ encode_body h.

Definition hello_fields_ok (h : hello_fields) : Prop :=
  0 <= hf_version h <= u16_max /\ length (hf_random h) = 32%nat /\
  Z.of_nat (length (hf_session_id h)) <= u8_max /\
  Z.of_nat (length (hf_suites h)) <= u16_max /\
  Z.of_nat (length (hf_compression h)) <= u8_max /\
  Z.of_nat (length (hf_extensions h)) <= u16_max.

Lemma parse_hello_record hdr h :
  hello_fields_ok h -> length hdr = 2%nat ->
  Parser_parse_client_hello ([22; 3; 1] ++ hdr ++ encode_hello h) =
  Some (mkHello (hf_version h) (hf_suites h) (hf_extensions h)).
Proof.
  intros (Hv & Hr & Hs & Hc & Hm & He) Hhdr.
  destruct hdr as [|x [|y [|]]]; try done.
  unfold Parser_parse_client_hello, encode_hello, encode_body, u24_to_be, len8, len16.
  cbn [app read_u8 mbind option_bind negb Z.eqb Pos.eqb].
  change (skip 2 (3 :: 1 :: ?r)) with (Some r). cbn [mbind option_bind read_u16 read_u8].
  cbn [negb Z.eqb Pos.eqb read_u24 mbind option_bind].
  rewrite read_u16_be by done. cbn [mbind option_bind].
  rewrite <- Hr, skip_app. cbn [mbind option_bind app read_u8].
  rewrite Nat2Z.id, skip_app. cbn [mbind option_bind]. rewrite <- app_assoc.
  rewrite read_u16_be by lia. cbn [mbind option_bind].
  rewrite Nat2Z.id, read_bytes_app. cbn [mbind option_bind app read_u8].
  rewrite Nat2Z.id, skip_app. cbn [mbind option_bind].
  unfold remaining at 1. rewrite length_app, length_u16_to_be, (proj2 (Nat.ltb_ge _ _)) by lia.
  rewrite read_u16_be by lia. cbn [mbind option_bind]. unfold remaining.
  by rewrite Nat2Z.id, Nat.min_id, read_bytes_all.
Qed.

Lemma u24_fields a b c : 0 <= b < 256 -> 0 <= c < 256 ->
  Z.lor (Z.lor (Z.shiftl a 16) (Z.shiftl b 8)) c = a * 65536 + b * 256 + c.
Proof.
  intros Hb Hc. rewrite (Z.shiftl_mul_pow2 b) by lia. change (2 ^ 8) with 256.
  rewrite (lor_shiftl_add a (b * 256)) by (change (2 ^ 16) with 65536; lia).
  change (2 ^ 16) with 65536.
  replace (a * 65536 + b * 256) with (Z.shiftl (a * 256 + b) 8)
    by (rewrite Z.shiftl_mul_pow2 by lia; change (2 ^ 8) with 256; lia).
  rewrite lor_shiftl_add by (change (2 ^ 8) with 256; lia).
  rewrite Z.shiftl_mul_pow2 by lia. change (2 ^ 8) with 256. lia.
Qed.

Lemma u24_from_to_be z : 0 <= z < 16777216 ->
  Z.lor (Z.lor (Z.shiftl (Z.shiftr z 16 mod 256) 16) (Z.shiftl (Z.shiftr z 8 mod 256) 8))
    (z mod 256) = z.
Proof.
  intros Hz. rewrite u24_fields by (apply Z.mod_pos_bound; lia).
  rewrite !Z.shiftr_div_pow2 by lia. change (2 ^ 16) with (256 * 256). change (2 ^ 8) with 256.
  rewrite <- Z.div_div by lia.
  pose proof (Z.div_mod z 256). pose proof (Z.div_mod (z / 256) 256).
  rewrite (Z.mod_small (z / 256 / 256)); [lia |].
  split; [apply Z.div_pos; [apply Z.div_pos; lia | lia] |].
  apply Z.div_lt_upper_bound; [lia |]. apply Z.div_lt_upper_bound; lia.
Qed.

Lemma hs_body_len_encode z r :
  0 <= z < 16777216 -> hs_body_len ([1] ++ u24_to_be z ++ r) = Z.to_nat z.
Proof.
  intros. change (hs_body_len ([1] ++ u24_to_be z ++ r)) with
    (Z.to_nat (Z.lor (Z.lor (Z.shiftl (Z.shiftr z 16 mod 256) 16) (Z.shiftl (Z.shiftr z 8 mod 256) 8))
       (z mod 256))).
  by rewrite u24_from_to_be.
Qed.

Lemma encode_hello_message h : hello_fields_ok h -> hello_message (encode_hello h).
Proof.
  intros (Hv & Hr & Hs & Hc & Hm & He). unfold u8_max, u16_max in *.
  assert (0 <= Z.of_nat (length (encode_body h)) < 16777216) as Hb.
  { unfold encode_body, len8, len16.
    rewrite !length_app. cbn [length u16_to_be]. lia. }
  unfold hello_message, encode_hello. split_and!.
  - rewrite !length_app. simpl. lia.
  - done.
  - rewrite hs_body_len_encode by done. rewrite !length_app. cbn [length u24_to_be]. lia.
Qed.

(** *** Extensions *)

Definition encode_ext (e : Z * bytes) : bytes := u16_to_be e.1 ++ len16 e.2.
Definition encode_exts (es : list (Z * bytes)) : bytes := concat (encode_ext <$> es).
Definition ext_ok (e : Z * bytes) : Prop :=
  0 <= e.1 <= u16_max /\ Z.of_nat (length e.2) <= u16_max.

Lemma remaining_encode_ext e r : (remaining (encode_ext e ++ r) <? 4)%nat = false.
Proof.
  apply Nat.ltb_ge. unfold remaining, encode_ext, len16.
  rewrite !length_app, !length_u16_to_be. lia.
Qed.

Lemma read_ext_header e r : ext_ok e ->
  read_u16 (encode_ext e ++ r) = Some (e.1, len16 e.2 ++ r) /\
  read_u16 (len16 e.2 ++ r) = Some (Z.of_nat (length e.2), e.2 ++ r) /\
  read_bytes (Z.to_nat (Z.of_nat (length e.2))) (e.2 ++ r) = Some (e.2, r).
Proof.
  intros [Ht Hl]. unfold encode_ext, len16. rewrite <- !app_assoc. split_and!.
  - by apply read_u16_be.
  - apply read_u16_be. lia.
  - rewrite Nat2Z.id. apply read_bytes_app.
Qed.

(** The walk of the fingerprints sees exactly the extensions that were sent. *)
Lemma walk_loop_encode es fuel :
  Forall ext_ok es -> (length es < fuel)%nat -> walk_loop fuel (encode_exts es) = es.
Proof.
  intros Hes. revert fuel; induction Hes as [|e es He _ IH]; intros [|fuel] Hf; try (simpl in Hf; lia).
  { done. }
  unfold encode_exts. cbn [fmap list_fmap concat walk_loop].
  rewrite remaining_encode_ext. destruct (read_ext_header e (concat (encode_ext <$> es)) He) as (H1 & H2 & H3).
  rewrite H1. cbn [mbind option_bind]. rewrite H2. cbn [mbind option_bind]. rewrite H3.
  cbn [mbind option_bind]. change (concat (encode_ext <$> es)) with (encode_exts es).
  rewrite IH by (simpl in Hf; lia). by destruct e.
Qed.

Lemma length_encode_exts es : (length es <= length (encode_exts es))%nat.
Proof.
  unfold encode_exts. induction es as [|e es IH]; [done |].
  cbn [fmap list_fmap concat]. rewrite length_app. unfold encode_ext at 1.
  rewrite length_app, length_u16_to_be. cbn [length]. lia.
Qed.

Lemma walk_encode es : Forall ext_ok es -> walk_extensions (encode_exts es) = es.
Proof. intros. apply walk_loop_encode; [done |]. pose proof (length_encode_exts es). lia. Qed.

(** The server_name extension of one host name (RFC 6066). *)
Definition sni_ext (name : bytes) : Z * bytes := (0, len16 ([0] ++ len16 name)).

Lemma sni_loop_encode es1 name es2 fuel :
  Forall ext_ok es1 -> Forall (fun e => e.1 <> 0) es1 ->
  Z.of_nat (length name) <= 65530 -> (length es1 < fuel)%nat ->
  sni_loop fuel (encode_exts (es1 ++ sni_ext name :: es2)) = host_name name.
Proof.
  intros Hes Hne Hn. revert fuel; induction Hes as [|e es He _ IH]; intros [|fuel] Hf; try (simpl in Hf; lia).
  - unfold encode_exts. cbn [app fmap list_fmap concat sni_loop].
    rewrite remaining_encode_ext.
    destruct (read_ext_header (sni_ext name) (concat (encode_ext <$> es2))) as (H1 & H2 & H3).
    { split; [done |]. unfold sni_ext, len16, u16_max. cbn [snd].
      rewrite !length_app. cbn [length u16_to_be]. lia. }
    rewrite H1. cbn [mbind option_bind]. rewrite H2. cbn [mbind option_bind]. rewrite H3.
    cbn [mbind option_bind sni_ext fst snd negb Z.eqb].
    rewrite <- (app_nil_r (len16 _)) at 1. unfold len16 at 1. rewrite <- app_assoc.
    rewrite read_u16_be by (unfold len16, u16_max; rewrite !length_app; cbn [length u16_to_be]; lia).
    cbn [mbind option_bind app]. rewrite app_nil_r. cbn [sni_entries].
    unfold remaining. rewrite (proj2 (Nat.ltb_ge _ _)) by (unfold len16; simpl; lia).
    cbn [read_u8 mbind option_bind]. unfold len16. rewrite read_u16_be by (unfold u16_max; lia).
    cbn [mbind option_bind]. rewrite Nat2Z.id, read_bytes_all. done.
  - apply Forall_cons_iff in Hne as [Hne1 Hne].
    unfold encode_exts. cbn [app fmap list_fmap concat sni_loop].
    rewrite remaining_encode_ext.
    destruct (read_ext_header e (concat (encode_ext <$> es ++ sni_ext name :: es2)) He) as (H1 & H2 & H3).
    rewrite H1. cbn [mbind option_bind]. rewrite H2. cbn [mbind option_bind]. rewrite H3.
    cbn [mbind option_bind]. rewrite (proj2 (Z.eqb_neq _ _)) by done. cbn [negb].
    apply IH; [done | simpl in Hf; lia].
Qed.

Lemma extract_sni_encode es1 name es2 :
  Forall ext_ok es1 -> Forall (fun e => e.1 <> 0) es1 -> Z.of_nat (length name) <= 65530 ->
  extract_sni (encode_exts (es1 ++ sni_ext name :: es2)) = host_name name.
Proof.
  intros. apply sni_loop_encode; [done | done | done |].
  pose proof (length_encode_exts (es1 ++ sni_ext name :: es2)) as Hl. rewrite length_app in Hl. simpl in Hl. lia.
Qed.

(** ** Lemmas: fingerprints *)

(** A lower-case hexadecimal digit, as [bytes_to_hex] prints it. *)
Definition is_lower_hex (b : Z) : bool := is_digit b || ((97 <=? b) && (b <=? 102)).

(** A character of a fingerprint: ASCII alphanumeric and not upper case. *)
Definition fp_char (b : Z) : bool := is_digit b || is_lower b.

Ltac byte_class :=
  unfold to_lower, is_lower_hex, fp_char, is_hexdigit, is_alphanumeric, is_digit, is_lower, is_upper in *.

Lemma hex_digit_lower d : 0 <= d < 16 -> is_lower_hex (hex_digit d) = true.
Proof. intros. unfold hex_digit. byte_class. case_match; bool_to_prop; lia. Qed.

Lemma nibbles b : is_byte b -> 0 <= Z.shiftr b 4 < 16 /\ 0 <= Z.land b 15 < 16.
Proof.
  intros [Hb0 Hb]. rewrite Z.shiftr_div_pow2 by lia. change 15 with (2 ^ 4 - 1) at 1 2.
  rewrite land_mask by lia. change (2 ^ 4) with 16.
  split; [split; [apply Z.div_pos; lia | apply Z.div_lt_upper_bound; lia] | apply Z.mod_pos_bound; lia].
Qed.

Lemma length_bytes_to_hex s : length (bytes_to_hex s) = (2 * length s)%nat.
Proof. induction s as [|b s IH]; simpl; lia. Qed.

Lemma bytes_to_hex_lower s : bytes_ok s -> Forall (fun b => is_lower_hex b = true) (bytes_to_hex s).
Proof.
  induction 1 as [|b s Hb _ IH]; simpl; [constructor |]. destruct (nibbles b Hb).
  repeat constructor; auto using hex_digit_lower.
Qed.

Lemma lower_hex_fp b : is_lower_hex b = true -> fp_char b = true.
Proof. byte_class. intros. lia. Qed.

Lemma fp_char_alphanumeric b : fp_char b = true -> is_alphanumeric b = true /\ to_lower b = b.
Proof. byte_class. intros H. split; [lia |]. case_match; lia. Qed.

Lemma to_lower_fp b : is_alphanumeric b = true -> fp_char (to_lower b) = true.
Proof. byte_class. intros. case_match; lia. Qed.

(** Two decimal digits up to 99. *)
Lemma to_dec02_small n : (n <= 99)%nat ->
  exists a b, to_dec02 (Z.of_nat n) = [a; b] /\ is_digit a = true /\ is_digit b = true.
Proof.
  intros Hn.
  set (ok := fun n => match to_dec02 (Z.of_nat n) with
                      | [a; b] => is_digit a && is_digit b | _ => false end).
  assert (forallb ok (seq 0 100) = true) as Hall by by vm_compute.
  rewrite forallb_forall in Hall. specialize (Hall n).
  rewrite in_seq in Hall. specialize (Hall ltac:(lia)). unfold ok in Hall.
  destruct (to_dec02 (Z.of_nat n)) as [|a [|b [|]]]; try done. bool_to_prop. eauto.
Qed.

Lemma capped_digits l :
  exists a b, to_dec02 (capped l) = [a; b] /\ is_digit a = true /\ is_digit b = true.
Proof. apply to_dec02_small. lia. Qed.

Lemma Forall_last {A} (P : A -> Prop) l d : Forall P l -> l <> [] -> P (List.last l d).
Proof.
  induction 1 as [|x l Hx Hl IH]; [done |]. intros _. destruct l; [done |]. apply IH. done.
Qed.

Lemma alpn_chars_shape alpn :
  (forall s, alpn = Some s -> bytes_ok s) ->
  exists a b, alpn_chars alpn = [a; b] /\ fp_char a = true /\ fp_char b = true.
Proof.
  intros Hok. destruct alpn as [[|x s]|]; [by do 2 eexists | | by do 2 eexists].
  specialize (Hok _ eq_refl). unfold alpn_chars. cbv zeta.
  destruct (is_alphanumeric x && _) eqn:Hal.
  - bool_to_prop. do 2 eexists. split; [done |]. auto using to_lower_fp.
  - do 2 eexists. split; [done |].
    pose proof (bytes_to_hex_lower _ Hok) as Hhex.
    split; apply lower_hex_fp.
    + exact (Forall_inv Hhex).
    + by apply (Forall_last (fun b => is_lower_hex b = true)).
Qed.

Lemma bytes_ok_list16 s : bytes_ok s -> bytes_ok (list16 s).
Proof. intros Hs. destruct s as [|a [|b s]]; [constructor.. |]. do 2 apply Forall_inv_tail in Hs. by apply Forall_take. Qed.

Lemma bytes_ok_first_protocol s p : bytes_ok s -> first_protocol s = Some p -> bytes_ok p.
Proof.
  intros Hs%bytes_ok_list16. unfold first_protocol. destruct (list16 s); [done |]. cbv zeta.
  case_match; [|done]. intros [= <-]. apply Forall_inv_tail in Hs. by apply Forall_take.
Qed.

Lemma read_bytes_ok n p d p' : bytes_ok p -> read_bytes n p = Some (d, p') -> bytes_ok d /\ bytes_ok p'.
Proof.
  unfold read_bytes. intros Hp. case_match; [done |]. intros [= <- <-].
  split; [by apply Forall_take | by apply Forall_drop].
Qed.

Lemma read_u16_ok p v p' : bytes_ok p -> read_u16 p = Some (v, p') -> bytes_ok p'.
Proof. destruct p as [|a [|b p]]; [done.. |]. intros Hp [= <- <-]. by do 2 apply Forall_inv_tail in Hp. Qed.

Lemma walk_loop_ok fuel p : bytes_ok p -> Forall (fun e => bytes_ok e.2) (walk_loop fuel p).
Proof.
  revert p; induction fuel as [|fuel IH]; intros p Hp; [constructor |]. cbn [walk_loop].
  case_match; [constructor |].
  destruct (read_u16 p) as [[t p1]|] eqn:E1; cbn [mbind option_bind]; [|constructor].
  destruct (read_u16 p1) as [[l p2]|] eqn:E2; cbn [mbind option_bind]; [|constructor].
  destruct (read_bytes (Z.to_nat l) p2) as [[d p3]|] eqn:E3; cbn [mbind option_bind]; [|constructor].
  apply read_u16_ok in E1; [|done]. apply read_u16_ok in E2; [|done].
  apply read_bytes_ok in E3 as [Hd Hp3]; [|done]. constructor; [done | by apply IH].
Qed.

Lemma ja4_fold_alpn es acc :
  Forall (fun e => bytes_ok e.2) es -> (forall s, alpn_first acc = Some s -> bytes_ok s) ->
  forall s, alpn_first (foldl ja4_step acc es) = Some s -> bytes_ok s.
Proof.
  intros Hes. revert acc; induction Hes as [|[t d] es Hd _ IH]; intros acc Hacc; [done |].
  cbn [foldl]. apply IH. simpl in Hd. unfold ja4_step.
  destruct (is_grease t), (t =? 43), (t =? 16), (t =? 13); simpl; try done;
    intros s; destruct (first_protocol d) eqn:E; naive_solver eauto using bytes_ok_first_protocol.
Qed.

Lemma ja4_scan_alpn exts s : bytes_ok exts -> alpn_first (ja4_scan exts) = Some s -> bytes_ok s.
Proof. intros He. apply ja4_fold_alpn; [by apply walk_loop_ok | done]. Qed.

Lemma ver_str_cases v : ver_str v ∈ [bs "13"; bs "12"; bs "11"; bs "10"; bs "00"].
Proof.
  unfold ver_str. rewrite !elem_of_cons.
  destruct (v =? 772), (v =? 771), (v =? 770), (v =? 769); tauto.
Qed.

(** The ten characters of part A. *)
Lemma ja4_part_a_shape v ciphers exts :
  bytes_ok exts ->
  exists v1 v2 s c1 c2 e1 e2 a1 a2,
    ja4_part_a v ciphers (ja4_scan exts) = [116; v1; v2; s; c1; c2; e1; e2; a1; a2] /\
    [v1; v2] ∈ [bs "13"; bs "12"; bs "11"; bs "10"; bs "00"] /\ s ∈ [100; 105] /\
    Forall (fun b => is_digit b = true) [c1; c2; e1; e2] /\
    Forall (fun b => fp_char b = true) [a1; a2].
Proof.
  intros He. unfold ja4_part_a. set (acc := ja4_scan exts).
  destruct (capped_digits ciphers) as (c1 & c2 & -> & ? & ?).
  destruct (capped_digits (ext_ids acc)) as (e1 & e2 & -> & ? & ?).
  destruct (alpn_chars_shape (alpn_first acc)) as (a1 & a2 & -> & ? & ?).
  { intros s. by apply ja4_scan_alpn. }
  pose proof (ver_str_cases (max_or v (supported_versions acc))) as Hv.
  assert (exists v1 v2, ver_str (max_or v (supported_versions acc)) = [v1; v2]) as (v1 & v2 & Hvs).
  { unfold ver_str. repeat case_match; by do 2 eexists. }
  rewrite Hvs in *.
  exists v1, v2, (if existsb (Z.eqb 0) (ext_ids acc) then 100 else 105), c1, c2, e1, e2, a1, a2.
  split_and!; [by case_match | done | case_match; repeat constructor | |]; by repeat constructor.
Qed.

Lemma sort_u16_perm l l' : l ≡ₚ l' -> sort_u16 l = sort_u16 l'.
Proof.
  intros Hp. apply (Sorted_unique Z.le); [apply Sorted_merge_sort; apply _..|].
  unfold sort_u16. by rewrite !merge_sort_Permutation.
Qed.

Section FingerprintLemmas.
Context `{DigestsOk}.

Lemma sha256_hex12_shape d :
  length (sha256_hex12 d) = 12%nat /\ Forall (fun b => is_lower_hex b = true) (sha256_hex12 d).
Proof.
  unfold sha256_hex12. rewrite length_bytes_to_hex, length_take, sha256_length. split; [done |].
  apply bytes_to_hex_lower, Forall_take, sha256_bytes.
Qed.

Lemma zeros12_shape :
  length (bs "000000000000") = 12%nat /\ Forall (fun b => is_lower_hex b = true) (bs "000000000000").
Proof. split; [done | by repeat constructor]. Qed.

Lemma ja4_part_b_shape l :
  length (ja4_part_b l) = 12%nat /\ Forall (fun b => is_lower_hex b = true) (ja4_part_b l).
Proof. unfold ja4_part_b. cbv zeta. case_match; auto using zeros12_shape, sha256_hex12_shape. Qed.

Lemma ja4_part_c_shape acc :
  length (ja4_part_c acc) = 12%nat /\ Forall (fun b => is_lower_hex b = true) (ja4_part_c acc).
Proof. unfold ja4_part_c. cbv zeta. case_match; auto using zeros12_shape, sha256_hex12_shape. Qed.

Lemma compute_ja3_shape v suites exts :
  length (compute_ja3 v suites exts) = 32%nat /\
  Forall (fun b => is_lower_hex b = true) (compute_ja3 v suites exts).
Proof.
  unfold compute_ja3, md5_hex. cbv zeta. rewrite length_bytes_to_hex, md5_length. split; [done |].
  apply bytes_to_hex_lower, md5_bytes.
Qed.
End FingerprintLemmas.

(** The sixteen GREASE values of RFC 8701. *)
Definition grease_values : list Z := (fun k => k * 4096 + 2560 + k * 16 + 10) <$> seqZ 0 16.

Lemma is_grease_spec v : 0 <= v <= u16_max -> is_grease v = bool_decide (v ∈ grease_values).
Proof.
  unfold u16_max. intros Hv. apply eq_true_iff_eq. rewrite bool_decide_eq_true. split.
  - unfold is_grease. cbv zeta. intros Hg. bool_to_prop.
    change 255 with (2 ^ 8 - 1) in *. change 15 with (2 ^ 4 - 1) in *.
    rewrite !land_mask in * by lia. rewrite Z.shiftr_div_pow2 in * by lia.
    change (2 ^ 8) with 256 in *. change (2 ^ 4) with 16 in *.
    apply list_elem_of_fmap. exists (v mod 256 / 16).
    pose proof (Z.mod_pos_bound v 256). pose proof (Z.div_mod v 256).
    pose proof (Z.div_mod (v mod 256) 16).
    assert (0 <= v / 256 < 256) by (split; [apply Z.div_pos; lia | apply Z.div_lt_upper_bound; lia]).
    rewrite (Z.mod_small (v / 256)) in * by lia. rewrite elem_of_seqZ. lia.
  - intros Hin. assert (forallb is_grease grease_values = true) as Hall by by vm_compute.
    rewrite forallb_forall in Hall. by apply Hall, list_elem_of_In.
Qed.

Lemma u16_chunks_bounds s : bytes_ok s -> Forall (fun v => 0 <= v <= u16_max) (u16_chunks s).
Proof.
  intros Hs. remember (length s) as n eqn:Hn. assert (length s <= n)%nat as Hle by lia. clear Hn.
  revert s Hs Hle; induction n as [|n IH]; intros [|a [|b s]] Hs Hle; simpl in *; try constructor; try lia.
  - apply Forall_cons_iff in Hs as [Ha Hs]. apply Forall_cons_iff in Hs as [Hb Hs].
    unfold u16_from_be, u16_max, is_byte in *.
    rewrite lor_shiftl_add by (change (2 ^ 8) with 256; lia). change (2 ^ 8) with 256. lia.
  - apply IH; [by do 2 apply Forall_inv_tail in Hs | lia].
Qed.

Lemma not_grease_spec s : bytes_ok s ->
  not_grease (u16_chunks s) =
  List.filter (fun c => negb (bool_decide (c ∈ grease_values))) (u16_chunks s).
Proof.
  intros Hs%u16_chunks_bounds. unfold not_grease. induction Hs as [|v l Hv _ IH]; [done |].
  cbn [List.filter]. by rewrite is_grease_spec, IH.
Qed.

(** ** Lemmas: the server name *)

Lemma trim_start_head c s : match trim_start_byte c s with b :: _ => b <> c | [] => True end.
Proof. induction s as [|b s IH]; simpl; [done |]. destruct (Z.eqb_spec b c); done. Qed.

Lemma trim_end_last c s : trim_end_byte c s <> [] -> List.last (trim_end_byte c s) 0 <> c.
Proof.
  unfold trim_end_byte. pose proof (trim_start_head c (rev s)) as Hh.
  destruct (trim_start_byte c (rev s)) as [|b r]; [done |]. intros _. simpl. by rewrite List.last_last.
Qed.

Lemma contains_byte_false b s : contains_byte b s = false -> Forall (fun x => x <> b) s.
Proof.
  induction s as [|x s IH]; simpl; [constructor |]. intros Hx. bool_to_prop. constructor; [congruence | auto].
Qed.

Lemma host_name_clean name sni :
  host_name name = Some sni ->
  (0 < length sni <= 253)%nat /\ List.last sni 0 <> 46 /\
  Forall (fun b => b <> 58 /\ b <> 47) sni.
Proof.
  unfold host_name. destruct (from_utf8 name) as [raw|]; cbn [mbind option_bind]; [|done]. cbv zeta.
  case_match eqn:E; [done |]. intros [= <-]. bool_to_prop.
  assert (trim_end_byte 46 raw <> []) as Hne by by case_bool_decide.
  split_and!.
  - destruct (trim_end_byte 46 raw); [done | simpl; lia].
  - lia.
  - by apply trim_end_last.
  - repeat match goal with H : contains_byte _ _ = false |- _ => apply contains_byte_false in H end.
    rewrite !Forall_forall in *. auto.
Qed.

Lemma sni_entries_host fuel sp r sni :
  sni_entries fuel sp = Some r -> r = Some sni -> exists name, host_name name = Some sni.
Proof.
  intros He ->. revert sp He; induction fuel as [|fuel IH]; intros sp; [done |]. cbn [sni_entries].
  case_match; [done |].
  match goal with |- context [match ?m with Some _ => _ | None => _ end] => destruct m as [[[ty d] sp']|] end;
    [|done].
  case_match; [intros [= Hd]; eauto | apply IH].
Qed.

Lemma sni_loop_host fuel p sni : sni_loop fuel p = Some sni -> exists name, host_name name = Some sni.
Proof.
  revert p; induction fuel as [|fuel IH]; intros p; [done |]. cbn [sni_loop].
  case_match; [done |].
  destruct (read_u16 p) as [[t p1]|]; cbn [mbind option_bind]; [|done].
  destruct (read_u16 p1) as [[l p2]|]; cbn [mbind option_bind]; [|done].
  destruct (read_bytes _ p2) as [[d p3]|]; cbn [mbind option_bind]; [|done].
  destruct (negb _); [apply IH |].
  destruct (read_u16 d) as [[u sp]|]; cbn [mbind option_bind]; [|done].
  destruct (sni_entries _ sp) as [r|] eqn:E; [by apply (sni_entries_host _ _ _ _ E) | apply IH].
Qed.

(** Digests of the right sizes, for the concrete instances below. *)
#[local] Instance constant_digests : Digests := {|
  md5 d := replicate 16 171;
  sha256 d := replicate 32 (Z.of_nat (length d) mod 256);
|}.

Lemma constant_digests_ok : DigestsOk.
Proof.
  split; intros; cbn [md5 sha256 constant_digests]; rewrite ?length_replicate; try done;
    apply Forall_replicate; unfold is_byte; [lia | apply Z.mod_pos_bound; lia].
Qed.

(** A ClientHello with one server name, used by the witnesses. *)
Definition sample_fields : hello_fields :=
  mkFields 771 (replicate 32 7) [] [19; 1; 10; 10] [0]
    (encode_exts [(43, [2; 3; 4]); sni_ext (bs "db.example.com.")]).

Definition sample_fragments : list fragment :=
  [mkFrag (3, 1) (take 10 (encode_hello sample_fields)); mkFrag (3, 3) [];
   mkFrag (3, 3) (drop 10 (encode_hello sample_fields))].

Lemma sample_fields_ok : hello_fields_ok sample_fields.
Proof. unfold hello_fields_ok, u16_max, u8_max. by vm_compute. Qed.

Lemma sample_fragments_ok : fragments_of (encode_hello sample_fields) sample_fragments.
Proof.
  split_and!; [by vm_compute | by repeat constructor |].
  exists (take 2 sample_fragments), (mkFrag (3, 3) (drop 10 (encode_hello sample_fields))).
  by vm_compute.
Qed.

(** A complete peek is what the whole hello parses to. *)
Lemma complete_peek_whole `{Digests} m fs rest timeout polls :
  hello_message m -> fragments_of m fs -> polls_of (encode_fragments fs ++ rest) polls ->
  pi_complete (peek_with_timeout timeout polls) = true ->
  let whole := parse_client_hello (wrap_as_record m) in
  peek_with_timeout timeout polls =
  mkPeek (pi_sni whole) (pi_ja3 whole) (pi_ja4 whole) true
    (length (encode_fragments fs)) (pi_offers_h2 whole).
Proof.
  intros Hm Hfs Hpolls. unfold peek_with_timeout.
  destruct (peek_reassemble timeout 0 polls INITIAL_PEEK) as [|buf [w|]|] eqn:E; try done.
  destruct (peek_reassemble_safe m fs rest _ _ polls _ buf w Hm Hfs Hpolls E) as [-> ->].
  done.
Qed.

(** ** Properties *)

Module Properties.

(** C9: However a ClientHello is cut into TLS records and however TCP delivers
    them, a peek that reports [complete] has fingerprinted exactly that whole
    ClientHello: the result is the parse of the reassembled message, and
    [hello_len] is the length of the records that carry it. *)
Theorem complete_peek_is_the_whole_hello `{Digests} m fs rest timeout polls :
  hello_message m -> fragments_of m fs -> polls_of (encode_fragments fs ++ rest) polls ->
  pi_complete (peek_with_timeout timeout polls) = true ->
  let whole := parse_client_hello (wrap_as_record m) in
  peek_with_timeout timeout polls =
  mkPeek (pi_sni whole) (pi_ja3 whole) (pi_ja4 whole) true
    (length (encode_fragments fs)) (pi_offers_h2 whole).
Proof. apply complete_peek_whole. Qed.

Lemma complete_peek_is_the_whole_hello_witness :
  let polls := [(7000, PeekBuffered (take 20 (encode_fragments sample_fragments)));
                (0, PeekBuffered (encode_fragments sample_fragments ++ [23; 3; 3]))] in
  pi_complete (peek polls) = true /\ pi_hello_len (peek polls) = length (encode_fragments sample_fragments).
Proof.
  intros polls. split; [by vm_compute |]. unfold polls, peek.
  rewrite (complete_peek_is_the_whole_hello (encode_hello sample_fields) sample_fragments [23; 3; 3]).
  - reflexivity.
  - apply encode_hello_message, sample_fields_ok.
  - apply sample_fragments_ok.
  - constructor; [apply prefix_app_r; apply prefix_take |]. constructor; [cbn [snd]; reflexivity | constructor].
  - by vm_compute.
Defined.


(** A hello that trickles in: the first half, all of it but a byte, all of it. *)
Definition trickle : list (Z * peek_poll) :=
  [(3000000, PeekBuffered (take 40 (encode_fragments sample_fragments)));
   (900000000, PeekBuffered (take 94 (encode_fragments sample_fragments)))].


(** C25: A ClientHello laid out as RFC 8446 prescribes is read back field by
    field, and the server name the proxy routes on is the one in its
    server_name extension, with the trailing dots trimmed and the structural
    limits applied, whatever extensions surround it. *)
Theorem client_hello_roundtrip `{Digests} h es1 name es2 :
  hello_fields_ok h -> hf_extensions h = encode_exts (es1 ++ sni_ext name :: es2) ->
  Forall ext_ok es1 -> Forall (fun e => e.1 <> 0) es1 -> Z.of_nat (length name) <= 65530 ->
  Parser_parse_client_hello (wrap_as_record (encode_hello h)) =
    Some (mkHello (hf_version h) (hf_suites h) (hf_extensions h)) /\
  pi_sni (parse_client_hello (wrap_as_record (encode_hello h))) = host_name name.
Proof.
  intros Hok Hext Hes1 Hne Hname.
  assert (Parser_parse_client_hello (wrap_as_record (encode_hello h)) =
    Some (mkHello (hf_version h) (hf_suites h) (hf_extensions h))) as Hparse.
  { by apply (parse_hello_record (u16_to_be _)). }
  split; [done |]. unfold parse_client_hello. rewrite Hparse. cbn [pi_sni extensions].
  rewrite Hext. by apply extract_sni_encode.
Qed.

Lemma client_hello_roundtrip_witness :
  pi_sni (parse_client_hello (wrap_as_record (encode_hello sample_fields))) =
  Some (bs "db.example.com").
Proof.
  rewrite (proj2 (client_hello_roundtrip sample_fields [(43, [2; 3; 4])] (bs "db.example.com.") []
    sample_fields_ok eq_refl ltac:(repeat constructor; simpl; unfold u16_max; lia)
    ltac:(repeat constructor; simpl; lia) ltac:(by vm_compute))).
  by vm_compute.
Defined.

(** Every accepted server name is non-empty, at most 253 bytes, does not end
    in a dot and contains neither a colon nor a slash, so it cannot be read as
    an address with a port or as a path. *)
Theorem accepted_server_name_is_clean exts sni :
  extract_sni exts = Some sni ->
  (0 < length sni <= 253)%nat /\ List.last sni 0 <> 46 /\
  Forall (fun b => b <> 58 /\ b <> 47) sni.
Proof. intros [name Hname]%sni_loop_host. by apply host_name_clean in Hname. Qed.

Lemma accepted_server_name_is_clean_witness :
  extract_sni (hf_extensions sample_fields) = Some (bs "db.example.com") /\
  Forall (fun b => b <> 58 /\ b <> 47) (bs "db.example.com").
Proof.
  split; [by vm_compute |].
  apply (accepted_server_name_is_clean (hf_extensions sample_fields)). by vm_compute.
Defined.

(** JA4 does not depend on the order in which a client lists its cipher
    suites, nor on the GREASE values (exactly the sixteen of RFC 8701) it mixes
    in. *)
Theorem ja4_ignores_cipher_order_and_grease `{Digests} v suites suites' exts :
  List.filter (fun c => negb (bool_decide (c ∈ grease_values))) (u16_chunks suites) ≡ₚ
  List.filter (fun c => negb (bool_decide (c ∈ grease_values))) (u16_chunks suites') ->
  bytes_ok suites -> bytes_ok suites' ->
  compute_ja4 v suites exts = compute_ja4 v suites' exts.
Proof.
  intros Hp Hs Hs'. rewrite <- !not_grease_spec in Hp by done. unfold compute_ja4. cbv zeta.
  set (c := not_grease (u16_chunks suites)) in *. set (c' := not_grease (u16_chunks suites')) in *.
  unfold ja4_part_a, ja4_part_b. cbv zeta. rewrite (sort_u16_perm c c' Hp).
  unfold capped. by rewrite (Permutation_length Hp).
Qed.

Lemma ja4_ignores_cipher_order_and_grease_witness :
  compute_ja4 771 [19; 1; 10; 10; 19; 2] [] = compute_ja4 771 [19; 2; 19; 1] [].
Proof.
  apply ja4_ignores_cipher_order_and_grease.
  - vm_compute. constructor.
  - by repeat constructor.
  - by repeat constructor.
Defined.
End Properties.
