(* ===== verification/Tls.v ===== *)
(** * TLS configurations and their cache (src/src/tls.rs, src/src/mtls.rs)

    An [Arc<ServerConfig>] is an identifier into the store of configurations: a
    configuration owns its session store and ticket keys, so it is its identity,
    not its contents, that lets a client resume. Whether anything besides the
    cache holds one ([Arc::strong_count > 1]) is the argument [held] of the
    operations that look at it.

    rustls and its PEM reader are the class [TlsLib]; [sha256] is that of
    Sni.v's [Digests]. *)

From S2P Require Import Prelude Bytes Sni.
From stdpp Require Import fin_map_dom.

(** ** rustls *)

Class TlsLib : Type := {
  Certificate : Type;
  PrivateKey : Type;
  (** The trust anchors' verifier. *)
  ChainVerifier : Type;
  (** One item per PEM section, [None] where it cannot be read. *)
  pem_certs : bytes -> list (option Certificate);
  (** [Err] for unreadable PEM, [Ok None] for PEM without a key. *)
  pem_private_key : bytes -> result unit (option PrivateKey);
  (** [RootCertStore::add] *)
  anchor_ok : Certificate -> bool;
  (** [WebPkiClientVerifier::builder(..).build()] *)
  webpki_verifier : list Certificate -> option ChainVerifier;
  (** [with_single_cert]: the key belongs to the chain. *)
  single_cert_ok : list Certificate -> PrivateKey -> bool;
}.

Inductive tls_error : Type :=
  | InvalidCertPem
  | NoCertificates
  | InvalidKeyPem
  | NoKey
  | InvalidCaCert
  | CaRejected
  | VerifierFailed
  | KeyMismatch
  | TicketerFailed.

Section Tls.
Context `{TlsLib} `{Digests}.

(** ** Building *)

Record CertSpec : Type := mkCertSpec { cert_chain_pem : bytes; private_key_pem : bytes }.
Record MtlsSpec : Type := mkMtlsSpec { client_ca_pem : bytes; require_client_cert : bool }.

Record SymphonyClientVerifier : Type := mkVerifier { sv_inner : ChainVerifier; require_cert : bool }.

(** The anchors of the CA file, added one by one. *)
Fixpoint add_anchors (items : list (option Certificate)) : result tls_error (list Certificate) :=
  match items with
  | [] => Ok []
  | None :: _ => Err InvalidCaCert
  | Some c :: items' => if anchor_ok c then rest ← add_anchors items'; Ok (c :: rest) else Err CaRejected
  end.

Definition SymphonyClientVerifier_build (ca_pem : bytes) (require : bool)
    : result tls_error SymphonyClientVerifier :=
  roots ← add_anchors (pem_certs ca_pem);
  inner ← ok_or VerifierFailed (webpki_verifier roots);
  Ok (mkVerifier inner require).

Definition client_auth_mandatory (v : SymphonyClientVerifier) : bool := require_cert v.

Record ServerConfig : Type := mkServerConfig {
  sc_certs : list Certificate;
  sc_key : PrivateKey;
  sc_verifier : option SymphonyClientVerifier;
  alpn_protocols : list bytes;
}.

Definition build_verifier (mtls : option MtlsSpec) : result tls_error (option SymphonyClientVerifier) :=
  match mtls with
  | Some m => v ← SymphonyClientVerifier_build (client_ca_pem m) (require_client_cert m); Ok (Some v)
  | None => Ok None
  end.

(** [ticketer] is whether [Ticketer::new] had its random keys. *)
Definition build_server_config (ticketer : bool) (cert : CertSpec) (mtls : option MtlsSpec) (http2 : bool)
    : result tls_error ServerConfig :=
  certs ← ok_or InvalidCertPem (try_map_opt id (pem_certs (cert_chain_pem cert)));
  match certs with
  | [] => Err NoCertificates
  | _ =>
      key ← match pem_private_key (private_key_pem cert) with
            | Ok (Some k) => Ok k
            | Ok None => Err NoKey
            | Err _ => Err InvalidKeyPem
            end;
      verifier ← build_verifier mtls;
      if negb (single_cert_ok certs key) then Err KeyMismatch
      else if negb ticketer then Err TicketerFailed
      else Ok (mkServerConfig certs key verifier (if http2 then [bs "h2"; bs "http/1.1"] else []))
  end.

(** ** The cache *)

Definition CacheKey : Type := bytes * bytes * bool.

Definition MIN_EVICT_AT : nat := 256.

Record TlsConfigCache : Type := mkCache {
  cache : gmap CacheKey nat;
  used : gset CacheKey;
  evict_at : nat;
}.

(** The configurations built so far, by identity. *)
Record config_store : Type := mkStore { configs : gmap nat ServerConfig; next_config : nat }.

Definition TlsConfigCache_new : TlsConfigCache := mkCache ∅ ∅ MIN_EVICT_AT.

Definition retain_used (held : nat -> bool) (c : TlsConfigCache) : TlsConfigCache :=
  mkCache (filter (fun e => e.1 ∈ used c \/ held e.2 = true) (cache c)) ∅ (evict_at c).

Definition evict_unreferenced (held : nat -> bool) (c : TlsConfigCache) : TlsConfigCache :=
  let kept := filter (fun e => held e.2 = true) (cache c) in
  mkCache kept (used c) (Nat.max MIN_EVICT_AT (size kept * 2)).

Definition clear_used (held : nat -> bool) (c : TlsConfigCache) : TlsConfigCache :=
  evict_unreferenced held (mkCache (cache c) ∅ (evict_at c)).

Definition cache_key (cert : CertSpec) (mtls : option MtlsSpec) (http2 : bool) : CacheKey :=
  (sha256 (cert_chain_pem cert ++ private_key_pem cert),
   match mtls with
   | Some m => sha256 (client_ca_pem m ++ [if require_client_cert m then 1%Z else 0%Z])
   | None => replicate 32 0%Z
   end,
   http2).

(** On a miss the new configuration is also held by the caller while the cache
    evicts. *)
Definition lookup_or_build (ticketer : bool) (held : nat -> bool) (c : TlsConfigCache) (st : config_store)
    (cert : CertSpec) (mtls : option MtlsSpec) (http2 : bool)
    : result tls_error (CacheKey * nat) * TlsConfigCache * config_store :=
  let key := cache_key cert mtls http2 in
  match cache c !! key with
  | Some cfg => (Ok (key, cfg), c, st)
  | None =>
      match build_server_config ticketer cert mtls http2 with
      | Err e => (Err e, c, st)
      | Ok config =>
          let cfg := next_config st in
          let c1 := mkCache (<[key := cfg]> (cache c)) (used c) (evict_at c) in
          let c2 := if (evict_at c1 <? size (cache c1))%nat
                    then evict_unreferenced (fun i => held i || (i =? cfg)%nat) c1 else c1 in
          (Ok (key, cfg), c2, mkStore (<[cfg := config]> (configs st)) (S cfg))
      end
  end.

Definition get_or_build (ticketer : bool) (held : nat -> bool) (c : TlsConfigCache) (st : config_store)
    (cert : CertSpec) (mtls : option MtlsSpec) (http2 : bool)
    : result tls_error nat * TlsConfigCache * config_store :=
  match lookup_or_build ticketer held c st cert mtls http2 with
  | (Ok (key, cfg), c', st') => (Ok cfg, mkCache (cache c') ({[key]} ∪ used c') (evict_at c'), st')
  | (Err e, c', st') => (Err e, c', st')
  end.

Definition get_or_build_unmarked (ticketer : bool) (held : nat -> bool) (c : TlsConfigCache) (st : config_store)
    (cert : CertSpec) (mtls : option MtlsSpec) (http2 : bool)
    : result tls_error nat * TlsConfigCache * config_store :=
  match lookup_or_build ticketer held c st cert mtls http2 with
  | (Ok (_, cfg), c', st') => (Ok cfg, c', st')
  | (Err e, c', st') => (Err e, c', st')
  end.

(** ** The cache over time *)

Inductive tls_op : Type :=
  | OpClear
  | OpRetain
  | OpGet (marked ticketer : bool) (cert : CertSpec) (mtls : option MtlsSpec) (http2 : bool).

Definition tls_step (s : TlsConfigCache * config_store) (o : (nat -> bool) * tls_op)
    : TlsConfigCache * config_store :=
  let '(held, op) := o in
  match op with
  | OpClear => (clear_used held s.1, s.2)
  | OpRetain => (retain_used held s.1, s.2)
  | OpGet true t cert mtls http2 => let r := get_or_build t held s.1 s.2 cert mtls http2 in (r.1.2, r.2)
  | OpGet false t cert mtls http2 => let r := get_or_build_unmarked t held s.1 s.2 cert mtls http2 in (r.1.2, r.2)
  end.

Definition tls_run (s : TlsConfigCache * config_store) (ops : list ((nat -> bool) * tls_op))
    : TlsConfigCache * config_store := foldl tls_step s ops.

(** Every entry holds what its key asks for, no two entries share a
    configuration, and the cache is within its bound. *)
Record cache_ok (s : TlsConfigCache * config_store) : Prop := {
  entry_built : forall k c, cache s.1 !! k = Some c ->
    exists t cert mtls http2 config,
      k = cache_key cert mtls http2 /\ build_server_config t cert mtls http2 = Ok config /\ configs s.2 !! c = Some config;
  entry_old : forall k c, cache s.1 !! k = Some c -> (c < next_config s.2)%nat;
  entry_inj : forall k k' c, cache s.1 !! k = Some c -> cache s.1 !! k' = Some c -> k = k';
  cache_bounded : (size (cache s.1) <= evict_at s.1)%nat;
  bound_floor : (MIN_EVICT_AT <= evict_at s.1)%nat;
}.

Lemma new_cache_ok n : cache_ok (TlsConfigCache_new, mkStore ∅ n).
Proof. split; simpl; try by intros. rewrite map_size_empty. unfold MIN_EVICT_AT. lia. Qed.

Lemma size_filter_le {A} (P : CacheKey * A -> Prop) `{forall x, Decision (P x)} (m : gmap CacheKey A) :
  (size (filter P m) <= size m)%nat.
Proof. apply map_subseteq_size, map_filter_subseteq. Qed.

(** Dropping entries keeps what each remaining entry satisfies. *)
Lemma cache_ok_sub (c c' : TlsConfigCache) st :
  cache_ok (c, st) -> cache c' ⊆ cache c -> (size (cache c') <= evict_at c')%nat ->
  (MIN_EVICT_AT <= evict_at c')%nat -> cache_ok (c', st).
Proof.
  intros [Hb Ho Hi _ _] Hsub Hs Hf. simpl in *.
  assert (forall k i, cache c' !! k = Some i -> cache c !! k = Some i) as Hin.
  { intros k i Hk. by apply (lookup_weaken _ _ _ _ Hk). }
  split; simpl; eauto.
Qed.

Lemma evict_ok held c st : cache_ok (c, st) -> cache_ok (evict_unreferenced held c, st).
Proof.
  intros Hok. apply (cache_ok_sub c); [done | apply map_filter_subseteq | |]; simpl; lia.
Qed.

Lemma evict_keeps held c k i :
  cache c !! k = Some i -> held i = true -> cache (evict_unreferenced held c) !! k = Some i.
Proof. intros Hk Hh. by apply map_lookup_filter_Some. Qed.

(** The three ways a lookup ends. *)
Lemma lookup_or_build_cases t held c st cert mtls http2 r c' st' :
  lookup_or_build t held c st cert mtls http2 = (r, c', st') ->
  let key := cache_key cert mtls http2 in
  (exists i, cache c !! key = Some i /\ r = Ok (key, i) /\ c' = c /\ st' = st) \/
  (exists e, r = Err e /\ c' = c /\ st' = st) \/
  (exists config, cache c !! key = None /\ build_server_config t cert mtls http2 = Ok config /\
    r = Ok (key, next_config st) /\
    st' = mkStore (<[next_config st := config]> (configs st)) (S (next_config st)) /\
    let c1 := mkCache (<[key := next_config st]> (cache c)) (used c) (evict_at c) in
    c' = c1 /\ (size (cache c1) <= evict_at c1)%nat \/
    c' = evict_unreferenced (fun i => held i || (i =? next_config st)%nat) c1).
Proof.
  unfold lookup_or_build. cbv zeta. destruct (cache c !! _) as [i|] eqn:Hk.
  { intros [= <- <- <-]. left. eauto. }
  destruct (build_server_config _ _ _ _) as [config|e] eqn:Hb.
  2: { intros [= <- <- <-]. right; left. eauto. }
  intros [= <- <- <-]. right; right. exists config. split_and!; try done.
  destruct (Nat.ltb_spec (evict_at c) (size (<[cache_key cert mtls http2:=next_config st]> (cache c)))).
  - by right.
  - by left.
Qed.

Lemma inserted_ok c st cert mtls http2 t config n :
  let key := cache_key cert mtls http2 in
  let c1 := mkCache (<[key := next_config st]> (cache c)) (used c) n in
  let st1 := mkStore (<[next_config st := config]> (configs st)) (S (next_config st)) in
  cache_ok (c, st) -> cache c !! key = None -> build_server_config t cert mtls http2 = Ok config ->
  (size (cache c1) <= n)%nat -> (MIN_EVICT_AT <= n)%nat -> cache_ok (c1, st1).
Proof.
  intros key c1 st1 [Hb Ho Hi Hs Hf] Hk Hbuild Hsz Hn. simpl in *. split; simpl; try done.
  - intros k i [[<- <-]|[Hne Hki]]%lookup_insert_Some.
    + exists t, cert, mtls, http2, config. by rewrite lookup_insert_eq.
    + destruct (Hb _ _ Hki) as (t' & cert' & mtls' & h' & cfg & ? & ? & ?).
      exists t', cert', mtls', h', cfg. rewrite lookup_insert_ne; [done |]. specialize (Ho _ _ Hki). lia.
  - intros k i [[<- <-]|[Hne Hki]]%lookup_insert_Some; [lia |]. specialize (Ho _ _ Hki). lia.
  - intros k k' i [[<- <-]|[Hne Hki]]%lookup_insert_Some [[<- E]|[Hne' Hki']]%lookup_insert_Some; try done.
    + specialize (Ho _ _ Hki'). lia.
    + subst. specialize (Ho _ _ Hki). lia.
    + eauto.
Qed.

Lemma lookup_or_build_ok t held c st cert mtls http2 :
  cache_ok (c, st) ->
  let r := lookup_or_build t held c st cert mtls http2 in
  cache_ok (r.1.2, r.2) /\
  forall key i, r.1.1 = Ok (key, i) -> key = cache_key cert mtls http2 /\ cache r.1.2 !! key = Some i.
Proof.
  intros Hok r. destruct r as [[x c'] st'] eqn:E. simpl.
  destruct (lookup_or_build_cases _ _ _ _ _ _ _ _ _ _ E)
    as [(i & Hk & -> & -> & ->)|[(e & -> & -> & ->)|(config & Hk & Hb & -> & -> & Hc)]].
  - split; [done |]. intros key j [= <- <-]. done.
  - by split.
  - cbv zeta in Hc. set (key := cache_key cert mtls http2) in *.
    pose proof (bound_floor _ Hok) as Hf. simpl in Hf.
    destruct Hc as [[-> Hsz]| ->]; (split; [|intros k i [= <- <-]; split; [done |]]).
    + by apply inserted_ok with t.
    + simpl. by rewrite lookup_insert_eq.
    + eapply (cache_ok_sub (mkCache (<[key := next_config st]> (cache c)) (used c)
                 (Nat.max MIN_EVICT_AT (size (<[key := next_config st]> (cache c)))))).
      * apply inserted_ok with t; try done; [apply Nat.le_max_r | apply Nat.le_max_l].
      * apply map_filter_subseteq.
      * simpl. lia.
      * simpl. lia.
    + apply evict_keeps; [apply lookup_insert_eq |]. rewrite Nat.eqb_refl. apply orb_true_r.
Qed.

Lemma tls_step_ok s o : cache_ok s -> cache_ok (tls_step s o).
Proof.
  destruct s as [c st]; destruct o as [held [| |[|] t cert mtls http2]]; intros Hok; simpl.
  - apply evict_ok. eapply cache_ok_sub; [done | done | |]; simpl; by destruct Hok.
  - pose proof (cache_bounded _ Hok). pose proof (bound_floor _ Hok). simpl in *.
    apply (cache_ok_sub c); [done | apply map_filter_subseteq | | done]. simpl.
    etrans; [apply size_filter_le | done].
  - pose proof (lookup_or_build_ok t held c st cert mtls http2 Hok) as [Hc _].
    unfold get_or_build. destruct (lookup_or_build _ _ _ _ _ _ _) as [[[[k i]|e] c'] st']; simpl in *; [|done].
    destruct Hc. by split.
  - pose proof (lookup_or_build_ok t held c st cert mtls http2 Hok) as [Hc _].
    unfold get_or_build_unmarked. by destruct (lookup_or_build _ _ _ _ _ _ _) as [[[[k i]|e] c'] st'].
Qed.

Lemma tls_run_ok s ops : cache_ok s -> cache_ok (tls_run s ops).
Proof. revert s; induction ops as [|o ops IH]; intros s Hs; [done |]. apply IH, tls_step_ok, Hs. Qed.

Lemma lookup_or_build_keeps t held c st cert mtls http2 k i :
  cache c !! k = Some i -> held i = true ->
  cache (lookup_or_build t held c st cert mtls http2).1.2 !! k = Some i.
Proof.
  intros Hk Hh. destruct (lookup_or_build t held c st cert mtls http2) as [[x c'] st'] eqn:E. simpl.
  destruct (lookup_or_build_cases _ _ _ _ _ _ _ _ _ _ E)
    as [(j & _ & _ & -> & _)|[(e & _ & -> & _)|(config & Hn & _ & _ & _ & Hc)]]; try done.
  assert (cache_key cert mtls http2 <> k) as Hne by congruence.
  cbv zeta in Hc. destruct Hc as [[-> _]| ->].
  - simpl. by rewrite lookup_insert_ne.
  - apply evict_keeps; [simpl; by rewrite lookup_insert_ne |]. by rewrite Hh.
Qed.

Lemma tls_step_keeps s held op k i :
  cache s.1 !! k = Some i -> held i = true -> cache (tls_step s (held, op)).1 !! k = Some i.
Proof.
  destruct s as [c st]; destruct op as [| |[|] t cert mtls http2]; intros Hk Hh; simpl in *.
  - by apply evict_keeps.
  - apply map_lookup_filter_Some. simpl. auto.
  - pose proof (lookup_or_build_keeps t held c st cert mtls http2 k i Hk Hh) as Hl.
    unfold get_or_build. by destruct (lookup_or_build _ _ _ _ _ _ _) as [[[[k' i']|e] c'] st'].
  - pose proof (lookup_or_build_keeps t held c st cert mtls http2 k i Hk Hh) as Hl.
    unfold get_or_build_unmarked. by destruct (lookup_or_build _ _ _ _ _ _ _) as [[[[k' i']|e] c'] st'].
Qed.

Lemma tls_run_keeps s ops k i :
  cache s.1 !! k = Some i -> Forall (fun o => o.1 i = true) ops -> cache (tls_run s ops).1 !! k = Some i.
Proof.
  intros Hk Hops; revert s Hk; induction Hops as [|[held op] ops Hh _ IH]; intros s Hk; [done |].
  apply IH. by apply tls_step_keeps.
Qed.
Lemma cache_key_inj cert mtls http2 cert' mtls' http2' :
  (forall a b, sha256 a = sha256 b -> a = b) -> (forall a, sha256 a <> replicate 32 0%Z) ->
  cache_key cert mtls http2 = cache_key cert' mtls' http2' ->
  cert_chain_pem cert' ++ private_key_pem cert' = cert_chain_pem cert ++ private_key_pem cert /\
  mtls = mtls' /\ http2 = http2'.
Proof.
  unfold cache_key. intros Hinj Hzero [= Hc Hm Hh]. apply Hinj in Hc. split; [done |]. split; [|done].
  destruct mtls as [[ca r]|], mtls' as [[ca' r']|]; simpl in Hm; [| | |done].
  - apply Hinj, app_inj_2 in Hm as [-> Hr]; [|done]. by destruct r, r'.
  - by apply Hzero in Hm.
  - symmetry in Hm. by apply Hzero in Hm.
Qed.

Lemma build_verifies t cert mtls http2 config :
  build_server_config t cert mtls http2 = Ok config ->
  (client_auth_mandatory <$> sc_verifier config) = (require_client_cert <$> mtls).
Proof.
  unfold build_server_config. intros Hb.
  destruct (ok_or _ _) as [certs|]; [|done]. simpl in Hb. destruct certs as [|c certs]; [done |].
  destruct (match pem_private_key _ with Ok _ => _ | Err _ => _ end) as [key|]; [|done]. simpl in Hb.
  destruct mtls as [[ca r]|]; simpl in *; [|by repeat case_match; simplify_eq/=].
  unfold SymphonyClientVerifier_build in Hb.
  destruct (add_anchors _) as [roots|]; [|done]. simpl in Hb.
  destruct (ok_or _ (webpki_verifier roots)) as [inner|]; [|done]. simpl in Hb.
  by repeat case_match; simplify_eq/=.
Qed.
End Tls.

(** ** Properties *)

Module Properties.

(** Session state survives reloads: a configuration that is cached and held by
    something (a route table, a connection) throughout any sequence of builds,
    sweeps and lookups is the one the same request gets afterwards, without
    building another. *)
Theorem live_config_is_reused `{TlsLib} `{Digests} s ops cert mtls http2 cfg t held :
  cache s.1 !! cache_key cert mtls http2 = Some cfg ->
  Forall (fun o => o.1 cfg = true) ops ->
  let s' := tls_run s ops in
  get_or_build t held s'.1 s'.2 cert mtls http2 =
    (Ok cfg, mkCache (cache s'.1) ({[cache_key cert mtls http2]} ∪ used s'.1) (evict_at s'.1), s'.2).
Proof.
  intros Hk Hops s'. pose proof (tls_run_keeps s ops _ _ Hk Hops) as Hkept.
  unfold get_or_build, lookup_or_build. fold s' in Hkept. by rewrite Hkept.
Qed.

(** A library for the witnesses: a PEM text is one certificate, or a key, of its
    bytes, and a key belongs to the chain that starts with it. *)
#[local] Instance raw_tls : TlsLib := {|
  Certificate := bytes;
  PrivateKey := bytes;
  ChainVerifier := list bytes;
  pem_certs p := match p with [] => [] | _ => [Some p] end;
  pem_private_key p := Ok (Some p);
  anchor_ok _ := true;
  webpki_verifier cs := match cs with [] => None | _ => Some cs end;
  single_cert_ok cs k := match cs with c :: _ => starts_with k c | [] => false end;
|}.
#[local] Instance tagged_digests : Digests := {| md5 d := 1%Z :: d; sha256 d := 1%Z :: d |}.

Definition sample_cert : CertSpec := mkCertSpec (bs "cert") (bs "c").
Definition sample_mtls : MtlsSpec := mkMtlsSpec (bs "ca") true.

Lemma live_config_is_reused_witness :
  let s := tls_run (TlsConfigCache_new, mkStore ∅ 0)
             [(fun _ => true, OpGet true true sample_cert (Some sample_mtls) true)] in
  let s' := tls_run s [(fun _ => true, OpClear); (fun _ => true, OpRetain)] in
  (get_or_build true (fun _ => false) s'.1 s'.2 sample_cert (Some sample_mtls) true).1.1 = Ok 0%nat.
Proof.
  intros s s'.
  by rewrite (live_config_is_reused s [(fun _ => true, OpClear); (fun _ => true, OpRetain)]
    sample_cert (Some sample_mtls) true 0%nat true (fun _ => false));
    [| by vm_compute | repeat constructor].
Defined.


End Properties.
