(* ===== verification/Protection.v ===== *)
(** * Per-address protection (src/src/protection.rs, and its configuration
    parser in src/src/proxy.rs)

    - [ProtectionConfig], [precompute], [parse_protection_config]: the settings.
    - [IpState] and [ProtectionState]: the per-address state. An [Arc<IpState>]
      is an identifier into [heap]: the address table and the admitted
      connections share the states through it, so a release reaches the state
      the admission counted in, whatever happened to the table meanwhile.
    - [check_at], [release], [evict_at], [blocked_ips], [reconfigure]: the
      operations, each as one step (an operation runs to its end before the next
      begins; the interleaving inside the token buckets is in TokenBucket.v).

    The clock is an argument. [IpState::new] reads the clock again, after
    [check] has read it: that second reading is [now']. *)

From S2P Require Import Prelude Bytes Float64 Net TokenBucket Sni.
Import TokenBucket.Atomic.

Open Scope Z_scope.

(** ** Configuration *)

Section Protection.
Context `{NetLib}.

Record ProtectionConfig : Type := mkProt {
  rate_limit_cps : option f64;
  rate_limit_burst : option f64;
  sustained_cpm : option f64;
  sustained_burst : option f64;
  penalty_box_duration_ms : Z;
  max_concurrent_per_ip : Z;
  ja3_blocklist : gset bytes;
  ja4_blocklist : gset bytes;
  tls_handshake_timeout_ms : Z;
  require_sni : bool;
  allowlist : list IpNetwork;
  blocklist : list IpNetwork;
  tokens_per_ns : f64;
  burst_fp : Z;
  sustained_tokens_per_ns : f64;
  sustained_burst_fp : Z;
}.

Definition ProtectionConfig_default : ProtectionConfig :=
  mkProt None None None None 0 0 ∅ ∅ 0 false [] [] f64_zero 0 f64_zero 0.

(** [(burst.or(rate).unwrap_or(0.0) * 1000.0) as u32] *)
Definition burst_of (burst rate : option f64) : Z :=
  f64_as_u32 (f64_mul (default f64_zero (match burst with Some b => Some b | None => rate end))
                (f64_of_Z 1000)).

Definition rate_of (rate : option f64) (ns : Z) : f64 :=
  match rate with Some r => f64_div r (f64_of_Z ns) | None => f64_zero end.

Definition precompute (c : ProtectionConfig) : ProtectionConfig :=
  mkProt (rate_limit_cps c) (rate_limit_burst c) (sustained_cpm c) (sustained_burst c)
    (penalty_box_duration_ms c) (max_concurrent_per_ip c) (ja3_blocklist c) (ja4_blocklist c)
    (tls_handshake_timeout_ms c) (require_sni c) (allowlist c) (blocklist c)
    (rate_of (rate_limit_cps c) 1000000000) (burst_of (rate_limit_burst c) (rate_limit_cps c))
    (rate_of (sustained_cpm c) 60000000000) (burst_of (sustained_burst c) (sustained_cpm c)).

(** Milliseconds. *)
Definition tls_handshake_timeout (c : ProtectionConfig) : Z :=
  if tls_handshake_timeout_ms c =? 0 then 10000 else tls_handshake_timeout_ms c.

(** ** Hexadecimal *)

Definition from_hex_digit (b : Z) : option Z :=
  if (48 <=? b) && (b <=? 57) then Some (b - 48)
  else if (97 <=? b) && (b <=? 102) then Some (b - 97 + 10)
  else if (65 <=? b) && (b <=? 70) then Some (b - 65 + 10)
  else None.

(** The loop of [hex_to_bytes16] over [chunks(2)]. *)
Fixpoint hex_pairs (s : bytes) : option bytes :=
  match s with
  | a :: b :: s' =>
      hi ← from_hex_digit a;
      lo ← from_hex_digit b;
      rest ← hex_pairs s';
      Some (Z.lor (Z.shiftl hi 4) lo :: rest)
  | _ => Some []
  end.

Definition hex_to_bytes16 (hex : bytes) : option bytes :=
  if negb (length hex =? 32)%nat then None else hex_pairs hex.

(** ** Parsing the configuration (src/src/proxy.rs) *)

Record JsRateLimitConfig : Type := mkJsRate { connections_per_second : f64; js_burst : option f64 }.
Record JsSustainedRateLimitConfig : Type :=
  mkJsSustained { connections_per_minute : f64; js_sustained_burst : option f64 }.
Record JsPenaltyBoxConfig : Type := mkJsPenalty { duration_ms : option f64 }.

Record JsProtectionConfig : Type := mkJsProt {
  js_rate_limit : option JsRateLimitConfig;
  js_sustained : option JsSustainedRateLimitConfig;
  js_penalty_box : option JsPenaltyBoxConfig;
  js_max_concurrent_per_ip : option Z;
  js_allowlist : option (list bytes);
  js_blocklist : option (list bytes);
  js_ja3_blocklist : option (list bytes);
  js_ja4_blocklist : option (list bytes);
  js_tls_handshake_timeout_ms : option f64;
  js_require_sni : option bool;
}.

Inductive prot_error : Type :=
  | BadRate (v : f64)
  | BadBurst (v : f64)
  | BadJa3 (entry : bytes)
  | BadJa4 (entry : bytes)
  | BadCidr (e : source_error).

(** A positive finite rate and a non-negative finite burst, or the error. *)
Definition check_rate (rate : f64) (burst : option f64) : result prot_error unit :=
  if negb (f64_is_finite rate) || f64_leb rate f64_zero then Err (BadRate rate)
  else match burst with
       | Some b => if negb (f64_is_finite b) || f64_ltb b f64_zero then Err (BadBurst b) else Ok tt
       | None => Ok tt
       end.

Definition one_of (x y : Z) (pairs : list (Z * Z)) : bool :=
  existsb (fun p => (x =? p.1) && (y =? p.2)) pairs.

Definition is_valid_ja4 (b : bytes) : bool :=
  if negb (length b =? 36)%nat || negb (byte_at b 10 =? 95) || negb (byte_at b 23 =? 95) then false
  else
    let a := take 10 b in
    (byte_at a 0 =? 116) &&
    one_of (byte_at a 1) (byte_at a 2) [(48, 48); (49, 48); (49, 49); (49, 50); (49, 51)] &&
    ((byte_at a 3 =? 100) || (byte_at a 3 =? 105)) &&
    is_digit (byte_at a 4) && is_digit (byte_at a 5) &&
    is_digit (byte_at a 6) && is_digit (byte_at a 7) &&
    is_alphanumeric (byte_at a 8) && is_alphanumeric (byte_at a 9) &&
    forallb is_hexdigit (take 12 (drop 11 b)) && forallb is_hexdigit (take 12 (drop 24 b)).

(** [str::to_lowercase] follows the Unicode tables; what is used of it is that
    it lowers ASCII text byte by byte. *)
Class Lowercase : Type := { to_lowercase : bytes -> bytes }.
Class LowercaseOk `{Lowercase} : Prop :=
  { to_lowercase_ascii : forall s, Forall (fun b => 0 <= b < 128) s ->
      to_lowercase s = to_lower <$> s }.
Context `{Lowercase}.

Definition parse_ja3 (hex : bytes) : result prot_error bytes := ok_or (BadJa3 hex) (hex_to_bytes16 hex).

Definition parse_ja4 (s : bytes) : result prot_error bytes :=
  let lower := to_lowercase s in
  if negb (is_valid_ja4 lower) then Err (BadJa4 s) else Ok lower.

Definition parse_networks (entries : option (list bytes)) : result prot_error (list IpNetwork) :=
  match try_map parse_source_network (default [] entries) with
  | Ok nets => Ok nets
  | Err e => Err (BadCidr e)
  end.

Definition parse_protection_config (prot : JsProtectionConfig) : result prot_error ProtectionConfig :=
  _ ← match js_rate_limit prot with
      | Some rl => check_rate (connections_per_second rl) (js_burst rl)
      | None => Ok tt
      end;
  _ ← match js_sustained prot with
      | Some s => check_rate (connections_per_minute s) (js_sustained_burst s)
      | None => Ok tt
      end;
  ja3s ← try_map parse_ja3 (default [] (js_ja3_blocklist prot));
  ja4s ← try_map parse_ja4 (default [] (js_ja4_blocklist prot));
  allow ← parse_networks (js_allowlist prot);
  block ← parse_networks (js_blocklist prot);
  Ok (precompute (mkProt
    (connections_per_second <$> js_rate_limit prot)
    (js_rate_limit prot ≫= js_burst)
    (connections_per_minute <$> js_sustained prot)
    (js_sustained prot ≫= js_sustained_burst)
    (match js_penalty_box prot with
     | Some pb => f64_as_u64 (default (f64_of_Z 600000) (duration_ms pb))
     | None => 0
     end)
    (default 0 (js_max_concurrent_per_ip prot))
    (list_to_set ja3s) (list_to_set ja4s)
    (f64_as_u64 (default f64_zero (js_tls_handshake_timeout_ms prot)))
    (default false (js_require_sni prot))
    allow block f64_zero 0 f64_zero 0)).

(** ** Per-address state *)

Record IpState : Type := mkIp {
  second : bucket;
  sustained : bucket;
  active : Z;
  penalty_deadline_ns : Z;
}.

Definition IpState_new (burst sustained_burst now : Z) : IpState :=
  mkIp (mkBucket burst now) (mkBucket sustained_burst now) 0 0.

Definition IpState_release (s : IpState) : IpState :=
  mkIp (second s) (sustained s) (saturating_sub (active s) 1) (penalty_deadline_ns s).

Inductive BlockReason : Type :=
  | CidrBlocked
  | Ja3Blocked
  | Ja4Blocked
  | IncompleteHandshake
  | NoSni
  | RateLimited
  | TooManyConnections
  | PenaltyBoxed.

Inductive Decision' (A : Type) : Type :=
  | Allow (guard : A)
  | AllowBypassed
  | Block (r : BlockReason).
Arguments Allow {A} guard.
Arguments AllowBypassed {A}.
Arguments Block {A} r.

(** ** The check *)

(** Steps 1 to 4, which look at the configuration and the ClientHello only;
    [None] goes on to the per-address checks. *)
Definition check_static {A} (cfg : ProtectionConfig) (ip : IpAddr) (peek : PeekInfo)
    : option (Decision' A) :=
  if any_contains (allowlist cfg) ip then Some AllowBypassed
  else if any_contains (blocklist cfg) ip then Some (Block CidrBlocked)
  else
    let fingerprint_enforced :=
      negb (bool_decide (ja3_blocklist cfg = ∅)) || negb (bool_decide (ja4_blocklist cfg = ∅)) in
    if fingerprint_enforced && negb (pi_complete peek) then Some (Block IncompleteHandshake)
    else if negb (bool_decide (ja3_blocklist cfg = ∅)) && (length (pi_ja3 peek) =? 32)%nat &&
            match hex_to_bytes16 (pi_ja3 peek) with
            | Some b => bool_decide (b ∈ ja3_blocklist cfg)
            | None => false
            end
    then Some (Block Ja3Blocked)
    else if negb (bool_decide (ja4_blocklist cfg = ∅)) && negb (bool_decide (pi_ja4 peek = [])) &&
            bool_decide (pi_ja4 peek ∈ ja4_blocklist cfg)
    then Some (Block Ja4Blocked)
    else if require_sni cfg && negb (bool_decide (is_Some (pi_sni peek))) then Some (Block NoSni)
    else None.

Definition rate_positive (rate : f64) : bool := f64_ltb f64_zero rate.

(** [if rate > 0.0 && !refill_and_consume(..)]: true and the bucket debited when
    the limit is off or had a token. *)
Definition within_rate (rate : f64) (burst : Z) (b : bucket) (now : Z) : bool * bucket :=
  if rate_positive rate then refill_and_consume b now rate burst else (true, b).

(** [penalty_deadline_ns.fetch_max(now + penalty_ms * 1_000_000)] with both
    operations saturating. *)
Definition penalty_until (penalty_ms now : Z) : Z :=
  u64_saturating_add now (u64_saturating_mul penalty_ms 1000000).
Definition extend_penalty (s : IpState) (penalty_ms now : Z) : IpState :=
  mkIp (second s) (sustained s) (active s)
    (Z.max (penalty_deadline_ns s) (penalty_until penalty_ms now)).

Definition boxed (cfg : ProtectionConfig) (s : IpState) (now : Z) : bool :=
  (0 <? penalty_box_duration_ms cfg) &&
  (0 <? penalty_deadline_ns s) && (now <? penalty_deadline_ns s).

(** Steps 5 to 8 on the address's state: [inl] is the block, [inr] the state of
    an admitted connection. *)
Definition check_state (cfg : ProtectionConfig) (s : IpState) (now : Z)
    : option BlockReason * IpState :=
  let ms := penalty_box_duration_ms cfg in
  if boxed cfg s now then
    let '(ok1, b1) := within_rate (tokens_per_ns cfg) (burst_fp cfg) (second s) now in
    let '(ok2, b2) :=
      within_rate (sustained_tokens_per_ns cfg) (sustained_burst_fp cfg) (sustained s) now in
    let s' := mkIp b1 b2 (active s) (penalty_deadline_ns s) in
    let exceeded := negb ok1 || negb ok2 in
    (Some PenaltyBoxed, if exceeded then extend_penalty s' ms now else s')
  else
    let '(ok1, b1) := within_rate (tokens_per_ns cfg) (burst_fp cfg) (second s) now in
    let s1 := mkIp b1 (sustained s) (active s) (penalty_deadline_ns s) in
    if negb ok1 then (Some RateLimited, if 0 <? ms then extend_penalty s1 ms now else s1)
    else
      let '(ok2, b2) :=
        within_rate (sustained_tokens_per_ns cfg) (sustained_burst_fp cfg) (sustained s1) now in
      let s2 := mkIp (second s1) b2 (active s1) (penalty_deadline_ns s1) in
      if negb ok2 then (Some RateLimited, if 0 <? ms then extend_penalty s2 ms now else s2)
      else
        let max := max_concurrent_per_ip cfg in
        if 0 <? max then
          if active s2 <? max
          then (None, mkIp (second s2) (sustained s2) (active s2 + 1) (penalty_deadline_ns s2))
          else (Some TooManyConnections, s2)
        else (None, mkIp (second s2) (sustained s2) (u32_wrapping_add (active s2) 1)
                      (penalty_deadline_ns s2)).

(** ** The table *)

Record ProtectionState : Type := mkState {
  config : ProtectionConfig;
  ip_table : gmap IpAddr nat;
  heap : gmap nat IpState;
  next_id : nat;
}.

Definition ProtectionState_new (c : ProtectionConfig) : ProtectionState :=
  mkState (precompute c) ∅ ∅ 0.

(** [config.store(..)] *)
Definition reconfigure (st : ProtectionState) (c : ProtectionConfig) : ProtectionState :=
  mkState c (ip_table st) (heap st) (next_id st).

Definition get_or_create_state (st : ProtectionState) (ip : IpAddr) (burst sburst now' : Z)
    : nat * ProtectionState :=
  match ip_table st !! ip with
  | Some id => (id, st)
  | None =>
      let id := next_id st in
      (id, mkState (config st) (<[ip := id]> (ip_table st))
             (<[id := IpState_new burst sburst now']> (heap st)) (S id))
  end.

(** The state behind an [Arc]; every identifier handed out is in the heap. *)
Definition deref (st : ProtectionState) (id : nat) : IpState :=
  default (IpState_new 0 0 0) (heap st !! id).

Definition store (st : ProtectionState) (id : nat) (s : IpState) : ProtectionState :=
  mkState (config st) (ip_table st) (<[id := s]> (heap st)) (next_id st).

(** The lookup and the entry's own checks in one step. The code keeps only the
    entry's [Arc] between them: [ProtectionRace] takes the two halves apart and
    says what an eviction in between does to the limit. *)
Definition check_at (st : ProtectionState) (peer_ip : IpAddr) (peek : PeekInfo) (now now' : Z)
    : Decision' nat * ProtectionState :=
  let ip := to_canonical peer_ip in
  let cfg := config st in
  match check_static cfg ip peek with
  | Some d => (d, st)
  | None =>
      let '(id, st1) := get_or_create_state st ip (burst_fp cfg) (sustained_burst_fp cfg) now' in
      let '(blocked, s) := check_state cfg (deref st1 id) now in
      (match blocked with Some r => Block r | None => Allow id end, store st1 id s)
  end.

(** Dropping an admitted connection's guard. *)
Definition release (st : ProtectionState) (id : nat) : ProtectionState :=
  store st id (IpState_release (deref st id)).

(** ** Eviction and reporting *)

(** The lazy projection of a bucket to [now]. *)
Definition projected (b : bucket) (now : Z) (rate : f64) (burst : Z) : Z :=
  refilled (tokens b) (refill_amount now (last_refill_ns b) rate) burst.

Definition keep (cfg : ProtectionConfig) (s : IpState) (now : Z) : bool :=
  if boxed cfg s now then true
  else if 0 <? active s then true
  else if rate_positive (tokens_per_ns cfg) &&
          (projected (second s) now (tokens_per_ns cfg) (burst_fp cfg) <? burst_fp cfg)
  then true
  else rate_positive (sustained_tokens_per_ns cfg) &&
       (projected (sustained s) now (sustained_tokens_per_ns cfg) (sustained_burst_fp cfg)
          <? sustained_burst_fp cfg).

Definition evict_at (st : ProtectionState) (now : Z) : ProtectionState :=
  mkState (config st)
    (filter (fun e => keep (config st) (deref st e.2) now = true) (ip_table st))
    (heap st) (next_id st).

Definition rate_limited_now (cfg : ProtectionConfig) (s : IpState) (now : Z) : bool :=
  (rate_positive (tokens_per_ns cfg) &&
   (projected (second s) now (tokens_per_ns cfg) (burst_fp cfg) <? 1000)) ||
  (rate_positive (sustained_tokens_per_ns cfg) &&
   (projected (sustained s) now (sustained_tokens_per_ns cfg) (sustained_burst_fp cfg) <? 1000)).

(** One entry of the table: which of the three lists it is put on. *)
Definition report_entry (cfg : ProtectionConfig) (now : Z)
    (acc : list IpAddr * list IpAddr * list IpAddr) (e : IpAddr * IpState)
    : list IpAddr * list IpAddr * list IpAddr :=
  let '(rate, conc, box) := acc in
  let '(ip, s) := e in
  if boxed cfg s now then (rate, conc, box ++ [ip])
  else
    (if rate_limited_now cfg s now then rate ++ [ip] else rate,
     if (0 <? max_concurrent_per_ip cfg) && (max_concurrent_per_ip cfg <=? active s)
     then conc ++ [ip] else conc,
     box).

Definition blocked_ips (st : ProtectionState) (now : Z) : list IpAddr * list IpAddr * list IpAddr :=
  foldl (report_entry (config st) now) ([], [], [])
    ((fun e => (e.1, deref st e.2)) <$> map_to_list (ip_table st)).
End Protection.

Arguments Allow {A} guard.
Arguments AllowBypassed {A}.
Arguments Block {A} r.

(** ** Lemmas: rates and buckets *)

Lemma burst_of_u32 b r : is_u32 (burst_of b r).
Proof. apply f64_as_u32_bounds. Qed.

Section ProtectionLemmas.
Context `{NetLib}.

(** The configuration's ceilings are u32 values; [precompute] makes them so. *)
Definition config_ok (c : ProtectionConfig) : Prop :=
  is_u32 (burst_fp c) /\ is_u32 (sustained_burst_fp c) /\
  0 <= penalty_box_duration_ms c /\ is_u32 (max_concurrent_per_ip c).

Lemma precompute_ok c :
  0 <= penalty_box_duration_ms c -> is_u32 (max_concurrent_per_ip c) -> config_ok (precompute c).
Proof. intros. unfold config_ok. simpl. auto using burst_of_u32. Qed.

(** A state's counts lie under the ceilings of [c]. *)
Definition state_ok (c : ProtectionConfig) (s : IpState) : Prop :=
  bucket_ok (burst_fp c) (second s) /\ bucket_ok (sustained_burst_fp c) (sustained s) /\
  0 <= active s /\ 0 <= penalty_deadline_ns s.

Lemma refill_projected b now rate burst :
  bucket_ok burst b -> tokens (refill b now rate burst) = projected b now rate burst.
Proof.
  intros [Hb Hu]. unfold refill, projected. case_match eqn:E; [|done]. bool_to_prop.
  rewrite E. unfold refilled. ulia.
Qed.

(** A limit lets a connection pass exactly when it is off or projects to a whole
    token. *)
Lemma within_rate_decides rate burst b now :
  bucket_ok burst b ->
  (within_rate rate burst b now).1 =
  negb (rate_positive rate && (projected b now rate burst <? 1000)).
Proof.
  intros Hb. unfold within_rate. destruct (rate_positive rate); [|done]. simpl.
  unfold refill_and_consume. rewrite refill_projected by done. unfold ONE_TOKEN.
  by destruct (_ <? 1000).
Qed.

Lemma within_rate_ok rate burst b now :
  bucket_ok burst b -> bucket_ok burst (within_rate rate burst b now).2.
Proof. intros. unfold within_rate. case_match; [by apply refill_and_consume_ok | done]. Qed.

Lemma penalty_until_nonneg ms now : 0 <= ms -> 0 <= now -> 0 <= penalty_until ms now.
Proof. unfold penalty_until. ulia. Qed.

(** *** What [check_state] does to a state *)

(** Whether the state blocks the next connection at [now]. *)
Definition state_blocks (cfg : ProtectionConfig) (s : IpState) (now : Z) : bool :=
  boxed cfg s now || rate_limited_now cfg s now ||
  ((0 <? max_concurrent_per_ip cfg) && (max_concurrent_per_ip cfg <=? active s)).

Lemma check_state_decides cfg s now :
  state_ok cfg s -> bool_decide (is_Some (check_state cfg s now).1) = state_blocks cfg s now.
Proof.
  intros (H1 & H2 & _). unfold check_state, state_blocks, rate_limited_now.
  pose proof (within_rate_decides (tokens_per_ns cfg) (burst_fp cfg) (second s) now H1) as E1.
  pose proof (within_rate_decides (sustained_tokens_per_ns cfg) (sustained_burst_fp cfg)
                (sustained s) now H2) as E2.
  destruct (within_rate (tokens_per_ns cfg) _ _ _) as [ok1 b1]. simpl.
  destruct (within_rate (sustained_tokens_per_ns cfg) _ _ _) as [ok2 b2]. simpl in *.
  destruct (boxed cfg s now); [done |]. subst ok1 ok2. rewrite !negb_involutive. cbn [orb].
  repeat case_goal; simpl in *; bool_to_prop; try done; try lia.
  all: rewrite ?Z.leb_antisym; by repeat case_match.
Qed.

Lemma check_state_ok cfg s now :
  config_ok cfg -> 0 <= now -> state_ok cfg s -> state_ok cfg (check_state cfg s now).2.
Proof.
  intros (_ & _ & Hms & _) Hnow (H1 & H2 & H3 & H4). unfold check_state.
  pose proof (within_rate_ok (tokens_per_ns cfg) (burst_fp cfg) (second s) now H1) as E1.
  pose proof (within_rate_ok (sustained_tokens_per_ns cfg) (sustained_burst_fp cfg)
                (sustained s) now H2) as E2.
  pose proof (penalty_until_nonneg (penalty_box_duration_ms cfg) now Hms Hnow).
  destruct (within_rate (tokens_per_ns cfg) _ _ _) as [ok1 b1]. simpl in *.
  destruct (within_rate (sustained_tokens_per_ns cfg) _ _ _) as [ok2 b2]. simpl in *.
  unfold u32_wrapping_add. pose proof (Z.mod_pos_bound (active s + 1) (u32_max + 1) ltac:(done)).
  repeat case_goal; simpl in *; unfold extend_penalty, state_ok; simpl; split_and!; try done; lia.
Qed.

Lemma check_state_active cfg s now :
  match (check_state cfg s now).1 with
  | None => (max_concurrent_per_ip cfg <= 0 \/ active s < max_concurrent_per_ip cfg) /\
            (0 <= active s < u32_max -> active (check_state cfg s now).2 = active s + 1)
  | Some r => active (check_state cfg s now).2 = active s /\
      (r = TooManyConnections -> 0 < max_concurrent_per_ip cfg <= active s)
  end.
Proof.
  unfold check_state.
  destruct (within_rate (tokens_per_ns cfg) _ _ _) as [ok1 b1]. simpl.
  destruct (within_rate (sustained_tokens_per_ns cfg) _ _ _) as [ok2 b2]. simpl.
  assert (0 <= active s < u32_max -> u32_wrapping_add (active s) 1 = active s + 1) as Hw.
  { intros. unfold u32_wrapping_add. apply Z.mod_small. lia. }
  repeat case_goal; simpl in *; simplify_eq; bool_to_prop;
    (split; [first [done | lia] | intros; first [done | lia | auto]]).
Qed.

Lemma check_state_deadline cfg s now :
  penalty_deadline_ns s <= penalty_deadline_ns (check_state cfg s now).2 /\
  ((check_state cfg s now).1 = Some RateLimited -> 0 < penalty_box_duration_ms cfg ->
   penalty_until (penalty_box_duration_ms cfg) now <= penalty_deadline_ns (check_state cfg s now).2).
Proof.
  unfold check_state.
  destruct (within_rate (tokens_per_ns cfg) _ _ _) as [ok1 b1]. simpl.
  destruct (within_rate (sustained_tokens_per_ns cfg) _ _ _) as [ok2 b2]. simpl.
  repeat case_goal; simpl; bool_to_prop; (split; [lia | intros; try done; try lia]).
Qed.

Lemma check_static_not_allow {A} cfg ip peek (g : A) : check_static cfg ip peek <> Some (Allow g).
Proof. unfold check_static. repeat case_match; done. Qed.

(** ** Histories

    Any sequence of checks, connection closes, evictions and reconfigurations.
    The admitted connections hold the identifier they were given. *)

Inductive op : Type :=
  | OpCheck (ip : IpAddr) (peek : PeekInfo) (now now' : Z)
  | OpClose (i : nat)
  | OpEvict (now : Z)
  | OpReconfigure (c : ProtectionConfig).

Record system : Type := mkSys { sys_state : ProtectionState; held : list (IpAddr * nat) }.

Definition run_op (y : system) (o : op) : system :=
  match o with
  | OpCheck ip peek now now' =>
      let '(d, st) := check_at (sys_state y) ip peek now now' in
      mkSys st (match d with Allow id => held y ++ [(to_canonical ip, id)] | _ => held y end)
  | OpClose i =>
      match held y !! i with
      | Some (_, id) => mkSys (release (sys_state y) id) (delete i (held y))
      | None => y
      end
  | OpEvict now => mkSys (evict_at (sys_state y) now) (held y)
  | OpReconfigure c => mkSys (reconfigure (sys_state y) c) (held y)
  end.

Definition run_ops (y : system) (ops : list op) : system := foldl run_op y ops.

(** How many open connections hold a state, and how many come from an address. *)
Definition held_on (id : nat) (l : list (IpAddr * nat)) : nat := length (filter (fun h => h.2 = id) l).
Definition held_from (ip : IpAddr) (l : list (IpAddr * nat)) : nat := length (filter (fun h => h.1 = ip) l).

Record sys_ok (y : system) : Prop := {
  ok_next : forall id, is_Some (heap (sys_state y) !! id) -> (id < next_id (sys_state y))%nat;
  ok_heap : forall ip id, ip_table (sys_state y) !! ip = Some id -> is_Some (heap (sys_state y) !! id);
  ok_inj : forall ip ip' id, ip_table (sys_state y) !! ip = Some id ->
    ip_table (sys_state y) !! ip' = Some id -> ip = ip';
  ok_held : forall h, h ∈ held y -> ip_table (sys_state y) !! h.1 = Some h.2;
  ok_count : forall id s, heap (sys_state y) !! id = Some s ->
    active s = Z.of_nat (held_on id (held y));
}.

Lemma held_on_app id l l' : held_on id (l ++ l') = (held_on id l + held_on id l')%nat.
Proof. unfold held_on. by rewrite list.filter_app, length_app. Qed.

Lemma held_on_cons id h l :
  held_on id (h :: l) = ((if decide (h.2 = id) then 1 else 0) + held_on id l)%nat.
Proof. unfold held_on. rewrite filter_cons. by case_decide. Qed.

Lemma held_on_delete id l i h :
  l !! i = Some h ->
  held_on id l = (held_on id (delete i l) + if decide (h.2 = id) then 1 else 0)%nat.
Proof.
  intros Hi. rewrite <- (take_drop_middle l i h Hi) at 1. rewrite delete_take_drop.
  rewrite !held_on_app, held_on_cons. lia.
Qed.

Lemma held_on_pos id l h : h ∈ l -> h.2 = id -> (0 < held_on id l)%nat.
Proof.
  intros Hin Hid. unfold held_on.
  assert (h ∈ filter (fun h => h.2 = id) l) as Hf by by apply list_elem_of_filter.
  destruct (filter _ l); [by apply elem_of_nil in Hf | simpl; lia].
Qed.

Lemma held_on_le id l : (held_on id l <= length l)%nat.
Proof. apply length_filter. Qed.

(** In a well-formed system the connections of an address all hold the state the
    table has for it. *)
Lemma held_from_on y ip id :
  sys_ok y -> ip_table (sys_state y) !! ip = Some id -> held_from ip (held y) = held_on id (held y).
Proof.
  intros Hy Hip. unfold held_from, held_on. f_equal. pose proof (ok_held y Hy) as Hheld.
  induction (held y) as [|h l IH]; [done |]. rewrite !filter_cons.
  assert (ip_table (sys_state y) !! h.1 = Some h.2) as Hh by (apply Hheld; constructor).
  specialize (IH ltac:(intros; apply Hheld; by constructor)).
  destruct (decide (h.1 = ip)) as [He|Hn], (decide (h.2 = id)) as [Hs|Hs];
    [by rewrite IH | congruence | | done].
  destruct Hn. apply (ok_inj y Hy _ _ id); congruence.
Qed.

Lemma held_from_absent y ip :
  sys_ok y -> ip_table (sys_state y) !! ip = None -> held_from ip (held y) = 0%nat.
Proof.
  intros Hy Hip. unfold held_from.
  destruct (filter (fun h => h.1 = ip) (held y)) as [|h l] eqn:E; [done |].
  assert (h ∈ filter (fun h => h.1 = ip) (held y)) as Hf by (rewrite E; constructor).
  apply list_elem_of_filter in Hf as [<- Hh]. apply (ok_held y Hy) in Hh. congruence.
Qed.

(** *** Every operation keeps a system well formed *)

Lemma get_or_create_ok y ip b sb now' id st :
  sys_ok y -> get_or_create_state (sys_state y) ip b sb now' = (id, st) ->
  sys_ok (mkSys st (held y)) /\ ip_table st !! ip = Some id /\ config st = config (sys_state y).
Proof.
  intros Hy. unfold get_or_create_state.
  destruct (ip_table (sys_state y) !! ip) as [id'|] eqn:Hip; intros [= <- <-];
    [by destruct y |].
  assert (forall h, h ∈ held y -> h.2 <> next_id (sys_state y)) as Hfresh.
  { intros h Hh Heq. apply (ok_held y Hy), (ok_heap y Hy), (ok_next y Hy) in Hh. lia. }
  split; [|split; [apply lookup_insert_eq | done]].
  split; simpl.
  - intros id. destruct (decide (id = next_id (sys_state y))) as [->|]; [lia |].
    rewrite lookup_insert_ne by done. intros Hs%(ok_next y Hy). lia.
  - intros ip' id. destruct (decide (ip = ip')) as [->|].
    + rewrite lookup_insert_eq. intros [= <-]. by rewrite lookup_insert_eq.
    + rewrite lookup_insert_ne by done. intros Hs%(ok_heap y Hy).
      pose proof (ok_next y Hy id Hs). rewrite lookup_insert_ne by lia. done.
  - intros ip1 ip2 id. rewrite !lookup_insert_Some.
    intros [[<- <-]|[Hne H1]] [[<- Heq]|[Hne2 H2]]; try done.
    + apply (ok_heap y Hy), (ok_next y Hy) in H2. lia.
    + subst. apply (ok_heap y Hy), (ok_next y Hy) in H1. lia.
    + by apply (ok_inj y Hy _ _ id).
  - intros h Hh. rewrite lookup_insert_ne; [by apply (ok_held y Hy) |].
    intros Heq. apply (ok_held y Hy) in Hh. congruence.
  - intros id s. rewrite lookup_insert_Some. intros [[<- <-]|[Hne Hs]]; [| by apply (ok_count y Hy)].
    simpl. symmetry. apply (f_equal Z.of_nat (y := 0%nat)).
    destruct (held_on (next_id (sys_state y)) (held y)) eqn:E; [done |].
    unfold held_on in E. destruct (filter _ _) as [|h l] eqn:F; [done |].
    assert (h ∈ filter (fun h => h.2 = next_id (sys_state y)) (held y)) as Hf
      by (rewrite F; constructor).
    apply list_elem_of_filter in Hf as [Hid Hin]. by destruct (Hfresh h Hin).
Qed.

(** Replacing a state whose count moves with the connections holding it. *)
Lemma store_ok y id s l :
  sys_ok y -> is_Some (heap (sys_state y) !! id) ->
  (forall h, h ∈ l -> ip_table (sys_state y) !! h.1 = Some h.2) ->
  active s = Z.of_nat (held_on id l) ->
  (forall id', id' <> id -> held_on id' l = held_on id' (held y)) ->
  sys_ok (mkSys (store (sys_state y) id s) l).
Proof.
  intros Hy Hid Hl Hs Hothers. split; simpl.
  - intros id'. destruct (decide (id = id')) as [->|];
      [intros _; by apply (ok_next y Hy) | rewrite lookup_insert_ne by done; apply (ok_next y Hy)].
  - intros ip id' Hip%(ok_heap y Hy). destruct (decide (id = id')) as [->|];
      [by rewrite lookup_insert_eq | by rewrite lookup_insert_ne by done].
  - apply (ok_inj y Hy).
  - done.
  - intros id' s'. rewrite lookup_insert_Some. intros [[<- <-]|[Hne Hs']]; [done |].
    rewrite Hothers by done. by apply (ok_count y Hy).
Qed.

Lemma deref_count y id : sys_ok y -> is_Some (heap (sys_state y) !! id) ->
  active (deref (sys_state y) id) = Z.of_nat (held_on id (held y)).
Proof. intros Hy [s Hs]. unfold deref. rewrite Hs. simpl. by apply (ok_count y Hy). Qed.

Lemma run_check_ok y ip peek now now' :
  sys_ok y -> Z.of_nat (length (held y)) < u32_max -> sys_ok (run_op y (OpCheck ip peek now now')).
Proof.
  intros Hy Hlen. cbn [run_op]. unfold check_at. cbv zeta.
  destruct (check_static _ _ _) as [d|] eqn:Hst.
  { destruct d; [by apply check_static_not_allow in Hst | by destruct y | by destruct y]. }
  destruct (get_or_create_state _ _ _ _ _) as [id st1] eqn:Hget.
  destruct (get_or_create_ok _ _ _ _ _ _ _ Hy Hget) as (Hy1 & Hip & _).
  pose proof (ok_heap _ Hy1 _ _ Hip) as Hid. simpl in Hid.
  pose proof (deref_count _ id Hy1 Hid) as Hcount. simpl in Hcount.
  pose proof (check_state_active (config (sys_state y)) (deref st1 id) now) as Hact.
  pose proof (held_on_le id (held y)) as Hle.
  destruct (check_state _ (deref st1 id) now) as [[r|] s]; simpl in Hact;
    apply (store_ok (mkSys st1 (held y))); simpl; try done.
  - apply (ok_held _ Hy1).
  - destruct Hact. congruence.
  - intros h [Hh | ->%list_elem_of_singleton]%elem_of_app; [by apply (ok_held _ Hy1) | done].
  - rewrite held_on_app, held_on_cons. simpl. rewrite decide_True by done.
    change (held_on id []) with 0%nat. destruct Hact as [_ ->]; lia.
  - intros id' Hne. rewrite held_on_app, held_on_cons. simpl. rewrite decide_False by done.
    change (held_on id' []) with 0%nat. lia.
Qed.

Lemma run_close_ok y i : sys_ok y -> sys_ok (run_op y (OpClose i)).
Proof.
  intros Hy. cbn [run_op]. destruct (held y !! i) as [[ip id]|] eqn:Hi; [|done].
  pose proof (ok_held y Hy _ (list_elem_of_lookup_2 _ _ _ Hi)) as Hip. simpl in Hip.
  pose proof (ok_heap y Hy _ _ Hip) as Hid.
  unfold release. apply store_ok; [done | done | | |].
  - intros h Hh. apply (ok_held y Hy). by eapply list_elem_of_delete_inv.
  - cbn [IpState_release active]. rewrite deref_count by done.
    rewrite (held_on_delete id _ _ _ Hi). simpl. rewrite decide_True by done. ulia.
  - intros id' Hne. rewrite (held_on_delete id' _ _ _ Hi). simpl.
    rewrite decide_False by congruence. lia.
Qed.

Lemma keep_active cfg s now : 0 < active s -> keep cfg s now = true.
Proof. intros. unfold keep. rewrite (proj2 (Z.ltb_lt 0 (active s))) by done. by case_match. Qed.

Lemma run_evict_ok y now : sys_ok y -> sys_ok (run_op y (OpEvict now)).
Proof.
  intros Hy. cbn [run_op]. split; simpl.
  - apply (ok_next y Hy).
  - intros ip id [Hip _]%map_lookup_filter_Some. by apply (ok_heap y Hy ip).
  - intros ip ip' id [H1 _]%map_lookup_filter_Some [H2 _]%map_lookup_filter_Some.
    by apply (ok_inj y Hy _ _ id).
  - intros h Hh. pose proof (ok_held y Hy h Hh) as Hip.
    apply map_lookup_filter_Some. split; [done |]. apply keep_active. cbn [snd].
    rewrite deref_count by (auto; by apply (ok_heap y Hy h.1)).
    pose proof (held_on_pos h.2 (held y) h Hh eq_refl). lia.
  - apply (ok_count y Hy).
Qed.

Lemma length_held_op y o : (length (held (run_op y o)) <= S (length (held y)))%nat.
Proof.
  destruct o; simpl; try lia.
  - destruct (check_at _ _ _ _ _) as [d st]. destruct d; simpl; rewrite ?length_app; simpl; lia.
  - destruct (held y !! i) as [[ip id]|] eqn:E; [|lia]. simpl.
    rewrite length_delete by (by eexists). simpl. lia.
Qed.

Lemma run_reconfigure_ok y c : sys_ok y -> sys_ok (run_op y (OpReconfigure c)).
Proof. intros Hy. destruct Hy. by split. Qed.

Lemma run_op_ok y o : sys_ok y -> Z.of_nat (length (held y)) < u32_max -> sys_ok (run_op y o).
Proof.
  intros Hy Hlen. destruct o;
    [by apply run_check_ok | by apply run_close_ok | by apply run_evict_ok | by apply run_reconfigure_ok].
Qed.

Lemma run_ops_ok y ops :
  sys_ok y -> Z.of_nat (length (held y) + length ops) <= u32_max -> sys_ok (run_ops y ops).
Proof.
  revert y; induction ops as [|o ops IH]; intros y Hy Hlen; [done |]. simpl in Hlen |- *.
  pose proof (length_held_op y o). apply IH; [apply run_op_ok; [done | lia] | lia].
Qed.

Definition boot (c : ProtectionConfig) : system := mkSys (ProtectionState_new c) [].

Lemma boot_ok c : sys_ok (boot c).
Proof.
  split; simpl; try by intros ? ?.
  - intros id [? Hid]. by rewrite lookup_empty in Hid.
  - intros h Hh. by apply elem_of_nil in Hh.
Qed.

(** *** The penalty box over a history *)

(** The address's state carries a deadline of at least [d]. *)
Definition boxed_until (st : ProtectionState) (ip : IpAddr) (d : Z) : Prop :=
  exists id s, ip_table st !! ip = Some id /\ heap st !! id = Some s /\
    (id < next_id st)%nat /\ d <= penalty_deadline_ns s.

Lemma boxed_until_store st ip d id s :
  boxed_until st ip d ->
  (forall s0, heap st !! id = Some s0 -> penalty_deadline_ns s0 <= penalty_deadline_ns s) ->
  boxed_until (store st id s) ip d.
Proof.
  intros (id' & s' & Hip & Hs' & Hlt & Hd) Hmono. unfold boxed_until, store. simpl.
  destruct (decide (id = id')) as [->|].
  - exists id', s. rewrite lookup_insert_eq. specialize (Hmono _ Hs'). split_and!; try done. lia.
  - exists id', s'. rewrite lookup_insert_ne by done. done.
Qed.

Lemma boxed_until_create st ip d ip' b sb now' :
  boxed_until st ip d -> boxed_until (get_or_create_state st ip' b sb now').2 ip d.
Proof.
  intros Hb. unfold get_or_create_state. destruct (ip_table st !! ip') eqn:Hip'; [done |].
  destruct Hb as (id & s & Hip & Hs & Hlt & Hd). exists id, s. simpl.
  rewrite !lookup_insert_ne by (lia || congruence). auto with lia.
Qed.

Lemma check_at_config st ip peek now now' :
  config (check_at st ip peek now now').2 = config st.
Proof.
  unfold check_at. cbv zeta. destruct (check_static _ _ _); [done |].
  unfold get_or_create_state. destruct (ip_table st !! _); by destruct (check_state _ _ _).
Qed.

Lemma boxed_until_check st ip d ip' peek now now' :
  boxed_until st ip d -> boxed_until (check_at st ip' peek now now').2 ip d.
Proof.
  intros Hb. unfold check_at. cbv zeta. destruct (check_static _ _ _); [done |].
  pose proof (boxed_until_create st ip d (to_canonical ip') (burst_fp (config st))
    (sustained_burst_fp (config st)) now' Hb) as Hb1.
  destruct (get_or_create_state _ _ _ _ _) as [id st1]. simpl in Hb1.
  pose proof (check_state_deadline (config st) (deref st1 id) now) as [Hmono _].
  destruct (check_state _ _ _) as [blocked s]. simpl in *.
  apply boxed_until_store; [done |]. intros s0 Hs0. unfold deref in Hmono. by rewrite Hs0 in Hmono.
Qed.

(** An operation that leaves the configuration alone and, if it is an eviction,
    runs before [d]. *)
Definition before (d : Z) (o : op) : Prop :=
  match o with OpEvict now => now < d | OpReconfigure _ => False | _ => True end.

Lemma boxed_until_op y o ip d :
  0 < penalty_box_duration_ms (config (sys_state y)) -> 0 < d -> before d o ->
  boxed_until (sys_state y) ip d ->
  boxed_until (sys_state (run_op y o)) ip d /\
  config (sys_state (run_op y o)) = config (sys_state y).
Proof.
  intros Hms Hd Ho Hb. destruct o as [ip' peek now now'|i|now|c]; cbn [run_op].
  - pose proof (boxed_until_check (sys_state y) ip d ip' peek now now' Hb) as Hc.
    pose proof (check_at_config (sys_state y) ip' peek now now').
    by destruct (check_at _ _ _ _ _).
  - destruct (held y !! i) as [[? id]|]; [|done]. split; [|done].
    apply boxed_until_store; [done |]. intros s0 Hs0. unfold deref. rewrite Hs0. simpl. lia.
  - split; [|done]. destruct Hb as (id & s & Hip & Hs & Hlt & Hdl). exists id, s.
    split_and!; [|done..]. apply map_lookup_filter_Some. split; [done |].
    simpl in Ho |- *. unfold keep, boxed, deref. rewrite Hs. simpl.
    by rewrite !(proj2 (Z.ltb_lt _ _)) by lia.
  - done.
Qed.

Lemma boxed_until_ops y ops ip d :
  0 < penalty_box_duration_ms (config (sys_state y)) -> 0 < d -> Forall (before d) ops ->
  boxed_until (sys_state y) ip d ->
  boxed_until (sys_state (run_ops y ops)) ip d /\
  config (sys_state (run_ops y ops)) = config (sys_state y).
Proof.
  intros Hms Hd Hops. revert y Hms; induction Hops as [|o ops Ho _ IH]; intros y Hms Hb; [done |].
  destruct (boxed_until_op y o ip d Hms Hd Ho Hb) as [Hb' Hcfg].
  cbn [run_ops foldl]. rewrite <- Hcfg. apply IH; [by rewrite Hcfg | done].
Qed.

Lemma check_at_rate_limited y ip peek now now' st :
  sys_ok y -> 0 < penalty_box_duration_ms (config (sys_state y)) ->
  check_at (sys_state y) ip peek now now' = (Block RateLimited, st) ->
  boxed_until st (to_canonical ip) (penalty_until (penalty_box_duration_ms (config (sys_state y))) now).
Proof.
  intros Hy Hms. unfold check_at. cbv zeta.
  destruct (check_static _ _ _) as [d|] eqn:Hst.
  { intros [= -> _]. unfold check_static in Hst. repeat case_match; simplify_eq. }
  destruct (get_or_create_state _ _ _ _ _) as [id st1] eqn:Hget.
  destruct (get_or_create_ok _ _ _ _ _ _ _ Hy Hget) as (Hy1 & Hip & _).
  pose proof (ok_heap _ Hy1 _ _ Hip) as Hid. simpl in Hid.
  pose proof (check_state_deadline (config (sys_state y)) (deref st1 id) now) as [_ Hdl].
  destruct (check_state _ _ _) as [[r|] s]; intros [= -> <-].
  exists id, s. unfold store. simpl. rewrite lookup_insert_eq. split_and!; try done.
  - by apply (ok_next _ Hy1).
  - by apply Hdl.
Qed.

Lemma check_at_boxed st ip peek now now' d :
  boxed_until st (to_canonical ip) d -> now < d -> 0 < d ->
  0 < penalty_box_duration_ms (config st) ->
  check_static (A := nat) (config st) (to_canonical ip) peek = None ->
  (check_at st ip peek now now').1 = Block PenaltyBoxed.
Proof.
  intros (id & s & Hip & Hs & _ & Hd) Hnow Hpos Hms Hst. unfold check_at. cbv zeta. rewrite Hst.
  unfold get_or_create_state. rewrite Hip. unfold deref. rewrite Hs. simpl.
  unfold check_state. cbv zeta. unfold boxed. rewrite !(proj2 (Z.ltb_lt _ _)) by lia. simpl.
  by destruct (within_rate (tokens_per_ns _) _ _ _), (within_rate (sustained_tokens_per_ns _) _ _ _).
Qed.

(** *** Eviction *)

(** An entry the eviction drops blocks nobody it would not block as new. *)
Lemma evicted_like_new cfg s now now' :
  state_ok cfg s -> keep cfg s now = false ->
  state_blocks cfg s now =
  state_blocks cfg (IpState_new (burst_fp cfg) (sustained_burst_fp cfg) now') now.
Proof.
  intros (H1 & H2 & H3 & H4) Hkeep. unfold keep in Hkeep.
  destruct (boxed cfg s now) eqn:Hbox; [done |].
  destruct (Z.ltb_spec 0 (active s)); [done |]. assert (active s = 0) as Hact by lia.
  assert (forall b rate burst, bucket_ok burst b ->
    (rate_positive rate && (projected b now rate burst <? burst)) = false ->
    rate_positive rate = true ->
    projected b now rate burst = projected (mkBucket burst now') now rate burst) as Hproj.
  { intros b rate burst [Hb Hu] Hk Hr. rewrite Hr in Hk. simpl in Hk. bool_to_prop.
    unfold projected, refilled in *. simpl.
    pose proof (refill_amount_bounds now now' rate). ulia. }
  destruct (rate_positive (tokens_per_ns cfg) && _) eqn:Hk1; [done |].
  unfold state_blocks, rate_limited_now. rewrite Hbox, Hact. cbn [IpState_new second sustained active].
  replace (boxed cfg (IpState_new _ _ _) now) with false by (unfold boxed; simpl; by rewrite andb_false_r).
  f_equal. f_equal. f_equal.
  - destruct (rate_positive (tokens_per_ns cfg)) eqn:Hr; [|done]. f_equal. f_equal.
    apply Hproj; [done | by rewrite Hr | done].
  - destruct (rate_positive (sustained_tokens_per_ns cfg)) eqn:Hr; [|done]. f_equal. f_equal.
    apply Hproj; [done | by rewrite Hr | done].
Qed.

Definition allowed {A} (d : Decision' A) : bool := match d with Block _ => false | _ => true end.

(** The whole check in terms of [state_blocks]. *)
Lemma check_at_allowed st ip peek now now' :
  check_static (A := nat) (config st) (to_canonical ip) peek = None ->
  (forall id, ip_table st !! to_canonical ip = Some id -> state_ok (config st) (deref st id)) ->
  config_ok (config st) ->
  allowed (check_at st ip peek now now').1 =
  negb (state_blocks (config st)
    match ip_table st !! to_canonical ip with
    | Some id => deref st id
    | None => IpState_new (burst_fp (config st)) (sustained_burst_fp (config st)) now'
    end now).
Proof.
  intros Hst Hok (Hb & Hsb & _). unfold check_at. cbv zeta. rewrite Hst.
  unfold get_or_create_state. destruct (ip_table st !! to_canonical ip) as [id|] eqn:Hip.
  - specialize (Hok id eq_refl). rewrite <- check_state_decides by done.
    by destruct (check_state _ _ _) as [[r|] s].
  - rewrite <- check_state_decides.
    + unfold deref. simpl. rewrite lookup_insert_eq. simpl.
      by destruct (check_state _ _ _) as [[r|] s].
    + unfold state_ok, bucket_ok. simpl. ulia.
Qed.

(** *** Reporting *)

Definition reported (r : list IpAddr * list IpAddr * list IpAddr) (ip : IpAddr) : Prop :=
  ip ∈ r.1.1 \/ ip ∈ r.1.2 \/ ip ∈ r.2.

Lemma reported_entry cfg now acc e ip :
  reported (report_entry cfg now acc e) ip <->
  reported acc ip \/ (ip = e.1 /\ state_blocks cfg e.2 now = true).
Proof.
  destruct acc as [[rate conc] box], e as [ip' s]. unfold reported, report_entry, state_blocks.
  cbn [fst snd]. destruct (boxed cfg s now); cbn [fst snd orb].
  { rewrite elem_of_app, list_elem_of_singleton. tauto. }
  destruct (rate_limited_now cfg s now), ((0 <? _) && _); cbn [fst snd orb];
    rewrite ?elem_of_app, ?list_elem_of_singleton; intuition congruence.
Qed.

Lemma reported_fold cfg now es acc ip :
  reported (foldl (report_entry cfg now) acc es) ip <->
  reported acc ip \/ exists s, (ip, s) ∈ es /\ state_blocks cfg s now = true.
Proof.
  revert acc; induction es as [|[ip' s'] es IH]; intros acc; cbn [foldl].
  { split; [by left | intros [?|(s & Hs & _)]; [done | by apply elem_of_nil in Hs]]. }
  rewrite IH, reported_entry. cbn [fst snd]. setoid_rewrite elem_of_cons. split.
  - intros [[?|[-> ?]]|(s & ? & ?)]; [by left | right; exists s'; auto | right; exists s; auto].
  - intros [?|(s & [[= -> ->]|?] & ?)]; [by left; left | left; right; done | right; eauto].
Qed.

Lemma reported_blocked st now ip :
  reported (blocked_ips st now) ip <->
  exists id, ip_table st !! ip = Some id /\ state_blocks (config st) (deref st id) now = true.
Proof.
  unfold blocked_ips. rewrite reported_fold. setoid_rewrite list_elem_of_fmap. split.
  - intros [[H1|[H1|H1]]|(s & ([ip' id] & [= -> ->] & Hin) & Hs)]; try by apply elem_of_nil in H1.
    apply elem_of_map_to_list in Hin. eauto.
  - intros (id & Hip & Hs). right. exists (deref st id). split; [|done].
    exists (ip, id). split; [done | by apply elem_of_map_to_list].
Qed.

(** *** Fingerprint entries *)

Lemma from_hex_digit_lower d : 0 <= d < 16 -> from_hex_digit (hex_digit d) = Some d.
Proof.
  intros Hd. unfold hex_digit, from_hex_digit. destruct (Z.ltb_spec d 10).
  - rewrite !(proj2 (Z.leb_le _ _)) by lia. simpl. f_equal. lia.
  - rewrite (proj2 (Z.leb_le 48 _)), (proj2 (Z.leb_gt _ 57)), !(proj2 (Z.leb_le _ _)) by lia.
    simpl. f_equal. lia.
Qed.

Lemma hex_pairs_roundtrip s : bytes_ok s -> hex_pairs (bytes_to_hex s) = Some s.
Proof.
  induction 1 as [|b s Hb _ IH]; [done |]. cbn [bytes_to_hex hex_pairs].
  destruct (nibbles b Hb) as [Hhi Hlo].
  rewrite !from_hex_digit_lower by done. cbn [mbind option_bind]. rewrite IH. cbn [mbind option_bind].
  do 2 f_equal. rewrite lor_shiftl_add by (change (2 ^ 4) with 16; lia).
  rewrite Z.shiftr_div_pow2 by lia. change 15 with (2 ^ 4 - 1). rewrite land_mask by lia.
  pose proof (Z.div_mod b (2 ^ 4) ltac:(done)). lia.
Qed.

Lemma hex_to_bytes16_roundtrip s :
  bytes_ok s -> length s = 16%nat -> hex_to_bytes16 (bytes_to_hex s) = Some s.
Proof.
  intros Hs Hl. unfold hex_to_bytes16. rewrite length_bytes_to_hex, Hl. simpl.
  by apply hex_pairs_roundtrip.
Qed.

Lemma lower_hex_digits l :
  Forall (fun b => is_lower_hex b = true) l -> forallb is_hexdigit l = true.
Proof.
  intros Hl. apply forallb_forall. intros x Hx. rewrite Forall_forall in Hl.
  apply Hl in Hx. unfold is_lower_hex, is_hexdigit in *.
  destruct (is_digit x); [done |]. simpl in *. by rewrite Hx, orb_true_r.
Qed.

(** Three parts of the right shape make a valid JA4. *)
Lemma is_valid_ja4_parts a pb pc :
  length a = 10%nat -> length pb = 12%nat -> length pc = 12%nat ->
  forallb is_hexdigit pb = true -> forallb is_hexdigit pc = true ->
  is_valid_ja4 (a ++ bs "_" ++ pb ++ bs "_" ++ pc) =
  (byte_at a 0 =? 116) &&
  one_of (byte_at a 1) (byte_at a 2) [(48, 48); (49, 48); (49, 49); (49, 50); (49, 51)] &&
  ((byte_at a 3 =? 100) || (byte_at a 3 =? 105)) &&
  is_digit (byte_at a 4) && is_digit (byte_at a 5) &&
  is_digit (byte_at a 6) && is_digit (byte_at a 7) &&
  is_alphanumeric (byte_at a 8) && is_alphanumeric (byte_at a 9).
Proof.
  intros Ha Hb Hc Hhb Hhc. unfold is_valid_ja4.
  set (w := a ++ bs "_" ++ pb ++ bs "_" ++ pc).
  assert (length w = 36%nat) as Hw by (unfold w; rewrite !length_app, Ha, Hb, Hc; done).
  assert (byte_at w 10 = 95) as H10
    by (unfold w; rewrite <- Ha, <- (Nat.add_0_r (length a)); by rewrite byte_at_app_r).
  assert (byte_at w 23 = 95) as H23.
  { unfold w. rewrite (app_assoc a), (app_assoc (a ++ _)).
    replace 23%nat with (length ((a ++ bs "_") ++ pb) + 0)%nat
      by (rewrite !length_app, Ha, Hb; done). by rewrite byte_at_app_r. }
  assert (take 10 w = a) as Ht by (unfold w; by rewrite <- Ha, take_app_length).
  assert (take 12 (drop 11 w) = pb) as Htb.
  { unfold w. rewrite (app_assoc a). rewrite drop_app_length' by (rewrite length_app, Ha; done).
    by rewrite take_app_length' by done. }
  assert (take 12 (drop 24 w) = pc) as Htc.
  { unfold w. rewrite (app_assoc a), (app_assoc (a ++ _)), (app_assoc ((a ++ _) ++ _)).
    rewrite drop_app_length' by (rewrite !length_app, Ha, Hb; done). by rewrite take_ge by lia. }
  rewrite Hw, H10, H23, Ht, Htb, Htc, Hhb, Hhc. cbv zeta. simpl (negb _). cbn [orb].
  by rewrite !andb_true_r.
Qed.
End ProtectionLemmas.

Section FingerprintEntries.
Context `{DigestsOk} `{LowercaseOk}.

Lemma compute_ja4_chars v suites exts :
  bytes_ok exts -> Forall (fun b => fp_char b = true \/ b = 95) (compute_ja4 v suites exts).
Proof.
  intros He. unfold compute_ja4. cbv zeta.
  destruct (ja4_part_a_shape v (not_grease (u16_chunks suites)) exts He)
    as (v1 & v2 & s & c1 & c2 & e1 & e2 & a1 & a2 & -> & Hv & Hs & Hd & Ha).
  destruct (ja4_part_b_shape (not_grease (u16_chunks suites))) as [_ Hb].
  destruct (ja4_part_c_shape (ja4_scan exts)) as [_ Hc].
  assert (forall l, Forall (fun b => is_lower_hex b = true) l ->
    Forall (fun b => fp_char b = true \/ b = 95) l) as Hhex.
  { intros l Hl. eapply Forall_impl; [|exact Hl]. intros b Hb'. left. by apply lower_hex_fp. }
  assert (fp_char v1 = true /\ fp_char v2 = true) as [? ?].
  { repeat (apply elem_of_cons in Hv as [[= -> ->]|Hv]; [done |]). by apply elem_of_nil in Hv. }
  assert (fp_char s = true).
  { repeat (apply elem_of_cons in Hs as [->|Hs]; [done |]). by apply elem_of_nil in Hs. }
  repeat (apply Forall_cons_iff in Hd as [? Hd]). repeat (apply Forall_cons_iff in Ha as [? Ha]).
  assert (forall b, is_digit b = true -> fp_char b = true) by (unfold fp_char; intros ? ->; done).
  repeat (apply Forall_app; split); auto; repeat (constructor; [auto |]); constructor.
Qed.

Lemma compute_ja4_valid v suites exts :
  bytes_ok exts -> is_valid_ja4 (compute_ja4 v suites exts) = true.
Proof.
  intros He. unfold compute_ja4. cbv zeta.
  destruct (ja4_part_b_shape (not_grease (u16_chunks suites))) as [Hlb Hb].
  destruct (ja4_part_c_shape (ja4_scan exts)) as [Hlc Hc].
  destruct (ja4_part_a_shape v (not_grease (u16_chunks suites)) exts He)
    as (v1 & v2 & s & c1 & c2 & e1 & e2 & a1 & a2 & -> & Hv & Hs & Hd & Ha).
  rewrite is_valid_ja4_parts by auto using lower_hex_digits.
  unfold byte_at. simpl.
  repeat (apply Forall_cons_iff in Hd as [-> Hd]). repeat (apply Forall_cons_iff in Ha as [? Ha]).
  destruct (fp_char_alphanumeric a1) as [-> _]; [done |].
  destruct (fp_char_alphanumeric a2) as [-> _]; [done |].
  rewrite !andb_true_r. apply andb_true_intro. split.
  - repeat (apply elem_of_cons in Hv as [[= -> ->]|Hv]; [done |]). by apply elem_of_nil in Hv.
  - repeat (apply elem_of_cons in Hs as [->|Hs]; [done |]). by apply elem_of_nil in Hs.
Qed.

Lemma compute_ja4_lowercase v suites exts :
  bytes_ok exts -> to_lowercase (compute_ja4 v suites exts) = compute_ja4 v suites exts.
Proof.
  intros He. pose proof (compute_ja4_chars v suites exts He) as Hch.
  assert (Forall (fun b => 0 <= b < 128) (compute_ja4 v suites exts)) as Hascii.
  { eapply Forall_impl; [|exact Hch]. simpl. intros b [Hb| ->]; [|lia].
    unfold fp_char, is_digit, is_lower in Hb.
    apply orb_true_iff in Hb as [Hb|Hb]; bool_to_prop; lia. }
  rewrite to_lowercase_ascii by done.
  induction Hch as [|b l Hb _ IH]; [done |]. apply Forall_inv_tail in Hascii.
  cbn [fmap list_fmap]. f_equal; [|by apply IH].
  destruct Hb as [Hb| ->]; [by apply fp_char_alphanumeric | done].
Qed.
End FingerprintEntries.

#[local] Instance ascii_lowercase : Lowercase := {| to_lowercase s := to_lower <$> s |}.
Lemma ascii_lowercase_ok : LowercaseOk.
Proof. by split. Qed.

(** ** Lemmas: histories under one configuration *)

Section OneConfiguration.
Context `{NetLib}.

(** The operations of a history that keeps its configuration. *)
Definition steady (o : op) : Prop :=
  match o with OpReconfigure _ => False | OpCheck _ _ now _ => 0 <= now | _ => True end.

Definition states_ok (st : ProtectionState) : Prop :=
  forall id s, heap st !! id = Some s -> state_ok (config st) s.

Lemma new_state_ok cfg now' :
  config_ok cfg -> state_ok cfg (IpState_new (burst_fp cfg) (sustained_burst_fp cfg) now').
Proof. intros (? & ? & _). unfold state_ok, bucket_ok. simpl. ulia. Qed.

Lemma deref_ok st id : states_ok st -> is_Some (heap st !! id) -> state_ok (config st) (deref st id).
Proof. intros Hst [s Hs]. unfold deref. rewrite Hs. by apply (Hst id). Qed.

Lemma store_states_ok st id s :
  states_ok st -> state_ok (config st) s -> states_ok (store st id s).
Proof. intros Hst Hs id' s'. simpl. rewrite lookup_insert_Some. intros [[<- <-]|[_ Hs']]; [done | by apply (Hst id')]. Qed.

Lemma steady_op y o :
  sys_ok y -> config_ok (config (sys_state y)) -> states_ok (sys_state y) -> steady o ->
  states_ok (sys_state (run_op y o)) /\ config (sys_state (run_op y o)) = config (sys_state y).
Proof.
  intros Hy Hc Hs Ho. destruct o as [ip peek now now'|i|now|c]; cbn [run_op].
  - pose proof (check_at_config (sys_state y) ip peek now now') as Hcfg.
    destruct (check_at _ _ _ _ _) as [d st] eqn:Hcheck. simpl in Hcfg |- *. split; [|done].
    unfold check_at in Hcheck. cbv zeta in Hcheck.
    destruct (check_static _ _ _); [by simplify_eq |].
    destruct (get_or_create_state _ _ _ _ _) as [id st1] eqn:Hget.
    destruct (get_or_create_ok _ _ _ _ _ _ _ Hy Hget) as (Hy1 & Hip & Hcfg1).
    assert (states_ok st1) as Hs1.
    { unfold get_or_create_state in Hget.
      destruct (ip_table (sys_state y) !! to_canonical ip); injection Hget as <- <-; [done |].
      intros id' s'. simpl. rewrite lookup_insert_Some. intros [[<- <-]|[_ Hs']];
        [by apply new_state_ok | by apply (Hs id')]. }
    pose proof (deref_ok st1 id Hs1 (ok_heap _ Hy1 _ _ Hip)) as Hd.
    pose proof (check_state_ok (config (sys_state y)) (deref st1 id) now Hc Ho) as Hok.
    destruct (check_state _ _ _) as [b s]. simplify_eq.
    apply store_states_ok; [done |]. rewrite Hcfg1 in *. by apply Hok.
  - destruct (held y !! i) as [[ip id]|] eqn:Hi; [|done]. split; [|done].
    pose proof (ok_held y Hy _ (list_elem_of_lookup_2 _ _ _ Hi)) as Hip.
    apply store_states_ok; [done |].
    pose proof (deref_ok _ id Hs (ok_heap y Hy _ _ Hip)) as (? & ? & ? & ?).
    unfold state_ok, IpState_release. simpl. split_and!; [done | done | ulia | done].
  - done.
  - done.
Qed.

Lemma steady_ops y ops :
  sys_ok y -> Z.of_nat (length (held y) + length ops) <= u32_max ->
  config_ok (config (sys_state y)) -> states_ok (sys_state y) -> Forall steady ops ->
  states_ok (sys_state (run_ops y ops)) /\ config (sys_state (run_ops y ops)) = config (sys_state y).
Proof.
  intros Hy Hlen Hc Hs Hops. revert y Hy Hlen Hc Hs.
  induction Hops as [|o ops Ho _ IH]; intros y Hy Hlen Hc Hs; [done |].
  destruct (steady_op y o Hy Hc Hs Ho) as [Hs' Hcfg]. pose proof (length_held_op y o).
  cbn [run_ops foldl]. rewrite <- Hcfg. simpl in Hlen.
  apply IH; [apply run_op_ok; [done | lia] | lia | by rewrite Hcfg | done].
Qed.

(** What every steady history from the start guarantees. *)
Lemma steady_history c ops :
  config_ok (precompute c) -> Forall steady ops -> Z.of_nat (length ops) <= u32_max ->
  let st := sys_state (run_ops (boot c) ops) in
  sys_ok (run_ops (boot c) ops) /\ config_ok (config st) /\ config st = precompute c /\
  forall id ip, ip_table st !! ip = Some id -> state_ok (config st) (deref st id).
Proof.
  intros Hc Hops Hlen st. pose proof (run_ops_ok (boot c) ops (boot_ok c) Hlen) as Hy.
  destruct (steady_ops (boot c) ops (boot_ok c) Hlen Hc) as [Hs Hcfg]; [| done |].
  { intros id s Hid. simpl in Hid. by rewrite lookup_empty in Hid. }
  split_and!; [done | by unfold st; rewrite Hcfg | done |].
  intros id ip Hip. apply deref_ok; [done |]. by apply (ok_heap _ Hy ip).
Qed.
End OneConfiguration.

(** ** Lemmas: the fingerprint lists *)

Lemma try_map_elem {E A B} (f : A -> result E B) l bs' a :
  try_map f l = Ok bs' -> a ∈ l -> exists b, f a = Ok b /\ b ∈ bs'.
Proof.
  rewrite try_map_Ok. induction 1 as [|x y l k Hx _ IH]; intros Ha; [by apply elem_of_nil in Ha |].
  apply elem_of_cons in Ha as [->|Ha].
  - exists y. split; [done | constructor].
  - destruct (IH Ha) as (b & ? & ?). exists b. split; [done | by constructor].
Qed.

Lemma Forall_of_forallb {A} (p : A -> bool) (P : A -> Prop) l :
  (forall a, p a = true -> P a) -> forallb p l = true -> Forall P l.
Proof. intros Hp. induction l as [|a l IH]; simpl; intros Hl; bool_to_prop; constructor; auto. Qed.

Lemma hex_to_bytes16_length s b : hex_to_bytes16 s = Some b -> length s = 32%nat.
Proof. unfold hex_to_bytes16. destruct (length s =? 32)%nat eqn:E; [|done]. by bool_to_prop. Qed.

Lemma is_valid_ja4_length s : is_valid_ja4 s = true -> length s = 36%nat.
Proof. unfold is_valid_ja4. destruct (length s =? 36)%nat eqn:E; [|done]. by bool_to_prop. Qed.

Section Blocklists.
Context `{NetLib} `{Lowercase}.

(** What the parser puts into the two sets. *)
Lemma parsed_blocklists prot cfg :
  parse_protection_config prot = Ok cfg ->
  (forall e, e ∈ default [] (js_ja3_blocklist prot) ->
     exists b, hex_to_bytes16 e = Some b /\ b ∈ ja3_blocklist cfg) /\
  (forall e, e ∈ default [] (js_ja4_blocklist prot) ->
     is_valid_ja4 (to_lowercase e) = true /\ to_lowercase e ∈ ja4_blocklist cfg).
Proof.
  unfold parse_protection_config.
  do 2 match goal with |- ?m ≫= _ = Ok _ -> _ => destruct m; cbn [mbind result_bind]; [|done] end.
  destruct (try_map parse_ja3 _) as [ja3s|] eqn:E3; cbn [mbind result_bind]; [|done].
  destruct (try_map parse_ja4 _) as [ja4s|] eqn:E4; cbn [mbind result_bind]; [|done].
  destruct (parse_networks (js_allowlist prot)) as [?|]; cbn [mbind result_bind]; [|done].
  destruct (parse_networks (js_blocklist prot)) as [?|]; cbn [mbind result_bind]; [|done].
  intros [= <-]. cbn [precompute ja3_blocklist ja4_blocklist]. split; intros e He.
  - destruct (try_map_elem _ _ _ _ E3 He) as (b & Hb & Hin). unfold parse_ja3 in Hb.
    destruct (hex_to_bytes16 e); simplify_eq/=. exists b. split; [done | by apply elem_of_list_to_set].
  - destruct (try_map_elem _ _ _ _ E4 He) as (b & Hb & Hin). unfold parse_ja4 in Hb. cbv zeta in Hb.
    destruct (is_valid_ja4 (to_lowercase e)); simplify_eq/=.
    split; [done | by apply elem_of_list_to_set].
Qed.

Lemma blocklisted_static {A} prot cfg ip peek :
  parse_protection_config prot = Ok cfg -> any_contains (allowlist cfg) ip = false ->
  (exists entry, entry ∈ default [] (js_ja4_blocklist prot) /\
     (pi_complete peek = true -> to_lowercase entry = pi_ja4 peek)) \/
  (exists entry, entry ∈ default [] (js_ja3_blocklist prot) /\
     (pi_complete peek = true -> hex_to_bytes16 entry = hex_to_bytes16 (pi_ja3 peek))) ->
  exists r, check_static (A := A) cfg ip peek = Some (Block r).
Proof.
  intros Hparse Hallow Hentry. destruct (parsed_blocklists prot cfg Hparse) as [H3 H4].
  unfold check_static. rewrite Hallow. destruct (any_contains (blocklist cfg) ip); [by eexists |].
  cbv zeta. destruct Hentry as [(e & He & Hm)|(e & He & Hm)].
  - destruct (H4 e He) as [Hv Hin].
    assert (ja4_blocklist cfg <> ∅) as Hne by (intros Heq; rewrite Heq in Hin; set_solver).
    rewrite (bool_decide_eq_false_2 _ Hne). cbn [negb]. rewrite orb_true_r. simpl.
    destruct (pi_complete peek); [|by eexists]. specialize (Hm eq_refl). cbn [negb].
    destruct (_ && _ && _); [by eexists |].
    rewrite Hm in Hin, Hv. rewrite (bool_decide_eq_true_2 _ Hin).
    rewrite bool_decide_eq_false_2; [by eexists |].
    intros Heq. apply is_valid_ja4_length in Hv. by rewrite Heq in Hv.
  - destruct (H3 e He) as (b & Hb & Hin).
    assert (ja3_blocklist cfg <> ∅) as Hne by (intros Heq; rewrite Heq in Hin; set_solver).
    rewrite (bool_decide_eq_false_2 _ Hne). cbn [negb orb].
    destruct (pi_complete peek); [|by eexists]. specialize (Hm eq_refl). cbn [negb andb].
    rewrite <- Hm, Hb, (bool_decide_eq_true_2 _ Hin).
    rewrite (hex_to_bytes16_length (pi_ja3 peek) b) by congruence. by eexists.
Qed.
End Blocklists.

(** ** Properties *)

Module Properties.

(** C10: The concurrency limit counts exactly the open connections. After any
    history of checks, closes, evictions and reconfigurations, an address whose
    connection is admitted under a limit had fewer open connections than the
    limit, one that is refused with [TooManyConnections] had at least as many,
    and the counter of every tracked address equals the number of its open
    connections. *)
Theorem concurrency_limit_is_exact `{NetLib} c ops ip peek now now' :
  Z.of_nat (length ops) <= u32_max ->
  let y := run_ops (boot c) ops in
  let limit := max_concurrent_per_ip (config (sys_state y)) in
  let open := Z.of_nat (held_from (to_canonical ip) (held y)) in
  match (check_at (sys_state y) ip peek now now').1 with
  | Allow _ => limit <= 0 \/ open < limit
  | Block TooManyConnections => 0 < limit <= open
  | _ => True
  end /\
  forall a id, ip_table (sys_state y) !! a = Some id ->
    active (deref (sys_state y) id) = Z.of_nat (held_from a (held y)).
Proof.
  intros Hlen y limit open. assert (sys_ok y) as Hy by (by apply run_ops_ok; [apply boot_ok |]).
  assert (forall a id, ip_table (sys_state y) !! a = Some id ->
    active (deref (sys_state y) id) = Z.of_nat (held_from a (held y))) as Hcount.
  { intros a id Ha. rewrite (held_from_on y a id Hy Ha). apply deref_count; [done |].
    by apply (ok_heap y Hy a). }
  split; [|done]. unfold check_at. cbv zeta.
  destruct (check_static _ _ _) as [d|] eqn:Hst.
  { destruct d as [g| |r]; [by apply check_static_not_allow in Hst | done |].
    unfold check_static in Hst. repeat case_match; simplify_eq; done. }
  destruct (get_or_create_state _ _ _ _ _) as [id st1] eqn:Hget.
  assert (active (deref st1 id) = open) as Hopen.
  { unfold get_or_create_state in Hget.
    destruct (ip_table (sys_state y) !! to_canonical ip) eqn:Hip; injection Hget as <- <-.
    - by apply Hcount.
    - unfold deref, open. simpl. rewrite lookup_insert_eq. simpl. by rewrite held_from_absent. }
  pose proof (check_state_active (config (sys_state y)) (deref st1 id) now) as Hact.
  destruct (check_state _ _ _) as [[r|] s]; simpl in *; rewrite Hopen in Hact; [|by destruct Hact].
  destruct r; try done. by apply Hact.
Qed.

#[local] Existing Instance Net.cidr_lib.
#[local] Existing Instance Sni.constant_digests.

Definition sample_peek : PeekInfo := mkPeek (Some (bs "a.example")) [] [] true 0 false.

Definition two_at_once : ProtectionConfig :=
  mkProt None None None None 0 2 ∅ ∅ 0 false [] [] f64_zero 0 f64_zero 0.

Lemma concurrency_limit_is_exact_witness :
  let ops := [OpCheck (V4 1) sample_peek 5 5; OpEvict 6; OpCheck (mapped 1) sample_peek 7 7] in
  let y := run_ops (boot two_at_once) ops in
  (check_at (sys_state y) (V4 1) sample_peek 8 8).1 = Block TooManyConnections /\
  2 <= Z.of_nat (held_from (V4 1) (held y)).
Proof.
  intros ops y. split; [by vm_compute |].
  pose proof (concurrency_limit_is_exact two_at_once ops (V4 1) sample_peek 8 8 ltac:(by vm_compute))
    as [Hmain _].
  apply Hmain.
Defined.

(** C29: The penalty box holds. Once a history leads to an address being refused
    as rate limited at time [t], every later connection from it before
    [t + penalty duration] that is not decided by the address lists or the
    ClientHello is refused as penalty boxed, whatever checks, closes and
    evictions happen in between. *)
Theorem penalty_box_holds `{NetLib} c ops t t' peek ip st later peek' now now' :
  Z.of_nat (length ops) <= u32_max ->
  let y := run_ops (boot c) ops in
  let ms := penalty_box_duration_ms (config (sys_state y)) in
  0 < ms -> 0 <= t ->
  check_at (sys_state y) ip peek t t' = (Block RateLimited, st) ->
  let until := penalty_until ms t in
  Forall (before until) later -> now < until ->
  let st' := sys_state (run_ops (mkSys st (held y)) later) in
  check_static (A := nat) (config st') (to_canonical ip) peek' = None ->
  (check_at st' ip peek' now now').1 = Block PenaltyBoxed.
Proof.
  intros Hlen y ms Hms Ht Hcheck until Hlater Hnow st' Hstatic.
  assert (sys_ok y) as Hy by (by apply run_ops_ok; [apply boot_ok |]).
  pose proof (check_at_rate_limited y ip peek t t' st Hy Hms Hcheck) as Hbox.
  pose proof (check_at_config (sys_state y) ip peek t t') as Hcfg. rewrite Hcheck in Hcfg. simpl in Hcfg.
  assert (0 < until) as Hpos by (unfold until, penalty_until; ulia).
  destruct (boxed_until_ops (mkSys st (held y)) later (to_canonical ip) until) as [Hbox' Hcfg'];
    [simpl; by rewrite Hcfg | done | done | done |].
  apply (check_at_boxed _ _ _ _ _ until); [done | done | done | | done].
  unfold st'. rewrite Hcfg'. simpl. by rewrite Hcfg.
Qed.

Definition one_per_second_boxed : ProtectionConfig :=
  mkProt (Some (f64_of_Z 1)) None None None 1000 0 ∅ ∅ 0 false [] [] f64_zero 0 f64_zero 0.

Lemma penalty_box_holds_witness :
  let y := run_ops (boot one_per_second_boxed) [OpCheck (V4 1) sample_peek 5 5] in
  let r := check_at (sys_state y) (V4 1) sample_peek 6 6 in
  r.1 = Block RateLimited /\
  (check_at (sys_state (run_ops (mkSys r.2 (held y)) [OpEvict 100; OpClose 0])) (V4 1) sample_peek
     999999 999999).1 = Block PenaltyBoxed.
Proof.
  intros y r. split; [by vm_compute |].
  apply (penalty_box_holds one_per_second_boxed [OpCheck (V4 1) sample_peek 5 5] 6 6 sample_peek
           (V4 1) r.2 [OpEvict 100; OpClose 0]).
  - by vm_compute.
  - by vm_compute.
  - lia.
  - by vm_compute.
  - repeat constructor.
  - by vm_compute.
  - by vm_compute.
Defined.

(** C35: Eviction never changes who is let in: in any history under one
    configuration, a connection checked right after an eviction is admitted or
    refused exactly as it would have been without it. *)
Theorem eviction_is_invisible `{NetLib} c ops ip peek now now' :
  config_ok (precompute c) -> Forall steady ops -> Z.of_nat (length ops) <= u32_max ->
  let st := sys_state (run_ops (boot c) ops) in
  allowed (check_at (evict_at st now) ip peek now now').1 = allowed (check_at st ip peek now now').1.
Proof.
  intros Hc Hops Hlen st.
  destruct (steady_history c ops Hc Hops Hlen) as (_ & Hcok & _ & Hs). fold st in Hcok, Hs.
  destruct (check_static (A := nat) (config st) (to_canonical ip) peek) eqn:Hstatic.
  { unfold check_at. cbv zeta. cbn [evict_at config]. by rewrite Hstatic. }
  rewrite !check_at_allowed; try done; [| by intros id; apply Hs |].
  2: { intros id [Hip _]%map_lookup_filter_Some. by apply (Hs id (to_canonical ip)). }
  f_equal. cbn [evict_at config ip_table heap].
  destruct (filter _ (ip_table st) !! to_canonical ip) as [id|] eqn:Hf.
  - apply map_lookup_filter_Some in Hf as [-> _]. done.
  - apply map_lookup_filter_None in Hf. destruct (ip_table st !! to_canonical ip) as [id|] eqn:Hip; [|done].
    symmetry. apply evicted_like_new; [by apply (Hs id (to_canonical ip)) |].
    destruct Hf as [Hf|Hf]; [done |]. specialize (Hf id eq_refl). simpl in Hf.
    by apply not_true_is_false.
Qed.

Lemma eviction_is_invisible_witness :
  let st := sys_state (run_ops (boot one_per_second_boxed) [OpCheck (V4 1) sample_peek 5 5]) in
  allowed (check_at (evict_at st 9) (V4 1) sample_peek 9 9).1 = false.
Proof.
  intros st. unfold st.
  rewrite (eviction_is_invisible one_per_second_boxed [OpCheck (V4 1) sample_peek 5 5]).
  - by vm_compute.
  - apply precompute_ok; by vm_compute.
  - constructor; [done | constructor].
  - by vm_compute.
Defined.

(** The [blockedIps()] report is exact: a tracked address is on one of its
    three lists at time [now] exactly when a connection from it at that time,
    if not already decided by the address lists or the ClientHello, would be
    refused. *)
Theorem blocked_report_is_exact `{NetLib} c ops ip peek now now' :
  config_ok (precompute c) -> Forall steady ops -> Z.of_nat (length ops) <= u32_max ->
  let st := sys_state (run_ops (boot c) ops) in
  is_Some (ip_table st !! to_canonical ip) ->
  check_static (A := nat) (config st) (to_canonical ip) peek = None ->
  reported (blocked_ips st now) (to_canonical ip) <->
  allowed (check_at st ip peek now now').1 = false.
Proof.
  intros Hc Hops Hlen st [id Hip] Hstatic.
  destruct (steady_history c ops Hc Hops Hlen) as (_ & Hcok & _ & Hs). fold st in Hcok, Hs.
  rewrite reported_blocked, check_at_allowed; [| done | by intros ? ?; eapply Hs | done].
  rewrite Hip, negb_false_iff. split; [by intros (? & [= <-] & ?) | eauto].
Qed.

Lemma blocked_report_is_exact_witness :
  let st := sys_state (run_ops (boot one_per_second_boxed) [OpCheck (V4 1) sample_peek 5 5]) in
  reported (blocked_ips st 9) (V4 1).
Proof.
  intros st. apply (blocked_report_is_exact one_per_second_boxed [OpCheck (V4 1) sample_peek 5 5]
    (V4 1) sample_peek 9 9).
  - apply precompute_ok; by vm_compute.
  - constructor; [done | constructor].
  - by vm_compute.
  - by eexists.
  - by vm_compute.
  - by vm_compute.
Defined.

(** Every fingerprint the proxy computes is accepted as a blocklist entry:
    the JA4 of any ClientHello passes [is_valid_ja4] unchanged by the
    lower-casing, and its JA3 parses to the digest it prints. *)
Theorem computed_fingerprints_are_valid_entries `{DigestsOk} `{LowercaseOk} v suites exts :
  bytes_ok exts ->
  parse_ja4 (compute_ja4 v suites exts) = Ok (compute_ja4 v suites exts) /\
  exists digest, parse_ja3 (compute_ja3 v suites exts) = Ok digest /\
    bytes_to_hex digest = compute_ja3 v suites exts.
Proof.
  intros He. unfold parse_ja4, parse_ja3. cbv zeta.
  rewrite compute_ja4_lowercase, compute_ja4_valid by done. split; [done |].
  unfold compute_ja3, md5_hex. cbv zeta.
  rewrite hex_to_bytes16_roundtrip by (apply md5_bytes || apply md5_length). by eexists.
Qed.

Lemma computed_fingerprints_are_valid_entries_witness :
  parse_ja4 (compute_ja4 771 [19; 1] (hf_extensions sample_fields)) =
  Ok (compute_ja4 771 [19; 1] (hf_extensions sample_fields)).
Proof.
  apply (computed_fingerprints_are_valid_entries (H0 := constant_digests_ok)
    (H2 := ascii_lowercase_ok)).
  apply (Forall_of_forallb (fun b => (0 <=? b) && (b <? 256))); [intros; bool_to_prop; done | by vm_compute].
Defined.

(** A client whose JA3 or JA4 is on the configured blocklist is refused
    whatever it does with its ClientHello: with the hello fully reassembled
    because the fingerprint matches (in any letter case), and otherwise because
    a hello that could not be reassembled fails closed. Only the allowlist goes
    before it, and no per-address state is created. *)
Theorem blocklisted_fingerprint_is_refused `{NetLib} `{Lowercase} prot cfg st ip peek now now' :
  parse_protection_config prot = Ok cfg -> config st = cfg ->
  any_contains (allowlist cfg) (to_canonical ip) = false ->
  (exists entry, entry ∈ default [] (js_ja4_blocklist prot) /\
     (pi_complete peek = true -> to_lowercase entry = pi_ja4 peek)) \/
  (exists entry, entry ∈ default [] (js_ja3_blocklist prot) /\
     (pi_complete peek = true -> hex_to_bytes16 entry = hex_to_bytes16 (pi_ja3 peek))) ->
  exists r, check_at st ip peek now now' = (Block r, st).
Proof.
  intros Hparse Hcfg Hallow Hentry.
  assert (exists r, check_static (A := nat) cfg (to_canonical ip) peek = Some (Block r)) as [r Hr].
  { by eapply blocklisted_static. }
  exists r. unfold check_at. cbv zeta. by rewrite Hcfg, Hr.
Qed.

Definition block_one_ja4 : JsProtectionConfig :=
  mkJsProt None None None None None None None (Some [bs "T13D1516H2_8DAAF6152771_02713D6AF862"])
    None None.

Lemma blocklisted_fingerprint_is_refused_witness :
  exists cfg, parse_protection_config block_one_ja4 = Ok cfg /\
  exists r, check_at (mkState cfg ∅ ∅ 0) (V4 1)
    (mkPeek None [] (bs "t13d1516h2_8daaf6152771_02713d6af862") true 9 false) 0 0 =
    (Block r, mkState cfg ∅ ∅ 0).
Proof.
  destruct (parse_protection_config block_one_ja4) as [cfg|e] eqn:E; [| by vm_compute in E].
  exists cfg. split; [done |].
  apply (blocklisted_fingerprint_is_refused block_one_ja4 cfg); [done | done | |].
  - injection E as <-. by vm_compute.
  - left. exists (bs "T13D1516H2_8DAAF6152771_02713D6AF862"). split; [constructor | by vm_compute].
Defined.
End Properties.
