(* ===== verification/ProtectionRace.v ===== *)
(** * A protection check between its two halves (src/src/protection.rs)

    [check_at] takes the configuration, looks the address up in the table and keeps
    the entry's [Arc], but not the table's lock; only then does it ask the entry.
    [Protection.check_at] is the two halves in one step; here they are two steps of
    one connection, and other checks, closes, evictions and reconfigurations may
    come between them. *)

From S2P Require Import Prelude Bytes Float64 Net TokenBucket Sni Protection.

Open Scope Z_scope.

(** ** The halves *)

Section Race.
Context `{NetLib}.

(** Up to and including [get_or_create_state]: a decision that needs no entry, or
    the configuration that was loaded and the entry. *)
Definition check_enter (st : ProtectionState) (peer_ip : IpAddr) (peek : PeekInfo) (now' : Z)
    : (Decision' nat + ProtectionConfig * nat) * ProtectionState :=
  let ip := to_canonical peer_ip in
  let cfg := config st in
  match check_static cfg ip peek with
  | Some d => (inl d, st)
  | None =>
      let '(id, st1) := get_or_create_state st ip (burst_fp cfg) (sustained_burst_fp cfg) now' in
      (inr (cfg, id), st1)
  end.

(** Steps 5 to 8, on the entry. *)
Definition check_admit (st : ProtectionState) (cfg : ProtectionConfig) (id : nat) (now : Z)
    : Decision' nat * ProtectionState :=
  let '(blocked, s) := check_state cfg (deref st id) now in
  (match blocked with Some r => Block r | None => Allow id end, store st id s).

Lemma check_at_halves st ip peek now now' :
  check_at st ip peek now now' =
  match check_enter st ip peek now' with
  | (inl d, st1) => (d, st1)
  | (inr (cfg, id), st1) => check_admit st1 cfg id now
  end.
Proof.
  unfold check_at, check_enter, check_admit. cbv zeta. destruct (check_static _ _ _); [done |].
  by destruct (get_or_create_state _ _ _ _ _).
Qed.

(** ** Interleavings *)

(** The checks that hold an entry and have not asked it yet, and the connections
    that were admitted. *)
Record racing : Type := mkRacing {
  rc_state : ProtectionState;
  rc_entered : list (IpAddr * (ProtectionConfig * nat));
  rc_held : list (IpAddr * nat);
}.

Inductive race_op : Type :=
  | REnter (ip : IpAddr) (peek : PeekInfo) (now' : Z)
  | RAdmit (i : nat) (now : Z)
  | RClose (i : nat)
  | REvict (now : Z)
  | RReconfigure (c : ProtectionConfig).

Definition race_step (y : racing) (o : race_op) : racing :=
  match o with
  | REnter ip peek now' =>
      match check_enter (rc_state y) ip peek now' with
      | (inl _, st) => mkRacing st (rc_entered y) (rc_held y)
      | (inr e, st) => mkRacing st (rc_entered y ++ [(to_canonical ip, e)]) (rc_held y)
      end
  | RAdmit i now =>
      match rc_entered y !! i with
      | Some (ip, (cfg, id)) =>
          let '(d, st) := check_admit (rc_state y) cfg id now in
          mkRacing st (delete i (rc_entered y))
            (match d with Allow id => rc_held y ++ [(ip, id)] | _ => rc_held y end)
      | None => y
      end
  | RClose i =>
      match rc_held y !! i with
      | Some (_, id) => mkRacing (release (rc_state y) id) (rc_entered y) (delete i (rc_held y))
      | None => y
      end
  | REvict now => mkRacing (evict_at (rc_state y) now) (rc_entered y) (rc_held y)
  | RReconfigure c => mkRacing (reconfigure (rc_state y) c) (rc_entered y) (rc_held y)
  end.

Definition race (c : ProtectionConfig) (ops : list race_op) : racing :=
  foldl race_step (mkRacing (ProtectionState_new c) [] []) ops.

(** ** The count of an entry *)

Record race_ok (y : racing) : Prop := {
  ro_next : forall id, is_Some (heap (rc_state y) !! id) -> (id < next_id (rc_state y))%nat;
  ro_table : forall ip id, ip_table (rc_state y) !! ip = Some id -> is_Some (heap (rc_state y) !! id);
  ro_entered : forall e, e ∈ rc_entered y -> is_Some (heap (rc_state y) !! e.2.2);
  ro_held : forall h, h ∈ rc_held y -> is_Some (heap (rc_state y) !! h.2);
  ro_count : forall id s, heap (rc_state y) !! id = Some s -> active s = Z.of_nat (held_on id (rc_held y));
}.

Lemma race_new_ok c : race_ok (mkRacing (ProtectionState_new c) [] []).
Proof. split; simpl; intros *; rewrite ?lookup_empty; try done; try (by intros [? ?]); by intros ?%elem_of_nil. Qed.

(** An entry's state changes with the connections that hold it. *)
Lemma race_store y id s entered held :
  race_ok y -> is_Some (heap (rc_state y) !! id) -> active s = Z.of_nat (held_on id held) ->
  (forall id', id' <> id -> held_on id' held = held_on id' (rc_held y)) ->
  (forall e, e ∈ entered -> e ∈ rc_entered y) -> (forall h, h ∈ held -> h ∈ rc_held y \/ h.2 = id) ->
  race_ok (mkRacing (store (rc_state y) id s) entered held).
Proof.
  intros [Hn Ht He Hh Hc] Hid Hs Ho Hent Hheld.
  assert (forall i, is_Some (heap (rc_state y) !! i) -> is_Some (<[id := s]> (heap (rc_state y)) !! i)) as Hgrow.
  { intros i Hi. destruct (decide (id = i)) as [->|]; [by rewrite lookup_insert_eq | by rewrite lookup_insert_ne]. }
  split; simpl.
  - intros i [<-|[_ Hi]]%lookup_insert_is_Some; by apply Hn.
  - intros ip i Hi. by apply Hgrow, (Ht ip).
  - intros e Hin. by apply Hgrow, He, Hent.
  - intros h Hin. apply Hgrow. destruct (Hheld h Hin) as [Hin'| ->]; [by apply Hh | done].
  - intros i s' [[<- <-]|[Hne Hi]]%lookup_insert_Some; [done |]. rewrite Ho by done. by apply Hc.
Qed.

Lemma race_deref y id :
  race_ok y -> is_Some (heap (rc_state y) !! id) -> active (deref (rc_state y) id) = Z.of_nat (held_on id (rc_held y)).
Proof. intros [_ _ _ _ Hc] [s Hs]. unfold deref. rewrite Hs. by apply Hc. Qed.

Lemma enter_ok y ip peek now' : race_ok y -> race_ok (race_step y (REnter ip peek now')).
Proof.
  intros [Hn Ht He Hh Hc]. cbn [race_step]. unfold check_enter. destruct (check_static _ _ _); [done |].
  unfold get_or_create_state. destruct (ip_table (rc_state y) !! to_canonical ip) as [id|] eqn:Hip; simpl.
  - split; simpl; try done. intros e [Hin| ->%list_elem_of_singleton]%elem_of_app; [by apply He | by apply (Ht _ _ Hip)].
  - set (new := next_id (rc_state y)).
    assert (forall i, is_Some (heap (rc_state y) !! i) -> i <> new) as Hne by (intros i Hi%Hn; unfold new; lia).
    assert (forall i s, is_Some (heap (rc_state y) !! i) -> is_Some (<[new := s]> (heap (rc_state y)) !! i)) as Hgrow.
    { intros i s Hi. rewrite lookup_insert_ne; [done |]. by apply not_eq_sym, Hne. }
    split; simpl.
    + intros i [<-|[_ Hi%Hn]]%lookup_insert_is_Some; unfold new in *; lia.
    + intros ip' i [[_ <-]|[_ Hi]]%lookup_insert_Some; [by rewrite lookup_insert_eq | by apply Hgrow, (Ht ip')].
    + intros e [Hin| ->%list_elem_of_singleton]%elem_of_app; [by apply Hgrow, He | simpl; by rewrite lookup_insert_eq].
    + intros h Hin. by apply Hgrow, Hh.
    + intros i s [[<- <-]|[_ Hi]]%lookup_insert_Some; [|by apply Hc]. simpl.
      destruct (held_on new (rc_held y)) eqn:E; [done |]. unfold held_on in E.
      destruct (filter _ _) as [|h l] eqn:F; [done |].
      assert (h ∈ filter (fun h => h.2 = new) (rc_held y)) as [Hid Hin]%list_elem_of_filter by (rewrite F; constructor).
      by destruct (Hne _ (Hh h Hin)).
Qed.

Lemma admit_ok y i now : race_ok y -> Z.of_nat (length (rc_held y)) < u32_max -> race_ok (race_step y (RAdmit i now)).
Proof.
  intros Hy Hlen. cbn [race_step]. destruct (rc_entered y !! i) as [[ip [cfg id]]|] eqn:Hi; [|done].
  pose proof (ro_entered _ Hy _ (list_elem_of_lookup_2 _ _ _ Hi)) as Hid. simpl in Hid. unfold check_admit.
  pose proof (check_state_active cfg (deref (rc_state y) id) now) as Hact. pose proof (race_deref y id Hy Hid) as Hcount.
  pose proof (held_on_le id (rc_held y)) as Hle.
  destruct (check_state _ _ _) as [[r|] s]; simpl in Hact; (apply race_store; [done | done | | | |]).
  - destruct Hact. congruence.
  - done.
  - intros e. apply list_elem_of_delete_inv.
  - by left.
  - rewrite held_on_app, held_on_cons. simpl. rewrite decide_True by done.
    change (held_on id []) with 0%nat. destruct Hact as [_ ->]; lia.
  - intros id' Hne. rewrite held_on_app, held_on_cons. simpl. rewrite decide_False by done.
    change (held_on id' []) with 0%nat. lia.
  - intros e. apply list_elem_of_delete_inv.
  - intros h [Hh| ->%list_elem_of_singleton]%elem_of_app; [by left | by right].
Qed.

Lemma close_ok y i : race_ok y -> race_ok (race_step y (RClose i)).
Proof.
  intros Hy. cbn [race_step]. destruct (rc_held y !! i) as [[ip id]|] eqn:Hi; [|done].
  pose proof (ro_held _ Hy _ (list_elem_of_lookup_2 _ _ _ Hi)) as Hid. simpl in Hid.
  apply race_store; [done | done | | | done | left; by eapply list_elem_of_delete_inv].
  - cbn [IpState_release active]. rewrite race_deref by done.
    rewrite (held_on_delete id _ _ _ Hi). simpl. rewrite decide_True by done. ulia.
  - intros id' Hne. rewrite (held_on_delete id' _ _ _ Hi). simpl. rewrite decide_False by congruence. lia.
Qed.

Lemma evicted_ok y now : race_ok y -> race_ok (race_step y (REvict now)).
Proof. intros [Hn Ht He Hh Hc]. split; try done. simpl. intros ip id [Hip _]%map_lookup_filter_Some. by apply (Ht ip). Qed.

Lemma race_held_length y o : (length (rc_held (race_step y o)) <= S (length (rc_held y)))%nat.
Proof.
  destruct o; simpl; try lia.
  - destruct (check_enter _ _ _ _) as [[]]; simpl; lia.
  - destruct (rc_entered y !! i) as [[ip [cfg id]]|]; [|lia]. destruct (check_admit _ _ _ _) as [d st].
    destruct d; simpl; rewrite ?length_app; simpl; lia.
  - destruct (rc_held y !! i) as [[ip id]|] eqn:Hi; simpl; [|lia]. rewrite length_delete by by eexists. lia.
Qed.

Lemma race_ops_ok y ops :
  race_ok y -> Z.of_nat (length (rc_held y)) + Z.of_nat (length ops) <= u32_max -> race_ok (foldl race_step y ops).
Proof.
  revert y; induction ops as [|o ops IH]; intros y Hy Hlen; [done |]. simpl in *.
  pose proof (race_held_length y o). apply IH; [|lia]. destruct o.
  - by apply enter_ok.
  - apply admit_ok; [done | lia].
  - by apply close_ok.
  - by apply evicted_ok.
  - by destruct Hy.
Qed.
End Race.

(** ** Properties *)

Module Properties.

#[local] Existing Instance Net.cidr_lib.

Definition one_at_once : ProtectionConfig :=
  mkProt None None None None 0 1 ∅ ∅ 0 false [] [] f64_zero 0 f64_zero 0.
Definition raced : racing :=
  race one_at_once
    [REnter (V4 1) (mkPeek None [] [] true 0 false) 5; REvict 6; REnter (V4 1) (mkPeek None [] [] true 0 false) 7;
     RAdmit 0 8; RAdmit 0 9].

(** C39: The concurrency limit holds for every entry, whatever comes between looking
    an address up and asking its entry, but not for every address. After any
    interleaving of lookups, admissions, closes, evictions and reconfigurations the
    counter of every entry is the number of open connections that were admitted
    through it, and a check is admitted only while that is below the limit it
    loaded. But an eviction between the two halves of a check, which sees an entry
    with nothing active, drops the entry from the table, so the next connection
    from the address gets a fresh one: with a limit of one, two are open. *)
Theorem concurrency_limit_is_per_entry `{NetLib} c ops :
  Z.of_nat (length ops) <= u32_max ->
  (forall id s, heap (rc_state (race c ops)) !! id = Some s ->
     active s = Z.of_nat (held_on id (rc_held (race c ops)))) /\
  (forall i ip cfg id now id', rc_entered (race c ops) !! i = Some (ip, (cfg, id)) ->
     (check_admit (rc_state (race c ops)) cfg id now).1 = Allow id' ->
     id' = id /\ (max_concurrent_per_ip cfg <= 0 \/
       Z.of_nat (held_on id (rc_held (race c ops))) < max_concurrent_per_ip cfg)) /\
  (max_concurrent_per_ip (config (rc_state raced)) = 1 /\ held_from (V4 1) (rc_held raced) = 2%nat).
Proof.
  intros Hlen. assert (race_ok (race c ops)) as Hy by (apply race_ops_ok; [apply race_new_ok | simpl; lia]).
  split_and!; [apply (ro_count _ Hy) | | vm_compute; done | vm_compute; done].
  intros i ip cfg id now id' Hi. unfold check_admit.
  pose proof (ro_entered _ Hy _ (list_elem_of_lookup_2 _ _ _ Hi)) as Hid. simpl in Hid.
  pose proof (check_state_active cfg (deref (rc_state (race c ops)) id) now) as Hact.
  rewrite (race_deref _ _ Hy Hid) in Hact.
  destruct (check_state _ _ _) as [[r|] s]; simpl in *; [done |]. intros [= <-]. by destruct Hact.
Qed.

Lemma concurrency_limit_is_per_entry_witness :
  exists id s, heap (rc_state raced) !! id = Some s /\ active s = 1 /\ Z.of_nat (held_on id (rc_held raced)) = 1.
Proof.
  exists 1%nat. destruct (heap (rc_state raced) !! 1%nat) as [s|] eqn:E; [|vm_compute in E; discriminate E].
  exists s. split; [reflexivity |]. assert (held_on 1 (rc_held raced) = 1%nat) as Hn by (vm_compute; reflexivity).
  split; [|by rewrite Hn]. rewrite (proj1 (concurrency_limit_is_per_entry one_at_once
    [REnter (V4 1) (mkPeek None [] [] true 0 false) 5; REvict 6; REnter (V4 1) (mkPeek None [] [] true 0 false) 7;
     RAdmit 0 8; RAdmit 0 9] ltac:(vm_compute; discriminate)) _ _ E). fold raced. by rewrite Hn.
Defined.
End Properties.
