(* ===== verification/ProxyProtocol.v ===== *)
(** * The PROXY protocol: writing it upstream (src/src/upstream.rs) and reading
    it on the failover ingress (src/src/ingress.rs)

    - [write_proxy_v1_header], [write_proxy_v2_header]: the headers sent to an
      upstream, as the bytes of the one [write_all].
    - [read_proxy_v2]: the header read by the ingress of a peer node, as a
      function of the bytes that arrive before the deadline and of whether the
      stream then ends.
    - [encode_load_query], [encode_load_answer], [parse_load_answer]: the load
      query that peers send each other in place of a client connection.
    - [IngressState]: the trusted sources of the ingress. *)

From S2P Require Import Prelude Bytes Net.

Open Scope Z_scope.

(** ** Writing *)

Definition PROXY_V2_SIGNATURE : bytes := [13; 10; 13; 10; 0; 13; 10; 81; 85; 73; 84; 10].

Definition PP2_TYPE_JA3 : Z := 224.
Definition PP2_TYPE_JA4 : Z := 225.
Definition PP2_TYPE_CLIENT_CERT : Z := 226.
Definition PP2_TYPE_ALPN : Z := 1.
Definition PP2_TYPE_AUTHORITY : Z := 2.
Definition PP2_TYPE_SSL : Z := 32.
Definition PP2_SUBTYPE_SSL_VERSION : Z := 33.
Definition PP2_SUBTYPE_SSL_CIPHER : Z := 35.
Definition PP2_CLIENT_SSL : Z := 1.
Definition PP2_CLIENT_CERT_CONN : Z := 2.

(** [std::io::ErrorKind::InvalidInput] with its message. *)
Inductive header_error : Type := TlvTooLong | HeaderTooLong.

Inductive V2Addr : Type := A4 (octets : bytes) | A6 (octets : bytes).

Definition normalize_v2_addr (ip : IpAddr) : V2Addr :=
  match ip with
  | V4 a => A4 (to_be 4 a)
  | V6 a => match to_ipv4_mapped a with Some v4 => A4 (to_be 4 v4) | None => A6 (to_be 16 a) end
  end.

(** The loop over the TLVs: an empty value is skipped, an oversized one is an
    error. *)
Fixpoint tlv_section (tlvs : list (Z * bytes)) : result header_error bytes :=
  match tlvs with
  | [] => Ok []
  | (ty, v) :: tlvs' =>
      match v with
      | [] => tlv_section tlvs'
      | _ =>
          if u16_max <? Z.of_nat (length v) then Err TlvTooLong
          else
            rest ← tlv_section tlvs';
            Ok ([ty] ++ u16_to_be (Z.of_nat (length v)) ++ v ++ rest)
      end
  end.

(** The family byte and the address block. *)
Definition address_block (peer : SocketAddr) (local : option SocketAddr) : Z * bytes :=
  let src := normalize_v2_addr (sa_ip peer) in
  let dst := (fun a => normalize_v2_addr (sa_ip a)) <$> local in
  let dst_port := default 0 (sa_port <$> local) in
  match src with
  | A4 src_ip =>
      let dst_ip := match dst with Some (A4 ip) => ip | _ => [127; 0; 0; 1] end in
      (17, src_ip ++ dst_ip ++ u16_to_be (sa_port peer) ++ u16_to_be dst_port)
  | A6 src_ip =>
      let dst_ip := match dst with Some (A6 ip) => ip | _ => to_be 16 1 end in
      (33, src_ip ++ dst_ip ++ u16_to_be (sa_port peer) ++ u16_to_be dst_port)
  end.

Definition write_proxy_v2_header (peer : SocketAddr) (local : option SocketAddr)
    (tlvs : list (Z * bytes)) : result header_error bytes :=
  let '(family, addr) := address_block peer local in
  tlv_block ← tlv_section tlvs;
  let len := Z.of_nat (length addr + length tlv_block) in
  if u16_max <? len then Err HeaderTooLong
  else Ok (PROXY_V2_SIGNATURE ++ [33] ++ [family] ++ u16_to_be len ++ addr ++ tlv_block).

(** [Ipv4Addr::to_string] *)
Definition ipv4_text (a : Z) : bytes := join (bs ".") (to_decimal <$> to_be 4 a).

(** [Ipv6Addr::to_string]: eight groups in hexadecimal, the first longest run of
    at least two zero groups written as two colons. *)
Definition ipv6_groups (a : Z) : list Z :=
  (fun i => Z.shiftr a (16 * (7 - i)) mod 65536) <$> seqZ 0 8.
Fixpoint zero_run (l : list Z) : nat :=
  match l with 0 :: l' => S (zero_run l') | _ => O end.
Definition best_run (l : list Z) : nat * nat :=
  foldl (fun best i => let n := zero_run (drop i l) in
                       if (best.2 <? n)%nat then (i, n) else best) (O, O) (seq 0 8).
Definition hex_text (g : Z) : bytes := digits_of 16 hex_digit 4 g.
Definition ipv6_text (a : Z) : bytes :=
  let g := ipv6_groups a in
  let '(at_, n) := best_run g in
  if (1 <? n)%nat
  then join (bs ":") (hex_text <$> take at_ g) ++ bs "::" ++ join (bs ":") (hex_text <$> drop (at_ + n) g)
  else join (bs ":") (hex_text <$> g).

Definition write_proxy_v1_header (peer : SocketAddr) : bytes :=
  let '(proto, src, dst) :=
    match sa_ip peer with
    | V4 a => (bs "TCP4", ipv4_text a, bs "127.0.0.1")
    | V6 a => match to_ipv4_mapped a with
              | Some v4 => (bs "TCP4", ipv4_text v4, bs "127.0.0.1")
              | None => (bs "TCP6", ipv6_text a, bs "::1")
              end
    end in
  bs "PROXY " ++ proto ++ bs " " ++ src ++ bs " " ++ dst ++ bs " " ++
  to_decimal (sa_port peer) ++ bs " 0" ++ [13; 10].

(** ** Reading *)

Definition MAX_PAYLOAD : nat := 512.
Definition LOAD_QUERY_TLV : Z := 227.
Definition MAX_QUERY_NAMES : nat := 64.
Definition MAX_NAME_LEN : nat := 253.
Definition MAX_LOCAL_PAYLOAD : nat := MAX_QUERY_NAMES * (3 + MAX_NAME_LEN).
Definition LOAD_ANSWER_MAGIC : bytes := bs "SYMPHONY-LOAD/1" ++ [10].

Inductive Header : Type :=
  | Proxy (source : SocketAddr)
  | LoadQuery (names : list (option bytes)).

Inductive HeaderReject : Type := HInvalid | HLocal | HV1 | HTimeout.

(** The bytes that arrive before the deadline, and whether the stream ends
    after them (else the reader is left waiting until the deadline). *)
Record stream : Type := mkStream { arrived : bytes; ended : bool }.

Definition read_exact (n : nat) (s : stream) : result HeaderReject (bytes * stream) :=
  if (n <=? length (arrived s))%nat
  then Ok (take n (arrived s), mkStream (drop n (arrived s)) (ended s))
  else Err (if ended s then HInvalid else HTimeout).

Inductive Command : Type := CProxy (len : nat) | CLocal (len : nat).

Definition address_len (family : Z) : option nat :=
  if family =? 0 then Some 0%nat
  else if family =? 17 then Some 12%nat
  else if family =? 33 then Some 36%nat
  else None.

Definition nth_byte (s : bytes) (i : nat) : Z := default 0 (s !! i).

Definition parse_fixed (fixed : bytes) : result HeaderReject Command :=
  if starts_with (bs "PROXY ") fixed then Err HV1
  else if negb (bytes_eqb (take 12 fixed) PROXY_V2_SIGNATURE) ||
          negb (Z.shiftr (nth_byte fixed 12) 4 =? 2) then Err HInvalid
  else
    let len := Z.to_nat (u16_from_be (nth_byte fixed 14) (nth_byte fixed 15)) in
    let cmd := Z.land (nth_byte fixed 12) 15 in
    if cmd =? 1 then
      let min := if nth_byte fixed 13 =? 17 then Some 12%nat
                 else if nth_byte fixed 13 =? 33 then Some 36%nat else None in
      match min with
      | None => Err HInvalid
      | Some min =>
          if (len <? min)%nat || (MAX_PAYLOAD <? len)%nat then Err HInvalid else Ok (CProxy len)
      end
    else if cmd =? 0 then
      match address_len (nth_byte fixed 13) with
      | Some addr_len =>
          if (addr_len <=? len)%nat && (len <=? MAX_LOCAL_PAYLOAD)%nat
          then Ok (CLocal len) else Err HInvalid
      | None => Err HInvalid
      end
    else Err HInvalid.

Definition valid_name (value : bytes) : option bytes :=
  if (1 <=? length value)%nat && (length value <=? MAX_NAME_LEN)%nat then from_utf8 value else None.

(** The loop over a LOCAL header's TLVs. Each round consumes at least three
    bytes, so the section's length is enough fuel. *)
Fixpoint query_tlvs (fuel : nat) (tlvs : bytes) (names : list (option bytes))
    : result HeaderReject (list (option bytes)) :=
  match tlvs with
  | [] => Ok names
  | kind :: hi :: lo :: rest =>
      match fuel with
      | O => Err HInvalid
      | S fuel' =>
          let len := Z.to_nat (u16_from_be hi lo) in
          if (length rest <? len)%nat then Err HInvalid
          else
            let value := take len rest in
            if kind =? LOAD_QUERY_TLV then
              if (length names =? MAX_QUERY_NAMES)%nat then Err HInvalid
              else query_tlvs fuel' (drop len rest) (names ++ [valid_name value])
            else query_tlvs fuel' (drop len rest) names
      end
  | _ => Err HInvalid
  end.

Definition parse_load_query (family : Z) (payload : bytes) : result HeaderReject (list (option bytes)) :=
  addr_len ← ok_or HInvalid (address_len family);
  let tlvs := drop addr_len payload in
  names ← query_tlvs (length tlvs) tlvs [];
  match names with [] => Err HLocal | _ => Ok names end.

Definition parse_source (family : Z) (payload : bytes) : result HeaderReject SocketAddr :=
  if family =? 17 then
    Ok (mkSocketAddr (V4 (from_be (take 4 payload))) (u16_from_be (nth_byte payload 8) (nth_byte payload 9)))
  else if family =? 33 then
    Ok (mkSocketAddr (to_canonical (V6 (from_be (take 16 payload))))
          (u16_from_be (nth_byte payload 32) (nth_byte payload 33)))
  else Err HInvalid.

(** The loop that reads past the TLVs, 64 bytes at a time. *)
Fixpoint discard_loop (fuel : nat) (tlvs : nat) (s : stream) : result HeaderReject stream :=
  match fuel with
  | O => Err HInvalid
  | S fuel' =>
      if (tlvs =? 0)%nat then Ok s
      else
        let chunk := Nat.min tlvs 64 in
        '(_, s) ← read_exact chunk s;
        discard_loop fuel' (tlvs - chunk) s
  end.

(** The header and the stream left for the ClientHello peek. *)
Definition read_proxy_v2 (s : stream) : result HeaderReject (Header * stream) :=
  '(fixed, s) ← read_exact 16 s;
  cmd ← parse_fixed fixed;
  match cmd with
  | CLocal len =>
      '(payload, s) ← read_exact len s;
      names ← parse_load_query (nth_byte fixed 13) payload;
      Ok (LoadQuery names, s)
  | CProxy len =>
      let addr_len := if nth_byte fixed 13 =? 17 then 12%nat else 36%nat in
      '(addresses, s) ← read_exact addr_len s;
      s ← discard_loop (S (len - addr_len)) (len - addr_len) s;
      source ← parse_source (nth_byte fixed 13) addresses;
      Ok (Proxy source, s)
  end.

(** ** Load queries *)

(** [names.chunks(MAX_QUERY_NAMES)] *)
Fixpoint chunks {A} (fuel n : nat) (l : list A) : list (list A) :=
  match fuel, l with
  | _, [] => []
  | O, _ => []
  | S fuel', _ => take n l :: chunks fuel' n (drop n l)
  end.
Definition load_query_chunks {A} (names : list A) : list (list A) :=
  chunks (length names) MAX_QUERY_NAMES names.

Definition query_name (name : bytes) : bytes :=
  let name := if (length name <=? MAX_NAME_LEN)%nat then name else [] in
  [LOAD_QUERY_TLV] ++ u16_to_be (Z.of_nat (length name)) ++ name.

Definition encode_load_query (names : list bytes) : bytes :=
  let tlvs := concat (query_name <$> names) in
  PROXY_V2_SIGNATURE ++ [32] ++ [0] ++ u16_to_be (Z.of_nat (length tlvs) mod 65536) ++ tlvs.

Definition answer_line (load : option Z) : bytes :=
  match load with Some permille => to_decimal (Z.min permille 1000) ++ [10] | None => bs "-" ++ [10] end.

Definition encode_load_answer (loads : list (option Z)) : bytes :=
  LOAD_ANSWER_MAGIC ++ concat (answer_line <$> loads).

Definition max_load_answer_len (names : nat) : nat := (length LOAD_ANSWER_MAGIC + names * 5)%nat.

Definition parse_line (line : bytes) : option (option Z) :=
  if bytes_eqb line (bs "-") then Some None
  else if (1 <=? length line)%nat && (length line <=? 4)%nat && forallb is_digit line then
    match parse_u32 line with
    | Some v => if v <=? 1000 then Some (Some v) else None
    | None => None
    end
  else None.

Definition parse_load_answer (answer : bytes) (expected : nat) : option (list (option Z)) :=
  if (max_load_answer_len expected <? length answer)%nat then None
  else
    body ← strip_prefix LOAD_ANSWER_MAGIC answer;
    body ← from_utf8 body;
    let body := default body (strip_suffix [10] body) in
    let lines := match body with [] => [] | _ => split_on 10 body end in
    if negb (length lines =? expected)%nat || negb (ends_with [10] answer) then None
    else try_map_opt parse_line lines.

(** ** The ingress's trusted sources *)

Section Ingress.
Context `{NetLib}.

Record IngressState : Type := mkIngress { trusted : SourceAllowlist }.
Definition IngressState_new (t : SourceAllowlist) : IngressState := mkIngress t.
Definition trusts (i : IngressState) (peer : IpAddr) : bool := permits (trusted i) peer.
Definition set_trusted (i : IngressState) (t : SourceAllowlist) : IngressState := mkIngress t.
End Ingress.

(** ** Lemmas: the fixed header *)

Lemma read_exact_app a r e :
  read_exact (length a) (mkStream (a ++ r) e) = Ok (a, mkStream r e).
Proof.
  unfold read_exact. cbn [arrived ended]. rewrite length_app, (proj2 (Nat.leb_le _ _)) by lia.
  by rewrite take_app_length, drop_app_length.
Qed.

Lemma read_exact_app' n a r e :
  length a = n -> read_exact n (mkStream (a ++ r) e) = Ok (a, mkStream r e).
Proof. intros <-. apply read_exact_app. Qed.

(** The fixed header as both writers lay it out. *)
Definition fixed_header (command family len : Z) : bytes :=
  PROXY_V2_SIGNATURE ++ [command] ++ [family] ++ u16_to_be len.

Lemma parse_fixed_proxy family len :
  (family = 17 /\ 12 <= len \/ family = 33 /\ 36 <= len) -> len <= 512 ->
  parse_fixed (fixed_header 33 family len) = Ok (CProxy (Z.to_nat len)).
Proof.
  intros Hf Hlen. unfold parse_fixed.
  change (starts_with (bs "PROXY ") (fixed_header 33 family len)) with false.
  change (bytes_eqb (take 12 (fixed_header 33 family len)) PROXY_V2_SIGNATURE) with
    (bytes_eqb PROXY_V2_SIGNATURE PROXY_V2_SIGNATURE).
  rewrite (proj2 (bytes_eqb_eq _ _) eq_refl).
  change (nth_byte (fixed_header 33 family len) 12) with 33.
  change (nth_byte (fixed_header 33 family len) 13) with family.
  change (nth_byte (fixed_header 33 family len) 14) with (Z.shiftr len 8 mod 256).
  change (nth_byte (fixed_header 33 family len) 15) with (len mod 256).
  rewrite u16_from_to_be by (unfold u16_max; lia).
  change (Z.shiftr 33 4) with 2. change (Z.land 33 15) with 1. cbv zeta. cbn [negb orb Z.eqb Pos.eqb].
  destruct Hf as [[-> Hmin]|[-> Hmin]]; cbn [Z.eqb Pos.eqb]; unfold MAX_PAYLOAD;
    rewrite !(proj2 (Nat.ltb_ge _ _)) by lia; done.
Qed.

Lemma parse_fixed_local len :
  0 <= len -> (Z.to_nat len <= MAX_LOCAL_PAYLOAD)%nat ->
  parse_fixed (fixed_header 32 0 len) = Ok (CLocal (Z.to_nat len)).
Proof.
  intros H0 Hlen. unfold parse_fixed.
  change (starts_with (bs "PROXY ") (fixed_header 32 0 len)) with false.
  change (bytes_eqb (take 12 (fixed_header 32 0 len)) PROXY_V2_SIGNATURE) with
    (bytes_eqb PROXY_V2_SIGNATURE PROXY_V2_SIGNATURE).
  rewrite (proj2 (bytes_eqb_eq _ _) eq_refl).
  change (nth_byte (fixed_header 32 0 len) 12) with 32.
  change (nth_byte (fixed_header 32 0 len) 13) with 0.
  change (nth_byte (fixed_header 32 0 len) 14) with (Z.shiftr len 8 mod 256).
  change (nth_byte (fixed_header 32 0 len) 15) with (len mod 256).
  rewrite u16_from_to_be
    by (unfold u16_max, MAX_LOCAL_PAYLOAD, MAX_QUERY_NAMES, MAX_NAME_LEN in *; lia).
  change (Z.shiftr 32 4) with 2. change (Z.land 32 15) with 0. cbv zeta.
  cbn [negb orb Z.eqb Pos.eqb address_len]. by rewrite (proj2 (Nat.leb_le _ _) Hlen).
Qed.

(** ** Lemmas: the client's address *)

Lemma discard_loop_app fuel tlv r e :
  (length tlv < fuel)%nat -> discard_loop fuel (length tlv) (mkStream (tlv ++ r) e) = Ok (mkStream r e).
Proof.
  revert tlv; induction fuel as [|fuel IH]; intros tlv Hf; [lia |]. cbn [discard_loop].
  destruct (Nat.eqb_spec (length tlv) 0) as [H0|H0]; [by apply length_zero_iff_nil in H0 as -> |].
  cbv zeta. set (c := Nat.min (length tlv) 64).
  replace (tlv ++ r) with (take c tlv ++ drop c tlv ++ r) by by rewrite app_assoc, take_drop.
  rewrite (read_exact_app' _ (take c tlv)) by (rewrite length_take; lia).
  cbn [mbind result_bind]. rewrite <- length_drop. apply IH. rewrite length_drop. lia.
Qed.

#[local] Opaque to_be.

Lemma normalize_length ip :
  (exists o, normalize_v2_addr ip = A4 o /\ length o = 4%nat) \/
  (exists o, normalize_v2_addr ip = A6 o /\ length o = 16%nat).
Proof.
  destruct ip as [a|a]; unfold normalize_v2_addr; [|destruct (to_ipv4_mapped a)];
    [left | left | right]; (eexists; split; [reflexivity | apply length_to_be]).
Qed.

Lemma normalize_source ip : ip_ok ip ->
  (exists a, normalize_v2_addr ip = A4 (to_be 4 a) /\ to_canonical ip = V4 a /\ 0 <= a < 4294967296) \/
  (exists a, normalize_v2_addr ip = A6 (to_be 16 a) /\ ip = V6 a).
Proof.
  intros Hip. destruct ip as [a|a]; unfold normalize_v2_addr, to_canonical; [left; eauto |].
  destruct (to_ipv4_mapped a) as [v4|] eqn:Hm; [left | right; eauto].
  exists v4. split_and!; [done | done |..];
    unfold to_ipv4_mapped in Hm; case_match; simplify_eq; apply Z.mod_pos_bound; lia.
Qed.

(** The layout of the block: the source, a destination of the same family, and
    the two ports. *)
Lemma address_block_layout peer local family addr :
  ip_ok (sa_ip peer) -> address_block peer local = (family, addr) ->
  exists src_ip dst_ip dport, length dst_ip = length src_ip /\
    addr = src_ip ++ dst_ip ++ u16_to_be (sa_port peer) ++ u16_to_be dport /\
    ((family = 17 /\ exists a, src_ip = to_be 4 a /\ to_canonical (sa_ip peer) = V4 a /\
        0 <= a < 4294967296) \/
     (family = 33 /\ exists a, src_ip = to_be 16 a /\ sa_ip peer = V6 a)).
Proof.
  intros Hip. unfold address_block. cbv zeta.
  destruct (normalize_source _ Hip) as [(a & -> & Hc & Ha)|(a & -> & Hv6)];
    intros [Hf <-]%pair_equal_spec; do 3 eexists;
    (split; [|split; [reflexivity |]]); rewrite ?length_to_be.
  - destruct local as [[ip p]|]; [|done]. cbn [fmap option_fmap option_map sa_ip].
    destruct (normalize_length ip) as [(o & -> & Ho)|(o & -> & Ho)]; done.
  - left. split; [done |]. by exists a.
  - destruct local as [[ip p]|]; [|apply length_to_be]. cbn [fmap option_fmap option_map sa_ip].
    destruct (normalize_length ip) as [(o & -> & Ho)|(o & -> & Ho)]; [apply length_to_be | done].
  - right. split; [done |]. by exists a.
Qed.

Lemma length_address_block peer local family addr :
  ip_ok (sa_ip peer) -> address_block peer local = (family, addr) ->
  (family = 17 /\ length addr = 12%nat) \/ (family = 33 /\ length addr = 36%nat).
Proof.
  intros Hip Hb.
  destruct (address_block_layout _ _ _ _ Hip Hb) as (s & d & p & Hl & -> & Hf).
  rewrite !length_app, Hl, !length_u16_to_be.
  destruct Hf as [[-> (a & -> & _)]|[-> (a & -> & _)]]; rewrite length_to_be; auto.
Qed.

(** The source address of the block the writer lays out, read back. *)
Lemma parse_source_block peer local family addr :
  addr_ok peer -> address_block peer local = (family, addr) ->
  parse_source family addr = Ok (mkSocketAddr (to_canonical (sa_ip peer)) (sa_port peer)).
Proof.
  intros [Hip Hport] Hblock.
  destruct (address_block_layout _ _ _ _ Hip Hblock) as (src_ip & dst_ip & dport & Hl & -> & Hfam).
  assert (forall k i, k = (length src_ip + length src_ip + i)%nat ->
    nth_byte (src_ip ++ dst_ip ++ u16_to_be (sa_port peer) ++ u16_to_be dport) k =
    nth_byte (u16_to_be (sa_port peer) ++ u16_to_be dport) i) as Hnth.
  { intros k i ->. unfold nth_byte. rewrite lookup_app_r by lia. rewrite lookup_app_r by lia.
    do 2 f_equal. lia. }
  assert (u16_from_be (nth_byte (u16_to_be (sa_port peer) ++ u16_to_be dport) 0)
            (nth_byte (u16_to_be (sa_port peer) ++ u16_to_be dport) 1) = sa_port peer) as Hu
    by by apply u16_from_to_be.
  unfold parse_source. destruct Hfam as [[-> (a & -> & -> & Ha)]|[-> (a & -> & Hv6)]];
    cbn [Z.eqb Pos.eqb]; rewrite !length_to_be in *;
    rewrite take_app_length' by (by rewrite length_to_be).
  - rewrite (Hnth 8%nat 0%nat), (Hnth 9%nat 1%nat), Hu by done. by rewrite from_to_be.
  - rewrite (Hnth 32%nat 0%nat), (Hnth 33%nat 1%nat), Hu by done. rewrite Hv6 in *.
    by rewrite from_to_be.
Qed.

Lemma write_proxy_v2_layout peer local tlvs out :
  write_proxy_v2_header peer local tlvs = Ok out ->
  exists family addr tlv_block,
    address_block peer local = (family, addr) /\ tlv_section tlvs = Ok tlv_block /\
    Z.of_nat (length addr + length tlv_block) <= u16_max /\
    out = fixed_header 33 family (Z.of_nat (length addr + length tlv_block)) ++ addr ++ tlv_block.
Proof.
  unfold write_proxy_v2_header. destruct (address_block peer local) as [family addr].
  destruct (tlv_section tlvs) as [tlv_block|]; cbn [mbind result_bind]; [|done]. cbv zeta.
  case_match eqn:E; [done |]. bool_to_prop. intros [= <-].
  exists family, addr, tlv_block. done.
Qed.

(** ** Lemmas: load queries *)

(** What the receiver makes of a name: one that cannot be a route is answered as
    not available. *)
Definition asked (name : bytes) : option bytes :=
  if (1 <=? length name)%nat && (length name <=? MAX_NAME_LEN)%nat then Some name else None.

Lemma valid_name_asked name :
  is_utf8 name = true ->
  valid_name (if (length name <=? MAX_NAME_LEN)%nat then name else []) = asked name.
Proof.
  intros Hu. unfold valid_name, asked, from_utf8.
  destruct (length name <=? MAX_NAME_LEN)%nat eqn:E; [rewrite E, Hu; by case_match |].
  by rewrite andb_false_r.
Qed.

Lemma query_tlvs_encode names acc fuel :
  Forall (fun n => is_utf8 n = true) names ->
  (length acc + length names <= MAX_QUERY_NAMES)%nat -> (length names <= fuel)%nat ->
  query_tlvs fuel (concat (query_name <$> names)) acc = Ok (acc ++ (asked <$> names)).
Proof.
  intros Hu. revert acc fuel; induction Hu as [|n names Hn _ IH]; intros acc fuel Hmax Hf.
  { simpl. rewrite app_nil_r. by destruct fuel. }
  destruct fuel as [|fuel]; simpl in Hf, Hmax; [lia |].
  cbn [fmap list_fmap concat]. unfold query_name at 1. cbv zeta.
  set (m := if (length n <=? MAX_NAME_LEN)%nat then n else []).
  assert (length m <= MAX_NAME_LEN)%nat as Hm.
  { unfold m. case_match eqn:E; bool_to_prop; [done | simpl; unfold MAX_NAME_LEN; lia]. }
  cbn [app u16_to_be query_tlvs].
  rewrite u16_from_to_be by (unfold u16_max, MAX_NAME_LEN in *; lia). cbv zeta.
  rewrite Nat2Z.id, length_app, (proj2 (Nat.ltb_ge _ _)) by lia.
  rewrite take_app_length, drop_app_length. rewrite Z.eqb_refl.
  rewrite (proj2 (Nat.eqb_neq _ _)) by lia.
  rewrite IH by (rewrite ?length_app; simpl; lia). unfold m. rewrite valid_name_asked by done.
  by rewrite <- app_assoc.
Qed.

Lemma length_query_tlvs names :
  (length (concat (query_name <$> names)) <= length names * (3 + MAX_NAME_LEN))%nat.
Proof.
  induction names as [|n names IH]; [done |]. cbn [fmap list_fmap concat length].
  rewrite length_app. unfold query_name at 1. cbv zeta. rewrite !length_app, length_u16_to_be.
  cbn [length]. case_match eqn:E; bool_to_prop; simpl (length []); lia.
Qed.

Lemma length_query_tlvs_ge names : (length names <= length (concat (query_name <$> names)))%nat.
Proof.
  induction names as [|n names IH]; [done |]. cbn [fmap list_fmap concat length].
  rewrite length_app. unfold query_name at 1. cbv zeta. rewrite !length_app. cbn [length]. lia.
Qed.

Lemma chunks_spec {A} fuel n (l : list A) :
  (0 < n)%nat -> (length l <= fuel)%nat ->
  concat (chunks fuel n l) = l /\
  Forall (fun c => (0 < length c <= n)%nat) (chunks fuel n l).
Proof.
  intros Hn. revert l; induction fuel as [|fuel IH]; intros [|a l] Hl; simpl in Hl; try lia;
    try (by split; [|constructor]).
  cbn [chunks concat]. destruct (IH (drop n (a :: l))) as [Hc Hall].
  { rewrite length_drop. simpl. lia. }
  rewrite Hc, take_drop. split; [done |]. constructor; [|done].
  rewrite length_take. simpl. lia.
Qed.

(** ** Lemmas: load answers *)

Lemma split_on_free sep l : Forall (fun b => b <> sep) l -> split_on sep l = [l].
Proof. induction 1 as [|b l Hb _ IH]; [done |]. simpl. by rewrite (proj2 (Z.eqb_neq _ _)), IH. Qed.

Lemma split_on_cons sep l s :
  Forall (fun b => b <> sep) l -> split_on sep (l ++ sep :: s) = l :: split_on sep s.
Proof.
  induction 1 as [|b l Hb _ IH]; simpl; [by rewrite Z.eqb_refl |].
  by rewrite (proj2 (Z.eqb_neq _ _)), IH.
Qed.

Lemma utf8_ascii fuel s : Forall (fun b => b < 128) s -> (length s <= fuel)%nat -> utf8_ok fuel s = true.
Proof.
  intros Hs. revert fuel; induction Hs as [|b s Hb _ IH]; intros [|fuel] Hf; simpl in *; try done; try lia.
  rewrite (proj2 (Z.leb_le _ _)) by lia. apply IH. lia.
Qed.

Lemma from_utf8_ascii s : Forall (fun b => b < 128) s -> from_utf8 s = Some s.
Proof. intros. unfold from_utf8, is_utf8. by rewrite utf8_ascii. Qed.

(** Lines free of the terminator, each followed by it, split back. *)
Lemma split_lines l ls :
  Forall (Forall (fun b => b <> 10)) (l :: ls) ->
  exists body, concat ((fun x => x ++ [10]) <$> (l :: ls)) = body ++ [10] /\
    split_on 10 body = l :: ls.
Proof.
  intros Hall. remember (l :: ls) as all eqn:Hne. revert l ls Hne.
  induction Hall as [|x xs Hx Hxs IH]; intros l ls [= -> ->].
  destruct ls as [|l' ls].
  - exists l. simpl. rewrite app_nil_r. split; [done | by apply split_on_free].
  - destruct (IH l' ls eq_refl) as (body & Hb & Hs). exists (l ++ [10] ++ body). split.
    + cbn [fmap list_fmap concat] in *. rewrite Hb. by rewrite <- !app_assoc.
    + change ([10] ++ body) with (10 :: body). by rewrite split_on_cons, Hs.
Qed.

Lemma ends_with_app p s : ends_with p (s ++ p) = true.
Proof.
  unfold ends_with. rewrite length_app, (proj2 (Nat.leb_le _ _)) by lia. simpl.
  rewrite drop_app_length' by lia. by apply bytes_eqb_eq.
Qed.

Lemma strip_suffix_app p s : strip_suffix p (s ++ p) = Some s.
Proof.
  unfold strip_suffix. rewrite ends_with_app. f_equal. apply take_app_length'. rewrite length_app. lia.
Qed.

(** The text of one answer. *)
Definition answer_text (load : option Z) : bytes :=
  match load with Some v => to_decimal (Z.min v 1000) | None => bs "-" end.

Definition capped_load (load : option Z) : option Z := (fun v => Z.min v 1000) <$> load.

Definition load_ok (load : option Z) : Prop := match load with Some v => 0 <= v | None => True end.

Lemma to_decimal_1000 v : 0 <= v <= 1000 ->
  Forall (fun b => is_digit b = true) (to_decimal v) /\ (1 <= length (to_decimal v) <= 4)%nat.
Proof.
  intros Hv. split.
  - apply digits_of_Forall; [lia | lia |]. intros d Hd. unfold is_digit, dec_digit.
    by rewrite !(proj2 (Z.leb_le _ _)) by lia.
  - assert (Forall (fun n => (1 <=? length (to_decimal (Z.of_nat n))) && (length (to_decimal (Z.of_nat n)) <=? 4) = true)%nat
      (seq 0 1001)) as Hall.
    { apply Forall_forall, forallb_forall. by vm_compute. }
    rewrite Forall_forall in Hall. specialize (Hall (Z.to_nat v)).
    rewrite in_seq, Z2Nat.id in Hall by lia.
    assert ((1 <=? length (to_decimal v)) && (length (to_decimal v) <=? 4) = true)%nat as Hd
      by (apply Hall; lia). bool_to_prop. done.
Qed.

Lemma answer_text_shape load :
  load_ok load ->
  Forall (fun b => b <> 10 /\ b < 128) (answer_text load) /\
  (1 <= length (answer_text load) <= 4)%nat /\
  parse_line (answer_text load) = Some (capped_load load).
Proof.
  destruct load as [v|]; intros Hv.
  2: { split; [constructor; [by vm_compute | constructor] |]. simpl. split; [lia | done]. }
  cbn [answer_text capped_load fmap option_fmap option_map load_ok] in *.
  destruct (to_decimal_1000 (Z.min v 1000)) as [Hd Hl]; [lia |]. split_and!; [| lia | lia |].
  - eapply Forall_impl; [|exact Hd]. intros b Hb. unfold is_digit in Hb. bool_to_prop. lia.
  - unfold parse_line. destruct (bytes_eqb _ (bs "-")) eqn:E.
    { apply bytes_eqb_eq in E. rewrite E in Hd. by apply Forall_inv in Hd. }
    rewrite !(proj2 (Nat.leb_le _ _)) by lia. simpl.
    rewrite (proj2 (forallb_forall _ _)) by (by apply Forall_forall).
    unfold parse_u32. rewrite parse_to_decimal by (unfold u32_max, u64_max; lia).
    by rewrite (proj2 (Z.leb_le _ _)) by lia.
Qed.

Lemma try_map_opt_fmap {A B C} (f : A -> option B) (g : C -> A) (h : C -> B) (l : list C) :
  Forall (fun c => f (g c) = Some (h c)) l -> try_map_opt f (g <$> l) = Some (h <$> l).
Proof. induction 1 as [|c l Hc _ IH]; [done |]. cbn [fmap list_fmap try_map_opt]. by rewrite Hc, IH. Qed.

Lemma answer_lines loads :
  concat (answer_line <$> loads) = concat ((fun x => x ++ [10]) <$> (answer_text <$> loads)).
Proof. rewrite <- list_fmap_compose. f_equal. apply list_fmap_ext. by intros ? [v|] _. Qed.

Lemma length_answer loads :
  Forall load_ok loads -> (length (concat (answer_line <$> loads)) <= length loads * 5)%nat.
Proof.
  induction 1 as [|x loads Hx _ IH]; [done |]. cbn [fmap list_fmap concat length].
  rewrite length_app. destruct (answer_text_shape x Hx) as (_ & Hl & _).
  assert (length (answer_line x) = (length (answer_text x) + 1)%nat) as ->
    by (destruct x; simpl; by rewrite ?length_app).
  lia.
Qed.

Lemma parse_answer_body loads :
  Forall load_ok loads -> loads <> [] ->
  exists body, concat (answer_line <$> loads) = body ++ [10] /\ body <> [] /\
    Forall (fun b => b < 128) (body ++ [10]) /\
    split_on 10 body = answer_text <$> loads.
Proof.
  intros Hok Hne. rewrite answer_lines.
  assert (Forall (fun t => Forall (fun b => b <> 10 /\ b < 128) t /\ t <> []) (answer_text <$> loads)) as Ht.
  { apply Forall_fmap. eapply Forall_impl; [|exact Hok]. intros x Hx. simpl.
    destruct (answer_text_shape x Hx) as (H1 & H2 & _). split; [done |].
    intros Hnil. rewrite Hnil in H2. simpl in H2. lia. }
  destruct (answer_text <$> loads) as [|l ls] eqn:E; [by destruct loads |].
  destruct (split_lines l ls) as (body & Hb & Hs).
  { eapply Forall_impl; [|exact Ht]. intros t [H1 _]. eapply Forall_impl; [|exact H1]. by intros ? []. }
  exists body. split_and!; [done | | | done].
  - intros ->. simpl in Hs. injection Hs as <- _. apply Forall_inv in Ht as [_ Ht]. done.
  - rewrite <- Hb. clear -Ht. induction Ht as [|t ts [Ht _] _ IH]; [constructor |].
    cbn [fmap list_fmap concat]. apply Forall_app. split; [|done].
    apply Forall_app. split; [eapply Forall_impl; [|exact Ht]; by intros ? [] | by repeat constructor].
Qed.

(** ** Lemmas: an answer that is cut short *)

Definition newlines (l : bytes) : nat := length (List.filter (Z.eqb 10) l).

Lemma newlines_app l k : newlines (l ++ k) = (newlines l + newlines k)%nat.
Proof. unfold newlines. by rewrite List.filter_app, length_app. Qed.

Lemma length_split_lines l : length (split_on 10 l) = S (newlines l).
Proof.
  unfold newlines. induction l as [|b l IH]; [done |]. cbn [split_on List.filter]. rewrite (Z.eqb_sym 10).
  destruct (b =? 10); simpl; [by rewrite IH |]. by destruct (split_on 10 l).
Qed.

Lemma newlines_answer loads : Forall load_ok loads -> newlines (concat (answer_line <$> loads)) = length loads.
Proof.
  induction 1 as [|x loads Hx _ IH]; [done |]. cbn [fmap list_fmap concat length]. rewrite newlines_app, IH.
  destruct (answer_text_shape x Hx) as (Ht & _).
  assert (answer_line x = answer_text x ++ [10]) as -> by (by destruct x). rewrite newlines_app.
  assert (newlines (answer_text x) = 0)%nat as ->; [|done]. unfold newlines. clear -Ht.
  induction Ht as [|b t [Hb _] _ IHt]; [done |]. cbn [List.filter]. by rewrite (proj2 (Z.eqb_neq _ _)).
Qed.

Lemma ends_with_snoc s : s <> [] -> ends_with [10] s = true -> exists s', s = s' ++ [10].
Proof.
  intros Hne. destruct s as [|b s _] using rev_ind; [done |]. unfold ends_with. rewrite length_app. simpl.
  rewrite Nat.add_sub, drop_app_length. intros [_ Hb]%andb_true_iff. apply bytes_eqb_eq in Hb as [= ->]. by exists s.
Qed.

(** An answer is read only when all of it has come. *)
Lemma cut_answer loads reply :
  Forall load_ok loads -> loads <> [] -> reply `prefix_of` encode_load_answer loads ->
  is_Some (parse_load_answer reply (length loads)) -> reply = encode_load_answer loads.
Proof.
  intros Hok Hne [rest Hrest] [ls Hls]. revert Hls. unfold parse_load_answer. destruct (_ <? _)%nat; [done |].
  destruct (strip_prefix LOAD_ANSWER_MAGIC reply) as [body|] eqn:Hb; [|done]. apply strip_prefix_Some in Hb as ->.
  cbn [mbind option_bind]. unfold from_utf8. destruct (is_utf8 body); [|done]. cbn [mbind option_bind]. cbv zeta.
  destruct (negb _ || _) eqn:Hlines; [done |]. intros _. apply orb_false_iff in Hlines as [Hlen Hend].
  apply negb_false_iff in Hlen, Hend. apply Nat.eqb_eq in Hlen. unfold encode_load_answer in *. rewrite <- app_assoc in Hrest.
  apply app_inv_head in Hrest. pose proof (newlines_answer loads Hok) as Hn. rewrite Hrest, newlines_app in Hn.
  assert (body <> []) as Hbne by (intros ->; simpl in Hlen; by destruct loads).
  assert (exists body', body = body' ++ [10]) as [body' ->].
  { destruct body as [|b body _] using rev_ind; [done |]. rewrite app_assoc in Hend.
    apply ends_with_snoc in Hend as [s Hs]; [|by destruct (LOAD_ANSWER_MAGIC ++ body)].
    apply app_inj_tail in Hs as [_ ->]. by exists body. }
  rewrite strip_suffix_app in Hlen. cbn [default] in Hlen.
  assert (S (newlines body') = length loads) as Hl.
  { destruct body' as [|b body']; [simpl in Hlen; by destruct loads |]. by rewrite <- length_split_lines. }
  rewrite newlines_app in Hn. change (newlines [10]) with 1%nat in Hn. rewrite Hrest. f_equal.
  destruct rest as [|b rest _] using rev_ind; [by rewrite app_nil_r |]. exfalso.
  destruct (parse_answer_body loads Hok Hne) as (tail & Ht & _). rewrite Ht, !app_assoc in Hrest.
  apply app_inj_tail in Hrest as [_ <-]. rewrite newlines_app in Hn. change (newlines [10]) with 1%nat in Hn. lia.
Qed.

(** What a forwarding node writes, the ingress reads: a header whose TLVs fit the
    ingress's bound is read back as its client's canonical address and port, and
    nothing behind it is consumed. *)
Lemma header_read_back peer local tlvs out rest eof :
  addr_ok peer -> write_proxy_v2_header peer local tlvs = Ok out -> (length out <= 16 + MAX_PAYLOAD)%nat ->
  read_proxy_v2 (mkStream (out ++ rest) eof) =
  Ok (Proxy (mkSocketAddr (to_canonical (sa_ip peer)) (sa_port peer)), mkStream rest eof).
Proof.
  intros Hpeer Hw Hmax.
  destruct (write_proxy_v2_layout _ _ _ _ Hw) as (family & addr & tlv & Hblock & _ & Hlen & ->).
  destruct Hpeer as [Hip Hport].
  pose proof (length_address_block _ _ _ _ Hip Hblock) as Hal.
  rewrite !length_app in Hmax. change (length (fixed_header _ _ _)) with 16%nat in Hmax.
  unfold MAX_PAYLOAD in Hmax. unfold read_proxy_v2. rewrite <- !app_assoc.
  rewrite (read_exact_app' 16 (fixed_header _ _ _)) by done. cbn [mbind result_bind].
  rewrite parse_fixed_proxy by lia. cbn [mbind result_bind].
  change (nth_byte (fixed_header 33 family ?l) 13) with family.
  assert ((if family =? 17 then 12%nat else 36%nat) = length addr) as ->
    by (destruct Hal as [[-> ->]|[-> ->]]; done).
  rewrite read_exact_app. cbn [mbind result_bind]. cbv zeta.
  replace (Z.to_nat (Z.of_nat (length addr + length tlv)) - length addr)%nat with (length tlv) by lia.
  rewrite discard_loop_app by lia. cbn [mbind result_bind].
  by rewrite (parse_source_block peer local family addr).
Qed.

(** Without TLVs a header is always short enough for the ingress. *)
Lemma plain_header_length peer local out :
  addr_ok peer -> write_proxy_v2_header peer local [] = Ok out -> (length out <= 52)%nat.
Proof.
  intros [Hip _] Hw. destruct (write_proxy_v2_layout _ _ _ _ Hw) as (family & addr & tlv & Hb & Ht & _ & ->).
  injection Ht as <-. destruct (length_address_block _ _ _ _ Hip Hb) as [[_ Hl]|[_ Hl]];
    rewrite !length_app, Hl; change (length (fixed_header _ _ _)) with 16%nat; simpl; lia.
Qed.

(** ** Properties *)

Module Properties.

(** A load query is read back name by name: for up to 64 route names the
    ingress recovers every name that can be a route, in order, and marks the
    others as unanswerable, so the answers stay aligned with the names. *)
Theorem load_query_roundtrip names rest eof :
  names <> [] -> (length names <= MAX_QUERY_NAMES)%nat -> Forall (fun n => is_utf8 n = true) names ->
  read_proxy_v2 (mkStream (encode_load_query names ++ rest) eof) =
  Ok (LoadQuery (asked <$> names), mkStream rest eof).
Proof.
  intros Hne Hmax Hu. unfold encode_load_query, read_proxy_v2. cbv zeta.
  set (tlvs := concat (query_name <$> names)).
  pose proof (length_query_tlvs names) as Hlen. fold tlvs in Hlen.
  pose proof (length_query_tlvs_ge names) as Hge. fold tlvs in Hge.
  assert (length tlvs <= MAX_LOCAL_PAYLOAD)%nat as Hl.
  { unfold MAX_LOCAL_PAYLOAD, MAX_QUERY_NAMES, MAX_NAME_LEN in *. lia. }
  assert (Z.of_nat (length tlvs) mod 65536 = Z.of_nat (length tlvs)) as ->.
  { apply Z.mod_small. unfold MAX_LOCAL_PAYLOAD, MAX_QUERY_NAMES, MAX_NAME_LEN in *. lia. }
  rewrite <- !app_assoc.
  change (PROXY_V2_SIGNATURE ++ [32] ++ [0] ++ u16_to_be (Z.of_nat (length tlvs)) ++ tlvs ++ rest)
    with (fixed_header 32 0 (Z.of_nat (length tlvs)) ++ tlvs ++ rest).
  rewrite (read_exact_app' 16 (fixed_header _ _ _)) by done. cbn [mbind result_bind].
  rewrite parse_fixed_local by lia. cbn [mbind result_bind]. rewrite Nat2Z.id, read_exact_app.
  cbn [mbind result_bind]. change (nth_byte (fixed_header 32 0 ?l) 13) with 0.
  unfold parse_load_query. cbn [address_len Z.eqb ok_or mbind result_bind]. cbv zeta.
  rewrite drop_0. unfold tlvs. rewrite query_tlvs_encode by (simpl; lia || done). cbn [mbind result_bind app].
  by destruct names.
Qed.

Lemma load_query_roundtrip_witness :
  read_proxy_v2 (mkStream (encode_load_query [bs "a.example"; []] ++ []) true) =
  Ok (LoadQuery [Some (bs "a.example"); None], mkStream [] true).
Proof.
  rewrite (load_query_roundtrip [bs "a.example"; []] [] true).
  - by vm_compute.
  - done.
  - apply Nat.leb_le. by vm_compute.
  - by repeat constructor.
Defined.

(** A load answer is read back value by value, capped at 1000 permille, and
    the encoded answer never exceeds the size the reader accepts for that many
    names. *)
Theorem load_answer_roundtrip loads :
  Forall load_ok loads ->
  (length (encode_load_answer loads) <= max_load_answer_len (length loads))%nat /\
  parse_load_answer (encode_load_answer loads) (length loads) = Some (capped_load <$> loads).
Proof.
  intros Hok. pose proof (length_answer loads Hok) as Hl.
  assert (length (encode_load_answer loads) <= max_load_answer_len (length loads))%nat as Hmax
    by (unfold encode_load_answer, max_load_answer_len; rewrite length_app; lia).
  split; [done |]. unfold parse_load_answer. rewrite (proj2 (Nat.ltb_ge _ _)) by done.
  destruct (decide (loads = [])) as [->|Hne]; [by vm_compute |].
  destruct (parse_answer_body loads Hok Hne) as (body & Hb & Hbne & Hascii & Hsplit).
  unfold encode_load_answer. rewrite strip_prefix_app. cbn [mbind option_bind]. rewrite Hb.
  rewrite from_utf8_ascii by done. cbn [mbind option_bind]. cbv zeta.
  assert (default (body ++ [10]) (strip_suffix [10] (body ++ [10])) = body) as ->
    by by rewrite strip_suffix_app.
  assert (match body with [] => [] | _ => split_on 10 body end = answer_text <$> loads) as ->
    by by destruct body.
  rewrite (app_assoc _ body), ends_with_app, length_fmap, Nat.eqb_refl. cbn [negb orb].
  apply (try_map_opt_fmap parse_line). eapply Forall_impl; [|exact Hok].
  intros x Hx. by apply answer_text_shape.
Qed.

Lemma load_answer_roundtrip_witness :
  parse_load_answer (encode_load_answer [Some 250; None; Some 4000]) 3 = Some [Some 250; None; Some 1000].
Proof. apply (load_answer_roundtrip [Some 250; None; Some 4000]). repeat constructor; simpl; lia. Defined.
End Properties.
