(* ===== verification/Balancer.v ===== *)
(** * The Unix-socket balancer (src/src/balancer.rs) and connecting through it
    (src/src/upstream.rs)

    A balancer's slots are values; what the code shares through an [Arc] across
    route-table rebuilds (a slot's health, its worker's CPU sample, the smoothed
    load) is an identifier into the [shared] store, so two balancers that share
    a slot's health read and write the same cell.

    The clocks ([now_ns], [tokio::time::Instant]) and the outcome of each connect
    are arguments. *)

From S2P Require Import Prelude Bytes Net.

Open Scope Z_scope.

(** ** Shared cells *)

(** The part of a [ThreadCpu] the balancer reads: what it was configured with
    and the last measured utilisation. *)
Record cpu_cell : Type := mkCpu {
  cpu_path : bytes;
  cpu_pid : Z;
  cpu_tid : Z;
  cpu_util_permille : Z;
}.

Record shared : Type := mkShared {
  healths : gmap nat Z;
  cpus : gmap nat cpu_cell;
  next_cell : nat;
}.

(** A [SlotHealth] is the time of the latest refusal, 0 when accepting. *)
Definition refused_at (sh : shared) (h : nat) : Z := default 0 (healths sh !! h).
Definition refusing (sh : shared) (h : nat) : bool := negb (refused_at sh h =? 0).

Definition set_health (sh : shared) (h : nat) (v : Z) : shared :=
  mkShared (<[h := v]> (healths sh)) (cpus sh) (next_cell sh).

Definition mark_refused (sh : shared) (h : nat) (now : Z) : shared := set_health sh h (Z.max now 1).

(** [SlotHealth::new] *)
Definition new_health (sh : shared) (is_refusing : bool) (now : Z) : nat * shared :=
  let h := next_cell sh in
  (h, mkShared (<[h := if is_refusing then Z.max now 1 else 0]> (healths sh)) (cpus sh) (S h)).

Definition clear_if_unchanged (sh : shared) (h : nat) (observed : Z) : bool * shared :=
  if refused_at sh h =? observed then (true, set_health sh h 0) else (false, sh).

Definition configured (sh : shared) (c : nat) : bytes * Z * Z :=
  match cpus sh !! c with Some cell => (cpu_path cell, cpu_pid cell, cpu_tid cell) | None => ([], 0, 0) end.
Definition util_permille (sh : shared) (c : nat) : Z :=
  match cpus sh !! c with Some cell => cpu_util_permille cell | None => 0 end.

Definition new_cpu (sh : shared) (path : bytes) (pid tid : Z) : nat * shared :=
  let c := next_cell sh in
  (c, mkShared (healths sh) (<[c := mkCpu path pid tid 0]> (cpus sh)) (S c)).

(** ** Slots and balancers *)

Record UdsSlotSpec : Type := mkSpec { spec_path : bytes; spec_pid : option Z; spec_tid : option Z }.

Record UdsSlot : Type := mkSlot {
  slot_path : bytes;
  slot_active : Z;
  slot_health : option nat;
  slot_cpu : option nat;
}.

Record AffinityEntry : Type := mkEntry { socket_idx : nat; last_seen_ns : Z }.
Record AffinityMap : Type := mkAffinity { entries : gmap IpAddr AffinityEntry; ttl_ns : Z }.

(** [arc] tells one balancer from another: it is the pointer connections and
    route tables share. *)
Record UdsBalancer : Type := mkBalancer {
  sockets : list UdsSlot;
  affinity : option AffinityMap;
  load : nat;
  arc : nat;
}.

Definition slot_refusing (sh : shared) (s : UdsSlot) : bool :=
  match slot_health s with Some h => refusing sh h | None => false end.

Definition score (sh : shared) (s : UdsSlot) : Z :=
  slot_active s * 1000 + match slot_cpu s with Some c => util_permille sh c | None => 0 end.

(** The slots of [UdsBalancer::new], each with its CPU cell when it names its
    worker thread. *)
Fixpoint new_slots (sh : shared) (specs : list UdsSlotSpec) : list UdsSlot * shared :=
  match specs with
  | [] => ([], sh)
  | s :: specs' =>
      let '(cpu, sh1) :=
        match spec_pid s, spec_tid s with
        | Some pid, Some tid => let '(c, sh') := new_cpu sh (spec_path s) pid tid in (Some c, sh')
        | _, _ => (None, sh)
        end in
      let '(rest, sh2) := new_slots sh1 specs' in
      (mkSlot (spec_path s) 0 None cpu :: rest, sh2)
  end.

(** [affinity_ttl_ms * 1_000_000] is computed in u64, where a release build wraps. *)
Definition UdsBalancer_new (sh : shared) (specs : list UdsSlotSpec) (ip_affinity : bool)
    (affinity_ttl_ms : Z) : UdsBalancer * shared :=
  let '(slots, sh1) := new_slots sh specs in
  (mkBalancer slots
     (if ip_affinity then Some (mkAffinity ∅ ((affinity_ttl_ms * 1000000) mod (u64_max + 1))) else None)
     (next_cell sh1) (next_cell sh1),
   mkShared (healths sh1) (cpus sh1) (S (next_cell sh1))).

(** ** Continuing a previous balancer *)

Definition slot_id (sh : shared) (s : UdsSlot) : bytes * Z * Z :=
  match slot_cpu s with Some c => configured sh c | None => (slot_path s, 0, 0) end.

(** [ids.sort_unstable()] and [==]: the same identities with the same
    multiplicities. *)
Definition same_multiset (a b : list (bytes * Z * Z)) : bool :=
  (length a =? length b)%nat &&
  forallb (fun x => length (filter (eq x) a) =? length (filter (eq x) b))%nat a.

Definition inherit_cpu (sh : shared) (previous : UdsBalancer) (s : UdsSlot) : UdsSlot :=
  match slot_cpu s with
  | None => s
  | Some c =>
      match find_first (fun p => bool_decide (configured sh p = configured sh c))
              (omap slot_cpu (sockets previous)) with
      | Some inherited => mkSlot (slot_path s) (slot_active s) (slot_health s) (Some inherited)
      | None => s
      end
  end.

Definition with_cpu_from (sh : shared) (b : UdsBalancer) (previous : option UdsBalancer) : UdsBalancer :=
  match previous with
  | None => b
  | Some prev =>
      let slots := inherit_cpu sh prev <$> sockets b in
      mkBalancer slots (affinity b)
        (if same_multiset (slot_id sh <$> slots) (slot_id sh <$> sockets prev)
         then load prev else load b) (arc b)
  end.

Definition inherited_health (previous : option UdsBalancer) (path : bytes) : option nat :=
  match previous with
  | None => None
  | Some prev =>
      match find_first (fun p => bytes_eqb (slot_path p) path) (sockets prev) with
      | Some p => slot_health p
      | None => None
      end
  end.

Fixpoint track_slots (sh : shared) (previous : option UdsBalancer) (refuse_new : bool) (now : Z)
    (slots : list UdsSlot) : list UdsSlot * shared :=
  match slots with
  | [] => ([], sh)
  | s :: slots' =>
      let '(h, sh1) :=
        match inherited_health previous (slot_path s) with
        | Some h => (h, sh)
        | None => new_health sh refuse_new now
        end in
      let '(rest, sh2) := track_slots sh1 previous refuse_new now slots' in
      (mkSlot (slot_path s) (slot_active s) (Some h) (slot_cpu s) :: rest, sh2)
  end.

Definition with_health (sh : shared) (b : UdsBalancer) (previous : option UdsBalancer)
    (refuse_new : bool) (now : Z) : UdsBalancer * shared :=
  let '(slots, sh1) := track_slots sh previous refuse_new now (sockets b) in
  (mkBalancer slots (affinity b) (load b) (arc b), sh1).

Definition spec_of_slot (sh : shared) (s : UdsSlot) : UdsSlotSpec :=
  match slot_cpu s with
  | Some c => let '(_, pid, tid) := configured sh c in mkSpec (slot_path s) (Some pid) (Some tid)
  | None => mkSpec (slot_path s) None None
  end.

Definition retracked (sh : shared) (b : UdsBalancer) (track : bool) (now : Z) : UdsBalancer * shared :=
  let '(aff, ttl_ms) :=
    match affinity b with Some a => (true, ttl_ns a / 1000000) | None => (false, 0) end in
  let '(b1, sh1) := UdsBalancer_new sh (spec_of_slot sh <$> sockets b) aff ttl_ms in
  let b2 := with_cpu_from sh1 b1 (Some b) in
  if track then with_health sh1 b2 (Some b) false now else (b2, sh1).

(** ** Choosing a slot *)

(** The key [(refusing, score)], compared lexicographically with false < true. *)
Definition key_le (a b : bool * Z) : bool :=
  match a.1, b.1 with
  | false, true => true
  | true, false => false
  | _, _ => a.2 <=? b.2
  end.

Definition slot_key (sh : shared) (s : UdsSlot) : bool * Z := (slot_refusing sh s, score sh s).

Definition indexed_le (sh : shared) (a b : nat * UdsSlot) : bool :=
  key_le (slot_key sh a.2) (slot_key sh b.2).

Definition enumerate {A} (l : list A) : list (nat * A) := zip (seq 0 (length l)) l.

Definition best_score_idx (sh : shared) (b : UdsBalancer) : nat :=
  default O (fst <$> min_by (indexed_le sh) (enumerate (sockets b))).

Definition next_untried (sh : shared) (b : UdsBalancer) (tried : list bool) : option nat :=
  fst <$> min_by (indexed_le sh)
    (List.filter (fun e => negb (default false (tried !! e.1))) (enumerate (sockets b))).

Definition bind_affinity (b : UdsBalancer) (ip : IpAddr) (idx : nat) (now : Z) : UdsBalancer :=
  match affinity b with
  | Some aff =>
      mkBalancer (sockets b)
        (Some (mkAffinity (<[ip := mkEntry (Z.to_nat (Z.of_nat idx mod (u32_max + 1))) now]> (entries aff))
                 (ttl_ns aff)))
        (load b) (arc b)
  | None => b
  end.

Definition rebind_affinity (b : UdsBalancer) (peer_ip : option IpAddr) (idx : nat) (now : Z) : UdsBalancer :=
  match affinity b, peer_ip with
  | Some _, Some ip => bind_affinity b ip idx now
  | _, _ => b
  end.

(** The sticky slot of an address, when it is still to be honoured. *)
Definition sticky_idx (sh : shared) (b : UdsBalancer) (aff : AffinityMap) (ip : IpAddr) (now : Z)
    : option nat :=
  match entries aff !! ip with
  | Some e =>
      match sockets b !! socket_idx e with
      | Some s =>
          if (saturating_sub now (last_seen_ns e) <? ttl_ns aff) && negb (slot_refusing sh s)
          then Some (socket_idx e) else None
      | None => None
      end
  | None => None
  end.

Definition pick (sh : shared) (b : UdsBalancer) (peer_ip : option IpAddr) (now : Z)
    : option nat * UdsBalancer :=
  match sockets b with
  | [] => (None, b)
  | _ =>
      match affinity b, peer_ip with
      | Some aff, Some ip =>
          match sticky_idx sh b aff ip now with
          | Some idx =>
              (Some idx, mkBalancer (sockets b)
                 (Some (mkAffinity (<[ip := mkEntry idx now]> (entries aff)) (ttl_ns aff))) (load b) (arc b))
          | None => let idx := best_score_idx sh b in (Some idx, bind_affinity b ip idx now)
          end
      | _, _ => (Some (best_score_idx sh b), b)
      end
  end.

Definition slot_count (b : UdsBalancer) : nat := length (sockets b).

Definition all_refusing (sh : shared) (b : UdsBalancer) : bool :=
  negb (bool_decide (sockets b = [])) &&
  forallb (slot_refusing sh) (sockets b).

Definition tracked_slots (b : UdsBalancer) : list (bytes * nat) :=
  omap (fun s => (fun h => (slot_path s, h)) <$> slot_health s) (sockets b).

(** ** Connection counts *)

(** The first slot with the path; the others are left alone. *)
Fixpoint adjust_path (f : Z -> Z) (path : bytes) (slots : list UdsSlot) : list UdsSlot :=
  match slots with
  | [] => []
  | s :: slots' =>
      if bytes_eqb (slot_path s) path
      then mkSlot (slot_path s) (f (slot_active s)) (slot_health s) (slot_cpu s) :: slots'
      else s :: adjust_path f path slots'
  end.

Definition increment (b : UdsBalancer) (path : bytes) : UdsBalancer :=
  mkBalancer (adjust_path (fun v => u32_wrapping_add v 1) path (sockets b)) (affinity b) (load b) (arc b).
Definition decrement (b : UdsBalancer) (path : bytes) : UdsBalancer :=
  mkBalancer (adjust_path (fun v => saturating_sub v 1) path (sockets b)) (affinity b) (load b) (arc b).

(** [BalancerGuard::new] and its [Drop]. *)
Definition BalancerGuard_new (b : UdsBalancer) (path : bytes) : bytes * UdsBalancer := (path, increment b path).
Definition BalancerGuard_drop (b : UdsBalancer) (guard : bytes) : UdsBalancer := decrement b guard.

Definition has_affinity (b : UdsBalancer) : bool := bool_decide (is_Some (affinity b)).

Definition evict_affinity (b : UdsBalancer) (now : Z) : UdsBalancer :=
  match affinity b with
  | None => b
  | Some aff =>
      mkBalancer (sockets b)
        (Some (mkAffinity
           (filter (fun e => saturating_sub now (last_seen_ns e.2) < ttl_ns aff) (entries aff))
           (ttl_ns aff)))
        (load b) (arc b)
  end.

Definition has_monitored_slots (b : UdsBalancer) : bool :=
  existsb (fun s => bool_decide (is_Some (slot_cpu s))) (sockets b).
Definition thread_cpus (b : UdsBalancer) : list nat := omap slot_cpu (sockets b).
Definition shares_load_with (a b : UdsBalancer) : bool := (load a =? load b)%nat.

(** ** Connecting (src/src/upstream.rs) *)

Inductive io_kind : Type :=
  | ConnectionRefused
  | NotFound
  | TimedOut
  | WouldBlock
  | HostUnreachable
  | NetworkUnreachable
  | NetworkDown
  | OsHostDown
  | OtherKind.

Definition is_refusal (e : io_kind) : bool := match e with OtherKind => false | _ => true end.

Inductive connect_error : Type :=
  | NoSockets
  | ConnectIo (e : io_kind).

(** What the world answers: the outcome of the [k]th connect, given the path
    ([None] is an accepted connection); whether the deadline has passed when it
    is looked at after the [k]th failure; and the clock at the [k]th attempt. *)
Record world : Type := mkWorld {
  outcome : nat -> bytes -> option io_kind;
  deadline_passed : nat -> bool;
  clock : nat -> Z;
}.

Record uds_result : Type := mkUds {
  uds_result_of : result connect_error nat;
  uds_attempts : list nat;
  uds_balancer : UdsBalancer;
  uds_shared : shared;
}.

(** The loop, one iteration per attempt ([k]). [tried] is empty until a slot has
    refused. Each attempt that goes on marks a new slot, so as many iterations
    as there are slots are enough. *)
Fixpoint connect_loop (fuel : nat) (w : world) (sh : shared) (b : UdsBalancer)
    (peer_ip : option IpAddr) (tried : list bool) (idx k : nat) (attempts : list nat) : option uds_result :=
  match fuel with
  | O => None
  | S fuel' =>
      match sockets b !! idx with
      | None => None
      | Some s =>
          let attempts := attempts ++ [idx] in
          match outcome w k (slot_path s) with
          | None =>
              let b1 := match tried with [] => b | _ => rebind_affinity b peer_ip idx (clock w k) end in
              let '(_, b2) := BalancerGuard_new b1 (slot_path s) in
              Some (mkUds (Ok idx) attempts b2 sh)
          | Some e =>
              if is_refusal e then
                let sh1 := match slot_health s with
                           | Some h => mark_refused sh h (clock w k)
                           | None => sh
                           end in
                let tried := match tried with [] => replicate (slot_count b) false | _ => tried end in
                let tried := <[idx := true]> tried in
                match next_untried sh1 b tried with
                | Some next =>
                    if deadline_passed w k then Some (mkUds (Err (ConnectIo e)) attempts b sh1)
                    else connect_loop fuel' w sh1 b peer_ip tried next (S k) attempts
                | None => Some (mkUds (Err (ConnectIo e)) attempts b sh1)
                end
              else Some (mkUds (Err (ConnectIo e)) attempts b sh)
          end
      end
  end.

Definition connect_uds (w : world) (sh : shared) (b : UdsBalancer) (peer_ip : option IpAddr) (now : Z)
    : option uds_result :=
  match pick sh b peer_ip now with
  | (None, b) => Some (mkUds (Err NoSockets) [] b sh)
  | (Some idx, b) => connect_loop (slot_count b) w sh b peer_ip [] idx 0 []
  end.

(** ** Lemmas: choosing *)

Lemma key_le_refl a : key_le a a = true.
Proof. destruct a as [[] z]; apply Z.leb_refl. Qed.

Lemma key_le_trans a b c : key_le a b = true -> key_le b c = true -> key_le a c = true.
Proof. destruct a as [[] x], b as [[] y], c as [[] z]; unfold key_le; simpl; rewrite ?Z.leb_le; try done; lia. Qed.

Lemma key_le_total a b : key_le a b = true \/ key_le b a = true.
Proof. destruct a as [[] x], b as [[] y]; unfold key_le; simpl; rewrite ?Z.leb_le; auto; lia. Qed.

Lemma enumerate_snoc {A} (l : list A) a : enumerate (l ++ [a]) = enumerate l ++ [(length l, a)].
Proof.
  unfold enumerate. rewrite length_app, seq_app. simpl. rewrite zip_with_app; [done |]. by rewrite length_seq.
Qed.

Lemma elem_of_enumerate {A} (l : list A) i a : (i, a) ∈ enumerate l <-> l !! i = Some a.
Proof.
  unfold enumerate. rewrite elem_of_lookup_zip_with. split.
  - intros (j & x & y & [= -> ->] & Hx & Hy). apply lookup_seq in Hx as [-> _]. done.
  - intros Hi. exists i, i, a. split_and!; [done | | done].
    apply lookup_seq. split; [done |]. by apply lookup_lt_Some in Hi.
Qed.

Lemma lookup_enumerate {A} (l : list A) i j a : enumerate l !! i = Some (j, a) <-> j = i /\ l !! i = Some a.
Proof.
  unfold enumerate. rewrite lookup_zip_with_Some. split.
  - intros (x & y & [= -> ->] & Hx & Hy). apply lookup_seq in Hx as [-> _]. done.
  - intros [-> Hl]. exists i, a. split_and!; [done | | done]. apply lookup_seq. split; [done | by eapply lookup_lt_Some].
Qed.

Section Choosing.
Context (sh : shared) (b : UdsBalancer).

Lemma indexed_min l m :
  min_by (indexed_le sh) l = Some m -> m ∈ l /\ forall a, a ∈ l -> indexed_le sh m a = true.
Proof.
  apply min_by_spec; unfold indexed_le; eauto using key_le_refl, key_le_trans, key_le_total.
Qed.

Lemma best_score_spec :
  sockets b <> [] ->
  exists s, sockets b !! best_score_idx sh b = Some s /\
    forall j s', sockets b !! j = Some s' -> key_le (slot_key sh s) (slot_key sh s') = true.
Proof.
  intros Hne. unfold best_score_idx.
  destruct (min_by (indexed_le sh) (enumerate (sockets b))) as [[i s]|] eqn:E.
  - apply indexed_min in E as [Hin Hmin]. apply elem_of_enumerate in Hin. exists s. split; [done |].
    intros j s' Hj. apply (Hmin (j, s')). by apply elem_of_enumerate.
  - apply min_by_None in E. destruct (sockets b) as [|s l]; done.
Qed.

Lemma next_untried_Some tried i :
  next_untried sh b tried = Some i ->
  exists s, sockets b !! i = Some s /\ tried !! i <> Some true /\
    forall j s', sockets b !! j = Some s' -> tried !! j <> Some true ->
      key_le (slot_key sh s) (slot_key sh s') = true.
Proof.
  unfold next_untried. destruct (min_by _ _) as [[i' s]|] eqn:E; [|done]. intros [= <-].
  apply indexed_min in E as [Hin Hmin].
  apply list_elem_of_In, filter_In in Hin as [Hin Ht]. apply list_elem_of_In, elem_of_enumerate in Hin.
  exists s. split; [done |]. split.
  - intros Heq. simpl in Ht. by rewrite Heq in Ht.
  - intros j s' Hj Htj. apply (Hmin (j, s')). apply list_elem_of_In, filter_In. split.
    + by apply list_elem_of_In, elem_of_enumerate.
    + simpl. destruct (tried !! j) as [[]|]; done.
Qed.

Lemma next_untried_None tried j s :
  next_untried sh b tried = None -> sockets b !! j = Some s -> tried !! j = Some true.
Proof.
  unfold next_untried. destruct (min_by _ _) eqn:E; [done |]. intros _ Hj.
  apply min_by_None in E.
  destruct (tried !! j) as [[]|] eqn:Ht; [done | |];
    (assert (In (j, s) []) as Hin; [|by destruct Hin]);
    rewrite <- E; apply filter_In;
    (split; [by apply list_elem_of_In, elem_of_enumerate | simpl; by rewrite Ht]).
Qed.
End Choosing.

(** ** Lemmas: the connect loop *)

Section Connecting.
Context (w : world) (b : UdsBalancer).

(** The attempts before the last: refused, and the deadline not reached. *)
Definition refused_prefix (attempts : list nat) : Prop :=
  forall k i s, attempts !! k = Some i -> sockets b !! i = Some s ->
    exists e, outcome w k (slot_path s) = Some e /\ is_refusal e = true /\ deadline_passed w k = false.

(** The result of the loop: each slot at most once, every attempt before the
    last refused, and the last one decides. *)
Definition uds_ok (r : uds_result) : Prop :=
  NoDup (uds_attempts r) /\ Forall (fun i => (i < slot_count b)%nat) (uds_attempts r) /\
  exists pre last s, uds_attempts r = pre ++ [last] /\ sockets b !! last = Some s /\ refused_prefix pre /\
    match uds_result_of r with
    | Ok i => i = last /\ outcome w (length pre) (slot_path s) = None
    | Err (ConnectIo e) =>
        outcome w (length pre) (slot_path s) = Some e /\
        (is_refusal e = false \/ deadline_passed w (length pre) = true \/
         forall i, (i < slot_count b)%nat -> i ∈ uds_attempts r)
    | Err NoSockets => False
    end.

Definition tried_ok (tried : list bool) (attempts : list nat) : Prop :=
  (tried = [] /\ attempts = []) \/
  (length tried = slot_count b /\ forall j, tried !! j = Some true <-> j ∈ attempts).

Lemma nodup_below n l : NoDup l -> Forall (fun i => (i < n)%nat) l -> (length l <= n)%nat.
Proof.
  intros Hnd Hall. rewrite <- (length_seq n 0). apply NoDup_incl_length; [by apply NoDup_ListNoDup |].
  intros i Hi. apply in_seq. rewrite Forall_forall in Hall. specialize (Hall i Hi). simpl in Hall. lia.
Qed.

Lemma tried_mark tried attempts idx :
  tried_ok tried attempts -> (idx < slot_count b)%nat ->
  let tried' := <[idx := true]> (match tried with [] => replicate (slot_count b) false | _ => tried end) in
  length tried' = slot_count b /\ forall j, tried' !! j = Some true <-> j ∈ attempts ++ [idx].
Proof.
  intros Ht Hidx.
  assert (exists base, match tried with [] => replicate (slot_count b) false | _ => tried end = base /\
    length base = slot_count b /\ forall j, base !! j = Some true <-> j ∈ attempts) as (base & -> & Hl & Hb).
  { destruct Ht as [[-> ->]|[Hl Hb]].
    - exists (replicate (slot_count b) false). split; [done |]. split; [apply length_replicate |].
      intros j. split; [|by intros ?%elem_of_nil]. intros Hj%lookup_replicate. by destruct Hj.
    - destruct tried as [|t tried]; [simpl in Hl; lia |]. by exists (t :: tried). }
  cbv zeta. rewrite length_insert. split; [done |]. intros j.
  rewrite elem_of_app, list_elem_of_singleton.
  destruct (decide (j = idx)) as [->|Hne].
  - rewrite list_lookup_insert_eq by lia. tauto.
  - rewrite list_lookup_insert_ne by done. rewrite Hb. tauto.
Qed.

Lemma connect_loop_spec fuel sh ip tried idx k attempts :
  tried_ok tried attempts -> NoDup (attempts ++ [idx]) ->
  Forall (fun i => (i < slot_count b)%nat) (attempts ++ [idx]) ->
  length attempts = k -> refused_prefix attempts -> (slot_count b <= fuel + k)%nat ->
  exists r, connect_loop fuel w sh b ip tried idx k attempts = Some r /\ uds_ok r.
Proof.
  revert sh tried idx k attempts; induction fuel as [|fuel IH]; intros sh tried idx k attempts Ht Hnd Hall Hk Hpre Hf.
  { pose proof (nodup_below _ _ Hnd Hall) as Hl. rewrite length_app in Hl. simpl in Hl. lia. }
  pose proof Hall as Hidx. apply Forall_app in Hidx as [_ Hidx]. apply Forall_inv in Hidx.
  destruct (lookup_lt_is_Some_2 (sockets b) idx Hidx) as [s Hs].
  cbn [connect_loop]. rewrite Hs. cbv zeta.
  destruct (outcome w k (slot_path s)) as [e|] eqn:Ho.
  2: { eexists. split; [reflexivity |]. split; [done |]. split; [done |].
       exists attempts, idx, s. rewrite Hk. done. }
  destruct (is_refusal e) eqn:He.
  2: { eexists. split; [reflexivity |]. split; [done |]. split; [done |].
       exists attempts, idx, s. rewrite Hk. split_and!; [done | done | done | split; [done | by left]]. }
  destruct (tried_mark tried attempts idx Ht Hidx) as [Hl' Ht'].
  set (tried' := <[idx := true]> _) in *.
  match goal with |- context [next_untried ?x b tried'] => set (sh1 := x) end.
  destruct (next_untried sh1 b tried') as [next|] eqn:Hnext.
  2: { eexists. split; [reflexivity |]. split; [done |]. split; [done |].
       exists attempts, idx, s. rewrite Hk. split_and!; [done | done | done |]. split; [done |]. right; right.
       intros i Hi. destruct (lookup_lt_is_Some_2 (sockets b) i Hi) as [s' Hs'].
       cbn [uds_attempts]. apply Ht'. by eapply next_untried_None. }
  destruct (deadline_passed w k) eqn:Hd.
  { eexists. split; [reflexivity |]. split; [done |]. split; [done |].
    exists attempts, idx, s. rewrite Hk. split_and!; [done | done | done |]. split; [done | by right; left]. }
  apply next_untried_Some in Hnext as (s' & Hs' & Hnt & _).
  apply IH; [by right | | | by rewrite length_app, Hk, Nat.add_1_r | | lia].
  - apply list.NoDup_app. split; [done |]. split; [|apply NoDup_singleton].
    intros j Hj ->%list_elem_of_singleton. apply Hnt, Ht', Hj.
  - apply Forall_app. split; [done |]. constructor; [|constructor]. by apply lookup_lt_Some in Hs'.
  - intros j i si Hi Hsi. apply lookup_app_Some in Hi as [Hi|[Hlen Hi]]; [by eapply Hpre |].
    apply list_lookup_singleton_Some in Hi as [Hj <-]. assert (j = k) as -> by lia.
    simplify_eq. eauto.
Qed.
End Connecting.

Lemma pick_sockets sh b ip now : sockets (pick sh b ip now).2 = sockets b.
Proof.
  unfold pick, bind_affinity. destruct (sockets b) eqn:E; [done |].
  destruct (affinity b) as [aff|], ip as [ip|]; try done. destruct (sticky_idx _ _ _ _ _); done.
Qed.

Lemma pick_None sh b ip now : (pick sh b ip now).1 = None -> sockets b = [].
Proof.
  unfold pick. destruct (sockets b); [done |].
  destruct (affinity b), ip; try done. by destruct (sticky_idx _ _ _ _ _).
Qed.

(** The picked slot exists, and is refusing only if every slot is. *)
Lemma pick_spec sh b ip now i :
  (pick sh b ip now).1 = Some i ->
  exists s, sockets b !! i = Some s /\
    (slot_refusing sh s = true -> forall j s', sockets b !! j = Some s' -> slot_refusing sh s' = true).
Proof.
  intros Hpick.
  assert (sockets b <> []) as Hne by (intros Hnil; unfold pick in Hpick; by rewrite Hnil in Hpick).
  assert (i = best_score_idx sh b \/ exists aff ip', affinity b = Some aff /\ sticky_idx sh b aff ip' now = Some i)
    as [->|(aff & ip' & _ & Hst)].
  { unfold pick in Hpick. destruct (sockets b) eqn:E; [done |].
    destruct (affinity b) as [aff|], ip as [ip|]; simplify_eq/=; auto.
    destruct (sticky_idx sh b aff ip now) eqn:Hst; simplify_eq/=; eauto. }
  - destruct (best_score_spec sh b Hne) as (s & Hs & Hmin). exists s. split; [done |].
    intros Hr j s' Hj. specialize (Hmin j s' Hj). unfold key_le, slot_key in Hmin. simpl in Hmin.
    rewrite Hr in Hmin. by destruct (slot_refusing sh s').
  - unfold sticky_idx in Hst. destruct (entries aff !! ip') as [e|]; [|done].
    destruct (sockets b !! socket_idx e) as [s|] eqn:Hs; [|done].
    case_match eqn:E; simplify_eq. bool_to_prop. exists s. split; [done |]. congruence.
Qed.

Lemma connect_uds_spec w sh b ip now :
  sockets b <> [] ->
  exists r, connect_uds w sh b ip now = Some r /\ uds_ok w b r.
Proof.
  intros Hne. unfold connect_uds. pose proof (pick_sockets sh b ip now) as Hsock.
  destruct (pick sh b ip now) as [[i|] b'] eqn:Hpick; simpl in Hsock.
  2: { destruct Hne. apply (pick_None sh b ip now). by rewrite Hpick. }
  destruct (pick_spec sh b ip now i) as (s & Hs & _); [by rewrite Hpick |].
  assert (i < slot_count b)%nat as Hi by by apply lookup_lt_Some in Hs.
  assert (slot_count b' = slot_count b) as Hcount by by unfold slot_count; rewrite Hsock.
  destruct (connect_loop_spec w b' (slot_count b') sh ip [] i 0 []) as (r & Hr & Hok).
  - by left.
  - apply NoDup_singleton.
  - constructor; [by rewrite Hcount | constructor].
  - done.
  - intros k j sj Hj. by rewrite lookup_nil in Hj.
  - lia.
  - exists r. split; [done |]. unfold uds_ok, refused_prefix in *. by rewrite Hcount, Hsock in Hok.
Qed.

(** ** Lemmas: continuing a previous balancer *)

Lemma track_slots_spec sh prev refuse_new now slots slots' sh' :
  track_slots sh (Some prev) refuse_new now slots = (slots', sh') ->
  Forall2 (fun s s' => slot_path s' = slot_path s /\ slot_cpu s' = slot_cpu s /\
    slot_active s' = slot_active s /\
    match inherited_health (Some prev) (slot_path s) with
    | Some h => slot_health s' = Some h
    | None => exists h, slot_health s' = Some h /\
        (next_cell sh <= h < next_cell sh')%nat /\ refusing sh' h = refuse_new
    end) slots slots' /\
  (next_cell sh <= next_cell sh')%nat /\
  (forall h, (h < next_cell sh)%nat -> healths sh' !! h = healths sh !! h).
Proof.
  revert sh slots' sh'; induction slots as [|s slots IH]; intros sh slots' sh' Htrack.
  { injection Htrack as <- <-. split_and!; [constructor | lia | done]. }
  cbn [track_slots] in Htrack.
  destruct (match inherited_health (Some prev) (slot_path s) with
            | Some h => (h, sh) | None => new_health sh refuse_new now end) as [h sh1] eqn:Hh.
  destruct (track_slots sh1 (Some prev) refuse_new now slots) as [rest sh2] eqn:Hrest.
  injection Htrack as <- <-. destruct (IH _ _ _ Hrest) as (Hall & Hnext & Hold).
  destruct (inherited_health (Some prev) (slot_path s)) as [h0|] eqn:Hin; injection Hh as <- <-.
  - split_and!; [constructor; [by rewrite Hin | done] | done | done].
  - simpl in Hnext, Hold. split_and!; [constructor | lia |].
    + rewrite Hin. split_and!; try done. exists (next_cell sh). split_and!; [done | lia | lia |].
      unfold refusing, refused_at. rewrite Hold by lia. rewrite lookup_insert_eq. simpl.
      destruct refuse_new; [|done]. by rewrite (proj2 (Z.eqb_neq _ _)) by lia.
    + eapply Forall2_impl; [|exact Hall]. intros x x' (? & ? & ? & Hx). split_and!; try done.
      revert Hx. destruct (inherited_health (Some prev) (slot_path x)); [done |]. intros (hx & ? & [? ?] & ?).
      simpl in *. exists hx. split_and!; try done. lia.
    + intros hx Hlt. rewrite Hold by lia. rewrite lookup_insert_ne by lia. done.
Qed.

(** ** Properties *)

Module Properties.

(** The balancer picks an existing slot, picks a refusing one only when every
    slot is refusing, and without affinity picks the least loaded among the
    slots it may use (active connections first, worker CPU as the tie-break). *)
Theorem pick_prefers_accepting_slots sh b ip now i :
  (pick sh b ip now).1 = Some i ->
  exists s, sockets b !! i = Some s /\
    (slot_refusing sh s = true -> forall j s', sockets b !! j = Some s' -> slot_refusing sh s' = true) /\
    (affinity b = None -> forall j s', sockets b !! j = Some s' ->
       slot_refusing sh s' = slot_refusing sh s -> score sh s <= score sh s').
Proof.
  intros Hpick. destruct (pick_spec sh b ip now i Hpick) as (s & Hs & Href).
  exists s. split_and!; [done | done |]. intros Haff j s' Hj Hsame.
  assert (sockets b <> []) as Hne by (intros Hnil; by rewrite Hnil in Hs).
  assert (i = best_score_idx sh b) as ->.
  { unfold pick in Hpick. rewrite Haff in Hpick. destruct (sockets b); [done |]. by injection Hpick. }
  destruct (best_score_spec sh b Hne) as (s0 & Hs0 & Hmin). simplify_eq.
  specialize (Hmin j s' Hj). unfold key_le, slot_key in Hmin. simpl in Hmin. rewrite Hsame in Hmin.
  by destruct (slot_refusing sh s); apply Z.leb_le.
Qed.

Definition two_slots : UdsBalancer :=
  mkBalancer [mkSlot (bs "/a") 0 (Some 0%nat) None; mkSlot (bs "/b") 3 (Some 1%nat) None] None 2 2.
Definition first_refusing : shared := mkShared {[0%nat := 77; 1%nat := 0]} ∅ 3.

Lemma pick_prefers_accepting_slots_witness :
  exists s, sockets two_slots !! 1%nat = Some s /\ (slot_refusing first_refusing s = true ->
    forall j s', sockets two_slots !! j = Some s' -> slot_refusing first_refusing s' = true).
Proof.
  destruct (pick_prefers_accepting_slots first_refusing two_slots None 0 1) as (s & Hs & Href & _);
    [by vm_compute | eauto].
Defined.

(** Connecting through a balancer tries each slot at most once and always
    returns: every attempt before the last was refused in time, and it gives up
    only on an error that is not a refusal, at the deadline, or when every slot
    has been tried. *)
Theorem connect_tries_each_slot_once w sh b ip now :
  sockets b <> [] ->
  exists r, connect_uds w sh b ip now = Some r /\
    NoDup (uds_attempts r) /\
    exists pre last s, uds_attempts r = pre ++ [last] /\ sockets b !! last = Some s /\
      refused_prefix w b pre /\
      match uds_result_of r with
      | Ok i => i = last /\ outcome w (length pre) (slot_path s) = None
      | Err (ConnectIo e) =>
          outcome w (length pre) (slot_path s) = Some e /\
          (is_refusal e = false \/ deadline_passed w (length pre) = true \/
           forall i, (i < slot_count b)%nat -> i ∈ uds_attempts r)
      | Err NoSockets => False
      end.
Proof.
  intros Hne. destruct (connect_uds_spec w sh b ip now Hne) as (r & Hr & Hnd & _ & Hrest). eauto.
Qed.

Definition second_accepts : world :=
  mkWorld (fun _ p => if bytes_eqb p (bs "/b") then None else Some NotFound) (fun _ => false) (fun k => Z.of_nat k).

Lemma connect_tries_each_slot_once_witness :
  exists r, connect_uds second_accepts (mkShared ∅ ∅ 3) two_slots None 0 = Some r /\
    NoDup (uds_attempts r).
Proof.
  destruct (connect_tries_each_slot_once second_accepts (mkShared ∅ ∅ 3) two_slots None 0)
    as (r & Hr & Hnd & _); [done | eauto].
Defined.

(** C27: One live socket is enough: when some slot accepts and the others do no
    worse than refuse, a connect within its deadline succeeds, whichever slot
    was picked first. *)
Theorem connect_reaches_an_accepting_slot w sh b ip now i s :
  sockets b !! i = Some s -> (forall k, outcome w k (slot_path s) = None) ->
  (forall k p e, outcome w k p = Some e -> is_refusal e = true) ->
  (forall k, deadline_passed w k = false) ->
  exists r j, connect_uds w sh b ip now = Some r /\ uds_result_of r = Ok j.
Proof.
  intros Hs Haccept Hrefuse Hdeadline.
  assert (sockets b <> []) as Hne by (intros Hnil; by rewrite Hnil in Hs).
  destruct (connect_uds_spec w sh b ip now Hne) as (r & Hr & _ & _ & pre & last & sl & Hatt & Hsl & Hpre & Hres).
  exists r. destruct (uds_result_of r) as [j|[|e]] eqn:Hresult; [eauto | done |]. exfalso.
  destruct Hres as [Ho [He|[Hd|Hall]]].
  - by rewrite (Hrefuse _ _ _ Ho) in He.
  - by rewrite Hdeadline in Hd.
  - specialize (Hall i (lookup_lt_Some _ _ _ Hs)). rewrite Hatt in Hall.
    apply elem_of_app in Hall as [Hin|Hin%list_elem_of_singleton].
    + apply list_elem_of_lookup in Hin as [k Hk].
      destruct (Hpre k i s Hk Hs) as (e' & Ho' & _). by rewrite Haccept in Ho'.
    + subst. simplify_eq. by rewrite Haccept in Ho.
Qed.

Lemma connect_reaches_an_accepting_slot_witness :
  exists r j, connect_uds second_accepts (mkShared ∅ ∅ 3) two_slots None 0 = Some r /\
    uds_result_of r = Ok j.
Proof.
  apply (connect_reaches_an_accepting_slot second_accepts (mkShared ∅ ∅ 3) two_slots None 0 1
           (mkSlot (bs "/b") 3 (Some 1%nat) None)).
  - done.
  - intros k. by vm_compute.
  - intros k p e. unfold second_accepts. simpl. case_match; [done |]. by intros [= <-].
  - done.
Defined.

(** A rebuilt balancer does not forget, and does not detach, what is in
    flight: a slot whose path the previous balancer tracked keeps that very
    health cell, so a refusal recorded by a connection still running on the old
    table is seen by the new one, and a path it did not track starts refusing
    exactly when the rebuild asks for it. *)
Theorem rebuild_shares_health sh b prev refuse_new now b' sh' i s' now' :
  with_health sh b (Some prev) refuse_new now = (b', sh') -> sockets b' !! i = Some s' ->
  exists h, slot_health s' = Some h /\
  match inherited_health (Some prev) (slot_path s') with
  | Some h0 => h0 = h /\ slot_refusing (mark_refused sh' h0 now') s' = true
  | None => slot_refusing sh' s' = refuse_new
  end.
Proof.
  unfold with_health. destruct (track_slots sh (Some prev) refuse_new now (sockets b)) as [slots sh1] eqn:E.
  intros [= <- <-] Hi. simpl in Hi. apply track_slots_spec in E as (Hall & _ & _).
  destruct (Forall2_lookup_r _ _ _ _ _ Hall Hi) as (s & _ & Hp & _ & _ & Hh). rewrite <- Hp in Hh.
  destruct (inherited_health (Some prev) (slot_path s')) as [h|].
  - exists h. split_and!; [done | done |]. unfold slot_refusing. rewrite Hh.
    unfold refusing, refused_at, mark_refused, set_health. simpl. rewrite lookup_insert_eq. simpl.
    by rewrite (proj2 (Z.eqb_neq _ _)) by lia.
  - destruct Hh as (h & Hh & _ & Hr). exists h. split; [done |]. unfold slot_refusing. by rewrite Hh.
Qed.

Lemma rebuild_shares_health_witness :
  exists h, Some 5%nat = Some h /\ h = 5%nat /\
    slot_refusing (mark_refused (mkShared ∅ ∅ 9) 5 42) (mkSlot (bs "/a") 0 (Some 5%nat) None) = true.
Proof.
  destruct (rebuild_shares_health (mkShared ∅ ∅ 9) (mkBalancer [mkSlot (bs "/a") 0 None None] None 8 8)
    (mkBalancer [mkSlot (bs "/a") 2 (Some 5%nat) None] None 7 7) true 3
    (mkBalancer [mkSlot (bs "/a") 0 (Some 5%nat) None] None 8 8) (mkShared ∅ ∅ 9) 0
    (mkSlot (bs "/a") 0 (Some 5%nat) None) 42 eq_refl eq_refl) as (h & Hh & Hrest).
  exists 5%nat. split; [done |]. split; [done |]. apply Hrest.
Defined.

(** Evicting affinity entries never changes where a client goes: [pick] right
    after [evict_affinity] returns the slot it would have returned without it. *)
Theorem affinity_eviction_is_invisible sh b ip now :
  (pick sh (evict_affinity b now) ip now).1 = (pick sh b ip now).1.
Proof.
  unfold evict_affinity. destruct (affinity b) as [aff|] eqn:Haff; [|done].
  unfold pick. simpl. rewrite Haff. destruct (sockets b) eqn:Hsock; [done |].
  destruct ip as [ip|]; [|by unfold best_score_idx; cbn [sockets fst]; rewrite Hsock].
  assert (sticky_idx sh (mkBalancer (u :: l) (Some (mkAffinity
      (filter (fun e => saturating_sub now (last_seen_ns e.2) < ttl_ns aff) (entries aff)) (ttl_ns aff))) (load b) (arc b))
      (mkAffinity (filter (fun e => saturating_sub now (last_seen_ns e.2) < ttl_ns aff) (entries aff)) (ttl_ns aff))
      ip now = sticky_idx sh b aff ip now) as Hst.
  { unfold sticky_idx. simpl. rewrite Hsock.
    destruct (filter _ (entries aff) !! ip) as [e|] eqn:Hf.
    - apply map_lookup_filter_Some in Hf as [-> _]. done.
    - apply map_lookup_filter_None in Hf as [Hf|Hf]; [by rewrite Hf |].
      destruct (entries aff !! ip) as [e|] eqn:He; [|done]. specialize (Hf e eq_refl). simpl in Hf.
      destruct ((u :: l) !! socket_idx e); [|done].
      by rewrite (proj2 (Z.ltb_ge _ _)) by lia. }
  rewrite Hst. destruct (sticky_idx sh b aff ip now); [done |].
  unfold best_score_idx. cbn [sockets fst]. by rewrite Hsock.
Qed.
End Properties.
