(* ===== verification/BalancerState.v ===== *)
(** * The live state of balancers (src/src/balancer.rs)

    A route table holds a balancer behind an [Arc]: connections that outlive a
    reload keep counting on the balancer they were made through, and two routes
    may share one. What changes in a balancer while it is in use, the active
    count of its slots and its affinity map, is kept here by the balancer's
    [arc], apart from the value a route carries; [balancer_now] puts the two together.
    Counts are kept by path, because that is how the code finds the slot it
    counts on. *)

From S2P Require Import Prelude Bytes Net Balancer.

Open Scope Z_scope.

Record balancers : Type := mkBalancers {
  active_counts : gmap (nat * bytes) Z;
  affinities : gmap nat AffinityMap;
}.

Definition balancers_new : balancers := mkBalancers ∅ ∅.

Definition slot_active_count (bl : balancers) (a : nat) (path : bytes) : Z := default 0 (active_counts bl !! (a, path)).

(** The first slot of each path has the count; a second slot of the same path
    never gets one. *)
Fixpoint live_slots (count : bytes -> Z) (seen : list bytes) (slots : list UdsSlot) : list UdsSlot :=
  match slots with
  | [] => []
  | s :: slots' =>
      (if bool_decide (slot_path s ∈ seen) then s
       else mkSlot (slot_path s) (count (slot_path s)) (slot_health s) (slot_cpu s)) ::
      live_slots count (slot_path s :: seen) slots'
  end.

(** The balancer as it is now. *)
Definition balancer_now (bl : balancers) (b : UdsBalancer) : UdsBalancer :=
  mkBalancer (live_slots (slot_active_count bl (arc b)) [] (sockets b))
    ((fun a => default a (affinities bl !! arc b)) <$> affinity b) (load b) (arc b).

(** [BalancerGuard::new] and its [Drop], on the shared balancer. *)
Definition adjust_count (f : Z -> Z) (bl : balancers) (a : nat) (path : bytes) : balancers :=
  mkBalancers (<[(a, path) := f (slot_active_count bl a path)]> (active_counts bl)) (affinities bl).
Definition guard_new (bl : balancers) (a : nat) (path : bytes) : balancers :=
  adjust_count (fun v => u32_wrapping_add v 1) bl a path.
Definition guard_drop (bl : balancers) (a : nat) (path : bytes) : balancers :=
  adjust_count (fun v => saturating_sub v 1) bl a path.

(** The affinity map a call on the balancer leaves. *)
Definition keep_affinity (bl : balancers) (b : UdsBalancer) : balancers :=
  match affinity b with
  | Some a => mkBalancers (active_counts bl) (<[arc b := a]> (affinities bl))
  | None => bl
  end.

(** [connect_uds] on the shared balancer: the slot that accepted. Other tasks
    move the counts and the affinity while a connect is awaited, so what the
    choices of this one saw ([seen]) need not be what is there now ([bl]). *)
Definition connect_shared (w : world) (sh : shared) (seen bl : balancers) (b : UdsBalancer) (ip : option IpAddr)
    (now : Z) : option bytes * shared * balancers :=
  match connect_uds w sh (balancer_now seen b) ip now with
  | None => (None, sh, bl)
  | Some r =>
      let bl' := keep_affinity bl (uds_balancer r) in
      match uds_result_of r with
      | Ok idx =>
          match sockets b !! idx with
          | Some s => (Some (slot_path s), uds_shared r, guard_new bl' (arc b) (slot_path s))
          | None => (None, uds_shared r, bl')
          end
      | Err _ => (None, uds_shared r, bl')
      end
  end.

(** ** Lemmas: the live slots *)

Lemma live_slots_path count seen slots : slot_path <$> live_slots count seen slots = slot_path <$> slots.
Proof.
  revert seen. induction slots as [|s slots IH]; intros seen; [done |]. simpl. rewrite IH. by case_bool_decide.
Qed.

Lemma live_slots_seen count count' seen slots :
  (forall p, p ∉ seen -> count p = count' p) -> live_slots count seen slots = live_slots count' seen slots.
Proof.
  revert seen. induction slots as [|s slots IH]; intros seen Heq; [done |]. simpl. f_equal.
  - case_bool_decide; [done |]. by rewrite Heq.
  - apply IH. intros p Hp. apply Heq. apply not_elem_of_cons in Hp. naive_solver.
Qed.

Lemma live_slots_adjust f count seen slots path :
  path ∉ seen -> path ∈ slot_path <$> slots ->
  live_slots (fun p => if decide (p = path) then f (count path) else count p) seen slots =
  adjust_path f path (live_slots count seen slots).
Proof.
  revert seen. induction slots as [|s slots IH]; intros seen Hs Hin; [by apply not_elem_of_nil in Hin |].
  simpl. destruct (decide (slot_path s = path)) as [<-|Hne].
  - rewrite bool_decide_eq_false_2 by done. simpl. rewrite (proj2 (bytes_eqb_eq _ _) eq_refl). f_equal.
    apply live_slots_seen. intros p Hp. rewrite decide_False; [done |]. apply not_elem_of_cons in Hp. naive_solver.
  - assert (bytes_eqb (slot_path (if bool_decide (slot_path s ∈ seen) then s
      else mkSlot (slot_path s) (count (slot_path s)) (slot_health s) (slot_cpu s))) path = false) as ->.
    { apply not_true_iff_false. rewrite bytes_eqb_eq. by case_bool_decide. }
    f_equal. apply IH; [rewrite not_elem_of_cons; naive_solver |]. rewrite fmap_cons in Hin. by apply elem_of_cons in Hin as [Hin|Hin].
Qed.

(** What a slot counts is the count of its path, for the first slot of the path. *)
Lemma live_slots_count count seen slots i s :
  live_slots count seen slots !! i = Some s -> slot_path s ∉ seen ->
  slot_path s ∉ take i (slot_path <$> slots) -> slot_active s = count (slot_path s).
Proof.
  revert seen i. induction slots as [|s0 slots IH]; intros seen [|i] Hi Hseen Hfirst; simplify_eq/=.
  - case_bool_decide; simpl in *; done.
  - apply not_elem_of_cons in Hfirst as [Hne Hfirst]. eapply IH; [done | by apply not_elem_of_cons | done].
Qed.

Lemma live_count bl b i s :
  sockets (balancer_now bl b) !! i = Some s -> slot_path s ∉ take i (slot_path <$> sockets b) ->
  slot_active s = slot_active_count bl (arc b) (slot_path s).
Proof. intros Hi Hf. eapply live_slots_count; [exact Hi | apply not_elem_of_nil | exact Hf]. Qed.

Lemma live_adjust f bl b path :
  path ∈ slot_path <$> sockets b ->
  balancer_now (adjust_count f bl (arc b) path) b =
  mkBalancer (adjust_path f path (sockets (balancer_now bl b))) (affinity (balancer_now bl b)) (load b) (arc b).
Proof.
  intros Hin. unfold balancer_now at 1. f_equal. cbn [sockets balancer_now].
  rewrite <- (live_slots_adjust f (slot_active_count bl (arc b))) by (done || apply not_elem_of_nil).
  apply live_slots_seen. intros p _. unfold slot_active_count, adjust_count. simpl.
  case_decide as Hd; [subst; by rewrite lookup_insert_eq | rewrite lookup_insert_ne by congruence; done].
Qed.

(** The guards of the shared balancer are those of [Balancer]. *)
Lemma live_guard_new bl b path :
  path ∈ slot_path <$> sockets b -> balancer_now (guard_new bl (arc b) path) b = (BalancerGuard_new (balancer_now bl b) path).2.
Proof. apply live_adjust. Qed.
Lemma live_guard_drop bl b path :
  path ∈ slot_path <$> sockets b -> balancer_now (guard_drop bl (arc b) path) b = BalancerGuard_drop (balancer_now bl b) path.
Proof. apply live_adjust. Qed.

(** Other balancers and other paths do not notice. *)
Lemma count_of_adjust f bl a p a' p' :
  slot_active_count (adjust_count f bl a p) a' p' =
  if decide ((a, p) = (a', p')) then f (slot_active_count bl a p) else slot_active_count bl a' p'.
Proof.
  unfold slot_active_count, adjust_count. simpl.
  case_decide as Hd; [injection Hd as -> ->; by rewrite lookup_insert_eq | by rewrite lookup_insert_ne].
Qed.

Lemma keep_affinity_counts bl b a p : slot_active_count (keep_affinity bl b) a p = slot_active_count bl a p.
Proof. unfold keep_affinity. by destruct (affinity b). Qed.

(** ** Lemmas: connecting *)

Definition with_affinity (b : UdsBalancer) (aff : option AffinityMap) : UdsBalancer :=
  mkBalancer (sockets b) aff (load b) (arc b).

Definition same_kind (a b : option AffinityMap) : Prop := is_Some a <-> is_Some b.

(** Picking, rebinding and connecting change nothing else of a balancer. *)
Lemma bind_affinity_keeps b ip idx now :
  exists aff, bind_affinity b ip idx now = with_affinity b aff /\ same_kind aff (affinity b).
Proof.
  unfold bind_affinity, with_affinity, same_kind. destruct (affinity b) as [a|] eqn:E; [eexists; by split|].
  exists (affinity b). rewrite E. split; [|done]. destruct b. simpl in *. by rewrite E.
Qed.

Lemma rebind_affinity_keeps b ip idx now :
  exists aff, rebind_affinity b ip idx now = with_affinity b aff /\ same_kind aff (affinity b).
Proof.
  unfold rebind_affinity. destruct (affinity b) eqn:E, ip; try (exists (affinity b); rewrite E; split; [destruct b; by simplify_eq/= | done]).
  rewrite <- E. apply bind_affinity_keeps.
Qed.

Lemma pick_keeps sh b ip now :
  exists aff, (pick sh b ip now).2 = with_affinity b aff /\ same_kind aff (affinity b).
Proof.
  assert (exists aff, b = with_affinity b aff /\ same_kind aff (affinity b)) as Hsame
    by (exists (affinity b); split; [by destruct b | done]).
  unfold pick. destruct (sockets b) eqn:Es; [done |]. destruct (affinity b) as [a|] eqn:E; [|done].
  destruct ip as [ip|]; [|done]. destruct (sticky_idx _ _ _ _ _); simpl; rewrite <- ?Es, <- ?E.
  - eexists. split; [reflexivity | by rewrite E].
  - apply bind_affinity_keeps.
Qed.

Definition counted (b : UdsBalancer) (r : result connect_error nat) : UdsBalancer :=
  match r with
  | Ok idx => match sockets b !! idx with Some s => increment b (slot_path s) | None => b end
  | Err _ => b
  end.

Lemma connect_loop_keeps fuel w sh b ip tried idx k attempts r :
  connect_loop fuel w sh b ip tried idx k attempts = Some r ->
  exists aff, uds_balancer r = counted (with_affinity b aff) (uds_result_of r) /\ same_kind aff (affinity b) /\
    forall i, uds_result_of r = Ok i -> is_Some (sockets b !! i).
Proof.
  assert (b = with_affinity b (affinity b)) as Hsame by (by destruct b).
  revert sh tried idx k attempts. induction fuel as [|fuel IH]; intros sh tried idx k attempts; [done |]. simpl.
  destruct (sockets b !! idx) as [s|] eqn:Hs; [|done]. destruct (outcome w k (slot_path s)) as [e|].
  - assert (forall sh', exists aff, b = counted (with_affinity b aff) (Err (ConnectIo e)) /\ same_kind aff (affinity b) /\
      forall i, Err (ConnectIo e) = Ok i -> is_Some (sockets b !! i)) as Herr
      by (intros sh'; exists (affinity b); split_and!; done).
    destruct (is_refusal e); [|intros [= <-]; by apply Herr].
    destruct (next_untried _ _ _); [|intros [= <-]; by apply Herr].
    destruct (deadline_passed w k); [intros [= <-]; by apply Herr | apply IH].
  - intros [= <-]. simpl.
    assert (exists aff, match tried with [] => b | _ => rebind_affinity b ip idx (clock w k) end = with_affinity b aff /\
      same_kind aff (affinity b)) as (aff & -> & Hk).
    { destruct tried; [by exists (affinity b) | apply rebind_affinity_keeps]. }
    exists aff. unfold with_affinity at 2. simpl. rewrite Hs. split_and!; [done | done |]. intros i [= <-]. eauto.
Qed.

Lemma connect_uds_keeps w sh b ip now r :
  connect_uds w sh b ip now = Some r ->
  exists aff, uds_balancer r = counted (with_affinity b aff) (uds_result_of r) /\ same_kind aff (affinity b) /\
    forall i, uds_result_of r = Ok i -> is_Some (sockets b !! i).
Proof.
  unfold connect_uds. destruct (pick_keeps sh b ip now) as (aff & Hp & Hk).
  destruct (pick sh b ip now) as [[idx|] b1]; simpl in Hp; subst b1.
  - intros (aff' & Hr & Hk' & Hi)%connect_loop_keeps. exists aff'. split_and!; [done | | done].
    unfold same_kind in *. simpl in Hk'. by rewrite Hk'.
  - intros [= <-]. exists aff. by split_and!.
Qed.

Lemma live_keep_affinity bl b aff :
  same_kind aff (affinity b) -> balancer_now (keep_affinity bl (with_affinity (balancer_now bl b) aff)) b = with_affinity (balancer_now bl b) aff.
Proof.
  intros Hk. unfold keep_affinity, with_affinity, balancer_now. simpl. destruct aff as [a|]; simpl.
  - rewrite lookup_insert_eq. simpl. destruct (affinity b) as [a'|] eqn:E; [done |]. exfalso.
    destruct (proj1 Hk ltac:(by eexists)) as [? Hx]. done.
  - destruct (affinity b) as [a'|] eqn:E; [|done]. exfalso. by destruct (proj2 Hk ltac:(by eexists)).
Qed.

(** Only the balancer's own counts move, and only on the slot that accepted. *)
Lemma connect_shared_counts w sh seen bl b ip now o sh' bl' a p :
  connect_shared w sh seen bl b ip now = (o, sh', bl') ->
  slot_active_count bl' a p =
  match o with
  | Some path => slot_active_count (guard_new bl (arc b) path) a p
  | None => slot_active_count bl a p
  end.
Proof.
  unfold connect_shared. destruct (connect_uds _ _ _ _ _) as [r|]; [|by intros [= <- <- <-]].
  destruct (uds_result_of r) as [idx|]; [destruct (sockets b !! idx) as [s|]|]; intros [= <- <- <-];
    try apply keep_affinity_counts.
  unfold guard_new. rewrite !count_of_adjust. by rewrite !keep_affinity_counts.
Qed.

Module Properties.

(** Sharing a balancer loses nothing. With no other task in between, connecting
    through the shared balancer is connecting through the balancer as it stands:
    the same slots are tried, the slot that accepted is the one returned, and
    afterwards the shared state holds exactly the counts and the affinity that
    balancer has. *)
Theorem shared_balancer_is_the_balancer w sh bl b ip now r :
  connect_uds w sh (balancer_now bl b) ip now = Some r ->
  let '(o, sh', bl') := connect_shared w sh bl bl b ip now in
  balancer_now bl' b = uds_balancer r /\ sh' = uds_shared r /\
  (forall i, uds_result_of r = Ok i -> o = slot_path <$> sockets b !! i /\ is_Some o) /\
  (forall e, uds_result_of r = Err e -> o = None).
Proof.
  intros Hr. unfold connect_shared. rewrite Hr. destruct (connect_uds_keeps _ _ _ _ _ _ Hr) as (aff & Hb & Hk & Hi).
  assert (same_kind aff (affinity b)) as Hkb by (unfold same_kind in *; rewrite Hk; simpl; by rewrite fmap_is_Some).
  destruct (uds_result_of r) as [idx|e] eqn:Hres; cbn [counted] in Hb.
  - destruct (Hi idx eq_refl) as [s' Hs']. simpl in Hs', Hb. rewrite Hs' in Hb.
    assert (slot_path <$> sockets b !! idx = Some (slot_path s')) as Hpath.
    { rewrite <- list_lookup_fmap, <- (live_slots_path (slot_active_count bl (arc b)) []), list_lookup_fmap.
      by rewrite Hs'. }
    destruct (sockets b !! idx) as [s|] eqn:Hs; [|done]. simpl in Hpath. injection Hpath as Hpath.
    split_and!; [| done | | done].
    + rewrite live_guard_new by (apply list_elem_of_fmap; exists s; split; [done | by eapply list_elem_of_lookup_2]).
      simpl. rewrite Hpath. rewrite Hb at 2. f_equal.
      assert (keep_affinity bl (uds_balancer r) = keep_affinity bl (with_affinity (balancer_now bl b) aff)) as -> by (by rewrite Hb).
      by apply live_keep_affinity.
    + intros i [= <-]. rewrite Hs. simpl. split; [done | eauto].
  - rewrite Hb. split_and!; [by apply live_keep_affinity | done | done | done].
Qed.

Lemma shared_balancer_is_the_balancer_witness :
  let b := mkBalancer [mkSlot (bs "/a") 0 None None; mkSlot (bs "/b") 0 None None] None 2 2 in
  let bl := guard_new balancers_new 2 (bs "/a") in
  let '(o, sh', bl') := connect_shared (mkWorld (fun _ _ => None) (fun _ => false) (fun _ => 0)) (mkShared ∅ ∅ 0) bl bl b None 0 in
  o = Some (bs "/b") /\ slot_active <$> sockets (balancer_now bl' b) = [1; 1].
Proof.
  intros b bl.
  pose proof (shared_balancer_is_the_balancer (mkWorld (fun _ _ => None) (fun _ => false) (fun _ => 0)) (mkShared ∅ ∅ 0) bl b None 0
    (mkUds (Ok 1%nat) [1%nat] (mkBalancer [mkSlot (bs "/a") 1 None None; mkSlot (bs "/b") 1 None None] None 2 2) (mkShared ∅ ∅ 0))
    ltac:(vm_compute; reflexivity)) as Hp.
  destruct (connect_shared _ _ _ _ _ _ _) as [[o sh'] bl']. destruct Hp as (Hl & _ & Ho & _).
  destruct (Ho 1%nat eq_refl) as [-> _]. rewrite Hl. split; reflexivity.
Defined.
End Properties.
