(* ===== verification/Metrics.v ===== *)
(** * Metrics (src/src/metrics.rs)

    The labelled reasons, the counters of a listener, of a route and of the
    proxy, and [CountingStream], which batches a connection's byte counts and
    publishes them to the listener and, when there is one, the route.

    Counters are u64 and wrap, as [fetch_add] and [fetch_sub] do. A
    [debug_assert] is not part of the behaviour of a release build and is not
    modelled. *)

From S2P Require Import Prelude Bytes Protection ProxyProtocol.

Open Scope Z_scope.

(** ** Reasons *)

Inductive BlockKind : Type :=
  | BMaxConnections | BCidrBlocked | BJa3Blocked | BJa4Blocked | BIncompleteHandshake | BNoSni
  | BRateLimited | BTooManyConnections | BPenaltyBoxed | BSourceNotAllowed | BUntrustedSource
  | BProxyHeaderInvalid | BProxyHeaderLocal | BProxyHeaderV1 | BProxyHeaderTimeout.

Inductive ErrorKind : Type :=
  | ENoRoute | ERouteRateLimited | ESuspendUnresolved | ETlsHandshake | ETlsMissingCert
  | EUpstreamConnect | ELocallyDown | EIdleTimeout | EHalfClosed | EPeerTimeout | EStream | EHttpHeader.

Inductive PeerFailureKind : Type := FRefused | FTimeout | FZeroByteClose | FError.

#[global] Instance BlockKind_eq_dec : EqDecision BlockKind.
Proof. solve_decision. Defined.
#[global] Instance ErrorKind_eq_dec : EqDecision ErrorKind.
Proof. solve_decision. Defined.
#[global] Instance PeerFailureKind_eq_dec : EqDecision PeerFailureKind.
Proof. solve_decision. Defined.

(** [labeled_enum!]: the variants in order, and the label of each. *)
Definition BlockKind_ALL : list (BlockKind * bytes) :=
  [(BMaxConnections, bs "max_connections"); (BCidrBlocked, bs "cidr_blocked");
   (BJa3Blocked, bs "ja3_blocked"); (BJa4Blocked, bs "ja4_blocked");
   (BIncompleteHandshake, bs "incomplete_handshake"); (BNoSni, bs "no_sni");
   (BRateLimited, bs "rate_limited"); (BTooManyConnections, bs "too_many_connections");
   (BPenaltyBoxed, bs "penalty_boxed"); (BSourceNotAllowed, bs "source_not_allowed");
   (BUntrustedSource, bs "untrusted_source"); (BProxyHeaderInvalid, bs "proxy_header_invalid");
   (BProxyHeaderLocal, bs "proxy_header_local"); (BProxyHeaderV1, bs "proxy_header_v1");
   (BProxyHeaderTimeout, bs "proxy_header_timeout")].

Definition ErrorKind_ALL : list (ErrorKind * bytes) :=
  [(ENoRoute, bs "no_route"); (ERouteRateLimited, bs "route_rate_limited");
   (ESuspendUnresolved, bs "suspend_unresolved"); (ETlsHandshake, bs "tls_handshake");
   (ETlsMissingCert, bs "tls_missing_cert"); (EUpstreamConnect, bs "upstream_connect");
   (ELocallyDown, bs "locally_down"); (EIdleTimeout, bs "idle_timeout");
   (EHalfClosed, bs "half_closed"); (EPeerTimeout, bs "peer_timeout"); (EStream, bs "stream");
   (EHttpHeader, bs "http_header")].

Definition PeerFailureKind_ALL : list (PeerFailureKind * bytes) :=
  [(FRefused, bs "refused"); (FTimeout, bs "timeout"); (FZeroByteClose, bs "zero_byte_close");
   (FError, bs "error")].

(** [kind as usize] *)
Definition kind_index {K} `{EqDecision K} (all : list (K * bytes)) (k : K) : nat :=
  default O (position (fun e => bool_decide (e.1 = k)) all).

Definition block_route_scoped (k : BlockKind) : bool := bool_decide (k = BSourceNotAllowed).
Definition error_route_scoped (k : ErrorKind) : bool :=
  negb (bool_decide (k = ENoRoute) || bool_decide (k = EHttpHeader)).

(** [From<&BlockReason>] and [From<HeaderReject>] *)
Definition kind_of_reason (r : BlockReason) : BlockKind :=
  match r with
  | CidrBlocked => BCidrBlocked
  | Ja3Blocked => BJa3Blocked
  | Ja4Blocked => BJa4Blocked
  | IncompleteHandshake => BIncompleteHandshake
  | NoSni => BNoSni
  | RateLimited => BRateLimited
  | TooManyConnections => BTooManyConnections
  | PenaltyBoxed => BPenaltyBoxed
  end.

Definition kind_of_reject (r : HeaderReject) : BlockKind :=
  match r with
  | HInvalid => BProxyHeaderInvalid
  | HLocal => BProxyHeaderLocal
  | HV1 => BProxyHeaderV1
  | HTimeout => BProxyHeaderTimeout
  end.

(** [BlockReason::as_str] *)
Definition reason_str (r : BlockReason) : bytes :=
  match r with
  | CidrBlocked => bs "cidr_blocked"
  | Ja3Blocked => bs "ja3_blocked"
  | Ja4Blocked => bs "ja4_blocked"
  | IncompleteHandshake => bs "incomplete_handshake"
  | NoSni => bs "no_sni"
  | RateLimited => bs "rate_limited"
  | TooManyConnections => bs "too_many_connections"
  | PenaltyBoxed => bs "penalty_boxed"
  end.

(** ** Counters *)

Definition add1 (v : Z) : Z := u64_wrapping_add v 1.
Definition sub1 (v : Z) : Z := u64_wrapping_sub v 1.

(** A gauge that wraps, at [n] modulo 2^64. *)
Lemma add1_mod n : add1 (n mod (u64_max + 1)) = (n + 1) mod (u64_max + 1).
Proof. unfold add1, u64_wrapping_add. by rewrite Z.add_mod_idemp_l. Qed.
Lemma sub1_mod n : sub1 (n mod (u64_max + 1)) = (n - 1) mod (u64_max + 1).
Proof. unfold sub1, u64_wrapping_sub. by rewrite Zminus_mod_idemp_l. Qed.
Lemma sub1_add1 v : is_u64 v -> sub1 (add1 v) = v.
Proof.
  intros Hv. rewrite <- (Z.mod_small v (u64_max + 1)) by ulia.
  rewrite add1_mod, sub1_mod. f_equal. lia.
Qed.

(** [array[i].fetch_add(1)] *)
Definition bump (i : nat) (counts : list Z) : list Z := alter add1 i counts.

(** [(label, count)] for every variant, in order. *)
Definition by_reason {K} (all : list (K * bytes)) (counts : list Z) : list (bytes * Z) :=
  zip (snd <$> all) counts.

(** The sparse form: route-scoped reasons with a non-zero count. *)
Definition sparse_by_reason {K} (scoped : K -> bool) (all : list (K * bytes)) (counts : list Z)
    : list (bytes * Z) :=
  omap (fun e => if scoped e.1.1 && (0 <? e.2) then Some (e.1.2, e.2) else None) (zip all counts).

Record ListenerMetrics : Type := mkLM {
  lm_active : Z;
  lm_half_closed : Z;
  lm_total_accepted : Z;
  lm_bytes_in : Z;
  lm_bytes_out : Z;
  lm_load_queries : Z;
  lm_blocked : list Z;
  lm_errors : list Z;
}.

Definition ListenerMetrics_default : ListenerMetrics :=
  mkLM 0 0 0 0 0 0 (replicate (length BlockKind_ALL) 0) (replicate (length ErrorKind_ALL) 0).

Definition lm_inc_active (m : ListenerMetrics) : ListenerMetrics :=
  mkLM (add1 (lm_active m)) (lm_half_closed m) (add1 (lm_total_accepted m)) (lm_bytes_in m)
    (lm_bytes_out m) (lm_load_queries m) (lm_blocked m) (lm_errors m).
Definition lm_dec_active (m : ListenerMetrics) : ListenerMetrics :=
  mkLM (sub1 (lm_active m)) (lm_half_closed m) (lm_total_accepted m) (lm_bytes_in m)
    (lm_bytes_out m) (lm_load_queries m) (lm_blocked m) (lm_errors m).
Definition lm_inc_half_closed (m : ListenerMetrics) : ListenerMetrics :=
  mkLM (lm_active m) (add1 (lm_half_closed m)) (lm_total_accepted m) (lm_bytes_in m)
    (lm_bytes_out m) (lm_load_queries m) (lm_blocked m) (lm_errors m).
Definition lm_dec_half_closed (m : ListenerMetrics) : ListenerMetrics :=
  mkLM (lm_active m) (sub1 (lm_half_closed m)) (lm_total_accepted m) (lm_bytes_in m)
    (lm_bytes_out m) (lm_load_queries m) (lm_blocked m) (lm_errors m).
Definition lm_inc_load_query (m : ListenerMetrics) : ListenerMetrics :=
  mkLM (lm_active m) (lm_half_closed m) (lm_total_accepted m) (lm_bytes_in m)
    (lm_bytes_out m) (add1 (lm_load_queries m)) (lm_blocked m) (lm_errors m).
Definition lm_add_bytes_in (m : ListenerMetrics) (n : Z) : ListenerMetrics :=
  mkLM (lm_active m) (lm_half_closed m) (lm_total_accepted m) (u64_wrapping_add (lm_bytes_in m) n)
    (lm_bytes_out m) (lm_load_queries m) (lm_blocked m) (lm_errors m).
Definition lm_add_bytes_out (m : ListenerMetrics) (n : Z) : ListenerMetrics :=
  mkLM (lm_active m) (lm_half_closed m) (lm_total_accepted m) (lm_bytes_in m)
    (u64_wrapping_add (lm_bytes_out m) n) (lm_load_queries m) (lm_blocked m) (lm_errors m).
Definition lm_inc_blocked (m : ListenerMetrics) (k : BlockKind) : ListenerMetrics :=
  mkLM (lm_active m) (lm_half_closed m) (lm_total_accepted m) (lm_bytes_in m) (lm_bytes_out m)
    (lm_load_queries m) (bump (kind_index BlockKind_ALL k) (lm_blocked m)) (lm_errors m).
Definition lm_inc_error (m : ListenerMetrics) (k : ErrorKind) : ListenerMetrics :=
  mkLM (lm_active m) (lm_half_closed m) (lm_total_accepted m) (lm_bytes_in m) (lm_bytes_out m)
    (lm_load_queries m) (lm_blocked m) (bump (kind_index ErrorKind_ALL k) (lm_errors m)).
Definition lm_blocked_by_reason (m : ListenerMetrics) : list (bytes * Z) := by_reason BlockKind_ALL (lm_blocked m).
Definition lm_errors_by_reason (m : ListenerMetrics) : list (bytes * Z) := by_reason ErrorKind_ALL (lm_errors m).

Record RouteMetrics : Type := mkRM {
  rm_active : Z;
  rm_total : Z;
  rm_bytes_in : Z;
  rm_bytes_out : Z;
  rm_blocked : list Z;
  rm_errors : list Z;
}.

Definition RouteMetrics_default : RouteMetrics :=
  mkRM 0 0 0 0 (replicate (length BlockKind_ALL) 0) (replicate (length ErrorKind_ALL) 0).

Definition rm_inc_active (m : RouteMetrics) : RouteMetrics :=
  mkRM (add1 (rm_active m)) (add1 (rm_total m)) (rm_bytes_in m) (rm_bytes_out m) (rm_blocked m) (rm_errors m).
(** [checked_sub]: at zero the update is abandoned. *)
Definition rm_dec_active (m : RouteMetrics) : RouteMetrics :=
  mkRM (if rm_active m =? 0 then 0 else rm_active m - 1) (rm_total m) (rm_bytes_in m) (rm_bytes_out m)
    (rm_blocked m) (rm_errors m).
Definition rm_add_bytes_in (m : RouteMetrics) (n : Z) : RouteMetrics :=
  mkRM (rm_active m) (rm_total m) (u64_wrapping_add (rm_bytes_in m) n) (rm_bytes_out m) (rm_blocked m) (rm_errors m).
Definition rm_add_bytes_out (m : RouteMetrics) (n : Z) : RouteMetrics :=
  mkRM (rm_active m) (rm_total m) (rm_bytes_in m) (u64_wrapping_add (rm_bytes_out m) n) (rm_blocked m) (rm_errors m).
Definition rm_inc_error (m : RouteMetrics) (k : ErrorKind) : RouteMetrics :=
  if error_route_scoped k
  then mkRM (rm_active m) (rm_total m) (rm_bytes_in m) (rm_bytes_out m) (rm_blocked m)
         (bump (kind_index ErrorKind_ALL k) (rm_errors m))
  else m.
Definition rm_inc_blocked (m : RouteMetrics) (k : BlockKind) : RouteMetrics :=
  if block_route_scoped k
  then mkRM (rm_active m) (rm_total m) (rm_bytes_in m) (rm_bytes_out m)
         (bump (kind_index BlockKind_ALL k) (rm_blocked m)) (rm_errors m)
  else m.
Definition rm_blocked_by_reason (m : RouteMetrics) : list (bytes * Z) :=
  sparse_by_reason block_route_scoped BlockKind_ALL (rm_blocked m).
Definition rm_errors_by_reason (m : RouteMetrics) : list (bytes * Z) :=
  sparse_by_reason error_route_scoped ErrorKind_ALL (rm_errors m).

Definition inc_route_blocked (l : ListenerMetrics) (r : RouteMetrics) (k : BlockKind)
    : ListenerMetrics * RouteMetrics := (lm_inc_blocked l k, rm_inc_blocked r k).
Definition inc_route_error (l : ListenerMetrics) (r : RouteMetrics) (k : ErrorKind)
    : ListenerMetrics * RouteMetrics := (lm_inc_error l k, rm_inc_error r k).

Definition RouteActiveGuard_new (m : RouteMetrics) : RouteMetrics := rm_inc_active m.
Definition RouteActiveGuard_drop (m : RouteMetrics) : RouteMetrics := rm_dec_active m.

(** [sum()] over u64: a release build wraps. *)
Definition total_of (counts : list (bytes * Z)) : Z :=
  foldl (fun acc e => u64_wrapping_add acc e.2) 0 counts.

Record GlobalMetrics : Type := mkGM {
  gm_active : Z;
  gm_pending_suspended : Z;
  gm_suspended_resolved : Z;
  gm_suspended_unresolved : Z;
}.
Definition gm_inc_active (m : GlobalMetrics) : GlobalMetrics :=
  mkGM (add1 (gm_active m)) (gm_pending_suspended m) (gm_suspended_resolved m) (gm_suspended_unresolved m).
Definition gm_dec_active (m : GlobalMetrics) : GlobalMetrics :=
  mkGM (sub1 (gm_active m)) (gm_pending_suspended m) (gm_suspended_resolved m) (gm_suspended_unresolved m).
Definition gm_inc_suspended (m : GlobalMetrics) : GlobalMetrics :=
  mkGM (gm_active m) (add1 (gm_pending_suspended m)) (gm_suspended_resolved m) (gm_suspended_unresolved m).
Definition gm_dec_suspended (m : GlobalMetrics) (resolved : bool) : GlobalMetrics :=
  mkGM (gm_active m) (sub1 (gm_pending_suspended m))
    (if resolved then add1 (gm_suspended_resolved m) else gm_suspended_resolved m)
    (if resolved then gm_suspended_unresolved m else add1 (gm_suspended_unresolved m)).

(** ** The counting stream *)

Definition COUNTER_FLUSH_BYTES : Z := 262144.

(** The stream's pending counts, and the shared counters it publishes to. *)
Record CountingStream : Type := mkCounting {
  pending_in : Z;
  pending_out : Z;
  cs_listener : ListenerMetrics;
  cs_route : option RouteMetrics;
}.

Definition CountingStream_new (l : ListenerMetrics) (r : option RouteMetrics) : CountingStream :=
  mkCounting 0 0 l r.

Definition publish_in (s : CountingStream) (n : Z) : CountingStream :=
  mkCounting (pending_in s) (pending_out s) (lm_add_bytes_in (cs_listener s) n)
    ((fun m => rm_add_bytes_in m n) <$> cs_route s).
Definition publish_out (s : CountingStream) (n : Z) : CountingStream :=
  mkCounting (pending_in s) (pending_out s) (lm_add_bytes_out (cs_listener s) n)
    ((fun m => rm_add_bytes_out m n) <$> cs_route s).

Definition record_in (s : CountingStream) (n : Z) : CountingStream :=
  let p := u64_wrapping_add (pending_in s) n in
  let s := mkCounting p (pending_out s) (cs_listener s) (cs_route s) in
  if COUNTER_FLUSH_BYTES <=? p then
    let s := publish_in s p in mkCounting 0 (pending_out s) (cs_listener s) (cs_route s)
  else s.
Definition record_out (s : CountingStream) (n : Z) : CountingStream :=
  let p := u64_wrapping_add (pending_out s) n in
  let s := mkCounting (pending_in s) p (cs_listener s) (cs_route s) in
  if COUNTER_FLUSH_BYTES <=? p then
    let s := publish_out s p in mkCounting (pending_in s) 0 (cs_listener s) (cs_route s)
  else s.

Definition CountingStream_drop (s : CountingStream) : CountingStream :=
  let s := if 0 <? pending_in s then publish_in s (pending_in s) else s in
  if 0 <? pending_out s then publish_out s (pending_out s) else s.

(** What a poll of the inner stream can do: nothing to count (pending, an
    error, a read at the end of the stream), bytes read, bytes written. *)
Inductive io_event : Type :=
  | Idle
  | ReadReady (n : Z)
  | WriteReady (n : Z).

(** [poll_read], [poll_write], [poll_write_vectored] *)
Definition poll_io (s : CountingStream) (e : io_event) : CountingStream :=
  match e with
  | Idle => s
  | ReadReady n => if 0 <? n then record_in s n else s
  | WriteReady n => record_out s n
  end.

(** ** Lemmas *)

Definition bytes_read (es : list io_event) : Z :=
  foldr (fun e acc => match e with ReadReady n => n + acc | _ => acc end) 0 es.
Definition bytes_written (es : list io_event) : Z :=
  foldr (fun e acc => match e with WriteReady n => n + acc | _ => acc end) 0 es.
Definition event_ok (e : io_event) : Prop :=
  match e with Idle => True | ReadReady n | WriteReady n => is_u32 n end.

(** [a] advanced by [n] on a u64 counter. *)
Definition advanced (a n : Z) : Z := (a + n) mod (u64_max + 1).

Lemma advanced_add a m n : u64_wrapping_add (advanced a m) n = advanced a (m + n).
Proof.
  unfold u64_wrapping_add, advanced. rewrite Z.add_mod_idemp_l by done. f_equal. lia.
Qed.

(** The published counts lag the bytes carried by what is pending. *)
Record counted (l : ListenerMetrics) (r : option RouteMetrics) (bin bout : Z) (s : CountingStream) : Prop := {
  c_pin : 0 <= pending_in s < COUNTER_FLUSH_BYTES;
  c_pout : 0 <= pending_out s < COUNTER_FLUSH_BYTES;
  c_lin : lm_bytes_in (cs_listener s) = advanced (lm_bytes_in l) (bin - pending_in s);
  c_lout : lm_bytes_out (cs_listener s) = advanced (lm_bytes_out l) (bout - pending_out s);
  c_rin : rm_bytes_in <$> cs_route s = (fun m => advanced (rm_bytes_in m) (bin - pending_in s)) <$> r;
  c_rout : rm_bytes_out <$> cs_route s = (fun m => advanced (rm_bytes_out m) (bout - pending_out s)) <$> r;
}.

Lemma counted_in l r bin bout s n :
  is_u32 n -> counted l r bin bout s -> counted l r (bin + n) bout (record_in s n).
Proof.
  intros Hn [Hpin Hpout Hlin Hlout Hrin Hrout].
  assert (u64_wrapping_add (pending_in s) n = pending_in s + n) as Hp.
  { unfold u64_wrapping_add. apply Z.mod_small. unfold COUNTER_FLUSH_BYTES in *. ulia. }
  unfold record_in. rewrite Hp. cbv zeta.
  destruct (Z.leb_spec COUNTER_FLUSH_BYTES (pending_in s + n)) as [Hle|Hlt]; split; simpl; try done; try (ulia).
  - rewrite Hlin, advanced_add. f_equal. lia.
  - destruct (cs_route s) as [m|], r as [m0|]; simplify_eq/=; [|done].
    f_equal. rewrite Hrin, advanced_add. f_equal. lia.
  - destruct (cs_route s) as [m|], r as [m0|]; simplify_eq/=; congruence.
  - rewrite Hlin. f_equal. lia.
  - rewrite Hrin. destruct r; [|done]. simpl. do 2 f_equal. lia.
Qed.

Lemma counted_out l r bin bout s n :
  is_u32 n -> counted l r bin bout s -> counted l r bin (bout + n) (record_out s n).
Proof.
  intros Hn [Hpin Hpout Hlin Hlout Hrin Hrout].
  assert (u64_wrapping_add (pending_out s) n = pending_out s + n) as Hp.
  { unfold u64_wrapping_add. apply Z.mod_small. unfold COUNTER_FLUSH_BYTES in *. ulia. }
  unfold record_out. rewrite Hp. cbv zeta.
  destruct (Z.leb_spec COUNTER_FLUSH_BYTES (pending_out s + n)) as [Hle|Hlt]; split; simpl; try done; try (ulia).
  - rewrite Hlout, advanced_add. f_equal. lia.
  - destruct (cs_route s) as [m|], r as [m0|]; simplify_eq/=; congruence.
  - destruct (cs_route s) as [m|], r as [m0|]; simplify_eq/=; [|done].
    f_equal. rewrite Hrout, advanced_add. f_equal. lia.
  - rewrite Hlout. f_equal. lia.
  - rewrite Hrout. destruct r; [|done]. simpl. do 2 f_equal. lia.
Qed.

Lemma counted_run l r bin bout s es :
  Forall event_ok es -> counted l r bin bout s ->
  counted l r (bin + bytes_read es) (bout + bytes_written es) (foldl poll_io s es).
Proof.
  intros Hes. revert bin bout s; induction Hes as [|e es He _ IH]; intros bin bout s Hs.
  { cbn [foldl bytes_read bytes_written foldr]. by rewrite !Z.add_0_r. }
  cbn [foldl bytes_read bytes_written foldr]. destruct e as [|n|n]; cbn [poll_io event_ok] in *.
  - by apply IH.
  - rewrite Z.add_assoc. apply IH. destruct (Z.ltb_spec 0 n); [by apply counted_in |].
    replace n with 0 by ulia. by rewrite Z.add_0_r.
  - rewrite Z.add_assoc. apply IH. by apply counted_out.
Qed.

Lemma counted_new l r :
  is_u64 (lm_bytes_in l) -> is_u64 (lm_bytes_out l) ->
  (forall m, r = Some m -> is_u64 (rm_bytes_in m) /\ is_u64 (rm_bytes_out m)) ->
  counted l r 0 0 (CountingStream_new l r).
Proof.
  intros Hi Ho Hr. assert (forall a, is_u64 a -> a = advanced a (0 - 0)) as Ha.
  { intros a Hu. unfold advanced. rewrite Z.mod_small; [lia |]. ulia. }
  split; simpl; try (unfold COUNTER_FLUSH_BYTES; lia); auto.
  - destruct r as [m|]; [|done]. simpl. f_equal. apply Ha, (Hr m eq_refl).
  - destruct r as [m|]; [|done]. simpl. f_equal. apply Ha, (Hr m eq_refl).
Qed.

Lemma counted_drop l r bin bout s :
  counted l r bin bout s ->
  let s' := CountingStream_drop s in
  lm_bytes_in (cs_listener s') = advanced (lm_bytes_in l) bin /\
  lm_bytes_out (cs_listener s') = advanced (lm_bytes_out l) bout /\
  rm_bytes_in <$> cs_route s' = (fun m => advanced (rm_bytes_in m) bin) <$> r /\
  rm_bytes_out <$> cs_route s' = (fun m => advanced (rm_bytes_out m) bout) <$> r.
Proof.
  intros [Hpin Hpout Hlin Hlout Hrin Hrout]. unfold CountingStream_drop. cbv zeta.
  destruct (Z.ltb_spec 0 (pending_in s)) as [Hi|Hi]; simpl;
    destruct (Z.ltb_spec 0 (pending_out s)) as [Ho|Ho]; simpl;
    destruct (cs_route s) as [m|], r as [m0|]; simplify_eq/=;
    rewrite ?Hlin, ?Hlout, ?Hrin, ?Hrout, ?advanced_add;
    repeat match goal with |- _ /\ _ => split | |- Some _ = Some _ => f_equal end;
    try done; f_equal; lia.
Qed.

(** ** Properties *)

Module Properties.

(** No byte of a proxied session is lost or counted twice, however the
    session ends: when the stream is dropped, the listener and the route have
    been credited exactly the bytes read and written; before that, the
    published counts lag by less than the 256 KiB flush threshold in each
    direction. *)
Theorem every_byte_is_counted l r es :
  is_u64 (lm_bytes_in l) -> is_u64 (lm_bytes_out l) ->
  (forall m, r = Some m -> is_u64 (rm_bytes_in m) /\ is_u64 (rm_bytes_out m)) ->
  Forall event_ok es ->
  let s := foldl poll_io (CountingStream_new l r) es in
  let s' := CountingStream_drop s in
  (0 <= pending_in s < COUNTER_FLUSH_BYTES /\ 0 <= pending_out s < COUNTER_FLUSH_BYTES) /\
  lm_bytes_in (cs_listener s') = advanced (lm_bytes_in l) (bytes_read es) /\
  lm_bytes_out (cs_listener s') = advanced (lm_bytes_out l) (bytes_written es) /\
  rm_bytes_in <$> cs_route s' = (fun m => advanced (rm_bytes_in m) (bytes_read es)) <$> r /\
  rm_bytes_out <$> cs_route s' = (fun m => advanced (rm_bytes_out m) (bytes_written es)) <$> r.
Proof.
  intros Hi Ho Hr Hes s s'.
  assert (counted l r (bytes_read es) (bytes_written es) s) as Hs
    by (apply (counted_run l r 0 0); [done | by apply counted_new]).
  split; [split; [apply (c_pin _ _ _ _ _ Hs) | apply (c_pout _ _ _ _ _ Hs)] |].
  by apply (counted_drop l r).
Qed.

Lemma every_byte_is_counted_witness :
  let es := [ReadReady 300000; WriteReady 10; Idle; ReadReady 5] in
  let s := CountingStream_drop
    (foldl poll_io (CountingStream_new ListenerMetrics_default (Some RouteMetrics_default)) es) in
  lm_bytes_in (cs_listener s) = 300005 /\ rm_bytes_out <$> cs_route s = Some 10.
Proof.
  intros es s.
  destruct (every_byte_is_counted ListenerMetrics_default (Some RouteMetrics_default) es)
    as (_ & H1 & _ & _ & H4).
  - by vm_compute.
  - by vm_compute.
  - intros m [= <-]. by vm_compute.
  - repeat constructor; by vm_compute.
  - unfold s. rewrite H1, H4. by vm_compute.
Defined.
End Properties.
