(* ===== verification/Failover.v ===== *)
(** * Peer failover and spill-over (src/src/failover.rs)

    - The policies and their parsers ([FailoverSpec_parse], [SpillSpec_parse]).
    - [FailoverPeer]: the packed cooldown word, the load report, the smoothed RTT.
    - [Failover]: what to do with a connection ([decide]), which peers to try
      ([candidates]), forwarding ([forward_to_peers]).
    - The spill controller ([assess], [control]) and the packed [Admission].
    - The load poll ([query_load], [apply_answer], [control_all]) and the probe.

    What the code shares through an [Arc] across reloads (a peer's counters and
    cooldown, the spill state, the route's status) is an identifier into the
    [fleet] store; slot health is in Balancer's [shared] store. Durations are
    nanoseconds; an attempt whose time reaches its share of the budget has timed
    out. The clocks, the outcome of network operations and the salted
    client hash are arguments. *)

From S2P Require Import Prelude Bytes Float64 Net IpText ProxyProtocol Balancer Metrics.

Open Scope Z_scope.

(** ** Policies *)

Definition DEFAULT_PROBE_INTERVAL_MS : f64 := f64_of_Z 1000.
Definition DEFAULT_COOLDOWN_MIN_MS : f64 := f64_of_Z 5000.
Definition DEFAULT_COOLDOWN_MAX_MS : f64 := f64_of_Z 60000.
Definition MIN_PROBE_INTERVAL_MS : f64 := f64_of_Z 10.
Definition MAX_INTERVAL_MS : f64 := f64_of_Z 86400000.
Definition DRAIN_BUDGET : Z := 2000000000.
Definition SPILL_BUDGET : Z := 1000000000.
Definition MIN_REPORT_TTL_NS : Z := 3000000000.
Definition MAX_CONTROL_STEP_NS : Z := 1000000000.
Definition MAX_PEER_RTT_MS : f64 := f64_of_Z 60000.
Definition RTT_EWMA_WEIGHT : f64 := f64_lit 1 4.

Record SpillSpec : Type := mkSpillSpec {
  ss_high_water : option f64;
  ss_margin : option f64;
  ss_step : option f64;
  ss_max_fraction : option f64;
  ss_max_peer_rtt_ms : option f64;
}.

Record SpillPolicy : Type := mkSpillPolicy {
  high_water : Z;
  margin : Z;
  step : f64;
  max_fraction : Z;
  max_peer_rtt : option Z;
}.

Record FailoverSpec : Type := mkFailoverSpec {
  fs_peers : list (bytes * Z);
  fs_drain : bool;
  fs_probe_interval_ms : option f64;
  fs_cooldown_min_ms : option f64;
  fs_cooldown_max_ms : option f64;
  fs_spill : option SpillSpec;
}.

Record FailoverPolicy : Type := mkFailoverPolicy {
  pol_peers : list SocketAddr;
  pol_drain : bool;
  pol_probe_interval : Z;
  pol_cooldown_min : Z;
  pol_cooldown_max : Z;
  pol_spill : option SpillPolicy;
}.

Inductive failover_error : Type :=
  | NoPeers
  | PeerHost (host : bytes)
  | PeerPort (host : bytes)
  | PeerTwice (addr : SocketAddr)
  | IntervalRange (v : f64)
  | CooldownOrder
  | SpillFraction (v : f64)
  | SpillRtt (v : f64).

(** [Duration::from_secs_f64]: to the nearest nanosecond, ties to even. *)
Definition round_half_even (num den : Z) : Z :=
  let q := num / den in
  let r := num mod den in
  if 2 * r <? den then q else if den <? 2 * r then q + 1 else if Z.even q then q else q + 1.
Definition duration_from_secs_f64 (x : f64) : Z :=
  match x with
  | SpecFloat.S754_finite false m e =>
      let n := Zpos m * 1000000000 in
      if 0 <=? e then Z.shiftl n e else round_half_even n (Z.shiftl 1 (- e))
  | _ => 0
  end.

(** The closure [fraction] of [SpillSpec::parse]. *)
Definition spill_fraction (value : option f64) (dflt min : f64) : result failover_error f64 :=
  let v := default dflt value in
  if negb (f64_is_finite v) || f64_ltb v min || f64_ltb (f64_of_Z 1) v then Err (SpillFraction v)
  else Ok (f64_mul v (f64_of_Z 1000)).

Definition SpillSpec_parse (s : SpillSpec) : result failover_error SpillPolicy :=
  rtt ← match ss_max_peer_rtt_ms s with
        | None => Ok None
        | Some ms =>
            if f64_is_finite ms && f64_ltb f64_zero ms && f64_leb ms MAX_PEER_RTT_MS
            then Ok (Some (duration_from_secs_f64 (f64_div ms (f64_of_Z 1000))))
            else Err (SpillRtt ms)
        end;
  hw ← spill_fraction (ss_high_water s) (f64_lit 3 4) (f64_lit 1 1000);
  mg ← spill_fraction (ss_margin s) (f64_lit 1 5) (f64_lit 2 1000);
  st ← spill_fraction (ss_step s) (f64_lit 1 20) (f64_lit 1 1000);
  mf ← spill_fraction (ss_max_fraction s) (f64_lit 1 2) (f64_lit 1 1000);
  Ok (mkSpillPolicy (f64_as_u32 (f64_round hw)) (f64_as_u32 (f64_round mg)) st
        (f64_as_u32 (f64_round mf)) rtt).

Definition bounded_ms (value : option f64) (dflt min : f64) : result failover_error Z :=
  let ms := default dflt value in
  if negb (f64_is_finite ms) || negb (f64_leb min ms && f64_leb ms MAX_INTERVAL_MS)
  then Err (IntervalRange ms)
  else Ok (f64_as_u64 ms * 1000000).

Fixpoint parse_peers (specs : list (bytes * Z)) (acc : list SocketAddr)
    : result failover_error (list SocketAddr) :=
  match specs with
  | [] => Ok acc
  | (host, port) :: specs' =>
      ip ← ok_or (PeerHost host) (parse_ip host);
      if port =? 0 then Err (PeerPort host)
      else
        let addr := mkSocketAddr ip port in
        if bool_decide (addr ∈ acc) then Err (PeerTwice addr)
        else parse_peers specs' (acc ++ [addr])
  end.

Definition FailoverSpec_parse (s : FailoverSpec) : result failover_error FailoverPolicy :=
  match fs_peers s with
  | [] => Err NoPeers
  | _ =>
      peers ← parse_peers (fs_peers s) [];
      probe ← bounded_ms (fs_probe_interval_ms s) DEFAULT_PROBE_INTERVAL_MS MIN_PROBE_INTERVAL_MS;
      cmin ← bounded_ms (fs_cooldown_min_ms s) DEFAULT_COOLDOWN_MIN_MS (f64_of_Z 1);
      cmax ← bounded_ms (fs_cooldown_max_ms s)
               (f64_max DEFAULT_COOLDOWN_MAX_MS (f64_of_Z (cmin / 1000000))) (f64_of_Z 1);
      if cmax <? cmin then Err CooldownOrder
      else Ok (mkFailoverPolicy peers (fs_drain s) probe cmin cmax None)
  end.
(** ** One peer *)

Definition COOLDOWN_STREAK_SHIFT : Z := 56.
Definition COOLDOWN_UNTIL_MASK : Z := Z.shiftl 1 COOLDOWN_STREAK_SHIFT - 1.

Record FailoverPeer : Type := mkPeer {
  fp_addr : SocketAddr;
  fp_cooldown : Z;
  fp_forwarded : Z;
  fp_spilled : Z;
  fp_failures : list Z;
  fp_report : Z;
  fp_rtt_us : Z;
}.

Definition FailoverPeer_new (addr : SocketAddr) : FailoverPeer :=
  mkPeer addr 0 0 0 (replicate (length PeerFailureKind_ALL) 0) 0 0.

(** [(load permille, ms received)] *)
Definition peer_report (p : FailoverPeer) : option (Z * Z) :=
  if fp_report p =? 0 then None
  else Some (Z.land (fp_report p) 1023, Z.shiftr (fp_report p) 10).

(** [now_ms << 10] drops the bits a u64 cannot hold. *)
Definition set_report (p : FailoverPeer) (load : option Z) (now_ms : Z) : FailoverPeer :=
  let packed := match load with
                | None => 0
                | Some l => Z.lor (Z.shiftl (Z.max now_ms 1) 10 mod (u64_max + 1)) (Z.min l 1000)
                end in
  mkPeer (fp_addr p) (fp_cooldown p) (fp_forwarded p) (fp_spilled p) (fp_failures p) packed (fp_rtt_us p).

(** In nanoseconds. *)
Definition rtt (p : FailoverPeer) : option Z :=
  if fp_rtt_us p =? 0 then None else Some (fp_rtt_us p * 1000).

Definition record_rtt (p : FailoverPeer) (sample_ns : Z) : FailoverPeer :=
  let sample := f64_of_Z (Z.min (Z.max (sample_ns / 1000) 1) u32_max) in
  let smoothed :=
    if fp_rtt_us p =? 0 then sample
    else let prev := f64_of_Z (fp_rtt_us p) in
         f64_add prev (f64_mul RTT_EWMA_WEIGHT (f64_sub sample prev)) in
  mkPeer (fp_addr p) (fp_cooldown p) (fp_forwarded p) (fp_spilled p) (fp_failures p) (fp_report p)
    (f64_as_u32 (f64_max (f64_round smoothed) (f64_of_Z 1))).

Definition cooldown_until (p : FailoverPeer) : Z := Z.land (fp_cooldown p) COOLDOWN_UNTIL_MASK.

Definition cooling_down (p : FailoverPeer) (now : Z) : bool :=
  Z.min now COOLDOWN_UNTIL_MASK <? cooldown_until p.

(** The labels of the failures that happened, with their counts. *)
Definition failures_by_reason (p : FailoverPeer) : list (bytes * Z) :=
  sparse_by_reason (fun _ => true) PeerFailureKind_ALL (fp_failures p).

(** The closure of [record_failure]'s [fetch_update]. *)
Definition cooldown_step (state min_ns max_ns now : Z) : Z :=
  let streak := Z.min (u64_saturating_add (Z.shiftr state COOLDOWN_STREAK_SHIFT) 1) 255 in
  let backoff := Z.min (u64_saturating_mul min_ns (Z.shiftl 1 (Z.min (streak - 1) 63))) max_ns in
  let until := Z.min (Z.max (Z.land state COOLDOWN_UNTIL_MASK) (u64_saturating_add now backoff))
                 COOLDOWN_UNTIL_MASK in
  Z.lor (Z.shiftl streak COOLDOWN_STREAK_SHIFT) until.

Definition record_failure (p : FailoverPeer) (kind : PeerFailureKind) (min_ns max_ns now : Z) : FailoverPeer :=
  mkPeer (fp_addr p) (cooldown_step (fp_cooldown p) min_ns max_ns now) (fp_forwarded p) (fp_spilled p)
    (bump (kind_index PeerFailureKind_ALL kind) (fp_failures p)) (fp_report p) (fp_rtt_us p).

Definition clear_cooldown (p : FailoverPeer) : FailoverPeer :=
  mkPeer (fp_addr p) 0 (fp_forwarded p) (fp_spilled p) (fp_failures p) (fp_report p) (fp_rtt_us p).

(** ** Admission: fraction (bits 0-9), target (10-25), deadline in ms (26-63) *)

Record Admission : Type := mkAdmission { adm_fraction : Z; adm_target : nat; adm_until_ms : Z }.

Definition Admission_pack (a : Admission) : Z :=
  Z.lor (Z.lor (Z.shiftl (adm_until_ms a) 26 mod (u64_max + 1))
               (Z.shiftl (Z.land (Z.of_nat (adm_target a)) 65535) 10))
        (Z.min (adm_fraction a) 1000).

Definition Admission_unpack (packed : Z) : option Admission :=
  if Z.land packed 1023 =? 0 then None
  else Some (mkAdmission (Z.land packed 1023) (Z.to_nat (Z.land (Z.shiftr packed 10) 65535))
               (Z.shiftr packed 26)).

(** ** Stores *)

Record SpillState : Type := mkSpillState { sp_admission : Z; sp_fraction : f64; sp_last_ns : Z }.
Definition SpillState_default : SpillState := mkSpillState 0 f64_zero 0.

Record FailoverStatus : Type := mkStatus {
  reported_down : bool;
  last_probe_ns : Z;
  replays : Z;
  exhausted : Z;
  local_fallbacks : Z;
}.
Definition FailoverStatus_default : FailoverStatus := mkStatus false 0 0 0 0.

Record fleet : Type := mkFleet {
  peer_cells : gmap nat FailoverPeer;
  spill_cells : gmap nat SpillState;
  status_cells : gmap nat FailoverStatus;
  next_fleet : nat;
}.

Definition no_addr : SocketAddr := mkSocketAddr (V4 0) 0.
Definition peer_at (fl : fleet) (i : nat) : FailoverPeer := default (FailoverPeer_new no_addr) (peer_cells fl !! i).
Definition spill_at (fl : fleet) (i : nat) : SpillState := default SpillState_default (spill_cells fl !! i).
Definition status_at (fl : fleet) (i : nat) : FailoverStatus := default FailoverStatus_default (status_cells fl !! i).

Definition put_peer (fl : fleet) (i : nat) (p : FailoverPeer) : fleet :=
  mkFleet (<[i := p]> (peer_cells fl)) (spill_cells fl) (status_cells fl) (next_fleet fl).
Definition put_spill (fl : fleet) (i : nat) (s : SpillState) : fleet :=
  mkFleet (peer_cells fl) (<[i := s]> (spill_cells fl)) (status_cells fl) (next_fleet fl).
Definition put_status (fl : fleet) (i : nat) (s : FailoverStatus) : fleet :=
  mkFleet (peer_cells fl) (spill_cells fl) (<[i := s]> (status_cells fl)) (next_fleet fl).

Definition admission (s : SpillState) (now_ms : Z) : option Admission :=
  match Admission_unpack (sp_admission s) with
  | Some a => if now_ms <? adm_until_ms a then Some a else None
  | None => None
  end.

(** ** A route's failover *)

Record Failover : Type := mkFailover {
  fo_drain : bool;
  fo_probe_interval : Z;
  fo_cooldown_min_ns : Z;
  fo_cooldown_max_ns : Z;
  fo_peers : list nat;
  fo_cursor : Z;
  fo_tcp_health : option nat;
  fo_status : nat;
  fo_spill : option (SpillPolicy * nat);
}.

Inductive ForwardMode : Type := Down | Drain | SpillTo (i : nat).

Inductive FoDecision : Type := Refuse | Forward (m : ForwardMode) | Local.

Definition decide_failover (ingress suspended locally_down drain : bool) (spill : unit -> option nat)
    : FoDecision :=
  if ingress then (if locally_down || drain then Refuse else Local)
  else if suspended then Local
  else if locally_down then Forward Down
  else if drain then Forward Drain
  else match spill tt with Some peer => Forward (SpillTo peer) | None => Local end.

(** The derived [PartialEq]; [step] is compared as IEEE numbers. *)
Definition SpillPolicy_eqb (a b : SpillPolicy) : bool :=
  (high_water a =? high_water b) && (margin a =? margin b) && f64_eqb (step a) (step b) &&
  (max_fraction a =? max_fraction b) && bool_decide (max_peer_rtt a = max_peer_rtt b).

(** The peer cells of the new policy: a peer the previous failover has keeps its
    cell. *)
Fixpoint adopt_peers (fl : fleet) (previous : list nat) (addrs : list SocketAddr) : list nat * fleet :=
  match addrs with
  | [] => ([], fl)
  | addr :: addrs' =>
      let '(i, fl1) :=
        match find_first (fun p => bool_decide (fp_addr (peer_at fl p) = addr)) previous with
        | Some p => (p, fl)
        | None => let i := next_fleet fl in
                  (i, mkFleet (<[i := FailoverPeer_new addr]> (peer_cells fl)) (spill_cells fl)
                        (status_cells fl) (S i))
        end in
      let '(rest, fl2) := adopt_peers fl1 previous addrs' in
      (i :: rest, fl2)
  end.

(** Whether a previous spill state may be continued. *)
Definition continue_spill (fl : fleet) (prev : Failover) (policy : SpillPolicy) (addrs : list SocketAddr)
    (same_load_source : bool) : option nat :=
  match fo_spill prev with
  | Some (p, cell) =>
      if same_load_source && SpillPolicy_eqb p policy &&
         bool_decide ((fun i => fp_addr (peer_at fl i)) <$> fo_peers prev = addrs)
      then Some cell else None
  | None => None
  end.

Definition Failover_new (fl : fleet) (policy : FailoverPolicy) (previous : option Failover)
    (tcp_health : option nat) (same_load_source : bool) : Failover * fleet :=
  let '(peers, fl1) := adopt_peers fl (match previous with Some p => fo_peers p | None => [] end) (pol_peers policy) in
  let '(spill, fl2) :=
    match pol_spill policy with
    | None => (None, fl1)
    | Some sp =>
        match (prev ← previous; continue_spill fl prev sp (pol_peers policy) same_load_source) with
        | Some cell => (Some (sp, cell), fl1)
        | None => let i := next_fleet fl1 in
                  (Some (sp, i), mkFleet (peer_cells fl1) (<[i := SpillState_default]> (spill_cells fl1))
                                   (status_cells fl1) (S i))
        end
    end in
  let '(status, fl3) :=
    match previous with
    | Some p => (fo_status p, fl2)
    | None => let i := next_fleet fl2 in
              (i, mkFleet (peer_cells fl2) (spill_cells fl2)
                    (<[i := FailoverStatus_default]> (status_cells fl2)) (S i))
    end in
  (mkFailover (pol_drain policy) (pol_probe_interval policy) (pol_cooldown_min policy)
     (pol_cooldown_max policy) peers 0 tcp_health status spill, fl3).

(** The spill target of a client, and the admission word cleared once it has
    expired. [hash] is the salted hash of the client's address and port. *)
Definition spill_target (fl : fleet) (fo : Failover) (cell : nat) (hash now : Z) : option nat * fleet :=
  match Admission_unpack (sp_admission (spill_at fl cell)) with
  | None => (None, fl)
  | Some a =>
      if adm_until_ms a <=? now / 1000000 then
        let s := spill_at fl cell in
        (None, put_spill fl cell (mkSpillState 0 (sp_fraction s) (sp_last_ns s)))
      else
        match fo_peers fo !! adm_target a with
        | None => (None, fl)
        | Some p =>
            (if (hash mod 1000 <? adm_fraction a) && negb (cooling_down (peer_at fl p) now)
             then Some (adm_target a) else None, fl)
        end
  end.

(** [3 * interval] is computed in u64. *)
Definition report_ttl_ms (fo : Failover) : Z :=
  Z.max ((3 * fo_probe_interval fo) mod (u64_max + 1)) MIN_REPORT_TTL_NS / 1000000.

Inductive Destination : Type :=
  | Tcp (addr : SocketAddr)
  | UdsSet (b : UdsBalancer).

Definition destination_down (sh : shared) (fo : Failover) (d : Destination) : bool :=
  match d with
  | UdsSet b => all_refusing sh b
  | Tcp _ => match fo_tcp_health fo with Some h => refusing sh h | None => false end
  end.

Definition locally_down (sh : shared) (fo : Failover) (d : Destination) (h2 : option Destination) : bool :=
  destination_down sh fo d || match h2 with Some d2 => destination_down sh fo d2 | None => false end.

(** ** Candidates *)

Definition ready (fl : fleet) (now : Z) (p : nat) : bool := negb (cooling_down (peer_at fl p) now).

(** [(0..count).map(|i| &peers[(start + i) % count])] *)
Definition rotation (start : nat) (peers : list nat) : list nat := drop start peers ++ take start peers.

Definition earlier (fl : fleet) (a b : nat) : bool :=
  cooldown_until (peer_at fl a) <=? cooldown_until (peer_at fl b).

(** How many peers to try, the peers in order, and the cursor moved on. *)
Definition candidates (fl : fleet) (fo : Failover) (now : Z) (wait_for_cooldown : bool)
    : nat * list nat * Failover :=
  let count := length (fo_peers fo) in
  let '(start, fo') :=
    if (count =? 1)%nat then (O, fo)
    else (Z.to_nat (fo_cursor fo mod Z.of_nat count),
          mkFailover (fo_drain fo) (fo_probe_interval fo) (fo_cooldown_min_ns fo) (fo_cooldown_max_ns fo)
            (fo_peers fo) (u64_wrapping_add (fo_cursor fo) 1) (fo_tcp_health fo) (fo_status fo) (fo_spill fo)) in
  let nready := length (List.filter (ready fl now) (fo_peers fo)) in
  let earliest := if (nready =? 0)%nat && wait_for_cooldown
                  then min_by (earlier fl) (fo_peers fo) else None in
  (Nat.max nready (match earliest with Some _ => 1 | None => 0 end),
   List.filter (ready fl now) (rotation start (fo_peers fo)) ++
     match earliest with Some p => [p] | None => [] end,
   fo').

Definition candidates_for (fl : fleet) (fo : Failover) (mode : ForwardMode) (now : Z)
    : nat * list nat * Failover :=
  match mode with
  | SpillTo i =>
      match fo_peers fo !! i with
      | Some p => if ready fl now p then (1%nat, [p], fo) else (0%nat, [], fo)
      | None => (0%nat, [], fo)
      end
  | Drain => candidates fl fo now false
  | Down => candidates fl fo now true
  end.

(** ** Forwarding *)

Inductive Forwarded : Type :=
  | Done (r : result ErrorKind unit)
  | ServeLocally (left : Z).

(** The network side of one attempt: how the connect ended, whether the hello
    was written, what the one-byte peek returned, and how long it all took. *)
Inductive connect_end : Type := Connected | ConnectRefused | ConnectFailed.
Record attempt_io : Type := mkAttempt {
  ai_connect : connect_end;
  ai_write : bool;
  ai_peek : option nat;
  ai_took : Z;
}.

Definition attempt_peer (io : attempt_io) (share : Z) : result PeerFailureKind unit :=
  if share <=? ai_took io then Err FTimeout
  else match ai_connect io with
       | ConnectRefused => Err FRefused
       | ConnectFailed => Err FError
       | Connected =>
           if negb (ai_write io) then Err FZeroByteClose
           else match ai_peek io with
                | Some (S _) => Ok tt
                | _ => Err FZeroByteClose
                end
       end.

(** What a connection meets on its way: the time since the start at the [k]th
    attempt and at the end, the [k]th attempt's network side, the clock at its
    end, how many bytes of the hello the client socket still showed, and, once
    a peer has answered, whether the hello could be read and how the tunnel
    ended. *)
Record fwd_world : Type := mkFwd {
  fw_elapsed : nat -> Z;
  fw_elapsed_end : Z;
  fw_io : nat -> SocketAddr -> attempt_io;
  fw_clock : nat -> Z;
  fw_hello_seen : option nat;
  fw_hello_read : bool;
  fw_tunnel : result ErrorKind unit;
}.

(** The result, the store, the peers attempted (in order) and how many bytes the
    code set out to take from the client's socket before the tunnel. *)
Record fwd_result : Type := mkFwdResult {
  fr_outcome : Forwarded;
  fr_fleet : fleet;
  fr_attempts : list nat;
  fr_consumed : nat;
}.

Definition bump_status (fl : fleet) (fo : Failover) (mode : ForwardMode) : fleet :=
  let s := status_at fl (fo_status fo) in
  put_status fl (fo_status fo)
    match mode with
    | Down => mkStatus (reported_down s) (last_probe_ns s) (replays s) (add1 (exhausted s)) (local_fallbacks s)
    | _ => mkStatus (reported_down s) (last_probe_ns s) (replays s) (exhausted s) (add1 (local_fallbacks s))
    end.

Definition bump_replays (fl : fleet) (fo : Failover) : fleet :=
  let s := status_at fl (fo_status fo) in
  put_status fl (fo_status fo)
    (mkStatus (reported_down s) (last_probe_ns s) (add1 (replays s)) (exhausted s) (local_fallbacks s)).

(** The closure [give_up]. *)
Definition gave_up (w : fwd_world) (fl : fleet) (fo : Failover) (mode : ForwardMode) (handshake : Z)
    : Forwarded * fleet :=
  (match mode with
   | Down => Done (Err EUpstreamConnect)
   | _ => ServeLocally (saturating_sub handshake (fw_elapsed_end w))
   end, bump_status fl fo mode).

Definition hand_over (p : FailoverPeer) (mode : ForwardMode) : FailoverPeer :=
  let p := clear_cooldown p in
  match mode with
  | SpillTo _ => mkPeer (fp_addr p) (fp_cooldown p) (fp_forwarded p) (add1 (fp_spilled p)) (fp_failures p)
                   (fp_report p) (fp_rtt_us p)
  | _ => mkPeer (fp_addr p) (fp_cooldown p) (add1 (fp_forwarded p)) (fp_spilled p) (fp_failures p)
           (fp_report p) (fp_rtt_us p)
  end.

Definition forward_budget (mode : ForwardMode) (handshake : Z) : Z :=
  match mode with
  | Down => handshake
  | Drain => Z.min (handshake / 2) DRAIN_BUDGET
  | SpillTo _ => Z.min (handshake / 2) SPILL_BUDGET
  end.

Fixpoint forward_loop (w : fwd_world) (fo : Failover) (mode : ForwardMode) (handshake budget : Z)
    (count hello_len attempt : nat) (peers : list nat) (fl : fleet) (tried : list nat) : fwd_result :=
  match peers with
  | [] => let '(r, fl) := gave_up w fl fo mode handshake in mkFwdResult r fl tried 0
  | p :: peers' =>
      let remaining := saturating_sub budget (fw_elapsed w attempt) in
      if remaining =? 0 then
        let '(r, fl) := gave_up w fl fo mode handshake in mkFwdResult r fl tried 0
      else
        let fl := if (0 <? attempt)%nat then bump_replays fl fo else fl in
        let share := remaining / Z.of_nat (Nat.max (count - attempt) 1) in
        let tried := tried ++ [p] in
        match attempt_peer (fw_io w attempt (fp_addr (peer_at fl p))) share with
        | Ok _ =>
            let fl := put_peer fl p (hand_over (peer_at fl p) mode) in
            if fw_hello_read w then mkFwdResult (Done (fw_tunnel w)) fl tried hello_len
            else mkFwdResult (Done (Err EStream)) fl tried hello_len
        | Err kind =>
            let fl := put_peer fl p
              (record_failure (peer_at fl p) kind (fo_cooldown_min_ns fo) (fo_cooldown_max_ns fo)
                 (fw_clock w attempt)) in
            forward_loop w fo mode handshake budget count hello_len (S attempt) peers' fl tried
        end
  end.

Definition forward_to_peers (w : fwd_world) (fl : fleet) (fo : Failover) (complete : bool)
    (hello_len : nat) (mode : ForwardMode) (handshake : Z) (peer : SocketAddr)
    (local : option SocketAddr) (now : Z) : fwd_result * Failover :=
  let quit := let '(r, fl) := gave_up w fl fo mode handshake in mkFwdResult r fl [] 0 in
  if negb complete || (hello_len =? 0)%nat then
    (match mode with Down => mkFwdResult (Done (Err EUpstreamConnect)) fl [] 0 | _ => quit end, fo)
  else
    let '(count, peers, fo') := candidates_for fl fo mode now in
    if (count =? 0)%nat then (quit, fo')
    else match write_proxy_v2_header peer local [] with
         | Err _ => (quit, fo')
         | Ok _ =>
             if bool_decide (fw_hello_seen w = Some hello_len)
             then (forward_loop w fo' mode handshake (forward_budget mode handshake) count hello_len 0
                     peers fl [], fo')
             else (quit, fo')
         end.

(** ** The spill controller *)

Inductive Trend : Type := Rise | Hold | Decay.

Record PeerView : Type := mkView {
  pv_load : option Z;
  pv_report_until_ms : Z;
  pv_cooling : bool;
  pv_rtt : option Z;
}.

Definition eligible (policy : SpillPolicy) (now_ms : Z) (p : PeerView) : bool :=
  (now_ms <? pv_report_until_ms p) && negb (pv_cooling p) &&
  match max_peer_rtt policy with
  | None => true
  | Some mx => match pv_rtt p with Some r => r <=? mx | None => false end
  end.

(** [(index, load, report deadline)] of the peers that may be spilled to. *)
Definition offers (policy : SpillPolicy) (now_ms : Z) (peers : list PeerView) : list (nat * Z * Z) :=
  omap (fun e => if eligible policy now_ms e.2
                 then (fun l => (e.1, l, pv_report_until_ms e.2)) <$> pv_load e.2 else None)
    (enumerate peers).

Definition offer_le (a b : nat * Z * Z) : bool := a.1.2 <=? b.1.2.

(** The sums are computed in u32. *)
Definition assess (policy : SpillPolicy) (local : option (Z * Z)) (peers : list PeerView) (now_ms : Z)
    : Trend * option (nat * Z) :=
  match local with
  | None => (Decay, None)
  | Some (l, local_until) =>
      if negb (now_ms <? local_until) then (Decay, None)
      else match min_by offer_le (offers policy now_ms peers) with
           | None => (Decay, None)
           | Some (target, peer_load, report_until) =>
               let until := Z.min local_until report_until in
               let w := u32_wrapping_add in
               if (high_water policy <=? l) && (w peer_load (margin policy) <=? l)
               then (Rise, Some (target, until))
               else if (w 0 (2 * high_water policy) <=? w (w 0 (2 * l)) (margin policy)) &&
                       (w (w 0 (2 * peer_load)) (margin policy) <=? w 0 (2 * l))
               then (Hold, Some (target, until))
               else (Decay, None)
           end
  end.

Definition control (policy : SpillPolicy) (s : SpillState) (local : option (Z * Z))
    (peers : list PeerView) (now_ns : Z) : option Admission * SpillState :=
  let elapsed := if sp_last_ns s =? 0 then 0
                 else Z.min (saturating_sub now_ns (sp_last_ns s)) MAX_CONTROL_STEP_NS in
  let '(trend, target) := assess policy local peers (now_ns / 1000000) in
  let delta := f64_div (f64_mul (step policy) (f64_of_Z elapsed)) (f64_of_Z 1000000000) in
  let fraction := f64_clamp f64_zero (f64_of_Z (max_fraction policy))
    match trend with
    | Rise => f64_add (sp_fraction s) delta
    | Hold => sp_fraction s
    | Decay => f64_sub (sp_fraction s) delta
    end in
  let adm := match target with
             | Some (t, until) =>
                 let f := f64_as_u32 (f64_round fraction) in
                 if 0 <? f then Some (mkAdmission f t until) else None
             | None => None
             end in
  (adm, mkSpillState (match adm with Some a => Admission_pack a | None => 0 end) fraction now_ns).

Definition spill_status (fl : fleet) (fo : Failover) (now_ns : Z) : option (f64 * option SocketAddr) :=
  match fo_spill fo with
  | None => None
  | Some (_, cell) =>
      match admission (spill_at fl cell) (now_ns / 1000000) with
      | Some a => Some (f64_div (f64_of_Z (adm_fraction a)) (f64_of_Z 1000),
                        (fun p => fp_addr (peer_at fl p)) <$> fo_peers fo !! adm_target a)
      | None => Some (f64_zero, None)
      end
  end.

(** ** The load poll *)

Record FailoverRoute : Type := mkRoute {
  fr_identity : nat;
  fr_route : bytes;
  fr_group : bytes;
  fr_failover : Failover;
  fr_destination : Destination;
  fr_destination_h2 : option Destination;
}.

Definition route_locally_down (sh : shared) (r : FailoverRoute) : bool :=
  locally_down sh (fr_failover r) (fr_destination r) (fr_destination_h2 r).

(** [(refusing, total)] over the route's destinations. *)
Definition destination_slots (sh : shared) (fo : Failover) (d : Destination) : nat * nat :=
  match d with
  | UdsSet b => (length (List.filter (fun e => refusing sh e.2) (tracked_slots b)), length (tracked_slots b))
  | Tcp _ => (match fo_tcp_health fo with Some h => if refusing sh h then 1 else 0 | None => 0 end, 1)%nat
  end.
Definition slot_counts (sh : shared) (r : FailoverRoute) : nat * nat :=
  let a := destination_slots sh (fr_failover r) (fr_destination r) in
  match fr_destination_h2 r with
  | Some d => let b := destination_slots sh (fr_failover r) d in (a.1 + b.1, a.2 + b.2)%nat
  | None => a
  end.

Definition peer_view (fl : fleet) (ttl_ms now : Z) (i : nat) : PeerView :=
  let p := peer_at fl i in
  mkView (fst <$> peer_report p)
    (match peer_report p with Some (_, at_ms) => u64_wrapping_add at_ms ttl_ms | None => 0 end)
    (cooling_down p now) (rtt p).

(** [local_load] is [router::route_load] of the route's destinations at [now]. *)
Definition control_route (fl : fleet) (local_load : FailoverRoute -> option (Z * Z)) (now : Z)
    (r : FailoverRoute) : fleet :=
  match fo_spill (fr_failover r) with
  | None => fl
  | Some (policy, cell) =>
      let views := peer_view fl (report_ttl_ms (fr_failover r)) now <$> fo_peers (fr_failover r) in
      put_spill fl cell (control policy (spill_at fl cell) (local_load r) views now).2
  end.
Definition control_all (fl : fleet) (local_load : FailoverRoute -> option (Z * Z)) (now : Z)
    (routes : list FailoverRoute) : fleet :=
  foldl (fun fl r => control_route fl local_load now r) fl routes.

Record LoadAnswer : Type := mkAnswer { la_rtt : Z; la_loads : list (option (option Z * Z)) }.

(** One chunk's exchange: the connect time, what the peer sent, and the time in
    ms; [None] when a step failed or the time limit passed. *)
Fixpoint query_chunks (sizes : list nat) (replies : list (option (Z * bytes * Z)))
    (rtt : option Z) (loads : list (option (option Z * Z))) : option Z * list (option (option Z * Z)) :=
  match sizes, replies with
  | n :: sizes', Some (connect, answer, at_ms) :: replies' =>
      match parse_load_answer (take (S (max_load_answer_len n)) answer) n with
      | None => (rtt, loads)
      | Some ls =>
          query_chunks sizes' replies' (Some (default connect rtt)) (loads ++ ((fun l => Some (l, at_ms)) <$> ls))
      end
  | _, _ => (rtt, loads)
  end.

Definition query_load (names : list bytes) (replies : list (option (Z * bytes * Z))) : option LoadAnswer :=
  let '(rtt, loads) := query_chunks (length <$> load_query_chunks names) replies None [] in
  rtt ← rtt;
  Some (mkAnswer rtt (take (length names) loads ++ replicate (length names - length loads) None)).

Definition apply_to_route (addr : SocketAddr) (names : list bytes) (answer : LoadAnswer) (fl : fleet)
    (r : FailoverRoute) : fleet :=
  match fo_spill (fr_failover r) with
  | None => fl
  | Some _ =>
      match find_first (fun p => bool_decide (fp_addr (peer_at fl p) = addr)) (fo_peers (fr_failover r)),
            position (fun n => bytes_eqb n (fr_route r)) names with
      | Some p, Some i =>
          let cell := record_rtt (peer_at fl p) (la_rtt answer) in
          let cell := match la_loads answer !! i with
                      | Some (Some (load, at_ms)) => set_report cell load at_ms
                      | _ => cell
                      end in
          put_peer fl p cell
      | _, _ => fl
      end
  end.

Definition apply_answer (fl : fleet) (routes : list FailoverRoute) (addr : SocketAddr)
    (names : list bytes) (answer : option LoadAnswer) : fleet :=
  match answer with
  | None => fl
  | Some a => foldl (apply_to_route addr names a) fl routes
  end.

(** ** The probe *)

Inductive Endpoint : Type := EUds (path : bytes) | ETcp (addr : SocketAddr).

#[global] Instance Endpoint_eq_dec : EqDecision Endpoint.
Proof. solve_decision. Defined.

(** The refusing endpoints of a destination, with the refusal observed. *)
Definition probe_targets (sh : shared) (fo : Failover) (d : Destination) : list (Endpoint * nat * Z) :=
  List.filter (fun t => negb (t.2 =? 0))
    match d with
    | UdsSet b => (fun e => (EUds e.1, e.2, refused_at sh e.2)) <$> tracked_slots b
    | Tcp addr => match fo_tcp_health fo with Some h => [(ETcp addr, h, refused_at sh h)] | None => [] end
    end.

Definition route_targets (sh : shared) (r : FailoverRoute) : list (Endpoint * nat * Z) :=
  probe_targets sh (fr_failover r) (fr_destination r) ++
  match fr_destination_h2 r with Some d => probe_targets sh (fr_failover r) d | None => [] end.

(** The targets of a route that is due, and its probe time stamped when there
    are any. *)
Definition probe_route (sh : shared) (now : Z) (acc : fleet * list (Endpoint * nat * Z)) (r : FailoverRoute)
    : fleet * list (Endpoint * nat * Z) :=
  let '(fl, due) := acc in
  let s := status_at fl (fo_status (fr_failover r)) in
  let interval := fo_probe_interval (fr_failover r) in
  if saturating_sub now (last_probe_ns s) <? interval - interval / 10 then (fl, due)
  else
    match route_targets sh r with
    | [] => (fl, due)
    | targets =>
        (put_status fl (fo_status (fr_failover r))
           (mkStatus (reported_down s) now (replays s) (exhausted s) (local_fallbacks s)), due ++ targets)
    end.

Definition probe_due (fl : fleet) (sh : shared) (routes : list FailoverRoute) (now : Z)
    : fleet * list (Endpoint * nat * Z) := foldl (probe_route sh now) (fl, []) routes.

(** [stays_open]: the reads until the settle time, and whether it was reached. *)
Fixpoint stays_open (reads : list (option nat)) : bool :=
  match reads with
  | [] => true
  | Some (S _) :: reads' => stays_open reads'
  | _ => false
  end.

(** [probe]: an endpoint that can be reached in time, and stays open. *)
Definition probe (reached : bool) (reads : list (option nat)) : bool := reached && stays_open reads.

(** The end of a pass: every endpoint that stayed open clears the refusals that
    were observed before it was probed. *)
Definition probe_apply (alive : Endpoint -> bool) (sh : shared) (due : list (Endpoint * nat * Z)) : shared :=
  foldl (fun sh t => if alive t.1.1 then (clear_if_unchanged sh t.1.2 t.2).2 else sh) sh due.

(** A route's [routeHealth] transition: the new reported state and the event
    (up or down) when there is one; [queued] is whether the event was taken. *)
Definition report_health (reported down queued : bool) : bool * option bool :=
  if Bool.eqb reported down then (reported, None)
  else (if queued then down else reported, if queued then Some (negb down) else None).

(** ** Lemmas: the cooldown word *)

Lemma until_mask : COOLDOWN_UNTIL_MASK = 72057594037927935.
Proof. reflexivity. Qed.

(** Streak and deadline come back out of a packed word. *)
Lemma cooldown_unpack streak until :
  0 <= until <= COOLDOWN_UNTIL_MASK ->
  Z.shiftr (Z.lor (Z.shiftl streak 56) until) 56 = streak /\
  Z.land (Z.lor (Z.shiftl streak 56) until) COOLDOWN_UNTIL_MASK = until.
Proof.
  intros Hu. rewrite until_mask in *.
  rewrite lor_shiftl_add by (change (2 ^ 56) with 72057594037927936; lia).
  rewrite Z.shiftr_div_pow2 by lia. change 72057594037927935 with (2 ^ 56 - 1).
  rewrite land_mask by lia.
  rewrite high_field, low_field by (change (2 ^ 56) with 72057594037927936; lia). done.
Qed.

(** The streak of a run of failures, and the backoff it has earned. *)
Definition streak_of (k : nat) : Z := Z.min (Z.of_nat k) 255.
Definition backoff (min_ns max_ns : Z) (k : nat) : Z :=
  Z.min (min_ns * 2 ^ (Z.min (streak_of k - 1) 63)) max_ns.

Lemma cooldown_step_spec state k min_ns max_ns now :
  Z.shiftr state 56 = streak_of k -> 0 <= Z.land state COOLDOWN_UNTIL_MASK ->
  0 <= min_ns -> 0 <= max_ns <= u64_max -> 0 <= now -> now + max_ns <= COOLDOWN_UNTIL_MASK ->
  Z.shiftr (cooldown_step state min_ns max_ns now) 56 = streak_of (S k) /\
  Z.land (cooldown_step state min_ns max_ns now) COOLDOWN_UNTIL_MASK =
    Z.min (Z.max (Z.land state COOLDOWN_UNTIL_MASK) (now + backoff min_ns max_ns (S k))) COOLDOWN_UNTIL_MASK.
Proof.
  intros Hs H0 Hmin Hmax Hnow Hfit. unfold cooldown_step, COOLDOWN_STREAK_SHIFT. rewrite Hs. cbv zeta.
  assert (Z.min (u64_saturating_add (streak_of k) 1) 255 = streak_of (S k)) as ->.
  { unfold streak_of. ulia. }
  assert (Z.min (u64_saturating_mul min_ns (Z.shiftl 1 (Z.min (streak_of (S k) - 1) 63))) max_ns
          = backoff min_ns max_ns (S k)) as ->.
  { unfold backoff, u64_saturating_mul. rewrite Z.shiftl_1_l. unfold u64_max in *. lia. }
  assert (0 <= backoff min_ns max_ns (S k) <= max_ns) as Hb.
  { unfold backoff. split; [|lia]. apply Z.min_glb; [|lia].
    apply Z.mul_nonneg_nonneg; [lia |]. apply Z.pow_nonneg. lia. }
  assert (u64_saturating_add now (backoff min_ns max_ns (S k)) = now + backoff min_ns max_ns (S k)) as ->.
  { rewrite until_mask in Hfit. ulia. }
  apply cooldown_unpack. lia.
Qed.

(** A run of failures, all of one kind, at the given times. *)
Definition fail_at (kind : PeerFailureKind) (min_ns max_ns : Z) (p : FailoverPeer) (times : list Z) : FailoverPeer :=
  foldl (fun p t => record_failure p kind min_ns max_ns t) p times.

Definition time_ok (max_ns t : Z) : Prop := 0 <= t /\ t + max_ns <= COOLDOWN_UNTIL_MASK.

Lemma fail_at_streak kind min_ns max_ns times p k :
  0 <= min_ns -> 0 <= max_ns <= u64_max -> Forall (time_ok max_ns) times ->
  Z.shiftr (fp_cooldown p) 56 = streak_of k -> 0 <= cooldown_until p ->
  Z.shiftr (fp_cooldown (fail_at kind min_ns max_ns p times)) 56 = streak_of (k + length times) /\
  0 <= cooldown_until (fail_at kind min_ns max_ns p times).
Proof.
  intros Hmin Hmax Htimes. revert p k; induction Htimes as [|t times [Ht0 Ht] _ IH]; intros p k Hs Hu.
  { simpl. by rewrite Nat.add_0_r. }
  cbn [fail_at foldl length]. rewrite <- Nat.add_succ_comm.
  destruct (cooldown_step_spec (fp_cooldown p) k min_ns max_ns t) as [Hs' Hu']; try done.
  apply IH; [done |]. unfold cooldown_until. cbn [record_failure fp_cooldown]. rewrite Hu'.
  rewrite until_mask in *. unfold cooldown_until in Hu. rewrite until_mask in Hu. lia.
Qed.

(** ** Lemmas: packed words *)

Lemma report_packed ms load :
  0 <= ms < 18014398509481984 -> 0 <= load < 1024 ->
  Z.lor (Z.shiftl ms 10 mod (u64_max + 1)) load = ms * 1024 + load.
Proof.
  intros Hms Hl. rewrite Z.mod_small.
  - by rewrite lor_shiftl_add by (change (2 ^ 10) with 1024; lia).
  - rewrite Z.shiftl_mul_pow2 by lia. change (2 ^ 10) with 1024. unfold u64_max. lia.
Qed.

Lemma pack_layout f t u :
  0 <= f < 1024 -> 0 <= t < 65536 -> 0 <= u < 274877906944 ->
  Z.lor (Z.lor (Z.shiftl u 26 mod (u64_max + 1)) (Z.shiftl t 10)) f = (u * 65536 + t) * 1024 + f.
Proof.
  intros Hf Ht Hu. rewrite Z.mod_small.
  2: { rewrite Z.shiftl_mul_pow2 by lia. change (2 ^ 26) with 67108864. unfold u64_max. lia. }
  rewrite (Z.shiftl_mul_pow2 t) by lia. change (2 ^ 10) with 1024.
  rewrite (lor_shiftl_add u (t * 1024)) by (change (2 ^ 26) with 67108864; lia).
  change (2 ^ 26) with 67108864.
  replace (u * 67108864 + t * 1024) with (Z.shiftl (u * 65536 + t) 10)
    by (rewrite Z.shiftl_mul_pow2 by lia; change (2 ^ 10) with 1024; lia).
  rewrite lor_shiftl_add by (change (2 ^ 10) with 1024; lia). done.
Qed.

Lemma admission_roundtrip a :
  0 < adm_fraction a <= 1000 -> (adm_target a < Z.to_nat 65536)%nat -> 0 <= adm_until_ms a < 274877906944 ->
  Admission_unpack (Admission_pack a) = Some a.
Proof.
  destruct a as [f t u]. cbn [adm_fraction adm_target adm_until_ms]. intros Hf Ht Hu.
  unfold Admission_pack, Admission_unpack. cbn [adm_fraction adm_target adm_until_ms].
  assert (Z.land (Z.of_nat t) 65535 = Z.of_nat t) as Htarget.
  { change 65535 with (2 ^ 16 - 1). rewrite land_mask by lia. change (2 ^ 16) with 65536.
    apply Z.mod_small. lia. }
  rewrite Htarget, Z.min_l by lia. rewrite pack_layout by lia.
  change 1023 with (2 ^ 10 - 1). rewrite land_mask by lia. change 1024 with (2 ^ 10).
  rewrite low_field by (change (2 ^ 10) with 1024; lia).
  rewrite (proj2 (Z.eqb_neq f 0)) by lia.
  rewrite !Z.shiftr_div_pow2 by lia. rewrite high_field by (change (2 ^ 10) with 1024; lia).
  change (2 ^ 26) with (2 ^ 10 * 2 ^ 16). rewrite <- Z.div_div by done.
  rewrite high_field by (change (2 ^ 10) with 1024; lia).
  change 65535 with (2 ^ 16 - 1). rewrite land_mask by lia. change 65536 with (2 ^ 16).
  rewrite low_field, high_field by (change (2 ^ 16) with 65536; lia). by rewrite Nat2Z.id.
Qed.

(** ** Lemmas: candidates *)

Lemma rotation_perm start peers : rotation start peers ≡ₚ peers.
Proof. unfold rotation. rewrite Permutation_app_comm. by rewrite take_drop. Qed.

Lemma filter_perm {A} (f : A -> bool) (l k : list A) : l ≡ₚ k -> List.filter f l ≡ₚ List.filter f k.
Proof.
  induction 1 as [|x l k _ IH|x y l|l k m _ IH1 _ IH2]; simpl; [done | by destruct (f x); rewrite IH | |].
  - destruct (f x), (f y); try done. apply Permutation_swap.
  - by rewrite IH1.
Qed.

Lemma earliest_spec fl l p :
  min_by (earlier fl) l = Some p ->
  p ∈ l /\ forall q, q ∈ l -> cooldown_until (peer_at fl p) <= cooldown_until (peer_at fl q).
Proof.
  intros Hm. apply min_by_spec in Hm as [Hin Hmin].
  - split; [done |]. intros q Hq. apply Z.leb_le, (Hmin q Hq).
  - intros a. apply Z.leb_refl.
  - unfold earlier. intros a b c. rewrite !Z.leb_le. lia.
  - unfold earlier. intros a b. rewrite !Z.leb_le. lia.
Qed.

Lemma filter_bool_nodup {A} (f : A -> bool) (l : list A) : NoDup l -> NoDup (List.filter f l).
Proof.
  induction 1 as [|x l Hx _ IH]; simpl; [constructor |]. destruct (f x); [|done].
  constructor; [|done]. intros [Hin _]%list_elem_of_In%filter_In. by apply Hx, list_elem_of_In.
Qed.

(** The candidates of a search are tried once each, and counted. *)
Lemma candidates_once fl fo now wait n l fo' :
  candidates fl fo now wait = (n, l, fo') -> n = length l /\ (NoDup (fo_peers fo) -> NoDup l).
Proof.
  unfold candidates. cbv zeta.
  match goal with |- context [let '(_, _) := ?x in _] => destruct x as [start fo1] end. intros [= <- <- _].
  pose proof (filter_perm (ready fl now) _ _ (rotation_perm start (fo_peers fo))) as Hperm.
  rewrite length_app, (Permutation_length Hperm). split.
  - destruct (_ =? _)%nat eqn:E; simpl; [|lia]. destruct (if wait then _ else _); simpl; apply Nat.eqb_eq in E; lia.
  - intros Hnd. assert (NoDup (List.filter (ready fl now) (rotation start (fo_peers fo)))) as Hr
      by (rewrite Hperm; by apply filter_bool_nodup).
    destruct (Nat.eqb_spec (length (List.filter (ready fl now) (fo_peers fo))) 0) as [Hz|]; [|by rewrite app_nil_r].
    rewrite <- (Permutation_length Hperm) in Hz. apply nil_length_inv in Hz. rewrite Hz. simpl.
    destruct (if wait then _ else _); [apply NoDup_singleton | constructor].
Qed.

Lemma candidates_for_once fl fo mode now n l fo' :
  candidates_for fl fo mode now = (n, l, fo') -> n = length l /\ (NoDup (fo_peers fo) -> NoDup l).
Proof.
  destruct mode as [| |i]; simpl; [apply candidates_once | apply candidates_once |].
  destruct (fo_peers fo !! i) as [p|]; [destruct (ready _ _ _)|]; intros [= <- <- _]; (split; [done |]); intros _;
    [apply NoDup_singleton | constructor..].
Qed.

(** ** Lemmas: the spill decision *)

Lemma offers_spec policy now_ms peers i l u :
  (i, l, u) ∈ offers policy now_ms peers <->
  exists v, peers !! i = Some v /\ eligible policy now_ms v = true /\ pv_load v = Some l /\
    u = pv_report_until_ms v.
Proof.
  unfold offers. rewrite list_elem_of_omap. split.
  - intros ([j v] & Hin & Hv). apply elem_of_enumerate in Hin. simpl in Hv.
    destruct (eligible policy now_ms v) eqn:He; [|done]. destruct (pv_load v) eqn:Hl; simplify_eq/=. eauto.
  - intros (v & Hi & He & Hl & ->). exists (i, v). split; [by apply elem_of_enumerate |].
    simpl. by rewrite He, Hl.
Qed.

Definition permille (z : Z) : Prop := 0 <= z <= 1000.

Lemma small_u32 a b : 0 <= a <= 4000 -> 0 <= b <= 4000 -> u32_wrapping_add a b = a + b.
Proof. intros. unfold u32_wrapping_add. apply Z.mod_small. unfold u32_max. lia. Qed.

(** A published target is the least loaded eligible peer, at least half the
    margin below the local load, while both readings are current. *)
Lemma assess_target policy l lu peers now_ms t until tr :
  permille l -> permille (high_water policy) -> permille (margin policy) ->
  (forall i v pl, peers !! i = Some v -> pv_load v = Some pl -> permille pl) ->
  assess policy (Some (l, lu)) peers now_ms = (tr, Some (t, until)) ->
  exists v pl, peers !! t = Some v /\ eligible policy now_ms v = true /\ pv_load v = Some pl /\
    2 * pl + margin policy <= 2 * l /\ 2 * high_water policy <= 2 * l + margin policy /\
    until = Z.min lu (pv_report_until_ms v) /\ now_ms < until /\
    forall i v' pl', peers !! i = Some v' -> eligible policy now_ms v' = true -> pv_load v' = Some pl' -> pl <= pl'.
Proof.
  unfold permille. intros Hl Hhw Hm Hpeers. unfold assess.
  destruct (Z.ltb_spec now_ms lu) as [Hlu|]; [|done]. cbn [negb].
  destruct (min_by offer_le (offers policy now_ms peers)) as [[[t' pl] u']|] eqn:E; [|done].
  apply min_by_spec in E as [Hin Hmin].
  2: { intros a. apply Z.leb_refl. }
  2: { unfold offer_le. intros a b c. rewrite !Z.leb_le. lia. }
  2: { unfold offer_le. intros a b. rewrite !Z.leb_le. lia. }
  apply offers_spec in Hin as (v & Hi & He & Hload & ->).
  pose proof (Hpeers _ _ _ Hi Hload) as Hpl. cbv zeta.
  rewrite !small_u32 by (rewrite ?small_u32; lia).
  assert (now_ms < pv_report_until_ms v).
  { unfold eligible in He. bool_to_prop. done. }
  intros Hres.
  assert (2 * pl + margin policy <= 2 * l /\ 2 * high_water policy <= 2 * l + margin policy /\
    t' = t /\ until = Z.min lu (pv_report_until_ms v)) as (? & ? & -> & ->).
  { destruct ((_ <=? _) && _) eqn:E1 in Hres; [bool_to_prop; simplify_eq; lia |].
    destruct ((_ <=? _) && _) eqn:E2 in Hres; [bool_to_prop; simplify_eq; lia | done]. }
  exists v, pl. split_and!; try done; [lia |].
  intros i v' pl' Hv' He' Hl'. apply Z.leb_le.
  apply (Hmin (i, pl', pv_report_until_ms v')). apply offers_spec. eauto 10.
Qed.

(** ** Lemmas: forwarding *)

(** Why a search ends without a peer: every candidate was tried, or the budget
    was spent before the next one. *)
Definition searched (w : fwd_world) (budget : Z) (attempt : nat) (peers more : list nat) : Prop :=
  more = peers \/ (more `prefix_of` peers /\ saturating_sub budget (fw_elapsed w (attempt + length more)) = 0).

(** How a search ends, with the peers in [more] tried: the last of them answered
    and has the connection, or none did, and the connection is left as it was. *)
Definition search_ends (w : fwd_world) (mode : ForwardMode) (handshake : Z) (hello : nat) (more : list nat)
    (gone_through : Prop) (r : fwd_result) : Prop :=
  match fr_outcome r with
  | ServeLocally time_left =>
      mode <> Down /\ time_left = saturating_sub handshake (fw_elapsed_end w) /\ fr_consumed r = O /\ gone_through
  | Done e =>
      (more <> [] /\ fr_consumed r = hello /\ e = if fw_hello_read w then fw_tunnel w else Err EStream) \/
      (mode = Down /\ e = Err EUpstreamConnect /\ fr_consumed r = O /\ gone_through)
  end.

Lemma gave_up_ends w fl fo mode handshake hello more tried (P : Prop) :
  P -> search_ends w mode handshake hello more P
         (let '(r, fl') := gave_up w fl fo mode handshake in mkFwdResult r fl' tried 0).
Proof. intros HP. unfold search_ends, gave_up. destruct mode; simpl; auto. Qed.

Lemma gave_up_attempts w fl fo mode handshake tried :
  fr_attempts (let '(r, fl') := gave_up w fl fo mode handshake in mkFwdResult r fl' tried 0) = tried.
Proof. by destruct (gave_up _ _ _ _ _). Qed.

Lemma forward_loop_ok w fo mode handshake budget count hello attempt peers fl tried :
  let r := forward_loop w fo mode handshake budget count hello attempt peers fl tried in
  exists more, fr_attempts r = tried ++ more /\ more `prefix_of` peers /\
    search_ends w mode handshake hello more (searched w budget attempt peers more) r.
Proof.
  revert attempt fl tried; induction peers as [|p peers IH]; intros attempt fl tried; cbn [forward_loop].
  { exists []. rewrite gave_up_attempts, app_nil_r. split_and!; [done | done |]. apply gave_up_ends. by left. }
  cbv zeta. destruct (Z.eqb_spec (saturating_sub budget (fw_elapsed w attempt)) 0) as [Hz|].
  { exists []. rewrite gave_up_attempts, app_nil_r. split_and!; [done | apply prefix_nil |]. apply gave_up_ends.
    right. split; [apply prefix_nil |]. by rewrite Nat.add_0_r. }
  destruct (attempt_peer _ _) as [u|kind].
  { exists [p]. destruct (fw_hello_read w) eqn:Hr; (split_and!; [done | apply prefix_cons, prefix_nil |]); left;
      simpl; by rewrite Hr. }
  match goal with |- context [forward_loop _ _ _ _ _ _ _ _ _ ?f ?t] =>
    destruct (IH (S attempt) f t) as (more & Hatt & Hpre & Hends); set (r := forward_loop _ _ _ _ _ _ _ _ _ _ _) in * end.
  exists (p :: more). rewrite Hatt, <- app_assoc. split_and!; [done | by apply prefix_cons |].
  assert (searched w budget (S attempt) peers more -> searched w budget attempt (p :: peers) (p :: more)) as Hgone.
  { intros [->|[Hp Hz]]; [by left | right]. split; [by apply prefix_cons |].
    simpl. by replace (attempt + S (length more))%nat with (S attempt + length more)%nat by lia. }
  revert Hends. unfold search_ends. destruct (fr_outcome r) as [e|time_left].
  - intros [(_ & Hc & He)|(Hm & He & Hc & Hg)]; [left | right; auto]. by split_and!.
  - intros (Hm & Hl & Hc & Hg). auto.
Qed.

(** ** Lemmas: reloads *)

Lemma adopt_peers_spec fl previous addrs peers fl' :
  (forall p, p ∈ previous -> (p < next_fleet fl)%nat) ->
  adopt_peers fl previous addrs = (peers, fl') ->
  Forall2 (fun addr i =>
    match find_first (fun p => bool_decide (fp_addr (peer_at fl p) = addr)) previous with
    | Some p => i = p
    | None => (next_fleet fl <= i)%nat /\ peer_cells fl' !! i = Some (FailoverPeer_new addr)
    end) addrs peers /\
  (next_fleet fl <= next_fleet fl')%nat /\
  (forall i, (i < next_fleet fl)%nat -> peer_cells fl' !! i = peer_cells fl !! i) /\
  spill_cells fl' = spill_cells fl /\ status_cells fl' = status_cells fl.
Proof.
  revert fl peers fl'; induction addrs as [|addr addrs IH]; intros fl peers fl' Hprev Hadopt.
  { injection Hadopt as <- <-. by split_and!. }
  cbn [adopt_peers] in Hadopt.
  destruct (find_first (fun p => bool_decide (fp_addr (peer_at fl p) = addr)) previous) as [p|] eqn:Hfind.
  - destruct (adopt_peers fl previous addrs) as [rest fl2] eqn:Hrest. injection Hadopt as <- <-.
    destruct (IH _ _ _ Hprev Hrest) as (Hall & Hn & Hold & Hsp & Hst).
    split_and!; try done. constructor; [by rewrite Hfind | done].
  - set (fl1 := mkFleet _ _ _ _) in Hadopt.
    destruct (adopt_peers fl1 previous addrs) as [rest fl2] eqn:Hrest. injection Hadopt as <- <-.
    assert (forall p, p ∈ previous -> (p < next_fleet fl1)%nat) as Hprev1.
    { intros p Hp. simpl. specialize (Hprev p Hp). lia. }
    destruct (IH _ _ _ Hprev1 Hrest) as (Hall & Hn & Hold & Hsp & Hst).
    simpl in Hn, Hold.
    assert (forall p, p ∈ previous -> peer_at fl1 p = peer_at fl p) as Hsame.
    { intros p Hp. unfold peer_at, fl1. simpl. specialize (Hprev p Hp).
      rewrite lookup_insert_ne by lia. done. }
    assert (forall a, find_first (fun p => bool_decide (fp_addr (peer_at fl1 p) = a)) previous =
      find_first (fun p => bool_decide (fp_addr (peer_at fl p) = a)) previous) as Hff.
    { intros a. clear -Hsame. induction previous as [|q qs IHq]; [done |]. simpl.
      rewrite Hsame by constructor. rewrite IHq; [done |]. intros; apply Hsame. by constructor. }
    split_and!; [constructor | lia | | done | done].
    + rewrite Hfind. split; [done |]. rewrite Hold by lia. apply lookup_insert_eq.
    + eapply Forall2_impl; [|exact Hall]. intros a i. simpl. rewrite Hff.
      destruct (find_first (fun p => bool_decide (fp_addr (peer_at fl p) = a)) previous); [done |].
      intros [? ?]. split; [lia | done].
    + intros i Hi. rewrite Hold by lia. apply lookup_insert_ne. lia.
Qed.

(** ** Lemmas: what a query brings *)

Lemma try_map_opt_length {A B} (f : A -> option B) l k : try_map_opt f l = Some k -> length k = length l.
Proof.
  revert k. induction l as [|a l IH]; intros k; simpl; [by intros [= <-] |]. destruct (f a); [|done].
  destruct (try_map_opt f l); [|done]. intros [= <-]. simpl. by rewrite IH.
Qed.

Lemma parse_load_answer_length reply n loads : parse_load_answer reply n = Some loads -> length loads = n.
Proof.
  unfold parse_load_answer. destruct (_ <? _)%nat; [done |]. destruct (strip_prefix _ _); [|done]. simpl.
  destruct (from_utf8 _); [|done]. cbn [mbind option_bind]. cbv zeta. destruct (negb _ || _) eqn:E; [done |].
  intros Ht. apply try_map_opt_length in Ht. rewrite Ht. by apply orb_false_iff in E as [E%negb_false_iff%Nat.eqb_eq _].
Qed.

Lemma try_map_opt_elem {A B} (f : A -> option B) l k y : try_map_opt f l = Some k -> y ∈ k -> exists x, f x = Some y.
Proof.
  revert k. induction l as [|a l IH]; intros k; simpl; [by intros [= <-] ?%not_elem_of_nil |]. destruct (f a) eqn:Ha; [|done].
  destruct (try_map_opt f l); [|done]. intros [= <-] [->|Hy]%elem_of_cons; [by exists a | by eapply IH].
Qed.

Lemma parse_load_answer_permille reply n loads v : parse_load_answer reply n = Some loads -> Some v ∈ loads -> permille v.
Proof.
  unfold parse_load_answer. destruct (_ <? _)%nat; [done |]. destruct (strip_prefix _ _); [|done]. simpl.
  destruct (from_utf8 _); [|done]. cbn [mbind option_bind]. cbv zeta. destruct (negb _ || _); [done |].
  intros Ht Hv. destruct (try_map_opt_elem _ _ _ _ Ht Hv) as [line Hl]. revert Hl. unfold parse_line.
  destruct (bytes_eqb _ _); [done |]. destruct (_ && _); [|done]. destruct (parse_u32 line) as [x|] eqn:Hx; [|done].
  destruct (Z.leb_spec x 1000); [|done]. intros [= <-]. unfold parse_u32 in Hx.
  apply from_str_radix_range in Hx; [|done | by unfold u32_max]. unfold permille. lia.
Qed.

(** What the reply to a chunk says of each of its names is what is kept for them,
    however the names were cut into chunks and whichever exchange failed. *)
Section Query.
Context (P : bytes -> Z -> Prop).

Definition reply_says (chunk : list bytes) (reply : bytes) : Prop :=
  forall loads j n v,
    parse_load_answer (take (S (max_load_answer_len (length chunk))) reply) (length chunk) = Some loads ->
    chunk !! j = Some n -> loads !! j = Some (Some v) -> P n v.

Lemma query_chunks_says chunks replies rtt loads pre :
  (forall i chunk connect reply at_ms, chunks !! i = Some chunk -> replies !! i = Some (Some (connect, reply, at_ms)) ->
     reply_says chunk reply) ->
  length loads = length pre ->
  (forall j n v at_ms, pre !! j = Some n -> loads !! j = Some (Some (Some v, at_ms)) -> P n v) ->
  let '(_, loads') := query_chunks (length <$> chunks) replies rtt loads in
  forall j n v at_ms, (pre ++ concat chunks) !! j = Some n -> loads' !! j = Some (Some (Some v, at_ms)) -> P n v.
Proof.
  revert replies rtt loads pre. induction chunks as [|chunk chunks IH]; intros replies rtt loads pre Hr Hlen Hpre.
  { simpl. intros j n v at_ms. rewrite app_nil_r. apply Hpre. }
  assert (forall j n v at_ms, (pre ++ concat (chunk :: chunks)) !! j = Some n -> loads !! j = Some (Some (Some v, at_ms)) -> P n v) as Hstop.
  { intros j n v at_ms Hj Hl. pose proof (lookup_lt_Some _ _ _ Hl). rewrite lookup_app_l in Hj by lia. eauto. }
  cbn [fmap list_fmap query_chunks]. destruct replies as [|[[[connect reply] at_ms]|] replies]; [exact Hstop | | exact Hstop].
  destruct (parse_load_answer _ _) as [ls|] eqn:Hp; [|exact Hstop]. pose proof (parse_load_answer_length _ _ _ Hp) as Hls.
  match goal with |- let '(_, _) := query_chunks _ _ ?r ?l in _ => specialize (IH replies r l (pre ++ chunk)) end.
  destruct (query_chunks _ _ _ _) as [rtt' loads']. cbn [concat]. rewrite app_assoc. apply IH.
  - intros i chunk' c' r' t'. apply (Hr (S i)).
  - rewrite !length_app, length_fmap. lia.
  - intros j n v t. rewrite !lookup_app_Some. intros [Hj|[Hge Hj]] [Hl|[Hge' Hl]].
    + by eapply Hpre.
    + pose proof (lookup_lt_Some _ _ _ Hj). lia.
    + pose proof (lookup_lt_Some _ _ _ Hl). lia.
    + rewrite list_lookup_fmap, Hlen in Hl. destruct (ls !! (j - length pre)%nat) as [l|] eqn:El; [|done]. simpl in Hl.
      injection Hl as -> _. by eapply (Hr 0%nat).
Qed.

Lemma query_load_says names replies answer :
  query_load names replies = Some answer ->
  (forall i chunk connect reply at_ms, load_query_chunks names !! i = Some chunk ->
     replies !! i = Some (Some (connect, reply, at_ms)) -> reply_says chunk reply) ->
  forall j n v at_ms, names !! j = Some n -> la_loads answer !! j = Some (Some (Some v, at_ms)) -> P n v.
Proof.
  unfold query_load. intros Hq Hr. pose proof (query_chunks_says (load_query_chunks names) replies None [] [] Hr eq_refl) as Hs.
  destruct (query_chunks _ _ _ _) as [[rtt|] loads]; [|done]. injection Hq as <-. intros j n v at_ms Hj. simpl.
  destruct (chunks_spec (length names) MAX_QUERY_NAMES names) as [Hc _]; [unfold MAX_QUERY_NAMES; lia | done |].
  fold (load_query_chunks names) in Hc. rewrite Hc in Hs. rewrite lookup_app_Some. intros [Hl|[_ Hl]].
  - apply lookup_take_Some in Hl as [Hl _]. eapply Hs; [| |exact Hl]; [done | exact Hj].
  - by apply lookup_replicate in Hl as [].
Qed.
End Query.

(** ** Properties *)

Module Properties.

(** A peer that keeps failing is left alone for an exponentially growing
    time: after [k] consecutive failures it is cooling down until at least the
    last failure plus [min * 2^(k-1)], capped at the maximum, its streak counts
    the failures (up to 255), and one success makes it ready again at once. *)
Theorem cooldown_backs_off kind min_ns max_ns addr times now :
  0 <= min_ns -> 0 <= max_ns <= u64_max -> Forall (time_ok max_ns) (times ++ [now]) ->
  let p := fail_at kind min_ns max_ns (FailoverPeer_new addr) (times ++ [now]) in
  let k := S (length times) in
  Z.shiftr (fp_cooldown p) COOLDOWN_STREAK_SHIFT = streak_of k /\
  (forall t, 0 <= t < now + backoff min_ns max_ns k -> cooling_down p t = true) /\
  forall t, 0 <= t -> cooling_down (clear_cooldown p) t = false.
Proof.
  intros Hmin Hmax Htimes p k. apply Forall_app in Htimes as [Htimes Hnow].
  apply Forall_inv in Hnow as [Hn0 Hn].
  destruct (fail_at_streak kind min_ns max_ns times (FailoverPeer_new addr) 0) as [Hs Hu]; try done.
  unfold p, fail_at. rewrite foldl_app. cbn [foldl].
  fold (fail_at kind min_ns max_ns (FailoverPeer_new addr) times).
  set (q := fail_at kind min_ns max_ns (FailoverPeer_new addr) times) in *.
  destruct (cooldown_step_spec (fp_cooldown q) (length times) min_ns max_ns now) as [Hs' Hu']; try done.
  split_and!; [done | |].
  - intros t Ht. unfold cooling_down, cooldown_until. cbn [record_failure fp_cooldown]. rewrite Hu'.
    assert (backoff min_ns max_ns k <= max_ns) by (unfold backoff; lia).
    apply Z.ltb_lt. fold k. rewrite until_mask in *. lia.
  - intros t Ht. unfold cooling_down, cooldown_until. cbn [clear_cooldown fp_cooldown].
    apply Z.ltb_ge. rewrite until_mask. change (Z.land 0 72057594037927935) with 0. lia.
Qed.

Definition peer_b : SocketAddr := mkSocketAddr (V4 167772162) 9443.

Lemma cooldown_backs_off_witness :
  cooling_down (fail_at FRefused 5000000000 60000000000 (FailoverPeer_new peer_b) ([0; 10] ++ [100])) 20000000099 = true.
Proof.
  destruct (cooldown_backs_off FRefused 5000000000 60000000000 peer_b [0; 10] 100) as (_ & Hcool & _).
  - lia.
  - unfold u64_max. lia.
  - repeat constructor; rewrite ?until_mask; lia.
  - apply Hcool. vm_compute. split; [done | reflexivity].
Defined.

(** The peers tried are exactly the ones that can be: every ready peer, each
    as often as it is listed; when all are cooling down and there is nothing to
    fall back to, only the one whose cooldown ends first; and the number
    announced is the number tried. *)
Theorem candidates_are_the_ready_peers fl fo now wait n l fo' :
  candidates fl fo now wait = (n, l, fo') ->
  n = length l /\
  let rdy := List.filter (ready fl now) (fo_peers fo) in
  match rdy with
  | _ :: _ => l ≡ₚ rdy
  | [] => if wait then
            match l with
            | [] => fo_peers fo = []
            | [p] => p ∈ fo_peers fo /\ forall q, q ∈ fo_peers fo ->
                cooldown_until (peer_at fl p) <= cooldown_until (peer_at fl q)
            | _ => False
            end
          else l = []
  end.
Proof.
  unfold candidates. cbv zeta.
  match goal with |- context [let '(_, _) := ?x in _] => destruct x as [start fo1] end.
  intros [= <- <- <-].
  pose proof (filter_perm (ready fl now) _ _ (rotation_perm start (fo_peers fo))) as Hperm.
  rewrite length_app, (Permutation_length Hperm).
  destruct (List.filter (ready fl now) (fo_peers fo)) as [|a rdy] eqn:Hr.
  - apply Permutation_nil_r in Hperm. rewrite Hperm. cbn [length Nat.eqb andb app].
    destruct wait; [|done]. destruct (min_by (earlier fl) (fo_peers fo)) as [p|] eqn:E; simpl.
    + split; [done |]. by apply earliest_spec.
    + split; [done |]. by apply min_by_None in E.
  - cbn [length Nat.eqb andb]. rewrite app_nil_r. simpl. split; [lia | done].
Qed.

Definition two_peers : fleet :=
  mkFleet {[0%nat := FailoverPeer_new peer_b; 1%nat := FailoverPeer_new no_addr]} ∅ ∅ 2.
Definition sample_failover : Failover := mkFailover false 1000000000 5000000000 60000000000 [0; 1]%nat 3 None 7 None.

Lemma candidates_are_the_ready_peers_witness :
  exists n l fo', candidates two_peers sample_failover 5 true = (n, l, fo') /\ n = length l.
Proof.
  destruct (candidates two_peers sample_failover 5 true) as [[n l] fo'] eqn:E.
  exists n, l, fo'. split; [done |]. apply (candidates_are_the_ready_peers _ _ _ _ _ _ _ E).
Defined.


Definition answered : fwd_world :=
  mkFwd (fun _ => 0) 0 (fun k _ => mkAttempt (if (k =? 0)%nat then ConnectRefused else Connected) true (Some 1%nat) 5)
    (fun _ => 9) (Some 200%nat) true (Ok tt).


(** Two nodes never spill to each other: if one may spill to the other on
    current readings of both loads, the other may not spill back, whatever their
    two policies, as long as each has a positive margin (the parser requires at
    least two permille). *)
Theorem no_mutual_spill pol pol' la lb lu lu' views views' now now' t t' u u' tr tr' va vb :
  permille la -> permille lb ->
  permille (high_water pol) -> permille (high_water pol') ->
  1 <= margin pol <= 1000 -> 1 <= margin pol' <= 1000 ->
  (forall i v pl, views !! i = Some v -> pv_load v = Some pl -> permille pl) ->
  (forall i v pl, views' !! i = Some v -> pv_load v = Some pl -> permille pl) ->
  assess pol (Some (la, lu)) views now = (tr, Some (t, u)) ->
  views !! t = Some vb -> pv_load vb = Some lb ->
  views' !! t' = Some va -> pv_load va = Some la ->
  assess pol' (Some (lb, lu')) views' now' <> (tr', Some (t', u')).
Proof.
  intros Hla Hlb Hhw Hhw' Hm Hm' Hv Hv' HA Hvb Hlvb Hva Hlva HB.
  destruct (assess_target pol la lu views now t u tr) as (v1 & l1 & E1 & _ & L1 & B1 & _); try done.
  { unfold permille. lia. }
  destruct (assess_target pol' lb lu' views' now' t' u' tr') as (v2 & l2 & E2 & _ & L2 & B2 & _); try done.
  { unfold permille. lia. }
  simplify_eq. lia.
Qed.

Definition default_spill : SpillPolicy := mkSpillPolicy 750 200 (f64_of_Z 50) 500 None.
Definition view_of (load : Z) : PeerView := mkView (Some load) 5000 false None.

Lemma no_mutual_spill_witness :
  assess default_spill (Some (900, 3000)) [view_of 500] 1000 = (Rise, Some (0%nat, 3000)) /\
  assess default_spill (Some (500, 3000)) [view_of 900] 1000 <> (Rise, Some (0%nat, 3000)).
Proof.
  split; [by vm_compute |].
  apply (no_mutual_spill default_spill default_spill 900 500 3000 3000 [view_of 500] [view_of 900] 1000 1000
           0 0 3000 3000 Rise Rise (view_of 900) (view_of 500)); try done; try (unfold permille; simpl; lia).
  - intros [|i] v pl; [|done]. intros [= <-] [= <-]. unfold permille. lia.
  - intros [|i] v pl; [|done]. intros [= <-] [= <-]. unfold permille. lia.
Defined.

(** What the controller publishes is what a connection reads: the one-word
    admission holds fraction, target and deadline without overlap, and it is
    honoured exactly until its deadline. *)
Theorem published_admission_is_read_back a s now_ms :
  0 < adm_fraction a <= 1000 -> (adm_target a < Z.to_nat 65536)%nat -> 0 <= adm_until_ms a < 274877906944 ->
  admission (mkSpillState (Admission_pack a) (sp_fraction s) (sp_last_ns s)) now_ms =
  if now_ms <? adm_until_ms a then Some a else None.
Proof. intros Hf Ht Hu. unfold admission. cbn [sp_admission]. by rewrite admission_roundtrip. Qed.

Lemma published_admission_is_read_back_witness :
  admission (mkSpillState (Admission_pack (mkAdmission 250 3 100000)) f64_zero 0) 99999 =
  Some (mkAdmission 250 3 100000).
Proof.
  apply (published_admission_is_read_back (mkAdmission 250 3 100000) SpillState_default 99999); simpl; try lia.
Defined.

(** A reload keeps what is known about the peers: each peer that the previous
    failover had keeps its cell (cooldown, counters, report), the other cells are
    fresh, the status continues, and the smoothed spill state is continued only
    under the same spill policy, peer list and load source. *)
Theorem reload_keeps_peer_state fl policy prev tcp same fo fl' :
  (forall p, p ∈ fo_peers prev -> (p < next_fleet fl)%nat) ->
  Failover_new fl policy (Some prev) tcp same = (fo, fl') ->
  fo_status fo = fo_status prev /\
  Forall2 (fun addr i =>
    match find_first (fun p => bool_decide (fp_addr (peer_at fl p) = addr)) (fo_peers prev) with
    | Some p => i = p
    | None => (next_fleet fl <= i)%nat
    end) (pol_peers policy) (fo_peers fo) /\
  (forall i, (i < next_fleet fl)%nat -> peer_cells fl' !! i = peer_cells fl !! i) /\
  match fo_spill fo with
  | Some (sp, cell) =>
      pol_spill policy = Some sp /\
      ((cell < next_fleet fl)%nat ->
       exists old, fo_spill prev = Some (old, cell) /\ same = true /\ SpillPolicy_eqb old sp = true /\
         (fun i => fp_addr (peer_at fl i)) <$> fo_peers prev = pol_peers policy)
  | None => pol_spill policy = None
  end.
Proof.
  intros Hprev. unfold Failover_new.
  destruct (adopt_peers fl (fo_peers prev) (pol_peers policy)) as [peers fl1] eqn:Hadopt.
  destruct (adopt_peers_spec _ _ _ _ _ Hprev Hadopt) as (Hall & Hnext & Hold & _ & _).
  assert (Forall2 (fun addr i =>
    match find_first (fun p => bool_decide (fp_addr (peer_at fl p) = addr)) (fo_peers prev) with
    | Some p => i = p | None => (next_fleet fl <= i)%nat end) (pol_peers policy) peers) as Hpeers.
  { eapply Forall2_impl; [|exact Hall]. intros a i. simpl. by destruct (find_first _ _) as [p|]; [|intros []]. }
  destruct (pol_spill policy) as [sp|] eqn:Hsp; cbn [mbind option_bind].
  2: { intros [= <- <-]. simpl. by split_and!. }
  destruct (continue_spill fl prev sp (pol_peers policy) same) as [cell|] eqn:Hc; intros [= <- <-]; simpl.
  - split_and!; try done. intros _. unfold continue_spill in Hc.
    destruct (fo_spill prev) as [[old c]|]; [|done]. case_match eqn:E; simplify_eq. bool_to_prop.
    exists old. split_and!; try done. by apply bool_decide_eq_true in H0.
  - split_and!; try done. intros Hlt. lia.
Qed.

Lemma reload_keeps_peer_state_witness :
  let policy := mkFailoverPolicy [no_addr; peer_b] true 1000000000 5000000000 60000000000 None in
  let r := Failover_new two_peers policy (Some sample_failover) None false in
  fo_peers r.1 = [1; 0]%nat /\ fo_status r.1 = 7%nat.
Proof.
  intros policy r. split; [by vm_compute |].
  destruct (Failover_new two_peers policy (Some sample_failover) None false) as [fo fl'] eqn:E.
  destruct (reload_keeps_peer_state two_peers policy sample_failover None false fo fl') as [Hst _]; [|exact E|].
  - intros p Hp. simpl in *. repeat (apply elem_of_cons in Hp as [->|Hp]; [lia |]). by apply elem_of_nil in Hp.
  - exact Hst.
Defined.
End Properties.
