(* ===== verification/Router.v ===== *)
(** * The route table (src/src/router.rs)

    - [Route], [RouteTable] and the lookup of a server name ([resolve_with]).
    - Building a route from its specification ([build_route]) and a table from a
      list of them ([build_route_table]), with what a reload takes over from the
      table it replaces.

    A table is built by threading an [env]: the shared cells of the balancers
    (Balancer.v), the failover store (Failover.v), the TLS configurations and
    their cache (Tls.v), and the identities of the per-route metrics, where an
    identity is an [Arc<RouteMetricIdentity>]. A route carries its balancers as
    values: what a table shares with the next one is their cells. Messages on
    standard error are not modelled. *)

From stdpp Require Import sorting.
From S2P Require Import Prelude Bytes Float64 Net IpText TokenBucket Sni Tls Balancer Metrics Failover.

Open Scope Z_scope.

(** ** Configuration *)

Inductive SourceAddressMode : Type := SaNone | SaProxyProtocol | SaProxyProtocolV2 | SaXForwardedFor.
#[global] Instance SourceAddressMode_eq_dec : EqDecision SourceAddressMode.
Proof. solve_decision. Defined.

Record ForwardFingerprint : Type := mkFingerprint { ff_ja3 : bool; ff_ja4 : bool }.
Definition fingerprint_is_empty (f : ForwardFingerprint) : bool := negb (ff_ja3 f) && negb (ff_ja4 f).

Inductive RouteProtocol : Type := ProtoOpaque | ProtoHttp.
#[global] Instance RouteProtocol_eq_dec : EqDecision RouteProtocol.
Proof. solve_decision. Defined.

Definition requires_http_protocol (mode : SourceAddressMode) (fingerprint : ForwardFingerprint) : bool :=
  bool_decide (mode = SaXForwardedFor) ||
  (negb (fingerprint_is_empty fingerprint) && negb (bool_decide (mode = SaProxyProtocolV2))).

Inductive UpstreamSpec : Type :=
  | UTcp (host : bytes) (port : Z)
  | UUds (paths : list bytes) (pids tids : list (option Z)) (ip_affinity : bool) (affinity_ttl_ms : Z)
      (protocol : option bytes).

Record RouteSpec : Type := mkRouteSpec {
  rs_sni : bytes;
  rs_metrics_group : bytes;
  rs_upstreams : list UpstreamSpec;
  rs_terminate_tls : bool;
  rs_cert_pem : option bytes;
  rs_key_pem : option bytes;
  rs_mtls_ca_pem : option bytes;
  rs_require_client_cert : bool;
  rs_suspended : bool;
  rs_suspend_timeout_ms : Z;
  rs_max_cps : option f64;
  rs_burst : option f64;
  rs_source_address_mode : SourceAddressMode;
  rs_forward_fingerprint : ForwardFingerprint;
  rs_http2 : bool;
  rs_protocol : RouteProtocol;
  rs_allowed_sources : list bytes;
  rs_failover : option FailoverSpec;
}.

Record ListenerTlsSpec : Type := mkListenerTls {
  lt_cert_pem : option bytes;
  lt_key_pem : option bytes;
  lt_mtls_ca_pem : option bytes;
  lt_require_client_cert : bool;
}.
Definition ListenerTlsSpec_empty : ListenerTlsSpec := mkListenerTls None None None true.

Definition effective_mtls (spec : RouteSpec) (listener_tls : ListenerTlsSpec) : option (bytes * bool) :=
  match rs_mtls_ca_pem spec with
  | Some ca => Some (ca, rs_require_client_cert spec)
  | None => (fun ca => (ca, lt_require_client_cert listener_tls)) <$> lt_mtls_ca_pem listener_tls
  end.

(** The client-certificate policy a specification asks for. *)
Inductive ClientAuth : Type :=
  | Passthrough
  | NoClientCert
  | ClientCert (ca_sha256 : bytes) (required : bool).
#[global] Instance ClientAuth_eq_dec : EqDecision ClientAuth.
Proof. solve_decision. Defined.

Inductive route_error : Type :=
  | NoCarrier
  | DeclareHttp
  | NoCertProvided
  | NoKeyProvided
  | TlsFailed (e : tls_error)
  | XffWithH2
  | H2NeedsTermination
  | AllH2
  | NoUpstreams
  | AddrParse.

Definition validate_route_protocol_declaration (spec : RouteSpec) : result route_error unit :=
  let requires_http := requires_http_protocol (rs_source_address_mode spec) (rs_forward_fingerprint spec) in
  if requires_http && negb (rs_terminate_tls spec) then Err NoCarrier
  else if requires_http && negb (bool_decide (rs_protocol spec = ProtoHttp)) then Err DeclareHttp
  else Ok tt.

(** ** Names *)

Definition star_dot : bytes := bs "*.".

Definition wildcard_suffix_matches (sni suffix : bytes) : bool :=
  if (length sni <=? length suffix + 1)%nat then false
  else
    let dot_pos := (length sni - length suffix - 1)%nat in
    (default 0 (sni !! dot_pos) =? 46) && bytes_eqb (drop (dot_pos + 1) sni) suffix &&
    negb (contains_byte 46 (take dot_pos sni)).

(** One left-most label and the suffix. *)
Lemma wildcard_suffix_matches_spec n s :
  wildcard_suffix_matches n s = true <->
  exists label, label <> [] /\ contains_byte 46 label = false /\ n = label ++ [46] ++ s.
Proof.
  unfold wildcard_suffix_matches. destruct (Nat.leb_spec (length n) (length s + 1)) as [Hle|Hlt].
  { split; [done |]. intros (label & Hne & _ & ->). rewrite !length_app in Hle. simpl in Hle.
    destruct label; [done |]. simpl in Hle. lia. }
  set (pos := (length n - length s - 1)%nat). rewrite !andb_true_iff, negb_true_iff, Z.eqb_eq, bytes_eqb_eq.
  split.
  - intros [[Hdot Hsuf] Hno]. exists (take pos n). split_and!; [|done|].
    + intros Hnil. apply (f_equal length) in Hnil. rewrite length_take in Hnil. simpl in Hnil. lia.
    + destruct (lookup_lt_is_Some_2 n pos) as [x Hx]; [lia |]. rewrite Hx in Hdot. simpl in Hdot. subst x.
      rewrite <- Hsuf, Nat.add_1_r. simpl. by rewrite <- (drop_S n 46 pos Hx), take_drop.
  - intros (label & Hne & Hno & Hn). assert (pos = length label) as Hpos.
    { unfold pos. rewrite Hn, !length_app. simpl. lia. }
    rewrite Hpos, Hn. rewrite lookup_app_r, Nat.sub_diag by lia. rewrite take_app_length. split_and!; try done.
    rewrite (app_assoc label). replace (length label + 1)%nat with (length (label ++ [46])) by by rewrite length_app.
    apply drop_app_length.
Qed.

(** The suffix a name can match is unique. *)
Lemma wildcard_suffix_unique n :
  (exists s, forall s', wildcard_suffix_matches n s' = bytes_eqb s' s) \/
  (forall s', wildcard_suffix_matches n s' = false).
Proof.
  assert (forall l l' s s', contains_byte 46 l = false -> contains_byte 46 l' = false ->
    l ++ [46] ++ s = l' ++ [46] ++ s' -> s = s') as Huniq.
  { intros l; induction l as [|x l IH]; intros [|y l'] s s' Hl Hl' Heq; simpl in *; simplify_eq/=; try done.
    apply orb_false_iff in Hl as [_ Hl]. apply orb_false_iff in Hl' as [_ Hl'].
    match goal with E : _ ++ _ = _ |- _ => exact (IH _ _ _ Hl Hl' E) end. }
  destruct (find_first (fun i => wildcard_suffix_matches n (drop i n)) (seq 0 (S (length n)))) as [i|] eqn:Hf.
  - left. apply find_first_Some in Hf as [_ Hm]. exists (drop i n). intros s'. pose proof Hm as Hm'.
    apply wildcard_suffix_matches_spec in Hm as (l & _ & Hl & Hn).
    destruct (wildcard_suffix_matches n s') eqn:Hs'; symmetry.
    + apply bytes_eqb_eq. apply wildcard_suffix_matches_spec in Hs' as (l' & _ & Hl' & Hn').
      rewrite Hn in Hn' at 1. symmetry. exact (Huniq _ _ _ _ Hl Hl' Hn').
    + apply bool_decide_eq_false. intros ->. congruence.
  - right. intros s'. apply not_true_iff_false. intros Hm. pose proof Hm as Hm'.
    apply wildcard_suffix_matches_spec in Hm as (l & _ & Hl & Hn).
    assert (drop (length l + 1) n = s') as Hd.
    { rewrite Hn, (app_assoc l). apply drop_app_length'. by rewrite length_app. }
    rewrite find_first_None in Hf. specialize (Hf (length l + 1)%nat). cbv beta in Hf. rewrite Hd, Hm' in Hf.
    apply diff_true_false, Hf, elem_of_seq. rewrite Hn, !length_app. simpl. lia.
Qed.

Section Router.
Context `{TlsLib} `{Digests} `{NetLib}.

Definition ClientAuth_of (spec : RouteSpec) (listener_tls : ListenerTlsSpec) : ClientAuth :=
  if negb (rs_terminate_tls spec) then Passthrough
  else match effective_mtls spec listener_tls with
       | None => NoClientCert
       | Some (ca, required) => ClientCert (sha256 ca) required
       end.

(** ** Routes and tables *)

Record RouteMetricIdentity : Type := mkIdentity { mi_id : nat; mi_route : bytes; mi_group : bytes }.

Record Route : Type := mkRouteT {
  rt_identity : RouteMetricIdentity;
  rt_destination : Destination;
  rt_destination_h2 : option Destination;
  rt_tls_config : option nat;
  rt_terminate_tls : bool;
  rt_suspended : bool;
  rt_suspend_timeout : Z;
  rt_rate_limiter : option Atomic.RouteTokenBucket;
  rt_source_address_mode : SourceAddressMode;
  rt_forward_fingerprint : ForwardFingerprint;
  rt_protocol : RouteProtocol;
  rt_allowed_sources : option SourceAllowlist;
  rt_failover : option Failover;
  rt_requires_client_cert : bool;
}.

Record RouteTable : Type := mkTable {
  exact : gmap bytes Route;
  wildcard : list (bytes * Route);
  default_route : option Route;
  metric_identities : list RouteMetricIdentity;
  monitored_balancers : list UdsBalancer;
  affinity_balancers : list UdsBalancer;
  failing_snis : gset bytes;
  invalid_failover : gset bytes;
  invalid_spill : gset bytes;
  dropped_exact : gset bytes;
  dropped_wildcard : list bytes;
  client_auth : gmap bytes ClientAuth;
  failover_routes : list FailoverRoute;
}.

Definition route_count (t : RouteTable) : nat :=
  size (exact t) + length (wildcard t) + (match default_route t with Some _ => 1 | None => 0 end).

Definition failing_route_count (t : RouteTable) : nat :=
  size (failing_snis t ∪ invalid_failover t ∪ invalid_spill t).

(** The first wildcard whose suffix satisfies [p]. *)
Definition find_wildcard (p : bytes -> bool) (l : list (bytes * Route)) : option Route :=
  snd <$> find_first (fun e => p e.1) l.

Definition resolve_with (t : RouteTable) (sni : option bytes) (allow_default : bool) : option Route :=
  let dflt := if allow_default then default_route t else None in
  match sni with
  | None => dflt
  | Some n =>
      match exact t !! n with
      | Some r => Some r
      | None =>
          if bool_decide (n ∈ dropped_exact t) then None
          else match find_wildcard (wildcard_suffix_matches n) (wildcard t) with
               | Some r => Some r
               | None => if existsb (wildcard_suffix_matches n) (dropped_wildcard t) then None else dflt
               end
      end
  end.

Definition get_for_spec_sni (t : RouteTable) (sni : bytes) : option Route :=
  match strip_prefix star_dot sni with
  | Some suffix => find_wildcard (fun s => bytes_eqb s suffix) (wildcard t)
  | None => if bool_decide (sni = []) then default_route t else exact t !! sni
  end.

(** [load_get] is the current reading of a load cell ([SmoothedLoad::get]):
    permille and the ms it holds until. *)
Definition destination_load (load_get : nat -> Z -> option (Z * Z)) (now : Z) (d : Destination)
    : option (Z * Z) :=
  match d with UdsSet b => load_get (load b) now | Tcp _ => None end.

Definition route_load (load_get : nat -> Z -> option (Z * Z)) (d : Destination) (h2 : option Destination)
    (now : Z) : option (Z * Z) :=
  '(permille, until_ms) ← destination_load load_get now d;
  match h2 with
  | None => Some (permille, until_ms)
  | Some d2 =>
      '(h2_permille, h2_until_ms) ← destination_load load_get now d2;
      Some (Z.max permille h2_permille, Z.min until_ms h2_until_ms)
  end.

Definition load_answer (sh : shared) (load_get : nat -> Z -> option (Z * Z)) (t : RouteTable) (name : bytes)
    (now : Z) : option Z :=
  route ← exact t !! name;
  if rt_suspended route then None
  else if match rt_failover route with
          | Some f => fo_drain f || locally_down sh f (rt_destination route) (rt_destination_h2 route)
          | None => false
          end then None
  else fst <$> route_load load_get (rt_destination route) (rt_destination_h2 route) now.

(** ** Building a route *)

Record env : Type := mkEnv {
  e_shared : shared;
  e_fleet : fleet;
  e_cache : TlsConfigCache;
  e_configs : config_store;
  e_next_identity : nat;
}.

(** What a build reads from outside: the clock, whether [Ticketer::new] works,
    and which configurations something outside the build holds. *)
Record surroundings : Type := mkSurroundings {
  su_now : Z;
  su_ticketer : bool;
  su_held : nat -> bool;
}.

(** The slots of the UDS upstreams of a list, in order; the affinity settings are
    those of the last. *)
Definition uds_slots (u : UpstreamSpec) : list UdsSlotSpec :=
  match u with
  | UUds paths pids tids _ _ _ =>
      (fun e => mkSpec e.2 (mjoin (pids !! e.1)) (mjoin (tids !! e.1))) <$> enumerate paths
  | UTcp _ _ => []
  end.
Definition uds_affinity (acc : bool * Z) (u : UpstreamSpec) : bool * Z :=
  match u with UUds _ _ _ aff ttl _ => (aff, ttl) | UTcp _ _ => acc end.

Definition build_destination_for (sh : shared) (now : Z) (upstreams : list UpstreamSpec)
    (previous : option UdsBalancer) (track_health refuse_new : bool)
    : result route_error Destination * shared :=
  match upstreams with
  | [] => (Err NoUpstreams, sh)
  | UTcp host port :: _ =>
      (match parse_socket_addr (host ++ [58] ++ to_decimal port) with
       | Some addr => Ok (Tcp addr)
       | None => Err AddrParse
       end, sh)
  | UUds _ _ _ _ _ _ :: _ =>
      let slots := concat (uds_slots <$> upstreams) in
      let '(ip_affinity, ttl) := foldl uds_affinity (false, 300000) upstreams in
      let '(b, sh1) := UdsBalancer_new sh slots ip_affinity ttl in
      let b := with_cpu_from sh1 b previous in
      if track_health then
        let '(b, sh2) := with_health sh1 b previous refuse_new now in (Ok (UdsSet b), sh2)
      else (Ok (UdsSet b), sh1)
  end.

Record Inherit : Type := mkInherit {
  in_previous : option Route;
  in_track_health : bool;
  in_refuse_new : bool;
}.

Definition is_h2 (u : UpstreamSpec) : bool :=
  match u with UUds _ _ _ _ _ (Some p) => bytes_eqb p (bs "h2") | _ => false end.

Definition balancer_of (d : option Destination) : option UdsBalancer :=
  match d with Some (UdsSet b) => Some b | _ => None end.

Definition placeholder : Destination := Tcp (mkSocketAddr (V4 2130706433) 1).

Definition build_destinations (sh : shared) (now : Z) (spec : RouteSpec) (inherit : Inherit)
    : result route_error (Destination * option Destination) * shared :=
  if rs_suspended spec || bool_decide (length (rs_upstreams spec) = 0%nat) then (Ok (placeholder, None), sh)
  else
    let h1_specs := List.filter (fun u => negb (is_h2 u)) (rs_upstreams spec) in
    let h2_specs := List.filter is_h2 (rs_upstreams spec) in
    match h1_specs with
    | [] => (Err AllH2, sh)
    | _ =>
        let '(d, sh1) := build_destination_for sh now h1_specs
          (prev ← in_previous inherit; balancer_of (Some (rt_destination prev)))
          (in_track_health inherit) (in_refuse_new inherit) in
        match d with
        | Err e => (Err e, sh1)
        | Ok d =>
            match h2_specs with
            | [] => (Ok (d, None), sh1)
            | _ =>
                let '(d2, sh2) := build_destination_for sh1 now h2_specs
                  (prev ← in_previous inherit; balancer_of (rt_destination_h2 prev))
                  (in_track_health inherit) (in_refuse_new inherit) in
                (match d2 with Ok d2 => Ok (d, Some d2) | Err e => Err e end, sh2)
            end
        end
    end.

Definition or_opt {A} (a b : option A) : option A := match a with Some _ => a | None => b end.

(** The TLS configuration of a route that terminates. *)
Definition build_tls (su : surroundings) (e : env) (spec : RouteSpec) (lt : ListenerTlsSpec)
    : result route_error (option nat) * env :=
  if rs_terminate_tls spec then
    match or_opt (rs_cert_pem spec) (lt_cert_pem lt), or_opt (rs_key_pem spec) (lt_key_pem lt) with
    | None, _ => (Err NoCertProvided, e)
    | Some _, None => (Err NoKeyProvided, e)
    | Some cert, Some key =>
        let mtls := (fun m => mkMtlsSpec m.1 m.2) <$> effective_mtls spec lt in
        match get_or_build (su_ticketer su) (su_held su) (e_cache e) (e_configs e)
                (mkCertSpec cert key) mtls (rs_http2 spec) with
        | (r, c, st) =>
            (match r with Ok cfg => Ok (Some cfg) | Err t => Err (TlsFailed t) end,
             mkEnv (e_shared e) (e_fleet e) c st (e_next_identity e))
        end
    end
  else (Ok None, e).

Definition with_shared (e : env) (sh : shared) : env :=
  mkEnv sh (e_fleet e) (e_cache e) (e_configs e) (e_next_identity e).

(** The combinations a route cannot have. *)
Definition check_h2 (spec : RouteSpec) (destination_h2 : option Destination) : result route_error unit :=
  let has_h2 := bool_decide (is_Some destination_h2) in
  if (has_h2 || (rs_http2 spec && rs_terminate_tls spec)) &&
     bool_decide (rs_source_address_mode spec = SaXForwardedFor) then Err XffWithH2
  else if has_h2 && negb (rs_terminate_tls spec) then Err H2NeedsTermination
  else Ok tt.

Definition build_route (su : surroundings) (e : env) (spec : RouteSpec) (lt : ListenerTlsSpec)
    (inherit : Inherit) : result route_error Route * env :=
  match build_tls su e spec lt with
  | (Err err, e1) => (Err err, e1)
  | (Ok tls_config, e1) =>
      let '(ds, sh) := build_destinations (e_shared e1) (su_now su) spec inherit in
      let e2 := with_shared e1 sh in
      match ds with
      | Err err => (Err err, e2)
      | Ok (destination, destination_h2) =>
          match check_h2 spec destination_h2 with
          | Err err => (Err err, e2)
          | Ok _ =>
              (Ok (mkRouteT (mkIdentity (e_next_identity e2) (rs_sni spec) (rs_metrics_group spec))
                     destination destination_h2 tls_config (rs_terminate_tls spec) (rs_suspended spec)
                     (Z.max (rs_suspend_timeout_ms spec) 1)
                     ((fun cps => Atomic.route_bucket_new cps (rs_burst spec) (su_now su)) <$> rs_max_cps spec)
                     (rs_source_address_mode spec) (rs_forward_fingerprint spec) (rs_protocol spec)
                     None None
                     (rs_terminate_tls spec &&
                      match effective_mtls spec lt with Some (_, required) => required | None => false end)),
               mkEnv (e_shared e2) (e_fleet e2) (e_cache e2) (e_configs e2) (S (e_next_identity e2)))
          end
      end
  end.

(** ** One specification of a table *)

(** The failover policy of a specification, and whether it, or its spill part,
    is invalid. *)
Definition failover_policy (spec : RouteSpec) : option FailoverPolicy * bool * bool :=
  match rs_failover spec with
  | None => (None, false, false)
  | Some f =>
      if bool_decide (rs_sni spec = []) then (None, true, false)
      else match FailoverSpec_parse f with
           | Err _ => (None, true, false)
           | Ok policy =>
               match fs_spill f with
               | None => (Some policy, false, false)
               | Some s =>
                   if starts_with star_dot (rs_sni spec) then (Some policy, false, true)
                   else match SpillSpec_parse s with
                        | Ok spill =>
                            (Some (mkFailoverPolicy (pol_peers policy) (pol_drain policy)
                               (pol_probe_interval policy) (pol_cooldown_min policy)
                               (pol_cooldown_max policy) (Some spill)), false, false)
                        | Err _ => (Some policy, false, true)
                        end
               end
           end
  end.

(** The route of the previous table that may stand in for a failed build. *)
Definition carry_forward (previous : option RouteTable) (spec : RouteSpec) (requested : ClientAuth)
    : option Route :=
  p ← previous;
  route ← get_for_spec_sni p (rs_sni spec);
  if bool_decide (client_auth p !! rs_sni spec = Some requested) then Some route else None.

Definition destination_tracks (tracked : bool) (d : Destination) : bool :=
  match d with
  | UdsSet b => Bool.eqb (negb (bool_decide (length (tracked_slots b) = 0%nat))) tracked
  | Tcp _ => true
  end.
Definition tracks_health_as (r : Route) (tracked : bool) : bool :=
  destination_tracks tracked (rt_destination r) &&
  match rt_destination_h2 r with Some d => destination_tracks tracked d | None => true end.

Definition dest_retracked (sh : shared) (now : Z) (track : bool) (d : Destination) : Destination * shared :=
  match d with
  | UdsSet b => let '(b', sh') := retracked sh b track now in (UdsSet b', sh')
  | Tcp addr => (Tcp addr, sh)
  end.

Definition same_load_source (a b : Destination) : bool :=
  match a, b with
  | UdsSet a, UdsSet b => shares_load_with a b
  | Tcp a, Tcp b => bool_decide (a = b)
  | _, _ => false
  end.
Definition same_route_load (p r : Route) : bool :=
  same_load_source (rt_destination p) (rt_destination r) &&
  match rt_destination_h2 p, rt_destination_h2 r with
  | None, None => true
  | Some a, Some b => same_load_source a b
  | _, _ => false
  end.

(** Record update, with the fields a table sets on a built or carried route. *)
Definition set_route (r : Route) (identity : RouteMetricIdentity) (d : Destination) (h2 : option Destination)
    (sources : option SourceAllowlist) (failover : option Failover) : Route :=
  mkRouteT identity d h2 (rt_tls_config r) (rt_terminate_tls r) (rt_suspended r) (rt_suspend_timeout r)
    (rt_rate_limiter r) (rt_source_address_mode r) (rt_forward_fingerprint r) (rt_protocol r)
    sources failover (rt_requires_client_cert r).

Definition retrack (sh : shared) (now : Z) (carried : bool) (r : Route) (track : bool)
    : Destination * option Destination * shared :=
  if carried && negb (tracks_health_as r track) then
    let '(d, sh1) := dest_retracked sh now track (rt_destination r) in
    match rt_destination_h2 r with
    | Some h2 => let '(d2, sh2) := dest_retracked sh1 now track h2 in (d, Some d2, sh2)
    | None => (d, None, sh1)
    end
  else (rt_destination r, rt_destination_h2 r, sh).

Definition tcp_health_of (sh : shared) (now : Z) (previous : option Route) (previous_down : bool)
    (d : Destination) : option nat * shared :=
  match d with
  | UdsSet _ => (None, sh)
  | Tcp addr =>
      match (p ← previous;
             match rt_destination p, rt_failover p with
             | Tcp prev, Some f => if bool_decide (prev = addr) then fo_tcp_health f else None
             | _, _ => None
             end) with
      | Some h => (Some h, sh)
      | None => let '(h, sh') := new_health sh previous_down now in (Some h, sh')
      end
  end.

(** What is applied to the route actually installed: the specification's source
    list, slot tracking, metric identity and failover. *)
Definition finish_route (su : surroundings) (e : env) (spec : RouteSpec) (previous_route : option Route)
    (previous_down : bool) (sources : option SourceAllowlist) (policy : option FailoverPolicy)
    (carried : bool) (r : Route) : Route * env :=
  let '(d, h2, sh1) := retrack (e_shared e) (su_now su) carried r (bool_decide (is_Some policy)) in
  let identity := match previous_route with
                  | Some p => if bytes_eqb (mi_group (rt_identity p)) (rs_metrics_group spec)
                              then rt_identity p else rt_identity r
                  | None => rt_identity r
                  end in
  let r1 := set_route r identity d h2 sources (rt_failover r) in
  let '(failover, e2) :=
    match policy with
    | None => (None, with_shared e sh1)
    | Some policy =>
        let previous_failover :=
          p ← previous_route;
          if (mi_id (rt_identity p) =? mi_id identity)%nat then rt_failover p else None in
        let '(tcp_health, sh2) := tcp_health_of sh1 (su_now su) previous_route previous_down d in
        let same := match previous_route with Some p => same_route_load p r1 | None => false end in
        let '(f, fl) := Failover_new (e_fleet e) policy previous_failover tcp_health same in
        (Some f, mkEnv sh2 fl (e_cache e) (e_configs e) (e_next_identity e))
    end in
  (set_route r identity d h2 sources failover, e2).

Record spec_result : Type := mkSpecResult {
  sr_route : option Route;
  sr_failing : bool;
  sr_invalid_failover : bool;
  sr_invalid_spill : bool;
}.

(** What a specification that decides its name contributes: the route to
    install, or [None] when the name is to be refused. *)
Definition spec_outcome (su : surroundings) (lt : ListenerTlsSpec) (previous : option RouteTable) (e : env)
    (spec : RouteSpec) : spec_result * env :=
  match validate_route_protocol_declaration spec with
  | Err _ => (mkSpecResult None true false false, e)
  | Ok _ =>
      match SourceAllowlist_parse (rs_allowed_sources spec) with
      | Err _ => (mkSpecResult None true false false, e)
      | Ok sources =>
          let previous_route := p ← previous; get_for_spec_sni p (rs_sni spec) in
          let '(policy, bad_failover, bad_spill) := failover_policy spec in
          let requested := ClientAuth_of spec lt in
          let previous_down :=
            match previous_route with
            | Some p => match rt_failover p with
                        | Some f => locally_down (e_shared e) f (rt_destination p) (rt_destination_h2 p)
                        | None => false
                        end
            | None => false
            end in
          let inherit := mkInherit previous_route (bool_decide (is_Some policy)) previous_down in
          match build_route su e spec lt inherit with
          | (Ok r, e1) =>
              let '(r, e2) := finish_route su e1 spec previous_route previous_down sources policy false r in
              (mkSpecResult (Some r) false bad_failover bad_spill, e2)
          | (Err _, e1) =>
              match carry_forward previous spec requested with
              | Some r =>
                  let '(r, e2) := finish_route su e1 spec previous_route previous_down sources policy true r in
                  (mkSpecResult (Some r) true bad_failover bad_spill, e2)
              | None => (mkSpecResult None true bad_failover bad_spill, e1)
              end
          end
      end
  end.

(** ** The table *)

Record builder : Type := mkBuilder {
  b_exact : gmap bytes Route;
  b_wildcard : list (bytes * Route);
  b_default : option Route;
  b_monitored : list UdsBalancer;
  b_affinity : list UdsBalancer;
  b_failing : gset bytes;
  b_invalid_failover : gset bytes;
  b_invalid_spill : gset bytes;
  b_configured_wildcards : gset bytes;
  b_dropped_exact : gset bytes;
  b_dropped_wildcard : list bytes;
  b_client_auth : gmap bytes ClientAuth;
  b_failover_routes : list FailoverRoute;
}.
Definition builder_new : builder := mkBuilder ∅ [] None [] [] ∅ ∅ ∅ ∅ ∅ [] ∅ [].

Definition mark (b : bool) (sni : bytes) (s : gset bytes) : gset bytes := if b then {[sni]} ∪ s else s.

Definition is_wild (sni : bytes) : bool := starts_with star_dot sni.

(** [HashMap] collected from [(sni, index)]: the last index wins. *)
Definition last_exact (specs : list RouteSpec) : gmap bytes nat :=
  foldl (fun m e => if is_wild (rs_sni e.2) then m else <[rs_sni e.2 := e.1]> m) ∅ (enumerate specs).

(** A name that is configured and not served: [tombstone]. *)
Definition tombstone (b : builder) (sni : bytes) : builder :=
  match strip_prefix star_dot sni with
  | Some suffix =>
      mkBuilder (b_exact b) (b_wildcard b) (b_default b) (b_monitored b) (b_affinity b) (b_failing b)
        (b_invalid_failover b) (b_invalid_spill b) (b_configured_wildcards b) (b_dropped_exact b)
        (b_dropped_wildcard b ++ [suffix]) (b_client_auth b) (b_failover_routes b)
  | None =>
      mkBuilder (b_exact b) (b_wildcard b) (b_default b) (b_monitored b) (b_affinity b) (b_failing b)
        (b_invalid_failover b) (b_invalid_spill b) (b_configured_wildcards b)
        ({[sni]} ∪ b_dropped_exact b) (b_dropped_wildcard b) (b_client_auth b) (b_failover_routes b)
  end.

Definition route_balancers (r : Route) : list UdsBalancer :=
  omap (fun d => balancer_of (Some d))
    (rt_destination r :: match rt_destination_h2 r with Some d => [d] | None => [] end).

Definition install (b : builder) (sni : bytes) (requested : ClientAuth) (r : Route) : builder :=
  let wild := strip_prefix star_dot sni in
  mkBuilder
    (match wild with
     | Some _ => b_exact b
     | None => if bool_decide (sni = []) then b_exact b else <[sni := r]> (b_exact b)
     end)
    (match wild with Some suffix => b_wildcard b ++ [(suffix, r)] | None => b_wildcard b end)
    (match wild with
     | Some _ => b_default b
     | None => if bool_decide (sni = []) then Some r else b_default b
     end)
    (b_monitored b ++ List.filter has_monitored_slots (route_balancers r))
    (b_affinity b ++ List.filter has_affinity (route_balancers r))
    (b_failing b) (b_invalid_failover b) (b_invalid_spill b) (b_configured_wildcards b)
    (b_dropped_exact b) (b_dropped_wildcard b)
    (<[sni := requested]> (b_client_auth b))
    (b_failover_routes b ++
     match rt_failover r with
     | Some f => [mkRoute (mi_id (rt_identity r)) (mi_route (rt_identity r)) (mi_group (rt_identity r)) f
                    (rt_destination r) (rt_destination_h2 r)]
     | None => []
     end).

(** The sets of names that need attention, and the wildcards already decided. *)
Definition note_result (b : builder) (sni : bytes) (res : spec_result) : builder :=
  mkBuilder (b_exact b) (b_wildcard b) (b_default b) (b_monitored b) (b_affinity b)
    (mark (sr_failing res) sni (b_failing b))
    (mark (sr_invalid_failover res) sni (b_invalid_failover b))
    (mark (sr_invalid_spill res) sni (b_invalid_spill b))
    (match strip_prefix star_dot sni with
     | Some suffix => {[suffix]} ∪ b_configured_wildcards b
     | None => b_configured_wildcards b
     end)
    (b_dropped_exact b) (b_dropped_wildcard b) (b_client_auth b) (b_failover_routes b).

Definition note_duplicate (b : builder) (sni : bytes) : builder :=
  note_result b sni (mkSpecResult None true false false).

(** Whether the specification at index [i] is the one that decides its name. *)
Definition decides (last : gmap bytes nat) (b : builder) (i : nat) (sni : bytes) : bool :=
  match strip_prefix star_dot sni with
  | Some suffix => negb (bool_decide (suffix ∈ b_configured_wildcards b))
  | None => match last !! sni with Some l => (l =? i)%nat | None => true end
  end.

(** The configurations of the routes installed so far are held too. *)
Definition installed_configs (b : builder) : list nat :=
  omap rt_tls_config (((map_to_list (b_exact b)).*2 ++ (b_wildcard b).*2) ++
                      match b_default b with Some r => [r] | None => [] end).
Definition holding (su : surroundings) (b : builder) : surroundings :=
  mkSurroundings (su_now su) (su_ticketer su)
    (fun c => su_held su c || bool_decide (c ∈ installed_configs b)).

Definition build_step (su : surroundings) (lt : ListenerTlsSpec) (previous : option RouteTable)
    (last : gmap bytes nat) (acc : builder * env) (entry : nat * RouteSpec) : builder * env :=
  let '(b, e) := acc in
  let '(i, spec) := entry in
  let sni := rs_sni spec in
  if decides last b i sni then
    let '(res, e') := spec_outcome (holding su b) lt previous e spec in
    let b' := note_result b sni res in
    (match sr_route res with
     | Some r => install b' sni (ClientAuth_of spec lt) r
     | None => tombstone b' sni
     end, e')
  else (match strip_prefix star_dot sni with Some _ => note_duplicate b sni | None => b end, e).

(** By route, then by group. *)
Fixpoint bytes_leb (a b : bytes) : bool :=
  match a, b with
  | [], _ => true
  | _ :: _, [] => false
  | x :: a', y :: b' => (x <? y) || ((x =? y) && bytes_leb a' b')
  end.
Definition identity_le (a b : RouteMetricIdentity) : Prop :=
  (if bytes_eqb (mi_route a) (mi_route b) then bytes_leb (mi_group a) (mi_group b)
   else bytes_leb (mi_route a) (mi_route b)) = true.
#[local] Instance identity_le_dec a b : Decision (identity_le a b).
Proof. unfold identity_le. apply _. Defined.

Definition table_of (b : builder) : RouteTable :=
  mkTable (b_exact b) (b_wildcard b) (b_default b)
    (merge_sort identity_le
       (rt_identity <$> (((map_to_list (b_exact b)).*2 ++ (b_wildcard b).*2) ++
                         match b_default b with Some r => [r] | None => [] end)))
    (b_monitored b) (b_affinity b) (b_failing b) (b_invalid_failover b) (b_invalid_spill b)
    (b_dropped_exact b) (b_dropped_wildcard b) (b_client_auth b) (b_failover_routes b).

Definition clear_cache (su : surroundings) (e : env) : env :=
  mkEnv (e_shared e) (e_fleet e) (clear_used (su_held su) (e_cache e)) (e_configs e) (e_next_identity e).

Definition build_route_table (su : surroundings) (e : env) (specs : list RouteSpec) (lt : ListenerTlsSpec)
    (previous : option RouteTable) : RouteTable * env :=
  let '(b, e') := foldl (build_step su lt previous (last_exact specs)) (builder_new, clear_cache su e)
                    (enumerate specs) in
  (table_of b, e').

(** ** Lemmas: what a name is decided to *)

(** The verdict stored for a configured name: none yet, refused, or a route. *)
Definition status (b : builder) (sni : bytes) : option (option Route) :=
  match get_for_spec_sni (table_of b) sni with
  | Some r => Some (Some r)
  | None =>
      match strip_prefix star_dot sni with
      | Some suffix => if bool_decide (suffix ∈ b_dropped_wildcard b) then Some None else None
      | None => if bool_decide (sni ∈ b_dropped_exact b) then Some None else None
      end
  end.

Lemma get_for_spec_sni_status b sni r :
  get_for_spec_sni (table_of b) sni = Some r <-> status b sni = Some (Some r).
Proof.
  unfold status. destruct (get_for_spec_sni _ _); [split; congruence |].
  split; [done |]. by repeat case_match.
Qed.

Lemma status_new sni : status builder_new sni = None.
Proof.
  unfold status, get_for_spec_sni.
  cbn [builder_new table_of exact wildcard default_route b_exact b_wildcard b_default b_dropped_exact b_dropped_wildcard].
  destruct (strip_prefix star_dot sni) as [s|].
  - cbn [find_wildcard find_first fmap option_fmap option_map].
    rewrite (bool_decide_eq_false_2 (s ∈ [])); [done | apply not_elem_of_nil].
  - rewrite lookup_empty, (bool_decide_eq_false_2 (sni ∈ ∅)); [by destruct (bool_decide _) | apply not_elem_of_empty].
Qed.

Lemma status_note b sni res sni' : status (note_result b sni res) sni' = status b sni'.
Proof. done. Qed.

Lemma find_wildcard_snoc p l s r :
  find_wildcard p (l ++ [(s, r)]) =
  match find_wildcard p l with Some x => Some x | None => if p s then Some r else None end.
Proof.
  unfold find_wildcard. rewrite find_first_app. destruct (find_first _ l) as [[s' r']|]; [done |]. simpl.
  by destruct (p s).
Qed.

Lemma status_install b sni a r sni' :
  status b sni = None ->
  status (install b sni a r) sni' = if bool_decide (sni' = sni) then Some (Some r) else status b sni'.
Proof.
  unfold status, get_for_spec_sni, install; simpl. intros Hnone.
  destruct (strip_prefix star_dot sni') as [suffix'|] eqn:Hs'; destruct (strip_prefix star_dot sni) as [suffix|] eqn:Hs.
  - apply strip_prefix_Some in Hs as ->, Hs' as ->. rewrite find_wildcard_snoc.
    destruct (bool_decide_reflect (star_dot ++ suffix' = star_dot ++ suffix)) as [Heq|Heq].
    + apply app_inv_head in Heq as ->. destruct (find_wildcard _ _); [done |]. unfold bytes_eqb. by rewrite bool_decide_eq_true_2.
    + destruct (find_wildcard (fun s => bytes_eqb s suffix') _); [done |]. unfold bytes_eqb. by rewrite (bool_decide_eq_false_2 (suffix = suffix')) by congruence.
  - rewrite (bool_decide_eq_false_2 (sni' = sni)); [done | congruence].
  - rewrite (bool_decide_eq_false_2 (sni' = sni)); [done | congruence].
  - destruct (bool_decide_reflect (sni' = sni)) as [->|Hne'].
    + destruct (bool_decide_reflect (sni = [])); [done |]. by rewrite lookup_insert_eq.
    + destruct (bool_decide_reflect (sni = [])) as [->|Hne];
        destruct (bool_decide_reflect (sni' = [])); try done. by rewrite lookup_insert_ne.
Qed.

Lemma status_tombstone b sni sni' :
  status b sni = None ->
  status (tombstone b sni) sni' = if bool_decide (sni' = sni) then Some None else status b sni'.
Proof.
  unfold status, get_for_spec_sni, tombstone. intros Hnone.
  destruct (strip_prefix star_dot sni) as [suffix|] eqn:Hs; simpl;
    destruct (strip_prefix star_dot sni') as [suffix'|] eqn:Hs'; simpl in *.
  - apply strip_prefix_Some in Hs as ->, Hs' as ->.
    destruct (bool_decide_reflect (star_dot ++ suffix' = star_dot ++ suffix)) as [Heq|Heq].
    + apply app_inv_head in Heq as ->. destruct (find_wildcard _ _); [done |].
      rewrite bool_decide_eq_true_2; [done |]. apply elem_of_app. right. by apply list_elem_of_singleton.
    + destruct (find_wildcard _ _); [done |]. erewrite bool_decide_ext; [done |].
      rewrite elem_of_app, list_elem_of_singleton. split; [|by left]. intros [?| ->]; [done | by destruct Heq].
  - rewrite (bool_decide_eq_false_2 (sni' = sni)); [done | congruence].
  - rewrite (bool_decide_eq_false_2 (sni' = sni)); [done | congruence].
  - destruct (bool_decide_reflect (sni' = sni)) as [Heq|Heq].
    + subst sni'. destruct (if bool_decide (sni = []) then _ else _); [done |].
      rewrite bool_decide_eq_true_2; [done | set_solver].
    + destruct (if bool_decide (sni' = []) then _ else _); [done |].
      erewrite bool_decide_ext; [done |]. rewrite elem_of_union, elem_of_singleton.
      split; [intros [?|?]; [by destruct Heq | done] | by right].
Qed.

(** The exact map only has names that are neither wildcards nor empty. *)
Definition keys_ok (b : builder) : Prop :=
  (forall n r, b_exact b !! n = Some r -> is_wild n = false /\ n <> []) /\
  (forall n, n ∈ b_dropped_exact b -> is_wild n = false).

Lemma keys_install b sni a r : keys_ok b -> keys_ok (install b sni a r).
Proof.
  intros [Hex Hdr]. split; [|exact Hdr]. simpl. intros n r'.
  destruct (strip_prefix star_dot sni) eqn:Hs; [apply Hex |]. case_bool_decide; [apply Hex |].
  intros [[<- _]|[_ ?]]%lookup_insert_Some; [split; [by apply strip_prefix_None | done] | by eapply Hex].
Qed.

Lemma keys_tombstone b sni : keys_ok b -> keys_ok (tombstone b sni).
Proof.
  intros [Hex Hdr]. unfold tombstone. destruct (strip_prefix star_dot sni) eqn:Hs; [done |].
  split; [exact Hex |]. simpl. intros n [->%elem_of_singleton|?]%elem_of_union; [|by apply Hdr].
  by apply strip_prefix_None.
Qed.

(** A lookup reads the verdict of the name itself, then that of its wildcard. *)
Definition resolve_wild (b : builder) (n : bytes) (dflt : bool) : option Route :=
  match find_wildcard (wildcard_suffix_matches n) (b_wildcard b) with
  | Some r => Some r
  | None => if existsb (wildcard_suffix_matches n) (b_dropped_wildcard b) then None
            else if dflt then b_default b else None
  end.

Lemma resolve_status b n dflt :
  keys_ok b -> n <> [] ->
  resolve_with (table_of b) (Some n) dflt =
  match (if is_wild n then None else status b n) with Some o => o | None => resolve_wild b n dflt end.
Proof.
  intros [Hex Hdr] Hne. unfold resolve_with, status, get_for_spec_sni. simpl. fold (resolve_wild b n dflt).
  destruct (is_wild n) eqn:Hw.
  - destruct (b_exact b !! n) as [r|] eqn:E; [apply Hex in E as []; congruence |].
    rewrite bool_decide_eq_false_2; [done |]. intros Hin. apply Hdr in Hin. congruence.
  - apply strip_prefix_None in Hw. rewrite Hw, (bool_decide_eq_false_2 (n = []) Hne).
    destruct (b_exact b !! n); [done |]. by case_bool_decide.
Qed.

Lemma resolve_wild_suffix b n dflt s :
  (forall s', wildcard_suffix_matches n s' = bytes_eqb s' s) ->
  resolve_wild b n dflt =
  match status b (star_dot ++ s) with Some o => o | None => if dflt then b_default b else None end.
Proof.
  intros Hs. unfold resolve_wild, status, get_for_spec_sni, find_wildcard. rewrite strip_prefix_app. simpl.
  rewrite (find_first_ext (fun e => wildcard_suffix_matches n e.1) (fun e => bytes_eqb e.1 s)) by by intros [].
  destruct (find_first _ _); [done |]. simpl.
  assert (existsb (wildcard_suffix_matches n) (b_dropped_wildcard b) =
    bool_decide (s ∈ b_dropped_wildcard b)) as ->; [|by case_bool_decide].
  apply eq_iff_eq_true.
  rewrite existsb_exists, bool_decide_eq_true. split.
  - intros (x & Hx & Hm). rewrite Hs, bytes_eqb_eq in Hm. subst. by apply list_elem_of_In.
  - intros Hin. exists s. split; [by apply list_elem_of_In |]. rewrite Hs. by apply bytes_eqb_eq.
Qed.

Lemma resolve_wild_none b n dflt :
  (forall s', wildcard_suffix_matches n s' = false) ->
  resolve_wild b n dflt = if dflt then b_default b else None.
Proof.
  intros Hs. unfold resolve_wild, find_wildcard.
  rewrite (proj2 (find_first_None _ _)) by (intros [s r] _; apply Hs). simpl.
  destruct (existsb _ _) eqn:E; [|done]. apply existsb_exists in E as (x & _ & Hx). by rewrite Hs in Hx.
Qed.

(** ** Lemmas: which specification decides a name *)

Definition last_with {A} (p : A -> bool) (l : list A) : option A := find_first p (rev l).

Definition names (n : bytes) (s : RouteSpec) : bool := bytes_eqb (rs_sni s) n.

(** The specification that decides a server name: the last one for exactly this
    name, else the first wildcard over it. *)
Definition deciding (specs : list RouteSpec) (n : bytes) : option RouteSpec :=
  match last_with (fun s => names n s && negb (is_wild (rs_sni s))) specs with
  | Some s => Some s
  | None => find_first (fun s => match strip_prefix star_dot (rs_sni s) with
                                 | Some suffix => wildcard_suffix_matches n suffix
                                 | None => false
                                 end) specs
  end.

Lemma last_exact_snoc specs s :
  last_exact (specs ++ [s]) =
  if is_wild (rs_sni s) then last_exact specs else <[rs_sni s := length specs]> (last_exact specs).
Proof. unfold last_exact. by rewrite enumerate_snoc, foldl_app. Qed.

Lemma last_exact_spec specs n :
  match last_exact specs !! n with
  | Some i => is_wild n = false /\ exists s, specs !! i = Some s /\ rs_sni s = n /\ last_with (names n) specs = Some s
  | None => is_wild n = false -> last_with (names n) specs = None
  end.
Proof.
  induction specs as [|s specs IH] using rev_ind; [by unfold last_exact; simpl; rewrite lookup_empty |].
  rewrite last_exact_snoc. unfold last_with. rewrite rev_unit. cbn [find_first].
  assert (names n s = bool_decide (rs_sni s = n)) as Hn by done.
  assert (forall i x, specs !! i = Some x -> (specs ++ [s]) !! i = Some x) as Hext.
  { intros i x Hx. apply lookup_app_l_Some, Hx. }
  destruct (is_wild (rs_sni s)) eqn:Hw; [|destruct (decide (rs_sni s = n)) as [<-|Hne]].
  - rewrite Hn. destruct (last_exact specs !! n) as [i|].
    + destruct IH as [Hwn (x & Hx & Hsn & Hl)]. split; [done |]. rewrite bool_decide_eq_false_2 by congruence.
      exists x. split_and!; auto.
    + intros Hwn. rewrite bool_decide_eq_false_2 by congruence. by apply IH.
  - rewrite lookup_insert_eq, Hn, bool_decide_eq_true_2 by done. split; [done |]. exists s.
    split_and!; try done. rewrite lookup_app_r, Nat.sub_diag by lia. done.
  - rewrite lookup_insert_ne, Hn, bool_decide_eq_false_2 by done.
    destruct (last_exact specs !! n) as [i|]; [|done].
    destruct IH as [Hwn (x & Hx & Hsn & Hl)]. split; [done |]. exists x. split_and!; auto.
Qed.

Section Fold.
Context (su : surroundings) (lt : ListenerTlsSpec) (previous : option RouteTable) (specs : list RouteSpec).

(** What [spec_outcome] can say of a specification. *)
Definition outcome_is (spec : RouteSpec) (o : option Route) : Prop :=
  exists su' e, sr_route (spec_outcome su' lt previous e spec).1 = o.

(** The decider of a configured name among the first specifications. *)
Definition decider (pre : list RouteSpec) (sni : bytes) : option RouteSpec :=
  if is_wild sni then find_first (names sni) pre
  else i ← last_exact specs !! sni; pre !! i.

Record decided (pre : list RouteSpec) (b : builder) : Prop := {
  dec_status : forall sni,
    match decider pre sni with
    | Some spec => exists o, outcome_is spec o /\ status b sni = Some o /\
        (is_Some o -> b_client_auth b !! sni = Some (ClientAuth_of spec lt))
    | None => status b sni = None
    end;
  dec_wild : forall s, s ∈ b_configured_wildcards b <-> is_Some (find_first (names (star_dot ++ s)) pre);
  dec_keys : keys_ok b;
}.

Lemma decider_snoc_other pre x post sni :
  specs = pre ++ x :: post -> rs_sni x <> sni -> decider (pre ++ [x]) sni = decider pre sni.
Proof.
  intros Hsp Hne. unfold decider. destruct (is_wild sni).
  - rewrite find_first_app. destruct (find_first _ pre); [done |]. simpl.
    unfold names, bytes_eqb. by rewrite bool_decide_eq_false_2.
  - pose proof (last_exact_spec specs sni) as Hl. destruct (last_exact specs !! sni) as [i|]; [|done]. simpl.
    destruct Hl as (_ & s & Hs & Hsn & _). destruct (decide (i = length pre)) as [->|Hi].
    + rewrite Hsp, lookup_app_r, Nat.sub_diag in Hs by lia. simpl in Hs. congruence.
    + destruct (decide (i < length pre)%nat).
      * by rewrite lookup_app_l.
      * rewrite !lookup_ge_None_2; rewrite ?length_app; simpl; [done | lia | lia].
Qed.

(** Taking the decision changes only the verdict of the specification's name. *)
Lemma decided_take pre x post b b' o :
  specs = pre ++ x :: post -> decided pre b -> decider pre (rs_sni x) = None ->
  decider (pre ++ [x]) (rs_sni x) = Some x -> outcome_is x o ->
  (forall sni, status b' sni = if bool_decide (sni = rs_sni x) then Some o else status b sni) ->
  (is_Some o -> b_client_auth b' !! rs_sni x = Some (ClientAuth_of x lt)) ->
  (forall sni, sni <> rs_sni x -> b_client_auth b' !! sni = b_client_auth b !! sni) ->
  (forall s, s ∈ b_configured_wildcards b' <-> rs_sni x = star_dot ++ s \/ s ∈ b_configured_wildcards b) ->
  keys_ok b' -> decided (pre ++ [x]) b'.
Proof.
  intros Hsp [Hst Hwild _] Hnone Hnew Hout Hstatus Hauth Hauth' Hconf Hkeys. split; [| |done].
  - intros sni. rewrite Hstatus. case_bool_decide as Heq.
    + subst sni. rewrite Hnew. eauto.
    + rewrite (decider_snoc_other pre x post) by auto. specialize (Hst sni).
      destruct (decider pre sni); [|done]. destruct Hst as (o' & ? & ? & Ha). exists o'. split_and!; try done.
      intros Ho. rewrite Hauth'; auto.
  - intros s. rewrite Hconf, Hwild, find_first_app. destruct (find_first _ pre) as [y|] eqn:Hf.
    + split; [by intros _; eexists | by right; eexists].
    + simpl. unfold names, bytes_eqb. case_bool_decide; split; try by eauto; intros [?|[? ?]]; done.
Qed.

Lemma is_wild_app s : is_wild (star_dot ++ s) = true.
Proof. apply starts_with_app. Qed.

(** [decides] holds exactly for the specification that decides its name. *)
Lemma decides_spec pre x post b :
  specs = pre ++ x :: post -> decided pre b ->
  if decides (last_exact specs) b (length pre) (rs_sni x)
  then decider pre (rs_sni x) = None /\ decider (pre ++ [x]) (rs_sni x) = Some x
  else decider (pre ++ [x]) (rs_sni x) = decider pre (rs_sni x).
Proof.
  intros Hsp [_ Hwild _]. unfold decides, decider. destruct (strip_prefix star_dot (rs_sni x)) as [suffix|] eqn:Hs.
  - apply strip_prefix_Some in Hs.
    assert (names (star_dot ++ suffix) x = true) as Hx by by apply bytes_eqb_eq.
    rewrite Hs, is_wild_app, find_first_app. cbn [find_first]. rewrite Hx. specialize (Hwild suffix).
    case_bool_decide as Hin; cbn [negb].
    + apply Hwild in Hin as [y ->]. done.
    + destruct (find_first _ pre); [|done]. destruct Hin. apply Hwild. by eexists.
  - apply strip_prefix_None in Hs. unfold is_wild in *. rewrite Hs.
    pose proof (last_exact_spec specs (rs_sni x)) as Hl.
    destruct (last_exact specs !! rs_sni x) as [l|].
    2: { specialize (Hl Hs). unfold last_with in Hl. rewrite find_first_None in Hl.
         assert (names (rs_sni x) x = false) as Hn; [|by unfold names, bytes_eqb in Hn; rewrite bool_decide_eq_true_2 in Hn].
         apply Hl. rewrite Hsp. apply list_elem_of_In, in_rev, list_elem_of_In. rewrite rev_involutive.
         apply elem_of_app. right. constructor. }
    simpl. destruct (Nat.eqb_spec l (length pre)) as [->|Hne].
    + split; [by apply lookup_ge_None_2 |]. by rewrite lookup_app_r, Nat.sub_diag.
    + destruct (decide (l < length pre)%nat); [by rewrite lookup_app_l |].
      rewrite !lookup_ge_None_2; rewrite ?length_app; simpl; [done | lia | lia].
Qed.

(** A specification that decides nothing leaves every verdict alone. *)
Lemma decided_skip pre x post b b' :
  specs = pre ++ x :: post -> decided pre b ->
  decider (pre ++ [x]) (rs_sni x) = decider pre (rs_sni x) ->
  (forall sni, status b' sni = status b sni) -> b_client_auth b' = b_client_auth b ->
  (forall s, s ∈ b_configured_wildcards b' <-> rs_sni x = star_dot ++ s \/ s ∈ b_configured_wildcards b) ->
  keys_ok b' -> decided (pre ++ [x]) b'.
Proof.
  intros Hsp [Hst Hwild _] Hsame Hstatus Hauth Hconf Hkeys. split; [| |done].
  - intros sni. rewrite Hstatus, Hauth. destruct (decide (rs_sni x = sni)) as [<-|Hne].
    + rewrite Hsame. apply Hst.
    + rewrite (decider_snoc_other pre x post) by auto. apply Hst.
  - intros s. rewrite Hconf, Hwild, find_first_app. destruct (find_first _ pre) as [y|] eqn:Hf.
    + split; [by intros _; eexists | by right; eexists].
    + simpl. unfold names, bytes_eqb. case_bool_decide; split; try by eauto; intros [?|[? ?]]; done.
Qed.

Lemma configured_note b sni res s :
  s ∈ b_configured_wildcards (note_result b sni res) <-> sni = star_dot ++ s \/ s ∈ b_configured_wildcards b.
Proof.
  cbn [note_result b_configured_wildcards]. destruct (strip_prefix star_dot sni) as [suffix|] eqn:Hs.
  - apply strip_prefix_Some in Hs as ->. rewrite elem_of_union, elem_of_singleton.
    split; (intros [Heq|?]; [left | by right]); [by subst | by apply app_inv_head in Heq].
  - split; [by right |]. intros [->|?]; [by rewrite strip_prefix_app in Hs | done].
Qed.

Lemma build_step_decided pre x post b e :
  specs = pre ++ x :: post -> decided pre b ->
  decided (pre ++ [x]) (build_step su lt previous (last_exact specs) (b, e) (length pre, x)).1.
Proof.
  intros Hsp Hdec. pose proof (decides_spec pre x post b Hsp Hdec) as Hd. unfold build_step.
  pose proof (dec_keys _ _ Hdec) as Hkeys.
  destruct (decides _ _ _ _) eqn:Hb.
  - destruct Hd as [Hnone Hnew].
    pose proof (dec_status _ _ Hdec (rs_sni x)) as Hst. rewrite Hnone in Hst.
    destruct (spec_outcome (holding su b) lt previous e x) as [res e'] eqn:Ho. simpl.
    assert (outcome_is x (sr_route res)) as Hout by (exists (holding su b), e; by rewrite Ho).
    assert (keys_ok (note_result b (rs_sni x) res)) as Hk by exact Hkeys.
    apply (decided_take pre x post b _ (sr_route res)); try done.
    + intros sni. destruct (sr_route res); [by rewrite status_install | by rewrite status_tombstone].
    + intros [r Hr]. rewrite Hr. apply lookup_insert_eq.
    + intros sni Hne. destruct (sr_route res).
      * by apply lookup_insert_ne.
      * unfold tombstone. by destruct (strip_prefix _ _).
    + intros s. rewrite <- (configured_note b (rs_sni x) res). destruct (sr_route res); [done |].
      unfold tombstone. by destruct (strip_prefix _ _).
    + destruct (sr_route res); [by apply keys_install | by apply keys_tombstone].
  - simpl. destruct (strip_prefix star_dot (rs_sni x)) eqn:Hs.
    + apply (decided_skip pre x post b); try done. intros s. apply configured_note.
    + apply (decided_skip pre x post b); try done. intros s. split; [by right |].
      intros [Heq|?]; [by rewrite Heq, strip_prefix_app in Hs | done].
Qed.

Lemma build_decided pre post acc :
  specs = pre ++ post ->
  decided pre (foldl (build_step su lt previous (last_exact specs)) (builder_new, acc) (enumerate pre)).1.
Proof.
  revert post; induction pre as [|x pre IH] using rev_ind; intros post Hsp.
  - change (foldl _ _ _).1 with builder_new. split.
    + intros sni. unfold decider. destruct (is_wild sni); simpl; [apply status_new |].
      destruct (last_exact specs !! sni); apply status_new.
    + intros s. split; [set_solver | by intros []].
    + split; [intros n r Hr; cbn [builder_new b_exact] in Hr; by rewrite lookup_empty in Hr | set_solver].
  - rewrite <- app_assoc in Hsp. rewrite enumerate_snoc, foldl_app. simpl.
    destruct (foldl _ (builder_new, acc) (enumerate pre)) as [b e] eqn:E.
    apply (build_step_decided pre x post); [done |]. exact (IH _ Hsp).
Qed.

(** ** Lemmas: a lookup in the finished table *)

Lemma deciding_decider n :
  n <> [] ->
  deciding specs n =
  match (if is_wild n then None else decider specs n) with
  | Some s => Some s
  | None => find_first (fun s => match strip_prefix star_dot (rs_sni s) with
                                 | Some suffix => wildcard_suffix_matches n suffix
                                 | None => false
                                 end) specs
  end.
Proof.
  intros Hne. unfold deciding, decider. destruct (is_wild n) eqn:Hw.
  - unfold last_with. rewrite (proj2 (find_first_None _ _)); [done |]. intros s _.
    unfold names, bytes_eqb. case_bool_decide; [subst; by rewrite Hw | done].
  - assert (last_with (fun s => names n s && negb (is_wild (rs_sni s))) specs = last_with (names n) specs) as ->.
    { apply find_first_ext. intros s _. unfold names, bytes_eqb. case_bool_decide; [subst; by rewrite Hw | done]. }
    pose proof (last_exact_spec specs n) as Hl. destruct (last_exact specs !! n) as [i|]; simpl.
    + destruct Hl as (_ & s & -> & _ & ->). done.
    + by rewrite Hl.
Qed.

Lemma resolve_decided b n dflt :
  decided specs b -> n <> [] ->
  match deciding specs n with
  | Some spec => exists o, outcome_is spec o /\ resolve_with (table_of b) (Some n) dflt = o
  | None => resolve_with (table_of b) (Some n) dflt = if dflt then b_default b else None
  end.
Proof.
  intros Hdec Hne. rewrite deciding_decider by done. rewrite resolve_status by (by destruct Hdec).
  assert (match find_first (fun s => match strip_prefix star_dot (rs_sni s) with
            | Some suffix => wildcard_suffix_matches n suffix | None => false end) specs with
          | Some spec => exists o, outcome_is spec o /\ resolve_wild b n dflt = o
          | None => resolve_wild b n dflt = if dflt then b_default b else None
          end) as Hwild.
  { destruct (wildcard_suffix_unique n) as [[s Hs]|Hs].
    - rewrite (resolve_wild_suffix b n dflt s Hs).
      rewrite (find_first_ext _ (names (star_dot ++ s))).
      2: { intros a _. destruct (strip_prefix star_dot (rs_sni a)) as [suffix|] eqn:Ha.
           - apply strip_prefix_Some in Ha. rewrite Hs. unfold names, bytes_eqb. rewrite Ha.
             apply bool_decide_ext. split; [by intros -> | apply app_inv_head].
           - unfold names, bytes_eqb. rewrite bool_decide_eq_false_2; [done |].
             intros E. by rewrite E, strip_prefix_app in Ha. }
      pose proof (dec_status _ _ Hdec (star_dot ++ s)) as Hst. unfold decider in Hst. rewrite is_wild_app in Hst.
      destruct (find_first _ specs) as [spec|]; [|by rewrite Hst].
      destruct Hst as (o & Ho & -> & _). by exists o.
    - rewrite resolve_wild_none by done. rewrite (proj2 (find_first_None _ _)); [done |].
      intros a _. by destruct (strip_prefix _ _). }
  destruct (is_wild n) eqn:Hw; [done |].
  pose proof (dec_status _ _ Hdec n) as Hst. destruct (decider specs n) as [spec|].
  - destruct Hst as (o & Ho & -> & _). by exists o.
  - by rewrite Hst.
Qed.
End Fold.

(** ** Lemmas: what an installed route enforces *)

Definition auth_matches (a : ClientAuth) (r : Route) : Prop :=
  match a with
  | Passthrough => rt_terminate_tls r = false /\ rt_requires_client_cert r = false /\ rt_tls_config r = None
  | NoClientCert => rt_terminate_tls r = true /\ rt_requires_client_cert r = false /\ is_Some (rt_tls_config r)
  | ClientCert _ required =>
      rt_terminate_tls r = true /\ rt_requires_client_cert r = required /\ is_Some (rt_tls_config r)
  end.

(** Headers are only put into a decrypted HTTP/1 stream. *)
Definition carriers_ok (r : Route) : Prop :=
  (requires_http_protocol (rt_source_address_mode r) (rt_forward_fingerprint r) = true ->
   rt_terminate_tls r = true /\ rt_protocol r = ProtoHttp) /\
  (is_Some (rt_destination_h2 r) -> rt_terminate_tls r = true /\ rt_source_address_mode r <> SaXForwardedFor).

Definition table_ok (t : RouteTable) : Prop :=
  forall sni r, get_for_spec_sni t sni = Some r ->
  exists a, client_auth t !! sni = Some a /\ auth_matches a r /\ carriers_ok r.

Lemma retrack_h2 sh now carried r track d h2 sh' :
  retrack sh now carried r track = (d, h2, sh') -> is_Some h2 <-> is_Some (rt_destination_h2 r).
Proof.
  unfold retrack. destruct (carried && _); [|by intros [= <- <- <-]].
  destruct (dest_retracked _ _ _ _) as [d1 sh1]. destruct (rt_destination_h2 r) as [x|]; [|by intros [= <- <- <-]].
  destruct (dest_retracked _ _ _ _) as [d2 sh2]. intros [= <- <- <-]. split; by eexists.
Qed.

(** The policy a route's failover was made for. *)
Definition failover_matches (policy : option FailoverPolicy) (f : option Failover) : Prop :=
  match policy, f with
  | None, None => True
  | Some p, Some f => fo_drain f = pol_drain p /\ length (fo_peers f) = length (pol_peers p)
  | _, _ => False
  end.

Lemma adopt_peers_length fl previous addrs :
  length (adopt_peers fl previous addrs).1 = length addrs.
Proof.
  revert fl; induction addrs as [|a addrs IH]; intros fl; [done |]. cbn [adopt_peers].
  destruct (find_first _ previous) as [p|];
    match goal with |- context [adopt_peers ?f previous addrs] =>
      specialize (IH f); destruct (adopt_peers f previous addrs) end; simpl in *; by rewrite IH.
Qed.

Lemma Failover_new_matches fl policy previous h same :
  failover_matches (Some policy) (Some (Failover_new fl policy previous h same).1).
Proof.
  unfold Failover_new.
  pose proof (adopt_peers_length fl (match previous with Some p => fo_peers p | None => [] end) (pol_peers policy)) as Hl.
  destruct (adopt_peers _ _ _) as [peers fl1]. simpl in Hl.
  destruct (match pol_spill policy with Some _ => _ | None => _ end) as [spill fl2].
  destruct (match previous with Some _ => _ | None => _ end) as [st fl3]. by split.
Qed.

Lemma finish_route_spec su e spec prev down sources policy carried r r' e' :
  finish_route su e spec prev down sources policy carried r = (r', e') ->
  rt_allowed_sources r' = sources /\ failover_matches policy (rt_failover r') /\
  (forall a, auth_matches a r -> auth_matches a r') /\ (carriers_ok r -> carriers_ok r').
Proof.
  unfold finish_route. destruct (retrack _ _ _ _ _) as [[d h2] sh1] eqn:Hr. apply retrack_h2 in Hr.
  match goal with |- (let '(_, _) := ?x in _) = _ -> _ => destruct x as [f e2] eqn:Hf end.
  intros [= <- <-]. split_and!; [done | | by intros [] |].
  - destruct policy as [pol|]; [|by simplify_eq].
    destruct (tcp_health_of _ _ _ _ _) as [th sh2].
    match type of Hf with context [Failover_new ?a ?b ?c ?d ?g] =>
      pose proof (Failover_new_matches a b c d g) as Hm; destruct (Failover_new a b c d g) as [f' fl] end.
    by injection Hf as <- <-.
  - intros [Hc Hh]. split; [exact Hc |]. simpl. rewrite Hr. exact Hh.
Qed.

Lemma build_route_spec su e spec lt inherit r e' :
  build_route su e spec lt inherit = (Ok r, e') -> validate_route_protocol_declaration spec = Ok tt ->
  auth_matches (ClientAuth_of spec lt) r /\ carriers_ok r.
Proof.
  unfold build_route. intros Hb Hv.
  destruct (build_tls su e spec lt) as [[tls|] e1] eqn:Ht; [|done].
  destruct (build_destinations _ _ _ _) as [[[d h2]|] sh]; [|done].
  destruct (check_h2 spec h2) as [u|] eqn:Hh; [|done]. injection Hb as <- <-. split.
  - unfold ClientAuth_of. unfold build_tls in Ht. destruct (rs_terminate_tls spec) eqn:Hterm; simpl.
    + assert (is_Some tls) as Htls by by (repeat case_match; simplify_eq; eexists).
      by destruct (effective_mtls spec lt) as [[ca req]|].
    + by simplify_eq.
  - unfold validate_route_protocol_declaration in Hv. unfold check_h2 in Hh. split; simpl.
    + intros Hreq. rewrite Hreq in Hv. simpl in Hv. destruct (rs_terminate_tls spec); [|done]. simpl in Hv.
      case_bool_decide; by simplify_eq.
    + intros Hs. rewrite (bool_decide_eq_true_2 (is_Some h2)) in Hh by done. simpl in Hh.
      clear Hv. case_bool_decide; [done |]. by destruct (rs_terminate_tls spec).
Qed.

(** What the route of a specification enforces, whether it was built or carried
    forward. *)
Definition enforces (spec : RouteSpec) (lt : ListenerTlsSpec) (r : Route) : Prop :=
  SourceAllowlist_parse (rs_allowed_sources spec) = Ok (rt_allowed_sources r) /\
  auth_matches (ClientAuth_of spec lt) r /\ carriers_ok r /\
  failover_matches (failover_policy spec).1.1 (rt_failover r).

Lemma outcome_enforces lt previous spec r :
  (forall p, previous = Some p -> table_ok p) -> outcome_is lt previous spec (Some r) -> enforces spec lt r.
Proof.
  intros Hprev (su & e & Ho). unfold spec_outcome in Ho.
  destruct (validate_route_protocol_declaration spec) as [[]|] eqn:Hv; [|done].
  unfold enforces. destruct (SourceAllowlist_parse (rs_allowed_sources spec)) as [sources|]; [|done].
  destruct (failover_policy spec) as [[policy bf] bs]. cbn [fst].
  destruct (build_route _ _ _ _ _) as [[r0|err] e1] eqn:Hb.
  - destruct (finish_route _ _ _ _ _ _ _ _ _) as [r1 e2] eqn:Hf. simpl in Ho. simplify_eq.
    apply finish_route_spec in Hf as (-> & Hfo & Ha & Hc).
    destruct (build_route_spec _ _ _ _ _ _ _ Hb Hv). split_and!; auto.
  - destruct (carry_forward previous spec (ClientAuth_of spec lt)) as [r0|] eqn:Hcar; [|done].
    destruct (finish_route _ _ _ _ _ _ _ _ _) as [r1 e2] eqn:Hf. simpl in Ho. simplify_eq.
    apply finish_route_spec in Hf as (-> & Hfo & Ha & Hc).
    unfold carry_forward in Hcar. destruct previous as [p|]; [|done]. simpl in Hcar.
    destruct (get_for_spec_sni p (rs_sni spec)) as [r2|] eqn:Hg; [|done]. simpl in Hcar.
    case_bool_decide as Hauth; [|done]. simplify_eq.
    destruct (Hprev p eq_refl _ _ Hg) as (a & Ha' & Hm & Hcr). rewrite Hauth in Ha'. injection Ha' as <-.
    split_and!; auto.
Qed.

Lemma build_table_ok su e specs lt previous :
  (forall p, previous = Some p -> table_ok p) ->
  let t := (build_route_table su e specs lt previous).1 in
  table_ok t /\ exists b, t = table_of b /\ decided lt previous specs specs b.
Proof.
  intros Hprev. unfold build_route_table.
  pose proof (build_decided su lt previous specs specs [] (clear_cache su e)) as Hdec.
  rewrite app_nil_r in Hdec. specialize (Hdec eq_refl).
  destruct (foldl _ _ _) as [b e']. simpl in *. split; [|by exists b].
  intros sni r Hg. apply get_for_spec_sni_status in Hg.
  pose proof (dec_status _ _ _ _ _ Hdec sni) as Hst. destruct (decider specs specs sni) as [spec|]; [|congruence].
  destruct Hst as (o & Ho & Hs & Ha). assert (o = Some r) as -> by congruence.
  destruct (outcome_enforces _ _ _ _ Hprev Ho) as (_ & Hm & Hc & _). exists (ClientAuth_of spec lt). eauto.
Qed.

(** Tables a proxy can have: the first, and any that a reload makes from one. *)
Inductive live : list RouteSpec -> ListenerTlsSpec -> RouteTable -> Prop :=
  | live_start su e specs lt : live specs lt (build_route_table su e specs lt None).1
  | live_reload su e specs lt specs' lt' t :
      live specs lt t -> live specs' lt' (build_route_table su e specs' lt' (Some t)).1.

Lemma live_ok specs lt t :
  live specs lt t ->
  table_ok t /\ exists previous b, (forall p, previous = Some p -> table_ok p) /\
    t = table_of b /\ decided lt previous specs specs b.
Proof.
  induction 1 as [su e specs lt|su e specs lt specs' lt' t _ [IH _]].
  - assert (forall p : RouteTable, None = Some p -> table_ok p) as Hp by done.
    destruct (build_table_ok su e specs lt None Hp) as [? (b & Hb & ?)]. split; [done |]. by exists None, b.
  - assert (forall p, Some t = Some p -> table_ok p) as Hp by by intros p [= <-].
    destruct (build_table_ok su e specs' lt' (Some t) Hp) as [? (b & Hb & ?)]. split; [done |]. by exists (Some t), b.
Qed.
Lemma live_enforces specs lt t n allow_default r spec :
  live specs lt t -> n <> [] -> deciding specs n = Some spec ->
  resolve_with t (Some n) allow_default = Some r ->
  SourceAllowlist_parse (rs_allowed_sources spec) = Ok (rt_allowed_sources r) /\
  rt_terminate_tls r = rs_terminate_tls spec /\
  rt_requires_client_cert r =
    (rs_terminate_tls spec && match effective_mtls spec lt with Some (_, required) => required | None => false end) /\
  failover_matches (failover_policy spec).1.1 (rt_failover r) /\ carriers_ok r.
Proof.
  intros Hlive Hne Hdec Hres. destruct (live_ok _ _ _ Hlive) as (_ & previous & b & Hprev & -> & Hd).
  pose proof (resolve_decided lt previous specs b n allow_default Hd Hne) as Hr. rewrite Hdec in Hr.
  destruct Hr as (o & Ho & Heq). assert (o = Some r) as -> by congruence.
  destruct (outcome_enforces _ _ _ _ Hprev Ho) as (Hsrc & Hauth & Hcar & Hfo).
  unfold ClientAuth_of in Hauth. destruct (rs_terminate_tls spec); simpl in *.
  - destruct (effective_mtls spec lt) as [[ca req]|]; simpl in Hauth; destruct Hauth as (? & ? & _); by split_and!.
  - destruct Hauth as (? & ? & _). by split_and!.
Qed.

(** A name no specification covers is only answered by the default route. *)
Lemma live_undecided specs lt t n allow_default r :
  live specs lt t -> n <> [] -> deciding specs n = None ->
  resolve_with t (Some n) allow_default = Some r -> allow_default = true /\ default_route t = Some r.
Proof.
  intros Hlive Hne Hdec Hres. destruct (live_ok _ _ _ Hlive) as (_ & previous & b & Hprev & -> & Hd).
  pose proof (resolve_decided lt previous specs b n allow_default Hd Hne) as Hr. rewrite Hdec in Hr.
  rewrite Hr in Hres. by destruct allow_default.
Qed.
End Router.

(** ** Properties *)

Module Properties.

(** C1: A table serves each server name by one specification alone: the last one
    for exactly that name, else the first wildcard over it. Its route answers if
    it was accepted, and nobody answers if it was rejected: no wildcard, default
    or duplicate ever stands in for it. The default route (where the caller
    allows it) is only for names that no specification covers. *)
Theorem lookup_follows_the_deciding_spec `{TlsLib} `{Digests} `{NetLib} su e specs lt previous n allow_default :
  n <> [] ->
  let t := (build_route_table su e specs lt previous).1 in
  match deciding specs n with
  | Some spec => exists su' e', resolve_with t (Some n) allow_default =
      sr_route (spec_outcome su' lt previous e' spec).1
  | None => resolve_with t (Some n) allow_default = if allow_default then default_route t else None
  end.
Proof.
  intros Hne t. unfold t, build_route_table.
  pose proof (build_decided su lt previous specs specs [] (clear_cache su e)) as Hdec.
  rewrite app_nil_r in Hdec. specialize (Hdec eq_refl). destruct (foldl _ _ _) as [b e']. simpl in *.
  pose proof (resolve_decided lt previous specs b n allow_default Hdec Hne) as Hres.
  destruct (deciding specs n); [|done]. destruct Hres as (o & (su0 & e1 & Ho) & Hr). exists su0, e1. by rewrite Ho.
Qed.

(** Specifications for the witnesses: passthrough routes to a TCP upstream. *)
Definition passthrough_to (sni : bytes) (port : Z) (sources : list bytes) : RouteSpec :=
  mkRouteSpec sni [] [UTcp (bs "10.0.0.1") port] false None None None true false 0 None None SaNone
    (mkFingerprint false false) false ProtoOpaque sources None.
Definition empty_env `{TlsLib} : env :=
  mkEnv (mkShared ∅ ∅ 0) (mkFleet ∅ ∅ ∅ 0) TlsConfigCache_new (mkStore ∅ 0) 0.
Definition quiet : surroundings := mkSurroundings 1 true (fun _ => false).

(** An exact route whose source list does not parse, under a wildcard that is
    served. *)
Definition rejected_under_wildcard : list RouteSpec :=
  [passthrough_to (bs "*.example.com") 80 []; passthrough_to (bs "a.example.com") 81 [[99]]].

#[local] Existing Instance Net.cidr_lib.
#[local] Existing Instance Protection.ascii_lowercase.
#[local] Existing Instance Tls.Properties.raw_tls.
#[local] Existing Instance Tls.Properties.tagged_digests.

Lemma lookup_follows_the_deciding_spec_witness :
  let t := (build_route_table quiet empty_env rejected_under_wildcard ListenerTlsSpec_empty None).1 in
  resolve_with t (Some (bs "a.example.com")) true = None /\
  is_Some (resolve_with t (Some (bs "b.example.com")) true).
Proof.
  intros t.
  pose proof (lookup_follows_the_deciding_spec quiet empty_env rejected_under_wildcard ListenerTlsSpec_empty None
    (bs "a.example.com") true) as Ha.
  destruct Ha as (su' & e' & Ha); [done |]. split.
  - unfold t. rewrite Ha. reflexivity.
  - vm_compute. by eexists.
Defined.


End Properties.
