(* ===== verification/HttpHead.v ===== *)
(** * HTTP/1 heads (src/src/http_proxy.rs)

    What the proxy reads from and does to a request or response head: its
    fields, its body framing, and the rewriting of a request head so that the
    headers symphony owns carry only symphony's values. Streams are in
    HttpPump.v. *)

From S2P Require Import Prelude Bytes.

Open Scope Z_scope.

Definition crlf : bytes := [13; 10].
Definition crlf2 : bytes := [13; 10; 13; 10].

(** The [io::Error]s the code makes, by message. *)
Inductive http_error : Type :=
  | HeadersTooLarge
  | ClosedMidHeader
  | ClosedMidBody
  | ClosedMidChunk
  | BadRequestLine
  | UnterminatedLine
  | ObsFold
  | NoColon
  | BadName
  | BadContentLength
  | ConflictingLength
  | TeWithLength
  | UnsupportedTe
  | ChunkLineTooLong
  | BadChunkSize
  | MissingChunkCrlf
  | BadStatusLine
  | NoMatchingRequest
  | Unsolicited101
  | ReadFailed
  | WriteFailed
  | OutOfFuel.

(** ** Fields *)

Definition trim_ascii (s : bytes) : bytes :=
  let fix drop_ws (l : bytes) : bytes :=
    match l with b :: l' => if is_whitespace b then drop_ws l' else l | [] => [] end in
  rev (drop_ws (rev (drop_ws s))).

(** The lines of [rest] up to the blank one, as [(name, value)]; a line without a
    colon is skipped. [fuel] is the length of [rest]: every line is shorter. *)
Fixpoint fields_from (fuel : nat) (rest : bytes) : list (bytes * bytes) :=
  match fuel with
  | O => []
  | S fuel' =>
      match find_sub crlf rest with
      | None => []
      | Some line_end =>
          let line := take line_end rest in
          let rest' := drop (line_end + 2) rest in
          match line with
          | [] => []
          | _ =>
              match position (Z.eqb 58) line with
              | None => fields_from fuel' rest'
              | Some colon =>
                  (trim_ascii (take colon line), trim_ascii (drop (colon + 1) line)) ::
                  fields_from fuel' rest'
              end
          end
      end
  end.

Definition header_fields (block : bytes) : list (bytes * bytes) :=
  match find_sub crlf block with
  | Some p => let rest := drop (p + 2) block in fields_from (length rest) rest
  | None => []
  end.

Definition header_field (block name : bytes) : option bytes :=
  snd <$> find_first (fun f => eq_ignore_ascii_case f.1 name) (header_fields block).

Definition connection_has_token (block token : bytes) : bool :=
  existsb (fun t => eq_ignore_ascii_case (trim_ascii t) token)
    (concat ((fun f => split_on 44 f.2) <$>
             List.filter (fun f => eq_ignore_ascii_case f.1 (bs "connection")) (header_fields block))).

Definition content_length (headers : bytes) : option Z :=
  v ← header_field headers (bs "content-length"); v ← from_utf8 v; parse_u64 v.

Definition is_transfer_encoding_chunked (headers : bytes) : bool :=
  match header_field headers (bs "transfer-encoding") with
  | Some v => existsb (fun t => eq_ignore_ascii_case (trim_ascii t) (bs "chunked")) (split_on 44 v)
  | None => false
  end.

Definition is_upgrade (headers : bytes) : bool :=
  existsb (fun f => eq_ignore_ascii_case f.1 (bs "upgrade")) (header_fields headers) &&
  connection_has_token headers (bs "upgrade").

Definition parse_status (headers : bytes) : option Z :=
  line_end ← find_sub crlf headers;
  code ← List.filter (fun f => negb (bool_decide (length f = 0%nat))) (split_on 32 (take line_end headers)) !! 1%nat;
  code ← from_utf8 code;
  parse_u16 code.

Definition request_method (headers : bytes) : bytes :=
  take (default O (position (Z.eqb 32) headers)) headers.

Definition request_target (headers : bytes) : bytes :=
  match position (Z.eqb 32) headers with
  | None => []
  | Some first_sp =>
      let rest := drop (first_sp + 1) headers in
      take (default (length rest) (position (fun b => (b =? 32) || (b =? 13) || (b =? 10)) rest)) rest
  end.

Definition host_header (headers : bytes) : option bytes :=
  value ← header_field headers (bs "host");
  value ← from_utf8 value;
  if existsb (fun b => (b =? 13) || (b =? 10) || (b =? 0)) value then None
  else
    host_only ←
      (if starts_with (bs "[") value then
         close ← position (Z.eqb 93) value; Some (take (close + 1) value)
       else match position (Z.eqb 58) value with
            | Some colon => Some (take colon value)
            | None => Some value
            end);
    match host_only with [] => None | _ => Some host_only end.

Definition response_has_body (status : Z) (req_method : bytes) : bool :=
  if (status <? 200) || (status =? 204) || (status =? 304) then false
  else negb (eq_ignore_ascii_case req_method (bs "HEAD")).

(** ** Text rewriting *)

(** [char::is_whitespace], as the UTF-8 sequences of the characters. *)
Definition ws_chars : list bytes :=
  [[9]; [10]; [11]; [12]; [13]; [32]; [194; 133]; [194; 160]; [225; 154; 128]; [226; 128; 168]; [226; 128; 169];
   [226; 128; 175]; [226; 129; 159]; [227; 128; 128]] ++ ((fun z => [226; 128; 128 + z]) <$> seqZ 0 11).

(** [str::trim]; [fuel] is the length. *)
Fixpoint trim_start_str (fuel : nat) (s : bytes) : bytes :=
  match fuel with
  | O => s
  | S fuel' =>
      match find_first (fun w => starts_with w s) ws_chars with
      | Some w => trim_start_str fuel' (drop (length w) s)
      | None => s
      end
  end.
Fixpoint trim_end_str (fuel : nat) (s : bytes) : bytes :=
  match fuel with
  | O => s
  | S fuel' =>
      match find_first (fun w => ends_with w s) ws_chars with
      | Some w => trim_end_str fuel' (take (length s - length w) s)
      | None => s
      end
  end.
Definition trim_str (s : bytes) : bytes :=
  let s := trim_start_str (length s) s in trim_end_str (length s) s.

(** [text.split("\r\n")]; [fuel] is the length. *)
Fixpoint split_crlf (fuel : nat) (s : bytes) : list bytes :=
  match fuel with
  | O => [s]
  | S fuel' =>
      match find_sub crlf s with
      | Some p => take p s :: split_crlf fuel' (drop (p + 2) s)
      | None => [s]
      end
  end.

(** The name of a line, when it has a colon. *)
Definition line_name (line : bytes) : option bytes :=
  (fun colon => trim_str (take colon line)) <$> position (Z.eqb 58) line.

(** The first line stays; of the others, [f] says what becomes of each. *)
Definition map_lines (f : bytes -> bytes) (headers : bytes) : bytes :=
  match split_crlf (length headers) headers with
  | [] => []
  | first :: lines =>
      (match first with [] => [] | _ => first ++ crlf end) ++
      concat ((fun line => match line with [] => [] | _ => f line end) <$> lines)
  end.

Definition strip_body_framing (headers : bytes) : bytes :=
  if negb (is_utf8 headers) then headers
  else
    map_lines (fun line =>
      match line_name line with
      | Some name => if eq_ignore_ascii_case name (bs "content-length") ||
                        eq_ignore_ascii_case name (bs "transfer-encoding") then [] else line ++ crlf
      | None => line ++ crlf
      end) headers ++ crlf.

Definition is_connection_line (line : bytes) : bool :=
  match line_name line with Some name => eq_ignore_ascii_case name (bs "connection") | None => false end.

Definition rewrite_connection_header (headers replacement : bytes) : bytes :=
  if negb (is_utf8 headers) then headers
  else
    let replaced := existsb is_connection_line (drop 1 (split_crlf (length headers) headers)) in
    map_lines (fun line => if is_connection_line line then replacement else line ++ crlf) headers ++
    (if replaced then [] else replacement) ++ crlf.

Definition with_connection_close (headers : bytes) : bytes :=
  rewrite_connection_header headers (bs "Connection: close" ++ crlf).

(** ** Request heads *)

Record HeaderRewrite : Type := mkRewrite { rw_name : bytes; rw_value : option bytes }.

Definition rewritten (rewrites : list HeaderRewrite) (name : bytes) : bool :=
  existsb (fun r => eq_ignore_ascii_case (rw_name r) name) rewrites.

(** The lines after the request line; [fuel] is their length. *)
Fixpoint rewrite_lines (fuel : nat) (rewrites : list HeaderRewrite) (rest : bytes) : result http_error bytes :=
  match rest with
  | [] => Ok []
  | _ =>
      match fuel with
      | O => Err OutOfFuel
      | S fuel' =>
          match find_sub crlf rest with
          | None => Err UnterminatedLine
          | Some O => Ok crlf
          | Some rel =>
              let line := take rel rest in
              if match line with b :: _ => (b =? 32) || (b =? 9) | [] => false end then Err ObsFold
              else match position (Z.eqb 58) line with
                   | None => Err NoColon
                   | Some colon =>
                       let name := take colon line in
                       if bool_decide (length name = 0%nat) || existsb is_whitespace name then Err BadName
                       else
                         tail ← rewrite_lines fuel' rewrites (drop (rel + 2) rest);
                         Ok ((if rewritten rewrites name then [] else take (rel + 2) rest) ++ tail)
                   end
          end
      end
  end.

Definition own_line (r : HeaderRewrite) : option bytes :=
  (fun v => rw_name r ++ bs ": " ++ v) <$> rw_value r.

Definition rewrite_request_head (block : bytes) (rewrites : list HeaderRewrite) : result http_error bytes :=
  match find_sub crlf block with
  | None => Err BadRequestLine
  | Some p =>
      let rl_end := (p + 2)%nat in
      let rest := drop rl_end block in
      tail ← rewrite_lines (length rest) rewrites rest;
      Ok (take rl_end block ++ concat ((fun l => l ++ crlf) <$> omap own_line rewrites) ++ tail)
  end.

(** ** Body framing *)

Inductive RequestBody : Type := ReqNone | ReqLength (n : Z) | ReqChunked.

(** Transfer-Encoding seen, its last coding is chunked, and the length so far. *)
Fixpoint framing_fields (fields : list (bytes * bytes)) (te chunked : bool) (length : option Z)
    : result http_error (bool * bool * option Z) :=
  match fields with
  | [] => Ok (te, chunked, length)
  | (name, value) :: fields' =>
      if eq_ignore_ascii_case name (bs "transfer-encoding") then
        framing_fields fields' true
          match list.last (split_on 44 value) with
          | Some l => eq_ignore_ascii_case (trim_ascii l) (bs "chunked")
          | None => false
          end length
      else if eq_ignore_ascii_case name (bs "content-length") then
        n ← ok_or BadContentLength (v ← from_utf8 value; parse_u64 v);
        if match length with Some prev => negb (prev =? n) | None => false end then Err ConflictingLength
        else framing_fields fields' te chunked (Some n)
      else framing_fields fields' te chunked length
  end.

Definition request_body (block : bytes) : result http_error RequestBody :=
  '(te, chunked, length) ← framing_fields (header_fields block) false false None;
  if (te : bool) then
    match length with
    | Some _ => Err TeWithLength
    | None => if (chunked : bool) then Ok ReqChunked else Err UnsupportedTe
    end
  else Ok match length with
          | None => ReqNone
          | Some n => if n =? 0 then ReqNone else ReqLength n
          end.

Inductive ResponseBody : Type := RespNone | RespLength (n : Z) | RespChunked | RespReadToEnd.

Definition response_body (head : bytes) (status : Z) (head_only : bool) : ResponseBody :=
  if head_only || negb (response_has_body status (bs (if head_only then "HEAD" else "GET"))) then RespNone
  else if is_transfer_encoding_chunked head then RespChunked
  else match content_length head with
       | Some n => if n =? 0 then RespNone else RespLength n
       | None => RespReadToEnd
       end.

(** ** Heads as lines *)

Definition enc_lines (lines : list bytes) : bytes := concat ((fun l => l ++ crlf) <$> lines).

(** A head with this first line and these field lines. *)
Definition encode_head (rl : bytes) (lines : list bytes) : bytes := rl ++ crlf ++ enc_lines lines ++ crlf.

(** What [rewrite_request_head] takes for a field line. *)
Definition line_ok (l : bytes) : Prop :=
  find_sub crlf (l ++ crlf) = Some (length l) /\
  exists name rest, l = name ++ 58 :: rest /\ name <> [] /\ existsb is_whitespace name = false /\
    position (Z.eqb 58) l = Some (length name).

(** The client's lines that are kept. *)
Definition keep_line (rewrites : list HeaderRewrite) (l : bytes) : bool :=
  match position (Z.eqb 58) l with Some colon => negb (rewritten rewrites (take colon l)) | None => true end.

(** A block as [read_header_block] frames it: the first blank line ends it. *)
Definition complete (block : bytes) : Prop :=
  (4 <= length block)%nat /\ find_sub crlf2 block = Some (length block - 4)%nat.

Example rewrite_strips_the_client_copy :
  rewrite_request_head (encode_head (bs "GET / HTTP/1.1") [bs "x-forwarded-for: 6.6.6.6"; bs "Host: a"])
    [mkRewrite (bs "X-Forwarded-For") (Some (bs "1.2.3.4"))] =
  Ok (encode_head (bs "GET / HTTP/1.1") [bs "X-Forwarded-For: 1.2.3.4"; bs "Host: a"]).
Proof. by vm_compute. Qed.

Example request_body_refuses_te_and_length :
  request_body (encode_head (bs "POST / HTTP/1.1") [bs "Content-Length: 3"; bs "Transfer-Encoding: chunked"]) =
  Err TeWithLength.
Proof. by vm_compute. Qed.

Example host_without_port : host_header (encode_head (bs "GET / HTTP/1.1") [bs "Host: [::1]:80"]) = Some (bs "[::1]").
Proof. by vm_compute. Qed.

Example close_replaces : with_connection_close (encode_head (bs "GET / HTTP/1.1") [bs "Connection: keep-alive"]) =
  encode_head (bs "GET / HTTP/1.1") [bs "Connection: close"].
Proof. by vm_compute. Qed.

(** ** Lemmas: lines *)

Lemma find_sub_split p s i :
  find_sub p s = Some i -> s = take i s ++ p ++ drop (i + length p) s.
Proof.
  intros Hf. apply find_sub_Some in Hf as [Hs _]. apply starts_with_spec in Hs as [r Hr].
  rewrite <- (take_drop i s) at 1. f_equal. rewrite Hr. f_equal.
  rewrite <- drop_drop, Hr. by rewrite drop_app_length.
Qed.

Lemma find_sub_bound p s i : find_sub p s = Some i -> (i + length p <= length s)%nat.
Proof.
  intros Hf. pose proof (find_sub_split _ _ _ Hf) as Hs. apply (f_equal length) in Hs.
  rewrite !length_app, length_take, length_drop in Hs.
  assert (i <= length s)%nat; [|lia].
  clear -Hf. revert i Hf; induction s as [|b s IH]; intros i; cbn [find_sub]; destruct (starts_with _ _).
  - intros [= <-]. simpl. lia.
  - done.
  - intros [= <-]. lia.
  - destruct (find_sub p s) as [k|]; simpl; [|done]. intros [= <-]. specialize (IH k eq_refl). lia.
Qed.

(** The first occurrence does not depend on what follows it. *)
Lemma find_sub_extend p s t i :
  p <> [] -> find_sub p s = Some i -> find_sub p (s ++ t) = Some i.
Proof.
  intros Hp. revert i; induction s as [|b s IH]; intros i; cbn [find_sub].
  - destruct p; [done |]. done.
  - destruct (starts_with p (b :: s)) eqn:Hs.
    + intros [= <-]. apply starts_with_spec in Hs as [r Hr]. cbn [app find_sub].
      rewrite app_comm_cons, Hr, <- app_assoc. by rewrite starts_with_app.
    + destruct (find_sub p s) as [k|] eqn:Hk; simpl; [|done]. intros [= <-].
      cbn [app find_sub]. destruct (starts_with p (b :: s ++ t)) eqn:Hst.
      * exfalso. apply find_sub_bound in Hk. apply starts_with_spec in Hst as [r Hr].
        assert (take (length p) (b :: s ++ t) = p) as Ht by by rewrite Hr, take_app_length.
        rewrite app_comm_cons, take_app_le in Ht by (simpl; lia).
        apply not_true_iff_false in Hs. apply Hs, starts_with_spec.
        exists (drop (length p) (b :: s)). by rewrite <- Ht at 1; rewrite take_drop.
      * by rewrite (IH k eq_refl).
Qed.

Lemma crlf_ne : crlf <> []. Proof. done. Qed.

Lemma find_sub_take p s i : find_sub p s = Some i -> find_sub p (take (i + length p) s) = Some i.
Proof.
  revert i; induction s as [|b s IH]; intros i; cbn [find_sub].
  - destruct (starts_with p []) eqn:Hs; [|done]. intros [= <-]. rewrite take_nil. cbn [find_sub]. by rewrite Hs.
  - destruct (starts_with p (b :: s)) eqn:Hs.
    + intros [= <-]. pose proof Hs as Hs'. apply starts_with_spec in Hs as [r ->].
      rewrite Nat.add_0_l, take_app_length. destruct p as [|x p]; [done |]. cbn [find_sub].
      by rewrite (proj2 (starts_with_spec (x :: p) (x :: p)) (ex_intro _ [] (eq_sym (app_nil_r _)))).
    + destruct (find_sub p s) as [k|] eqn:Hk; simpl; [|done]. intros [= <-]. simpl.
      destruct (starts_with p (b :: take (k + length p) s)) eqn:Ht.
      * exfalso. apply starts_with_spec in Ht as [r Hr]. apply not_true_iff_false in Hs. apply Hs, starts_with_spec.
        exists (r ++ drop (k + length p) s). rewrite app_assoc, <- Hr. simpl. by rewrite take_drop.
      * by rewrite (IH k eq_refl).
Qed.

Lemma find_sub_app_le p a t i : find_sub p (a ++ p ++ t) = Some i -> (i <= length a)%nat.
Proof.
  intros [_ Hfirst]%find_sub_Some. destruct (decide (length a < i)%nat) as [Hlt|]; [|lia].
  specialize (Hfirst _ Hlt). rewrite drop_app_length, starts_with_app in Hfirst. done.
Qed.

Lemma position_split (p : Z -> bool) (l : bytes) i :
  position p l = Some i -> exists c, l = take i l ++ c :: drop (S i) l /\ p c = true /\ (i < length l)%nat.
Proof.
  intros [(c & Hc & Hp) _]%position_Some. exists c. split_and!; [|done | by eapply lookup_lt_Some].
  by rewrite <- drop_S, take_drop.
Qed.

Lemma enc_lines_cons l lines : enc_lines (l :: lines) = l ++ crlf ++ enc_lines lines.
Proof. unfold enc_lines. cbn [fmap list_fmap concat]. by rewrite <- app_assoc. Qed.

Lemma enc_lines_snoc lines l : enc_lines (lines ++ [l]) = enc_lines lines ++ l ++ crlf.
Proof. unfold enc_lines. rewrite fmap_app, concat_app. simpl. by rewrite app_nil_r. Qed.

Lemma rewrite_lines_spec fuel rewrites rest out :
  (length rest <= fuel)%nat -> rewrite_lines fuel rewrites rest = Ok out ->
  exists lines fin tail, Forall line_ok lines /\ rest = enc_lines lines ++ fin ++ tail /\
    out = enc_lines (List.filter (keep_line rewrites) lines) ++ fin /\
    (fin = crlf \/ fin = [] /\ tail = []).
Proof.
  revert rest out; induction fuel as [|fuel IH]; intros rest out Hlen Hr.
  { destruct rest; [|simpl in Hlen; lia]. injection Hr as <-. exists [], [], []. split_and!; auto. }
  destruct rest as [|b0 rest0]; [injection Hr as <-; exists [], [], []; split_and!; auto |].
  set (rest := b0 :: rest0) in *. cbn [rewrite_lines] in Hr. unfold rest at 1 in Hr.
  destruct (find_sub crlf rest) as [[|k]|] eqn:Hf; [| |done].
  { injection Hr as <-. exists [], crlf, (drop 2 rest). split_and!; auto. by apply find_sub_split in Hf. }
  set (rel := S k) in *. set (line := take rel rest) in *.
  pose proof (find_sub_bound _ _ _ Hf) as Hb. pose proof (find_sub_split _ _ _ Hf) as Hsplit.
  change (length crlf) with 2%nat in *. fold line in Hsplit.
  assert (length line = rel) as Hll by (unfold line; rewrite length_take; lia).
  assert (take (rel + 2) rest = line ++ crlf) as Htake.
  { rewrite Hsplit at 1. rewrite app_assoc. apply take_app_length'. rewrite length_app, Hll. done. }
  destruct (match line with [] => false | b :: _ => _ end); [done |].
  destruct (position (Z.eqb 58) line) as [colon|] eqn:Hcol; [|done].
  destruct (bool_decide _ || existsb _ _) eqn:Hname; [done |].
  apply orb_false_iff in Hname as [Hne Hws]. apply bool_decide_eq_false in Hne.
  destruct (rewrite_lines fuel rewrites (drop (rel + 2) rest)) as [tl|] eqn:Htl; [|done].
  cbn [mbind result_bind] in Hr. injection Hr as <-.
  destruct (IH (drop (rel + 2) rest) tl) as (lines & fin & tail & Hok & Hrest & -> & Hfin); [|done|].
  { rewrite length_drop. lia. }
  exists (line :: lines), fin, tail. split_and!; [|by rewrite enc_lines_cons, <- !app_assoc, <- Hrest| |done].
  - constructor; [|done]. apply find_sub_take in Hf. change (length crlf) with 2%nat in Hf.
    rewrite Htake in Hf. split; [by rewrite Hll |].
    destruct (position_split _ _ _ Hcol) as (c & Hc & Heq & Hlt). apply Z.eqb_eq in Heq as <-.
    exists (take colon line), (drop (S colon) line). split_and!; try done.
    + intros E. by rewrite E in Hne.
    + rewrite length_take, Nat.min_l by lia. done.
  - cbn [List.filter]. assert (keep_line rewrites line = negb (rewritten rewrites (take colon line))) as ->.
    { unfold keep_line. by rewrite Hcol. }
    destruct (rewritten rewrites (take colon line)); [done |]. cbn [negb].
    change (b0 :: take (k + 2) rest0) with (take (rel + 2) rest). rewrite enc_lines_cons, Htake. by rewrite <- !app_assoc.
Qed.

(** Every line of a block, the request line included, ends in its own CRLF. *)
Lemma ends_in_crlf rl lines : exists y, rl ++ crlf ++ enc_lines lines = y ++ crlf.
Proof.
  destruct lines as [|l lines _] using rev_ind; [exists rl; by rewrite app_nil_r |].
  exists (rl ++ crlf ++ enc_lines lines ++ l). by rewrite enc_lines_snoc, !app_assoc.
Qed.

Lemma complete_lines block rl lines fin tail :
  complete block -> block = rl ++ crlf ++ enc_lines lines ++ fin ++ tail ->
  find_sub crlf (rl ++ crlf) = Some (length rl) -> Forall line_ok lines ->
  (fin = crlf \/ fin = [] /\ tail = []) -> fin = crlf /\ tail = [].
Proof.
  intros [Hlen Hc] Hblock Hrl Hlines [->|[-> ->]].
  - split; [done |]. destruct (ends_in_crlf rl lines) as [y Hy].
    assert (block = y ++ crlf2 ++ tail) as Hb.
    { rewrite Hblock. rewrite (app_assoc crlf (enc_lines lines)), (app_assoc rl), Hy. by rewrite <- app_assoc. }
    rewrite Hb in Hc at 1. apply find_sub_app_le in Hc. rewrite Hb, !length_app in Hc. simpl in Hc.
    apply length_zero_iff_nil. rewrite Hb, !length_app in Hlen. simpl in Hlen. lia.
  - exfalso. rewrite app_nil_r in Hblock.
    assert (exists y l, block = y ++ l ++ crlf /\ find_sub crlf (l ++ crlf) = Some (length l) /\
      (y = [] \/ exists y', y = y' ++ crlf /\ l <> [])) as (y & l & Hb & Hl & Hy).
    { destruct lines as [|l lines _] using rev_ind.
      - exists [], rl. rewrite Hblock, app_nil_r. auto.
      - apply Forall_app in Hlines as [_ Hl]. apply Forall_inv in Hl as [Hl (name & r & -> & Hne & _)].
        rewrite enc_lines_snoc, app_assoc, app_assoc in Hblock. eexists _, _. split; [exact Hblock |].
        split; [exact Hl |]. right. rewrite <- app_assoc. destruct (ends_in_crlf rl lines) as [y ->].
        exists y. split; [done |]. by destruct name. }
    pose proof (find_sub_split _ _ _ Hc) as Hs. change (length crlf2) with 4%nat in Hs.
    rewrite (drop_ge block) in Hs by lia. rewrite app_nil_r in Hs. set (x := take _ _) in Hs.
    rewrite Hb, app_assoc in Hs. change crlf2 with (crlf ++ crlf) in Hs. rewrite (app_assoc x) in Hs.
    apply app_inv_tail in Hs. destruct (decide (2 <= length l)%nat) as [H2|H2].
    + assert (exists m, l = m ++ crlf) as [m ->].
      { exists (take (length l - 2) l). rewrite <- (take_drop (length l - 2) l) in Hs. rewrite app_assoc in Hs.
        apply app_inj_2 in Hs as [_ Hd]; [|rewrite length_drop; simpl; lia].
        by rewrite <- Hd, take_drop. }
      rewrite <- app_assoc in Hl. apply find_sub_app_le in Hl. rewrite length_app in Hl. simpl in Hl. lia.
    + destruct Hy as [->|(y' & -> & Hne)].
      * rewrite Hb in Hlen. simpl in Hlen. rewrite length_app in Hlen. simpl in Hlen. lia.
      * destruct l as [|c [|]]; [done | | simpl in H2; lia].
        change crlf with ([13] ++ [10]) in Hs at 2. rewrite (app_assoc x) in Hs.
        apply app_inj_2 in Hs as [Hs _]; [|done].
        change crlf with ([13] ++ [10]) in Hs. rewrite app_assoc in Hs. apply app_inj_2 in Hs as [_ ?]; done.
Qed.

(** ** Lemmas: fields of a head *)

Lemma rewrite_request_head_lines block rewrites out :
  complete block -> rewrite_request_head block rewrites = Ok out ->
  exists rl lines, block = encode_head rl lines /\ find_sub crlf (rl ++ crlf) = Some (length rl) /\
    Forall line_ok lines /\
    out = encode_head rl (omap own_line rewrites ++ List.filter (keep_line rewrites) lines).
Proof.
  intros Hc. unfold rewrite_request_head. destruct (find_sub crlf block) as [p|] eqn:Hf; [|done].
  cbn zeta. destruct (rewrite_lines _ _ _) as [tail|] eqn:Hr; [|done]. intros [= <-].
  apply rewrite_lines_spec in Hr as (lines & fin & rest & Hok & Hrest & -> & Hfin); [|done].
  pose proof (find_sub_bound _ _ _ Hf) as Hb. pose proof (find_sub_split _ _ _ Hf) as Hs.
  pose proof (find_sub_take _ _ _ Hf) as Ht. change (length crlf) with 2%nat in *.
  assert (length (take p block) = p) as Hl by (rewrite length_take; lia).
  assert (take (p + 2) block = take p block ++ crlf) as Hrl.
  { rewrite Hs at 1. rewrite app_assoc. apply take_app_length'. rewrite length_app, Hl. done. }
  rewrite Hrl in Ht. rewrite <- Hl in Ht at 2. rewrite Hrest in Hs.
  destruct (complete_lines block (take p block) lines fin rest) as [-> ->]; try done.
  rewrite app_nil_r in Hs. exists (take p block), lines. split_and!; [exact Hs | exact Ht | done |].
  unfold encode_head. rewrite Hrl. unfold enc_lines at 2. rewrite fmap_app, concat_app.
  fold (enc_lines (List.filter (keep_line rewrites) lines)). by rewrite <- !app_assoc.
Qed.

(** The name and value of a field line. *)
Definition field_of (l : bytes) : bytes * bytes :=
  let colon := default O (position (Z.eqb 58) l) in
  (trim_ascii (take colon l), trim_ascii (drop (colon + 1) l)).

Lemma fields_from_enc fuel lines :
  (length (enc_lines lines ++ crlf) <= fuel)%nat -> Forall line_ok lines ->
  fields_from fuel (enc_lines lines ++ crlf) = field_of <$> lines.
Proof.
  revert fuel; induction lines as [|l lines IH]; intros fuel Hlen Hok.
  { destruct fuel; [simpl in Hlen; lia | done]. }
  apply Forall_cons_iff in Hok as [[Hf (name & r & Hl & Hne & Hws & Hpos)] Hok].
  rewrite enc_lines_cons, <- !app_assoc in *. destruct fuel as [|fuel]; [rewrite !length_app in Hlen; simpl in Hlen; lia |].
  cbn [fields_from]. rewrite app_assoc. rewrite (find_sub_extend _ _ _ _ crlf_ne Hf). rewrite <- app_assoc.
  rewrite take_app_length.
  assert (drop (length l + 2) (l ++ crlf ++ enc_lines lines ++ crlf) = enc_lines lines ++ crlf) as ->.
  { rewrite (app_assoc l). apply drop_app_length'. by rewrite length_app. }
  destruct l as [|b l'] eqn:El; [by destruct name|]. rewrite <- El in *. rewrite Hpos.
  rewrite IH; [|rewrite !length_app in Hlen; rewrite length_app; simpl in *; lia | done].
  cbn [fmap list_fmap]. f_equal. unfold field_of. by rewrite Hpos.
Qed.

Lemma header_fields_encode rl lines :
  find_sub crlf (rl ++ crlf) = Some (length rl) -> Forall line_ok lines ->
  header_fields (encode_head rl lines) = field_of <$> lines.
Proof.
  intros Hf Hok. unfold header_fields, encode_head. rewrite app_assoc, (find_sub_extend _ _ _ _ crlf_ne Hf).
  rewrite <- app_assoc. assert (drop (length rl + 2) (rl ++ crlf ++ enc_lines lines ++ crlf) = enc_lines lines ++ crlf) as ->.
  { rewrite (app_assoc rl). apply drop_app_length'. by rewrite length_app. }
  by apply fields_from_enc.
Qed.

Lemma trim_ascii_id s : existsb is_whitespace s = false -> trim_ascii s = s.
Proof.
  unfold trim_ascii.
  set (d := fix drop_ws (l : bytes) : bytes :=
    match l with b :: l' => if is_whitespace b then drop_ws l' else l | [] => [] end).
  assert (forall l, existsb is_whitespace l = false -> d l = l) as Hd.
  { intros [|b l]; [done |]. cbn [existsb]. intros [Hb _]%orb_false_iff. unfold d. by rewrite Hb. }
  intros Hs. rewrite (Hd s Hs), (Hd (rev s)); [apply rev_involutive |].
  apply not_true_iff_false. intros (b & Hin & Hb)%existsb_exists. apply in_rev in Hin.
  apply not_true_iff_false in Hs. apply Hs, existsb_exists. eauto.
Qed.

Lemma field_of_line l : line_ok l -> exists colon, position (Z.eqb 58) l = Some colon /\ (field_of l).1 = take colon l.
Proof.
  intros [_ (name & r & Hl & _ & Hws & Hpos)]. exists (length name). split; [done |].
  unfold field_of. rewrite Hpos. simpl. rewrite Hl, take_app_length. by apply trim_ascii_id.
Qed.

(** A header symphony can state: a name without blanks or colon, a value without
    CR. *)
Definition rewrite_ok (r : HeaderRewrite) : Prop :=
  rw_name r <> [] /\ existsb is_whitespace (rw_name r) = false /\ contains_byte 58 (rw_name r) = false /\
  match rw_value r with Some v => contains_byte 13 v = false | None => True end.

Lemma no_cr_line l : contains_byte 13 l = false -> find_sub crlf (l ++ crlf) = Some (length l).
Proof.
  induction l as [|b l IH]; [done |]. cbn [contains_byte existsb]. intros [Hb Hl]%orb_false_iff.
  cbn [app find_sub]. assert (starts_with crlf (b :: l ++ crlf) = false) as ->.
  { unfold crlf at 1. cbn [starts_with]. by rewrite Hb. }
  by rewrite IH.
Qed.

Lemma position_first (p : Z -> bool) a b l :
  existsb p a = false -> p b = true -> position p (a ++ b :: l) = Some (length a).
Proof.
  induction a as [|x a IH]; cbn [existsb app position].
  - by intros _ ->.
  - intros [-> Ha]%orb_false_iff Hb. by rewrite IH.
Qed.

Lemma own_line_ok r l : rewrite_ok r -> own_line r = Some l ->
  line_ok l /\ exists v, rw_value r = Some v /\ field_of l = (rw_name r, trim_ascii (32 :: v)).
Proof.
  intros (Hne & Hws & Hcol & Hv) Hl. unfold own_line in Hl.
  destruct (rw_value r) as [v|]; [|done].
  assert (l = rw_name r ++ 58 :: 32 :: v) as -> by (injection Hl as <-; done). clear Hl.
  assert (position (Z.eqb 58) (rw_name r ++ 58 :: 32 :: v) = Some (length (rw_name r))) as Hpos.
  { by apply position_first. }
  split; [split|].
  - apply no_cr_line. unfold contains_byte. rewrite existsb_app. apply orb_false_iff. split; [|exact Hv].
    apply not_true_iff_false. intros (b & Hin & Hb)%existsb_exists. apply Z.eqb_eq in Hb as <-.
    apply not_true_iff_false in Hws. apply Hws, existsb_exists. eauto.
  - exists (rw_name r), (32 :: v). split_and!; done.
  - exists v. split; [done |]. unfold field_of. rewrite Hpos.
    change (default O (Some (length (rw_name r)))) with (length (rw_name r)). cbn zeta. f_equal.
    + rewrite take_app_length. by apply trim_ascii_id.
    + f_equal. change (58 :: 32 :: v) with ([58] ++ (32 :: v)). rewrite app_assoc. apply drop_app_length'.
      by rewrite length_app.
Qed.

Lemma rewritten_lower rewrites n n' : to_lower <$> n = to_lower <$> n' -> rewritten rewrites n = rewritten rewrites n'.
Proof. intros Heq. unfold rewritten, eq_ignore_ascii_case. by rewrite Heq. Qed.

Lemma rewritten_own rewrites r : r ∈ rewrites -> rewritten rewrites (rw_name r) = true.
Proof.
  intros Hin. apply existsb_exists. exists r. split; [by apply list_elem_of_In |].
  unfold eq_ignore_ascii_case. by apply bytes_eqb_eq.
Qed.

(** The fields symphony states. *)
Definition own_fields (rewrites : list HeaderRewrite) : list (bytes * bytes) :=
  omap (fun r => (fun v => (rw_name r, trim_ascii (32 :: v))) <$> rw_value r) rewrites.

Lemma own_lines_ok rewrites :
  Forall rewrite_ok rewrites ->
  Forall line_ok (omap own_line rewrites) /\ field_of <$> omap own_line rewrites = own_fields rewrites.
Proof.
  induction 1 as [|r rewrites Hr _ [IHl IHf]]; [done |]. unfold own_fields in *.
  cbn [omap list_omap]. destruct (own_line r) as [l|] eqn:Hl.
  - destruct (own_line_ok r l Hr Hl) as [Hok (v & -> & Hf)]. split; [by constructor |]. cbn [fmap list_fmap option_fmap option_map].
    by rewrite Hf, IHf.
  - unfold own_line in Hl. destruct (rw_value r); [done |]. done.
Qed.

Lemma own_fields_rewritten rewrites all :
  (forall r, r ∈ rewrites -> r ∈ all) ->
  List.filter (fun f => rewritten all f.1) (own_fields rewrites) = own_fields rewrites /\
  List.filter (fun f => negb (rewritten all f.1)) (own_fields rewrites) = [].
Proof.
  unfold own_fields. induction rewrites as [|r rewrites IH]; intros Hall; [done |]. cbn [omap list_omap].
  destruct IH as [IH1 IH2]; [intros; apply Hall; by constructor |].
  destruct (rw_value r) as [v|]; cbn [fmap option_fmap option_map]; [|done]. cbn [List.filter fst].
  rewrite (rewritten_own all r) by (apply Hall; constructor). cbn [negb]. by rewrite IH1, IH2.
Qed.

Lemma kept_fields rewrites lines :
  Forall line_ok lines ->
  List.filter (fun f => rewritten rewrites f.1) (field_of <$> List.filter (keep_line rewrites) lines) = [] /\
  List.filter (fun f => negb (rewritten rewrites f.1)) (field_of <$> List.filter (keep_line rewrites) lines) =
  List.filter (fun f => negb (rewritten rewrites f.1)) (field_of <$> lines).
Proof.
  induction 1 as [|l lines Hl _ [IH1 IH2]]; [done |]. destruct (field_of_line l Hl) as (colon & Hpos & Hname).
  assert (keep_line rewrites l = negb (rewritten rewrites (take colon l))) as Hk by by unfold keep_line; rewrite Hpos.
  cbn [fmap list_fmap List.filter]. rewrite Hk, Hname.
  destruct (rewritten rewrites (take colon l)) eqn:Hrw; cbn [negb]; [done |].
  cbn [fmap list_fmap List.filter]. rewrite Hname, Hrw. cbn [negb]. split; [done | by f_equal].
Qed.

(** ** Lemmas: framing *)

Definition named (n : bytes) (fields : list (bytes * bytes)) : list (bytes * bytes) :=
  List.filter (fun f => eq_ignore_ascii_case f.1 n) fields.

(** The last coding of a Transfer-Encoding value is chunked. *)
Definition ends_chunked (f : bytes * bytes) : bool :=
  match list.last (split_on 44 f.2) with
  | Some l => eq_ignore_ascii_case (trim_ascii l) (bs "chunked")
  | None => false
  end.

Lemma te_is_not_cl n :
  eq_ignore_ascii_case n (bs "transfer-encoding") = true -> eq_ignore_ascii_case n (bs "content-length") = false.
Proof.
  unfold eq_ignore_ascii_case. rewrite bytes_eqb_eq. intros ->. by vm_compute.
Qed.

Lemma last_cons_default {A} (x : A) l : list.last (x :: l) = Some (default x (list.last l)).
Proof. rewrite last_cons. by destruct (list.last l). Qed.

Lemma framing_fields_spec fields te0 ch0 len0 te ch len :
  framing_fields fields te0 ch0 len0 = Ok (te, ch, len) ->
  let T := named (bs "transfer-encoding") fields in
  let C := named (bs "content-length") fields in
  te = te0 || negb (bool_decide (length T = 0%nat)) /\
  ch = match list.last T with Some f => ends_chunked f | None => ch0 end /\
  match len with
  | Some n => Forall (fun f => parse_u64 f.2 = Some n) C /\ (len0 = None \/ len0 = Some n) /\
              (C <> [] \/ len0 = Some n)
  | None => C = [] /\ len0 = None
  end.
Proof.
  revert te0 ch0 len0; induction fields as [|[name value] fields IH]; intros te0 ch0 len0; cbn [framing_fields].
  { intros [= <- <- <-]. cbn. rewrite orb_false_r. split_and!; try done. destruct len0; auto. }
  unfold named in *. cbn [List.filter fst].
  destruct (eq_ignore_ascii_case name (bs "transfer-encoding")) eqn:Hte.
  - rewrite (te_is_not_cl _ Hte). intros Hf. destruct (IH _ _ _ Hf) as (-> & -> & Hlen). split_and!; [| |done].
    + cbn. by rewrite orb_true_r.
    + rewrite last_cons. by destruct (list.last _).
  - destruct (eq_ignore_ascii_case name (bs "content-length")) eqn:Hcl; [|apply IH].
    destruct (v ← from_utf8 value; parse_u64 v) as [n|] eqn:Hp; [|done]. cbn [ok_or mbind result_bind].
    assert (parse_u64 value = Some n) as Hv.
    { unfold from_utf8 in Hp. by destruct (is_utf8 value). }
    destruct (match len0 with Some prev => _ | None => _ end) eqn:Hconf; [done |]. intros Hf.
    destruct (IH _ _ _ Hf) as (-> & -> & Hlen). split_and!; try done.
    destruct len as [m|]; [|by destruct Hlen]. destruct Hlen as (Hall & Hm & _).
    destruct Hm as [?|[= ->]]; [done |]. split_and!.
    + by constructor.
    + destruct len0 as [prev|]; [|by left]. right. apply negb_false_iff, Z.eqb_eq in Hconf. by subst.
    + by left.
Qed.

Lemma framing_fields_fuel fields te ch len : framing_fields fields te ch len <> Err OutOfFuel.
Proof.
  revert te ch len; induction fields as [|[name value] fields IH]; intros te ch len; cbn [framing_fields]; [done |].
  destruct (eq_ignore_ascii_case name _); [apply IH |]. destruct (eq_ignore_ascii_case name _); [|apply IH].
  destruct (v ← from_utf8 value; parse_u64 v) as [n|]; [|done]. cbn [ok_or mbind result_bind].
  destruct (match len with Some _ => _ | None => _ end); [done | apply IH].
Qed.

Lemma request_body_fuel block : request_body block <> Err OutOfFuel.
Proof.
  unfold request_body. pose proof (framing_fields_fuel (header_fields block) false false None) as Hf.
  destruct (framing_fields _ _ _ _) as [[[te ch] len]|e]; cbn [mbind result_bind]; [|congruence].
  by destruct te, len, ch.
Qed.

Lemma rewrite_lines_fuel fuel rewrites rest :
  (length rest <= fuel)%nat -> rewrite_lines fuel rewrites rest <> Err OutOfFuel.
Proof.
  revert rest; induction fuel as [|fuel IH]; intros [|b rest] Hlen; try (simpl in Hlen; lia); try done.
  cbn [rewrite_lines]. destruct (find_sub crlf (b :: rest)) as [[|rel]|]; [done | | done].
  set (line := take (S rel) (b :: rest)).
  destruct (match line with [] => false | c :: _ => _ end); [done |].
  destruct (position _ line); [|done]. destruct (_ || _); [done |].
  specialize (IH (drop (S rel + 2) (b :: rest))).
  destruct (rewrite_lines fuel rewrites _) as [t|e]; [done |]. cbn [mbind result_bind]. intros [= ->].
  apply IH; [|done]. rewrite length_drop. simpl in *. lia.
Qed.

Lemma rewrite_request_head_fuel block rewrites : rewrite_request_head block rewrites <> Err OutOfFuel.
Proof.
  unfold rewrite_request_head. destruct (find_sub crlf block) as [p|]; [|done]. cbn zeta.
  pose proof (rewrite_lines_fuel (length (drop (p + 2) block)) rewrites (drop (p + 2) block) (le_n _)) as Hf.
  destruct (rewrite_lines _ _ _); [done |]. cbn [mbind result_bind]. congruence.
Qed.

(** ** Properties *)

Module Properties.

(** C18: A forwarded head is authoritative: when a complete request head is
    forwarded, it is the client's head with its CRLF-ended lines for the rewritten names
    (in any case) removed and symphony's own inserted after the request line, so
    the fields of those names are exactly the ones symphony states and every
    other field is kept, in order. *)
Theorem forwarded_head_is_authoritative block rewrites out :
  complete block -> Forall rewrite_ok rewrites -> rewrite_request_head block rewrites = Ok out ->
  (exists rl lines, block = encode_head rl lines /\
     out = encode_head rl (omap own_line rewrites ++ List.filter (keep_line rewrites) lines)) /\
  List.filter (fun f => rewritten rewrites f.1) (header_fields out) = own_fields rewrites /\
  List.filter (fun f => negb (rewritten rewrites f.1)) (header_fields out) =
  List.filter (fun f => negb (rewritten rewrites f.1)) (header_fields block).
Proof.
  intros Hc Hrw Hr.
  destruct (rewrite_request_head_lines _ _ _ Hc Hr) as (rl & lines & -> & Hrl & Hok & ->).
  destruct (own_lines_ok rewrites Hrw) as [Hown Hfields]. split; [by exists rl, lines |].
  assert (Forall line_ok (List.filter (keep_line rewrites) lines)) as Hkept.
  { apply List.Forall_forall. intros l [Hin _]%filter_In. by apply (proj1 (List.Forall_forall _ _) Hok). }
  rewrite !header_fields_encode by (try apply Forall_app; done).
  rewrite fmap_app, Hfields, !List.filter_app.
  destruct (own_fields_rewritten rewrites rewrites (fun _ H => H)) as [-> ->].
  destruct (kept_fields rewrites lines Hok) as [-> ->]. by rewrite app_nil_r.
Qed.

Definition client_head : bytes :=
  encode_head (bs "GET / HTTP/1.1") [bs "Host: a"; bs "x-FORWARDED-for: 6.6.6.6"].
Definition xff : list HeaderRewrite := [mkRewrite (bs "X-Forwarded-For") (Some (bs "1.2.3.4")); mkRewrite (bs "X-JA4") None].

Lemma forwarded_head_is_authoritative_witness :
  exists out, rewrite_request_head client_head xff = Ok out /\
    List.filter (fun f => rewritten xff f.1) (header_fields out) = [(bs "X-Forwarded-For", bs "1.2.3.4")].
Proof.
  destruct (rewrite_request_head client_head xff) as [out|] eqn:E; [|by vm_compute in E].
  exists out. split; [done |].
  destruct (forwarded_head_is_authoritative client_head xff out) as (_ & Hf & _); [| |exact E|].
  - split; [vm_compute; lia | by vm_compute].
  - constructor; [|constructor; [|constructor]]; repeat split; done.
  - rewrite Hf. by vm_compute.
Defined.

(** C31: A request body is never framed in two ways: a body is forwarded as chunked
    only when no Content-Length is present and the last coding of the last
    Transfer-Encoding is chunked, and by length only when no Transfer-Encoding
    is present and every Content-Length states that length; anything else is
    refused. *)
Theorem request_framing_is_unambiguous block body :
  request_body block = Ok body ->
  let te := named (bs "transfer-encoding") (header_fields block) in
  let cl := named (bs "content-length") (header_fields block) in
  match body with
  | ReqChunked => cl = [] /\ exists f, list.last te = Some f /\ ends_chunked f = true
  | ReqLength n => n <> 0 /\ te = [] /\ cl <> [] /\ Forall (fun f => parse_u64 f.2 = Some n) cl
  | ReqNone => te = [] /\ Forall (fun f => parse_u64 f.2 = Some 0) cl
  end.
Proof.
  intros Hb te cl. unfold request_body in Hb.
  destruct (framing_fields (header_fields block) false false None) as [[[hte chunked] len]|] eqn:Hf; [|done].
  apply framing_fields_spec in Hf as (Hte & Hch & Hlen). cbn [mbind result_bind] in Hb. fold te cl in Hte, Hch, Hlen.
  assert (hte = false -> te = []) as Hnil.
  { intros ->. symmetry in Hte. cbn [orb] in Hte. apply negb_false_iff, bool_decide_eq_true in Hte. by apply length_zero_iff_nil. }
  destruct hte.
  - destruct len as [n|]; [done |]. destruct chunked; [|done]. injection Hb as <-.
    split; [by destruct Hlen |]. destruct (list.last te) as [f|]; [by exists f | done].
  - destruct len as [n|].
    + destruct Hlen as (Hall & _ & [Hne|]); [|done].
      destruct (Z.eqb_spec n 0) as [->|Hn]; injection Hb as <-; split_and!; auto.
    + injection Hb as <-. destruct Hlen as [-> _]. split; auto.
Qed.

Lemma request_framing_is_unambiguous_witness :
  let block := encode_head (bs "POST / HTTP/1.1") [bs "Content-Length: 5"; bs "content-length: 5"] in
  request_body block = Ok (ReqLength 5) /\ named (bs "transfer-encoding") (header_fields block) = [].
Proof.
  intros block. assert (request_body block = Ok (ReqLength 5)) as Hb by by vm_compute. split; [done |].
  apply (request_framing_is_unambiguous block (ReqLength 5) Hb).
Defined.

(** A line with a bare LF is forwarded whole: what follows the LF is not looked
    at, whatever header it names to a reader that takes LF for a line end. *)
Example bare_lf_is_forwarded :
  let line := bs "A: b" ++ [10] ++ bs "X-Forwarded-For: 6.6.6.6" in
  rewrite_request_head (encode_head (bs "GET / HTTP/1.1") [line]) xff =
  Ok (encode_head (bs "GET / HTTP/1.1") [bs "X-Forwarded-For: 1.2.3.4"; line]).
Proof. by vm_compute. Qed.

(** [parse::<u64>] takes a leading plus sign, which RFC 9110 does not allow in a
    Content-Length. *)
Example plus_signed_length_is_accepted :
  request_body (encode_head (bs "POST / HTTP/1.1") [bs "Content-Length: +3"]) = Ok (ReqLength 3).
Proof. by vm_compute. Qed.
End Properties.
