(* ===== verification/HttpPump.v ===== *)
(** * Pumping HTTP/1 (src/src/http_proxy.rs)

    The two halves of [proxy_http1_rewriting] over byte streams: the request pump
    ([rewrite_request_stream]) and the response pump ([forward_response_stream]).

    A [pump] is what one half works on: the bytes buffered ([carry]), the bytes
    its source will still deliver, and the bytes written so far. How the network
    cuts the source into reads is the argument [arrived] (how many bytes are
    there when so many are left), [read_fails] is whether the source ends in
    an error rather than an end of stream, and [room] is how many bytes the sink
    takes before a write fails, if one does. A loop's fuel is one more than the
    bytes it can still consume, since every round consumes at least one. What
    the other half answers (whether the metadata is taken, the verdict on a
    tunnel) is an argument by request number. *)

From S2P Require Import Prelude Bytes HttpHead.

Open Scope Z_scope.

Definition MAX_HEADER_SIZE : nat := Z.to_nat 65536.
Definition MAX_CHUNK_LINE : nat := 1024.

Record pump : Type := mkPump { p_carry : bytes; p_data : bytes; p_out : bytes }.

Definition input (p : pump) : bytes := p_carry p ++ p_data p.

Definition write_all (x : bytes) (p : pump) : pump := mkPump (p_carry p) (p_data p) (p_out p ++ x).
Definition drain (n : nat) (p : pump) : pump := mkPump (drop n (p_carry p)) (p_data p) (p_out p).

Section Pump.
Context (arrived : nat -> nat) (read_fails : bool) (room : option nat).

(** [writer.write_all(x)] *)
Definition fits (x : bytes) (p : pump) : bool :=
  match room with Some n => (length (p_out p ++ x) <=? n)%nat | None => true end.
Definition write (x : bytes) (p : pump) : result http_error unit * pump :=
  if fits x p then (Ok tt, write_all x p)
  else (Err WriteFailed, mkPump (p_carry p) (p_data p) (take (default 0%nat room) (p_out p ++ x))).

(** [reader.read(&mut buf[..k])] *)
Definition read (k : nat) (p : pump) : result http_error bytes * pump :=
  match p_data p with
  | [] => (if read_fails then Err ReadFailed else Ok [], p)
  | d => let n := Nat.max 1 (Nat.min k (arrived (length d))) in
         (Ok (take n d), mkPump (p_carry p) (drop n d) (p_out p))
  end.

Definition extend (x : bytes) (p : pump) : pump := mkPump (p_carry p ++ x) (p_data p) (p_out p).

(** ** Heads *)

Fixpoint header_loop (fuel scanned : nat) (p : pump) : result http_error (option nat) * pump :=
  match fuel with
  | O => (Err OutOfFuel, p)
  | S fuel' =>
      match find_sub crlf2 (drop scanned (p_carry p)) with
      | Some rel => (Ok (Some (scanned + rel + 4)%nat), p)
      | None =>
          let scanned' := (length (p_carry p) - 3)%nat in
          if (MAX_HEADER_SIZE <? length (p_carry p))%nat then (Err HeadersTooLarge, p)
          else match read 4096 p with
               | (Err e, p') => (Err e, p')
               | (Ok [], p') =>
                   (match p_carry p with [] => Ok None | _ => Err ClosedMidHeader end, p')
               | (Ok x, p') => header_loop fuel' scanned' (extend x p')
               end
      end
  end.

Definition read_header_block (p : pump) : result http_error (option nat) * pump :=
  header_loop (S (length (p_data p))) 0 p.

(** [read_http_headers]: the block and the bytes after it. *)
Definition read_http_headers (data : bytes) : result http_error (bytes * bytes) * pump :=
  match read_header_block (mkPump [] data []) with
  | (Ok (Some end_), p) => (Ok (take end_ (p_carry p), drop end_ (p_carry p)), p)
  | (Ok None, p) => (Ok ([], []), p)
  | (Err ClosedMidHeader, p) => (Ok ([], []), p)
  | (Err e, p) => (Err e, p)
  end.

(** ** Bodies *)

Fixpoint copy_exact_loop (fuel : nat) (remaining : Z) (p : pump) : result http_error unit * pump :=
  if remaining <=? 0 then (Ok tt, p)
  else match fuel with
       | O => (Err OutOfFuel, p)
       | S fuel' =>
           match read (Z.to_nat (Z.min remaining 8192)) p with
           | (Err e, p') => (Err e, p')
           | (Ok [], p') => (Err ClosedMidBody, p')
           | (Ok x, p') =>
               match write x p' with
               | (Err e, p'') => (Err e, p'')
               | (Ok _, p'') => copy_exact_loop fuel' (remaining - Z.of_nat (length x)) p''
               end
           end
       end.
Definition copy_exact (n : Z) (p : pump) : result http_error unit * pump :=
  copy_exact_loop (S (length (p_data p))) n p.

Definition copy_body (n : Z) (p : pump) : result http_error unit * pump :=
  let buffered := Z.min (Z.of_nat (length (p_carry p))) n in
  match write (take (Z.to_nat buffered) (p_carry p)) p with
  | (Err e, p1) => (Err e, p1)
  | (Ok _, p1) =>
      let p2 := drain (Z.to_nat buffered) p1 in
      if 0 <? n - buffered then copy_exact (n - buffered) p2 else (Ok tt, p2)
  end.

Fixpoint control_loop (fuel scanned : nat) (p : pump) : result http_error bytes * pump :=
  match fuel with
  | O => (Err OutOfFuel, p)
  | S fuel' =>
      match find_sub crlf (drop scanned (p_carry p)) with
      | Some rel => let end_ := (scanned + rel + 2)%nat in (Ok (take end_ (p_carry p)), drain end_ p)
      | None =>
          let scanned' := (length (p_carry p) - 1)%nat in
          if (MAX_CHUNK_LINE <? length (p_carry p))%nat then (Err ChunkLineTooLong, p)
          else match read 256 p with
               | (Err e, p') => (Err e, p')
               | (Ok [], p') => (Err ClosedMidChunk, p')
               | (Ok x, p') => control_loop fuel' scanned' (extend x p')
               end
      end
  end.
Definition read_control_line (p : pump) : result http_error bytes * pump :=
  control_loop (S (length (p_data p))) 0 p.

(** The size a control line states. *)
Definition chunk_size (line : bytes) : option Z :=
  size_field ← split_on 59 (take (length line - 2) line) !! 0%nat;
  text ← from_utf8 size_field;
  from_str_radix 16 u64_max (trim_str text).

Fixpoint copy_trailers (fuel : nat) (p : pump) : result http_error unit * pump :=
  match fuel with
  | O => (Err OutOfFuel, p)
  | S fuel' =>
      match read_control_line p with
      | (Err e, p') => (Err e, p')
      | (Ok trailer, p') =>
          match write trailer p' with
          | (Err e, p'') => (Err e, p'')
          | (Ok _, p'') => if bytes_eqb trailer crlf then (Ok tt, p'') else copy_trailers fuel' p''
          end
      end
  end.

Fixpoint chunked_loop (fuel : nat) (p : pump) : result http_error unit * pump :=
  match fuel with
  | O => (Err OutOfFuel, p)
  | S fuel' =>
      match read_control_line p with
      | (Err e, p1) => (Err e, p1)
      | (Ok line, p1) =>
          match chunk_size line with
          | None => (Err BadChunkSize, p1)
          | Some size =>
              match write line p1 with
              | (Err e, p2) => (Err e, p2)
              | (Ok _, p2) =>
                  if size =? 0 then copy_trailers (S (length (input p2))) p2
                  else match copy_body size p2 with
                       | (Err e, p3) => (Err e, p3)
                       | (Ok _, p3) =>
                           match read_control_line p3 with
                           | (Err e, p4) => (Err e, p4)
                           | (Ok crlf', p4) =>
                               if bytes_eqb crlf' crlf
                               then match write crlf' p4 with
                                    | (Err e, p5) => (Err e, p5)
                                    | (Ok _, p5) => chunked_loop fuel' p5
                                    end
                               else (Err MissingChunkCrlf, p4)
                           end
                       end
              end
          end
      end
  end.
Definition copy_chunked_body (p : pump) : result http_error unit * pump := chunked_loop (S (length (input p))) p.

(** The rest of the source, as it is ([tokio::io::copy] after the carry). *)
Definition copy_rest (p : pump) : result http_error unit * pump :=
  match write (input p) p with
  | (Err e, p') => (Err e, p')
  | (Ok _, p') => (if read_fails then Err ReadFailed else Ok tt, mkPump [] [] (p_out p'))
  end.

(** ** The request pump *)

Record RequestMeta : Type := mkMeta {
  m_head_only : bool;
  m_connect : bool;
  m_upgrade : bool;
  m_verdict : bool;
}.

Definition is_connect (block : bytes) : bool := eq_ignore_ascii_case (request_method block) (bs "CONNECT").
Definition is_tunnel_candidate (block : bytes) : bool := is_connect block || is_upgrade block.

Definition request_framing (block : bytes) : result http_error RequestBody :=
  if is_connect block then Ok ReqNone else request_body block.

Definition meta_of (block : bytes) : RequestMeta :=
  mkMeta (eq_ignore_ascii_case (request_method block) (bs "HEAD")) (is_connect block)
    (is_tunnel_candidate block && negb (is_connect block)) (is_tunnel_candidate block).

Definition copy_request_body (body : RequestBody) (p : pump) : result http_error unit * pump :=
  match body with
  | ReqNone => (Ok tt, p)
  | ReqLength n => copy_body n p
  | ReqChunked => copy_chunked_body p
  end.

Section Requests.
Context (rewrites : list HeaderRewrite).
(** Whether the response pump takes the metadata of the [k]th request, and what
    it answers about the [k]th request's tunnel. *)
Context (meta_taken : nat -> bool) (verdict : nat -> option bool).

Definition sends (meta : RequestMeta) (x : result http_error unit * pump * list RequestMeta)
    : result http_error unit * pump * list RequestMeta := (x.1, meta :: x.2).

(** With the metadata sent, in order. *)
Fixpoint request_loop (fuel k : nat) (p : pump) : result http_error unit * pump * list RequestMeta :=
  match fuel with
  | O => (Err OutOfFuel, p, [])
  | S fuel' =>
      match read_header_block p with
      | (Err e, p1) => (Err e, p1, [])
      | (Ok None, p1) => (Ok tt, p1, [])
      | (Ok (Some end_), p1) =>
          let block := take end_ (p_carry p1) in
          match rewrite_request_head block rewrites with
          | Err e => (Err e, p1, [])
          | Ok head =>
              match request_framing block with
              | Err e => (Err e, p1, [])
              | Ok body =>
                  if negb (meta_taken k) then (Ok tt, p1, [])
                  else
                    sends (meta_of block)
                      match write head p1 with
                      | (Err e, p2) => (Err e, p2, [])
                      | (Ok _, p2) =>
                          match copy_request_body body (drain end_ p2) with
                          | (Err e, p3) => (Err e, p3, [])
                          | (Ok _, p3) =>
                              if is_tunnel_candidate block then
                                match verdict k with
                                | Some true => (copy_rest p3, [])
                                | Some false => request_loop fuel' (S k) p3
                                | None => (Ok tt, p3, [])
                                end
                              else request_loop fuel' (S k) p3
                          end
                      end
              end
          end
      end
  end.

Definition rewrite_request_stream (data : bytes) : result http_error unit * pump * list RequestMeta :=
  request_loop (S (length data)) 0 (mkPump [] data []).
End Requests.

(** ** The response pump *)

Definition copy_response_body (body : ResponseBody) (p : pump) : result http_error unit * pump :=
  match body with
  | RespNone => (Ok tt, p)
  | RespLength n => copy_body n p
  | RespChunked => copy_chunked_body p
  | RespReadToEnd => copy_rest p
  end.

Definition tunnel_established (meta : RequestMeta) (status : Z) : bool :=
  (m_upgrade meta && (status =? 101)) || (m_connect meta && (200 <=? status) && (status <? 300)).

(** [metas] are those the request pump sends, in order; the verdicts reported
    come with the result. *)
Fixpoint response_loop (fuel : nat) (metas : list RequestMeta) (verdicts : list bool) (p : pump)
    : result http_error unit * pump * list bool :=
  match fuel with
  | O => (Err OutOfFuel, p, verdicts)
  | S fuel' =>
      match read_header_block p with
      | (Err e, p1) => (Err e, p1, verdicts)
      | (Ok None, p1) => (Ok tt, p1, verdicts)
      | (Ok (Some end_), p1) =>
          let head := take end_ (p_carry p1) in
          match parse_status head with
          | None => (Err BadStatusLine, p1, verdicts)
          | Some status =>
              if (100 <=? status) && (status <? 200) && negb (status =? 101)
              then match write head p1 with
                   | (Err e, p2) => (Err e, p2, verdicts)
                   | (Ok _, p2) => response_loop fuel' metas verdicts (drain end_ p2)
                   end
              else
                match metas with
                | [] => (Err NoMatchingRequest, p1, verdicts)
                | meta :: metas' =>
                    let tunnel := tunnel_established meta status in
                    let verdicts' := if m_verdict meta then verdicts ++ [tunnel] else verdicts in
                    if negb (m_verdict meta) && (status =? 101) then (Err Unsolicited101, p1, verdicts')
                    else
                      match write head p1 with
                      | (Err e, p2) => (Err e, p2, verdicts')
                      | (Ok _, p2) =>
                          if tunnel then (copy_rest (drain end_ p2), verdicts')
                          else
                            let framing := response_body head status (m_head_only meta) in
                            match copy_response_body framing (drain end_ p2) with
                            | (Err e, p3) => (Err e, p3, verdicts')
                            | (Ok _, p3) =>
                                match framing with
                                | RespReadToEnd => (Ok tt, p3, verdicts')
                                | _ => response_loop fuel' metas' verdicts' p3
                                end
                            end
                      end
                end
          end
      end
  end.

Definition forward_response_stream (metas : list RequestMeta) (data : bytes)
    : result http_error unit * pump * list bool :=
  response_loop (S (length data)) metas [] (mkPump [] data []).
End Pump.

(** ** Examples *)

Definition by_three : nat -> nat := fun _ => 3%nat.
Definition spoofed : bytes := encode_head (bs "GET /a HTTP/1.1") [bs "X-Forwarded-For: 6.6.6.6"].
Definition chunked_post : bytes :=
  encode_head (bs "POST /b HTTP/1.1") [bs "Transfer-Encoding: chunked"; bs "x-forwarded-for: 7.7.7.7"] ++
  bs "4;x=y" ++ crlf ++ bs "abcd" ++ crlf ++ bs "0" ++ crlf ++ bs "T: v" ++ crlf ++ crlf.
Definition upgrade_request : bytes :=
  encode_head (bs "GET /ws HTTP/1.1") [bs "Connection: Upgrade"; bs "Upgrade: websocket"].
Definition xff_rewrite : list HeaderRewrite := [mkRewrite (bs "X-Forwarded-For") (Some (bs "1.2.3.4"))].

Example pipelined_requests_are_rewritten :
  (rewrite_request_stream by_three false None xff_rewrite (fun _ => true) (fun _ => None) (chunked_post ++ spoofed)).1 =
  (Ok tt, mkPump [] []
     (encode_head (bs "POST /b HTTP/1.1") [bs "X-Forwarded-For: 1.2.3.4"; bs "Transfer-Encoding: chunked"] ++
      bs "4;x=y" ++ crlf ++ bs "abcd" ++ crlf ++ bs "0" ++ crlf ++ bs "T: v" ++ crlf ++ crlf ++
      encode_head (bs "GET /a HTTP/1.1") [bs "X-Forwarded-For: 1.2.3.4"])).
Proof. by vm_compute. Qed.

Example refused_upgrade_keeps_rewriting :
  p_out (rewrite_request_stream by_three false None xff_rewrite (fun _ => true) (fun _ => Some false)
           (upgrade_request ++ spoofed)).1.2 =
  encode_head (bs "GET /ws HTTP/1.1") [bs "X-Forwarded-For: 1.2.3.4"; bs "Connection: Upgrade"; bs "Upgrade: websocket"] ++
  encode_head (bs "GET /a HTTP/1.1") [bs "X-Forwarded-For: 1.2.3.4"].
Proof. by vm_compute. Qed.

Example accepted_upgrade_is_a_tunnel :
  p_out (rewrite_request_stream by_three false None xff_rewrite (fun _ => true) (fun _ => Some true)
           (upgrade_request ++ spoofed)).1.2 =
  encode_head (bs "GET /ws HTTP/1.1") [bs "X-Forwarded-For: 1.2.3.4"; bs "Connection: Upgrade"; bs "Upgrade: websocket"] ++
  spoofed.
Proof. by vm_compute. Qed.

Example response_verdicts :
  forward_response_stream by_three false None [meta_of upgrade_request]
    (encode_head (bs "HTTP/1.1 100 Continue") [] ++ encode_head (bs "HTTP/1.1 101 Switching") [] ++ bs "frames") =
  (Ok tt, mkPump [] [] (encode_head (bs "HTTP/1.1 100 Continue") [] ++
     encode_head (bs "HTTP/1.1 101 Switching") [] ++ bs "frames"), [true]).
Proof. by vm_compute. Qed.

(** ** Lemmas: searching as bytes arrive *)

Section Search.
Context (pat : bytes) (Hpat : pat <> []).

Lemma starts_with_short s : (length s < length pat)%nat -> starts_with pat s = false.
Proof.
  intros Hlt. apply not_true_iff_false. intros [r ->]%starts_with_spec. rewrite length_app in Hlt. lia.
Qed.

Lemma find_sub_none_iff s : find_sub pat s = None <-> forall j, starts_with pat (drop j s) = false.
Proof.
  split.
  - intros Hf j. destruct (decide (j <= length s)%nat); [by apply find_sub_None |].
    rewrite drop_ge by lia. destruct pat; [done |]. done.
  - intros Hall. destruct (find_sub pat s) as [i|] eqn:Hf; [|done]. apply find_sub_Some in Hf as [Hi _].
    by rewrite Hall in Hi.
Qed.

(** Positions already ruled out stay ruled out when more bytes arrive. *)
Definition no_match_before (n : nat) (s : bytes) : Prop :=
  forall j, (j < n)%nat -> starts_with pat (drop j s) = false.

Lemma find_sub_from n s :
  no_match_before n s -> find_sub pat s = match find_sub pat (drop n s) with Some rel => Some (n + rel)%nat | None => None end.
Proof.
  revert s; induction n as [|n IH]; intros s Hno; [rewrite drop_0; by destruct (find_sub pat s) |].
  pose proof (Hno O ltac:(lia)) as H0. rewrite drop_0 in H0.
  destruct s as [|b s]; [rewrite drop_nil; cbn [find_sub]; by rewrite H0 |].
  cbn [find_sub drop]. rewrite H0, IH; [by destruct (find_sub pat (drop n s)) |].
  intros j Hj. apply (Hno (S j)). lia.
Qed.

Lemma no_match_extend n s x :
  find_sub pat (drop n s) = None -> no_match_before n s ->
  no_match_before (length s - (length pat - 1)) (s ++ x).
Proof.
  intros Hf Hno j Hj.
  assert (find_sub pat s = None) as Hs by by rewrite (find_sub_from n s Hno), Hf.
  apply not_true_iff_false. intros [r Hr]%starts_with_spec.
  rewrite drop_app_le in Hr by lia. rewrite find_sub_none_iff in Hs. specialize (Hs j).
  apply not_true_iff_false in Hs. apply Hs, starts_with_spec.
  assert (take (length pat) (drop j s) = pat) as Ht.
  { rewrite <- (take_app_le (drop j s) x), Hr; [apply take_app_length |].
    rewrite length_drop. destruct pat; [done |]. simpl in *. lia. }
  exists (drop (length pat) (drop j s)). rewrite <- Ht at 1. by rewrite take_drop.
Qed.
End Search.

(** ** Lemmas: what the readers leave *)

Section Readers.
Context (arrived : nat -> nat) (read_fails : bool).
Local Abbreviation read := (read arrived read_fails).

Lemma read_spec k p r p' :
  read k p = (r, p') ->
  p_out p' = p_out p /\ p_carry p' = p_carry p /\
  match r with
  | Ok x => p_data p = x ++ p_data p' /\ ((0 < k)%nat -> (length x <= k)%nat) /\ (x = [] -> p_data p = [] /\ read_fails = false)
  | Err e => p_data p = [] /\ p' = p /\ e = ReadFailed
  end.
Proof.
  unfold HttpPump.read. destruct (p_data p) as [|b d] eqn:Hd.
  - destruct read_fails; intros [= <- <-]; rewrite ?Hd; split_and!; try done. simpl. lia.
  - intros [= <- <-]. cbn [p_out p_carry p_data]. split_and!; try done.
    + by rewrite take_drop.
    + rewrite length_take. lia.
    + intros Hx. apply (f_equal length) in Hx. rewrite length_take in Hx. simpl in Hx. lia.
Qed.

Lemma complete_take s end_ :
  find_sub crlf2 s = Some (end_ - 4)%nat -> (4 <= end_)%nat ->
  complete (take end_ s) /\ s = take end_ s ++ drop end_ s /\ (end_ <= length s)%nat.
Proof.
  intros Hf H4. pose proof (find_sub_bound _ _ _ Hf) as Hb. change (length crlf2) with 4%nat in Hb.
  apply find_sub_take in Hf. change (length crlf2) with 4%nat in Hf. replace (end_ - 4 + 4)%nat with end_ in Hf by lia.
  assert (length (take end_ s) = end_) as Hl by (rewrite length_take; lia).
  split; [split; rewrite Hl; [done | by rewrite Hf] | split; [by rewrite take_drop | lia]].
Qed.

(** A framed head is at the front of the input; nothing is lost or written. *)
Lemma header_loop_spec fuel scanned p r p' :
  (length (p_data p) < fuel)%nat -> no_match_before crlf2 scanned (p_carry p) ->
  header_loop arrived read_fails fuel scanned p = (r, p') ->
  p_out p' = p_out p /\ input p' = input p /\
  match r with
  | Ok (Some end_) => complete (take end_ (p_carry p')) /\ (4 <= end_ <= length (p_carry p'))%nat
  | Ok None => input p' = []
  | Err e => e <> OutOfFuel
  end.
Proof.
  revert scanned p; induction fuel as [|fuel IH]; intros scanned p Hfuel Hno; [lia |]. cbn [header_loop].
  pose proof (find_sub_from crlf2 scanned (p_carry p) Hno) as Hfrom.
  destruct (find_sub crlf2 (drop scanned (p_carry p))) as [rel|] eqn:Hf.
  { intros [= <- <-]. split_and!; try done.
    - apply complete_take; [|lia]. rewrite Hfrom. f_equal. lia.
    - lia.
    - apply find_sub_bound in Hfrom. change (length crlf2) with 4%nat in Hfrom. lia. }
  destruct (_ <? _)%nat; [intros [= <- <-]; by split_and! |].
  destruct (read 4096 p) as [[x|e] p1] eqn:Hr; destruct (read_spec _ _ _ _ Hr) as (Ho & Hc & Hx).
  2: { intros [= <- <-]. destruct Hx as (_ & -> & ->). by split_and!. }
  destruct Hx as (Hd & _ & Hnil). destruct x as [|b x].
  { destruct (Hnil eq_refl) as [Hd0 _]. cbn [app] in Hd. assert (input p1 = input p) as Hi.
    { unfold input. by rewrite Hc, Hd. }
    destruct (p_carry p) eqn:Hcar; intros [= <- <-]; split_and!; try done.
    unfold input. by rewrite Hc, <- Hd, Hd0. }
  intros Hl. apply IH in Hl as (Ho' & Hi' & Hres).
  2: { simpl. apply (f_equal length) in Hd. rewrite length_app in Hd. simpl in Hd. lia. }
  2: { cbn [extend p_carry]. rewrite Hc. by apply (no_match_extend crlf2 ltac:(done) scanned). }
  split; [rewrite Ho'; exact Ho |]. split; [rewrite Hi' | exact Hres]. unfold input. cbn [extend p_carry p_data].
  by rewrite Hc, Hd, <- app_assoc.
Qed.

Lemma read_header_block_spec p r p' :
  read_header_block arrived read_fails p = (r, p') ->
  p_out p' = p_out p /\ input p' = input p /\
  match r with
  | Ok (Some end_) => complete (take end_ (p_carry p')) /\ (4 <= end_ <= length (p_carry p'))%nat
  | Ok None => input p' = []
  | Err e => e <> OutOfFuel
  end.
Proof. apply header_loop_spec; [lia | intros j Hj; lia]. Qed.

(** A copied body is the front of the input, written as it is. *)
Lemma copy_exact_spec fuel n p r p' :
  (length (p_data p) < fuel)%nat -> p_carry p = [] ->
  copy_exact_loop arrived read_fails None fuel n p = (r, p') ->
  p_carry p' = [] /\
  exists body, p_data p = body ++ p_data p' /\ p_out p' = p_out p ++ body /\
    match r with Ok _ => Z.of_nat (length body) = Z.max 0 n | Err e => e <> OutOfFuel end.
Proof.
  revert n p; induction fuel as [|fuel IH]; intros n p Hfuel Hcar; [lia |]. cbn [copy_exact_loop write fits].
  destruct (Z.leb_spec n 0) as [Hn|Hn].
  { intros [= <- <-]. split; [done |]. exists []. rewrite app_nil_r. split_and!; try done. simpl. lia. }
  destruct (read _ p) as [[x|e] p1] eqn:Hr; destruct (read_spec _ _ _ _ Hr) as (Ho & Hc & Hx).
  2: { intros [= <- <-]. destruct Hx as (_ & -> & ->). split; [done |]. exists []. by rewrite app_nil_r. }
  destruct Hx as (Hd & Hk & Hnil). destruct x as [|b x].
  { intros [= <- <-]. split; [by rewrite Hc |]. exists []. rewrite app_nil_r. by split_and!. }
  intros Hl. apply IH in Hl as (Hc' & body & Hd' & Ho' & Hres).
  2: { simpl. apply (f_equal length) in Hd. rewrite length_app in Hd. simpl in Hd. lia. }
  2: { simpl. by rewrite Hc. }
  split; [done |]. exists ((b :: x) ++ body). simpl in Hd', Ho'. split_and!.
  - by rewrite Hd, Hd', <- app_assoc.
  - by rewrite Ho', Ho, <- app_assoc.
  - destruct r; [|done]. rewrite length_app.
    assert (length (b :: x) <= Z.to_nat (Z.min n 8192))%nat by (apply Hk; lia). lia.
Qed.

Lemma copy_body_spec n p r p' :
  0 <= n -> copy_body arrived read_fails None n p = (r, p') ->
  exists body, input p = body ++ input p' /\ p_out p' = p_out p ++ body /\
    match r with Ok _ => Z.of_nat (length body) = n | Err e => e <> OutOfFuel end.
Proof.
  intros Hn. unfold copy_body. cbv zeta. cbn [write fits]. set (k := Z.min (Z.of_nat (length (p_carry p))) n).
  destruct (Z.ltb_spec 0 (n - k)) as [Hlt|Hge].
  - assert (k = Z.of_nat (length (p_carry p))) as Hk by (unfold k; lia).
    rewrite Hk, Nat2Z.id. unfold copy_exact. intros Hc. apply copy_exact_spec in Hc; [|simpl; lia | simpl; apply drop_ge; lia].
    destruct Hc as (Hc' & body & Hd & Ho & Hr). simpl in Hd, Ho. rewrite firstn_all in Ho.
    exists (p_carry p ++ body). unfold input. rewrite Hc', Hd, Ho. split_and!; [by rewrite <- app_assoc.. |].
    destruct r; [|done]. rewrite length_app. lia.
  - intros [= <- <-]. exists (take (Z.to_nat k) (p_carry p)). unfold input. simpl. split_and!; [| done |].
    + by rewrite app_assoc, take_drop.
    + rewrite length_take. lia.
Qed.

(** A control line: its first CRLF ends it. *)
Definition control_line (l : bytes) : Prop := (2 <= length l)%nat /\ find_sub crlf l = Some (length l - 2)%nat.

Lemma control_loop_spec fuel scanned p r p' :
  (length (p_data p) < fuel)%nat -> no_match_before crlf scanned (p_carry p) ->
  control_loop arrived read_fails fuel scanned p = (r, p') ->
  p_out p' = p_out p /\
  match r with
  | Ok line => control_line line /\ input p = line ++ input p'
  | Err e => e <> OutOfFuel /\ input p = input p'
  end.
Proof.
  revert scanned p; induction fuel as [|fuel IH]; intros scanned p Hfuel Hno; [lia |]. cbn [control_loop].
  pose proof (find_sub_from crlf scanned (p_carry p) Hno) as Hfrom.
  destruct (find_sub crlf (drop scanned (p_carry p))) as [rel|] eqn:Hf.
  { intros [= <- <-]. split; [done |]. pose proof (find_sub_bound _ _ _ Hfrom) as Hb.
    apply find_sub_take in Hfrom. change (length crlf) with 2%nat in *.
    assert (length (take (scanned + rel + 2) (p_carry p)) = scanned + rel + 2)%nat as Hl by (rewrite length_take; lia).
    split; [split; rewrite Hl; [lia | rewrite Hfrom; f_equal; lia] |].
    unfold input. simpl. by rewrite app_assoc, take_drop. }
  destruct (_ <? _)%nat; [intros [= <- <-]; by split_and! |].
  destruct (read 256 p) as [[x|e] p1] eqn:Hr; destruct (read_spec _ _ _ _ Hr) as (Ho & Hc & Hx).
  2: { intros [= <- <-]. destruct Hx as (_ & -> & ->). by split_and!. }
  destruct Hx as (Hd & _ & Hnil). destruct x as [|b x].
  { intros [= <- <-]. split_and!; try done. unfold input. by rewrite Hc, Hd. }
  intros Hl. apply IH in Hl as (Ho' & Hres).
  2: { simpl. apply (f_equal length) in Hd. rewrite length_app in Hd. simpl in Hd. lia. }
  2: { cbn [extend p_carry]. rewrite Hc. by apply (no_match_extend crlf ltac:(done) scanned). }
  assert (input (extend (b :: x) p1) = input p) as Hi.
  { unfold input. cbn [extend p_carry p_data]. by rewrite Hc, Hd, <- app_assoc. }
  rewrite Hi in Hres. split; [rewrite Ho'; exact Ho | done].
Qed.

Lemma read_control_line_spec p r p' :
  read_control_line arrived read_fails p = (r, p') ->
  p_out p' = p_out p /\
  match r with
  | Ok line => control_line line /\ input p = line ++ input p'
  | Err e => e <> OutOfFuel /\ input p = input p'
  end.
Proof. apply control_loop_spec; [lia | intros j Hj; lia]. Qed.

Lemma chunk_size_range line n : chunk_size line = Some n -> 0 <= n <= u64_max.
Proof.
  unfold chunk_size. destruct (split_on _ _ !! _) as [f|]; [|done]. cbn [mbind option_bind].
  destruct (from_utf8 f); [|done]. cbn [mbind option_bind]. apply from_str_radix_range; unfold u64_max; lia.
Qed.

(** The end of a chunked body: trailer lines and a blank one. *)
Definition trailers_text (t : bytes) : Prop :=
  exists ls, Forall (fun l => control_line l /\ l <> crlf) ls /\ t = concat ls ++ crlf.

(** A whole chunked body. *)
Inductive chunked_text : bytes -> Prop :=
  | chunked_last line t : control_line line -> chunk_size line = Some 0 -> trailers_text t -> chunked_text (line ++ t)
  | chunked_more line n data rest :
      control_line line -> chunk_size line = Some n -> n <> 0 -> Z.of_nat (length data) = n ->
      chunked_text rest -> chunked_text (line ++ data ++ crlf ++ rest).

Lemma copy_trailers_spec fuel p r p' :
  (length (input p) < fuel)%nat -> copy_trailers arrived read_fails None fuel p = (r, p') ->
  exists body, input p = body ++ input p' /\ p_out p' = p_out p ++ body /\
    match r with Ok _ => trailers_text body | Err e => e <> OutOfFuel end.
Proof.
  revert p; induction fuel as [|fuel IH]; intros p Hfuel; [lia |]. cbn [copy_trailers write fits].
  destruct (read_control_line _ _ p) as [[line|e] p1] eqn:Hr; apply read_control_line_spec in Hr as (Ho & Hres).
  2: { intros [= <- <-]. destruct Hres as [He Hi]. exists []. by rewrite Hi, app_nil_r. }
  destruct Hres as [Hline Hi]. destruct (bytes_eqb line crlf) eqn:Heq.
  - apply bytes_eqb_eq in Heq as ->. intros [= <- <-]. exists crlf. simpl. rewrite Ho. split_and!; [done.. |].
    by exists [].
  - intros Hl. apply IH in Hl as (body & Hb & Ho' & Hres).
    2: { change (input (write_all line p1)) with (input p1). rewrite Hi, length_app in Hfuel. destruct Hline. lia. }
    change (input (write_all line p1)) with (input p1) in Hb.
    exists (line ++ body). rewrite Hi, Hb, Ho'. simpl. rewrite Ho. split_and!; [by rewrite <- app_assoc.. |].
    destruct r; [|done]. destruct Hres as (ls & Hls & ->). exists (line :: ls). split; [|by rewrite app_assoc].
    constructor; [|done]. split; [done |]. intros ->. by rewrite (proj2 (bytes_eqb_eq _ _) eq_refl) in Heq.
Qed.

Lemma chunked_loop_spec fuel p r p' :
  (length (input p) < fuel)%nat -> chunked_loop arrived read_fails None fuel p = (r, p') ->
  exists body lost, input p = body ++ lost ++ input p' /\ p_out p' = p_out p ++ body /\
    match r with Ok _ => lost = [] /\ chunked_text body | Err e => e <> OutOfFuel end.
Proof.
  revert p; induction fuel as [|fuel IH]; intros p Hfuel; [lia |]. cbn [chunked_loop write fits].
  destruct (read_control_line _ _ p) as [[line|e] p1] eqn:Hr; apply read_control_line_spec in Hr as (Ho & Hres).
  2: { intros [= <- <-]. destruct Hres as [He Hi]. exists [], []. by rewrite Hi, app_nil_r. }
  destruct Hres as [Hline Hi]. destruct (chunk_size line) as [n|] eqn:Hn.
  2: { intros [= <- <-]. exists [], line. by rewrite app_nil_r. }
  cbv zeta. destruct (Z.eqb_spec n 0) as [->|Hnz].
  - intros Ht. apply copy_trailers_spec in Ht as (body & Hb & Ho' & Hres); [|lia].
    change (input (write_all line p1)) with (input p1) in Hb. exists (line ++ body), [].
    rewrite Hi, Hb, Ho'. simpl. rewrite Ho. split_and!; [by rewrite <- app_assoc.. |].
    destruct r; [|done]. split; [done | by constructor].
  - destruct (copy_body _ _ _ n (write_all line p1)) as [[u|e] p2] eqn:Hc;
      apply copy_body_spec in Hc as (data & Hd & Ho2 & Hlen); try (by apply chunk_size_range in Hn as []).
    2: { intros [= <- <-]. exists (line ++ data), []. rewrite Hi. change (input p1) with (input (write_all line p1)).
         rewrite Hd, Ho2. simpl. rewrite Ho. by split_and!; [rewrite <- app_assoc.. |]. }
    change (input (write_all line p1)) with (input p1) in Hd. simpl in Ho2.
    destruct (read_control_line _ _ p2) as [[l2|e] p3] eqn:Hr2; apply read_control_line_spec in Hr2 as (Ho3 & Hres2).
    2: { intros [= <- <-]. exists (line ++ data), []. destruct Hres2 as [? <-].
         rewrite Hi, Hd, Ho3, Ho2, Ho. by split_and!; [rewrite <- app_assoc.. |]. }
    destruct Hres2 as [Hl2 Hi2]. destruct (bytes_eqb l2 crlf) eqn:Heq.
    2: { intros [= <- <-]. exists (line ++ data), l2. rewrite Hi, Hd, Hi2, Ho3, Ho2, Ho.
         by split_and!; [rewrite <- !app_assoc.. |]. }
    apply bytes_eqb_eq in Heq as ->. intros Hl. apply IH in Hl as (body & lost & Hb & Ho4 & Hres).
    2: { change (input (write_all crlf p3)) with (input p3). rewrite Hi, Hd, Hi2, !length_app in Hfuel.
         destruct Hline. lia. }
    change (input (write_all crlf p3)) with (input p3) in Hb. simpl in Ho4.
    exists (line ++ data ++ crlf ++ body), lost. rewrite Hi, Hd, Hi2, Hb, Ho4, Ho3, Ho2, Ho.
    split_and!; [by rewrite <- !app_assoc.. |]. destruct r; [|done]. destruct Hres as [-> Hbody].
    split; [done |]. by apply chunked_more with n.
Qed.

(** ** Lemmas: the request pump *)

(** A body as the framing says. *)
Definition framed (b : RequestBody) (body : bytes) : Prop :=
  match b with
  | ReqNone => body = []
  | ReqLength n => Z.of_nat (length body) = n
  | ReqChunked => chunked_text body
  end.

Lemma request_framing_range block n : request_framing block = Ok (ReqLength n) -> 0 <= n.
Proof.
  unfold request_framing. destruct (is_connect block); [done |]. unfold request_body.
  destruct (framing_fields _ _ _ _) as [[[te ch] len]|] eqn:Hf; [|done]. cbn [mbind result_bind].
  apply framing_fields_spec in Hf as (_ & _ & Hlen). destruct te; [by destruct len, ch |].
  destruct len as [m|]; [|done]. destruct (m =? 0); [done |]. intros [= <-].
  destruct Hlen as (Hall & _ & [Hne|]); [|done]. destruct (named _ _) as [|f fs]; [done |].
  apply Forall_inv in Hall. apply from_str_radix_range in Hall; unfold u64_max in *; lia.
Qed.

Lemma copy_request_body_spec block b p r p' :
  request_framing block = Ok b -> copy_request_body arrived read_fails None b p = (r, p') ->
  exists body lost, input p = body ++ lost ++ input p' /\ p_out p' = p_out p ++ body /\
    match r with Ok _ => lost = [] /\ framed b body | Err e => e <> OutOfFuel end.
Proof.
  intros Hb. destruct b as [|n|]; cbn [copy_request_body framed].
  - intros [= <- <-]. exists [], []. by rewrite app_nil_r.
  - intros Hc. apply copy_body_spec in Hc as (body & Hi & Ho & Hr); [|by eapply request_framing_range].
    exists body, []. split_and!; try done. by destruct r.
  - apply chunked_loop_spec. lia.
Qed.

(** A request as it came and as it went: its head block, the head written and
    its body. *)
Record exchange : Type := mkExchange { x_block : bytes; x_head : bytes; x_body : bytes }.
Definition came (x : exchange) : bytes := x_block x ++ x_body x.
Definition went (x : exchange) : bytes := x_head x ++ x_body x.

Definition head_rewritten (rewrites : list HeaderRewrite) (x : exchange) : Prop :=
  complete (x_block x) /\ rewrite_request_head (x_block x) rewrites = Ok (x_head x).
Definition whole (x : exchange) : Prop := exists b, request_framing (x_block x) = Ok b /\ framed b (x_body x).

Section Requests.
Context (rewrites : list HeaderRewrite) (meta_taken : nat -> bool) (verdict : nat -> option bool).

(** What a run of the pump from request [k] on did: the requests forwarded whole,
    one cut short by an error at most, and a tunnel. *)
Record pumped (k : nat) (p : pump) (r : result http_error unit) (p' : pump)
    (ms : list RequestMeta) (done_ : list exchange) (cut : list exchange) (tunnel lost : bytes) : Prop := {
  pm_metas : ms = (fun x => meta_of (x_block x)) <$> (done_ ++ cut);
  pm_in : input p = concat (came <$> done_) ++ concat (came <$> cut) ++ tunnel ++ lost ++ input p';
  pm_out : p_out p' = p_out p ++ concat (went <$> done_) ++ concat (went <$> cut) ++ tunnel;
  pm_heads : Forall (head_rewritten rewrites) (done_ ++ cut);
  pm_whole : Forall whole done_;
  pm_cut : cut = [] \/ length cut = 1%nat /\ exists e, r = Err e;
  pm_tunnel : tunnel <> [] -> exists before x, done_ = before ++ [x] /\
    is_tunnel_candidate (x_block x) = true /\ verdict (k + length before) = Some true;
  pm_fuel : r <> Err OutOfFuel;
}.

Lemma pumped_stop k p r p' :
  input p' = input p -> p_out p' = p_out p -> r <> Err OutOfFuel -> pumped k p r p' [] [] [] [] [].
Proof. intros Hi Ho Hr. split; simpl; rewrite ?Hi, ?Ho, ?app_nil_r; auto; done. Qed.

Lemma pumped_next k p p1 x r p' ms done_ cut tunnel lost :
  input p = came x ++ input p1 -> p_out p1 = p_out p ++ went x -> head_rewritten rewrites x -> whole x ->
  pumped (S k) p1 r p' ms done_ cut tunnel lost ->
  pumped k p r p' (meta_of (x_block x) :: ms) (x :: done_) cut tunnel lost.
Proof.
  intros Hi Ho Hx Hw [Hm Hin Hout Hh Hwh Hc Ht Hf]. split; cbn [fmap list_fmap concat]; try done.
  - by rewrite Hm.
  - by rewrite Hi, Hin, <- !app_assoc.
  - by rewrite Hout, Ho, <- !app_assoc.
  - by constructor.
  - by constructor.
  - intros Hne. destruct (Ht Hne) as (before & y & -> & Hy & Hv). exists (x :: before), y. split_and!; try done.
    simpl. by replace (k + S (length before))%nat with (S k + length before)%nat by lia.
Qed.

Lemma request_loop_spec fuel k p r p' ms :
  (length (input p) < fuel)%nat ->
  request_loop arrived read_fails None rewrites meta_taken verdict fuel k p = (r, p', ms) ->
  exists done_ cut tunnel lost, pumped k p r p' ms done_ cut tunnel lost.
Proof.
  revert k p r p' ms; induction fuel as [|fuel IH]; intros k p r p' ms Hfuel; [lia |]. cbn [request_loop write fits].
  destruct (read_header_block _ _ p) as [[[end_|]|e] p1] eqn:Hr; apply read_header_block_spec in Hr as (Ho & Hi & Hres).
  2: { intros [= <- <- <-]. exists [], [], [], []. by apply pumped_stop. }
  2: { intros [= <- <- <-]. exists [], [], [], []. apply pumped_stop; congruence. }
  destruct Hres as [Hcomp [H4 Hend]]. cbv zeta. set (block := take end_ (p_carry p1)) in *.
  destruct (rewrite_request_head block rewrites) as [head|e] eqn:Hrw.
  2: { intros [= <- <- <-]. exists [], [], [], []. apply pumped_stop; try done. intros [= ->]. by apply rewrite_request_head_fuel in Hrw. }
  destruct (request_framing block) as [b|e] eqn:Hfr.
  2: { intros [= <- <- <-]. exists [], [], [], []. apply pumped_stop; try done. intros [= ->].
       unfold request_framing in Hfr. destruct (is_connect block); [done | by apply request_body_fuel in Hfr]. }
  destruct (meta_taken k); cbn [negb].
  2: { intros [= <- <- <-]. exists [], [], [], []. by apply pumped_stop. }
  set (p2 := drain end_ (write_all head p1)).
  assert (input p = block ++ input p2) as Hi2.
  { rewrite <- Hi. unfold input, p2, block. simpl. by rewrite app_assoc, take_drop. }
  assert (p_out p2 = p_out p ++ head) as Ho2 by by unfold p2; simpl; rewrite Ho.
  assert (length block = end_) as Hlb by (unfold block; rewrite length_take; lia).
  destruct (copy_request_body _ _ _ b p2) as [[u|e] p3] eqn:Hc;
    apply (copy_request_body_spec block) in Hc as (body & lost & Hb & Ho3 & Hres); try done.
  2: { intros [= <- <- <-]. exists [], [mkExchange block head body], [], lost.
       split; simpl; unfold came, went; simpl; rewrite ?app_nil_r.
       - done.
       - by rewrite Hi2, Hb, <- !app_assoc.
       - by rewrite Ho3, Ho2, <- !app_assoc.
       - by constructor.
       - done.
       - right. split; [done | by eexists].
       - done.
       - congruence. }
  destruct Hres as [-> Hframed]. set (x := mkExchange block head body).
  assert (input p = came x ++ input p3) as Hin by by unfold came; simpl; rewrite Hi2, Hb, <- app_assoc.
  assert (p_out p3 = p_out p ++ went x) as Hout by by unfold went; simpl; rewrite Ho3, Ho2, <- app_assoc.
  assert (whole x) as Hw by by exists b.
  assert (head_rewritten rewrites x) as Hx by done.
  assert (forall r p' ms,
    sends (meta_of block) (request_loop arrived read_fails None rewrites meta_taken verdict fuel (S k) p3) = (r, p', ms) ->
    exists done_ cut tunnel lost, pumped k p r p' ms done_ cut tunnel lost) as Hnext.
  { intros r0 p0 ms0. destruct (request_loop _ _ _ _ _ _ fuel (S k) p3) as [[r1 p4] ms1] eqn:Hl.
    unfold sends. cbn [fst snd]. intros [= <- <- <-]. apply IH in Hl as (d & c & t & l & Hp).
    - exists (x :: d), c, t, l. by apply (pumped_next k p p3 x).
    - rewrite Hin in Hfuel. unfold came in Hfuel. simpl in Hfuel. rewrite !length_app in Hfuel. lia. }
  assert (forall r, r <> Err OutOfFuel -> pumped k p r p3 [meta_of block] [x] [] [] []) as Hstop.
  { intros r0 Hr0. apply (pumped_next k p p3 x); try done. by apply pumped_stop. }
  destruct (is_tunnel_candidate block) eqn:Hcand; [|apply Hnext].
  destruct (verdict k) as [[|]|] eqn:Hv; [|apply Hnext | intros [= <- <- <-]; exists [x], [], [], []; by apply Hstop].
  unfold sends, copy_rest. cbn [fst snd write fits]. intros [= <- <- <-]. exists [x], [], (input p3), [].
  split; cbn [fmap list_fmap concat app input p_carry p_data p_out]; rewrite ?app_nil_r.
  - done.
  - exact Hin.
  - by rewrite Hout, <- app_assoc.
  - by constructor.
  - by constructor.
  - by left.
  - intros _. exists [], x. rewrite Nat.add_0_r. by split_and!.
  - by destruct read_fails.
Qed.
End Requests.
End Readers.

(** ** Lemmas: the response pump *)

Section Responses.
Context (arrived : nat -> nat) (read_fails : bool).

Lemma content_length_range head n : content_length head = Some n -> 0 <= n.
Proof.
  unfold content_length. destruct (header_field _ _) as [v|]; [|done]. cbn [mbind option_bind].
  destruct (from_utf8 v) as [w|]; [|done]. cbn [mbind option_bind]. intros Hp.
  apply from_str_radix_range in Hp; unfold u64_max in *; lia.
Qed.

(** A response body as its head says; one without framing runs to the end. *)
Definition framed_response (b : ResponseBody) (body : bytes) : Prop :=
  match b with
  | RespNone => body = []
  | RespLength n => Z.of_nat (length body) = n
  | RespChunked => chunked_text body
  | RespReadToEnd => True
  end.

Lemma copy_response_body_spec head status ho p r p' :
  copy_response_body arrived read_fails None (response_body head status ho) p = (r, p') ->
  exists body lost, input p = body ++ lost ++ input p' /\ p_out p' = p_out p ++ body /\
    match r with Ok _ => lost = [] /\ framed_response (response_body head status ho) body | Err e => e <> OutOfFuel end.
Proof.
  assert (forall n, response_body head status ho = RespLength n -> 0 <= n) as Hrange.
  { intros n. unfold response_body. destruct (ho || _); [done |]. destruct (is_transfer_encoding_chunked head); [done |].
    destruct (content_length head) as [m|] eqn:Hm; [|done]. destruct (m =? 0); [done |]. intros [= <-].
    by eapply content_length_range. }
  destruct (response_body head status ho) as [|n| |]; cbn [copy_response_body framed_response].
  - intros [= <- <-]. exists [], []. by rewrite app_nil_r.
  - intros Hc. apply copy_body_spec in Hc as (body & Hi & Ho & Hr); [|by apply Hrange].
    exists body, []. split_and!; try done. by destruct r.
  - intros Hc. apply chunked_loop_spec in Hc as (body & lost & Hi & Ho & Hr); [|lia].
    exists body, lost. by split_and!.
  - unfold copy_rest. cbn [write fits]. intros [= <- <-]. exists (input p), []. cbn [input p_carry p_data p_out]. rewrite !app_nil_r.
    split_and!; try done. by destruct read_fails.
Qed.

Lemma response_loop_spec fuel metas vs p r p' vs' :
  (length (input p) < fuel)%nat ->
  response_loop arrived read_fails None fuel metas vs p = (r, p', vs') ->
  exists fwd lost, input p = fwd ++ lost ++ input p' /\ p_out p' = p_out p ++ fwd /\
    match r with Ok _ => lost = [] | Err e => e <> OutOfFuel end.
Proof.
  revert metas vs p r p' vs'; induction fuel as [|fuel IH]; intros metas vs p r p' vs' Hfuel; [lia |]. cbn [response_loop write fits].
  destruct (read_header_block _ _ p) as [[[end_|]|e] p1] eqn:Hr; apply read_header_block_spec in Hr as (Ho & Hi & Hres).
  2: { intros [= <- <- <-]. exists [], []. by rewrite Hi, Ho, app_nil_r. }
  2: { intros [= <- <- <-]. exists [], []. by rewrite Hi, Ho, app_nil_r. }
  destruct Hres as [_ [H4 Hend]]. cbv zeta. set (head := take end_ (p_carry p1)) in *.
  assert (forall e, e <> OutOfFuel ->
    exists fwd lost : bytes, input p = fwd ++ lost ++ input p1 /\ p_out p1 = p_out p ++ fwd /\ e <> OutOfFuel) as Hstop.
  { intros e He. exists [], []. by rewrite Hi, Ho, app_nil_r. }
  set (p2 := drain end_ (write_all head p1)).
  assert (input p = head ++ input p2) as Hi2.
  { rewrite <- Hi. unfold input, p2, head. simpl. by rewrite app_assoc, take_drop. }
  assert (p_out p2 = p_out p ++ head) as Ho2 by by unfold p2; simpl; rewrite Ho.
  assert (forall (r : result http_error unit) (q : pump) body lost,
    input p2 = body ++ lost ++ input q -> p_out q = p_out p2 ++ body ->
    match r with Ok _ => lost = [] | Err e => e <> OutOfFuel end ->
    exists fwd lost, input p = fwd ++ lost ++ input q /\ p_out q = p_out p ++ fwd /\
      match r with Ok _ => lost = [] | Err e => e <> OutOfFuel end) as Hsend.
  { intros r0 q body lost Hb Hq Hl. exists (head ++ body), lost. rewrite Hi2, Hb, Hq, Ho2.
    by split_and!; [rewrite <- app_assoc.. |]. }
  assert (length (input p2) < fuel)%nat as Hshort.
  { rewrite Hi2, length_app in Hfuel. unfold head in Hfuel. rewrite length_take in Hfuel. lia. }
  destruct (parse_status head) as [status|]; [|intros [= <- <- <-]; by apply Hstop].
  destruct ((100 <=? status) && _ && _).
  { intros Hl. apply IH in Hl as (f & l & Hf & Hof & Hres); [|done]. by apply (Hsend r p' f l). }
  destruct metas as [|meta metas']; [intros [= <- <- <-]; by apply Hstop |].
  destruct (negb (m_verdict meta) && _); [intros [= <- <- <-]; by apply Hstop |].
  destruct (tunnel_established meta status).
  { unfold copy_rest. cbn [write fits]. intros [= <- <- <-]. apply (Hsend _ _ (input p2) []); cbn [input p_carry p_data p_out].
    - by rewrite !app_nil_r.
    - done.
    - by destruct read_fails. }
  destruct (copy_response_body _ _ _ _ p2) as [[u|e] p3] eqn:Hc;
    apply copy_response_body_spec in Hc as (body & lost & Hb & Hob & Hres).
  2: { intros [= <- <- <-]. by apply (Hsend (Err e) p3 body lost). }
  destruct Hres as [-> _]. simpl in Hb.
  destruct (response_body head status (m_head_only meta));
    try (intros [= <- <- <-]; by apply (Hsend (Ok tt) p3 body []));
    (intros Hl; apply IH in Hl as (f & l & Hf & Hof & Hres);
     [apply (Hsend r p' (body ++ f) l); [by rewrite Hb, Hf, <- app_assoc | by rewrite Hof, Hob, <- app_assoc | done]
     | rewrite Hb, length_app in Hshort; lia]).
Qed.
End Responses.

(** ** Lemmas: failing writes

    A sink that fails after [n] bytes changes nothing but this: the pump stops
    with [WriteFailed] when what it has to write goes past them, and the sink has
    the first [n] bytes of what an unlimited one would have been given. *)

Definition within (room : option nat) (x : bytes) : Prop :=
  match room with Some n => (length x <= n)%nat | None => True end.
Definition front (room : option nat) (x : bytes) : bytes :=
  match room with Some n => take n x | None => x end.

(** [x0] is what happens with an unlimited sink, [x] with a limited one. *)
Definition cut_at {A} (room : option nat) (p : pump) (x0 x : result http_error A * pump) : Prop :=
  p_out p `prefix_of` p_out x0.2 /\
  (within room (p_out p) ->
     x = x0 /\ within room (p_out x0.2) \/
     x.1 = Err WriteFailed /\ ~ within room (p_out x0.2) /\ p_out x.2 = front room (p_out x0.2)).

Lemma within_prefix room x y : x `prefix_of` y -> within room y -> within room x.
Proof. intros Hp. destruct room as [n|]; [|done]. simpl. apply prefix_length in Hp. lia. Qed.

Lemma front_prefix room x y : x `prefix_of` y -> ~ within room x -> front room y = front room x.
Proof.
  intros [z ->] Hw. destruct room as [n|]; [|by destruct Hw]. simpl in *. apply take_app_le. lia.
Qed.

Section Failing.
Context (arrived : nat -> nat) (read_fails : bool) (room : option nat).

Lemma cut_same {A} p (x : result http_error A * pump) : p_out x.2 = p_out p -> cut_at room p x x.
Proof. intros Ho. split; [by rewrite Ho |]. rewrite Ho. by left. Qed.

Lemma cut_from {A} p q (x0 x : result http_error A * pump) : p_out p = p_out q -> cut_at room p x0 x -> cut_at room q x0 x.
Proof. unfold cut_at. by intros ->. Qed.

Lemma cut_bind {A B} p (x0 x : result http_error A * pump) (k0 k : A -> pump -> result http_error B * pump) :
  cut_at room p x0 x -> (forall a q, cut_at room q (k0 a q) (k a q)) ->
  cut_at room p (match x0 with (Err e, q) => (Err e, q) | (Ok a, q) => k0 a q end)
    (match x with (Err e, q) => (Err e, q) | (Ok a, q) => k a q end).
Proof.
  intros [Hp Hx] Hk. split.
  - destruct x0 as [[a|e] q]; [|done]. etrans; [exact Hp | apply Hk].
  - intros Hw. destruct (Hx Hw) as [[-> Hw0]|(Hf & Hw0 & Ho)].
    + destruct x0 as [[a|e] q]; [by apply Hk | by left].
    + right. destruct x as [r q]. simpl in Hf. subst r. simpl. split; [done |].
      destruct x0 as [[a|e] q0]; [|done]. destruct (Hk a q0) as [Hg _]. simpl in Ho, Hw0. split.
      * intros Hw'. apply Hw0. by eapply within_prefix.
      * by rewrite Ho, (front_prefix room _ _ Hg Hw0).
Qed.

Lemma cut_write x p : cut_at room p (write None x p) (write room x p).
Proof.
  split; [by apply prefix_app_r |]. intros _. unfold write, fits, within, front. destruct room as [n|]; [|by left]. simpl.
  destruct (Nat.leb_spec (length (p_out p ++ x)) n); [by left | right; split_and!; [done | lia | done]].
Qed.

Lemma read_out k p : p_out (read arrived read_fails k p).2 = p_out p.
Proof. destruct (read arrived read_fails k p) as [r p'] eqn:E. by apply read_spec in E as [? _]. Qed.

Lemma control_line_out p : p_out (read_control_line arrived read_fails p).2 = p_out p.
Proof. destruct (read_control_line arrived read_fails p) as [r p'] eqn:E. by apply read_control_line_spec in E as [? _]. Qed.

Lemma header_block_out p : p_out (read_header_block arrived read_fails p).2 = p_out p.
Proof. destruct (read_header_block arrived read_fails p) as [r p'] eqn:E. by apply read_header_block_spec in E as [? _]. Qed.

Lemma copy_exact_cut fuel n p :
  cut_at room p (copy_exact_loop arrived read_fails None fuel n p) (copy_exact_loop arrived read_fails room fuel n p).
Proof.
  revert n p; induction fuel as [|fuel IH]; intros n p; cbn [copy_exact_loop]; (destruct (n <=? 0); [by apply cut_same |]).
  { by apply cut_same. }
  pose proof (read_out (Z.to_nat (Z.min n 8192)) p) as Ho. destruct (read _ _ _ p) as [[[|b x]|e] q]; simpl in Ho; try (by apply cut_same).
  apply (cut_from q); [done |]. apply (cut_bind q _ _ _ _ (cut_write _ _)). intros _ q'. apply IH.
Qed.

Lemma copy_body_cut n p : cut_at room p (copy_body arrived read_fails None n p) (copy_body arrived read_fails room n p).
Proof.
  unfold copy_body. cbv zeta. apply (cut_bind p _ _ _ _ (cut_write _ _)). intros _ q.
  destruct (0 <? _); [|by apply cut_same]. unfold copy_exact. eapply cut_from; [|apply copy_exact_cut]. done.
Qed.

Lemma copy_trailers_cut fuel p :
  cut_at room p (copy_trailers arrived read_fails None fuel p) (copy_trailers arrived read_fails room fuel p).
Proof.
  revert p; induction fuel as [|fuel IH]; intros p; [by apply cut_same |]. cbn [copy_trailers].
  pose proof (control_line_out p) as Ho. destruct (read_control_line _ _ p) as [[t|e] q]; simpl in Ho; [|by apply cut_same].
  apply (cut_from q); [done |]. apply (cut_bind q _ _ _ _ (cut_write _ _)). intros _ q'.
  destruct (bytes_eqb t crlf); [by apply cut_same | apply IH].
Qed.

Lemma chunked_loop_cut fuel p :
  cut_at room p (chunked_loop arrived read_fails None fuel p) (chunked_loop arrived read_fails room fuel p).
Proof.
  revert p; induction fuel as [|fuel IH]; intros p; [by apply cut_same |]. cbn [chunked_loop].
  pose proof (control_line_out p) as Ho. destruct (read_control_line _ _ p) as [[t|e] q]; simpl in Ho; [|by apply cut_same].
  destruct (chunk_size t) as [size|]; [|by apply cut_same].
  apply (cut_from q); [done |]. apply (cut_bind q _ _ _ _ (cut_write _ _)). intros _ q1.
  destruct (size =? 0); [apply copy_trailers_cut |]. apply (cut_bind q1 _ _ _ _ (copy_body_cut _ _)). intros _ q2.
  pose proof (control_line_out q2) as Ho2. destruct (read_control_line _ _ q2) as [[t2|e] q3]; simpl in Ho2; [|by apply cut_same].
  destruct (bytes_eqb t2 crlf); [|by apply cut_same].
  apply (cut_from q3); [done |]. apply (cut_bind q3 _ _ _ _ (cut_write _ _)). intros _ q4. apply IH.
Qed.

Lemma copy_rest_cut p : cut_at room p (copy_rest read_fails None p) (copy_rest read_fails room p).
Proof. apply (cut_bind p _ _ _ _ (cut_write _ _)). intros _ q. by apply cut_same. Qed.

Lemma copy_request_body_cut b p :
  cut_at room p (copy_request_body arrived read_fails None b p) (copy_request_body arrived read_fails room b p).
Proof. destruct b; [by apply cut_same | apply copy_body_cut | apply chunked_loop_cut]. Qed.

Lemma copy_response_body_cut b p :
  cut_at room p (copy_response_body arrived read_fails None b p) (copy_response_body arrived read_fails room b p).
Proof. destruct b; [by apply cut_same | apply copy_body_cut | apply chunked_loop_cut | apply copy_rest_cut]. Qed.

(** A pump that also tells the other one something. *)
Definition tells_less {A M} (p : pump) (x0 x : result http_error A * pump * list M) : Prop :=
  cut_at room p x0.1 x.1 /\ (within room (p_out p) -> x.2 `prefix_of` x0.2).

Lemma tells_same {A M} p (x : result http_error A * pump * list M) : p_out x.1.2 = p_out p -> tells_less p x x.
Proof. intros Ho. split; [by apply cut_same | done]. Qed.

Lemma tells_from {A M} p q (x0 x : result http_error A * pump * list M) :
  p_out p = p_out q -> tells_less p x0 x -> tells_less q x0 x.
Proof. intros Ho [Hc Hm]. split; [by eapply cut_from | by rewrite <- Ho]. Qed.

Lemma tells_bind {A B M} p (l : list M) (x0 x : result http_error A * pump)
    (k0 k : A -> pump -> result http_error B * pump * list M) :
  cut_at room p x0 x -> (forall a q, tells_less q (k0 a q) (k a q)) -> (forall a q, l `prefix_of` (k0 a q).2) ->
  tells_less p (match x0 with (Err e, q) => (Err e, q, l) | (Ok a, q) => k0 a q end)
    (match x with (Err e, q) => (Err e, q, l) | (Ok a, q) => k a q end).
Proof.
  intros Hc Hk Hl. split.
  - pose proof (cut_bind p x0 x (fun a q => (k0 a q).1) (fun a q => (k a q).1) Hc (fun a q => proj1 (Hk a q))) as Hb.
    by destruct x0 as [[a0|e0] q0], x as [[a|e] q].
  - intros Hw. destruct Hc as [_ Hx]. destruct (Hx Hw) as [[-> Hw0]|(Hf & _ & _)].
    + destruct x0 as [[a|e] q]; [by apply Hk | done].
    + destruct x as [r q]. simpl in Hf. subst r. destruct x0 as [[a|e] q0]; [apply Hl | done].
Qed.

Section Requests.
Context (rewrites : list HeaderRewrite) (meta_taken : nat -> bool) (verdict : nat -> option bool).

Lemma tells_sends meta p x0 x : tells_less p x0 x -> tells_less p (sends meta x0) (sends meta x).
Proof. intros [Hc Hm]. split; [done |]. intros Hw. by apply prefix_cons, Hm. Qed.

Lemma request_loop_cut fuel k p :
  tells_less p (request_loop arrived read_fails None rewrites meta_taken verdict fuel k p)
    (request_loop arrived read_fails room rewrites meta_taken verdict fuel k p).
Proof.
  revert k p; induction fuel as [|fuel IH]; intros k p; [by apply tells_same |]. cbn [request_loop].
  pose proof (header_block_out p) as Ho. destruct (read_header_block _ _ p) as [[[end_|]|e] q]; simpl in Ho; try (by apply tells_same).
  cbv zeta. destruct (rewrite_request_head _ _) as [head|e]; [|by apply tells_same].
  destruct (request_framing _) as [b|e]; [|by apply tells_same]. destruct (meta_taken k); [|by apply tells_same]. cbn [negb].
  apply tells_sends, (tells_from q); [done |].
  apply (tells_bind q [] _ _ _ _ (cut_write _ _)); [|intros; apply prefix_nil]. intros _ q1.
  apply (tells_from (drain end_ q1)); [done |].
  apply (tells_bind (drain end_ q1) [] _ _ _ _ (copy_request_body_cut _ _)); [|intros; apply prefix_nil]. intros _ q2.
  destruct (is_tunnel_candidate _); [|apply IH]. destruct (verdict k) as [[|]|]; [|apply IH | by apply tells_same].
  split; [apply copy_rest_cut | done].
Qed.
End Requests.

Lemma response_loop_grows rm fuel metas vs p : vs `prefix_of` (response_loop arrived read_fails rm fuel metas vs p).2.
Proof.
  revert metas vs p. induction fuel as [|fuel IH]; intros metas vs p; [done |]. cbn [response_loop].
  destruct (read_header_block _ _ p) as [[[end_|]|e] p1]; [|done..]. cbv zeta.
  destruct (parse_status _) as [status|]; [|done].
  destruct ((100 <=? status) && _ && _); [destruct (write _ _ _) as [[] ?]; [apply IH | done] |].
  destruct metas as [|meta metas]; [done |].
  set (vs1 := if m_verdict meta then _ else vs). assert (vs `prefix_of` vs1) as Hp.
  { unfold vs1. destruct (m_verdict meta); [by apply prefix_app_r | done]. }
  destruct (negb (m_verdict meta) && _); [exact Hp |]. destruct (write _ _ _) as [[] ?]; [|exact Hp].
  destruct (tunnel_established meta status); [exact Hp |].
  destruct (copy_response_body _ _ _ _ _) as [[u|e] p3]; [|exact Hp].
  destruct (response_body _ _ _); try (etrans; [exact Hp | apply IH]); exact Hp.
Qed.

Lemma response_loop_cut fuel metas vs p :
  tells_less p (response_loop arrived read_fails None fuel metas vs p) (response_loop arrived read_fails room fuel metas vs p).
Proof.
  revert metas vs p; induction fuel as [|fuel IH]; intros metas vs p; [by apply tells_same |]. cbn [response_loop].
  pose proof (header_block_out p) as Ho. destruct (read_header_block _ _ p) as [[[end_|]|e] q]; simpl in Ho; try (by apply tells_same).
  cbv zeta. destruct (parse_status _) as [status|]; [|by apply tells_same].
  destruct ((100 <=? status) && _ && _).
  { apply (tells_from q); [done |]. apply (tells_bind q vs _ _ _ _ (cut_write _ _)); [|intros; apply response_loop_grows].
    intros _ q1. apply (tells_from (drain end_ q1)); [done |]. apply IH. }
  destruct metas as [|meta metas]; [by apply tells_same |]. destruct (negb (m_verdict meta) && _); [by apply tells_same |].
  apply (tells_from q); [done |]. apply (tells_bind q _ _ _ _ _ (cut_write _ _)).
  2: { intros _ q1. destruct (tunnel_established meta status); [done |].
       destruct (copy_response_body _ _ _ _ _) as [[u|e] q3]; [|done].
       destruct (response_body _ _ _); try apply response_loop_grows; done. }
  intros _ q1. apply (tells_from (drain end_ q1)); [done |].
  destruct (tunnel_established meta status); [split; [apply copy_rest_cut | done] |].
  apply (tells_bind (drain end_ q1) _ _ _ _ _ (copy_response_body_cut _ _)).
  - intros _ q2. destruct (response_body _ _ _); try apply IH. by apply tells_same.
  - intros _ q2. destruct (response_body _ _ _); try apply response_loop_grows; done.
Qed.
Lemma within_front x : within room x -> front room x = x.
Proof. destruct room as [n|]; [|done]. simpl. intros Hl. by apply take_ge. Qed.

Lemma within_nil : within room [].
Proof. destruct room; simpl; [lia | done]. Qed.

Lemma cut_written {A} (p : pump) (x0 x : result http_error A * pump) :
  p_out p = [] -> cut_at room p x0 x ->
  p_out x.2 = front room (p_out x0.2) /\
  (x = x0 /\ within room (p_out x0.2) \/ x.1 = Err WriteFailed /\ ~ within room (p_out x0.2)).
Proof.
  intros Hp [_ Hx]. rewrite Hp in Hx. destruct (Hx within_nil) as [[-> Hw]|(Hf & Hw & Ho)]; [|by auto].
  split; [by rewrite within_front | by left].
Qed.

(** The request pump against the one with an unlimited sink. *)
Lemma rewrite_request_stream_cut rewrites meta_taken verdict data :
  let '(r, p, ms) := rewrite_request_stream arrived read_fails room rewrites meta_taken verdict data in
  exists r0 p0 ms0 done_ cut tunnel lost,
    pumped rewrites verdict 0 (mkPump [] data []) r0 p0 ms0 done_ cut tunnel lost /\
    ms `prefix_of` ms0 /\ p_out p = front room (p_out p0) /\
    (r = r0 /\ within room (p_out p0) \/ r = Err WriteFailed /\ ~ within room (p_out p0)).
Proof.
  unfold rewrite_request_stream.
  destruct (request_loop_cut rewrites meta_taken verdict (S (length data)) 0 (mkPump [] data [])) as [Hc Hm].
  destruct (request_loop _ _ room _ _ _ _ _ _) as [[r p] ms].
  destruct (request_loop _ _ None _ _ _ _ _ _) as [[r0 p0] ms0] eqn:E. simpl in Hc, Hm.
  apply request_loop_spec in E as (d & c & t & l & Hpd); [|unfold input; simpl; lia].
  apply cut_written in Hc as [Ho Hc]; [|done]. exists r0, p0, ms0, d, c, t, l. split_and!; try done.
  - by apply Hm, within_nil.
  - destruct Hc as [[[= -> ->] Hw]|[Hr Hw]]; [by left | by right].
Qed.

Lemma forward_response_stream_cut metas data :
  let '(r, p, vs) := forward_response_stream arrived read_fails room metas data in
  let '(r0, p0, vs0) := forward_response_stream arrived read_fails None metas data in
  vs `prefix_of` vs0 /\ p_out p = front room (p_out p0) /\
  (r = r0 /\ p = p0 /\ within room (p_out p0) \/ r = Err WriteFailed /\ ~ within room (p_out p0)) /\
  exists lost, data = p_out p0 ++ lost ++ input p0 /\ match r0 with Ok _ => lost = [] | Err e => e <> OutOfFuel end.
Proof.
  unfold forward_response_stream. destruct (response_loop_cut (S (length data)) metas [] (mkPump [] data [])) as [Hc Hm].
  destruct (response_loop _ _ room _ _ _ _) as [[r p] vs].
  destruct (response_loop _ _ None _ _ _ _) as [[r0 p0] vs0] eqn:E. simpl in Hc, Hm.
  apply response_loop_spec in E as (f & l & Hin & Hout & Hr); [|unfold input; simpl; lia].
  apply cut_written in Hc as [Ho Hc]; [|done]. split_and!; try done.
  - by apply Hm, within_nil.
  - destruct Hc as [[[= -> ->] Hw]|[Hf Hw]]; [by left | by right].
  - exists l. simpl in Hout. rewrite Hout. by split.
Qed.
End Failing.

(** ** Properties *)

Module Properties.

(** The request pump rewrites the head of every request, however the stream is
    cut into reads and whatever is pipelined: what it writes is, request by
    request, the rewritten head and the body exactly as framed (the last may be cut
    short by an error), and bytes as they came only after a CONNECT or Upgrade
    request whose tunnel the upstream accepted; of that the upstream has as much as
    it took before a write failed. It always ends. *)
Theorem every_request_head_is_rewritten arrived read_fails room rewrites meta_taken verdict data :
  let '(r, p, metas) := rewrite_request_stream arrived read_fails room rewrites meta_taken verdict data in
  exists whole_requests cut tunnel rest,
    let written := concat (went <$> whole_requests) ++ concat (went <$> cut) ++ tunnel in
    data = concat (came <$> whole_requests) ++ concat (came <$> cut) ++ tunnel ++ rest /\
    p_out p = front room written /\ (within room written \/ r = Err WriteFailed) /\
    Forall (head_rewritten rewrites) (whole_requests ++ cut) /\ Forall whole whole_requests /\
    (cut = [] \/ length cut = 1%nat /\ exists e, r = Err e) /\
    (tunnel <> [] -> exists before x, whole_requests = before ++ [x] /\
       is_tunnel_candidate (x_block x) = true /\ verdict (length before) = Some true) /\
    r <> Err OutOfFuel.
Proof.
  pose proof (rewrite_request_stream_cut arrived read_fails room rewrites meta_taken verdict data) as Hs.
  destruct (rewrite_request_stream _ _ _ _ _ _ _) as [[r p] ms].
  destruct Hs as (r0 & p0 & ms0 & d & c & t & l & [Hm Hin Hout Hh Hw Hc Ht Hf] & _ & Ho & Hr). simpl in Hout.
  exists d, c, t, (l ++ input p0). rewrite <- Hout. split_and!; try done.
  - destruct Hr as [[_ ?]|[-> _]]; auto.
  - destruct Hc as [|[? [e ->]]]; [by left | right; split; [done |]]. destruct Hr as [[-> _]|[-> _]]; eauto.
  - destruct Hr as [[-> _]|[-> _]]; done.
Qed.

(** The response pump passes the upstream's bytes on as they are: what it has
    written is the front of what it read, with nothing dropped unless it ends in
    an error; and it always ends. *)
Theorem responses_are_forwarded_verbatim arrived read_fails room metas data :
  let '(r, p, verdicts) := forward_response_stream arrived read_fails room metas data in
  exists lost, data = p_out p ++ lost /\ (r = Ok tt -> lost = input p) /\ r <> Err OutOfFuel.
Proof.
  pose proof (forward_response_stream_cut arrived read_fails room metas data) as Hs.
  destruct (forward_response_stream _ _ room _ _) as [[r p] vs].
  destruct (forward_response_stream _ _ None _ _) as [[r0 p0] vs0].
  destruct Hs as (_ & Ho & Hr & lost & Hd & Hl). destruct Hr as [(-> & -> & _)|[-> Hw]].
  - exists (lost ++ input p0). split_and!; [done | | destruct r0; [done | congruence]]. intros ->. by rewrite Hl.
  - rewrite Ho. destruct room as [n|]; [|by destruct Hw]. exists (drop n (p_out p0) ++ lost ++ input p0). split_and!; try done.
    simpl. by rewrite app_assoc, take_drop.
Qed.
End Properties.
