(* ===== verification/HttpSession.v ===== *)
(** * The two HTTP/1 pumps together (src/src/http_proxy.rs, [proxy_http1_rewriting])

    [HttpPump] describes each pump for whatever the other one tells it. Here they
    run on one connection: the metadata the response pump takes is what the
    request pump sends, and the verdicts the request pump waits for are those the
    response pump gives. A verdict is only there once it has been given, so the
    outcome is the least one the two agree on; [settle] computes it by letting
    each verdict take effect in turn, and [verdicts_agree] shows that this ends.

    Whether the response pump is still there when a request is announced depends
    on time, and is an input. *)

From S2P Require Import Prelude Bytes HttpHead HttpPump.

Open Scope Z_scope.

(** What comes from the network on both sides. *)
Record session_io : Type := mkSessionIo {
  from_client : bytes;
  from_upstream : bytes;
  client_arrived : nat -> nat;
  upstream_arrived : nat -> nat;
  client_fails : bool;
  upstream_fails : bool;
  upstream_room : option nat;
  client_room : option nat;
  response_pump_alive : nat -> bool;
}.

Definition client_to_upstream (i : session_io) (rewrites : list HeaderRewrite) (verdict : nat -> option bool)
    : result http_error unit * pump * list RequestMeta :=
  rewrite_request_stream (client_arrived i) (client_fails i) (upstream_room i) rewrites (response_pump_alive i) verdict (from_client i).

Definition upstream_to_client (i : session_io) (metas : list RequestMeta) : result http_error unit * pump * list bool :=
  forward_response_stream (upstream_arrived i) (upstream_fails i) (client_room i) metas (from_upstream i).

(** The verdict on the [k]th request, when those given are [vs]: one per request
    that asks for one, in order. *)
Fixpoint verdict_for (metas : list RequestMeta) (vs : list bool) (k : nat) : option bool :=
  match metas with
  | [] => None
  | m :: metas' =>
      if m_verdict m then
        match vs with
        | [] => None
        | v :: vs' => match k with O => Some v | S k' => verdict_for metas' vs' k' end
        end
      else match k with O => None | S k' => verdict_for metas' vs k' end
  end.

(** The verdicts given when the request pump has heard those of [verdict]. *)
Definition heard (i : session_io) (rewrites : list HeaderRewrite) (verdict : nat -> option bool) : nat -> option bool :=
  let metas := (client_to_upstream i rewrites verdict).2 in
  verdict_for metas (upstream_to_client i metas).2.

Fixpoint settle (n : nat) (i : session_io) (rewrites : list HeaderRewrite) : nat -> option bool :=
  match n with
  | O => fun _ => None
  | S n' => heard i rewrites (settle n' i rewrites)
  end.

(** No more verdicts than requests, and no more requests than bytes. *)
Definition verdicts (i : session_io) (rewrites : list HeaderRewrite) : nat -> option bool :=
  settle (S (length (from_client i))) i rewrites.

(** The result, what went to the upstream, and what went to the client. *)
Definition proxy_http1_rewriting (i : session_io) (rewrites : list HeaderRewrite)
    : result http_error unit * bytes * bytes :=
  let '(a, pa, metas) := client_to_upstream i rewrites (verdicts i rewrites) in
  let '(b, pb, _) := upstream_to_client i metas in
  (match a with Ok _ => b | Err e => Err e end, p_out pa, p_out pb).

(** ** What the upstream answered *)

Definition interim (status : Z) : bool := (100 <=? status) && (status <? 200) && negb (status =? 101).

(** [responded metas data k status]: in [data], read as the answers to requests
    with the metadata [metas], the head of the answer to the [k]th has [status].
    The answers before it are whole, and none of them made a tunnel. *)
Inductive responded : list RequestMeta -> bytes -> nat -> Z -> Prop :=
  | responded_later metas head status rest k s :
      complete head -> parse_status head = Some status -> interim status = true ->
      responded metas rest k s -> responded metas (head ++ rest) k s
  | responded_here meta metas head status rest :
      complete head -> parse_status head = Some status -> interim status = false ->
      responded (meta :: metas) (head ++ rest) 0 status
  | responded_next meta metas head status body rest k s :
      complete head -> parse_status head = Some status -> interim status = false ->
      tunnel_established meta status = false ->
      response_body head status (m_head_only meta) <> RespReadToEnd ->
      framed_response (response_body head status (m_head_only meta)) body ->
      responded metas rest k s -> responded (meta :: metas) (head ++ body ++ rest) (S k) s.

Definition verdicts_of (metas : list RequestMeta) (statuses : list Z) : list bool :=
  omap (fun x => if m_verdict x.1 then Some (tunnel_established x.1 x.2) else None) (zip metas statuses).

Section Responses.
Context (arrived : nat -> nat) (read_fails : bool).

Lemma response_loop_answers fuel metas vs p r p' vs' :
  (length (input p) < fuel)%nat ->
  response_loop arrived read_fails None fuel metas vs p = (r, p', vs') ->
  exists statuses, vs' = vs ++ verdicts_of metas statuses /\
    forall k s, statuses !! k = Some s -> responded metas (input p) k s.
Proof.
  revert metas vs p r p' vs'; induction fuel as [|fuel IH]; intros metas vs p r p' vs' Hfuel; [lia |]. cbn [response_loop write fits].
  assert (forall vs metas, exists statuses, vs = vs ++ verdicts_of metas statuses /\
    forall k s, statuses !! k = Some s -> responded metas (input p) k s) as Hnone.
  { intros vs0 ms. exists []. unfold verdicts_of. by rewrite zip_with_nil_r, app_nil_r. }
  destruct (read_header_block _ _ p) as [[[end_|]|e] p1] eqn:Hr; apply read_header_block_spec in Hr as (Ho & Hi & Hres);
    [|intros [= <- <- <-]; apply Hnone..].
  destruct Hres as [Hcomp [H4 Hend]]. cbv zeta. set (head := take end_ (p_carry p1)) in *.
  set (p2 := drain end_ (write_all head p1)).
  assert (input p = head ++ input p2) as Hi2.
  { rewrite <- Hi. unfold input, p2, head. simpl. by rewrite app_assoc, take_drop. }
  assert (length (input p2) < fuel)%nat as Hshort.
  { rewrite Hi2, length_app in Hfuel. unfold head in Hfuel. rewrite length_take in Hfuel. lia. }
  destruct (parse_status head) as [status|] eqn:Hst; [|intros [= <- <- <-]; apply Hnone].
  destruct (interim status) eqn:Hint; unfold interim in Hint; rewrite Hint.
  { intros Hl. apply IH in Hl as (sts & -> & Hs); [|done]. exists sts. split; [done |]. intros k s Hk. rewrite Hi2.
    apply (responded_later _ _ status); auto. }
  destruct metas as [|meta metas']; [intros [= <- <- <-]; apply Hnone |].
  set (vs1 := if m_verdict meta then vs ++ [tunnel_established meta status] else vs).
  assert (vs1 = vs ++ verdicts_of (meta :: metas') [status]) as Hvs1.
  { unfold vs1, verdicts_of. simpl. rewrite zip_with_nil_r. destruct (m_verdict meta); simpl; [done | by rewrite app_nil_r]. }
  assert (exists statuses, vs1 = vs ++ verdicts_of (meta :: metas') statuses /\
    forall k s, statuses !! k = Some s -> responded (meta :: metas') (input p) k s) as Hone.
  { exists [status]. split; [done |]. intros [|k] s Hk; [|done]. injection Hk as <-. rewrite Hi2. by constructor. }
  destruct (negb (m_verdict meta) && _); [intros [= <- <- <-]; exact Hone |].
  destruct (tunnel_established meta status) eqn:Htun; [unfold copy_rest; cbn [write fits]; intros [= <- <- <-]; exact Hone |].
  destruct (copy_response_body _ _ _ _ p2) as [[u|e] p3] eqn:Hc; [|intros [= <- <- <-]; exact Hone].
  apply copy_response_body_spec in Hc as (body & lost & Hb & Hob & -> & Hfr). simpl in Hb.
  assert (response_body head status (m_head_only meta) <> RespReadToEnd ->
    response_loop arrived read_fails None fuel metas' vs1 p3 = (r, p', vs') ->
    exists statuses, vs' = vs ++ verdicts_of (meta :: metas') statuses /\
      forall k s, statuses !! k = Some s -> responded (meta :: metas') (input p) k s) as Hnext.
  { intros Hne Hl. apply IH in Hl as (sts & -> & Hs); [|rewrite Hb, length_app in Hshort; lia].
    exists (status :: sts). split.
    - rewrite Hvs1, <- app_assoc. f_equal. unfold verdicts_of. simpl. rewrite zip_with_nil_r. by destruct (m_verdict meta).
    - intros [|k] s Hk; rewrite Hi2; [injection Hk as <-; by constructor |]. rewrite Hb.
      by apply (responded_next meta _ head status body); auto. }
  destruct (response_body head status (m_head_only meta)); try (by apply Hnext); intros [= <- <- <-]; exact Hone.
Qed.
End Responses.

Lemma verdict_for_status metas statuses k b :
  verdict_for metas (verdicts_of metas statuses) k = Some b ->
  exists m s, metas !! k = Some m /\ m_verdict m = true /\ statuses !! k = Some s /\ tunnel_established m s = b.
Proof.
  revert statuses k. induction metas as [|m metas IH]; intros statuses k; [done |].
  destruct statuses as [|s statuses].
  { unfold verdicts_of. simpl. destruct (m_verdict m); [done |]. destruct k as [|k]; [done |]. intros Hv.
    destruct (IH [] k) as (? & ? & ? & ? & ? & ?); [|done]. unfold verdicts_of. by rewrite zip_with_nil_r. }
  unfold verdicts_of. simpl. destruct (m_verdict m) eqn:Hm.
  - destruct k as [|k]; [intros [= <-]; by exists m, s |]. exact (IH statuses k).
  - destruct k as [|k]; [done |]. exact (IH statuses k).
Qed.

(** ** The two agree *)

(** [v'] says at least what [v] says. *)
Definition below (v v' : nat -> option bool) : Prop := forall k b, v k = Some b -> v' k = Some b.

Lemma request_loop_mono arrived fails room rewrites alive v v' fuel k p :
  below v v' ->
  (request_loop arrived fails room rewrites alive v fuel k p).2 `prefix_of`
  (request_loop arrived fails room rewrites alive v' fuel k p).2.
Proof.
  intros Hv. revert k p. induction fuel as [|fuel IH]; intros k p; [done |]. cbn [request_loop].
  destruct (read_header_block _ _ p) as [[[end_|]|e] p1]; [|done..]. cbv zeta.
  destruct (rewrite_request_head _ _) as [head|e]; [|done]. destruct (request_framing _) as [b|e]; [|done].
  destruct (alive k); [|done]. cbn [negb]. unfold sends. cbn [snd]. apply prefix_cons.
  destruct (write _ _ _) as [[u|e] p2]; [|done]. destruct (copy_request_body _ _ _ b _) as [[u'|e] p3]; [|done].
  destruct (is_tunnel_candidate _); [|apply IH]. destruct (v k) as [b'|] eqn:Hk; [|apply prefix_nil].
  rewrite (Hv k b' Hk). destruct b'; [done | apply IH].
Qed.

Lemma response_loop_nil arrived fails room fuel vs p : (response_loop arrived fails room fuel [] vs p).2 = vs.
Proof.
  revert p. induction fuel as [|fuel IH]; intros p; [done |]. cbn [response_loop].
  destruct (read_header_block _ _ p) as [[[end_|]|e] p1]; [|done..]. cbv zeta.
  destruct (parse_status _) as [status|]; [|done]. destruct ((100 <=? status) && _ && _); [|done].
  destruct (write _ _ _) as [[u|e] p2]; [apply IH | done].
Qed.

Lemma response_loop_mono arrived fails room fuel metas metas' vs p :
  metas `prefix_of` metas' ->
  (response_loop arrived fails room fuel metas vs p).2 `prefix_of` (response_loop arrived fails room fuel metas' vs p).2.
Proof.
  intros [more ->]. revert metas vs p. induction fuel as [|fuel IH]; intros metas vs p; [done |].
  destruct metas as [|meta metas]; [rewrite response_loop_nil; apply response_loop_grows |]. cbn [response_loop app].
  destruct (read_header_block _ _ p) as [[[end_|]|e] p1]; [|done..]. cbv zeta.
  destruct (parse_status _) as [status|]; [|done].
  destruct ((100 <=? status) && _ && _); [destruct (write _ _ _) as [[u|e] p2]; [apply (IH (meta :: metas)) | done] |].
  destruct (negb (m_verdict meta) && _); [done |]. destruct (write _ _ _) as [[u|e] p2]; [|done].
  destruct (tunnel_established meta status); [done |]. destruct (copy_response_body _ _ _ _ _) as [[u'|e] p3]; [|done].
  destruct (response_body _ _ _); try apply IH; done.
Qed.

Lemma responded_more metas more data k s : responded metas data k s -> responded (metas ++ more) data k s.
Proof. induction 1; simpl; [eapply responded_later | eapply responded_here | eapply responded_next]; eauto. Qed.

Lemma verdict_for_mono metas metas' vs vs' :
  metas `prefix_of` metas' -> vs `prefix_of` vs' -> below (verdict_for metas vs) (verdict_for metas' vs').
Proof.
  intros [more ->] [others ->] k b. revert vs k. induction metas as [|m metas IH]; intros vs k; [done |]. simpl.
  destruct (m_verdict m); [destruct vs as [|v vs]; [done |]; simpl |]; (destruct k as [|k]; [done | apply IH]).
Qed.

Section Agreement.
Context (i : session_io) (rewrites : list HeaderRewrite).

Lemma heard_mono v v' : below v v' -> below (heard i rewrites v) (heard i rewrites v').
Proof.
  intros Hv. assert ((client_to_upstream i rewrites v).2 `prefix_of` (client_to_upstream i rewrites v').2) as Hm
    by by apply request_loop_mono.
  apply verdict_for_mono; [exact Hm |]. by apply response_loop_mono.
Qed.

(** Only what the verdicts say matters. *)
Lemma heard_same v v' : (forall k, v k = v' k) -> forall k, heard i rewrites v k = heard i rewrites v' k.
Proof.
  intros Hv k. assert (below v v' /\ below v' v) as [H1 H2] by (split; intros j b; by rewrite Hv).
  destruct (heard i rewrites v k) as [b|] eqn:Hb; [by rewrite (heard_mono _ _ H1 k b Hb) |].
  destruct (heard i rewrites v' k) as [b|] eqn:Hb'; [|done]. by rewrite (heard_mono _ _ H2 k b Hb') in Hb.
Qed.

Lemma settle_grows n : below (settle n i rewrites) (settle (S n) i rewrites).
Proof. induction n as [|n IH]; [done |]. by apply heard_mono. Qed.

Lemma verdict_for_bound metas vs k : is_Some (verdict_for metas vs k) -> (k < length metas)%nat.
Proof.
  revert vs k. induction metas as [|m metas IH]; intros vs k; simpl; [by intros [? ?] |].
  destruct (m_verdict m); [destruct vs as [|v vs]; [by intros [? ?] |] |];
    (destruct k as [|k]; [lia | intros Hk%IH; lia]).
Qed.

(** Every request announced took bytes from the client. *)
Lemma metas_bound v : (length (client_to_upstream i rewrites v).2 <= length (from_client i))%nat.
Proof.
  pose proof (rewrite_request_stream_cut (client_arrived i) (client_fails i) (upstream_room i) rewrites
    (response_pump_alive i) v (from_client i)) as Hs. unfold client_to_upstream.
  destruct (rewrite_request_stream _ _ _ _ _ _ _) as [[r p] ms].
  destruct Hs as (r0 & p0 & ms0 & d & c & t & l & [-> Hin _ Hh _ _ _ _] & Hm & _). apply prefix_length in Hm.
  assert (length (d ++ c) <= length (concat (came <$> (d ++ c))))%nat as Hle.
  { revert Hh. generalize (d ++ c) as xs. induction 1 as [|x xs [[H4 _] _] _ IH]; [done |]. assert (4 <= length (came x))%nat by (unfold came; rewrite length_app; lia).
    cbn [fmap list_fmap concat length]. rewrite length_app. lia. }
  simpl. rewrite length_fmap in Hm. unfold input in Hin. simpl in Hin. rewrite Hin, app_assoc, <- concat_app, <- fmap_app.
  rewrite (length_app (concat _)). lia.
Qed.

Lemma settle_bound n k : is_Some (settle n i rewrites k) -> (k < length (from_client i))%nat.
Proof.
  destruct n as [|n]; [by intros [? ?] |]. intros Hk. cbn [settle] in Hk. unfold heard in Hk. cbv zeta in Hk.
  apply verdict_for_bound in Hk. pose proof (metas_bound (settle n i rewrites)). lia.
Qed.

(** How many verdicts there are. *)
Definition given (v : nat -> option bool) : nat :=
  length (List.filter (fun k => bool_decide (is_Some (v k))) (seq 0 (length (from_client i)))).

Lemma given_below v v' l :
  below v v' ->
  let count u := length (List.filter (fun k : nat => bool_decide (is_Some (u k))) l) in
  (count v <= count v')%nat /\ (count v' <= count v -> Forall (fun k => v' k = v k) l)%nat.
Proof.
  intros Hv. cbv zeta. induction l as [|k l [IH1 IH2]]; [split; [done | by constructor] |]. simpl.
  destruct (v k) as [b|] eqn:Hk.
  - rewrite (Hv k b Hk). rewrite !bool_decide_eq_true_2 by done. simpl. split; [lia |]. intros Hle. constructor; [by rewrite Hk, (Hv k b Hk) |].
    apply IH2. lia.
  - rewrite (bool_decide_eq_false_2 (is_Some None)) by (by intros [? ?]).
    destruct (v' k) as [b'|] eqn:Hk'.
    + rewrite bool_decide_eq_true_2 by done. simpl. split; [lia |]. intros Hle. lia.
    + rewrite bool_decide_eq_false_2 by (by intros [? ?]). split; [done |]. intros Hle. constructor; [by rewrite Hk, Hk' | by apply IH2].
Qed.

Lemma settle_progress n : (n <= given (settle n i rewrites))%nat \/ forall k, settle (S n) i rewrites k = settle n i rewrites k.
Proof.
  induction n as [|n [IH|IH]].
  - left. lia.
  - destruct (given_below _ _ (seq 0 (length (from_client i))) (settle_grows n)) as [Hle Heq].
    destruct (decide (given (settle (S n) i rewrites) <= given (settle n i rewrites))%nat) as [Hsame|]; [|left; lia].
    right. intros k. specialize (Heq Hsame). assert (forall k, settle (S n) i rewrites k = settle n i rewrites k) as Hall.
    { intros j. destruct (decide (j < length (from_client i))%nat) as [Hj|Hj].
      - rewrite Forall_forall in Heq. apply Heq, in_seq. lia.
      - destruct (settle (S n) i rewrites j) as [b|] eqn:Hb; [destruct Hj; apply (settle_bound (S n)); by rewrite Hb |].
        destruct (settle n i rewrites j) as [b|] eqn:Hb'; [|done]. by rewrite (settle_grows n j b Hb') in Hb. }
    by apply heard_same.
  - right. intros k. by apply heard_same.
Qed.

(** The verdicts the request pump acted on are those the response pump gave for
    the requests it was told of. *)
Lemma verdicts_agree k : heard i rewrites (verdicts i rewrites) k = verdicts i rewrites k.
Proof.
  unfold verdicts. destruct (settle_progress (S (length (from_client i)))) as [Hn|Hs]; [|exact (Hs k)].
  pose proof (List.filter_length_le (fun k => bool_decide (is_Some (settle (S (length (from_client i))) i rewrites k)))
    (seq 0 (length (from_client i)))) as Hle. rewrite length_seq in Hle. unfold given in Hn. lia.
Qed.

Lemma granted_by_upstream k :
  verdicts i rewrites k = Some true ->
  let metas := (client_to_upstream i rewrites (verdicts i rewrites)).2 in
  exists m status, metas !! k = Some m /\ m_verdict m = true /\ tunnel_established m status = true /\
    responded metas (from_upstream i) k status.
Proof.
  intros Hk metas. rewrite <- verdicts_agree in Hk. unfold heard in Hk. cbv zeta in Hk. fold metas in Hk. clearbody metas.
  pose proof (forward_response_stream_cut (upstream_arrived i) (upstream_fails i) (client_room i) metas (from_upstream i)) as Hc.
  unfold upstream_to_client in Hk. destruct (forward_response_stream _ _ (client_room i) _ _) as [[r1 p1] vs1].
  destruct (forward_response_stream _ _ None _ _) as [[r p] vs] eqn:E. destruct Hc as [Hp _].
  apply (verdict_for_mono metas metas vs1 vs (reflexivity _) Hp) in Hk. unfold forward_response_stream in E.
  apply response_loop_answers in E as (sts & -> & Hs); [|unfold input; simpl; lia].
  apply verdict_for_status in Hk as (m & s & Hm & Hv & Hst & Ht). exists m, s. split_and!; try done. by apply (Hs k s).
Qed.
End Agreement.

Lemma meta_granted block status :
  tunnel_established (meta_of block) status = true ->
  is_connect block = true /\ 200 <= status < 300 \/ is_connect block = false /\ is_upgrade block = true /\ status = 101.
Proof.
  unfold tunnel_established, meta_of, is_tunnel_candidate. simpl.
  destruct (is_connect block), (is_upgrade block); simpl; rewrite ?andb_false_r, ?orb_false_r; try done; intros Hs.
  - left. split; [done |]. lia.
  - left. split; [done |]. lia.
  - right. split_and!; try done. lia.
Qed.

Module Properties.

(** C3: On a connection whose headers symphony owns, the client cannot get past the
    rewriting without the upstream's consent. However both streams are cut into
    reads, whatever is pipelined and wherever a read or a write fails, what reaches
    the upstream is request by request the rewritten head and the body as framed
    (the last may be cut short by an error), as far as its socket took it; bytes
    are passed on as they came only after a CONNECT or Upgrade request, and only if
    the upstream's own answer to that very request, counted in its stream past
    interim responses and past the whole answers to the requests before it, has a
    status of 2xx or 101. What the client receives is the front of what the
    upstream sent. The session always ends. *)
Theorem tunnels_are_granted_by_the_upstream i rewrites :
  let '(r, to_upstream, to_client) := proxy_http1_rewriting i rewrites in
  exists whole_requests cut tunnel rest unread,
    let written := concat (went <$> whole_requests) ++ concat (went <$> cut) ++ tunnel in
    from_client i = concat (came <$> whole_requests) ++ concat (came <$> cut) ++ tunnel ++ rest /\
    to_upstream = front (upstream_room i) written /\ (within (upstream_room i) written \/ r = Err WriteFailed) /\
    Forall (head_rewritten rewrites) (whole_requests ++ cut) /\ Forall whole whole_requests /\
    (cut = [] \/ length cut = 1%nat /\ exists e, r = Err e) /\
    (tunnel <> [] -> exists before x status, whole_requests = before ++ [x] /\
       responded ((fun x => meta_of (x_block x)) <$> (whole_requests ++ cut)) (from_upstream i) (length before) status /\
       (is_connect (x_block x) = true /\ 200 <= status < 300 \/
        is_connect (x_block x) = false /\ is_upgrade (x_block x) = true /\ status = 101)) /\
    from_upstream i = to_client ++ unread /\ r <> Err OutOfFuel.
Proof.
  unfold proxy_http1_rewriting. pose proof (granted_by_upstream i rewrites) as Hgrant.
  pose proof (rewrite_request_stream_cut (client_arrived i) (client_fails i) (upstream_room i) rewrites
    (response_pump_alive i) (verdicts i rewrites) (from_client i)) as Hs.
  unfold client_to_upstream in *. destruct (rewrite_request_stream _ _ _ _ _ _ _) as [[a pa] metas]. cbn [snd] in Hgrant.
  pose proof (forward_response_stream_cut (upstream_arrived i) (upstream_fails i) (client_room i) metas (from_upstream i)) as Hb.
  unfold upstream_to_client. destruct (forward_response_stream _ _ (client_room i) _ _) as [[b pb] vs].
  destruct (forward_response_stream _ _ None _ _) as [[b0 pb0] vs0]. destruct Hb as (_ & Hout' & Hb & lost & Hfwd & Hlost).
  destruct Hs as (r0 & p0 & ms0 & d & c & t & l & [-> Hin Hout Hh Hw Hc Ht Hf] & [more Hm] & Ho & Hr). simpl in Hout.
  assert (exists unread, from_upstream i = p_out pb ++ unread) as [unread Hun].
  { rewrite Hout', Hfwd. destruct (client_room i) as [n|]; simpl; [|by eexists]. exists (drop n (p_out pb0) ++ lost ++ input pb0).
    by rewrite (app_assoc (take n _)), take_drop. }
  exists d, c, t, (l ++ input p0), unread. rewrite <- Hout. split_and!; try done.
  - destruct Hr as [[_ ?]|[-> _]]; auto.
  - destruct Hc as [|[? [e ->]]]; [by left | right; split; [done |]]. destruct Hr as [[-> _]|[-> _]]; eauto.
  - intros Hne. destruct (Ht Hne) as (before & x & -> & Hx & Hv). simpl in Hv.
    destruct (Hgrant _ Hv) as (m & status & Hmk & _ & Htun & Hresp). exists before, x, status. rewrite Hm.
    split_and!; [done | by apply responded_more |]. apply (lookup_app_l_Some _ more) in Hmk. rewrite <- Hm in Hmk.
    rewrite <- app_assoc, fmap_app, lookup_app_r in Hmk by (by rewrite length_fmap).
    rewrite length_fmap, Nat.sub_diag in Hmk. injection Hmk as <-. by apply meta_granted.
  - destruct Hr as [[-> _]|[-> _]]; [|done]. destruct r0 as [u|e]; [|intros [= ->]; by apply Hf].
    destruct Hb as [(-> & _)|[-> _]]; [|done]. destruct b0; [done |]. by intros [= ->].
Qed.
End Properties.

Example refused_upgrade_is_not_a_tunnel :
  (proxy_http1_rewriting
     (mkSessionIo (upgrade_request ++ spoofed) (encode_head (bs "HTTP/1.1 403 Forbidden") [bs "Content-Length: 0"])
        by_three by_three false false None None (fun _ => true)) xff_rewrite).1.2 =
  encode_head (bs "GET /ws HTTP/1.1") [bs "X-Forwarded-For: 1.2.3.4"; bs "Connection: Upgrade"; bs "Upgrade: websocket"] ++
  encode_head (bs "GET /a HTTP/1.1") [bs "X-Forwarded-For: 1.2.3.4"].
Proof. by vm_compute. Qed.

Example granted_upgrade_is_a_tunnel :
  (proxy_http1_rewriting
     (mkSessionIo (upgrade_request ++ bs "frames") (encode_head (bs "HTTP/1.1 101 Switching") [])
        by_three by_three false false None None (fun _ => true)) xff_rewrite).1.2 =
  encode_head (bs "GET /ws HTTP/1.1") [bs "X-Forwarded-For: 1.2.3.4"; bs "Connection: Upgrade"; bs "Upgrade: websocket"] ++
  bs "frames".
Proof. by vm_compute. Qed.

(** The upstream's socket takes 20 bytes and fails. *)
Example a_failing_write_ends_the_session :
  (proxy_http1_rewriting
     (mkSessionIo (spoofed ++ spoofed) [] by_three by_three false false (Some 20%nat) None (fun _ => true)) xff_rewrite).1 =
  (Err WriteFailed, take 20 (encode_head (bs "GET /a HTTP/1.1") [bs "X-Forwarded-For: 1.2.3.4"])).
Proof. by vm_compute. Qed.
