(* ===== verification/Background.v ===== *)
(** * The background tasks (src/src/failover.rs, src/src/router.rs)

    - [probe_periodically]: collecting what is due, clearing the refusals of what
      answered, and reporting each route's health to the application.
    - [poll_peer_loads]: which peers are asked for their load and when, and what
      their answers change.
    - [evict_affinity_periodically]: the sweep over a table's balancers.

    The tasks are the operations they perform, in the order of their loops; what
    connections and reloads do between two of them is an operation of its own that
    may change the shared state in any way those can. Sleeping is not modelled:
    when an operation happens is its argument. *)

From S2P Require Import Prelude Bytes Float64 Net ProxyProtocol Balancer Failover Router.

Open Scope Z_scope.

Definition MAX_PROBE_TICK : Z := 1000000000.
Definition MAX_CONCURRENT_PROBES : nat := 64.
Definition MIN_LOAD_POLL : Z := 100000000.
Definition CONTROL_TICK : Z := 250000000.

(** [iter.min()] *)
Definition least (l : list Z) : option Z := match l with [] => None | x :: l' => Some (foldl Z.min x l') end.

(** ** The probe task *)

Definition probe_tick (routes : list FailoverRoute) : Z :=
  Z.min (default MAX_PROBE_TICK (least ((fun r => fo_probe_interval (fr_failover r)) <$> routes))) MAX_PROBE_TICK.

Definition status_cell (r : FailoverRoute) : nat := fo_status (fr_failover r).

(** One route of the reporting loop, with the events taken so far (route, up). *)
Definition report_route (sh : shared) (queued : FailoverRoute -> bool) (acc : fleet * list (FailoverRoute * bool))
    (r : FailoverRoute) : fleet * list (FailoverRoute * bool) :=
  let '(fl, events) := acc in
  let s := status_at fl (status_cell r) in
  let '(reported, event) := report_health (reported_down s) (route_locally_down sh r) (queued r) in
  (put_status fl (status_cell r) (mkStatus reported (last_probe_ns s) (replays s) (exhausted s) (local_fallbacks s)),
   events ++ match event with Some up => [(r, up)] | None => [] end).

Definition report_all (sh : shared) (queued : FailoverRoute -> bool) (fl : fleet) (routes : list FailoverRoute)
    : fleet * list (FailoverRoute * bool) := foldl (report_route sh queued) (fl, []) routes.

Record prober : Type := mkProber {
  pb_fleet : fleet;
  pb_shared : shared;
  pb_due : list (Endpoint * nat * Z);
  pb_events : list (FailoverRoute * bool);
}.

(** The start of a pass; its end, on the table that is live then; and anything
    else, which never writes what was reported. *)
Inductive probe_op : Type :=
  | PbStart (routes : list FailoverRoute) (now : Z)
  | PbFinish (alive : Endpoint -> bool) (routes : list FailoverRoute) (queued : FailoverRoute -> bool)
  | PbOther (fl : fleet) (sh : shared).

Definition probe_step (s : prober) (o : probe_op) : prober :=
  match o with
  | PbStart routes now =>
      let '(fl, due) := probe_due (pb_fleet s) (pb_shared s) routes now in mkProber fl (pb_shared s) due (pb_events s)
  | PbFinish alive routes queued =>
      let sh := probe_apply alive (pb_shared s) (pb_due s) in
      let '(fl, events) := report_all sh queued (pb_fleet s) routes in mkProber fl sh [] (pb_events s ++ events)
  | PbOther fl sh => mkProber fl sh (pb_due s) (pb_events s)
  end.

(** ** The load poll *)

#[global] Instance SocketAddr_countable : Countable SocketAddr.
Proof.
  apply (inj_countable' (fun a => (sa_ip a, sa_port a)) (fun p => mkSocketAddr p.1 p.2)). by intros [].
Defined.

Record poller : Type := mkPoller {
  in_flight : gmap nat SocketAddr;
  last_query : gmap SocketAddr Z;
  next_task : nat;
}.
Definition poller_new : poller := mkPoller ∅ ∅ 0.

Definition spills (r : FailoverRoute) : bool := bool_decide (is_Some (fo_spill (fr_failover r))).

Definition next_poll (routes : list FailoverRoute) : Z :=
  default MAX_PROBE_TICK
    (least ((fun r => Z.min (Z.max (fo_probe_interval (fr_failover r)) MIN_LOAD_POLL) CONTROL_TICK) <$> routes)).

Definition addresses (fl : fleet) (r : FailoverRoute) : list SocketAddr :=
  (fun p => fp_addr (peer_at fl p)) <$> fo_peers (fr_failover r).

(** [due.entry(addr).or_insert((vec![], interval))], and the route added to it *)
Definition add_due (name : bytes) (interval : Z) (due : gmap SocketAddr (list bytes * Z)) (addr : SocketAddr)
    : gmap SocketAddr (list bytes * Z) :=
  let '(names, least_) := default ([], interval) (due !! addr) in
  <[addr := (names ++ [name], Z.min least_ interval)]> due.

Definition add_route (fl : fleet) (due : gmap SocketAddr (list bytes * Z)) (r : FailoverRoute)
    : gmap SocketAddr (list bytes * Z) :=
  foldl (add_due (fr_route r) (Z.max (fo_probe_interval (fr_failover r)) MIN_LOAD_POLL)) due (addresses fl r).

Definition due_queries (fl : fleet) (routes : list FailoverRoute) : gmap SocketAddr (list bytes * Z) :=
  foldl (add_route fl) ∅ routes.

Definition query : Type := nat * SocketAddr * list bytes.

Definition try_query (now : Z) (acc : poller * list query) (d : SocketAddr * (list bytes * Z)) : poller * list query :=
  let '(s, started) := acc in
  let '(addr, (names, interval)) := d in
  if (MAX_CONCURRENT_PROBES <=? size (in_flight s))%nat
     || existsb (fun e => bool_decide (e.2 = addr)) (map_to_list (in_flight s))
     || (saturating_sub now (default 0 (last_query s !! addr)) <? interval - interval / 10)
  then (s, started)
  else (mkPoller (<[next_task s := addr]> (in_flight s)) (<[addr := now]> (last_query s)) (S (next_task s)),
        started ++ [(next_task s, addr, names)]).

Definition retain_peers (fl : fleet) (routes : list FailoverRoute) (s : poller) : poller :=
  mkPoller (in_flight s)
    (filter (fun e => existsb (fun r => bool_decide (e.1 ∈ addresses fl r)) routes = true) (last_query s)) (next_task s).

(** A tick, for one order of the map that is iterated. *)
Definition poll_tick (now : Z) (fl : fleet) (routes : list FailoverRoute)
    (order : list (SocketAddr * (list bytes * Z))) (s : poller) : poller * list query :=
  let '(s', started) := foldl (try_query now) (s, []) order in (retain_peers fl routes s', started).

Record polling : Type := mkPolling { pg_poller : poller; pg_fleet : fleet }.

(** A tick; a query that ended, with its answer, or whose task failed; and what
    others do to the peers' state. *)
Inductive poll_op : Type :=
  | PlTick (now : Z) (routes : list FailoverRoute) (order : list (SocketAddr * (list bytes * Z)))
      (load : FailoverRoute -> option (Z * Z))
  | PlDone (id : nat) (done_ : option (SocketAddr * list bytes * option LoadAnswer)) (routes : list FailoverRoute)
      (now : Z) (load : FailoverRoute -> option (Z * Z))
  | PlOther (fl : fleet).

Definition poll_step (s : polling) (o : poll_op) : polling * list query :=
  match o with
  | PlTick now table order load =>
      let routes := List.filter spills table in
      let '(p, started) := poll_tick now (pg_fleet s) routes order (pg_poller s) in
      (mkPolling p (control_all (pg_fleet s) load now table), started)
  | PlDone id done_ table now load =>
      let p := mkPoller (delete id (in_flight (pg_poller s))) (last_query (pg_poller s)) (next_task (pg_poller s)) in
      let fl := match done_ with
                | Some (addr, names, answer) => apply_answer (pg_fleet s) table addr names answer
                | None => pg_fleet s
                end in
      (mkPolling p (control_all fl load now table), [])
  | PlOther fl => (mkPolling (pg_poller s) fl, [])
  end.

(** ** The affinity sweep *)

Definition evict_affinity_pass (now : Z) (balancers : list UdsBalancer) : list UdsBalancer :=
  (fun b => evict_affinity b now) <$> balancers.

(** ** What the application hears *)

Inductive probed : prober -> Prop :=
  | probed_boot fl sh : (forall c, reported_down (status_at fl c) = false) -> probed (mkProber fl sh [] [])
  | probed_step s o :
      probed s ->
      (forall fl sh, o = PbOther fl sh -> forall c, reported_down (status_at fl c) = reported_down (status_at (pb_fleet s) c)) ->
      probed (probe_step s o).

Definition ups (c : nat) (events : list (FailoverRoute * bool)) : list bool :=
  snd <$> List.filter (fun e => (status_cell e.1 =? c)%nat) events.

(** An application that holds a route down or up takes only the opposite. *)
Definition hear (down : option bool) (up : bool) : option bool :=
  match down with Some d => if Bool.eqb up d then Some (negb up) else None | None => None end.

Lemma ups_app c es es' : ups c (es ++ es') = ups c es ++ ups c es'.
Proof. unfold ups. by rewrite List.filter_app, fmap_app. Qed.

Lemma status_at_put fl c s d : status_at (put_status fl c s) d = if decide (c = d) then s else status_at fl d.
Proof.
  unfold status_at, put_status. simpl. case_decide as Hd; [subst; by rewrite lookup_insert_eq | by rewrite lookup_insert_ne].
Qed.

Lemma report_route_heard sh queued fl es r c :
  foldl hear (Some false) (ups c es) = Some (reported_down (status_at fl c)) ->
  let '(fl', es') := report_route sh queued (fl, es) r in
  foldl hear (Some false) (ups c es') = Some (reported_down (status_at fl' c)).
Proof.
  intros Hh. unfold report_route, report_health. destruct (reported_down (status_at fl (status_cell r))) eqn:Hr,
    (route_locally_down sh r), (queued r); simpl; rewrite status_at_put, ups_app, foldl_app, Hh;
    unfold ups; simpl; (case_decide as Hd; [subst c | rewrite ?(proj2 (Nat.eqb_neq _ _) Hd)]); simpl; rewrite ?Nat.eqb_refl;
    simpl; by rewrite ?Hr.
Qed.

Lemma report_all_heard sh queued fl es routes c :
  foldl hear (Some false) (ups c es) = Some (reported_down (status_at fl c)) ->
  let '(fl', es') := foldl (report_route sh queued) (fl, es) routes in
  foldl hear (Some false) (ups c es') = Some (reported_down (status_at fl' c)).
Proof.
  revert fl es. induction routes as [|r routes IH]; intros fl es Hh; [exact Hh |]. cbn [foldl].
  pose proof (report_route_heard sh queued fl es r c Hh) as Hs. destruct (report_route sh queued (fl, es) r) as [fl1 es1].
  by apply IH.
Qed.

(** Events only grow, so a pass's own can be taken apart from the earlier ones. *)
Lemma report_all_events sh queued fl es routes :
  foldl (report_route sh queued) (fl, es) routes =
  ((report_all sh queued fl routes).1, es ++ (report_all sh queued fl routes).2).
Proof.
  unfold report_all. revert fl es. induction routes as [|r routes IH]; intros fl es; simpl; [by rewrite app_nil_r |].
  destruct (report_health _ _ _) as [reported event]. simpl. set (e := match event with Some up => _ | None => _ end).
  rewrite (IH _ (es ++ e)), (IH _ e). simpl. by rewrite app_assoc.
Qed.

Lemma probe_due_reported fl sh routes now c :
  reported_down (status_at (probe_due fl sh routes now).1 c) = reported_down (status_at fl c).
Proof.
  unfold probe_due. generalize (@nil (Endpoint * nat * Z)) as due. revert fl.
  induction routes as [|r routes IH]; intros fl due; [done |]. cbn [foldl]. unfold probe_route at 2. cbv zeta.
  destruct (_ <? _); [apply IH |]. destruct (route_targets sh r) as [|t ts]; [apply IH |]. rewrite IH, status_at_put.
  case_decide as Hd; [by subst | done].
Qed.

Lemma probe_due_seen fl sh routes now : Forall (fun t => t.2 <> 0) (probe_due fl sh routes now).2.
Proof.
  unfold probe_due. assert (Forall (fun t : Endpoint * nat * Z => t.2 <> 0) []) as Hd by constructor. revert Hd.
  generalize (@nil (Endpoint * nat * Z)) as due. revert fl.
  assert (forall fo d, Forall (fun t : Endpoint * nat * Z => t.2 <> 0) (probe_targets sh fo d)) as Ht.
  { intros fo d. apply Forall_forall. intros t [_ Ht]%List.filter_In. by apply negb_true_iff, Z.eqb_neq in Ht. }
  induction routes as [|r routes IH]; intros fl due Hdue; [done |]. cbn [foldl]. unfold probe_route at 2. cbv zeta.
  destruct (_ <? _); [by apply IH |]. destruct (route_targets sh r) as [|t ts] eqn:Hts; [by apply IH |]. apply IH.
  apply Forall_app. split; [done |]. rewrite <- Hts. unfold route_targets. apply Forall_app.
  split; [done |]. destruct (fr_destination_h2 r); [done | constructor].
Qed.

Lemma probed_ok s :
  probed s -> Forall (fun t => t.2 <> 0) (pb_due s) /\
  forall c, foldl hear (Some false) (ups c (pb_events s)) = Some (reported_down (status_at (pb_fleet s) c)).
Proof.
  induction 1 as [fl sh Hb|s o Hs [IHd IH] Ho]; [split; [constructor |]; intros c; simpl; by rewrite Hb |].
  destruct o as [routes now|alive routes queued|fl sh]; simpl.
  - pose proof (probe_due_reported (pb_fleet s) (pb_shared s) routes now) as Hr.
    pose proof (probe_due_seen (pb_fleet s) (pb_shared s) routes now) as Hd.
    destruct (probe_due _ _ _ _) as [fl due]. simpl in *. split; [done |]. intros c. by rewrite IH, Hr.
  - destruct (report_all _ queued (pb_fleet s) routes) as [fl es] eqn:E. simpl. split; [constructor |]. intros c.
    pose proof (report_all_heard (probe_apply alive (pb_shared s) (pb_due s)) queued _ _ routes c (IH c)) as Hh.
    by rewrite report_all_events, E in Hh.
  - split; [done |]. intros c. rewrite IH. f_equal. symmetry. by apply (Ho fl sh).
Qed.

Lemma report_all_others sh queued fl routes c :
  c ∉ status_cell <$> routes -> reported_down (status_at (report_all sh queued fl routes).1 c) = reported_down (status_at fl c).
Proof.
  unfold report_all. generalize (@nil (FailoverRoute * bool)) as es. revert fl.
  induction routes as [|r routes IH]; intros fl es Hc; [done |]. cbn [foldl fmap list_fmap] in *.
  apply not_elem_of_cons in Hc as [Hne Hc]. unfold report_route at 2. cbv zeta. destruct (report_health _ _ _) as [rep ev].
  rewrite IH by done. rewrite status_at_put. by case_decide.
Qed.

Lemma report_all_current sh queued fl routes r :
  NoDup (status_cell <$> routes) -> r ∈ routes -> queued r = true ->
  reported_down (status_at (report_all sh queued fl routes).1 (status_cell r)) = route_locally_down sh r.
Proof.
  unfold report_all. generalize (@nil (FailoverRoute * bool)) as es. revert fl.
  induction routes as [|x routes IH]; intros fl es Hnd Hr Hq; [by apply elem_of_nil in Hr |].
  cbn [foldl fmap list_fmap] in *. apply list.NoDup_cons in Hnd as [Hx Hnd].
  unfold report_route at 2. cbv zeta. destruct (report_health _ _ _) as [rep ev] eqn:Hrep.
  rewrite report_all_events. simpl. apply elem_of_cons in Hr as [->|Hr].
  - rewrite report_all_others, status_at_put by done. rewrite decide_True by done. simpl.
    unfold report_health in Hrep. rewrite Hq in Hrep. destruct (Bool.eqb _ _) eqn:He; [|by injection Hrep].
    injection Hrep as <- _. by apply eqb_prop.
  - specialize (IH (put_status fl (status_cell x) (mkStatus rep (last_probe_ns (status_at fl (status_cell x)))
      (replays (status_at fl (status_cell x))) (exhausted (status_at fl (status_cell x)))
      (local_fallbacks (status_at fl (status_cell x))))) [] Hnd Hr Hq). exact IH.
Qed.

(** The refusals a pass clears: those it saw at the start, still the last ones,
    of what has now stayed open. *)
Definition clears (alive : Endpoint -> bool) (sh : shared) (h : nat) (t : Endpoint * nat * Z) : bool :=
  alive t.1.1 && (t.1.2 =? h)%nat && (t.2 =? refused_at sh h).

Lemma probe_apply_spec alive sh due h :
  Forall (fun t => t.2 <> 0) due ->
  refused_at (probe_apply alive sh due) h = if existsb (clears alive sh h) due then 0 else refused_at sh h.
Proof.
  unfold probe_apply. revert sh. induction due as [|[[e c] seen] due IH]; intros sh Hd; [done |].
  apply Forall_cons_iff in Hd as [Hs Hd]. cbn [foldl existsb fst snd]. simpl in Hs. rewrite IH by done. unfold clears at 2. simpl.
  destruct (alive e); [|done]. simpl. unfold clear_if_unchanged.
  destruct (Z.eqb_spec (refused_at sh c) seen) as [Heq|Hne]; simpl.
  - assert (forall d, refused_at (set_health sh c 0) d = if decide (c = d) then 0 else refused_at sh d) as Hset.
    { intros d. unfold refused_at, set_health. simpl. case_decide as Hc; [subst; by rewrite lookup_insert_eq | by rewrite lookup_insert_ne]. }
    destruct (Nat.eqb_spec c h) as [->|Hc]; simpl.
    + rewrite Heq, Z.eqb_refl. simpl. rewrite Hset, decide_True by done. by destruct (existsb _ _).
    + assert (refused_at (set_health sh c 0) h = refused_at sh h) as Hh by (rewrite Hset; by case_decide).
      rewrite Hh. replace (existsb (clears alive (set_health sh c 0) h) due) with (existsb (clears alive sh h) due); [done |].
      clear - Hh. induction due as [|t due IHd]; [done |]. cbn [existsb]. rewrite IHd. unfold clears at 1 3. by rewrite Hh.
  - destruct (Nat.eqb_spec c h) as [->|]; [|done]. simpl. destruct (Z.eqb_spec seen (refused_at sh h)) as [->|]; [done | done].
Qed.

(** ** The queries under way *)

Definition addresses_distinct (m : gmap nat SocketAddr) : Prop :=
  forall id id' a, m !! id = Some a -> m !! id' = Some a -> id = id'.

Record poller_ok (s : poller) : Prop := {
  pk_room : (size (in_flight s) <= MAX_CONCURRENT_PROBES)%nat;
  pk_distinct : addresses_distinct (in_flight s);
  pk_fresh : forall id, (next_task s <= id)%nat -> in_flight s !! id = None;
}.

Lemma not_in_flight (m : gmap nat SocketAddr) addr :
  existsb (fun e => bool_decide (e.2 = addr)) (map_to_list m) = false -> forall id, m !! id <> Some addr.
Proof.
  intros Hf id Hid. apply not_true_iff_false in Hf. apply Hf. apply existsb_exists. exists (id, addr).
  split; [by apply list_elem_of_In, elem_of_map_to_list | by apply bool_decide_eq_true].
Qed.

Lemma try_query_ok now s started d :
  poller_ok s -> let '(s', started') := try_query now (s, started) d in poller_ok s'.
Proof.
  intros [Hroom Hd Hf]. unfold try_query. destruct d as [addr [names interval]].
  destruct ((MAX_CONCURRENT_PROBES <=? size (in_flight s))%nat || _) eqn:H1; [done |]. simpl.
  destruct (saturating_sub _ _ <? _); [done |]. apply orb_false_iff in H1 as [H1 H2]. apply Nat.leb_gt in H1.
  pose proof (not_in_flight _ _ H2) as Hno. split; simpl.
  - rewrite map_size_insert_None by (apply Hf; lia). lia.
  - intros id id' a Ha Ha'. destruct (decide (next_task s = id)) as [<-|], (decide (next_task s = id')) as [<-|]; [done | | |].
    + rewrite lookup_insert_eq in Ha. rewrite lookup_insert_ne in Ha' by done. injection Ha as <-. by apply Hno in Ha'.
    + rewrite lookup_insert_eq in Ha'. rewrite lookup_insert_ne in Ha by done. injection Ha' as <-. by apply Hno in Ha.
    + rewrite lookup_insert_ne in Ha, Ha' by done. by apply (Hd id id' a).
  - intros id Hid. rewrite lookup_insert_ne by lia. apply Hf. lia.
Qed.

Definition poll_run (s : polling) (ops : list poll_op) : polling := foldl (fun s o => (poll_step s o).1) s ops.

Lemma tick_ok now order s : poller_ok s -> poller_ok (foldl (try_query now) (s, []) order).1.
Proof.
  generalize (@nil query) as started. revert s. induction order as [|d order IH]; intros s started Hs; [done |].
  cbn [foldl]. pose proof (try_query_ok now s started d Hs) as Hs1. destruct (try_query now (s, started) d) as [s1 st1].
  by apply IH.
Qed.

Lemma poll_step_ok s o : poller_ok (pg_poller s) -> poller_ok (pg_poller (poll_step s o).1).
Proof.
  intros Hs. destruct o as [now routes order load|id done_ routes now load|fl]; simpl; [| |done].
  - pose proof (tick_ok now order _ Hs) as Ht. unfold poll_tick. destruct (foldl (try_query now) _ order) as [s' started].
    simpl in *. by destruct Ht.
  - destruct Hs as [Hroom Hd Hf]. split; simpl.
    + rewrite map_size_delete. destruct (in_flight (pg_poller s) !! id); simpl; lia.
    + intros i j a [_ Hi]%lookup_delete_Some [_ Hj]%lookup_delete_Some. by apply (Hd i j a).
    + intros i Hi. apply lookup_delete_None. right. by apply Hf.
Qed.

Lemma poll_run_ok s ops : poller_ok (pg_poller s) -> poller_ok (pg_poller (poll_run s ops)).
Proof. revert s. induction ops as [|o ops IH]; intros s Hs; [done |]. simpl. by apply IH, poll_step_ok. Qed.

(** ** How often a peer is asked *)

Definition is_polled (fl : fleet) (routes : list FailoverRoute) (addr : SocketAddr) : bool :=
  existsb (fun r => bool_decide (addr ∈ addresses fl r)) routes.

Definition due_ok (fl : fleet) (routes : list FailoverRoute) (due : gmap SocketAddr (list bytes * Z)) : Prop :=
  forall addr d, due !! addr = Some d -> MIN_LOAD_POLL <= d.2 /\ is_polled fl routes addr = true.

Lemma add_due_ok fl routes name interval due addr :
  MIN_LOAD_POLL <= interval -> is_polled fl routes addr = true -> due_ok fl routes due ->
  due_ok fl routes (add_due name interval due addr).
Proof.
  intros Hi Ha Hd a d. unfold add_due. destruct (default ([], interval) (due !! addr)) as [names m] eqn:E.
  destruct (decide (addr = a)) as [<-|]; [|rewrite lookup_insert_ne by done; apply Hd]. rewrite lookup_insert_eq. intros [= <-].
  split; [|done]. simpl. destruct (due !! addr) as [x|] eqn:Hx; simpl in E; [|injection E as <- <-; lia].
  destruct (Hd addr x Hx) as [Hm _]. subst x. simpl in Hm. lia.
Qed.

Lemma due_fold_ok fl routes todo due :
  (forall r, r ∈ todo -> r ∈ routes) -> due_ok fl routes due -> due_ok fl routes (foldl (add_route fl) due todo).
Proof.
  revert due. induction todo as [|r todo IH]; intros due Hin Hd; [done |]. cbn [foldl].
  apply IH; [intros x Hx; apply Hin; apply elem_of_cons; by right |].
  assert (forall a, a ∈ addresses fl r -> is_polled fl routes a = true) as Hpolled.
  { intros a Ha. apply existsb_exists. exists r. split; [apply list_elem_of_In, Hin, elem_of_cons; by left | by apply bool_decide_eq_true]. }
  unfold add_route. revert due Hd Hpolled. generalize (addresses fl r) as addrs.
  induction addrs as [|a addrs IHa]; intros due Hd Hp; [done |]. cbn [foldl]. apply IHa.
  - apply add_due_ok; [lia | apply Hp, elem_of_cons; by left | done].
  - intros x Hx. apply Hp, elem_of_cons. by right.
Qed.

Lemma due_queries_ok fl routes : due_ok fl routes (due_queries fl routes).
Proof. apply due_fold_ok; [done |]. intros a d Ha. by rewrite lookup_empty in Ha. Qed.

Lemma tick_queries now order s addr :
  Forall (fun d => MIN_LOAD_POLL <= d.2.2) order ->
  let '(s', started) := foldl (try_query now) (s, []) order in
  (last_query s' !! addr = last_query s !! addr /\ Forall (fun q : query => q.1.2 <> addr) started) \/
  (last_query s' !! addr = Some now /\ addr ∈ order.*1 /\
   MIN_LOAD_POLL - MIN_LOAD_POLL / 10 <= saturating_sub now (default 0 (last_query s !! addr))).
Proof.
  induction order as [|d order IH] using rev_ind; intros Ho; [left; split; [done | constructor] |].
  apply Forall_app in Ho as [Ho [Hd _]%Forall_cons_iff]. specialize (IH Ho). rewrite foldl_app. cbn [foldl].
  destruct (foldl (try_query now) (s, []) order) as [s1 started]. unfold try_query. destruct d as [a [names i]]. simpl in Hd.
  assert (MIN_LOAD_POLL - MIN_LOAD_POLL / 10 <= i - i / 10) as Hmin.
  { unfold MIN_LOAD_POLL in *. change (100000000 / 10) with 10000000. pose proof (Z.div_mod i 10). pose proof (Z.mod_pos_bound i 10). lia. }
  rewrite fmap_app. destruct (_ || _) eqn:Hc.
  { destruct IH as [IH|(? & ? & ?)]; [by left | right; split_and!; try done]. apply elem_of_app. by left. }
  apply orb_false_iff in Hc as [_ Hc]. apply Z.ltb_ge in Hc. simpl. destruct (decide (a = addr)) as [->|Hne].
  - right. rewrite lookup_insert_eq. split_and!; [done | apply elem_of_app; right; by apply list_elem_of_singleton |].
    destruct IH as [[<- _]|(Hn & _ & ?)]; [lia | done].
  - rewrite lookup_insert_ne by done. destruct IH as [[? ?]|(? & ? & ?)].
    + left. split; [done |]. apply Forall_app. split; [done | by constructor].
    + right. split_and!; try done. apply elem_of_app. by left.
Qed.

(** A tick goes through what is due, in some order. *)
Definition fits (s : polling) (o : poll_op) : Prop :=
  match o with
  | PlTick _ table order _ => order ≡ₚ map_to_list (due_queries (pg_fleet s) (List.filter spills table))
  | _ => True
  end.

Definition polled_by (s : polling) (o : poll_op) (addr : SocketAddr) : Prop :=
  match o with
  | PlTick _ table _ _ => is_polled (pg_fleet s) (List.filter spills table) addr = true
  | _ => True
  end.

(** A stretch in which [addr] is a peer at every tick. *)
Fixpoint kept (addr : SocketAddr) (s : polling) (ops : list poll_op) : Prop :=
  match ops with
  | [] => True
  | o :: ops' => fits s o /\ polled_by s o addr /\ kept addr (poll_step s o).1 ops'
  end.

Lemma fits_due s now table order load :
  fits s (PlTick now table order load) ->
  Forall (fun d => MIN_LOAD_POLL <= d.2.2) order /\
  forall addr, addr ∈ order.*1 -> is_polled (pg_fleet s) (List.filter spills table) addr = true.
Proof.
  simpl. intros Hp. pose proof (due_queries_ok (pg_fleet s) (List.filter spills table)) as Hdue.
  assert (forall a d, (a, d) ∈ order -> MIN_LOAD_POLL <= d.2 /\ is_polled (pg_fleet s) (List.filter spills table) a = true) as Hall.
  { intros a d Ha. apply (Hdue a d), elem_of_map_to_list. by rewrite <- Hp. }
  split.
  - apply Forall_forall. intros [a d] Ha. apply (Hall a d). by apply list_elem_of_In.
  - intros a Ha. apply list_elem_of_fmap in Ha as ([a' d] & -> & Ha). by apply (Hall a' d).
Qed.

Lemma tick_last s now table order load addr :
  fits s (PlTick now table order load) ->
  let '(s', started) := poll_step s (PlTick now table order load) in
  (Forall (fun q : query => q.1.2 <> addr) started /\
   (polled_by s (PlTick now table order load) addr -> last_query (pg_poller s') !! addr = last_query (pg_poller s) !! addr)) \/
  (last_query (pg_poller s') !! addr = Some now /\
   MIN_LOAD_POLL - MIN_LOAD_POLL / 10 <= saturating_sub now (default 0 (last_query (pg_poller s) !! addr))).
Proof.
  intros Hf. apply fits_due in Hf as [Hmin Hpolled]. pose proof (tick_queries now order (pg_poller s) addr Hmin) as Hq.
  simpl. unfold poll_tick. destruct (foldl (try_query now) _ order) as [p started]. simpl.
  assert (is_polled (pg_fleet s) (List.filter spills table) addr = true -> forall m : gmap SocketAddr Z,
    filter (fun e : SocketAddr * Z => existsb (fun r => bool_decide (e.1 ∈ addresses (pg_fleet s) r)) (List.filter spills table) = true) m !! addr
    = m !! addr) as Hret.
  { intros Hp m. apply option_eq. intros t. rewrite map_lookup_filter_Some. simpl. split; [by intros [? _] | by split]. }
  destruct Hq as [[Hsame Hno]|(Hnow & Hin & Hgap)].
  - left. split; [done |]. intros Hp. by rewrite Hret.
  - right. split; [|done]. rewrite Hret; [done | by apply Hpolled].
Qed.

Lemma kept_last addr s ops t :
  kept addr s ops -> last_query (pg_poller s) !! addr = Some t ->
  exists t', last_query (pg_poller (poll_run s ops)) !! addr = Some t' /\ t <= t'.
Proof.
  revert s t. induction ops as [|o ops IH]; intros s t Hk Hl; [by exists t |]. destruct Hk as (Hf & Hp & Hk).
  assert (exists t', last_query (pg_poller (poll_step s o).1) !! addr = Some t' /\ t <= t') as (t' & Hl' & Ht').
  { destruct o as [now table order load|id done_ table now load|fl]; [|by exists t..].
    pose proof (tick_last s now table order load addr Hf) as Hq. destruct (poll_step s _) as [s' started]. cbn [fst].
    destruct Hq as [[_ Hsame]|[Hnow Hgap]]; [exists t; by rewrite Hsame |]. exists now. split; [done |].
    rewrite Hl in Hgap. simpl in Hgap. unfold saturating_sub, MIN_LOAD_POLL in Hgap.
    change (100000000 - 100000000 / 10) with 90000000 in Hgap. lia. }
  destruct (IH _ t' Hk Hl') as (t'' & ? & ?). exists t''. split; [done | lia].
Qed.

Module Properties.

(** The application hears of every change of a route's health, once, and in
    order. For each route, in every state the probe task can reach while
    connections and reloads change everything else, the events taken so far
    alternate, the first says down, and what they come to is what the task holds
    as reported; a report that finds the queue full is made again. At the end of a
    pass every route whose report was taken is reported as it is; and the pass
    clears exactly the refusals that it had seen when it began, that are still the
    latest of their socket, and whose endpoint stayed open: one recorded meanwhile
    stays. *)
Theorem health_changes_are_reported_once s alive routes queued :
  probed s -> NoDup (status_cell <$> routes) ->
  let s' := probe_step s (PbFinish alive routes queued) in
  (forall c, foldl hear (Some false) (ups c (pb_events s')) = Some (reported_down (status_at (pb_fleet s') c))) /\
  (forall r, r ∈ routes -> queued r = true ->
     reported_down (status_at (pb_fleet s') (status_cell r)) = route_locally_down (pb_shared s') r) /\
  (forall h, refused_at (pb_shared s') h =
     if existsb (clears alive (pb_shared s) h) (pb_due s) then 0 else refused_at (pb_shared s) h).
Proof.
  intros Hs Hnd s'. assert (probed s') as Hs' by (apply probed_step; [done | intros ? ? [=]]).
  destruct (probed_ok s Hs) as [Hdue _]. destruct (probed_ok s' Hs') as [_ Hheard]. split; [exact Hheard |].
  unfold s'. simpl. pose proof (fun r => report_all_current (probe_apply alive (pb_shared s) (pb_due s)) queued (pb_fleet s) routes r Hnd) as Hcur.
  destruct (report_all _ queued (pb_fleet s) routes) as [fl es]. simpl in *. split; [exact Hcur |].
  intros h. by apply probe_apply_spec.
Qed.

(** One route to a TCP upstream whose refusal the pass has seen. *)
Definition down_route : FailoverRoute :=
  mkRoute 3 (bs "a.example.com") (bs "a") (mkFailover false 1000000000 5000000000 60000000000 [] 0 (Some 4%nat) 7 None)
    (Tcp (mkSocketAddr (V4 2130706433) 8080)) None.
Definition refused_shared : shared := mkShared {[4%nat := 55]} ∅ 5.
Definition seen_down : prober :=
  probe_step (mkProber (mkFleet ∅ ∅ ∅ 8) refused_shared [] []) (PbStart [down_route] 2000000000).

Lemma health_changes_are_reported_once_witness :
  let s1 := probe_step seen_down (PbFinish (fun _ => false) [down_route] (fun _ => true)) in
  let s2 := probe_step (probe_step s1 (PbStart [down_route] 4000000000)) (PbFinish (fun _ => true) [down_route] (fun _ => true)) in
  (forall c, foldl hear (Some false) (ups c (pb_events s2)) = Some (reported_down (status_at (pb_fleet s2) c))) /\
  snd <$> pb_events s1 = [false] /\ snd <$> pb_events s2 = [false; true] /\ refused_at (pb_shared s2) 4 = 0.
Proof.
  cbv zeta. set (s1 := probe_step seen_down _).
  assert (probed (probe_step s1 (PbStart [down_route] 4000000000))) as Hs.
  { apply probed_step; [|intros ? ? [=]]. apply probed_step; [|intros ? ? [=]]. apply probed_step; [|intros ? ? [=]].
    apply probed_boot. intros c. unfold status_at. simpl. by rewrite lookup_empty. }
  split; [|vm_compute; split_and!; reflexivity].
  apply (health_changes_are_reported_once (probe_step s1 (PbStart [down_route] 4000000000)) (fun _ => true) [down_route] (fun _ => true) Hs).
  apply NoDup_singleton.
Defined.

(** C37: Peers are not flooded with load queries. However ticks, answers, failures
    and reloads interleave, at most [MAX_CONCURRENT_PROBES] queries are under way
    and no two to the same peer; and while a peer stays configured, two queries to
    it are at least nine tenths of [MIN_LOAD_POLL] apart, whatever the order in
    which the due peers are gone through. *)
Theorem load_queries_are_bounded fl ops now1 table1 order1 load1 mid now2 table2 order2 load2 id1 id2 addr names1 names2 :
  let s := poll_run (mkPolling poller_new fl) ops in
  let tick1 := PlTick now1 table1 order1 load1 in
  let s1 := (poll_step s tick1).1 in
  let s2 := poll_run s1 mid in
  let tick2 := PlTick now2 table2 order2 load2 in
  fits s tick1 -> (id1, addr, names1) ∈ (poll_step s tick1).2 -> kept addr s1 mid ->
  fits s2 tick2 -> (id2, addr, names2) ∈ (poll_step s2 tick2).2 ->
  MIN_LOAD_POLL - MIN_LOAD_POLL / 10 <= now2 - now1 /\
  (size (in_flight (pg_poller (poll_step s2 tick2).1)) <= MAX_CONCURRENT_PROBES)%nat /\
  addresses_distinct (in_flight (pg_poller (poll_step s2 tick2).1)).
Proof.
  intros s tick1 s1 s2 tick2 Hf1 Hq1 Hk Hf2 Hq2.
  assert (poller_ok (pg_poller (poll_step s2 tick2).1)) as [Hroom Hd _].
  { apply poll_step_ok, poll_run_ok, poll_step_ok, poll_run_ok. split; simpl; [rewrite map_size_empty; lia | |done].
    intros id id' a Ha. by rewrite lookup_empty in Ha. }
  split; [|done]. pose proof (tick_last s now1 table1 order1 load1 addr Hf1) as Ht1. fold tick1 in Ht1.
  pose proof (tick_last s2 now2 table2 order2 load2 addr Hf2) as Ht2. fold tick2 in Ht2.
  subst s1. destruct (poll_step s tick1) as [s1 started1]. destruct (poll_step s2 tick2) as [s3 started2]. simpl in *.
  destruct Ht1 as [[Hno _]|[Hl1 _]]; [rewrite Forall_forall in Hno; by apply list_elem_of_In, Hno in Hq1 |].
  destruct Ht2 as [[Hno _]|[_ Hgap]]; [rewrite Forall_forall in Hno; by apply list_elem_of_In, Hno in Hq2 |].
  destruct (kept_last addr s1 mid now1 Hk Hl1) as (t & Hl & Ht). fold s2 in Hl. rewrite Hl in Hgap. simpl in Hgap.
  unfold saturating_sub, MIN_LOAD_POLL in *. change (100000000 - 100000000 / 10) with 90000000 in *. lia.
Qed.

(** A route that spills to one peer, asked at 1 s and again 300 ms later. *)
Definition spilling : FailoverRoute :=
  mkRoute 3 (bs "a.example.com") (bs "a")
    (mkFailover false 200000000 5000000000 60000000000 [0%nat] 0 None 7 (Some (mkSpillPolicy 750 200 (f64_of_Z 50) 500 None, 9%nat)))
    (Tcp (mkSocketAddr (V4 2130706433) 8080)) None.
Definition peer_c : SocketAddr := mkSocketAddr (V4 167772163) 9443.
Definition one_peer : fleet := mkFleet {[0%nat := FailoverPeer_new peer_c]} ∅ ∅ 10.
Definition due_now : list (SocketAddr * (list bytes * Z)) := map_to_list (due_queries one_peer [spilling]).
Definition no_load : FailoverRoute -> option (Z * Z) := fun _ => None.

Lemma load_queries_are_bounded_witness :
  MIN_LOAD_POLL - MIN_LOAD_POLL / 10 <= 1300000000 - 1000000000 /\ length due_now = 1%nat.
Proof.
  split; [|vm_compute; reflexivity].
  apply (load_queries_are_bounded one_peer [] 1000000000 [spilling] due_now no_load
    [PlDone 0 None [spilling] 1050000000 no_load] 1300000000 [spilling] due_now no_load 0 1 peer_c
    [bs "a.example.com"] [bs "a.example.com"]).
  - vm_compute. reflexivity.
  - apply (bool_decide_eq_true_1 _). vm_compute. reflexivity.
  - simpl. done.
  - vm_compute. reflexivity.
  - apply (bool_decide_eq_true_1 _). vm_compute. reflexivity.
Defined.
End Properties.
