(* ===== verification/Forwarding.v ===== *)
(** * What a proxied connection tells its upstream (src/src/proxy_conn.rs)

    The per-connection parameters [SourceForwarding], the one-shot prefix (PROXY
    v1 or v2 header with fingerprint, authority, ALPN, TLS and certificate TLVs)
    and the headers that are rewritten in every HTTP/1 request. *)

From S2P Require Import Prelude Bytes Net Sni ProxyProtocol Failover Router HttpHead.

Open Scope Z_scope.

(** ** Data *)

(** What rustls says of an accepted connection: the version when it is one the
    code names, the suite's name, the ALPN protocol, the verified chain. *)
Inductive ProtocolVersion : Type := TLSv1_2 | TLSv1_3 | OtherVersion.

Record ServerConnection : Type := mkServerConnection {
  protocol_version : option ProtocolVersion;
  negotiated_cipher_suite : option bytes;
  alpn_protocol : option bytes;
  peer_certificates : option (list bytes);
}.

Record TlsForward : Type := mkTlsForward {
  tf_version : option bytes;
  tf_cipher : option bytes;
  tf_alpn : option bytes;
  client_cert_chain : list bytes;
}.

Definition collect_tls_forward (conn : ServerConnection) : TlsForward :=
  mkTlsForward
    (match protocol_version conn with
     | Some TLSv1_3 => Some (bs "TLSv1.3")
     | Some TLSv1_2 => Some (bs "TLSv1.2")
     | _ => None
     end)
    (negotiated_cipher_suite conn) (alpn_protocol conn) (default [] (peer_certificates conn)).

Record SourceForwarding : Type := mkForwarding {
  sf_mode : SourceAddressMode;
  sf_fingerprint : ForwardFingerprint;
  sf_protocol : RouteProtocol;
  sf_ja3 : bytes;
  sf_ja4 : bytes;
  sf_sni : option bytes;
  sf_tls : option TlsForward;
  sf_peer_addr : SocketAddr;
  sf_local_addr : option SocketAddr;
}.

Definition with_tls (sf : SourceForwarding) (tls : option TlsForward) : SourceForwarding :=
  mkForwarding (sf_mode sf) (sf_fingerprint sf) (sf_protocol sf) (sf_ja3 sf) (sf_ja4 sf) (sf_sni sf) tls
    (sf_peer_addr sf) (sf_local_addr sf).

(** [forward_opaque]'s parameters. *)
Definition opaque_forwarding (peer_addr : SocketAddr) : SourceForwarding :=
  mkForwarding SaNone (mkFingerprint false false) ProtoOpaque [] [] None None peer_addr None.

Record ForwardedFingerprint : Type := mkForwardedFp { pp2_type : Z; header_name : bytes; fp_value : bytes }.

Definition forwarded_fingerprints (sf : SourceForwarding) : list ForwardedFingerprint :=
  (if ff_ja3 (sf_fingerprint sf) then [mkForwardedFp PP2_TYPE_JA3 (bs "X-JA3") (sf_ja3 sf)] else []) ++
  (if ff_ja4 (sf_fingerprint sf) then [mkForwardedFp PP2_TYPE_JA4 (bs "X-JA4") (sf_ja4 sf)] else []).

(** ** The connection prefix *)

(** [value.len() as u16] *)
Definition push_sub_tlv (buf : bytes) (ty : Z) (value : bytes) : bytes :=
  buf ++ [ty] ++ u16_to_be (Z.of_nat (length value) mod 65536) ++ value.

Definition build_ssl_tlv (tls : TlsForward) : bytes :=
  let has_cert := negb (bool_decide (client_cert_chain tls = [])) in
  let ssl := [Z.lor PP2_CLIENT_SSL (if has_cert then PP2_CLIENT_CERT_CONN else 0)] ++
             u32_to_be (if has_cert then 0 else 1) in
  let ssl := match tf_version tls with
             | Some version => push_sub_tlv ssl PP2_SUBTYPE_SSL_VERSION version
             | None => ssl
             end in
  match tf_cipher tls with
  | Some cipher => push_sub_tlv ssl PP2_SUBTYPE_SSL_CIPHER cipher
  | None => ssl
  end.

(** [iter.map(|v| 3 + v.len()).sum()] *)
Definition tlv_size (v : bytes) : Z := 3 + Z.of_nat (length v).
Definition sizes (vs : list bytes) : Z := foldr (fun v acc => tlv_size v + acc) 0 vs.

(** The certificate TLVs: all of the chain, or none of it when the header could
    not hold it. *)
Definition chain_fits (tlvs : list (Z * bytes)) (chain : list bytes) : bool :=
  (sizes tlvs.*2 + sizes chain + 36 <=? u16_max) &&
  forallb (fun c => Z.of_nat (length c) <=? u16_max) chain.

Definition v2_tlvs (sf : SourceForwarding) : list (Z * bytes) :=
  let tlvs := (fun fp => (pp2_type fp, fp_value fp)) <$> forwarded_fingerprints sf in
  let tlvs := tlvs ++ match sf_sni sf with Some sni => [(PP2_TYPE_AUTHORITY, sni)] | None => [] end in
  match sf_tls sf with
  | None => tlvs
  | Some tls =>
      let tlvs := tlvs ++ match tf_alpn tls with Some alpn => [(PP2_TYPE_ALPN, alpn)] | None => [] end in
      let tlvs := tlvs ++ [(PP2_TYPE_SSL, build_ssl_tlv tls)] in
      if chain_fits tlvs (client_cert_chain tls)
      then tlvs ++ ((fun cert => (PP2_TYPE_CLIENT_CERT, cert)) <$> client_cert_chain tls)
      else tlvs
  end.

(** The bytes written before the copy starts. *)
Definition write_connection_prefix (sf : SourceForwarding) : result header_error bytes :=
  match sf_mode sf with
  | SaNone | SaXForwardedFor => Ok []
  | SaProxyProtocol => Ok (write_proxy_v1_header (sf_peer_addr sf))
  | SaProxyProtocolV2 => write_proxy_v2_header (sf_peer_addr sf) (sf_local_addr sf) (v2_tlvs sf)
  end.

(** ** Header rewriting *)

(** [IpAddr::to_string]; an IPv4-mapped address is written with its dotted
    part. *)
Definition ip_to_string (ip : IpAddr) : bytes :=
  match ip with
  | V4 a => ipv4_text a
  | V6 a => match to_ipv4_mapped a with Some v4 => bs "::ffff:" ++ ipv4_text v4 | None => ipv6_text a end
  end.

Definition eligible_for_header_rewriting (protocol : RouteProtocol) (negotiated_h2 : bool) : bool :=
  bool_decide (protocol = ProtoHttp) && negb negotiated_h2.

Definition header_rewrites (sf : SourceForwarding) (l7_http1 : bool) : list HeaderRewrite :=
  if negb l7_http1 then []
  else
    (if bool_decide (sf_mode sf = SaXForwardedFor)
     then [mkRewrite (bs "X-Forwarded-For") (Some (ip_to_string (sa_ip (sf_peer_addr sf))))] else []) ++
    (if bool_decide (sf_mode sf = SaProxyProtocolV2) then []
     else (fun fp => mkRewrite (header_name fp) (if bool_decide (fp_value fp = []) then None else Some (fp_value fp)))
            <$> forwarded_fingerprints sf).

(** ** Lemmas: a section of TLVs *)

(** A section read back: type, length, value, until nothing is left. *)
Fixpoint read_tlvs (fuel : nat) (s : bytes) : option (list (Z * bytes)) :=
  match fuel with
  | O => None
  | S fuel' =>
      match s with
      | [] => Some []
      | _ =>
          '(ty, s) ← read_u8 s;
          '(len, s) ← read_u16 s;
          '(v, s) ← read_bytes (Z.to_nat len) s;
          rest ← read_tlvs fuel' s;
          Some ((ty, v) :: rest)
      end
  end.

Definition non_empty (tlvs : list (Z * bytes)) : list (Z * bytes) :=
  List.filter (fun t => negb (bool_decide (t.2 = []))) tlvs.

Lemma sizes_cons (t : Z * bytes) (tlvs : list (Z * bytes)) : sizes (t :: tlvs).*2 = tlv_size t.2 + sizes tlvs.*2.
Proof. done. Qed.

Lemma tlv_section_fits tlvs :
  Forall (fun t => Z.of_nat (length t.2) <= u16_max) tlvs ->
  exists s, tlv_section tlvs = Ok s /\ Z.of_nat (length s) <= sizes tlvs.*2 /\
    forall fuel, (length s < fuel)%nat -> read_tlvs fuel s = Some (non_empty tlvs).
Proof.
  induction 1 as [|[ty v] tlvs Hv _ (s & Hs & Hlen & Hread)].
  { exists []. split_and!; [done | done |]. by intros [|] ?; [lia |]. }
  rewrite sizes_cons. unfold tlv_size. cbn [tlv_section snd] in *. destruct v as [|b v].
  { exists s. split_and!; [done | lia | done]. }
  destruct (Z.ltb_spec u16_max (Z.of_nat (length (b :: v)))) as [?|_]; [lia |].
  rewrite Hs. cbn [mbind result_bind]. eexists. split; [done |].
  rewrite !length_app, length_u16_to_be. split; [simpl; lia |].
  intros [|fuel] Hf; [lia |]. cbn [read_tlvs app read_u8 mbind option_bind].
  rewrite read_u16_be by lia. cbn [mbind option_bind].
  rewrite Nat2Z.id. change (b :: v ++ s) with ((b :: v) ++ s). rewrite read_bytes_app. cbn [mbind option_bind].
  rewrite Hread by (simpl in Hf; lia). done.
Qed.

Lemma sizes_app l k : sizes (l ++ k) = sizes l + sizes k.
Proof. induction l as [|v l IH]; simpl; [done |]. rewrite IH. lia. Qed.

(** What the connection's facts are bounded by: a JA3 is 32 characters, a JA4 36,
    a server name 253, an ALPN protocol 255; suite names are short. *)
Definition facts_ok (sf : SourceForwarding) : Prop :=
  addr_ok (sf_peer_addr sf) /\ (length (sf_ja3 sf) <= 32)%nat /\ (length (sf_ja4 sf) <= 36)%nat /\
  (forall sni, sf_sni sf = Some sni -> (length sni <= 253)%nat) /\
  (forall tls, sf_tls sf = Some tls ->
     (forall v, tf_version tls = Some v -> (length v <= 255)%nat) /\
     (forall v, tf_cipher tls = Some v -> (length v <= 255)%nat) /\
     (forall v, tf_alpn tls = Some v -> (length v <= 255)%nat)).

Lemma length_push_sub_tlv buf ty v : length (push_sub_tlv buf ty v) = (length buf + 3 + length v)%nat.
Proof. unfold push_sub_tlv. rewrite !length_app, length_u16_to_be. simpl. lia. Qed.

Lemma length_ssl_tlv tls :
  (forall v, tf_version tls = Some v -> (length v <= 255)%nat) ->
  (forall v, tf_cipher tls = Some v -> (length v <= 255)%nat) ->
  (length (build_ssl_tlv tls) <= 600)%nat.
Proof.
  intros Hv Hc. unfold build_ssl_tlv. cbv zeta.
  destruct (tf_cipher tls) as [c|]; [specialize (Hc c eq_refl) |];
    (destruct (tf_version tls) as [v|]; [specialize (Hv v eq_refl) |]);
    rewrite ?length_push_sub_tlv; simpl; lia.
Qed.

(** The TLVs before the certificate chain. *)
Definition base_tlvs (sf : SourceForwarding) : list (Z * bytes) :=
  ((fun fp => (pp2_type fp, fp_value fp)) <$> forwarded_fingerprints sf) ++
  match sf_sni sf with Some sni => [(PP2_TYPE_AUTHORITY, sni)] | None => [] end ++
  match sf_tls sf with
  | Some tls =>
      match tf_alpn tls with Some alpn => [(PP2_TYPE_ALPN, alpn)] | None => [] end ++
      [(PP2_TYPE_SSL, build_ssl_tlv tls)]
  | None => []
  end.

Definition forwarded_chain (sf : SourceForwarding) : list bytes :=
  match sf_tls sf with
  | Some tls => if chain_fits (base_tlvs sf) (client_cert_chain tls) then client_cert_chain tls else []
  | None => []
  end.

Lemma v2_tlvs_eq sf :
  v2_tlvs sf = base_tlvs sf ++ ((fun cert => (PP2_TYPE_CLIENT_CERT, cert)) <$> forwarded_chain sf).
Proof.
  unfold v2_tlvs, forwarded_chain, base_tlvs. destruct (sf_tls sf) as [tls|].
  - cbv zeta. rewrite <- !app_assoc. destruct (chain_fits _ _); simpl; by rewrite ?app_nil_r, <- ?app_assoc.
  - simpl. by rewrite !app_nil_r.
Qed.

(** TLVs that each fit their length field, of bounded total size. *)
Definition small (n : Z) (l : list (Z * bytes)) : Prop :=
  Forall (fun t => Z.of_nat (length t.2) <= u16_max) l /\ sizes l.*2 <= n.

Lemma small_nil n : 0 <= n -> small n [].
Proof. split; [constructor | done]. Qed.

Lemma small_one n ty v : Z.of_nat (length v) <= n <= u16_max -> small (3 + n) [(ty, v)].
Proof. intros. split; [constructor; [simpl; lia | constructor] |]. unfold sizes, tlv_size. simpl. lia. Qed.

Lemma small_app n m l k : small n l -> small m k -> small (n + m) (l ++ k).
Proof. intros [? ?] [? ?]. split; [by apply Forall_app |]. rewrite fmap_app, sizes_app. lia. Qed.

Lemma small_weaken n m l : small n l -> n <= m -> small m l.
Proof. intros [? ?] ?. split; [done | lia]. Qed.

Lemma small_opt n ty (o : option bytes) :
  (forall v, o = Some v -> Z.of_nat (length v) <= n) -> 0 <= n <= u16_max ->
  small (3 + n) (match o with Some v => [(ty, v)] | None => [] end).
Proof. intros Hn ?. destruct o; [apply small_one; split; [by apply Hn | lia] | apply small_nil; lia]. Qed.

Lemma small_fp (b : bool) ty nm v :
  (length v <= 36)%nat ->
  small 39 ((fun fp => (pp2_type fp, fp_value fp)) <$> (if b then [mkForwardedFp ty nm v] else [])).
Proof. intros. destruct b; [apply (small_one 36); unfold u16_max; simpl; lia | by apply small_nil]. Qed.

Lemma base_tlvs_small sf : facts_ok sf -> small 2000 (base_tlvs sf).
Proof.
  intros (_ & H3 & H4 & Hsni & Htls). unfold base_tlvs, forwarded_fingerprints. rewrite fmap_app.
  assert (small 1000 (match sf_tls sf with
    | Some tls => match tf_alpn tls with Some alpn => [(PP2_TYPE_ALPN, alpn)] | None => [] end ++
                  [(PP2_TYPE_SSL, build_ssl_tlv tls)]
    | None => [] end)) as Ht.
  { destruct (sf_tls sf) as [tls|]; [|by apply small_nil]. destruct (Htls tls eq_refl) as (Hv & Hc & Ha).
    eapply small_weaken; [apply (small_app (3 + 255) (3 + 600)) | lia].
    - apply small_opt; [|unfold u16_max; lia]. intros v Hv'. specialize (Ha v Hv'). lia.
    - apply small_one. pose proof (length_ssl_tlv tls Hv Hc). unfold u16_max. lia. }
  eapply small_weaken; [apply (small_app (39 + 39)), (small_app (3 + 253) 1000) | lia].
  - apply small_app; apply small_fp; lia.
  - apply small_opt; [|unfold u16_max; lia]. intros v Hv. specialize (Hsni v Hv). lia.
  - exact Ht.
Qed.

Lemma forwarded_chain_fits sf :
  Forall (fun c => Z.of_nat (length c) <= u16_max) (forwarded_chain sf) /\
  (forwarded_chain sf = [] \/ sizes (base_tlvs sf).*2 + sizes (forwarded_chain sf) + 36 <= u16_max).
Proof.
  unfold forwarded_chain. destruct (sf_tls sf) as [tls|]; [|by split; [constructor | left]].
  destruct (chain_fits _ _) eqn:E; [|by split; [constructor | left]].
  unfold chain_fits in E. apply andb_prop in E as [E1 E2]. apply Z.leb_le in E1. split; [|by right].
  apply Forall_forall. intros c Hc. rewrite forallb_forall in E2. apply Z.leb_le, E2. exact Hc.
Qed.

Lemma chain_snd (chain : list bytes) : ((fun cert => (PP2_TYPE_CLIENT_CERT, cert)) <$> chain).*2 = chain.
Proof. induction chain as [|c chain IH]; simpl; [done |]. f_equal. exact IH. Qed.

Lemma v2_tlvs_fit sf :
  facts_ok sf ->
  Forall (fun t => Z.of_nat (length t.2) <= u16_max) (v2_tlvs sf) /\ sizes (v2_tlvs sf).*2 + 36 <= u16_max.
Proof.
  intros Hok. destruct (base_tlvs_small sf Hok) as [Hb Hs]. destruct (forwarded_chain_fits sf) as [Hc Hfit].
  rewrite v2_tlvs_eq, Forall_app, fmap_app, sizes_app, chain_snd. split_and!; [done | |].
  - apply Forall_fmap. eapply Forall_impl; [|exact Hc]. done.
  - destruct Hfit as [->|]; [unfold u16_max; simpl; lia | lia].
Qed.

(** What values take on the wire, each with a type byte and a 16-bit length. *)
Definition wire_size (vs : list bytes) : nat := sum_list_with (fun v => 3 + length v)%nat vs.

Lemma sizes_wire vs : sizes vs = Z.of_nat (wire_size vs).
Proof.
  induction vs as [|v vs IH]; [done |]. change (tlv_size v + sizes vs = Z.of_nat (3 + length v + wire_size vs)).
  rewrite IH. unfold tlv_size. lia.
Qed.

Lemma wire_size_in vs v : v ∈ vs -> (length v <= wire_size vs)%nat.
Proof.
  induction vs as [|w vs IH]; [by intros ?%elem_of_nil |].
  change (wire_size (w :: vs)) with (3 + length w + wire_size vs)%nat. intros [->|Hin%IH]%elem_of_cons; lia.
Qed.

Lemma chain_fits_iff {A} tlvs chain (x y : A) :
  (if chain_fits tlvs chain then x else y) =
  if decide (36 + Z.of_nat (wire_size (tlvs.*2 ++ chain)) <= 65535) then x else y.
Proof.
  assert (chain_fits tlvs chain = bool_decide (36 + Z.of_nat (wire_size (tlvs.*2 ++ chain)) <= 65535)) as ->;
    [|by case_bool_decide; case_decide].
  unfold chain_fits. rewrite <- sizes_app, sizes_wire. unfold u16_max. case_bool_decide as Hle.
  - apply andb_true_iff. split; [lia |]. apply forallb_forall. intros c Hc%list_elem_of_In.
    pose proof (wire_size_in (tlvs.*2 ++ chain) c ltac:(apply elem_of_app; by right)). lia.
  - apply andb_false_iff. left. lia.
Qed.

(** ** Properties *)

Module Properties.


Definition mtls_facts : SourceForwarding :=
  mkForwarding SaProxyProtocolV2 (mkFingerprint false true) ProtoOpaque [] (bs "t13d1516h2_8daaf6152771_e5627efa2ab1")
    (Some (bs "a.example.com"))
    (Some (mkTlsForward (Some (bs "TLSv1.3")) (Some (bs "TLS13_AES_128_GCM_SHA256")) None [bs "leaf"; bs "issuer"]))
    (mkSocketAddr (V4 167772161) 4431) None.

End Properties.
