(* ===== verification/Task.v ===== *)
(** * Tasks

    An asynchronous function is a tree of the questions it asks its environment:
    each [.await], and each operation on state it shares with other tasks. The
    environment's part is an argument ([perform]), so the same tree can be run
    against a concrete state, or against every answer the environment can give
    between two of its steps ([runs]). [safe] is the proof rule for statements
    about all those runs. *)

From S2P Require Import Prelude.

Section Tasks.
Context {E : Type -> Type}.

Inductive task (A : Type) : Type :=
  | Finish (a : A)
  | Ask {X : Type} (e : E X) (k : X -> task A).

Fixpoint task_bind_ {A B} (f : A -> task B) (t : task A) : task B :=
  match t with
  | Finish _ a => f a
  | Ask _ e k => Ask B e (fun x => task_bind_ f (k x))
  end.
End Tasks.

Arguments task E A : clear implicits.
Arguments Finish {E A} a.
Arguments Ask {E A X} e k.

#[global] Instance task_ret {E} : MRet (task E) := fun A a => Finish a.
#[global] Instance task_bind {E} : MBind (task E) := fun A B f t => task_bind_ f t.

Definition ask {E X} (e : E X) : task E X := Ask e Finish.

(** The same task, asking through a larger set of questions. *)
Fixpoint embed {E F A} (f : forall X, E X -> F X) (t : task E A) : task F A :=
  match t with
  | Finish a => Finish a
  | Ask e k => Ask (f _ e) (fun x => embed f (k x))
  end.

(** ** Running *)

Section Runs.
Context {E : Type -> Type} {I W O : Type}.
Context (perform : I -> W -> forall X, E X -> X * W) (observe : forall X, E X -> X -> list O).

(** One task alone, with one input per question. *)
Fixpoint execute {A} (t : task E A) (ins : list I) (w : W) : option A * W * list O :=
  match t with
  | Finish a => (Some a, w, [])
  | Ask e k =>
      match ins with
      | [] => (None, w, [])
      | i :: ins' =>
          let '(x, w') := perform i w _ e in
          let '(r, w'', tr) := execute (k x) ins' w' in
          (r, w'', observe _ e x ++ tr)
      end
  end.

(** Every run: each question is answered as it is in some state, with some input,
    so anything may happen to the state between two questions. *)
Fixpoint runs {A} (t : task E A) (tr : list O) (a : A) : Prop :=
  match t with
  | Finish a' => tr = [] /\ a = a'
  | Ask e k => exists i w tr', let x := (perform i w _ e).1 in
      tr = observe _ e x ++ tr' /\ runs (k x) tr' a
  end.

Lemma execute_runs {A} (t : task E A) ins w a w' tr :
  execute t ins w = (Some a, w', tr) -> runs t tr a.
Proof.
  revert ins w w' tr. induction t as [a'|X e k IH]; intros ins w w' tr; simpl.
  { by intros [= -> _ <-]. }
  destruct ins as [|i ins]; [done |].
  destruct (perform i w X e) as [x w1] eqn:Ep.
  destruct (execute (k x) ins w1) as [[r w2] tr'] eqn:Ee. intros [= -> <- <-].
  exists i, w, tr'. rewrite Ep. split; [done |]. by eapply IH.
Qed.

Lemma executed_runs {A} (t : task E A) ins w a :
  (execute t ins w).1.1 = Some a -> runs t (execute t ins w).2 a.
Proof.
  intros Ha. destruct (execute t ins w) as [[r w'] tr] eqn:Ee. simpl in Ha. subst r. by eapply execute_runs.
Qed.

(** ** The proof rule *)

(** [obliged P h os]: each of the observations satisfies [P] of what came before. *)
Fixpoint obliged (P : list O -> O -> Prop) (h os : list O) : Prop :=
  match os with
  | [] => True
  | o :: os' => P h o /\ obliged P (h ++ [o]) os'
  end.

(** After the history [h], every observation of the task satisfies [P] of the
    history before it, and [Q] holds of the whole history and the result. *)
Fixpoint safe {A} (P : list O -> O -> Prop) (Q : list O -> A -> Prop) (h : list O) (t : task E A) : Prop :=
  match t with
  | Finish a => Q h a
  | Ask e k => forall i w, let x := (perform i w _ e).1 in
      obliged P h (observe _ e x) /\ safe P Q (h ++ observe _ e x) (k x)
  end.

Lemma obliged_at P h os pre o post : obliged P h os -> os = pre ++ o :: post -> P (h ++ pre) o.
Proof.
  revert h pre. induction os as [|o' os IH]; intros h pre Hob Heq; [by destruct pre |].
  destruct Hob as [Ho Hob]. destruct pre as [|p pre]; simplify_eq/=.
  - by rewrite app_nil_r.
  - rewrite cons_middle, app_assoc. by eapply IH.
Qed.

Lemma obliged_app P h l k : obliged P h (l ++ k) <-> obliged P h l /\ obliged P (h ++ l) k.
Proof.
  revert h. induction l as [|o l IH]; intros h; simpl; [rewrite app_nil_r; tauto |].
  rewrite IH, <- app_assoc. simpl. tauto.
Qed.

Lemma safe_obliged {A} P Q h (t : task E A) tr a :
  safe P Q h t -> runs t tr a -> obliged P h tr /\ Q (h ++ tr) a.
Proof.
  revert h tr. induction t as [a'|X e k IH]; intros h tr Hs Hr; simpl in *.
  { destruct Hr as [-> ->]. by rewrite app_nil_r. }
  destruct Hr as (i & w & tr' & -> & Hr). destruct (Hs i w) as [Hob Hs'].
  destruct (IH _ _ _ Hs' Hr) as [Hob' HQ]. split; [by apply obliged_app |]. by rewrite app_assoc.
Qed.

Lemma safe_runs {A} P Q (t : task E A) tr a :
  safe P Q [] t -> runs t tr a -> (forall pre o post, tr = pre ++ o :: post -> P pre o) /\ Q tr a.
Proof.
  intros Hs Hr. destruct (safe_obliged P Q [] t tr a Hs Hr) as [Hob HQ]. split; [|done].
  intros pre o post Heq. by apply (obliged_at P [] tr pre o post Hob Heq).
Qed.

Lemma safe_mono {A} P (Q Q' : list O -> A -> Prop) h t :
  safe P Q h t -> (forall h' a, Q h' a -> Q' h' a) -> safe P Q' h t.
Proof.
  intros Hs HQ. revert h Hs. induction t as [a|X e k IH]; intros h Hs; simpl in *; [by apply HQ |].
  intros i w. destruct (Hs i w). eauto.
Qed.

Lemma safe_bind {A B} P (Q : list O -> B -> Prop) h (t : task E A) (f : A -> task E B) :
  safe P (fun h' a => safe P Q h' (f a)) h t -> safe P Q h (t ≫= f).
Proof.
  revert h. induction t as [a|X e k IH]; intros h Hs; simpl in *; [done |].
  intros i w. destruct (Hs i w) as [Hob Hk]. split; [done | by apply IH].
Qed.

(** One question and the rest, the last question, a task and what follows it, and
    the end. *)
Lemma safe_ask {X A} P (e : E X) (k : X -> task E A) Q h :
  (forall i w x, (perform i w X e).1 = x -> obliged P h (observe X e x) /\ safe P Q (h ++ observe X e x) (k x)) ->
  safe P Q h (ask e ≫= k).
Proof. intros Hk i w. by apply Hk with i w. Qed.

Lemma safe_last {X} P (e : E X) Q h :
  (forall i w x, (perform i w X e).1 = x -> obliged P h (observe X e x) /\ Q (h ++ observe X e x) x) ->
  safe P Q h (ask e).
Proof. intros Hk i w. by apply Hk with i w. Qed.

Lemma safe_then {A B} P (R : list O -> A -> Prop) (Q : list O -> B -> Prop) h (t : task E A) (f : A -> task E B) :
  safe P R h t -> (forall h' a, R h' a -> safe P Q h' (f a)) -> safe P Q h (t ≫= f).
Proof. intros Ht Hf. apply safe_bind. by eapply safe_mono. Qed.

Lemma safe_ret {A} P (Q : list O -> A -> Prop) h a : Q h a -> safe P Q h (mret a).
Proof. done. Qed.
End Runs.

#[global] Arguments safe : simpl never.
