(* ===== verification/Suspended.v ===== *)
(** * Suspended connections (src/src/suspended.rs)

    A connection on a suspended route parks on a oneshot channel until the
    application answers with [resolveConnection]. The registry maps the number
    the application was told to the sending end of that channel; a channel has
    an identity of its own here, because a number can come round again while
    the receiver of the old one is still waiting.

    [build_resolved_route] turns the application's answer into a route, with
    the TLS cache of the proxy and a balancer of its own. *)

From S2P Require Import Prelude Bytes Net Sni Tls Balancer Failover Router.

Open Scope Z_scope.

Section Suspended.
Context `{TlsLib} `{Digests} `{NetLib}.

Record ResolvedRoute : Type := mkResolved {
  rr_destination : Destination;
  rr_tls_config : option nat;
  rr_terminate_tls : bool;
  rr_source_address_mode : SourceAddressMode;
  rr_forward_fingerprint : ForwardFingerprint;
  rr_protocol : RouteProtocol;
  rr_allowed_sources : option SourceAllowlist;
}.

(** ** The registry *)

(** [pending] holds the senders. A channel is in [channels] as long as its
    receiver exists: [None] until something was sent. *)
Record SuspendedRegistry : Type := mkRegistry {
  pending : gmap Z nat;
  counter : Z;
  channels : gmap nat (option (option ResolvedRoute));
  next_channel : nat;
}.

Definition SuspendedRegistry_new : SuspendedRegistry := mkRegistry ∅ 1 ∅ 0.

(** The number and the receiver. [fetch_add] wraps; [insert] drops the sender
    that was there. *)
Definition register (r : SuspendedRegistry) : Z * nat * SuspendedRegistry :=
  let id := counter r in
  let ch := next_channel r in
  (id, ch, mkRegistry (<[id := ch]> (pending r)) (u64_wrapping_add id 1) (<[ch := None]> (channels r)) (S ch)).

(** [tx.send]: no effect once the receiver is gone. *)
Definition send (r : SuspendedRegistry) (ch : nat) (v : option ResolvedRoute) : SuspendedRegistry :=
  match channels r !! ch with
  | Some _ => mkRegistry (pending r) (counter r) (<[ch := Some v]> (channels r)) (next_channel r)
  | None => r
  end.

Definition unlist (r : SuspendedRegistry) (id : Z) : SuspendedRegistry :=
  mkRegistry (delete id (pending r)) (counter r) (channels r) (next_channel r).

Definition resolve (r : SuspendedRegistry) (id : Z) (resolved : option ResolvedRoute) : SuspendedRegistry :=
  match pending r !! id with
  | Some ch => send (unlist r id) ch resolved
  | None => r
  end.

Definition remove (r : SuspendedRegistry) (id : Z) : SuspendedRegistry := unlist r id.

Definition contains (r : SuspendedRegistry) (id : Z) : bool := bool_decide (is_Some (pending r !! id)).

(** How [timeout(route.suspend_timeout, rx).await] ends: with what was sent when
    something was (the timer looks at the receiver first), otherwise with
    nothing, because the time ran out or the sender was dropped. The receiver
    is gone afterwards. *)
Definition receive (r : SuspendedRegistry) (ch : nat) : option ResolvedRoute * SuspendedRegistry :=
  (mjoin (mjoin (channels r !! ch)),
   mkRegistry (pending r) (counter r) (delete ch (channels r)) (next_channel r)).

(** ** Building the route of an answer *)

Inductive ResolveUpstream : Type :=
  | ResolveTcp (addr : SocketAddr)
  | ResolveUds (paths : list bytes) (ip_affinity : bool) (affinity_ttl_ms : Z).

Record ResolveSpec : Type := mkResolveSpec {
  rv_upstream : ResolveUpstream;
  rv_terminate_tls : bool;
  rv_cert_pem : option bytes;
  rv_key_pem : option bytes;
  rv_mtls_ca_pem : option bytes;
  rv_require_client_cert : bool;
  rv_source_address_mode : SourceAddressMode;
  rv_forward_fingerprint : ForwardFingerprint;
  rv_http2 : bool;
  rv_protocol : RouteProtocol;
  rv_allowed_sources : option SourceAllowlist;
}.

Inductive resolve_error : Type :=
  | ResolveNoCert
  | ResolveNoKey
  | ResolveTls (e : tls_error).

Definition resolved_tls (ticketer : bool) (held : nat -> bool) (c : TlsConfigCache) (st : config_store)
    (spec : ResolveSpec) : result resolve_error (option nat) * TlsConfigCache * config_store :=
  if rv_terminate_tls spec then
    match rv_cert_pem spec with
    | None => (Err ResolveNoCert, c, st)
    | Some cert_pem =>
        match rv_key_pem spec with
        | None => (Err ResolveNoKey, c, st)
        | Some key_pem =>
            let mtls := (fun ca => mkMtlsSpec ca (rv_require_client_cert spec)) <$> rv_mtls_ca_pem spec in
            match get_or_build_unmarked ticketer held c st (mkCertSpec cert_pem key_pem) mtls (rv_http2 spec) with
            | (Ok cfg, c', st') => (Ok (Some cfg), c', st')
            | (Err e, c', st') => (Err (ResolveTls e), c', st')
            end
        end
    end
  else (Ok None, c, st).

Definition resolved_destination (sh : shared) (u : ResolveUpstream) : Destination * shared :=
  match u with
  | ResolveTcp addr => (Tcp addr, sh)
  | ResolveUds paths ip_affinity affinity_ttl_ms =>
      let '(b, sh') := UdsBalancer_new sh ((fun p => mkSpec p None None) <$> paths) ip_affinity affinity_ttl_ms in
      (UdsSet b, sh')
  end.

Definition build_resolved_route (ticketer : bool) (held : nat -> bool) (c : TlsConfigCache) (st : config_store)
    (sh : shared) (spec : ResolveSpec)
    : result resolve_error ResolvedRoute * TlsConfigCache * config_store * shared :=
  match resolved_tls ticketer held c st spec with
  | (Err e, c', st') => (Err e, c', st', sh)
  | (Ok tls_config, c', st') =>
      let '(destination, sh') := resolved_destination sh (rv_upstream spec) in
      (Ok (mkResolved destination tls_config (rv_terminate_tls spec) (rv_source_address_mode spec)
             (rv_forward_fingerprint spec) (rv_protocol spec) (rv_allowed_sources spec)), c', st', sh')
  end.

(** ** Histories of the registry *)

Inductive reg_op : Type :=
  | RegRegister
  | RegResolve (id : Z) (v : option ResolvedRoute)
  | RegRemove (id : Z)
  | RegReceive (ch : nat).

Definition reg_step (r : SuspendedRegistry) (o : reg_op) : SuspendedRegistry :=
  match o with
  | RegRegister => (register r).2
  | RegResolve id v => resolve r id v
  | RegRemove id => remove r id
  | RegReceive ch => (receive r ch).2
  end.

Definition reg_run (r : SuspendedRegistry) (ops : list reg_op) : SuspendedRegistry := foldl reg_step r ops.

(** Channels are numbered below the next one, and no two numbers have the same
    channel. *)
Record reg_ok (r : SuspendedRegistry) : Prop := {
  rg_counter : is_u64 (counter r);
  rg_pending : forall id ch, pending r !! id = Some ch -> (ch < next_channel r)%nat;
  rg_channels : forall ch, is_Some (channels r !! ch) -> (ch < next_channel r)%nat;
  rg_inj : forall id id' ch, pending r !! id = Some ch -> pending r !! id' = Some ch -> id = id';
}.

Lemma reg_new_ok : reg_ok SuspendedRegistry_new.
Proof.
  split; simpl; [ulia | by intros ? ? ?%lookup_empty_Some | by intros ? [? ?%lookup_empty_Some]
    | by intros ? ? ? ?%lookup_empty_Some].
Qed.

Lemma wrapping_u64 a b : is_u64 (u64_wrapping_add a b).
Proof. unfold u64_wrapping_add, is_u64. pose proof (Z.mod_pos_bound (a + b) (u64_max + 1)). unfold u64_max in *. lia. Qed.

Lemma unlist_ok r id : reg_ok r -> reg_ok (unlist r id).
Proof.
  intros [? Hp ? Hi]. split; simpl; [done | | done |].
  - intros i ch [_ ?]%lookup_delete_Some. eauto.
  - intros i i' ch [_ ?]%lookup_delete_Some [_ ?]%lookup_delete_Some. eauto.
Qed.

Lemma send_ok r ch v : reg_ok r -> reg_ok (send r ch v).
Proof.
  intros [? ? Hc ?]. unfold send. destruct (channels r !! ch) eqn:E; [|by split].
  split; simpl; [done | done | | done].
  intros c. rewrite lookup_insert_is_Some. intros [<-|[_ ?]]; apply Hc; [by eexists | done].
Qed.

Lemma reg_step_ok r o : reg_ok r -> reg_ok (reg_step r o).
Proof.
  intros Hok. destruct o; simpl.
  - destruct Hok as [? Hp Hc Hi]. split; simpl; [apply wrapping_u64 | | |].
    + intros id ch [[<- <-]|[_ ?%Hp]]%lookup_insert_Some; lia.
    + intros ch. rewrite lookup_insert_is_Some. intros [<-|[_ ?%Hc]]; lia.
    + intros id id' ch [[<- <-]|[? Ha]]%lookup_insert_Some [[<- ?]|[? Hb]]%lookup_insert_Some;
        [done | apply Hp in Hb; lia | apply Hp in Ha; lia | by eapply Hi].
  - unfold resolve. destruct (pending r !! id); [by apply send_ok, unlist_ok | done].
  - by apply unlist_ok.
  - destruct Hok as [? Hp Hc Hi]. split; simpl; [done | done | | done].
    intros c. rewrite lookup_delete_is_Some. intros [_ ?]. by apply Hc.
Qed.

Lemma reg_run_ok ops r : reg_ok r -> reg_ok (reg_run r ops).
Proof. revert r. induction ops as [|o ops IH]; intros r Hok; simpl; [done |]. by apply IH, reg_step_ok. Qed.

(** ** Delivery *)

(** What the application first answered for a number. *)
Fixpoint first_resolution (id : Z) (ops : list reg_op) : option (option ResolvedRoute) :=
  match ops with
  | [] => None
  | RegResolve i v :: ops' => if decide (i = id) then Some v else first_resolution id ops'
  | _ :: ops' => first_resolution id ops'
  end.

Definition registrations (ops : list reg_op) : nat :=
  length (List.filter (fun o => match o with RegRegister => true | _ => false end) ops).

(** Neither the connection's own removal nor its receive. *)
Definition not_own (id : Z) (ch : nat) (o : reg_op) : Prop :=
  match o with RegRemove i => i <> id | RegReceive c => c <> ch | _ => True end.

(** A connection that waits: its number still leads to its channel, or it has
    been answered and the number leads nowhere. [n] registrations are still to
    come before the number is used again. *)
Definition waiting (r : SuspendedRegistry) (id : Z) (ch : nat) (n : nat) (got : option (option ResolvedRoute)) : Prop :=
  reg_ok r /\ channels r !! ch = Some got /\
  (exists m, Z.of_nat n < m <= u64_max /\ id = (counter r + m) mod (u64_max + 1)) /\
  match got with
  | None => pending r !! id = Some ch
  | Some _ => pending r !! id = None /\ forall i, pending r !! i <> Some ch
  end.

Lemma send_other r c v ch : c <> ch -> channels (send r c v) !! ch = channels r !! ch.
Proof. intros. unfold send. destruct (channels r !! c); simpl; [by rewrite lookup_insert_ne | done]. Qed.

Lemma send_pending r c v : pending (send r c v) = pending r.
Proof. unfold send. by destruct (channels r !! c). Qed.
Lemma send_counter r c v : counter (send r c v) = counter r.
Proof. unfold send. by destruct (channels r !! c). Qed.

Lemma counter_not_id c m : 0 < m <= u64_max -> is_u64 c -> c <> (c + m) mod (u64_max + 1).
Proof.
  intros Hm Hc Heq. unfold is_u64, u64_max in *.
  destruct (Z.lt_ge_cases (c + m) 18446744073709551616) as [|].
  - rewrite Z.mod_small in Heq by lia. lia.
  - rewrite <- (Z.mod_unique_pos (c + m) _ 1 (c + m - 18446744073709551616)) in Heq by lia. lia.
Qed.

Lemma wrapped_shift c m n :
  (c + m) mod n = (u64_wrapping_add c 1 + (m - 1)) mod n \/ n <> u64_max + 1.
Proof.
  destruct (decide (n = u64_max + 1)) as [->|]; [left | by right].
  unfold u64_wrapping_add. rewrite Z.add_mod_idemp_l by done. f_equal. lia.
Qed.

Lemma waiting_register r id ch n got :
  waiting r id ch (S n) got -> waiting (register r).2 id ch n got.
Proof.
  intros (Hok & Hch & (m & Hm & Hid) & Hgot). split; [by apply (reg_step_ok r RegRegister) |].
  pose proof (rg_channels r Hok ch ltac:(by eexists)) as Hlt. simpl.
  assert (counter r <> id) as Hne by (rewrite Hid; apply counter_not_id; [lia | by apply rg_counter]).
  split_and!.
  - rewrite lookup_insert_ne by lia. done.
  - exists (m - 1). split; [lia |]. rewrite Hid. by destruct (wrapped_shift (counter r) m (u64_max + 1)).
  - rewrite lookup_insert_ne by done. destruct got as [v|]; [|done]. split; [by apply Hgot |].
    intros i [[_ ?]|[_ ?]]%lookup_insert_Some; [lia | by eapply Hgot].
Qed.

Lemma waiting_resolve r id ch n got i v :
  waiting r id ch n got ->
  waiting (resolve r i v) id ch n
    (match got with Some _ => got | None => if decide (i = id) then Some v else None end).
Proof.
  intros (Hok & Hch & Hm & Hgot). split; [by apply (reg_step_ok r (RegResolve i v)) |].
  unfold resolve. destruct (pending r !! i) as [c|] eqn:Hi.
  - rewrite !send_pending, send_counter. simpl. destruct got as [g|].
    + destruct Hgot as [Hid Hgot]. assert (c <> ch) as Hne by (intros ->; by eapply Hgot).
      rewrite send_other by done. split_and!; [done | done | by apply lookup_delete_None; right |].
      intros j [_ ?]%lookup_delete_Some. by eapply Hgot.
    + destruct (decide (i = id)) as [->|Hne].
      * assert (c = ch) as -> by congruence. unfold send. simpl. rewrite Hch. simpl.
        rewrite lookup_insert_eq. split_and!; [done | done | apply lookup_delete_eq |].
        intros j [? Hj]%lookup_delete_Some. by pose proof (rg_inj r Hok _ _ _ Hgot Hj).
      * rewrite send_other by (intros ->; by pose proof (rg_inj r Hok _ _ _ Hgot Hi)).
        rewrite lookup_delete_ne by done. done.
  - destruct got; [done |]. destruct (decide (i = id)) as [->|]; [congruence | done].
Qed.

Lemma waiting_other r id ch n got o :
  not_own id ch o -> match o with RegRemove _ | RegReceive _ => True | _ => False end ->
  waiting r id ch n got -> waiting (reg_step r o) id ch n got.
Proof.
  intros Hown Hkind (Hok & Hch & Hm & Hgot). split; [by apply reg_step_ok |].
  destruct o as [| |i|c]; try done; simpl in *.
  - rewrite lookup_delete_ne by done. split_and!; [done | done |]. destruct got; [|done].
    split; [by apply Hgot |]. intros j [_ ?]%lookup_delete_Some. by eapply Hgot.
  - rewrite lookup_delete_ne by done. done.
Qed.

Lemma waiting_run ops r id ch n got :
  Forall (not_own id ch) ops -> waiting r id ch (registrations ops + n) got ->
  waiting (reg_run r ops) id ch n (match got with Some _ => got | None => first_resolution id ops end).
Proof.
  revert r got. induction ops as [|o ops IH]; intros r got Hown Hw; simpl.
  { by destruct got. }
  apply Forall_cons_iff in Hown as [Ho Hown]. destruct o as [|i v| |].
  - apply IH; [done |]. by apply waiting_register.
  - pose proof (IH (resolve r i v) _ Hown (waiting_resolve _ _ _ _ _ i v Hw)) as Hr.
    destruct got; [done |]. by destruct (decide (i = id)).
  - apply IH; [done |]. by apply waiting_other.
  - apply IH; [done |]. by apply waiting_other.
Qed.

Lemma register_waiting r id ch r' n :
  reg_ok r -> register r = (id, ch, r') -> Z.of_nat n < u64_max -> waiting r' id ch n None.
Proof.
  intros Hok [= <- <- <-] Hn. split; [by apply (reg_step_ok r RegRegister) |]. simpl.
  rewrite !lookup_insert_eq. split_and!; [done | | done].
  exists u64_max. split; [lia |]. pose proof (rg_counter r Hok).
  unfold u64_wrapping_add. rewrite Z.add_mod_idemp_l by done.
  replace (counter r + 1 + u64_max) with (counter r + 1 * (u64_max + 1)) by lia.
  rewrite Z.mod_add by done. by rewrite Z.mod_small by ulia.
Qed.

(** ** The policy of a resolved route *)

(** What a resolution leaves in the caches. *)
Lemma resolved_tls_policy t held c st spec cfg c' st' :
  resolved_tls t held c st spec = (Ok cfg, c', st') ->
  match cfg with
  | None => rv_terminate_tls spec = false
  | Some n => rv_terminate_tls spec = true /\
      exists cert key, rv_cert_pem spec = Some cert /\ rv_key_pem spec = Some key /\
      get_or_build_unmarked t held c st (mkCertSpec cert key)
        ((fun ca => mkMtlsSpec ca (rv_require_client_cert spec)) <$> rv_mtls_ca_pem spec) (rv_http2 spec)
      = (Ok n, c', st')
  end.
Proof.
  unfold resolved_tls. destruct (rv_terminate_tls spec); [|by intros [= <- <- <-]].
  destruct (rv_cert_pem spec) as [cert|]; [|done]. destruct (rv_key_pem spec) as [key|]; [|done].
  destruct (get_or_build_unmarked _ _ _ _ _ _ _) as [[[n|e] c1] st1] eqn:E; intros [= <- <- <-].
  split; [done |]. exists cert, key. by rewrite E.
Qed.

Lemma resolved_tls_refused t held c st spec e c' st' :
  resolved_tls t held c st spec = (Err e, c', st') ->
  rv_terminate_tls spec = true /\
  match e with
  | ResolveNoCert => rv_cert_pem spec = None
  | ResolveNoKey => rv_key_pem spec = None
  | ResolveTls e => exists cert key, rv_cert_pem spec = Some cert /\ rv_key_pem spec = Some key /\
      build_server_config t (mkCertSpec cert key)
        ((fun ca => mkMtlsSpec ca (rv_require_client_cert spec)) <$> rv_mtls_ca_pem spec) (rv_http2 spec) = Err e
  end.
Proof.
  unfold resolved_tls. destruct (rv_terminate_tls spec); [|done].
  destruct (rv_cert_pem spec) as [cert|]; [|by intros [= <- <- <-]].
  destruct (rv_key_pem spec) as [key|]; [|by intros [= <- <- <-]].
  unfold get_or_build_unmarked, lookup_or_build.
  destruct (cache c !! _); [done |]. destruct (build_server_config _ _ _ _) as [config|err] eqn:E; [|].
  - intros Heq. by repeat case_match; simplify_eq/=.
  - intros [= <- <- <-]. split; [done |]. by exists cert, key.
Qed.

(** The configuration a lookup gives, in a state the cache can reach. *)
Lemma unmarked_policy ops n t held cert mtls http2 cfg c' st' :
  (forall a b, sha256 a = sha256 b -> a = b) -> (forall a, sha256 a <> replicate 32 0%Z) ->
  let s := tls_run (TlsConfigCache_new, mkStore ∅ n) ops in
  get_or_build_unmarked t held s.1 s.2 cert mtls http2 = (Ok cfg, c', st') ->
  exists config, configs st' !! cfg = Some config /\
    (client_auth_mandatory <$> sc_verifier config) = (require_client_cert <$> mtls).
Proof.
  intros Hinj Hzero s Hget.
  pose proof (lookup_or_build_ok t held s.1 s.2 cert mtls http2) as Hl. unfold get_or_build_unmarked in Hget.
  destruct (lookup_or_build t held s.1 s.2 cert mtls http2) as [[[[k i]|e] c2] st2]; [|done]. simplify_eq/=.
  destruct Hl as [Hok Hres]. { rewrite <- surjective_pairing. apply tls_run_ok, new_cache_ok. }
  destruct (Hres _ _ eq_refl) as [-> Hk].
  destruct (entry_built _ Hok _ _ Hk) as (t' & cert' & mtls' & http2' & config & Hkey & Hbuild & Hcfg).
  apply cache_key_inj in Hkey as (_ & <- & _); [|done..].
  exists config. split; [done |]. by apply build_verifies in Hbuild.
Qed.
End Suspended.

(** ** Properties *)

Module Properties.

(** The application's answer reaches the connection it is for. A connection
    that registered and waits gets the first answer given for its number, and
    nothing when none was given, whatever else is registered, answered, removed
    or received meanwhile; until it is answered, and only until then, its number
    is known. (Numbers are 64 bits wide: fewer than 2^64 - 1 registrations pass
    while it waits.) *)
Theorem resolution_reaches_its_connection `{TlsLib} `{NetLib} ops0 ops id ch r' :
  register (reg_run SuspendedRegistry_new ops0) = (id, ch, r') ->
  Forall (not_own id ch) ops -> Z.of_nat (registrations ops) < u64_max ->
  (receive (reg_run r' ops) ch).1 = mjoin (first_resolution id ops) /\
  contains (reg_run r' ops) id = bool_decide (first_resolution id ops = None).
Proof.
  intros Hreg Hown Hn.
  assert (waiting r' id ch (registrations ops + 0) None) as Hw.
  { rewrite Nat.add_0_r. eapply register_waiting; [apply reg_run_ok, reg_new_ok | done | done]. }
  apply waiting_run in Hw as (_ & Hch & _ & Hp); [|done]. unfold receive, contains. simpl. rewrite Hch.
  split; [done |]. apply bool_decide_ext.
  destruct (first_resolution id ops) as [v|]; [|by rewrite Hp].
  destruct Hp as [-> _]. split; [by intros [? ?] | done].
Qed.

#[local] Existing Instance Net.cidr_lib.
#[local] Existing Instance Protection.ascii_lowercase.
#[local] Existing Instance Tls.Properties.raw_tls.
#[local] Existing Instance Tls.Properties.tagged_digests.

Definition to_app : ResolvedRoute :=
  mkResolved (Tcp (mkSocketAddr (V4 1) 8080)) None false SaNone (mkFingerprint false false) ProtoOpaque None.

(** The second of two connections is answered, twice; the first answer counts. *)
Lemma resolution_reaches_its_connection_witness :
  let r := (register (reg_run SuspendedRegistry_new [RegRegister])).2 in
  let ops := [RegRegister; RegResolve 1 None; RegResolve 2 (Some to_app); RegResolve 2 None; RegRemove 1] in
  (receive (reg_run r ops) 1).1 = Some to_app /\ contains (reg_run r ops) 2 = false.
Proof.
  intros r ops.
  destruct (resolution_reaches_its_connection [RegRegister] ops 2 1%nat r) as [-> ->];
    [vm_compute; reflexivity | repeat constructor; discriminate | reflexivity | vm_compute; split; reflexivity].
Defined.

(** A route built for an answer carries the client-certificate policy it was
    asked to: the answer is refused exactly when it asks to terminate TLS
    without a certificate or key, or when its TLS configuration cannot be built;
    otherwise a terminating route has a configuration that requires a client
    certificate exactly when the answer says so and names a CA, and a route that
    does not terminate has none. *)
Theorem resolved_route_keeps_its_policy `{TlsLib} `{Digests} `{NetLib} ops n t held sh spec r c' st' sh' :
  (forall a b, sha256 a = sha256 b -> a = b) -> (forall a, sha256 a <> replicate 32 0%Z) ->
  let s := tls_run (TlsConfigCache_new, mkStore ∅ n) ops in
  build_resolved_route t held s.1 s.2 sh spec = (r, c', st', sh') ->
  match r with
  | Ok route =>
      rr_terminate_tls route = rv_terminate_tls spec /\
      rr_allowed_sources route = rv_allowed_sources spec /\
      match rr_tls_config route with
      | None => rv_terminate_tls spec = false
      | Some cfg => rv_terminate_tls spec = true /\ is_Some (rv_cert_pem spec) /\ is_Some (rv_key_pem spec) /\
          exists config, configs st' !! cfg = Some config /\
          (client_auth_mandatory <$> sc_verifier config) =
          (fun _ => rv_require_client_cert spec) <$> rv_mtls_ca_pem spec
      end
  | Err e => rv_terminate_tls spec = true /\ sh' = sh /\
      match e with
      | ResolveNoCert => rv_cert_pem spec = None
      | ResolveNoKey => rv_key_pem spec = None
      | ResolveTls e => exists cert key, rv_cert_pem spec = Some cert /\ rv_key_pem spec = Some key /\
          build_server_config t (mkCertSpec cert key)
            ((fun ca => mkMtlsSpec ca (rv_require_client_cert spec)) <$> rv_mtls_ca_pem spec) (rv_http2 spec) = Err e
      end
  end.
Proof.
  intros Hinj Hzero s. unfold build_resolved_route.
  destruct (resolved_tls t held s.1 s.2 spec) as [[[cfg|e] c1] st1] eqn:E.
  - destruct (resolved_destination sh (rv_upstream spec)) as [d sh1]. intros [= <- <- <- <-].
    split; [done |]. split; [done |]. apply resolved_tls_policy in E. destruct cfg as [i|]; simpl; [|done].
    destruct E as (Hterm & cert & key & Hc & Hk & Hget). split_and!; [done | by eexists | by eexists |].
    destruct (unmarked_policy ops n t held _ _ _ i c1 st1 Hinj Hzero Hget) as (config & Hcfg & Hv).
    exists config. split; [done |]. rewrite Hv. by destruct (rv_mtls_ca_pem spec).
  - intros [= <- <- <- <-]. apply resolved_tls_refused in E as [Hterm He]. by split_and!.
Qed.

Definition mtls_answer : ResolveSpec :=
  mkResolveSpec (ResolveUds [bs "/run/a.sock"] true 1000) true (Some (bs "cert")) (Some (bs "c")) (Some (bs "ca"))
    true SaNone (mkFingerprint false false) false ProtoOpaque None.

Lemma resolved_route_keeps_its_policy_witness :
  exists route c' st' sh',
    build_resolved_route true (fun _ => false) TlsConfigCache_new (mkStore ∅ 0) (mkShared ∅ ∅ 0) mtls_answer
      = (Ok route, c', st', sh') /\
    rr_terminate_tls route = true /\
    exists cfg config, rr_tls_config route = Some cfg /\ configs st' !! cfg = Some config /\
      (client_auth_mandatory <$> sc_verifier config) = Some true.
Proof.
  destruct (build_resolved_route true (fun _ => false) TlsConfigCache_new (mkStore ∅ 0) (mkShared ∅ ∅ 0) mtls_answer)
    as [[[r c'] st'] sh'] eqn:E.
  assert (forall a b, sha256 a = sha256 b -> a = b) as Hinj by (intros a b Hab; by injection Hab).
  pose proof (resolved_route_keeps_its_policy [] 0%nat true (fun _ => false) (mkShared ∅ ∅ 0) mtls_answer r c' st' sh'
    Hinj ltac:(done) E) as Hp.
  destruct r as [route|e]; [|exfalso; vm_compute in E; discriminate E].
  exists route, c', st', sh'. split; [done |]. destruct Hp as (Ht & _ & Hcfg). split; [done |].
  destruct (rr_tls_config route) as [cfg|]; [|done]. destruct Hcfg as (_ & _ & _ & config & Hst & Hv).
  exists cfg, config. split; [reflexivity |]. split; [exact Hst | exact Hv].
Defined.
End Properties.
