(* ===== verification/Liveness.v ===== *)
(** * Half-closed connections (src/src/liveness.rs)

    Once the write half to the client has been shut down, a proxied connection
    may stay quiet for a bounded time only. [HalfCloseWatch] is the state the
    two stream halves and the watchdog [expired] share on one connection's
    stack; it is armed by the client half's shutdown and postponed by every
    read that brought bytes. The clock at each step is an argument. *)

From S2P Require Import Prelude Metrics.

Open Scope Z_scope.

Record KeepaliveConfig : Type := mkKeepalive { ka_idle : Z; ka_interval : Z; ka_retries : Z }.

(** ** The watch *)

(** [permit] is the stored permit of the [Notify]. *)
Record HalfCloseWatch : Type := mkWatch { armed : bool; last_activity_ns : Z; permit : bool }.

Definition HalfCloseWatch_new : HalfCloseWatch := mkWatch false 0 false.

Definition arm (now : Z) (w : HalfCloseWatch) (m : ListenerMetrics) : HalfCloseWatch * ListenerMetrics :=
  if armed w then (mkWatch true now (permit w), m)
  else (mkWatch true now true, lm_inc_half_closed m).

Definition record_activity (now : Z) (w : HalfCloseWatch) : HalfCloseWatch :=
  if armed w then mkWatch true now (permit w) else w.

Definition HalfCloseWatch_drop (w : HalfCloseWatch) (m : ListenerMetrics) : ListenerMetrics :=
  if armed w then lm_dec_half_closed m else m.

(** ** The watched halves *)

Record Watched : Type := mkWatched { arms_on_shutdown : bool }.
Definition Watched_client : Watched := mkWatched true.
Definition Watched_upstream : Watched := mkWatched false.

(** How a poll of the inner stream ended. *)
Inductive poll (A : Type) : Type := Pending | ReadyErr | ReadyOk (a : A).
Arguments Pending {A}.
Arguments ReadyErr {A}.
Arguments ReadyOk {A} a.

(** [filled] is how many bytes the read added to the buffer. *)
Definition poll_read (now : Z) (filled : poll nat) (w : HalfCloseWatch) : HalfCloseWatch :=
  match filled with ReadyOk (S _) => record_activity now w | _ => w end.

Definition poll_shutdown (now : Z) (half : Watched) (ended : poll unit) (w : HalfCloseWatch) (m : ListenerMetrics)
    : HalfCloseWatch * ListenerMetrics :=
  match ended with
  | ReadyOk _ => if arms_on_shutdown half then arm now w m else (w, m)
  | _ => (w, m)
  end.

(** ** The watchdog

    [expired] waits for the permit, then looks at the clock and sleeps for what
    is left of the window, until nothing is. *)

Inductive watchdog : Type :=
  | Parked
  | Sleeping (until : Z)
  | Fired.

(** One turn of the loop. *)
Definition evaluate (window now : Z) (w : HalfCloseWatch) : watchdog :=
  let quiet_for := saturating_sub now (last_activity_ns w) in
  if quiet_for <? window then Sleeping (now + (window - quiet_for)) else Fired.

(** A poll of [expired]. *)
Definition look (window now : Z) (d : watchdog) (w : HalfCloseWatch) : watchdog * HalfCloseWatch :=
  match d with
  | Parked => if permit w then (evaluate window now w, mkWatch (armed w) (last_activity_ns w) false) else (Parked, w)
  | Sleeping until => if until <=? now then (evaluate window now w, w) else (d, w)
  | Fired => (Fired, w)
  end.

(** ** A connection's life *)

Inductive happening : Type :=
  | HRead (half : Watched) (filled : poll nat)
  | HShutdown (half : Watched) (ended : poll unit)
  | HLook.

Record session : Type := mkSession {
  se_watch : HalfCloseWatch;
  se_dog : watchdog;
  se_metrics : ListenerMetrics;
  se_now : Z;
}.

Definition begin (m : ListenerMetrics) (now : Z) : session := mkSession HalfCloseWatch_new Parked m now.

(** [(d, h)]: [h] happens [d] nanoseconds after the previous one. *)
Definition happen (window : Z) (s : session) (h : Z * happening) : session :=
  let now := se_now s + Z.max 0 h.1 in
  match h.2 with
  | HRead _ filled => mkSession (poll_read now filled (se_watch s)) (se_dog s) (se_metrics s) now
  | HShutdown half ended =>
      let '(w, m) := poll_shutdown now half ended (se_watch s) (se_metrics s) in mkSession w (se_dog s) m now
  | HLook =>
      let '(d, w) := look window now (se_dog s) (se_watch s) in mkSession w d (se_metrics s) now
  end.

Definition life (window : Z) (m : ListenerMetrics) (start : Z) (hs : list (Z * happening)) : session :=
  foldl (happen window) (begin m start) hs.

Definition fired (s : session) : bool := match se_dog s with Fired => true | _ => false end.

(** ** Lemmas *)

(** [base] is the metrics the connection started with. *)
Record session_ok (window : Z) (base : ListenerMetrics) (s : session) : Prop := {
  so_last : 0 <= last_activity_ns (se_watch s) <= se_now s;
  so_dog : match se_dog s with
           | Parked => permit (se_watch s) = armed (se_watch s)
           | Sleeping until => armed (se_watch s) = true /\ until <= last_activity_ns (se_watch s) + window
           | Fired => armed (se_watch s) = true
           end;
  so_metrics : se_metrics s = if armed (se_watch s) then lm_inc_half_closed base else base;
}.

Lemma begin_ok window base start : 0 <= start -> session_ok window base (begin base start).
Proof. intros. split; simpl; [lia | done | done]. Qed.

Lemma evaluate_ok window now w :
  0 <= last_activity_ns w <= now ->
  match evaluate window now w with
  | Parked => False
  | Sleeping until => until <= last_activity_ns w + window /\ now < last_activity_ns w + window
  | Fired => last_activity_ns w + window <= now
  end.
Proof. unfold evaluate, saturating_sub. intros. destruct (Z.ltb_spec (Z.max 0 (now - last_activity_ns w)) window); lia. Qed.

Lemma poll_read_ok window base s d half filled :
  session_ok window base s -> session_ok window base (happen window s (d, HRead half filled)).
Proof.
  intros [Hl Hd Hm]. unfold happen. simpl. unfold poll_read, record_activity.
  destruct filled as [| |[|n]]; try (split; simpl; [lia | done | done]).
  destruct (armed (se_watch s)) eqn:Ha; [|split; simpl; rewrite ?Ha; [lia | done | done]].
  split; simpl; [lia | | done]. destruct (se_dog s); [done | split; [done | lia] | done].
Qed.

Lemma poll_shutdown_ok window base s d half ended :
  session_ok window base s -> session_ok window base (happen window s (d, HShutdown half ended)).
Proof.
  intros [Hl Hd Hm]. unfold happen. simpl. unfold poll_shutdown, arm.
  destruct ended as [| |u]; try (split; simpl; [lia | done | done]).
  destruct (arms_on_shutdown half); [|split; simpl; [lia | done | done]].
  destruct (armed (se_watch s)) eqn:Ha; split; simpl; try done; try lia.
  - destruct (se_dog s); [done | split; [done | lia] | done].
  - destruct (se_dog s); [done | by destruct Hd | done].
  - by rewrite Hm.
Qed.

Lemma look_ok window base s d :
  session_ok window base s -> session_ok window base (happen window s (d, HLook)).
Proof.
  intros [Hl Hd Hm]. unfold happen. simpl.
  set (now := se_now s + Z.max 0 d). assert (se_now s <= now) as Hnow by lia. clearbody now.
  pose proof (evaluate_ok window now (se_watch s) ltac:(lia)) as He.
  unfold look. destruct (se_dog s) as [|u|] eqn:Hdog.
  - destruct (permit (se_watch s)) eqn:Hp; [|split; simpl; [lia | by rewrite Hp | done]].
    split; simpl; [lia | | done]. destruct (evaluate _ _ _); [done | split; [congruence | lia] | congruence].
  - destruct (Z.leb_spec u now); [|split; simpl; [lia | done | done]].
    split; simpl; [lia | | done]. destruct Hd as [Ha _]. destruct (evaluate _ _ _); [done | split; [done | lia] | done].
  - split; simpl; [lia | done | done].
Qed.

Lemma happen_ok window base s h : session_ok window base s -> session_ok window base (happen window s h).
Proof. destruct h as [d [| |]]; eauto using poll_read_ok, poll_shutdown_ok, look_ok. Qed.

Lemma life_ok window base start hs : 0 <= start -> session_ok window base (life window base start hs).
Proof.
  intros Hs. unfold life. pose proof (begin_ok window base start Hs) as H. revert H.
  generalize (begin base start). induction hs as [|h hs IH]; intros s H; [done |].
  simpl. by apply IH, happen_ok.
Qed.

(** When the connection was last active, as far as the bound is concerned:
    nothing before it is half-closed; then the latest shutdown of the client's
    write half, or read that brought bytes. *)
Definition active_at (now : Z) (h : happening) (last : option Z) : option Z :=
  match h with
  | HShutdown half (ReadyOk _) => if arms_on_shutdown half then Some now else last
  | HRead _ (ReadyOk (S _)) => match last with Some _ => Some now | None => None end
  | _ => last
  end.

Fixpoint last_active (now : Z) (last : option Z) (hs : list (Z * happening)) : option Z :=
  match hs with
  | [] => last
  | (d, h) :: hs' => let now := now + Z.max 0 d in last_active now (active_at now h last) hs'
  end.

Fixpoint time_after (now : Z) (hs : list (Z * happening)) : Z :=
  match hs with [] => now | (d, _) :: hs' => time_after (now + Z.max 0 d) hs' end.

Definition watch_last (w : HalfCloseWatch) : option Z := if armed w then Some (last_activity_ns w) else None.

Lemma happen_last window s d h :
  let s' := happen window s (d, h) in
  se_now s' = se_now s + Z.max 0 d /\
  watch_last (se_watch s') = active_at (se_now s + Z.max 0 d) h (watch_last (se_watch s)).
Proof.
  unfold happen. destruct h as [half filled|half ended|]; simpl.
  - split; [done |]. unfold watch_last, poll_read, record_activity.
    destruct filled as [| |[|n]]; try done. destruct (armed (se_watch s)) eqn:Ha; simpl; by rewrite ?Ha.
  - unfold watch_last, poll_shutdown, arm. destruct ended; try done. destruct (arms_on_shutdown half); [|done].
    by destruct (armed (se_watch s)).
  - unfold watch_last, look.
    destruct (se_dog s) as [|u|]; [destruct (permit (se_watch s)) | destruct (u <=? se_now s + Z.max 0 d) |]; done.
Qed.

Lemma happens_last window hs s :
  se_now (foldl (happen window) s hs) = time_after (se_now s) hs /\
  watch_last (se_watch (foldl (happen window) s hs)) = last_active (se_now s) (watch_last (se_watch s)) hs.
Proof.
  revert s. induction hs as [|[d h] hs IH]; intros s; [done |].
  simpl. destruct (IH (happen window s (d, h))) as [Hn Hl]. rewrite Hn, Hl.
  by destruct (happen_last window s d h) as [-> ->].
Qed.

Lemma life_last window base start hs :
  se_now (life window base start hs) = time_after start hs /\
  watch_last (se_watch (life window base start hs)) = last_active start None hs.
Proof. apply (happens_last window hs (begin base start)). Qed.

(** ** Properties *)

Module Properties.

(** C33: The half-close bound is exact. At a poll of the watchdog that has not
    fired yet, it fires exactly when the connection is half-closed and its last
    activity (the shutdown of the client's write half, or a later read that
    brought bytes from either side) is at least the window ago: never on a
    connection whose client half is open, never while bytes still come, and not
    later than the first poll after the window, however often it was postponed. *)
Theorem half_close_fires_exactly window base start hs d :
  0 <= start -> fired (life window base start hs) = false ->
  let now := time_after start hs + Z.max 0 d in
  fired (life window base start (hs ++ [(d, HLook)])) =
  match last_active start None hs with
  | Some last => last + window <=? now
  | None => false
  end.
Proof.
  intros Hs Hf now. pose proof (life_ok window base start hs Hs) as [Hl Hd _].
  destruct (life_last window base start hs) as [Hn Hlast]. rewrite <- Hlast.
  unfold life in *. rewrite foldl_app. simpl. fold (life window base start hs) in *.
  set (s := life window base start hs) in *. unfold happen. simpl. rewrite Hn. fold now.
  pose proof (evaluate_ok window now (se_watch s) ltac:(lia)) as He.
  assert (fired s = match se_dog s with Fired => true | _ => false end) as Hfired by done.
  unfold look, watch_last. destruct (se_dog s) as [|u|]; [| |congruence].
  - destruct (armed (se_watch s)); rewrite Hd; [|done]. unfold fired. simpl.
    destruct (evaluate _ _ _); [done | |]; symmetry; [apply Z.leb_gt | apply Z.leb_le]; lia.
  - destruct Hd as [-> Hu]. destruct (Z.leb_spec u now) as [Hle|Hgt]; unfold fired; simpl.
    + destruct (evaluate _ _ _); [done | |]; symmetry; [apply Z.leb_gt | apply Z.leb_le]; lia.
    + symmetry. apply Z.leb_gt. lia.
Qed.

(** The client's half is shut down at 10; a read of the client at 25 postpones;
    the watchdog is polled at 12, at 30 and at 45. *)
Definition drained : list (Z * happening) :=
  [(5, HRead Watched_upstream (ReadyOk 100%nat)); (5, HShutdown Watched_client (ReadyOk tt)); (2, HLook);
   (13, HRead Watched_client (ReadyOk 3%nat)); (5, HLook)].

Lemma half_close_fires_exactly_witness :
  fired (life 20 ListenerMetrics_default 0 drained) = false /\
  fired (life 20 ListenerMetrics_default 0 (drained ++ [(15, HLook)])) = true.
Proof.
  split; [reflexivity |].
  by rewrite (half_close_fires_exactly 20 ListenerMetrics_default 0 drained 15); [| lia | reflexivity].
Defined.

(** The half-closed gauge counts each connection once and lets it go: when the
    watch is dropped, however the connection ran, the listener's counters are
    what they were when it began. *)
Theorem half_closed_gauge_is_balanced window base start hs :
  0 <= start -> is_u64 (lm_half_closed base) ->
  let s := life window base start hs in HalfCloseWatch_drop (se_watch s) (se_metrics s) = base.
Proof.
  intros Hs Hb s. destruct (life_ok window base start hs Hs) as [_ _ Hm]. fold s in Hm.
  unfold HalfCloseWatch_drop. rewrite Hm. destruct (armed (se_watch s)); [|done].
  destruct base as [a h t bi bo q bl er]. unfold lm_dec_half_closed, lm_inc_half_closed. simpl in *.
  f_equal. by apply sub1_add1.
Qed.

Lemma half_closed_gauge_is_balanced_witness :
  let s := life 20 ListenerMetrics_default 0 drained in
  lm_half_closed (se_metrics s) = 1 /\ HalfCloseWatch_drop (se_watch s) (se_metrics s) = ListenerMetrics_default.
Proof. intros s. split; [reflexivity |]. by apply half_closed_gauge_is_balanced. Defined.
End Properties.
