(* ===== verification/Sockets.v ===== *)
(** * Listening sockets (src/src/listener.rs, src/src/liveness.rs, src/src/error.rs)

    [make_reuseport_socket] as the calls it makes on a socket, each of which the
    system may refuse, [bind_workers] over it, and the keepalive schedule of the
    listening and of the accepted sockets. What the system refuses, and what an
    accepted socket takes over from the one that listened, are parameters. *)

From S2P Require Import Prelude Bytes Net Liveness.

Open Scope Z_scope.

(** ** Errors *)

(** The errors of other libraries are the text they display as. *)
Inductive SymphonyError : Type :=
  | ErrTls (e : bytes)
  | ErrIo (e : bytes)
  | ErrNoRoute (sni : bytes)
  | ErrConfig (message : bytes)
  | ErrAddrParse (e : bytes).

Definition display (e : SymphonyError) : bytes :=
  match e with
  | ErrTls e => bs "TLS error: " ++ e
  | ErrIo e => bs "I/O error: " ++ e
  | ErrNoRoute sni => bs "No route for SNI '" ++ sni ++ bs "'"
  | ErrConfig m => bs "Config error: " ++ m
  | ErrAddrParse e => bs "Address parse error: " ++ e
  end.

(** ** Sockets *)

(** Off, on with the times of the host, or on with a schedule. *)
Inductive keepalive : Type :=
  | KeepaliveOff
  | KeepaliveHost
  | KeepaliveAs (cfg : KeepaliveConfig).

Record socket : Type := mkSocket {
  so_ipv6 : bool;
  so_reuse_address : bool;
  so_reuse_port : bool;
  so_nonblocking : bool;
  so_keepalive : keepalive;
  so_bound : option SocketAddr;
  so_backlog : option Z;
  (** The keepalive it had when it began to listen. *)
  so_listened_with : option keepalive;
}.

Definition set_keepalive (s : socket) (k : keepalive) : socket :=
  mkSocket (so_ipv6 s) (so_reuse_address s) (so_reuse_port s) (so_nonblocking s) k (so_bound s) (so_backlog s)
    (so_listened_with s).

(** What the code asks of the system for one listening socket. *)
Inductive sock_call : Type :=
  | CallSocket (ipv6 : bool)
  | CallReuseAddress
  | CallReusePort
  | CallNonblocking
  | CallKeepalive (cfg : KeepaliveConfig)
  | CallBind (addr : SocketAddr)
  | CallListen (backlog : Z)
  | CallRegister.

(** The calls the system refuses, with the error it gives, and the keepalive a
    socket is left with when its schedule was refused. *)
Record kernel : Type := mkKernel {
  kn_refuses : sock_call -> option bytes;
  kn_leaves : KeepaliveConfig -> keepalive;
}.

Definition willing : kernel := mkKernel (fun _ => None) (fun _ => KeepaliveOff).

(** A call that was not refused. *)
Definition apply_call (c : sock_call) (s : socket) : socket :=
  match c with
  | CallSocket ipv6 => mkSocket ipv6 false false false KeepaliveOff None None None
  | CallReuseAddress =>
      mkSocket (so_ipv6 s) true (so_reuse_port s) (so_nonblocking s) (so_keepalive s) (so_bound s) (so_backlog s)
        (so_listened_with s)
  | CallReusePort =>
      mkSocket (so_ipv6 s) (so_reuse_address s) true (so_nonblocking s) (so_keepalive s) (so_bound s) (so_backlog s)
        (so_listened_with s)
  | CallNonblocking =>
      mkSocket (so_ipv6 s) (so_reuse_address s) (so_reuse_port s) true (so_keepalive s) (so_bound s) (so_backlog s)
        (so_listened_with s)
  | CallKeepalive cfg => set_keepalive s (KeepaliveAs cfg)
  | CallBind addr =>
      mkSocket (so_ipv6 s) (so_reuse_address s) (so_reuse_port s) (so_nonblocking s) (so_keepalive s) (Some addr)
        (so_backlog s) (so_listened_with s)
  | CallListen n =>
      mkSocket (so_ipv6 s) (so_reuse_address s) (so_reuse_port s) (so_nonblocking s) (so_keepalive s) (so_bound s) (Some n)
        (Some (so_keepalive s))
  | CallRegister => s
  end.

(** A call whose error [?] hands on. *)
Definition call (k : kernel) (c : sock_call) (s : socket) : result SymphonyError socket :=
  match kn_refuses k c with
  | Some e => Err (ErrIo e)
  | None => Ok (apply_call c s)
  end.

(** A refusal is a warning. *)
Definition arm_keepalive (k : kernel) (cfg : KeepaliveConfig) (s : socket) : socket :=
  match call k (CallKeepalive cfg) s with
  | Ok s => s
  | Err _ => set_keepalive s (kn_leaves k cfg)
  end.

Definition no_socket : socket := mkSocket false false false false KeepaliveOff None None None.

Definition make_reuseport_socket (k : kernel) (addr : SocketAddr) (ka : option KeepaliveConfig)
    : result SymphonyError socket :=
  s ← call k (CallSocket (match sa_ip addr with V6 _ => true | V4 _ => false end)) no_socket;
  s ← call k CallReuseAddress s;
  s ← call k CallReusePort s;
  s ← call k CallNonblocking s;
  let s := match ka with Some cfg => arm_keepalive k cfg s | None => s end in
  s ← call k (CallBind addr) s;
  call k (CallListen 65535) s.

(** Socket [j] meets the system [k j]; [TcpListener::from_std] registers it with
    the runtime. *)
Definition bind_workers (k : nat -> kernel) (addr : SocketAddr) (workers : Z) (ka : option KeepaliveConfig)
    : result SymphonyError (list socket) :=
  try_map (fun j => s ← make_reuseport_socket (k j) addr ka; call (k j) CallRegister s)
    (seq 0 (Z.to_nat (Z.max workers 1))).

(** ** Accepted sockets *)

(** [inherits] is what an accepted socket takes over from the listening one. *)
Definition arm_accepted (linux : bool) (k : kernel) (cfg : KeepaliveConfig) (s : keepalive) : keepalive :=
  if linux then s
  else match kn_refuses k (CallKeepalive cfg) with None => KeepaliveAs cfg | Some _ => kn_leaves k cfg end.

(** The keepalive of a connection as the accept loop hands it to its task. *)
Definition accepted_keepalive (linux : bool) (inherits : keepalive -> keepalive) (k : kernel)
    (ka : option KeepaliveConfig) (listening : socket) : keepalive :=
  let taken := inherits (so_keepalive listening) in
  match ka with Some cfg => arm_accepted linux k cfg taken | None => taken end.

(** ** Lemmas *)

(** What the system must not refuse; the schedule is not among it. *)
Definition needed (addr : SocketAddr) (c : sock_call) : Prop :=
  match c with
  | CallSocket ipv6 => ipv6 = match sa_ip addr with V6 _ => true | V4 _ => false end
  | CallBind a => a = addr
  | CallListen n => n = 65535
  | CallKeepalive _ => False
  | CallReuseAddress | CallReusePort | CallNonblocking | CallRegister => True
  end.

(** The keepalive a listening socket ends with. *)
Definition armed_with (k : kernel) (ka : option KeepaliveConfig) : keepalive :=
  match ka with
  | None => KeepaliveOff
  | Some cfg => match kn_refuses k (CallKeepalive cfg) with None => KeepaliveAs cfg | Some _ => kn_leaves k cfg end
  end.

(** A socket that serves one address: it shares the port, it does not block, it
    listens, and no connection can have been accepted before its keepalive was
    set. *)
Definition serves (k : kernel) (addr : SocketAddr) (ka : option KeepaliveConfig) (s : socket) : Prop :=
  s = mkSocket (match sa_ip addr with V6 _ => true | V4 _ => false end) true true true (armed_with k ka) (Some addr)
        (Some 65535) (Some (armed_with k ka)).

Lemma made_serves k addr ka s : make_reuseport_socket k addr ka = Ok s -> serves k addr ka s.
Proof.
  unfold make_reuseport_socket, serves, armed_with, arm_keepalive, call. intros Hm.
  repeat match type of Hm with
  | context [kn_refuses k ?c] => destruct (kn_refuses k c) as [?|] eqn:?; cbn [mbind result_bind] in Hm; try discriminate Hm
  | context [match ka with _ => _ end] => destruct ka as [cfg|]; cbn [mbind result_bind] in Hm
  end; injection Hm as <-; simpl; repeat case_match; simplify_eq; reflexivity.
Qed.

(** One worker's socket is there exactly when nothing it needs is refused. *)
Lemma worker_made k addr ka :
  (exists s, (s ← make_reuseport_socket k addr ka; call k CallRegister s) = Ok s) <->
  (forall c, needed addr c -> kn_refuses k c = None).
Proof.
  split.
  - unfold make_reuseport_socket, call. intros [s Hm] c Hc.
    repeat match type of Hm with
    | context [kn_refuses k ?c] => destruct (kn_refuses k c) as [?|] eqn:?; cbn [mbind result_bind] in Hm; try discriminate Hm
    end.
    destruct c; simpl in Hc; subst; done.
  - intros Hall. unfold make_reuseport_socket, call.
    rewrite (Hall (CallSocket _)) by done. cbn [mbind result_bind]. rewrite (Hall CallReuseAddress) by done. cbn [mbind result_bind].
    rewrite (Hall CallReusePort) by done. cbn [mbind result_bind]. rewrite (Hall CallNonblocking) by done. cbn [mbind result_bind].
    rewrite (Hall (CallBind addr)) by done. cbn [mbind result_bind]. rewrite (Hall (CallListen 65535)) by done. cbn [mbind result_bind].
    rewrite (Hall CallRegister) by done. eauto.
Qed.

Lemma worker_serves k addr ka s :
  (s ← make_reuseport_socket k addr ka; call k CallRegister s) = Ok s -> serves k addr ka s.
Proof.
  destruct (make_reuseport_socket k addr ka) as [s'|] eqn:E; [|done]. cbn [mbind result_bind]. unfold call.
  destruct (kn_refuses k CallRegister); [done |]. intros [= <-]. by eapply made_serves.
Qed.

Definition binds (k : nat -> kernel) (addr : SocketAddr) (workers : Z) : Prop :=
  forall j c, (j < Z.to_nat (Z.max workers 1))%nat -> needed addr c -> kn_refuses (k j) c = None.

(** Every worker has its socket, or none has. *)
Lemma bind_workers_iff k addr workers ka :
  (exists ss, bind_workers k addr workers ka = Ok ss) <-> binds k addr workers.
Proof.
  unfold bind_workers, binds. rewrite try_map_is_Ok. split.
  - intros Hall j c Hj Hc. apply (proj1 (worker_made (k j) addr ka)); [|done]. apply Hall, elem_of_seq. lia.
  - intros Hall j Hj%elem_of_seq. apply worker_made. intros c Hc. apply Hall; [lia | done].
Qed.

Lemma bind_workers_serve k addr workers ka ss :
  bind_workers k addr workers ka = Ok ss ->
  length ss = Z.to_nat (Z.max workers 1) /\ forall j s, ss !! j = Some s -> serves (k j) addr ka s.
Proof.
  unfold bind_workers. intros Hs%try_map_Ok. split.
  - apply Forall2_length in Hs. by rewrite <- Hs, length_seq.
  - intros j s Hj. destruct (Forall2_lookup_r _ _ _ _ _ Hs Hj) as (j' & [-> _]%lookup_seq & Hm). by eapply worker_serves.
Qed.

Module Properties.

(** Connections are probed for dead peers as configured. On a system
    that takes the schedule, and whose accepted sockets inherit it where
    [arm_accepted] relies on that, every connection accepted on any socket of a
    listener has the configured schedule from its first moment; without one it has
    what an unarmed socket gives. *)
Theorem connections_carry_the_schedule k addr workers ka ss j s linux inherits k' :
  bind_workers k addr workers ka = Ok ss -> ss !! j = Some s ->
  (forall cfg, ka = Some cfg -> kn_refuses (k j) (CallKeepalive cfg) = None /\ kn_refuses k' (CallKeepalive cfg) = None) ->
  (linux = true -> forall x, inherits x = x) ->
  so_listened_with s = Some (so_keepalive s) /\
  accepted_keepalive linux inherits k' ka s =
    match ka with Some cfg => KeepaliveAs cfg | None => inherits KeepaliveOff end.
Proof.
  intros Hb Hj Hr Hi. destruct (bind_workers_serve _ _ _ _ _ Hb) as [_ Hs]. rewrite (Hs j s Hj). split; [done |].
  unfold accepted_keepalive, armed_with, arm_accepted. simpl. destruct ka as [cfg|]; [|done].
  destruct (Hr cfg eq_refl) as [-> ->]. destruct linux; [by apply Hi | done].
Qed.

Definition sample_schedule : KeepaliveConfig := mkKeepalive 97000000000 13000000000 4.

Lemma connections_carry_the_schedule_witness :
  exists ss s, bind_workers (fun _ => willing) (mkSocketAddr (V4 0) 443) 2 (Some sample_schedule) = Ok ss /\
    ss !! 1%nat = Some s /\
    accepted_keepalive true (fun x => x) willing (Some sample_schedule) s = KeepaliveAs sample_schedule.
Proof.
  eexists _, _. split; [vm_compute; reflexivity |]. split; [reflexivity |].
  eapply (connections_carry_the_schedule (fun _ => willing) (mkSocketAddr (V4 0) 443) 2 (Some sample_schedule) _ 1%nat);
    [vm_compute; reflexivity | reflexivity | intros; split; reflexivity | reflexivity].
Defined.
End Properties.
