(* ===== verification/Connection.v ===== *)
(** * One connection, end to end (src/src/proxy_conn.rs)

    [handle] is the task of an accepted connection: admission, the failover
    ingress, the ClientHello peek, protection, the route, its source list and
    rate limit, failover, suspension, the TLS handshake and the copy, in the
    order of the code, with its early returns. It is a [task] over the questions
    [connE]; [perform] answers them with the components' own operations on the
    state of the process ([proc]) and, for the network and the clock, from an
    input [io].

    What the code keeps alive by scope (the active counts, the held address
    state, the route's count, the upstream's slot, the half-closed gauge) are
    [guard]s: [Acquire] is the constructor ([Connect] makes the upstream's) and
    [Leave] the end of an inner scope; those still held when the task ends, or is dropped, are released then
    ([Pool]). *)

From S2P Require Import Prelude Bytes Net TokenBucket Sni Tls Protection ProxyProtocol Balancer BalancerState Metrics Failover Router HttpHead Forwarding Task Suspended Liveness.

Open Scope Z_scope.

Section Connection.
Context `{TlsLib} `{NetLib}.

(** ** Data *)

Definition DEFAULT_COPY_BUFFER_SIZE : Z := 8192.
Definition MIN_COPY_BUFFER_SIZE : Z := 512.
Definition MAX_COPY_BUFFER_SIZE : Z := 1048576.

Inductive JsEvent : Type :=
  | JsBlocked (ip reason listener ja3 ja4 : bytes)
  | JsSuspended (id sni peer_ip : bytes) (peer_port : Z) (listener : bytes)
  | JsError (message listener : bytes)
  | JsRouteHealth (route metrics_group : bytes) (up : bool).

(** Times are in nanoseconds; [cx_listener] names the listener whose metrics,
    protection and ingress state the connection uses. *)
Record ConnContext : Type := mkContext {
  cx_listener : nat;
  cx_listener_addr : bytes;
  cx_protection : bool;
  cx_ingress : bool;
  cx_idle_timeout : Z;
  cx_half_close_timeout : Z;
  cx_keepalive : option KeepaliveConfig;
  cx_upstream_connect_timeout : Z;
  cx_client_read_buffer_size : Z;
  cx_upstream_read_buffer_size : Z;
  cx_tls_buffer_limit : option Z;
}.

(** [Uds] keeps its [BalancerGuard]: the balancer and the path it counts on. *)
Inductive upstream_stream : Type := UpTcp | UpUds (balancer : nat) (path : bytes).

Inductive guard : Type :=
  | GActive (ip_state : option nat)
  | GRoute (id : nat)
  | GUpstream (u : upstream_stream)
  | GHalfClosed.

(** How the copy phase is run, and how it ended: by itself, or because the
    watchdog or the timer around it did. *)
Inductive copy_how : Type :=
  | CopyPlain (client_buffer upstream_buffer : Z)
  | CopyRewriting (rewrites : list HeaderRewrite).
Inductive copy_end : Type :=
  | CopyOk
  | CopyErr (timed_out : bool)
  | CopyHalfClosed
  | CopyIdle.

(** ** Questions *)

Inductive connE : Type -> Type :=
  | Acquire (g : guard) : connE unit
  | Leave : connE unit
  | HandshakeTimeout : connE Z
  | Trusts (ip : IpAddr) : connE bool
  | CountBlocked (k : BlockKind) : connE unit
  | CountError (k : ErrorKind) : connE unit
  | CountRouteBlocked (route : nat) (k : BlockKind) : connE unit
  | CountRouteError (route : nat) (k : ErrorKind) : connE unit
  | CountLoadQuery : connE unit
  | ReadHeader (limit : Z) : connE (result HeaderReject Header)
  | LoadAnswers (names : list (option bytes)) : connE (list (option Z))
  | WriteAnswer (answer : bytes) (limit : Z) : connE unit
  | PeekHello : connE PeekInfo
  | Check (ip : IpAddr) (peek : PeekInfo) : connE (Decision' nat)
  | Emit (ev : JsEvent) : connE bool
  | ResolveRoute (sni : option bytes) (allow_default : bool) : connE (option Route)
  | TryAcquire (rl : Atomic.RouteTokenBucket) : connE bool
  | LocallyDown (fo : Failover) (d : Destination) (h2 : option Destination) : connE bool
  | SpillTarget (fo : Failover) (cell : nat) (peer : SocketAddr) : connE (option nat)
  | HandToPeers (fo : Failover) (peek : PeekInfo) (mode : ForwardMode) (handshake : Z) (peer : SocketAddr)
      (local : option SocketAddr) : connE Forwarded
  | ReadHello (len : nat) : connE (bool * list io_event)
  | IncSuspended : connE unit
  | DecSuspended (resolved : bool) : connE unit
  | Register : connE (Z * nat)
  | AwaitResolution (ch : nat) (limit : Z) : connE (option ResolvedRoute)
  | RemovePending (id : Z) : connE unit
  | Now : connE Z
  | Connect (d : Destination) (ip : IpAddr) (limit : Z) (tcp_health : option nat) : connE (option upstream_stream)
  | UpstreamClosed : connE bool
  | TlsAccept (cfg : nat) (limit : Z) (buffer_limit : option Z) : connE (result bool ServerConnection)
  | Predict (cfg : nat) (offers_h2 : bool) : connE bool
  | CopyUntilShut (prefix : bytes) (how : copy_how) (half_close idle : Z) : connE (option copy_end * list io_event)
  | CopyRest (half_close idle : Z) : connE (copy_end * list io_event)
  | CountBytes (route : nat) (polls : list io_event) : connE unit.

(** ** The parts of [handle] *)

Definition conn := task connE.

Definition count_route_error (route : Route) (k : ErrorKind) : conn unit :=
  ask (CountRouteError (mi_id (rt_identity route)) k).

(** [allowed.is_some_and(|a| !a.permits(ip))] *)
Definition refuses_source (allowed : option SourceAllowlist) (ip : IpAddr) : bool :=
  match allowed with Some a => negb (permits a ip) | None => false end.

Definition classify_copy_failure (timed_out : bool) : ErrorKind := if timed_out then EPeerTimeout else EStream.

Definition copy_result (e : copy_end) : result ErrorKind unit :=
  match e with
  | CopyOk => Ok tt
  | CopyErr timed_out => Err (classify_copy_failure timed_out)
  | CopyHalfClosed => Err EHalfClosed
  | CopyIdle => Err EIdleTimeout
  end.

(** [forward] under its [HalfCloseWatch]: the copy runs until it ends or the
    write half to the client has been shut down (which arms the watch, once),
    and in that case on to its end. The result, and what was polled on the
    client's stream. *)
Definition forward (ctx : ConnContext) (sf : SourceForwarding) (l7_http1 : bool)
    : conn (result ErrorKind unit * list io_event) :=
  match write_connection_prefix sf with
  | Err _ => mret (Err (classify_copy_failure false), [])
  | Ok prefix =>
      let rewrites := header_rewrites sf l7_http1 in
      let how := if bool_decide (length rewrites = 0%nat)
                 then CopyPlain (cx_client_read_buffer_size ctx) (cx_upstream_read_buffer_size ctx)
                 else CopyRewriting rewrites in
      '(ended, polls) ← ask (CopyUntilShut prefix how (cx_half_close_timeout ctx) (cx_idle_timeout ctx));
      match ended with
      | Some e => mret (copy_result e, polls)
      | None =>
          _ ← ask (Acquire GHalfClosed);
          '(e, polls') ← ask (CopyRest (cx_half_close_timeout ctx) (cx_idle_timeout ctx));
          _ ← ask Leave;
          mret (copy_result e, polls ++ polls')
      end
  end.

(** The client wrapped in a [CountingStream] for the time of the copy. *)
Definition counted_forward (ctx : ConnContext) (route : nat) (sf : SourceForwarding) (l7_http1 : bool)
    (read_before : list io_event) : conn (result ErrorKind unit) :=
  '(r, polls) ← forward ctx sf l7_http1;
  _ ← ask (CountBytes route (read_before ++ polls));
  mret r.

Definition proxy_via_tls (ctx : ConnContext) (route : nat) (session : ServerConnection) (sf : SourceForwarding)
    : conn (result ErrorKind unit) :=
  let tls := if bool_decide (sf_mode sf = SaProxyProtocolV2) then Some (collect_tls_forward session) else None in
  let sf := with_tls sf tls in
  let negotiated_h2 := bool_decide (alpn_protocol session = Some (bs "h2")) in
  counted_forward ctx route sf (eligible_for_header_rewriting (sf_protocol sf) negotiated_h2) [].

Definition proxy_raw (ctx : ConnContext) (route : nat) (sf : SourceForwarding) : conn (result ErrorKind unit) :=
  counted_forward ctx route sf false [].

Definition forward_opaque (ctx : ConnContext) (route : nat) (peer : SocketAddr) (read_before : list io_event)
    : conn (result ErrorKind unit) :=
  counted_forward ctx route (opaque_forwarding peer) false read_before.

(** [failover::forward_to_peers]: the search for a peer is [Failover]'s; once one
    has answered, the hello is taken from the client and the tunnel runs. *)
Definition forward_to_peers (ctx : ConnContext) (route : nat) (fo : Failover) (peek : PeekInfo)
    (mode : ForwardMode) (handshake : Z) (peer : SocketAddr) (local : option SocketAddr) : conn Forwarded :=
  found ← ask (HandToPeers fo peek mode handshake peer local);
  match found with
  | Done (Ok _) =>
      '(read, polls) ← ask (ReadHello (pi_hello_len peek));
      if negb read then _ ← ask (CountBytes route polls); mret (Done (Err EStream))
      else r ← forward_opaque ctx route peer polls; mret (Done r)
  | _ => mret found
  end.

(** [answer_load_query] *)
Definition answer_load_query (names : list (option bytes)) (limit : Z) : conn unit :=
  _ ← ask CountLoadQuery;
  loads ← ask (LoadAnswers names);
  ask (WriteAnswer (encode_load_answer loads) limit).

(** 0b: the address the connection is served for; [None] when it is over. *)
Definition ingress_source (ctx : ConnContext) (peer : SocketAddr) (hs_timeout : Z) : conn (option SocketAddr) :=
  if negb (cx_ingress ctx) then mret (Some peer)
  else
    trusted ← ask (Trusts (sa_ip peer));
    if negb trusted then _ ← ask (CountBlocked BUntrustedSource); mret None
    else
      header ← ask (ReadHeader hs_timeout);
      match header with
      | Ok (Proxy source) => mret (Some source)
      | Ok (LoadQuery names) => _ ← answer_load_query names hs_timeout; mret None
      | Err reject => _ ← ask (CountBlocked (kind_of_reject reject)); mret None
      end.

(** 2: whether protection lets the client in. *)
Definition protection_admits (ctx : ConnContext) (ip : IpAddr) (peek : PeekInfo) : conn bool :=
  if negb (cx_protection ctx) then mret true
  else
    decision ← ask (Check ip peek);
    match decision with
    | Block reason =>
        _ ← ask (CountBlocked (kind_of_reason reason));
        _ ← ask (Emit (JsBlocked (ip_to_string ip) (reason_str reason) (cx_listener_addr ctx) (pi_ja3 peek) (pi_ja4 peek)));
        mret false
    | AllowBypassed | Allow _ => mret true
    end.

(** 3d: the handshake time left when the connection is to be served here. *)
Definition failover_step (ctx : ConnContext) (route : Route) (peek : PeekInfo) (hs_timeout : Z)
    (peer : SocketAddr) (local : option SocketAddr) : conn (option Z) :=
  match rt_failover route with
  | None => mret (Some hs_timeout)
  | Some fo =>
      down ← ask (LocallyDown fo (rt_destination route) (rt_destination_h2 route));
      spill ← (if cx_ingress ctx || rt_suspended route || down || fo_drain fo then mret None
               else match fo_spill fo with
                    | None => mret None
                    | Some (_, cell) => ask (SpillTarget fo cell peer)
                    end);
      match decide_failover (cx_ingress ctx) (rt_suspended route) down (fo_drain fo) (fun _ => spill) with
      | Refuse => _ ← count_route_error route ELocallyDown; mret None
      | Forward mode =>
          forwarded ← forward_to_peers ctx (mi_id (rt_identity route)) fo peek mode hs_timeout peer local;
          match forwarded with
          | Done (Ok _) => mret None
          | Done (Err kind) => _ ← count_route_error route kind; mret None
          | ServeLocally budget => mret (Some budget)
          end
      | Local => mret (Some hs_timeout)
      end
  end.

Record EffectiveRoute : Type := mkEffective {
  ef_destination : Destination;
  ef_destination_h2 : option Destination;
  ef_tls_config : option nat;
  ef_terminate_tls : bool;
  ef_source_address_mode : SourceAddressMode;
  ef_forward_fingerprint : ForwardFingerprint;
  ef_protocol : RouteProtocol;
}.

Definition uses_h2_destination (ef : EffectiveRoute) (h2 : bool) : bool :=
  h2 && bool_decide (is_Some (ef_destination_h2 ef)).
Definition destination_for (ef : EffectiveRoute) (h2 : bool) : Destination :=
  match ef_destination_h2 ef with
  | Some dest => if h2 then dest else ef_destination ef
  | None => ef_destination ef
  end.

(** 4: the route's own parameters, or those [resolveConnection] answers. *)
Definition effective_route (ctx : ConnContext) (route : Route) (sni : option bytes) (peer : SocketAddr)
    : conn (option EffectiveRoute) :=
  if rt_suspended route then
    _ ← ask IncSuspended;
    '(id, rx) ← ask Register;
    _ ← ask (Emit (JsSuspended (to_decimal id) (default [] sni) (ip_to_string (sa_ip peer)) (sa_port peer)
                     (cx_listener_addr ctx)));
    resolved ← ask (AwaitResolution rx (rt_suspend_timeout route));
    match resolved with
    | None =>
        _ ← ask (RemovePending id);
        _ ← ask (DecSuspended false);
        _ ← count_route_error route ESuspendUnresolved;
        mret None
    | Some r =>
        _ ← ask (DecSuspended true);
        if refuses_source (rr_allowed_sources r) (sa_ip peer) then
          _ ← ask (CountRouteBlocked (mi_id (rt_identity route)) BSourceNotAllowed); mret None
        else
          mret (Some (mkEffective (rr_destination r) None (rr_tls_config r) (rr_terminate_tls r)
                        (rr_source_address_mode r) (rr_forward_fingerprint r) (rr_protocol r)))
    end
  else
    mret (Some (mkEffective (rt_destination route) (rt_destination_h2 route) (rt_tls_config route)
                  (rt_terminate_tls route) (rt_source_address_mode route) (rt_forward_fingerprint route)
                  (rt_protocol route))).

(** [connect_or_forward]: the upstream, or nothing when the connection is over
    and any failure counted. [peers] carries the deadline. *)
Definition connect_or_forward (ctx : ConnContext) (route : Route) (d : Destination) (tcp_health : option nat)
    (peers : option (Failover * Z)) (hs_timeout : Z) (peek : PeekInfo) (sf : SourceForwarding)
    : conn (option upstream_stream) :=
  let connect_timeout :=
    match peers with
    | Some _ => Z.min (cx_upstream_connect_timeout ctx) (hs_timeout / 2)
    | None => cx_upstream_connect_timeout ctx
    end in
  connected ← ask (Connect d (sa_ip (sf_peer_addr sf)) connect_timeout tcp_health);
  match connected with
  | Some u => mret (Some u)
  | None =>
      _ ← count_route_error route EUpstreamConnect;
      match peers with
      | None => mret None
      | Some (fo, deadline) =>
          now ← ask Now;
          forwarded ← forward_to_peers ctx (mi_id (rt_identity route)) fo peek Down (saturating_sub deadline now)
                        (sf_peer_addr sf) (sf_local_addr sf);
          match forwarded with
          | Done (Err EUpstreamConnect) | Done (Ok _) | ServeLocally _ => mret None
          | Done (Err kind) => _ ← count_route_error route kind; mret None
          end
      end
  end.

(** The upstream connected before the handshake is kept when it is the one of
    the negotiated protocol and has not closed; otherwise it is dropped before
    another is connected. *)
Definition keep_early (ef : EffectiveRoute) (early : option upstream_stream) (predicted_h2 negotiated_h2 : bool)
    : conn (option upstream_stream) :=
  match early with
  | None => mret None
  | Some u =>
      stale ← (if Bool.eqb (uses_h2_destination ef predicted_h2) (uses_h2_destination ef negotiated_h2)
               then ask UpstreamClosed else mret true);
      if (stale : bool) then _ ← ask Leave; mret None else mret (Some u)
  end.

(** The connection has been accepted by rustls: on to the upstream of the
    protocol it negotiated. *)
Definition after_handshake (ctx : ConnContext) (route : Route) (ef : EffectiveRoute) (tcp_health : option nat)
    (session : ServerConnection) (early : option upstream_stream) (predicted_h2 : bool) (sf : SourceForwarding)
    : conn (result ErrorKind unit) :=
  let negotiated_h2 := bool_decide (alpn_protocol session = Some (bs "h2")) in
  kept ← keep_early ef early predicted_h2 negotiated_h2;
  upstream ← match kept with
             | Some u => mret (Some u)
             | None => ask (Connect (destination_for ef negotiated_h2) (sa_ip (sf_peer_addr sf))
                              (cx_upstream_connect_timeout ctx) tcp_health)
             end;
  match upstream with
  | Some _ => proxy_via_tls ctx (mi_id (rt_identity route)) session sf
  | None => mret (Err EUpstreamConnect)
  end.

(** The local upstream of a route with peers, connected while the hello is
    unread: nothing when the connection is over, otherwise the upstream, if it
    was to be connected at all, and the handshake time left. *)
Definition connect_early (ctx : ConnContext) (route : Route) (ef : EffectiveRoute) (tcp_health : option nat)
    (peers : option (Failover * Z)) (hs_timeout : Z) (peek : PeekInfo) (sf : SourceForwarding)
    (predicted_h2 : bool) : conn (option (option upstream_stream * Z)) :=
  match (if pi_complete peek && negb (rt_requires_client_cert route) then peers else None) with
  | None => mret (Some (None, hs_timeout))
  | Some (fo, deadline) =>
      connected ← connect_or_forward ctx route (destination_for ef predicted_h2) tcp_health
                    (Some (fo, deadline)) hs_timeout peek sf;
      match connected with
      | None => mret None
      | Some u => now ← ask Now; mret (Some (Some u, saturating_sub deadline now))
      end
  end.

(** [if let Err(kind) = upstream_result] *)
Definition count_failure (route : Route) (r : result ErrorKind unit) : conn unit :=
  match r with Ok _ => mret tt | Err kind => count_route_error route kind end.

(** 5, when TLS ends here. *)
Definition terminate (ctx : ConnContext) (route : Route) (ef : EffectiveRoute) (tcp_health : option nat)
    (peers : option (Failover * Z)) (hs_timeout : Z) (peek : PeekInfo) (sf : SourceForwarding) : conn unit :=
  match ef_tls_config ef with
  | None => count_route_error route ETlsMissingCert
  | Some cfg =>
      predicted_h2 ← ask (Predict cfg (pi_offers_h2 peek));
      early ← connect_early ctx route ef tcp_health peers hs_timeout peek sf predicted_h2;
      match early with
      | None => mret tt
      | Some (upstream, hs_timeout) =>
          accepted ← ask (TlsAccept cfg hs_timeout (cx_tls_buffer_limit ctx));
          match accepted with
          | Err _ => count_route_error route ETlsHandshake
          | Ok session =>
              r ← after_handshake ctx route ef tcp_health session upstream predicted_h2 sf;
              count_failure route r
          end
      end
  end.

(** 5, when it does not. *)
Definition passthrough (ctx : ConnContext) (route : Route) (ef : EffectiveRoute) (tcp_health : option nat)
    (peers : option (Failover * Z)) (hs_timeout : Z) (peek : PeekInfo) (sf : SourceForwarding) : conn unit :=
  connected ← connect_or_forward ctx route (ef_destination ef) tcp_health peers hs_timeout peek sf;
  match connected with
  | None => mret tt
  | Some _ =>
      r ← proxy_raw ctx (mi_id (rt_identity route)) sf;
      count_failure route r
  end.

(** 5: the health and the peers of a route that is not suspended, the forwarding
    parameters, and the one handshake timeout for all that follows. An ingress
    connection tracks health but never goes on to a peer. *)
Definition go_upstream (ctx : ConnContext) (route : Route) (ef : EffectiveRoute) (peek : PeekInfo) (hs_timeout : Z)
    (peer : SocketAddr) (local : option SocketAddr) : conn unit :=
  let failover := if rt_suspended route then None else rt_failover route in
  let tcp_health := match failover with Some fo => fo_tcp_health fo | None => None end in
  let sf := mkForwarding (ef_source_address_mode ef) (ef_forward_fingerprint ef) (ef_protocol ef)
              (pi_ja3 peek) (pi_ja4 peek) (pi_sni peek) None peer local in
  peers ← match failover with
          | Some fo =>
              if cx_ingress ctx then mret None
              else now ← ask Now; mret (Some (fo, now + hs_timeout))
          | None => mret None
          end;
  if ef_terminate_tls ef
  then terminate ctx route ef tcp_health peers hs_timeout peek sf
  else passthrough ctx route ef tcp_health peers hs_timeout peek sf.

(** 3b to 5, for the route the server name leads to. *)
Definition serve (ctx : ConnContext) (route : Route) (peek : PeekInfo) (hs_timeout : Z) (peer : SocketAddr)
    (local : option SocketAddr) : conn unit :=
  if refuses_source (rt_allowed_sources route) (sa_ip peer)
  then ask (CountRouteBlocked (mi_id (rt_identity route)) BSourceNotAllowed)
  else
    acquired ← match rt_rate_limiter route with Some rl => ask (TryAcquire rl) | None => mret true end;
    if negb acquired then count_route_error route ERouteRateLimited
    else
      budget ← failover_step ctx route peek hs_timeout peer local;
      match budget with
      | None => mret tt
      | Some hs_timeout =>
          effective ← effective_route ctx route (pi_sni peek) peer;
          match effective with
          | None => mret tt
          | Some ef => go_upstream ctx route ef peek hs_timeout peer local
          end
      end.

Definition handle (ctx : ConnContext) (peer : SocketAddr) (local : option SocketAddr) : conn unit :=
  _ ← ask (Acquire (GActive None));
  hs_timeout ← ask HandshakeTimeout;
  source ← ingress_source ctx peer hs_timeout;
  match source with
  | None => mret tt
  | Some peer =>
      peek ← ask PeekHello;
      admitted ← protection_admits ctx (sa_ip peer) peek;
      if negb admitted then mret tt
      else
        route ← ask (ResolveRoute (pi_sni peek) (negb (cx_ingress ctx)));
        match route with
        | None => ask (CountError ENoRoute)
        | Some route =>
            _ ← ask (Acquire (GRoute (mi_id (rt_identity route))));
            serve ctx route peek hs_timeout peer local
        end
  end.

(** ** The process, and the answers *)

(** What the connections share. Metrics, protection and ingress state are kept by
    listener, route metrics by identity. *)
Record proc : Type := mkProc {
  pc_listeners : gmap nat ListenerMetrics;
  pc_global : GlobalMetrics;
  pc_routes : gmap nat RouteMetrics;
  pc_protection : gmap nat ProtectionState;
  pc_ingress : gmap nat IngressState;
  pc_table : RouteTable;
  pc_registry : SuspendedRegistry;
  pc_shared : shared;
  pc_fleet : fleet;
  pc_configs : config_store;
  pc_balancers : balancers;
}.

Definition listener_of (w : proc) (l : nat) : ListenerMetrics := default ListenerMetrics_default (pc_listeners w !! l).
Definition route_of (w : proc) (r : nat) : RouteMetrics := default RouteMetrics_default (pc_routes w !! r).
Definition protection_of (w : proc) (l : nat) : ProtectionState :=
  default (ProtectionState_new ProtectionConfig_default) (pc_protection w !! l).

Definition set_listener (w : proc) (l : nat) (m : ListenerMetrics) : proc :=
  mkProc (<[l := m]> (pc_listeners w)) (pc_global w) (pc_routes w) (pc_protection w) (pc_ingress w) (pc_table w)
    (pc_registry w) (pc_shared w) (pc_fleet w) (pc_configs w) (pc_balancers w).
Definition set_global (w : proc) (m : GlobalMetrics) : proc :=
  mkProc (pc_listeners w) m (pc_routes w) (pc_protection w) (pc_ingress w) (pc_table w)
    (pc_registry w) (pc_shared w) (pc_fleet w) (pc_configs w) (pc_balancers w).
Definition set_route_metrics (w : proc) (r : nat) (m : RouteMetrics) : proc :=
  mkProc (pc_listeners w) (pc_global w) (<[r := m]> (pc_routes w)) (pc_protection w) (pc_ingress w) (pc_table w)
    (pc_registry w) (pc_shared w) (pc_fleet w) (pc_configs w) (pc_balancers w).
Definition set_protection (w : proc) (l : nat) (st : ProtectionState) : proc :=
  mkProc (pc_listeners w) (pc_global w) (pc_routes w) (<[l := st]> (pc_protection w)) (pc_ingress w) (pc_table w)
    (pc_registry w) (pc_shared w) (pc_fleet w) (pc_configs w) (pc_balancers w).
Definition set_registry (w : proc) (r : SuspendedRegistry) : proc :=
  mkProc (pc_listeners w) (pc_global w) (pc_routes w) (pc_protection w) (pc_ingress w) (pc_table w)
    r (pc_shared w) (pc_fleet w) (pc_configs w) (pc_balancers w).
Definition set_shared (w : proc) (sh : shared) : proc :=
  mkProc (pc_listeners w) (pc_global w) (pc_routes w) (pc_protection w) (pc_ingress w) (pc_table w)
    (pc_registry w) sh (pc_fleet w) (pc_configs w) (pc_balancers w).
Definition set_fleet (w : proc) (fl : fleet) : proc :=
  mkProc (pc_listeners w) (pc_global w) (pc_routes w) (pc_protection w) (pc_ingress w) (pc_table w)
    (pc_registry w) (pc_shared w) fl (pc_configs w) (pc_balancers w).

Definition set_balancers (w : proc) (bl : balancers) : proc :=
  mkProc (pc_listeners w) (pc_global w) (pc_routes w) (pc_protection w) (pc_ingress w) (pc_table w)
    (pc_registry w) (pc_shared w) (pc_fleet w) (pc_configs w) bl.

(** What comes from outside at one question: clocks, the network, the
    application's queue, and the state of objects that belong to one route and
    that [TokenBucket], [Balancer] and [Failover] describe by themselves (its
    limiter's answer, what its balancer showed while it was choosing, its
    rotation). *)
Record io : Type := mkIo {
  io_now : Z;
  io_now' : Z;
  io_header : result HeaderReject Header;
  io_peek : PeekInfo;
  io_queued : bool;
  io_acquired : bool;
  io_hash : Z;
  io_rotation : Z;
  io_peers : fwd_world;
  io_read : bool * list io_event;
  io_load : nat -> Z -> option (Z * Z);
  io_seen : balancers;
  io_connects : world;
  io_closed : bool;
  io_accepted : result bool ServerConnection;
  io_copy : option copy_end * list io_event;
}.

Definition handshake_timeout (ctx : ConnContext) (w : proc) : Z :=
  if cx_protection ctx then tls_handshake_timeout (config (protection_of w (cx_listener ctx))) * 1000000
  else 10000000000.

(** [upstream::connect] *)
Definition connect (i : io) (w : proc) (d : Destination) (ip : IpAddr) (tcp_health : option nat)
    : option upstream_stream * proc :=
  match d with
  | Tcp addr =>
      match outcome (io_connects i) 0 [] with
      | None => (Some UpTcp, w)
      | Some e =>
          (None, match tcp_health with
                 | Some h => if is_refusal e then set_shared w (mark_refused (pc_shared w) h (io_now i)) else w
                 | None => w
                 end)
      end
  | UdsSet b =>
      let '(path, sh, bl) := connect_shared (io_connects i) (pc_shared w) (io_seen i) (pc_balancers w) b (Some ip)
                               (io_now i) in
      (UpUds (arc b) <$> path, set_balancers (set_shared w sh) bl)
  end.

(** The search for a peer; that the hello can be read and how the tunnel ends are
    separate questions. *)
Definition search_world (fw : fwd_world) : fwd_world :=
  mkFwd (fun k => Z.max 0 (fw_elapsed fw k)) (Z.max 0 (fw_elapsed_end fw)) (fw_io fw) (fw_clock fw)
    (fw_hello_seen fw) true (Ok tt).

Definition with_rotation (fo : Failover) (n : Z) : Failover :=
  mkFailover (fo_drain fo) (fo_probe_interval fo) (fo_cooldown_min_ns fo) (fo_cooldown_max_ns fo) (fo_peers fo) n
    (fo_tcp_health fo) (fo_status fo) (fo_spill fo).

(** rustls negotiates the first of the server's protocols that the client
    offered. *)
Definition predicts_h2 (config : ServerConfig) (offers_h2 : bool) : bool :=
  offers_h2 && match alpn_protocols config with p :: _ => bytes_eqb p (bs "h2") | [] => false end.

(** A timer that is off does not fire, and the watchdog only once the watch is
    armed. *)
Definition timed_end (half_close idle : Z) (armed : bool) (e : copy_end) : copy_end :=
  match e with
  | CopyHalfClosed => if armed && (0 <? half_close) then e else CopyErr false
  | CopyIdle => if 0 <? idle then e else CopyErr false
  | _ => e
  end.

(** Constructing a guard, and dropping it. *)
Definition acquire (ctx : ConnContext) (w : proc) (g : guard) : proc :=
  let l := cx_listener ctx in
  match g with
  | GActive _ =>
      let w := set_listener w l (lm_inc_active (listener_of w l)) in set_global w (gm_inc_active (pc_global w))
  | GRoute r => set_route_metrics w r (RouteActiveGuard_new (route_of w r))
  | GUpstream (UpUds a path) => set_balancers w (guard_new (pc_balancers w) a path)
  | GUpstream UpTcp => w
  | GHalfClosed => set_listener w l (lm_inc_half_closed (listener_of w l))
  end.

Definition drop_guard (ctx : ConnContext) (w : proc) (g : guard) : proc :=
  let l := cx_listener ctx in
  match g with
  | GActive ip_state =>
      let w := set_global w (gm_dec_active (pc_global w)) in
      let w := set_listener w l (lm_dec_active (listener_of w l)) in
      match ip_state with
      | Some id => set_protection w l (release (protection_of w l) id)
      | None => w
      end
  | GRoute r => set_route_metrics w r (RouteActiveGuard_drop (route_of w r))
  | GUpstream (UpUds a path) => set_balancers w (guard_drop (pc_balancers w) a path)
  | GUpstream UpTcp => w
  | GHalfClosed => set_listener w l (lm_dec_half_closed (listener_of w l))
  end.

(** [inc_route_blocked], [inc_route_error], and the bytes of a session. *)
Definition count_both (ctx : ConnContext) (w : proc) (r : nat)
    (f : ListenerMetrics -> RouteMetrics -> ListenerMetrics * RouteMetrics) : proc :=
  let '(l, m) := f (listener_of w (cx_listener ctx)) (route_of w r) in
  set_route_metrics (set_listener w (cx_listener ctx) l) r m.

Definition count_polls (polls : list io_event) (l : ListenerMetrics) (m : RouteMetrics)
    : ListenerMetrics * RouteMetrics :=
  let s := CountingStream_drop (foldl poll_io (CountingStream_new l (Some m)) polls) in
  (cs_listener s, default m (cs_route s)).

Definition perform (ctx : ConnContext) (i : io) (w : proc) (X : Type) (e : connE X) : X * proc :=
  let l := cx_listener ctx in
  match e in connE X return X * proc with
  | Acquire g => (tt, acquire ctx w g)
  | Leave => (tt, w)
  | HandshakeTimeout => (handshake_timeout ctx w, w)
  | Trusts ip => (match pc_ingress w !! l with Some st => trusts st ip | None => false end, w)
  | CountBlocked k => (tt, set_listener w l (lm_inc_blocked (listener_of w l) k))
  | CountError k => (tt, set_listener w l (lm_inc_error (listener_of w l) k))
  | CountRouteBlocked r k => (tt, count_both ctx w r (fun l m => inc_route_blocked l m k))
  | CountRouteError r k => (tt, count_both ctx w r (fun l m => inc_route_error l m k))
  | CountLoadQuery => (tt, set_listener w l (lm_inc_load_query (listener_of w l)))
  | ReadHeader _ => (io_header i, w)
  | LoadAnswers names =>
      ((fun name => n ← name; load_answer (pc_shared w) (io_load i) (pc_table w) n (io_now i)) <$> names, w)
  | WriteAnswer _ _ => (tt, w)
  | PeekHello => (io_peek i, w)
  | Check ip peek =>
      let '(d, st) := check_at (protection_of w l) ip peek (io_now i) (io_now' i) in (d, set_protection w l st)
  | Emit _ => (io_queued i, w)
  | ResolveRoute sni allow_default => (resolve_with (pc_table w) sni allow_default, w)
  | TryAcquire _ => (io_acquired i, w)
  | LocallyDown fo d h2 => (locally_down (pc_shared w) fo d h2, w)
  | SpillTarget fo cell _ =>
      let '(t, fl) := spill_target (pc_fleet w) fo cell (io_hash i) (io_now i) in (t, set_fleet w fl)
  | HandToPeers fo peek mode handshake peer local =>
      let '(r, _) := Failover.forward_to_peers (search_world (io_peers i)) (pc_fleet w)
                       (with_rotation fo (io_rotation i)) (pi_complete peek) (pi_hello_len peek) mode handshake
                       peer local (io_now i) in
      (fr_outcome r, set_fleet w (fr_fleet r))
  | ReadHello _ => (io_read i, w)
  | IncSuspended => (tt, set_global w (gm_inc_suspended (pc_global w)))
  | DecSuspended resolved => (tt, set_global w (gm_dec_suspended (pc_global w) resolved))
  | Register => let '(id, ch, r) := register (pc_registry w) in ((id, ch), set_registry w r)
  | AwaitResolution ch _ => let '(v, r) := receive (pc_registry w) ch in (v, set_registry w r)
  | RemovePending id => (tt, set_registry w (remove (pc_registry w) id))
  | Now => (io_now i, w)
  | Connect d ip _ tcp_health => connect i w d ip tcp_health
  | UpstreamClosed => (io_closed i, w)
  | TlsAccept _ _ _ => (io_accepted i, w)
  | Predict cfg offers_h2 =>
      (match configs (pc_configs w) !! cfg with Some c => predicts_h2 c offers_h2 | None => false end, w)
  | CopyUntilShut _ _ half_close idle =>
      ((timed_end half_close idle false <$> (io_copy i).1, (io_copy i).2), w)
  | CopyRest half_close idle =>
      ((timed_end half_close idle true (default CopyOk (io_copy i).1), (io_copy i).2), w)
  | CountBytes r polls => (tt, count_both ctx w r (count_polls polls))
  end.

(** What can be seen of a run. *)
Inductive obs : Type :=
  | OLimit (limit : Z)
  | OTrusted (ip : IpAddr) (b : bool)
  | OHeader (limit : Z) (r : result HeaderReject Header)
  | OLoadQuery
  | OPeeked (p : PeekInfo)
  | OChecked (ip : IpAddr) (p : PeekInfo) (d : Decision' nat)
  | OBlocked (k : BlockKind)
  | OError (k : ErrorKind)
  | OEmitted (ev : JsEvent)
  | ORouted (sni : option bytes) (allow_default : bool) (r : option Route)
  | OAcquired (rl : Atomic.RouteTokenBucket) (b : bool)
  | OForward (mode : ForwardMode) (handshake : Z) (found : Forwarded)
  | OResolved (r : option ResolvedRoute)
  | ONow (now : Z)
  | OConnect (d : Destination) (u : option upstream_stream)
  | OAccept (cfg : nat) (limit : Z) (r : result bool ServerConnection)
  | OCopy (prefix : bytes) (how : copy_how)
  | OCopied (e : copy_end).

Definition observe (X : Type) (e : connE X) (x : X) : list obs :=
  match e in connE X return X -> list obs with
  | HandshakeTimeout => fun z => [OLimit z]
  | Trusts ip => fun b => [OTrusted ip b]
  | CountBlocked k => fun _ => [OBlocked k]
  | CountError k => fun _ => [OError k]
  | CountRouteBlocked _ k => fun _ => [OBlocked k]
  | CountRouteError _ k => fun _ => [OError k]
  | CountLoadQuery => fun _ => [OLoadQuery]
  | ReadHeader limit => fun r => [OHeader limit r]
  | PeekHello => fun p => [OPeeked p]
  | Check ip p => fun d => [OChecked ip p d]
  | Emit ev => fun _ => [OEmitted ev]
  | ResolveRoute sni allow_default => fun r => [ORouted sni allow_default r]
  | TryAcquire rl => fun b => [OAcquired rl b]
  | HandToPeers _ _ mode handshake _ _ => fun r => [OForward mode handshake r]
  | AwaitResolution _ _ => fun r => [OResolved r]
  | Now => fun z => [ONow z]
  | Connect d _ _ _ => fun u => [OConnect d u]
  | TlsAccept cfg limit _ => fun r => [OAccept cfg limit r]
  | CopyUntilShut prefix how _ _ => fun r => OCopy prefix how :: match r.1 with Some e => [OCopied e] | None => [] end
  | CopyRest _ _ => fun r => [OCopied r.1]
  | _ => fun _ => []
  end x.

Definition runs_of (ctx : ConnContext) {A} (t : conn A) (tr : list obs) (a : A) : Prop :=
  runs (perform ctx) observe t tr a.

Lemma protection_of_set w l l' st :
  protection_of (set_protection w l st) l' = if decide (l = l') then st else protection_of w l'.
Proof.
  unfold protection_of. simpl. case_decide as Hd; [subst; by rewrite lookup_insert_eq | by rewrite lookup_insert_ne].
Qed.
End Connection.
