(* ===== verification/ConnectionRuns.v ===== *)
(** * What every run of a connection does (src/src/proxy_conn.rs)

    Statements about all runs of [Connection.handle]: what has been checked
    before a client reaches an upstream, a peer or the application, how long the
    steps may take, and how a connection is accounted for. Whatever happens to
    the shared state between two steps, they hold. *)

From S2P Require Import Prelude Bytes Net TokenBucket Sni Tls Protection ProxyProtocol Balancer BalancerState Metrics Failover Router HttpHead Forwarding Task Suspended Liveness Connection.

From Stdlib Require Import Sorting.Sorted.

Open Scope Z_scope.

(** ** The search for a peer *)

Lemma gave_up_search w fl fo mode handshake :
  match (gave_up w fl fo mode handshake).1 with
  | Done (Ok _) => False
  | Done (Err k) => k = EUpstreamConnect /\ mode = Down
  | ServeLocally b => mode <> Down /\ b = saturating_sub handshake (fw_elapsed_end w)
  end.
Proof. by destruct mode. Qed.

(** What the search can end with: a peer, the local node (but not when it is
    down) with no more time than there was, or a failed connect. *)
Definition search_ok (mode : ForwardMode) (handshake : Z) (f : Forwarded) : Prop :=
  match f with
  | Done (Ok _) => True
  | Done (Err k) => k = EUpstreamConnect /\ mode = Down
  | ServeLocally b => mode <> Down /\ b <= Z.max 0 handshake
  end.

Lemma gave_up_ok w fl fo mode handshake :
  0 <= fw_elapsed_end w -> search_ok mode handshake (gave_up w fl fo mode handshake).1.
Proof.
  intros He. pose proof (gave_up_search w fl fo mode handshake) as Hg. unfold search_ok.
  destruct (gave_up w fl fo mode handshake) as [[[|]|b] ?]; [done | done |].
  destruct Hg as [? ->]. split; [done |]. unfold saturating_sub. lia.
Qed.

Lemma forward_loop_search w fo mode handshake budget count hello_len peers attempt fl tried :
  0 <= fw_elapsed_end w -> fw_hello_read w = true -> fw_tunnel w = Ok tt ->
  search_ok mode handshake
    (fr_outcome (forward_loop w fo mode handshake budget count hello_len attempt peers fl tried)).
Proof.
  intros He Hr Ht. revert attempt fl tried. induction peers as [|p peers IH]; intros attempt fl tried; cbn [forward_loop].
  { pose proof (gave_up_ok w fl fo mode handshake He). by destruct (gave_up _ _ _ _ _). }
  cbv zeta. destruct (_ =? 0).
  { pose proof (gave_up_ok w fl fo mode handshake He). by destruct (gave_up _ _ _ _ _). }
  destruct (attempt_peer _ _) as [u|kind]; [|apply IH]. rewrite Hr. cbn [fr_outcome]. by rewrite Ht.
Qed.

Lemma search_outcome fw fl fo complete hello_len mode handshake peer local now :
  search_ok mode handshake
    (fr_outcome (Failover.forward_to_peers (search_world fw) fl fo complete hello_len mode handshake peer local now).1).
Proof.
  assert (0 <= fw_elapsed_end (search_world fw)) as He by (simpl; lia).
  pose proof (fun fo => gave_up_ok (search_world fw) fl fo mode handshake He) as Hg.
  unfold Failover.forward_to_peers. cbv zeta.
  assert (forall fo f, search_ok mode handshake (fr_outcome
    (let '(r, fl') := gave_up (search_world fw) fl fo mode handshake in mkFwdResult r fl' f 0))) as Hq.
  { intros fo0 f. specialize (Hg fo0). by destruct (gave_up _ _ _ _ _). }
  destruct (negb complete || _); [destruct mode; [done | apply (Hq fo []) | apply (Hq fo [])] |].
  destruct (candidates_for _ _ _ _) as [[count peers] fo']. destruct (count =? 0)%nat; [apply Hq |].
  destruct (write_proxy_v2_header _ _ _); [|apply Hq].
  destruct (bool_decide _); [|apply Hq]. simpl. by apply forward_loop_search.
Qed.

(** Only a connection whose hello was seen whole is handed on. *)
Lemma gave_up_not_handed w fl fo mode handshake : (gave_up w fl fo mode handshake).1 <> Done (Ok tt).
Proof. by destruct mode. Qed.

Lemma search_needs_hello fw fl fo complete hello_len mode handshake peer local now :
  fr_outcome (Failover.forward_to_peers fw fl fo complete hello_len mode handshake peer local now).1 = Done (Ok tt) ->
  complete = true.
Proof.
  unfold Failover.forward_to_peers. destruct complete; [done |]. cbn [negb orb fst].
  pose proof (gave_up_not_handed fw fl fo mode handshake). destruct (gave_up _ _ _ _ _). by destruct mode.
Qed.

Section Runs.
Context `{TlsLib} `{NetLib}.
Context (ctx : ConnContext) (peer : SocketAddr).

(** ** What has been established *)

(** The counts of a history, in order. *)
Definition counts (h : list obs) : list (BlockKind + ErrorKind) :=
  omap (fun o => match o with OBlocked k => Some (inl k) | OError k => Some (inr k) | _ => None end) h.

(** How the copies ended, the upstreams that could not be connected, the modes in
    which a peer took the connection, and the load queries. *)
Definition copies (h : list obs) : list copy_end :=
  omap (fun o => match o with OCopied e => Some e | _ => None end) h.
Definition fails (h : list obs) : list Destination :=
  omap (fun o => match o with OConnect d None => Some d | _ => None end) h.
Definition takes (h : list obs) : list ForwardMode :=
  omap (fun o => match o with OForward m _ (Done (Ok _)) => Some m | _ => None end) h.
Definition queries (h : list obs) : list unit :=
  omap (fun o => match o with OLoadQuery => Some tt | _ => None end) h.

(** The upstreams that were to be connected, and the times that were read. *)
Definition connects (h : list obs) : list Destination :=
  omap (fun o => match o with OConnect d _ => Some d | _ => None end) h.
Definition nows (h : list obs) : list Z := omap (fun o => match o with ONow z => Some z | _ => None end) h.
Definition clock_ok (h : list obs) : Prop := StronglySorted Z.le (nows h).

Lemma counts_app h k : counts (h ++ k) = counts h ++ counts k.
Proof. apply omap_app. Qed.
Lemma copies_app h k : copies (h ++ k) = copies h ++ copies k.
Proof. apply omap_app. Qed.
Lemma fails_app h k : fails (h ++ k) = fails h ++ fails k.
Proof. apply omap_app. Qed.
Lemma takes_app h k : takes (h ++ k) = takes h ++ takes k.
Proof. apply omap_app. Qed.
Lemma queries_app h k : queries (h ++ k) = queries h ++ queries k.
Proof. apply omap_app. Qed.
Lemma connects_app h k : connects (h ++ k) = connects h ++ connects k.
Proof. apply omap_app. Qed.
Lemma nows_app h k : nows (h ++ k) = nows h ++ nows k.
Proof. apply omap_app. Qed.

(** Nothing that bears on how the connection is accounted for. *)
Definition quiet (k : list obs) : Prop :=
  counts k = [] /\ copies k = [] /\ fails k = [] /\ takes k = [] /\ queries k = [].

Lemma quiet_app k k' : quiet k -> quiet k' -> quiet (k ++ k').
Proof.
  intros (H1 & H2 & H3 & H4 & H5) (H1' & H2' & H3' & H4' & H5'). unfold quiet.
  rewrite counts_app, copies_app, fails_app, takes_app, queries_app. by split_and!; [rewrite H1 | rewrite H2 | rewrite H3 | rewrite H4 | rewrite H5].
Qed.

(** No upstream has been tried and no time read. *)
Definition untimed (k : list obs) : Prop := nows k = [] /\ connects k = [].

Lemma untimed_app k k' : untimed k -> untimed k' -> untimed (k ++ k').
Proof. intros [H1 H2] [H1' H2']. unfold untimed. rewrite nows_app, connects_app. by rewrite H1, H2. Qed.

Lemma clock_app h k a b : clock_ok (h ++ k) -> ONow a ∈ h -> ONow b ∈ k -> a <= b.
Proof.
  unfold clock_ok. rewrite nows_app. intros Hs Ha Hb.
  assert (a ∈ nows h) as Ha' by (apply list_elem_of_omap; by exists (ONow a)).
  assert (b ∈ nows k) as Hb' by (apply list_elem_of_omap; by exists (ONow b)).
  clear Ha Hb. induction (nows h) as [|x l IH]; [by apply elem_of_nil in Ha' |].
  simpl in Hs. inversion Hs as [|? ? Hs' Hx]; subst. apply elem_of_cons in Ha' as [->|Ha']; [|by apply IH].
  rewrite List.Forall_forall in Hx. apply Hx. apply List.in_or_app. right. by apply list_elem_of_In.
Qed.

Lemma clock_prefix h h' : h `prefix_of` h' -> clock_ok h' -> clock_ok h.
Proof.
  intros [k ->]. unfold clock_ok. rewrite nows_app. induction (nows h) as [|x l IH]; intros Hs; [constructor |].
  inversion Hs as [|? ? Hs' Hx]; subst. constructor; [by apply IH |].
  apply Forall_app in Hx as [? ?]. done.
Qed.

(** The client has been let in on a route. *)
Record cleared (h : list obs) (client : SocketAddr) (peek : PeekInfo) (route : Route) : Prop := {
  cl_ingress : cx_ingress ctx = true ->
    OTrusted (sa_ip peer) true ∈ h /\ exists limit, OHeader limit (Ok (Proxy client)) ∈ h;
  cl_direct : cx_ingress ctx = false -> client = peer;
  cl_peeked : OPeeked peek ∈ h;
  cl_checked : cx_protection ctx = true ->
    exists d, OChecked (sa_ip client) peek d ∈ h /\ allowed d = true;
  cl_routed : ORouted (pi_sni peek) (negb (cx_ingress ctx)) (Some route) ∈ h;
  cl_source : refuses_source (rt_allowed_sources route) (sa_ip client) = false;
  cl_acquired : forall rl, rt_rate_limiter route = Some rl -> OAcquired rl true ∈ h;
}.

(** [d] is an upstream of the route, or of what the application answered for it;
    where the handshake comes first, it has succeeded. *)
Definition may_reach (h : list obs) (client : SocketAddr) (route : Route) (d : Destination) : Prop :=
  if rt_suspended route then
    exists r, OResolved (Some r) ∈ h /\ refuses_source (rr_allowed_sources r) (sa_ip client) = false /\
      d = rr_destination r /\
      (rr_terminate_tls r = true ->
       exists cfg limit s, rr_tls_config r = Some cfg /\ OAccept cfg limit (Ok s) ∈ h)
  else
    (d = rt_destination route \/ rt_destination_h2 route = Some d) /\
    (rt_terminate_tls route = true -> rt_requires_client_cert route = true ->
     exists cfg limit s, rt_tls_config route = Some cfg /\ OAccept cfg limit (Ok s) ∈ h).

(** The time between the first and the last reading of the clock. *)
Definition spent (h : list obs) : Z := default 0 (list.last (nows h)) - default 0 (head (nows h)).

(** Within what is left of the handshake timeout the connection started with. *)
Definition within (h : list obs) (limit : Z) : Prop :=
  exists hs, head h = Some (OLimit hs) /\ (clock_ok h -> limit <= Z.max 0 (hs - spent h)).

(** The clock was first read before any upstream was tried, and has been read
    again since. *)
Definition timely (h : list obs) : Prop :=
  connects h = [] \/
  exists h1 start h2 now, h = h1 ++ ONow start :: h2 ++ [ONow now] /\ untimed h1.

(** On an ingress, a trusted TCP peer has named the client. *)
Definition introduced (h : list obs) (client : SocketAddr) : Prop :=
  OTrusted (sa_ip peer) true ∈ h /\ exists limit, OHeader limit (Ok (Proxy client)) ∈ h.

(** What an observation may rely on having come before it. *)
Definition lawful (h : list obs) (o : obs) : Prop :=
  match o with
  | OHeader limit _ => OTrusted (sa_ip peer) true ∈ h /\ within h limit /\ timely h
  | OPeeked _ => cx_ingress ctx = true -> exists client, introduced h client
  | OConnect d _ => exists client peek route, cleared h client peek route /\ may_reach h client route d
  | OForward _ handshake f =>
      cx_ingress ctx = false /\ within h handshake /\ timely h /\
      exists client peek route, cleared h client peek route /\ (f = Done (Ok tt) -> pi_complete peek = true)
  | OAccept _ limit _ => within h limit /\ timely h /\ exists client peek route, cleared h client peek route
  | OEmitted (JsSuspended _ _ _ _ _) => exists client peek route, cleared h client peek route
  | OCopy _ _ => (exists d u, OConnect d (Some u) ∈ h) \/ (exists m z, OForward m z (Done (Ok tt)) ∈ h)
  | _ => True
  end.

Lemma cleared_mono h h' client peek route : h ⊆ h' -> cleared h client peek route -> cleared h' client peek route.
Proof.
  intros Hs [Hi Hd Hp Hc Hr Hsrc Ha]. split; auto.
  - intros Hin. destruct (Hi Hin) as [? [limit ?]]. split; [auto | by exists limit; auto].
  - intros Hpr. destruct (Hc Hpr) as (d & ? & ?). exists d. auto.
Qed.

(** ** Proof rules for the connection's tasks *)

Local Abbreviation safe := (Task.safe (perform ctx) observe lawful).

(** The history has grown by something of which [R] holds. *)
Definition after {A} (h : list obs) (R : list obs -> A -> Prop) (h' : list obs) (a : A) : Prop :=
  exists k, h' = h ++ k /\ R k a.

Lemma after_nil {A} h (R : list obs -> A -> Prop) a : R [] a -> after h R h a.
Proof. intros HR. exists []. by rewrite app_nil_r. Qed.

(** A task that runs after [k0] was added, with a statement about all that was
    added. *)
Lemma after_app {A} h k0 (R : list obs -> A -> Prop) h' a :
  after (h ++ k0) (fun k => R (k0 ++ k)) h' a -> after h R h' a.
Proof. intros (k & -> & HR). exists (k0 ++ k). by rewrite app_assoc. Qed.

Lemma elem_l (o : obs) h k : o ∈ h -> o ∈ h ++ k.
Proof. rewrite elem_of_app. auto. Qed.
Lemma elem_r (o : obs) h k : o ∈ k -> o ∈ h ++ k.
Proof. rewrite elem_of_app. auto. Qed.
Lemma elem_last (o : obs) h : o ∈ h ++ [o].
Proof. apply elem_r. constructor. Qed.

(** ** The copy *)

Definition reached (h : list obs) : Prop :=
  (exists d u, OConnect d (Some u) ∈ h) \/ (exists m z, OForward m z (Done (Ok tt)) ∈ h).

(** Nothing is counted; the result is that of the one copy, or a failure before
    it. *)
Definition copied (k : list obs) (r : result ErrorKind unit) : Prop :=
  counts k = [] /\ fails k = [] /\ takes k = [] /\ queries k = [] /\
  match copies k with [e] => r = copy_result e | [] => r = Err EStream | _ => False end.

Lemma copy_result_kind e : copy_result e <> Err EUpstreamConnect.
Proof. by destruct e as [|[]| |]. Qed.

Lemma copied_kind k r : copied k r -> r <> Err EUpstreamConnect.
Proof.
  intros (_ & _ & _ & _ & Hc). destruct (copies k) as [|e [|]]; [by subst r | | done]. subst r. apply copy_result_kind.
Qed.

Lemma copied_app k0 k r : quiet k0 -> copied k r -> copied (k0 ++ k) r.
Proof.
  intros (H1 & H2 & H3 & H4 & H5) (H1' & H3' & H4' & H5' & H2'). unfold copied.
  rewrite counts_app, copies_app, fails_app, takes_app, queries_app, H1, H2, H3, H4, H5. by split_and!.
Qed.

Lemma forward_safe h sf l7 : reached h -> safe (after h (fun k r => copied k r.1)) h (forward ctx sf l7).
Proof.
  intros Hr. unfold forward. destruct (write_connection_prefix sf) as [prefix|e].
  - apply safe_ask. intros i w [ended polls] _. destruct ended as [e|].
    + split; [done |]. apply safe_ret. eexists. by split.
    + split; [done |]. apply safe_ask. intros i1 w1 [] _. split; [done |].
      apply safe_ask. intros i2 w2 [e polls'] _. split; [done |].
      apply safe_ask. intros i3 w3 [] _. split; [done |]. apply safe_ret.
      simpl. rewrite !app_nil_r, <- app_assoc. eexists. by split.
  - apply safe_ret, after_nil. done.
Qed.

Lemma counted_forward_safe h route sf l7 polls :
  reached h -> safe (after h copied) h (counted_forward ctx route sf l7 polls).
Proof.
  intros Hr. eapply safe_then; [by apply forward_safe |].
  intros h' [r polls'] (k & -> & Hk). apply safe_ask. intros i w [] _. split; [done |].
  apply safe_ret. simpl. rewrite app_nil_r. by exists k.
Qed.

(** ** Handing the connection to a peer *)

(** A peer has the connection, which ends as the copy does or before it; or none
    has it. *)
Definition forwarded_ok (mode : ForwardMode) (handshake : Z) (k : list obs) (f : Forwarded) : Prop :=
  counts k = [] /\ fails k = [] /\ queries k = [] /\
  match f with
  | Done e =>
      (takes k = [mode] /\ match copies k with [c] => e = copy_result c | [] => e = Err EStream | _ => False end) \/
      (takes k = [] /\ copies k = [] /\ mode = Down /\ e = Err EUpstreamConnect)
  | ServeLocally b => takes k = [] /\ copies k = [] /\ untimed k /\ mode <> Down /\ b <= Z.max 0 handshake
  end.

Lemma forward_to_peers_safe h route fo peek mode handshake client local :
  cx_ingress ctx = false -> within h handshake -> timely h -> (exists r, cleared h client peek r) ->
  safe (after h (forwarded_ok mode handshake)) h
    (forward_to_peers ctx route fo peek mode handshake client local).
Proof.
  intros Hi Hw Htm [on Hc]. unfold forward_to_peers. apply safe_ask. intros i w found Hf.
  assert (search_ok mode handshake found) as Hs.
  { rewrite <- Hf. simpl.
    pose proof (search_outcome (io_peers i) (pc_fleet w) (with_rotation fo (io_rotation i)) (pi_complete peek)
      (pi_hello_len peek) mode handshake client local (io_now i)) as Hs.
    by destruct (Failover.forward_to_peers _ _ _ _ _ _ _ _ _ _). }
  assert (found = Done (Ok tt) -> pi_complete peek = true) as Hwhole.
  { rewrite <- Hf. simpl.
    pose proof (search_needs_hello (search_world (io_peers i)) (pc_fleet w) (with_rotation fo (io_rotation i))
      (pi_complete peek) (pi_hello_len peek) mode handshake client local (io_now i)) as Hn.
    by destruct (Failover.forward_to_peers _ _ _ _ _ _ _ _ _ _). }
  clear Hf. cbn [observe]. split; [split; [|done]; split_and!; [done | done | done | by exists client, peek, on] |].
  destruct found as [[[]|kind]|b].
  - apply safe_ask. intros i1 w1 [read polls] _. cbn [observe]. rewrite app_nil_r. split; [done |].
    assert (reached (h ++ [OForward mode handshake (Done (Ok tt))])) as Hreach
      by (right; eexists _, _; apply elem_last).
    destruct read; cbn [negb].
    + eapply safe_then; [by apply counted_forward_safe |].
      intros h' r (k & -> & H1 & H2 & H3 & H4 & H5). apply safe_ret. eapply after_app. exists k. split; [done |].
      unfold forwarded_ok. rewrite counts_app, fails_app, takes_app, queries_app, copies_app, H1, H2, H3, H4.
      split_and!; [done | done | done |]. left. by split.
    + apply safe_ask. intros i2 w2 [] _. split; [done |]. apply safe_ret. simpl. rewrite app_nil_r.
      eexists. split; [done |]. split_and!; [done | done | done |]. by left.
  - destruct Hs as [-> ->]. apply safe_ret. eexists. split; [done |]. split_and!; [done | done | done |]. by right.
  - apply safe_ret. eexists. split; [done |]. destruct Hs as [Hm Hb]. by split_and!.
Qed.

(** ** Accounting *)

(** The failed local connect of a connection that a peer then took. *)
Definition taken_over (k : list obs) : list (BlockKind + ErrorKind) :=
  match fails k, takes k with _ :: _, _ :: _ => [inr EUpstreamConnect] | _, _ => [] end.

Definition faults (r : result ErrorKind unit) : list (BlockKind + ErrorKind) :=
  match r with Ok _ => [] | Err kind => [inr kind] end.

(** How a connection that is over has been accounted for: a load query by
    nothing; one that was copied by how the copy ended, and nothing if it ended
    well; any other by one refusal or error; after the failed local connect, if a
    peer has taken it. *)
Definition settled (k : list obs) : Prop :=
  match queries k, copies k with
  | [], [e] => counts k = taken_over k ++ faults (copy_result e)
  | [], [] => exists x, counts k = taken_over k ++ [x]
  | _ :: _, [] => counts k = []
  | _, _ => False
  end.

Lemma settled_app k0 k : quiet k0 -> settled k -> settled (k0 ++ k).
Proof.
  intros (H1 & H2 & H3 & H4 & H5). unfold settled, taken_over.
  by rewrite counts_app, copies_app, fails_app, takes_app, queries_app, H1, H2, H3, H4, H5.
Qed.

Lemma settled_one k0 k x : quiet k0 -> counts k = [x] -> copies k = [] -> fails k = [] -> queries k = [] -> settled (k0 ++ k).
Proof.
  intros Hq H1 H2 H3 H4. apply settled_app; [done |]. unfold settled, taken_over. rewrite H2, H4, H3. by exists x.
Qed.

Lemma settled_alone k x : counts k = [x] -> copies k = [] -> fails k = [] -> queries k = [] -> settled k.
Proof. intros. by apply (settled_one []) with x. Qed.

(** The connection is over and settled, or goes on uncounted. *)
Definition goes_on {A} (R : list obs -> A -> Prop) (k : list obs) (o : option A) : Prop :=
  match o with None => settled k | Some a => quiet k /\ R k a end.

(** ** Time *)

Lemma head_app (h k : list obs) o : head h = Some o -> head (h ++ k) = Some o.
Proof. by destruct h. Qed.

Lemma spent_app h k : nows k = [] -> spent (h ++ k) = spent h.
Proof. intros Hk. unfold spent. by rewrite nows_app, Hk, app_nil_r. Qed.

Lemma clock_ok_l h k : clock_ok (h ++ k) -> clock_ok h.
Proof. apply clock_prefix. by exists k. Qed.

Lemma within_app h k z : nows k = [] -> within h z -> within (h ++ k) z.
Proof.
  intros Hk (hs & ? & Hz). exists hs. split; [by apply head_app |]. rewrite spent_app by done.
  intros Hc. by apply Hz, (clock_ok_l _ k).
Qed.

Lemma within_le h z z' : within h z -> z' <= Z.max 0 z -> within h z'.
Proof. intros (hs & ? & Hz) Hle. exists hs. split; [done |]. intros Hc. specialize (Hz Hc). lia. Qed.

(** The first reading of the clock. *)
Lemma within_first h z now : nows h = [] -> within h z -> within (h ++ [ONow now]) z.
Proof.
  intros Hh (hs & ? & Hz). exists hs. split; [by apply head_app |]. intros Hc. specialize (Hz (clock_ok_l _ _ Hc)).
  unfold spent in *. rewrite nows_app, Hh in *. simpl in *. lia.
Qed.

(** A deadline that leaves no more than the handshake timeout from the first
    reading of the clock, which came before any upstream was tried. *)
Definition deadline_ok (h : list obs) (deadline : Z) : Prop :=
  exists hs h1 start h2, head h = Some (OLimit hs) /\ h = h1 ++ ONow start :: h2 /\ untimed h1 /\
    (clock_ok h -> deadline <= start + Z.max 0 hs).

Lemma deadline_app h k z : deadline_ok h z -> deadline_ok (h ++ k) z.
Proof.
  intros (hs & h1 & start & h2 & ? & -> & ? & Hz). exists hs, h1, start, (h2 ++ k).
  split_and!; [by apply head_app | by rewrite <- app_assoc | done |]. intros Hc. by apply Hz, (clock_ok_l _ k).
Qed.

Lemma deadline_set h hs now : untimed h -> within h hs -> deadline_ok (h ++ [ONow now]) (now + hs).
Proof.
  intros Hu (hs0 & ? & Hz). exists hs0, h, now, []. split_and!; [by apply head_app | done | done |].
  intros Hc. specialize (Hz (clock_ok_l _ _ Hc)). unfold spent in Hz. rewrite (proj1 Hu) in Hz. simpl in Hz. lia.
Qed.

Lemma deadline_left h now deadline :
  deadline_ok h deadline -> within (h ++ [ONow now]) (saturating_sub deadline now) /\ timely (h ++ [ONow now]).
Proof.
  intros (hs & h1 & start & h2 & Hh & -> & Hu & Hz). split.
  - exists hs. split; [by apply head_app |]. intros Hc. pose proof (Hz (clock_ok_l _ _ Hc)) as Hle.
    assert (spent ((h1 ++ ONow start :: h2) ++ [ONow now]) = now - start) as ->.
    { unfold spent. rewrite nows_app. change (nows [ONow now]) with [now]. by rewrite last_snoc, nows_app, (proj1 Hu). }
    assert (start <= now) by (eapply (clock_app (h1 ++ ONow start :: h2) [ONow now]); [done | |];
      [apply elem_of_app; right; constructor | constructor]).
    unfold saturating_sub. lia.
  - right. exists h1, start, h2, now. split; [by rewrite <- app_assoc | done].
Qed.

Lemma timely_untimed h : untimed h -> timely h.
Proof. intros [_ ?]. by left. Qed.

Lemma sorted_ends (l : list Z) : StronglySorted Z.le l -> default 0 (head l) <= default 0 (list.last l).
Proof.
  intros Hs. destruct l as [|x l]; [done |]. simpl head. inversion Hs as [|? ? _ Hx]; subst.
  destruct (list.last (x :: l)) as [y|] eqn:E; [|by apply last_None in E]. simpl. apply last_Some in E as [l' El].
  destruct l' as [|x' l']; simplify_eq/=; [done |]. rewrite List.Forall_forall in Hx. apply Hx. apply in_or_app. right. by left.
Qed.

Lemma spent_pos h : clock_ok h -> 0 <= spent h.
Proof. intros Hs%sorted_ends. unfold spent. lia. Qed.

(** ** The parts of a connection *)

Section OnRoute.
Context (client : SocketAddr) (peek : PeekInfo) (route : Route).

Definition ready_for (h : list obs) : Prop := cleared h client peek route.

Lemma ready_app h k : ready_for h -> ready_for (h ++ k).
Proof. apply cleared_mono. intros o ?. by apply elem_l. Qed.

Lemma ready_here h : ready_for h -> exists r, cleared h client peek r.
Proof. intros Hr. by exists route. Qed.

Lemma ready_ex h : ready_for h -> exists c p r, cleared h c p r.
Proof. intros Hr. by exists client, peek, route. Qed.

Definition peers_ok (h : list obs) (peers : option (Failover * Z)) : Prop :=
  match peers with
  | Some (_, deadline) => cx_ingress ctx = false /\ rt_suspended route = false /\ deadline_ok h deadline
  | None => True
  end.

Lemma peers_app h k peers : peers_ok h peers -> peers_ok (h ++ k) peers.
Proof. destruct peers as [[fo d]|]; [|done]. intros (? & ? & ?). split_and!; auto using deadline_app. Qed.

Lemma failover_step_safe h hs local :
  ready_for h -> within h hs -> untimed h ->
  safe (after h (goes_on (fun k b => untimed k /\ b <= Z.max 0 hs))) h (failover_step ctx route peek hs client local).
Proof.
  intros Hr Hw Hu. unfold failover_step.
  destruct (rt_failover route) as [fo|]; [|by apply safe_ret, after_nil; split_and!; [done.. | lia]].
  apply safe_ask. intros i w down _. cbn [observe]. rewrite app_nil_r. split; [done |].
  apply safe_then with (R := fun h' _ => h' = h).
  { destruct (_ || fo_drain fo); [by apply safe_ret |]. destruct (fo_spill fo) as [[pol cell]|]; [|by apply safe_ret].
    apply safe_last. intros i1 w1 t _. cbn [observe]. by rewrite app_nil_r. }
  intros h' spill ->.
  assert (forall mode, decide_failover (cx_ingress ctx) (rt_suspended route) down (fo_drain fo) (fun _ => spill)
    = Forward mode -> cx_ingress ctx = false) as Hfwd by (unfold decide_failover; intros mode; by repeat case_match).
  destruct (decide_failover _ _ _ _ _) as [|mode|].
  - apply safe_ask. intros i1 w1 [] _. split; [done |]. apply safe_ret. eexists. split; [done |]. by eapply settled_alone.
  - eapply safe_then.
    { apply forward_to_peers_safe; [by eapply Hfwd | done | by apply timely_untimed | by apply ready_here]. }
    intros h' f (k & -> & H1 & H2 & H3 & Hf). destruct f as [e|b].
    + assert (settled (k ++ (match e with Ok _ => [] | Err kind => [OError kind] end))) as Hset.
      { unfold settled, taken_over. rewrite queries_app, copies_app, counts_app, fails_app, H1, H2, H3.
        destruct Hf as [[_ Hc]|(_ & -> & _ & ->)]; [|by eexists]. destruct (copies k) as [|c [|]]; [subst e; by eexists | | done].
        subst e. by destruct c as [|[]| |]. }
      destruct e as [[]|kind]; [apply safe_ret; exists k; split; [done |]; by rewrite app_nil_r in Hset |].
      apply safe_ask. intros i1 w1 [] _. split; [done |]. apply safe_ret. cbn [observe]. rewrite <- app_assoc. by eexists.
    + destruct Hf as (H4 & H5 & Hk & _ & Hb). apply safe_ret. exists k. split; [done |]. by split_and!.
  - apply safe_ret, after_nil. split_and!; [done.. | lia].
Qed.

(** The effective route is the route's own, or what was answered for it. *)
Definition effective_of (h : list obs) (ef : EffectiveRoute) : Prop :=
  if rt_suspended route then
    exists r, OResolved (Some r) ∈ h /\ refuses_source (rr_allowed_sources r) (sa_ip client) = false /\
      ef = mkEffective (rr_destination r) None (rr_tls_config r) (rr_terminate_tls r)
             (rr_source_address_mode r) (rr_forward_fingerprint r) (rr_protocol r)
  else ef = mkEffective (rt_destination route) (rt_destination_h2 route) (rt_tls_config route)
              (rt_terminate_tls route) (rt_source_address_mode route) (rt_forward_fingerprint route)
              (rt_protocol route).

Lemma effective_app h k ef : effective_of h ef -> effective_of (h ++ k) ef.
Proof.
  unfold effective_of. destruct (rt_suspended route); [|done].
  intros (r & ? & ? & ?). exists r. split_and!; [by apply elem_l | done | done].
Qed.

Lemma effective_route_safe h sni :
  ready_for h ->
  safe (after h (goes_on (fun k ef => untimed k /\ effective_of (h ++ k) ef))) h (effective_route ctx route sni client).
Proof.
  intros Hr. unfold effective_route, effective_of. destruct (rt_suspended route) eqn:Hsus.
  2: { apply safe_ret, after_nil. done. }
  apply safe_ask. intros i w [] _. cbn [observe]. rewrite app_nil_r. split; [done |].
  apply safe_ask. intros i1 w1 [id rx] _. cbn [observe]. rewrite app_nil_r. split; [done |].
  apply safe_ask. intros i2 w2 q _. cbn [observe]. split; [split; [by apply ready_ex | done] |].
  apply safe_ask. intros i3 w3 [r|] _; cbn [observe]; (split; [done |]); rewrite <- app_assoc.
  - apply safe_ask. intros i4 w4 [] _. cbn [observe]. rewrite app_nil_r. split; [done |].
    destruct (refuses_source (rr_allowed_sources r) (sa_ip client)) eqn:Hsrc.
    + apply safe_ask. intros i5 w5 [] _. cbn [observe]. split; [done |]. rewrite <- app_assoc.
      apply safe_ret. eexists. split; [done |]. by eapply settled_alone.
    + apply safe_ret. eexists. split; [done |]. split; [done |]. split; [done |]. exists r. split_and!; [|done | done].
      apply elem_r. by repeat constructor.
  - apply safe_ask. intros i4 w4 [] _. cbn [observe]. rewrite app_nil_r. split; [done |].
    apply safe_ask. intros i5 w5 [] _. cbn [observe]. rewrite app_nil_r. split; [done |].
    apply safe_ask. intros i6 w6 [] _. cbn [observe]. split; [done |]. rewrite <- app_assoc.
    apply safe_ret. eexists. split; [done |]. by eapply settled_alone.
Qed.

(** Before the handshake, when there is none. *)
Lemma reach_passthrough h ef :
  effective_of h ef -> ef_terminate_tls ef = false -> may_reach h client route (ef_destination ef).
Proof.
  unfold effective_of, may_reach. destruct (rt_suspended route).
  - intros (r & ? & ? & ->) Ht. exists r. simpl in *. split_and!; [done.. | congruence].
  - intros -> Ht. simpl in *. split; [by left | congruence].
Qed.

Lemma destination_for_cases ef b :
  destination_for ef b = ef_destination ef \/ ef_destination_h2 ef = Some (destination_for ef b).
Proof. unfold destination_for. destruct (ef_destination_h2 ef), b; auto. Qed.

(** Before the handshake, on a route that requires no certificate. *)
Lemma reach_early h ef b :
  effective_of h ef -> rt_suspended route = false -> rt_requires_client_cert route = false ->
  may_reach h client route (destination_for ef b).
Proof.
  unfold effective_of, may_reach. intros He Hs Hc. rewrite Hs in *. subst ef.
  split; [|congruence]. apply destination_for_cases.
Qed.

(** After it. *)
Lemma reach_accepted h ef b cfg limit session :
  effective_of h ef -> ef_tls_config ef = Some cfg -> OAccept cfg limit (Ok session) ∈ h ->
  may_reach h client route (destination_for ef b).
Proof.
  unfold effective_of, may_reach. intros He Hcfg Hacc. destruct (rt_suspended route).
  - destruct He as (r & ? & ? & ->). exists r. simpl in *. split_and!; [done.. |]. intros _. by exists cfg, limit, session.
  - subst ef. split; [apply destination_for_cases |]. intros _ _. by exists cfg, limit, session.
Qed.

(** One attempt at an upstream. *)
Definition attempted (d : Destination) (k : list obs) (u : option upstream_stream) : Prop := k = [OConnect d u].

Lemma connect_safe h d ip limit tcp_health :
  ready_for h -> may_reach h client route d ->
  safe (after h (attempted d)) h (ask (Connect d ip limit tcp_health)).
Proof.
  intros Hr Hm. apply safe_last. intros i w u _. cbn [observe]. split.
  { split; [|done]. by exists client, peek, route. }
  by eexists.
Qed.

Lemma connect_or_forward_safe h d tcp_health peers hs sf :
  ready_for h -> may_reach h client route d -> peers_ok h peers -> sf_peer_addr sf = client ->
  safe (after h (goes_on (fun k u => k = [OConnect d (Some u)]))) h
    (connect_or_forward ctx route d tcp_health peers hs peek sf).
Proof.
  intros Hr Hm Hp Hsf. unfold connect_or_forward. rewrite Hsf. cbv zeta.
  eapply safe_then; [by apply connect_safe |]. intros h' u (k & -> & ->).
  destruct u as [u|]; [by apply safe_ret; eexists |].
  apply safe_ask. intros i w [] _. cbn [observe]. split; [done |]. rewrite <- app_assoc.
  destruct peers as [[fo deadline]|].
  2: { apply safe_ret. eexists. split; [done |]. by eexists. }
  destruct Hp as (Hi & _ & Hd).
  apply safe_ask. intros i1 w1 now _. cbn [observe]. split; [done |].
  destruct (deadline_left (h ++ [OConnect d None] ++ [OError EUpstreamConnect]) now deadline (deadline_app _ _ _ Hd)) as [Hw Ht].
  eapply safe_then.
  { apply forward_to_peers_safe; [done | exact Hw | exact Ht |]. by apply ready_here, ready_app, ready_app. }
  intros h' f (k & -> & H1 & H2 & H3 & Hf). rewrite <- !app_assoc.
  assert (forall e, f = Done e -> settled ([OConnect d None] ++ [OError EUpstreamConnect] ++ [ONow now] ++ k ++
    match e with Err EUpstreamConnect | Ok _ => [] | Err kind => [OError kind] end)) as Hset.
  { intros e ->. unfold settled, taken_over.
    rewrite !queries_app, !copies_app, !counts_app, !fails_app, !takes_app, H1, H2, H3. cbn [app].
    destruct Hf as [[-> Hc]|(-> & -> & _ & ->)]; [|by eexists].
    destruct (copies k) as [|c [|]]; [subst e; by eexists | | done]. subst e. by destruct c as [|[]| |]. }
  destruct f as [[[]|kind]|b]; [| |by destruct Hf as (_ & _ & _ & ? & _)].
  - specialize (Hset (Ok tt) eq_refl). rewrite app_nil_r in Hset. apply safe_ret. by eexists.
  - specialize (Hset (Err kind) eq_refl). destruct kind;
      first [apply safe_ret; rewrite app_nil_r in Hset; eexists; split; [done | exact Hset] |
             apply safe_ask; intros i2 w2 [] _; cbn [observe]; split; [done |]; apply safe_ret;
             rewrite <- !app_assoc; eexists; split; [done | exact Hset]].
Qed.

Lemma keep_early_safe h ef early predicted negotiated :
  safe (after h (fun k u => k = [] /\ forall x, u = Some x -> early = Some x)) h
    (keep_early ef early predicted negotiated).
Proof.
  unfold keep_early. destruct early as [u|]; [|by apply safe_ret, after_nil].
  apply safe_then with (R := fun h' _ => h' = h).
  { destruct (Bool.eqb _ _); [|by apply safe_ret].
    apply safe_last. intros i w b _. cbn [observe]. by rewrite app_nil_r. }
  intros h' stale ->. destruct stale; [|by apply safe_ret, after_nil].
  apply safe_ask. intros i w [] _. cbn [observe]. rewrite app_nil_r. split; [done |]. by apply safe_ret, after_nil.
Qed.

(** Copied, or not connected. *)
Definition finished (k : list obs) (r : result ErrorKind unit) : Prop :=
  copied k r \/
  (counts k = [] /\ copies k = [] /\ takes k = [] /\ queries k = [] /\ r = Err EUpstreamConnect).

Lemma finished_app k0 k r : quiet k0 -> finished k r -> finished (k0 ++ k) r.
Proof.
  intros Hq [Hc|(H1 & H2 & H3 & H4 & ->)]; [left; by apply copied_app | right].
  destruct Hq as (Q1 & Q2 & Q3 & Q4 & Q5).
  by rewrite counts_app, copies_app, takes_app, queries_app, Q1, Q2, Q4, Q5.
Qed.

Lemma after_handshake_safe h ef tcp_health session early predicted sf cfg limit :
  ready_for h -> effective_of h ef -> ef_tls_config ef = Some cfg -> OAccept cfg limit (Ok session) ∈ h ->
  (forall u, early = Some u -> exists d, OConnect d (Some u) ∈ h) ->
  safe (after h finished) h (after_handshake ctx route ef tcp_health session early predicted sf).
Proof.
  intros Hr He Hcfg Hacc Hearly. unfold after_handshake. cbv zeta.
  set (negotiated := bool_decide _). clearbody negotiated.
  eapply safe_then; [apply keep_early_safe |]. intros h1 kept (k1 & -> & -> & Hkept). rewrite app_nil_r.
  apply safe_then with (R := after h (fun k u =>
    match u with Some x => quiet k /\ exists d, OConnect d (Some x) ∈ h ++ k | None => exists d, k = [OConnect d None] end)).
  { destruct kept as [u|].
    - apply safe_ret, after_nil. split; [done |]. destruct (Hearly u (Hkept u eq_refl)) as [d Hd]. exists d. by apply elem_l.
    - eapply safe_mono; [apply connect_safe; [done |] |].
      + by eapply reach_accepted.
      + intros h' u (k & -> & ->). eexists. split; [done |]. destruct u as [u|]; [|by eexists].
        split; [done |]. eexists. apply elem_last. }
  intros h2 u (k2 & -> & Hu). destruct u as [u|].
  - destruct Hu as [Hq [d Hd]]. unfold proxy_via_tls. cbv zeta.
    eapply safe_mono; [apply counted_forward_safe; left; by eexists _, _ |].
    intros h' r (k & -> & Hk). exists (k2 ++ k). split; [by rewrite app_assoc |]. apply finished_app; [done | by left].
  - destruct Hu as [d ->]. apply safe_ret. eexists. split; [done |]. by right.
Qed.

Lemma count_failure_safe h k0 r :
  finished k0 r -> safe (after h (fun k _ => settled k)) (h ++ k0) (count_failure route r).
Proof.
  intros Hf. assert (settled (k0 ++ match r with Ok _ => [] | Err kind => [OError kind] end)) as Hset.
  { unfold settled, taken_over. rewrite queries_app, copies_app, counts_app, fails_app, takes_app.
    destruct Hf as [(-> & -> & -> & -> & Hc)|(-> & -> & -> & -> & ->)]; [|destruct (fails k0); by eexists].
    destruct (copies k0) as [|c [|]]; [subst r; by eexists | | done]. subst r. by destruct c as [|[]| |]. }
  destruct r as [[]|kind]; simpl.
  - apply safe_ret. exists k0. split; [done |]. by rewrite app_nil_r in Hset.
  - apply safe_last. intros i w [] _. cbn [observe]. split; [done |]. rewrite <- app_assoc. by eexists.
Qed.

(** What is left of the time, and the upstream if one is connected already. *)
Definition early_ok (h k : list obs) (e : option upstream_stream * Z) : Prop :=
  within (h ++ k) e.2 /\ timely (h ++ k) /\ forall u, e.1 = Some u -> exists d, OConnect d (Some u) ∈ k.

Lemma connect_early_safe h ef tcp_health peers hs sf predicted :
  ready_for h -> effective_of h ef -> peers_ok h peers -> within h hs -> connects h = [] -> sf_peer_addr sf = client ->
  safe (after h (goes_on (early_ok h))) h (connect_early ctx route ef tcp_health peers hs peek sf predicted).
Proof.
  intros Hr He Hp Hw Hn Hsf. unfold connect_early.
  assert (safe (after h (goes_on (early_ok h))) h (mret (Some (None, hs)))) as Hnone.
  { apply safe_ret, after_nil. split; [done |]. unfold early_ok. rewrite app_nil_r. split_and!; [done | by left | done]. }
  destruct (pi_complete peek); [|done]. destruct (rt_requires_client_cert route) eqn:Hreq; [done |]. cbn [negb andb].
  destruct peers as [[fo deadline]|]; [|done]. destruct Hp as (Hi & Hsus & Hd).
  eapply safe_then; [apply connect_or_forward_safe; [done | by apply reach_early | by split_and! | done] |].
  intros h' u (k & -> & Hk). destruct u as [u|]; [|by apply safe_ret; exists k].
  destruct Hk as [Hk Hu]. apply safe_ask. intros i w now _. cbn [observe]. split; [done |].
  apply safe_ret. rewrite <- app_assoc. eexists. split; [done |]. split; [by apply quiet_app |].
  destruct (deadline_left (h ++ k) now deadline (deadline_app _ _ _ Hd)) as [Hw' Ht'].
  unfold early_ok. rewrite app_assoc. split_and!; [exact Hw' | exact Ht' |].
  intros x [= <-]. eexists. subst k. by constructor.
Qed.

Lemma terminate_safe h ef tcp_health peers hs sf :
  ready_for h -> effective_of h ef -> peers_ok h peers -> within h hs -> connects h = [] -> sf_peer_addr sf = client ->
  safe (after h (fun k _ => settled k)) h (terminate ctx route ef tcp_health peers hs peek sf).
Proof.
  intros Hr He Hp Hw Hn Hsf. unfold terminate. destruct (ef_tls_config ef) as [cfg|] eqn:Hcfg.
  2: { apply safe_last. intros i w [] _. split; [done |]. eexists. split; [done |]. by eapply settled_alone. }
  apply safe_ask. intros i w predicted _. cbn [observe]. rewrite app_nil_r. split; [done |].
  eapply safe_then; [by apply connect_early_safe |]. intros h1 early (k1 & -> & Hk1).
  destruct early as [[upstream hs1]|]; [|by apply safe_ret; exists k1]. destruct Hk1 as (Hk1 & Hw1 & Ht1 & Hu).
  apply safe_ask. intros i1 w1 accepted _. cbn [observe]. split.
  { split; [|done]. split_and!; [done | done |]. by apply ready_ex, ready_app. }
  rewrite <- app_assoc. destruct accepted as [session|timed_out].
  - eapply safe_then.
    { apply after_handshake_safe with cfg hs1; [by apply ready_app | by apply effective_app | done | |].
      - apply elem_r, elem_last.
      - intros u ->. destruct (Hu u eq_refl) as [d Hd]. exists d. by apply elem_r, elem_l. }
    intros h2 r (k2 & -> & Hk2). rewrite <- app_assoc. apply count_failure_safe.
    apply finished_app; [by apply quiet_app | done].
  - apply safe_last. intros i2 w2 [] _. cbn [observe]. split; [done |]. rewrite <- app_assoc.
    eexists. split; [done |]. rewrite <- app_assoc. apply settled_app; [done |]. by eapply settled_alone.
Qed.

Lemma passthrough_safe h ef tcp_health peers hs sf :
  ready_for h -> effective_of h ef -> ef_terminate_tls ef = false -> peers_ok h peers -> sf_peer_addr sf = client ->
  safe (after h (fun k _ => settled k)) h (passthrough ctx route ef tcp_health peers hs peek sf).
Proof.
  intros Hr He Ht Hp Hsf. unfold passthrough.
  eapply safe_then; [apply connect_or_forward_safe; [done | by apply reach_passthrough | done | done] |].
  intros h1 u (k1 & -> & Hk1). destruct u as [u|]; [|by apply safe_ret; exists k1]. destruct Hk1 as [Hk1 ->].
  eapply safe_then; [apply counted_forward_safe; left; eexists _, _; apply elem_last |].
  intros h2 r (k2 & -> & Hk2). rewrite <- app_assoc. apply count_failure_safe. apply finished_app; [done | by left].
Qed.

Lemma go_upstream_safe h ef hs local :
  ready_for h -> effective_of h ef -> within h hs -> untimed h ->
  safe (after h (fun k _ => settled k)) h (go_upstream ctx route ef peek hs client local).
Proof.
  intros Hr He Hw Hu. unfold go_upstream. cbv zeta.
  apply safe_then with (R := after h (fun k peers => quiet k /\ within (h ++ k) hs /\ connects (h ++ k) = [] /\
    peers_ok (h ++ k) peers)).
  { assert (safe (after h (fun k peers => quiet k /\ within (h ++ k) hs /\ connects (h ++ k) = [] /\
      peers_ok (h ++ k) peers)) h (mret None)) as Hnone.
    { apply safe_ret, after_nil. rewrite app_nil_r. split_and!; [done.. | apply Hu | done]. }
    destruct (rt_suspended route) eqn:Hsus; [done |]. destruct (rt_failover route) as [fo|]; [|done].
    destruct (cx_ingress ctx) eqn:Hin; [done |].
    apply safe_ask. intros i w now _. cbn [observe]. split; [done |]. apply safe_ret.
    eexists. split; [done |]. split_and!; [done.. | apply within_first; [apply Hu | done] | |].
    - rewrite connects_app. by rewrite (proj2 Hu).
    - split_and!; [done | done | by apply deadline_set]. }
  intros h1 peers (k1 & -> & Hk1 & Hw1 & Hn1 & Hp).
  assert (ready_for (h ++ k1)) as Hr1 by by apply ready_app.
  assert (effective_of (h ++ k1) ef) as He1 by by apply effective_app.
  destruct (ef_terminate_tls ef) eqn:Ht; (eapply safe_mono;
    [first [by eapply terminate_safe | by eapply passthrough_safe] |]);
    intros h2 [] (k2 & -> & Hk2); exists (k1 ++ k2); (split; [by rewrite app_assoc | by apply settled_app]).
Qed.
End OnRoute.

(** ** The whole connection *)

(** Let in, but for the route's own conditions. *)
Definition admitted (h : list obs) (client : SocketAddr) (peek : PeekInfo) : Prop :=
  (cx_ingress ctx = true -> introduced h client) /\
  (cx_ingress ctx = false -> client = peer) /\ OPeeked peek ∈ h /\
  (cx_protection ctx = true -> exists d, OChecked (sa_ip client) peek d ∈ h /\ allowed d = true).

Lemma introduced_app h k c : introduced h c -> introduced (h ++ k) c.
Proof. intros [Ht [limit Hl]]. split; [by apply elem_l |]. exists limit. by apply elem_l. Qed.

Lemma serve_safe h client peek route hs local :
  admitted h client peek -> ORouted (pi_sni peek) (negb (cx_ingress ctx)) (Some route) ∈ h -> within h hs -> untimed h ->
  safe (after h (fun k _ => settled k)) h (serve ctx route peek hs client local).
Proof.
  intros (Hi & Hd & Hpk & Hc) Hrt Hw Hu. unfold serve.
  destruct (refuses_source (rt_allowed_sources route) (sa_ip client)) eqn:Hsrc.
  { apply safe_last. intros i w [] _. split; [done |]. eexists. split; [done |]. by eapply settled_alone. }
  apply safe_then with (R := after h (fun k b => quiet k /\ untimed k /\ (b = true ->
    forall rl, rt_rate_limiter route = Some rl -> OAcquired rl true ∈ k))).
  { destruct (rt_rate_limiter route) as [rl|]; [|by apply safe_ret, after_nil].
    apply safe_last. intros i w b _. cbn [observe]. split; [done |]. eexists. split; [done |]. split_and!; [done.. |].
    intros -> rl' [= <-]. constructor. }
  intros h1 acquired (k1 & -> & Hk1 & Hu1 & Hacq). destruct acquired; cbn [negb].
  2: { apply safe_last. intros i w [] _. cbn [observe]. split; [done |]. rewrite <- app_assoc.
       eexists. split; [done |]. by eapply settled_one. }
  assert (ready_for client peek route (h ++ k1)) as Hr.
  { split; try done.
    - intros Hin. by apply introduced_app, Hi.
    - by apply elem_l.
    - intros Hpr. destruct (Hc Hpr) as (d & ? & ?). exists d. split; [by apply elem_l | done].
    - by apply elem_l.
    - intros rl Hrl. by apply elem_r, Hacq. }
  clear Hi Hd Hpk Hc Hrt Hacq. pose proof (untimed_app _ _ Hu Hu1) as Hu'.
  eapply safe_then; [apply failover_step_safe; [exact Hr | by apply within_app; [apply Hu1 |] | exact Hu'] |].
  intros h2 budget (k2 & -> & Hk2). destruct budget as [hs1|].
  2: { apply safe_ret. rewrite <- app_assoc. eexists. split; [done |]. by apply settled_app. }
  destruct Hk2 as (Hk2 & Hu2 & Hle). cbv zeta.
  assert (within ((h ++ k1) ++ k2) hs1) as Hw1
    by (eapply within_le; [by apply within_app; [apply Hu2 | by apply within_app; [apply Hu1 |]] | done]).
  eapply safe_then; [apply (effective_route_safe client peek route); by apply ready_app |].
  intros h3 effective (k3 & -> & Hk3).
  destruct effective as [ef|].
  2: { apply safe_ret. rewrite <- !app_assoc. eexists. split; [done |]. by apply settled_app, settled_app. }
  destruct Hk3 as (Hk3 & Hu3 & Hef). eapply safe_mono.
  { apply (go_upstream_safe client peek route); [by apply ready_app, ready_app | exact Hef |
      by apply within_app; [apply Hu3 |] | by apply untimed_app; [apply untimed_app |]]. }
  intros h4 [] (k4 & -> & Hk4). exists (k1 ++ k2 ++ k3 ++ k4). rewrite !app_assoc. split; [done |].
  rewrite <- !app_assoc. by apply settled_app, settled_app, settled_app.
Qed.

Lemma ingress_source_safe h hs :
  within h hs -> untimed h ->
  safe (after h (goes_on (fun k client => untimed k /\ (cx_ingress ctx = false -> client = peer) /\
    (cx_ingress ctx = true -> introduced (h ++ k) client)))) h
    (ingress_source ctx peer hs).
Proof.
  intros Hw Hu. unfold ingress_source. destruct (cx_ingress ctx); cbn [negb].
  2: { by apply safe_ret, after_nil. }
  apply safe_ask. intros i w trusted _. cbn [observe]. split; [done |]. destruct trusted; cbn [negb].
  2: { apply safe_ask. intros i1 w1 [] _. cbn [observe]. split; [done |]. apply safe_ret. rewrite <- app_assoc.
       eexists. split; [done |]. by eapply settled_alone. }
  apply safe_ask. intros i1 w1 header _. cbn [observe]. split.
  { split; [|done]. split_and!; [apply elem_last | by apply within_app | by apply timely_untimed, untimed_app]. }
  rewrite <- app_assoc. destruct header as [[source|names]|reject].
  - apply safe_ret. eexists. split; [done |]. split_and!; [done.. |]. intros _.
    split; [apply elem_r | exists hs; apply elem_r]; by repeat constructor.
  - apply safe_then with (R := after h (fun k _ => settled k)).
    { unfold answer_load_query. apply safe_ask. intros i2 w2 [] _. cbn [observe]. split; [done |].
      apply safe_ask. intros i3 w3 loads _. cbn [observe]. rewrite app_nil_r. split; [done |].
      apply safe_last. intros i4 w4 [] _. cbn [observe]. rewrite app_nil_r. split; [done |].
      rewrite <- app_assoc. by eexists. }
    intros h' [] Hafter. by apply safe_ret.
  - apply safe_ask. intros i2 w2 [] _. cbn [observe]. split; [done |]. apply safe_ret. rewrite <- app_assoc.
    eexists. split; [done |]. by eapply settled_alone.
Qed.

Lemma protection_admits_safe h ip peek :
  safe (after h (fun k b => if (b : bool) then quiet k /\ untimed k /\ (cx_protection ctx = true ->
    exists d, OChecked ip peek d ∈ k /\ allowed d = true) else settled k)) h (protection_admits ctx ip peek).
Proof.
  unfold protection_admits. destruct (cx_protection ctx); cbn [negb]; [|by apply safe_ret, after_nil].
  apply safe_ask. intros i w d _. cbn [observe]. split; [done |]. destruct d as [id| |reason].
  - apply safe_ret. eexists. split; [done |]. split_and!; [done.. |]. intros _. eexists. by split; [constructor |].
  - apply safe_ret. eexists. split; [done |]. split_and!; [done.. |]. intros _. eexists. by split; [constructor |].
  - apply safe_ask. intros i1 w1 [] _. cbn [observe]. split; [done |].
    apply safe_ask. intros i2 w2 q _. cbn [observe]. split; [done |]. apply safe_ret.
    rewrite <- !app_assoc. eexists. split; [done |]. by eapply settled_alone.
Qed.

Lemma handle_safe local : safe (fun h _ => settled h) [] (handle ctx peer local).
Proof.
  apply safe_mono with (Q := after [] (fun k _ => settled k)); [|by intros h [] (k & -> & ?)].
  unfold handle. apply safe_ask. intros i w [] _. cbn [observe app]. split; [done |].
  apply safe_ask. intros i1 w1 hs _. cbn [observe app]. split; [done |].
  assert (within [OLimit hs] hs) as Hw by (exists hs; split; [done |]; unfold spent; simpl; lia).
  eapply safe_then; [by apply ingress_source_safe |]. intros h2 source (k2 & -> & Hk2).
  destruct source as [client|].
  2: { apply safe_ret. eexists. split; [done |]. by apply (settled_app [OLimit hs]). }
  destruct Hk2 as (Hk2 & Hu2 & Hd & Hi).
  apply safe_ask. intros i3 w3 peek _. cbn [observe].
  split; [split; [|done]; intros Hin; exists client; by apply Hi |].
  eapply safe_then; [apply protection_admits_safe |]. intros h4 ok (k4 & -> & Hk4).
  assert (quiet (([OLimit hs] ++ k2) ++ [OPeeked peek])) as Hq by (by apply quiet_app; [apply (quiet_app [OLimit hs]) |]).
  assert (untimed (([OLimit hs] ++ k2) ++ [OPeeked peek])) as Hu by (by apply untimed_app; [apply (untimed_app [OLimit hs]) |]).
  set (h3 := ([OLimit hs] ++ k2) ++ [OPeeked peek]) in *.
  assert (OPeeked peek ∈ h3) as Hpk by apply elem_last.
  assert (cx_ingress ctx = true -> introduced h3 client) as Hi3 by (intros Hin; by apply introduced_app, Hi).
  assert (within h3 hs) as Hw3 by (apply within_app; [done |]; by apply within_app; [apply Hu2 |]).
  clearbody h3. clear Hi Hw. destruct ok; cbn [negb].
  2: { apply safe_ret. eexists. split; [done | by apply settled_app]. }
  destruct Hk4 as (Hk4 & Hu4 & Hc). apply safe_ask. intros i5 w5 route _. cbn [observe]. split; [done |].
  assert (quiet ((h3 ++ k4) ++ [ORouted (pi_sni peek) (negb (cx_ingress ctx)) route])) as Hq5
    by (by apply quiet_app; [apply quiet_app |]).
  destruct route as [route|].
  2: { apply safe_last. intros i6 w6 [] _. cbn [observe]. split; [done |]. eexists. split; [done |]. by eapply settled_one. }
  apply safe_ask. intros i6 w6 [] _. cbn [observe]. rewrite app_nil_r. split; [done |].
  eapply safe_mono; [apply serve_safe |].
  - split_and!.
    + intros Hin. by apply introduced_app, introduced_app, Hi3.
    + done.
    + by apply elem_l, elem_l.
    + intros Hpr. destruct (Hc Hpr) as (d & ? & ?). exists d. split; [by apply elem_l, elem_r | done].
  - apply elem_last.
  - apply within_app; [done |]. by apply within_app; [apply Hu4 |].
  - by apply untimed_app; [apply untimed_app |].
  - intros h7 [] (k7 & -> & Hk7). eexists. split; [done |]. by apply settled_app.
Qed.

(** What takes something from the client's socket. *)
Definition reads_client (o : obs) : bool :=
  match o with OHeader _ _ | OPeeked _ | OForward _ _ _ | OAccept _ _ _ | OCopy _ _ => true | _ => false end.

(** On an ingress, whatever is read was introduced before, but for the header that
    does it. *)
Lemma introduced_first tr pre o post :
  cx_ingress ctx = true -> (forall pre o post, tr = pre ++ o :: post -> lawful pre o) ->
  tr = pre ++ o :: post -> reads_client o = true ->
  OTrusted (sa_ip peer) true ∈ pre /\
  match o with OHeader _ _ => True | _ => exists client limit, OHeader limit (Ok (Proxy client)) ∈ pre end.
Proof.
  intros Hin Hl Htr Hread. pose proof (Hl pre o post Htr) as Ho.
  assert (forall k, k `prefix_of` pre -> forall c, introduced k c -> OTrusted (sa_ip peer) true ∈ pre /\
    exists client limit, OHeader limit (Ok (Proxy client)) ∈ pre) as Hpre.
  { intros k [k' ->] c (Ht & limit & Hh). split; [by apply elem_l | exists c, limit; by apply elem_l]. }
  destruct o; simpl in Hread; try discriminate Hread.
  - by destruct Ho.
  - destruct (Ho Hin) as [c Hc]. by apply (Hpre pre ltac:(done) c).
  - destruct Ho as (Hno & _). congruence.
  - destruct Ho as (_ & _ & c & p & on & Hc). apply (Hpre pre ltac:(done) c). by apply (cl_ingress _ _ _ _ Hc).
  - destruct Ho as [(d & u & Hd)|(m & z & Hm)].
    + apply list_elem_of_split in Hd as (k & k' & ->).
      destruct (Hl k (OConnect d (Some u)) (k' ++ OCopy prefix0 how :: post)) as (c & p & on & Hc & _); [by rewrite Htr, <- app_assoc |].
      apply (Hpre k (prefix_app_r _ _ _ (reflexivity _)) c). by apply (cl_ingress _ _ _ _ Hc).
    + apply list_elem_of_split in Hm as (k & k' & ->).
      destruct (Hl k (OForward m z (Done (Ok tt))) (k' ++ OCopy prefix0 how :: post)) as (Hno & _);
        [by rewrite Htr, <- app_assoc | congruence].
Qed.
End Runs.

(** ** Properties *)

Module Properties.
(** ** A process, and runs of it *)

#[local] Existing Instance Net.cidr_lib.
#[local] Existing Instance Protection.ascii_lowercase.
#[local] Existing Instance Tls.Properties.raw_tls.
#[local] Existing Instance Tls.Properties.tagged_digests.

Definition sample_name : bytes := bs "a.example.com".
Definition sample_peer : SocketAddr := mkSocketAddr (V4 167772161) 40000.
Definition sample_table : RouteTable :=
  (build_route_table Router.Properties.quiet Router.Properties.empty_env
     [Router.Properties.passthrough_to sample_name 80 []] ListenerTlsSpec_empty None).1.
Definition sample_proc : proc :=
  mkProc ∅ (mkGM 0 0 0 0) ∅ ∅ {[0%nat := mkIngress [Cidr4 167772160 8]]} sample_table SuspendedRegistry_new
    (mkShared ∅ ∅ 0) (mkFleet ∅ ∅ ∅ 0) (mkStore ∅ 0) balancers_new.
Definition sample_io : io :=
  mkIo 5 5 (Ok (Proxy sample_peer)) (mkPeek (Some sample_name) [] [] true 200 false) true true 0 0
    (mkFwd (fun _ => 0) 0 (fun _ _ => mkAttempt Connected true (Some 1%nat) 5) (fun _ => 9) None true (Ok tt))
    (true, []) (fun _ _ => None) balancers_new (mkWorld (fun _ _ => None) (fun _ => false) (fun _ => 0)) false
    (Err false) (None, []).
Definition sample_ctx (ingress : bool) : ConnContext :=
  mkContext 0 (bs "0.0.0.0:443") false ingress 60000000000 60000000000 None 30000000000 8192 8192 None.

(** The run of one connection by itself. *)
Definition sample_run (ingress : bool) : option unit * proc * list obs :=
  execute (perform (sample_ctx ingress)) observe (handle (sample_ctx ingress) sample_peer None)
    (replicate 20 sample_io) sample_proc.

(** The observation at an index, and what came before it. *)
Lemma found_at (wanted : obs -> bool) (tr : list obs) i :
  match tr !! i with Some o => wanted o | None => false end = true ->
  exists o, tr = take i tr ++ o :: drop (S i) tr /\ wanted o = true.
Proof. destruct (tr !! i) as [o|] eqn:E; [|done]. intros Ho. exists o. by rewrite take_drop_middle. Qed.

Lemma sample_runs ingress :
  runs_of (sample_ctx ingress) (handle (sample_ctx ingress) sample_peer None) (sample_run ingress).2 tt.
Proof. apply executed_runs. destruct ingress; vm_compute; reflexivity. Qed.

(** C2: Nothing reaches an upstream unchecked. In every run of a connection,
    whatever else happens in the process meanwhile, an upstream is only
    connected to after: on a failover ingress, the TCP peer was trusted and its
    PROXY header named the client; the ClientHello was peeked; protection, where
    it is configured, admitted that client with that hello; the server name led
    to a route, without the default route on an ingress; the route's source list
    admits the client; its rate limiter gave a token. The upstream is one of that
    route's, or of what the application answered for it and only if the answer's
    own source list admits the client; and where the route requires a client
    certificate (or an answered route terminates TLS), the TLS handshake with the
    route's own configuration has succeeded. The application only hears of a
    suspended client that was cleared in the same way. *)
Theorem clients_are_cleared_before_contact `{TlsLib} `{NetLib} ctx peer local tr :
  runs_of ctx (handle ctx peer local) tr tt ->
  (forall pre d u post, tr = pre ++ OConnect d u :: post ->
     exists client peek route, cleared ctx peer pre client peek route /\ may_reach pre client route d) /\
  (forall pre id sni ip port l post, tr = pre ++ OEmitted (JsSuspended id sni ip port l) :: post ->
     exists client peek route, cleared ctx peer pre client peek route).
Proof.
  intros Hr. destruct (safe_runs _ _ _ _ _ _ _ (handle_safe ctx peer local) Hr) as [Hl _]. split.
  - intros pre d u post Heq. exact (Hl pre _ post Heq).
  - intros pre id sni ip port l post Heq. exact (Hl pre _ post Heq).
Qed.

Lemma clients_are_cleared_before_contact_witness :
  exists pre d u post, (sample_run false).2 = pre ++ OConnect d u :: post /\
    exists client peek route, cleared (sample_ctx false) sample_peer pre client peek route /\
      may_reach pre client route d.
Proof.
  destruct (found_at (fun o => match o with OConnect _ _ => true | _ => false end) (sample_run false).2 3)
    as (o & E & Ho); [vm_compute; reflexivity |]. destruct o; try discriminate Ho.
  eexists _, _, _, _. split; [exact E |].
  exact (proj1 (clients_are_cleared_before_contact _ _ _ _ (sample_runs false)) _ _ _ _ E).
Defined.

(** C19: Forwarding cannot loop, and an ingress listens only to its own. A
    connection that came in through a failover ingress is never handed on to
    another peer, and nothing of it is read, no header, no hello, no handshake and
    no data, unless its TCP peer is trusted; beyond the header nothing is read
    before that header has named the client. A connection is only handed on at
    all once it has been cleared like any other. *)
Theorem ingress_connections_stay `{TlsLib} `{NetLib} ctx peer local tr :
  runs_of ctx (handle ctx peer local) tr tt ->
  (forall pre mode z f post, tr = pre ++ OForward mode z f :: post ->
     cx_ingress ctx = false /\ exists client peek route, cleared ctx peer pre client peek route) /\
  (cx_ingress ctx = true -> forall pre o post, tr = pre ++ o :: post -> reads_client o = true ->
     OTrusted (sa_ip peer) true ∈ pre /\
     match o with OHeader _ _ => True | _ => exists client limit, OHeader limit (Ok (Proxy client)) ∈ pre end).
Proof.
  intros Hr. destruct (safe_runs _ _ _ _ _ _ _ (handle_safe ctx peer local) Hr) as [Hl _]. split.
  - intros pre mode z f post Heq. destruct (Hl pre _ post Heq) as (? & _ & _ & c & p & r & ? & _). split; [done |]. by exists c, p, r.
  - intros Hin pre o post. by apply (introduced_first ctx peer tr).
Qed.

Lemma ingress_connections_stay_witness :
  exists pre p post, (sample_run true).2 = pre ++ OPeeked p :: post /\
    OTrusted (sa_ip sample_peer) true ∈ pre /\ exists client limit, OHeader limit (Ok (Proxy client)) ∈ pre.
Proof.
  destruct (found_at (fun o => match o with OPeeked _ => true | _ => false end) (sample_run true).2 3)
    as (o & E & Ho); [vm_compute; reflexivity |]. destruct o; try discriminate Ho.
  eexists _, _, _. split; [exact E |].
  exact (proj2 (ingress_connections_stay _ _ _ _ (sample_runs true)) eq_refl _ _ _ E eq_refl).
Defined.

(** C16: Every connection is accounted for, and none twice. A run that answers a
    load query counts nothing. In any other run the client's stream is copied at
    most once; a copy that ends well counts nothing and one that does not counts
    the one error it ended with; a run without a copy counts exactly one refusal or
    error. Only where the local upstream could not be connected and a peer took
    the connection does that failed connect come before it. *)
Theorem every_connection_is_settled `{TlsLib} `{NetLib} ctx peer local tr :
  runs_of ctx (handle ctx peer local) tr tt -> settled tr.
Proof. intros Hr. by destruct (safe_runs _ _ _ _ _ _ _ (handle_safe ctx peer local) Hr) as [_ Hs]. Qed.

(** The runs of the sample connections: one whose copy timed out, and one that the
    upstream's closing ended well. *)
Definition ended_run (e : copy_end) : option unit * proc * list obs :=
  execute (perform (sample_ctx false)) observe (handle (sample_ctx false) sample_peer None)
    (replicate 20 (mkIo (io_now sample_io) (io_now' sample_io) (io_header sample_io) (io_peek sample_io) (io_queued sample_io)
       (io_acquired sample_io) (io_hash sample_io) (io_rotation sample_io) (io_peers sample_io) (io_read sample_io)
       (io_load sample_io) (io_seen sample_io) (io_connects sample_io) (io_closed sample_io) (io_accepted sample_io)
       (Some e, []))) sample_proc.

Lemma every_connection_is_settled_witness :
  (settled (ended_run CopyOk).2 /\ copies (ended_run CopyOk).2 = [CopyOk] /\ counts (ended_run CopyOk).2 = []) /\
  (settled (ended_run CopyIdle).2 /\ counts (ended_run CopyIdle).2 = [inr EIdleTimeout]).
Proof.
  split; (split; [|vm_compute; auto]);
    (apply (every_connection_is_settled (sample_ctx false) sample_peer None); apply executed_runs; vm_compute; reflexivity).
Defined.

(** The time limit an observation was given. *)
Definition limit_of `{NetLib} (o : obs) : option Z :=
  match o with
  | OHeader limit _ | OForward _ limit _ | OAccept _ limit _ => Some limit
  | _ => None
  end.

(** C24: Peers, the local connect and the handshake share one timeout. As long as the
    clock does not run backwards, a wait for the PROXY header, a search for a peer
    or a TLS handshake is given at most the handshake timeout the connection
    started with, less the time between the first and the last reading of the
    clock before it. Where a connection has tried an upstream before such a wait,
    it had read the clock before it tried and has read it again just now, so
    what the attempt took is deducted. What comes before the first reading is
    not: the header and the peek have limits of their own, and a search for a peer
    that hands the connection back says itself what it has left. *)
Theorem handshake_time_is_shared `{TlsLib} `{NetLib} ctx peer local tr :
  runs_of ctx (handle ctx peer local) tr tt -> clock_ok tr ->
  forall pre o post limit, tr = pre ++ o :: post -> limit_of o = Some limit ->
  (exists hs, head tr = Some (OLimit hs) /\ limit <= Z.max 0 (hs - spent pre) /\ 0 <= spent pre) /\
  (connects pre = [] \/ exists h1 start h2 now,
     pre = h1 ++ ONow start :: h2 ++ [ONow now] /\ connects h1 = [] /\ spent pre = now - start).
Proof.
  intros Hr Hc pre o post limit Heq Hlim. destruct (safe_runs _ _ _ _ _ _ _ (handle_safe ctx peer local) Hr) as [Hl _].
  specialize (Hl pre o post Heq). subst tr. pose proof (clock_ok_l _ _ Hc) as Hc'.
  assert (within pre limit /\ timely pre) as [(hs & Hhd & Hle) Ht]
    by (destruct o; simplify_eq/=; first [by destruct Hl as (_ & ? & ? & _) | by destruct Hl as (_ & ? & ?) | by destruct Hl as (? & ? & _)]).
  split; [exists hs; split_and!; [by apply head_app | by apply Hle | by apply spent_pos] |].
  destruct Ht as [?|(h1 & start & h2 & now & -> & Hn & Hcn)]; [by left | right].
  exists h1, start, h2, now. split_and!; [done | done |]. unfold spent. rewrite nows_app, Hn. cbn [app].
  change (nows (ONow start :: h2 ++ [ONow now])) with (start :: nows (h2 ++ [ONow now])). rewrite nows_app.
  change (nows [ONow now]) with [now]. rewrite (app_comm_cons (nows h2) [now] start), last_snoc. done.
Qed.

(** A route with a peer whose upstream takes two seconds to connect. *)
Definition slow_io (now : Z) : io :=
  mkIo now now (io_header sample_io) (io_peek sample_io) true true 0 0 (io_peers sample_io) (io_read sample_io)
    (io_load sample_io) (io_seen sample_io) (io_connects sample_io) false (Err false) (Some CopyOk, []).
Definition terminating_spec : RouteSpec :=
  mkRouteSpec sample_name [] [UTcp (bs "10.0.0.1") 80] true (Some (bs "c")) (Some (bs "c")) None false false 0 None None SaNone
    (mkFingerprint false false) false ProtoOpaque [] (Some (mkFailoverSpec [(bs "10.0.0.9", 443)] false None None None None)).
Definition slow_run : option unit * proc * list obs :=
  let built := build_route_table Router.Properties.quiet Router.Properties.empty_env [terminating_spec]
                 ListenerTlsSpec_empty None in
  execute (perform (sample_ctx false)) observe (handle (sample_ctx false) sample_peer None)
    (replicate 8 (slow_io 1000000000) ++ replicate 20 (slow_io 3000000000))
    (set_fleet (mkProc ∅ (mkGM 0 0 0 0) ∅ ∅ ∅ built.1 SuspendedRegistry_new (e_shared built.2) (mkFleet ∅ ∅ ∅ 0)
       (e_configs built.2) balancers_new) (e_fleet built.2)).

Lemma handshake_time_is_shared_witness :
  exists pre cfg r post hs, slow_run.2 = pre ++ OAccept cfg 8000000000 r :: post /\
    head slow_run.2 = Some (OLimit hs) /\ hs = 10000000000 /\ 8000000000 <= Z.max 0 (hs - spent pre) /\
    (connects pre = [] \/ exists h1 start h2 now,
       pre = h1 ++ ONow start :: h2 ++ [ONow now] /\ connects h1 = [] /\ spent pre = now - start).
Proof.
  destruct (found_at (fun o => match o with OAccept _ limit _ => limit =? 8000000000 | _ => false end) slow_run.2 6)
    as (o & E & Ho); [vm_compute; reflexivity |].
  destruct o as [| | | | | | | | | | | | | | |cfg limit r| |]; try discriminate Ho. apply Z.eqb_eq in Ho. subst limit.
  assert (runs_of (sample_ctx false) (handle (sample_ctx false) sample_peer None) slow_run.2 tt) as Hr
    by (apply executed_runs; vm_compute; reflexivity).
  assert (clock_ok slow_run.2) as Hc by (unfold clock_ok; vm_compute; repeat constructor; discriminate).
  destruct (handshake_time_is_shared (sample_ctx false) sample_peer None slow_run.2 Hr Hc _ _ _ _ E eq_refl)
    as [(hs & Hhd & Hle & _) Ht].
  exists (take 6 slow_run.2), cfg, r, (drop 7 slow_run.2), hs. split; [exact E |]. split; [exact Hhd |].
  split; [|split; [exact Hle | exact Ht]].
  assert (head slow_run.2 = Some (OLimit 10000000000)) as Hh by (vm_compute; reflexivity).
  rewrite Hh in Hhd. by injection Hhd.
Defined.
End Properties.
