(* ===== verification/Handover.v ===== *)
(** * A client handed from one host to another (src/src/failover.rs, proxy_conn.rs)

    Two hosts and one client: the first host runs [Connection.handle] on a public
    listener and hands the connection to a peer; the peer runs it on its failover
    ingress, on the bytes the first host sends it. [replay_prefix] is what is
    written before the copy starts, [sent_on] is all the peer receives, and
    [arrives] says that a run's header and peek are taken from such a stream. *)

From S2P Require Import Prelude Bytes Net TokenBucket Sni Tls Protection ProxyProtocol Balancer BalancerState Metrics Failover Router HttpHead Forwarding Task Suspended Liveness Connection ConnectionRuns.

Open Scope Z_scope.

(** ** What is sent to the peer *)

(** The header that names the client, then its hello as the socket shows it now;
    nothing when the socket shows less of the hello than the peek did. *)
Definition replay_prefix (peer_addr : SocketAddr) (local_addr : option SocketAddr) (available : bytes)
    (hello_len : nat) : option bytes :=
  match write_proxy_v2_header peer_addr local_addr [] with
  | Err _ => None
  | Ok header =>
      let n := Nat.min (length available) hello_len in
      if (n =? hello_len)%nat then Some (header ++ take hello_len available) else None
  end.

(** All a peer that took the connection receives: the prefix, and then the copy
    of what the client sends after the hello was read off the socket. *)
Definition sent_on (prefix : bytes) (hello_len : nat) (wire : bytes) : bytes := prefix ++ drop hello_len wire.

(** The search for a peer goes past the prefix exactly when there is one. *)
Lemma replay_before_peers fw fl fo complete available hello_len mode handshake peer local now :
  fw_hello_seen fw = Some (Nat.min (length available) hello_len) ->
  fr_attempts (Failover.forward_to_peers fw fl fo complete hello_len mode handshake peer local now).1 <> [] ->
  is_Some (replay_prefix peer local available hello_len).
Proof.
  intros Hseen. unfold Failover.forward_to_peers, replay_prefix.
  assert (forall fl0 fo0 fo1, fr_attempts (let '(r, fl') := gave_up fw fl0 fo0 mode handshake in
    mkFwdResult r fl' [] 0, fo1 : Failover).1 <> [] -> False) as Hquit.
  { intros fl0 fo0 fo1. by destruct (gave_up _ _ _ _ _). }
  destruct (negb complete || _); [destruct mode; intros []%Hquit; done |].
  destruct (candidates_for _ _ _ _) as [[count peers] fo']. destruct (count =? 0)%nat; [by intros []%Hquit |].
  destruct (write_proxy_v2_header _ _ _); [|by intros []%Hquit]. rewrite Hseen.
  case_bool_decide as Hn; [|by intros []%Hquit]. injection Hn as Hn. rewrite Hn, Nat.eqb_refl. by eexists.
Qed.

(** Header and client bytes together: the peer receives the header and then the
    client's own stream, unchanged. *)
Lemma sent_on_is_header_and_wire peer local available hello_len prefix wire :
  available `prefix_of` wire -> replay_prefix peer local available hello_len = Some prefix ->
  exists header, write_proxy_v2_header peer local [] = Ok header /\ sent_on prefix hello_len wire = header ++ wire.
Proof.
  intros [k ->]. unfold replay_prefix, sent_on. destruct (write_proxy_v2_header _ _ _) as [header|]; [|done].
  destruct (Nat.eqb_spec (Nat.min (length available) hello_len) hello_len) as [Hn|]; [|done].
  intros [= <-]. exists header. split; [done |].
  rewrite <- app_assoc. f_equal. rewrite drop_app_le by lia. rewrite app_assoc. by rewrite take_drop.
Qed.

(** ** What the runs read *)

Section Handover.
Context `{TlsLib} `{NetLib} `{Digests}.

(** The hellos that were peeked are of the stream [wire]. *)
Definition peeks_from (wire : bytes) (tr : list obs) : Prop :=
  forall p, OPeeked p ∈ tr -> exists polls, polls_of wire polls /\ p = peek polls.

(** The run's PROXY header was read from the front of [wire], and its hello was
    peeked behind it. *)
Definition arrives (wire : bytes) (tr : list obs) : Prop :=
  exists left eof,
    (forall limit h, OHeader limit (Ok h) ∈ tr -> read_proxy_v2 (mkStream wire eof) = Ok (h, mkStream left eof)) /\
    peeks_from left tr.

(** The run serves its upstreams [client] and nobody else, on the strength of
    [peek] if it saw the whole hello, and hands the connection to nobody. *)
Definition taken_in (ctx : ConnContext) (peer client : SocketAddr) (peek : PeekInfo) (tr : list obs) : Prop :=
  (forall mode z f, OForward mode z f ∉ tr) /\
  forall pre d u post, tr = pre ++ OConnect d u :: post ->
  exists peek' route, cleared ctx peer pre client peek' route /\ may_reach pre client route d /\
    (pi_complete peek' = true -> peek' = peek).

(** The client as the ingress writes it down. *)
Definition canonical (a : SocketAddr) : SocketAddr := mkSocketAddr (to_canonical (sa_ip a)) (sa_port a).

Lemma peeks_app wire h k : peeks_from wire (h ++ k) -> peeks_from wire h.
Proof. intros Hp p Hin. apply Hp. by apply elem_of_app; left. Qed.

(** Two complete peeks of one client's stream agree. *)
Lemma complete_peeks_agree m fs rest p p' tr tr' :
  hello_message m -> fragments_of m fs ->
  peeks_from (encode_fragments fs ++ rest) tr -> peeks_from (encode_fragments fs ++ rest) tr' ->
  OPeeked p ∈ tr -> OPeeked p' ∈ tr' -> pi_complete p = true -> pi_complete p' = true -> p' = p.
Proof.
  intros Hm Hfs Ht Ht' Hp Hp'.
  destruct (Ht _ Hp) as (polls & Hpolls & ->), (Ht' _ Hp') as (polls' & Hpolls' & ->). intros Hc Hc'. unfold peek in *.
  by rewrite (complete_peek_whole m fs rest REASSEMBLY_TIMEOUT polls), (complete_peek_whole m fs rest REASSEMBLY_TIMEOUT polls').
Qed.

(** On an ingress, the stream's header decides who the client is. *)
Lemma arrival_names_client peer local header wire tr limit client :
  addr_ok peer -> write_proxy_v2_header peer local [] = Ok header ->
  arrives (header ++ wire) tr -> OHeader limit (Ok (Proxy client)) ∈ tr ->
  client = canonical peer /\ peeks_from wire tr.
Proof.
  intros Hok Hw (left & eof & Hh & Hp) Hin. specialize (Hh _ _ Hin).
  pose proof (plain_header_length _ _ _ Hok Hw).
  rewrite (header_read_back peer local [] header wire eof Hok Hw) in Hh by (unfold MAX_PAYLOAD; lia).
  by injection Hh as <- <-.
Qed.

Lemma ingress_takes_in ctx peer local tr client clocal header m fs rest peek tr0 :
  hello_message m -> fragments_of m fs -> addr_ok client ->
  write_proxy_v2_header client clocal [] = Ok header ->
  peeks_from (encode_fragments fs ++ rest) tr0 -> OPeeked peek ∈ tr0 -> pi_complete peek = true ->
  cx_ingress ctx = true -> runs_of ctx (handle ctx peer local) tr tt ->
  arrives (header ++ encode_fragments fs ++ rest) tr ->
  taken_in ctx peer (canonical client) peek tr.
Proof.
  intros Hm Hfs Hok Hw Hp0 Hpk Hc Hin Hr Harr.
  destruct (safe_runs _ _ _ _ _ _ _ (handle_safe ctx peer local) Hr) as [Hl _]. split.
  - intros mode z f (pre & post & ->)%list_elem_of_split. destruct (Hl pre _ post eq_refl) as (? & _). congruence.
  - intros pre d u post ->. destruct (Hl pre _ post eq_refl) as (c & peek' & route & Hcl & Hreach).
    destruct (cl_ingress _ _ _ _ _ _ Hcl Hin) as [_ [limit Hh]].
    destruct (arrival_names_client client clocal header _ _ limit c Hok Hw Harr) as [-> Hpeeks];
      [by apply elem_of_app; left |].
    exists peek', route. split_and!; [done | done |]. intros Hc'.
    apply (complete_peeks_agree m fs rest peek peek' tr0 (pre ++ OConnect d u :: post)); try done.
    apply elem_of_app. left. exact (cl_peeked _ _ _ _ _ _ Hcl).
Qed.
End Handover.

(** ** Properties *)

Module Properties.
Import ConnectionRuns.Properties.
#[local] Existing Instance Net.cidr_lib.
#[local] Existing Instance Tls.Properties.raw_tls.
#[local] Existing Instance Tls.Properties.tagged_digests.

(** ** Two hosts *)

Definition sample_wire : bytes := encode_fragments sample_fragments ++ [23; 3; 3].
Definition sample_polls : list (Z * peek_poll) :=
  [(1000, PeekBuffered (take 20 sample_wire)); (1000, PeekBuffered sample_wire)].
Definition draining : FailoverSpec := mkFailoverSpec [(bs "10.0.0.2", 7443)] true None None None None.
Definition named_route (failover : option FailoverSpec) : RouteSpec :=
  mkRouteSpec (bs "db.example.com") [] [UTcp (bs "10.0.0.1") 80] false None None None true false 0 None None SaNone
    (mkFingerprint false false) false ProtoOpaque [] failover.
Definition host (failover : option FailoverSpec) : proc :=
  let built := build_route_table Router.Properties.quiet Router.Properties.empty_env
                 [named_route failover] ListenerTlsSpec_empty None in
  set_fleet (mkProc ∅ (mkGM 0 0 0 0) ∅ ∅ {[0%nat := mkIngress [Cidr4 167772160 8]]} built.1 SuspendedRegistry_new
    (mkShared ∅ ∅ 0) (mkFleet ∅ ∅ ∅ 0) (mkStore ∅ 0) balancers_new) (e_fleet built.2).
Definition host_io (header : result HeaderReject Header) : io :=
  mkIo 5 5 header (peek sample_polls) true true 0 0
    (mkFwd (fun _ => 0) 0 (fun _ _ => mkAttempt Connected true (Some 1%nat) 5) (fun _ => 9)
       (Some (length (encode_fragments sample_fragments))) true (Ok tt))
    (true, []) (fun _ _ => None) balancers_new (mkWorld (fun _ _ => None) (fun _ => false) (fun _ => 0)) false
    (Err false) (Some CopyOk, []).
Definition host_run (ingress : bool) (failover : option FailoverSpec) (peer : SocketAddr)
    (header : result HeaderReject Header) : option unit * proc * list obs :=
  execute (perform (sample_ctx ingress)) observe (handle (sample_ctx ingress) peer None)
    (replicate 30 (host_io header)) (host failover).
(** A client on a dual-stack socket. *)
Definition sample_client : SocketAddr := mkSocketAddr (mapped 3232235777) 51000.
Definition first_run := host_run false (Some draining) sample_client (Err HInvalid).
Definition second_run := host_run true None sample_peer (Ok (Proxy (canonical sample_client))).

Lemma sample_client_ok : addr_ok sample_client.
Proof. split; [unfold sample_client, mapped; simpl; lia | by vm_compute]. Qed.

Lemma sample_polls_ok : polls_of sample_wire sample_polls.
Proof. constructor; [apply prefix_take |]. constructor; [cbn [snd]; reflexivity | constructor]. Qed.

Lemma first_runs : runs_of (sample_ctx false) (handle (sample_ctx false) sample_client None) first_run.2 tt.
Proof. apply executed_runs. vm_compute; reflexivity. Qed.
Lemma second_runs : runs_of (sample_ctx true) (handle (sample_ctx true) sample_peer None) second_run.2 tt.
Proof. apply executed_runs. vm_compute; reflexivity. Qed.

#[local] Instance PeekInfo_eq_dec : EqDecision PeekInfo.
Proof. solve_decision. Defined.

Lemma same_peeks wire polls tr :
  polls_of wire polls ->
  forallb (fun o => match o with OPeeked p => bool_decide (p = peek polls) | _ => true end) tr = true ->
  peeks_from wire tr.
Proof.
  intros Hw Hf p Hin%list_elem_of_In. rewrite forallb_forall in Hf. exists polls. split; [done |].
  by apply (bool_decide_eq_true_1 _), (Hf (OPeeked p)).
Qed.

Lemma first_peeks : peeks_from sample_wire first_run.2.
Proof. apply (same_peeks _ _ _ sample_polls_ok). vm_compute; reflexivity. Qed.

Lemma second_arrives prefix :
  replay_prefix sample_client None sample_wire (length (encode_fragments sample_fragments)) = Some prefix ->
  arrives (sent_on prefix (length (encode_fragments sample_fragments)) sample_wire) second_run.2.
Proof.
  intros [= <-]. exists sample_wire, false. split.
  - intros limit h Hin. apply list_elem_of_In in Hin.
    assert (forallb (fun o => match o with
      | OHeader _ (Ok (Proxy c)) => bool_decide (c = canonical sample_client)
      | OHeader _ (Ok (LoadQuery _)) => false
      | _ => true end) second_run.2 = true) as Hf by (vm_compute; reflexivity).
    rewrite forallb_forall in Hf. specialize (Hf _ Hin). destruct h as [c|]; [|discriminate Hf].
    apply bool_decide_eq_true_1 in Hf as ->. vm_compute. reflexivity.
  - apply (same_peeks _ _ _ sample_polls_ok). vm_compute; reflexivity.
Qed.

(** C13: A client handed to a peer arrives there as itself. Let a host hand a
    client's connection to a peer that takes it, and let the hello come in any
    split into records and reads. Then the host cleared that client as it clears
    any other, on a peek that saw the whole hello. Whatever the peer does in the
    meantime, in every run on its failover ingress of what is sent to it (the
    PROXY header and hello that are replayed, then the rest of the client's
    stream), an upstream is only connected to for the client's own address in
    canonical form, and not for the host that handed it over, after the peer
    cleared that address by its own rules; a peek that saw the whole hello is the
    one the first host decided on, fingerprints and server name included; and the
    peer hands the connection to no third host. *)
Theorem handed_over_clients_arrive_as_themselves `{TlsLib} `{NetLib} `{Digests} m fs rest ctx peer local tr pre mode z post :
  hello_message m -> fragments_of m fs -> addr_ok peer ->
  runs_of ctx (handle ctx peer local) tr tt -> peeks_from (encode_fragments fs ++ rest) tr ->
  tr = pre ++ OForward mode z (Done (Ok tt)) :: post ->
  exists peek route, cleared ctx peer pre peer peek route /\ pi_complete peek = true /\
  forall available prefix ctx' peer' local' tr',
    available `prefix_of` encode_fragments fs ++ rest ->
    replay_prefix peer local available (pi_hello_len peek) = Some prefix ->
    cx_ingress ctx' = true -> runs_of ctx' (handle ctx' peer' local') tr' tt ->
    arrives (sent_on prefix (pi_hello_len peek) (encode_fragments fs ++ rest)) tr' ->
    taken_in ctx' peer' (canonical peer) peek tr'.
Proof.
  intros Hm Hfs Hok Hr Hpeeks ->.
  destruct (safe_runs _ _ _ _ _ _ _ (handle_safe ctx peer local) Hr) as [Hl _].
  destruct (Hl pre _ post eq_refl) as (Hin & _ & _ & client & peek & route & Hcl & Hwhole).
  pose proof (cl_direct _ _ _ _ _ _ Hcl Hin) as ->. exists peek, route. split_and!; [done | by apply Hwhole |].
  intros available prefix ctx' peer' local' tr' Hav Hpre Hin' Hr' Harr.
  destruct (sent_on_is_header_and_wire _ _ _ _ _ _ Hav Hpre) as (header & Hw & Hsent). rewrite Hsent in Harr.
  apply (ingress_takes_in ctx' peer' local' tr' peer local header m fs rest peek pre); try done.
  - by eapply peeks_app.
  - exact (cl_peeked _ _ _ _ _ _ Hcl).
  - by apply Hwhole.
Qed.
Lemma handed_over_clients_arrive_as_themselves_witness :
  (exists d u, OConnect d u ∈ second_run.2) /\
  exists peek, pi_complete peek = true /\
    taken_in (sample_ctx true) sample_peer (mkSocketAddr (V4 3232235777) 51000) peek second_run.2.
Proof.
  split.
  { destruct (found_at (fun o => match o with OConnect _ _ => true | _ => false end) second_run.2 5)
      as (o & E & Ho); [vm_compute; reflexivity |]. destruct o; try discriminate Ho.
    eexists _, _. rewrite E. apply elem_of_app. right. constructor. }
  destruct (found_at (fun o => match o with OForward Drain _ (Done (Ok _)) => true | _ => false end) first_run.2 3)
    as (o & E & Ho); [vm_compute; reflexivity |].
  destruct o as [| | | | | | | | | | |mode z f| | | | | |]; try discriminate Ho.
  destruct f as [[[]|]|]; try (destruct mode; discriminate Ho).
  pose proof first_peeks as Hpeeks.
  destruct (handed_over_clients_arrive_as_themselves (encode_hello sample_fields) sample_fragments [23; 3; 3]
    (sample_ctx false) sample_client None first_run.2 (take 3 first_run.2) mode z (drop 4 first_run.2)) as (peek & route & Hcl & Hc & Hto).
  - apply encode_hello_message, sample_fields_ok.
  - apply sample_fragments_ok.
  - exact sample_client_ok.
  - exact first_runs.
  - exact Hpeeks.
  - exact E.
  - exists peek. split; [exact Hc |].
    assert (pi_hello_len peek = length (encode_fragments sample_fragments)) as Hlen.
    { rewrite E in Hpeeks. destruct (peeks_app _ _ _ Hpeeks _ (cl_peeked _ _ _ _ _ _ Hcl)) as (polls & Hw & ->).
      unfold peek in *. by rewrite (complete_peek_whole (encode_hello sample_fields) sample_fragments [23; 3; 3] REASSEMBLY_TIMEOUT polls
        (encode_hello_message _ sample_fields_ok) sample_fragments_ok Hw Hc). }
    rewrite Hlen in Hto.
    destruct (replay_prefix sample_client None sample_wire (length (encode_fragments sample_fragments)))
      as [prefix|] eqn:Hpre; [|vm_compute in Hpre; discriminate Hpre].
    exact (Hto sample_wire prefix (sample_ctx true) sample_peer None second_run.2 (reflexivity _) Hpre eq_refl
      second_runs (second_arrives prefix Hpre)).
Defined.
End Properties.
