(* ===== verification/HttpListener.v ===== *)
(** * The plaintext HTTP listener (src/src/http_listener.rs)

    One connection of a listener in [http] mode: the request head is read once;
    an ACME challenge is proxied to the route its Host names, one request and one
    response, and everything else is redirected to https. [handle_http] is a
    [task] over the questions [httpE], answered on the same [proc] as the TLS
    connections. *)

From S2P Require Import Prelude Bytes Net TokenBucket Sni Tls Protection Balancer BalancerState Metrics Failover Router HttpHead HttpPump Forwarding Task Suspended Liveness Connection ConnectionRuns.

Open Scope Z_scope.

(** How a listener serves its connections. *)
Inductive ListenerMode : Type := ModeTls | ModeHttp.
#[global] Instance ListenerMode_eq_dec : EqDecision ListenerMode.
Proof. solve_decision. Defined.

Definition ACME_PATH_PREFIX : bytes := bs "/.well-known/acme-challenge/".
(** Nanoseconds. *)
Definition HEADER_READ_TIMEOUT : Z := 10000000000.
Definition UPSTREAM_CONNECT_TIMEOUT : Z := 5000000000.

Definition response_400 : bytes :=
  bs "HTTP/1.1 400 Bad Request" ++ crlf ++ bs "Content-Length: 0" ++ crlf ++ bs "Connection: close" ++ crlf ++ crlf.
Definition response_404 : bytes :=
  bs "HTTP/1.1 404 Not Found" ++ crlf ++ bs "Content-Length: 0" ++ crlf ++ bs "Connection: close" ++ crlf ++ crlf.

(** [format!] of the 301 *)
Definition redirect_to (location : bytes) : bytes :=
  bs "HTTP/1.1 301 Moved Permanently" ++ crlf ++ bs "Location: " ++ location ++ crlf ++
  bs "Content-Length: 0" ++ crlf ++ bs "Connection: close" ++ crlf ++ crlf.

Definition redirect_location (host target : bytes) : bytes :=
  let target_str := default (bs "/") (from_utf8 target) in
  let target_str := match target_str with [] => bs "/" | _ => target_str end in
  bs "https://" ++ host ++ target_str.

(** What the upstream of a challenge is sent. *)
Definition one_shot_head (headers : bytes) : bytes := with_connection_close (strip_body_framing headers).

Section HttpListener.
Context `{TlsLib} `{NetLib}.

Inductive httpE : Type -> Type :=
  | HAcquire (g : guard) : httpE unit
  | HReadHead (limit : Z) : httpE (result bool (bytes * bytes))
  | HBytesIn (n : Z) : httpE unit
  | HBytesOut (n : Z) : httpE unit
  | HWrite (response : bytes) : httpE bool
  | HShutdown : httpE unit
  | HCountError (k : ErrorKind) : httpE unit
  | HCountRouteBlocked (route : nat) (k : BlockKind) : httpE unit
  | HCountRouteError (route : nat) (k : ErrorKind) : httpE unit
  | HResolve (host : bytes) (allow_default : bool) : httpE (option Route)
  | HTryAcquire (rl : Atomic.RouteTokenBucket) : httpE bool
  | HConnect (d : Destination) (ip : IpAddr) (limit : Z) : httpE (option upstream_stream)
  | HRouteBytesIn (route : nat) (n : Z) : httpE unit
  | HOneShot (u : upstream_stream) (request : bytes) : httpE (bool * list io_event)
  | HCountBytes (route : nat) (polls : list io_event) : httpE unit.

Definition http := task httpE.

Definition write_simple_response (response : bytes) : http unit :=
  written ← ask (HWrite response);
  if negb written then mret tt
  else _ ← ask (HBytesOut (Z.of_nat (length response))); ask HShutdown.

Definition proxy_acme (headers : bytes) (received_bytes : Z) (peer : SocketAddr) (host : bytes) : http unit :=
  route ← ask (HResolve host false);
  match route with
  | None => _ ← write_simple_response response_404; ask (HCountError ENoRoute)
  | Some route =>
      let id := mi_id (rt_identity route) in
      _ ← ask (HAcquire (GRoute id));
      if refuses_source (rt_allowed_sources route) (sa_ip peer)
      then ask (HCountRouteBlocked id BSourceNotAllowed)
      else
        acquired ← match rt_rate_limiter route with Some rl => ask (HTryAcquire rl) | None => mret true end;
        if negb acquired then ask (HCountRouteError id ERouteRateLimited)
        else
          upstream ← ask (HConnect (rt_destination route) (sa_ip peer) UPSTREAM_CONNECT_TIMEOUT);
          match upstream with
          | None => ask (HCountRouteError id EUpstreamConnect)
          | Some u =>
              _ ← ask (HRouteBytesIn id received_bytes);
              '(ok, polls) ← ask (HOneShot u (one_shot_head headers));
              _ ← ask (HCountBytes id polls);
              _ ← ask HShutdown;
              if negb ok then ask (HCountRouteError id EStream) else mret tt
          end
  end.

Definition answer_head (headers excess : bytes) (peer : SocketAddr) : http unit :=
  let received_bytes := Z.of_nat (length headers + length excess) in
  _ ← ask (HBytesIn received_bytes);
  let target := request_target headers in
  let host := host_header headers in
  if starts_with ACME_PATH_PREFIX target then
    match host with
    | Some host => proxy_acme headers received_bytes peer host
    | None => write_simple_response response_400
    end
  else
    match host with
    | None => write_simple_response response_400
    | Some host =>
        let response := redirect_to (redirect_location host target) in
        written ← ask (HWrite response);
        _ ← (if written : bool then ask (HBytesOut (Z.of_nat (length response))) else mret tt);
        ask HShutdown
    end.

Definition handle_http (peer : SocketAddr) : http unit :=
  _ ← ask (HAcquire (GActive None));
  head ← ask (HReadHead HEADER_READ_TIMEOUT);
  match head with
  | Err _ => ask (HCountError EHttpHeader)
  | Ok ([], _) => mret tt
  | Ok (headers, excess) => answer_head headers excess peer
  end.

(** ** The answers *)

(** What comes from outside: the client's bytes and how they arrive, the clock,
    and what else [Connection.io] has. *)
Record http_io : Type := mkHttpIo {
  hi_timed_out : bool;
  hi_arrived : nat -> nat;
  hi_read_fails : bool;
  hi_data : bytes;
  hi_written : bool;
  hi_io : io;
}.

Definition read_head (i : http_io) : result bool (bytes * bytes) :=
  if hi_timed_out i then Err true
  else match (read_http_headers (hi_arrived i) (hi_read_fails i) (hi_data i)).1 with
       | Ok p => Ok p
       | Err _ => Err false
       end.

Definition perform_http (ctx : ConnContext) (i : http_io) (w : proc) (X : Type) (e : httpE X) : X * proc :=
  let l := cx_listener ctx in
  match e in httpE X return X * proc with
  | HAcquire g => (tt, acquire ctx w g)
  | HReadHead _ => (read_head i, w)
  | HBytesIn n => (tt, set_listener w l (lm_add_bytes_in (listener_of w l) n))
  | HBytesOut n => (tt, set_listener w l (lm_add_bytes_out (listener_of w l) n))
  | HWrite _ => (hi_written i, w)
  | HShutdown => (tt, w)
  | HCountError k => (tt, set_listener w l (lm_inc_error (listener_of w l) k))
  | HCountRouteBlocked r k => (tt, count_both ctx w r (fun l m => inc_route_blocked l m k))
  | HCountRouteError r k => (tt, count_both ctx w r (fun l m => inc_route_error l m k))
  | HResolve host allow_default => (resolve_with (pc_table w) (Some host) allow_default, w)
  | HTryAcquire _ => (io_acquired (hi_io i), w)
  | HConnect d ip _ => connect (hi_io i) w d ip None
  | HRouteBytesIn r n => (tt, set_route_metrics w r (rm_add_bytes_in (route_of w r) n))
  | HOneShot _ _ => (io_read (hi_io i), w)
  | HCountBytes r polls => (tt, count_both ctx w r (count_polls polls))
  end.

(** What can be seen of a run. *)
Inductive http_obs : Type :=
  | HoHead (headers : bytes)
  | HoRouted (host : bytes) (allow_default : bool) (r : option Route)
  | HoAcquired (rl : Atomic.RouteTokenBucket) (b : bool)
  | HoConnect (d : Destination) (u : option upstream_stream)
  | HoSent (request : bytes)
  | HoReply (response : bytes)
  | HoCount (k : BlockKind + ErrorKind).

Definition observe_http (X : Type) (e : httpE X) (x : X) : list http_obs :=
  match e in httpE X return X -> list http_obs with
  | HReadHead _ => fun r => match r with Ok (h, _) => [HoHead h] | Err _ => [] end
  | HResolve host allow_default => fun r => [HoRouted host allow_default r]
  | HTryAcquire rl => fun b => [HoAcquired rl b]
  | HConnect d _ _ => fun u => [HoConnect d u]
  | HOneShot _ request => fun _ => [HoSent request]
  | HWrite response => fun _ => [HoReply response]
  | HCountError k => fun _ => [HoCount (inr k)]
  | HCountRouteBlocked _ k => fun _ => [HoCount (inl k)]
  | HCountRouteError _ k => fun _ => [HoCount (inr k)]
  | _ => fun _ => []
  end x.

Definition runs_http (ctx : ConnContext) {A} (t : http A) (tr : list http_obs) (a : A) : Prop :=
  runs (perform_http ctx) observe_http t tr a.

(** ** What a plaintext connection comes to *)

(** The token of a route that limits its rate. *)
Definition token (route : Route) : list http_obs :=
  match rt_rate_limiter route with Some rl => [HoAcquired rl true] | None => [] end.

(** A challenge for a name. *)
Definition challenges (headers host : bytes) : Prop :=
  headers <> [] /\ starts_with ACME_PATH_PREFIX (request_target headers) = true /\ host_header headers = Some host.

(** Everything that can be seen of a connection, from its head to its end. *)
Inductive plaintext (peer : SocketAddr) : list http_obs -> Prop :=
  | PtUnreadable : plaintext peer [HoCount (inr EHttpHeader)]
  | PtSilent : plaintext peer [HoHead []]
  | PtNoHost headers : headers <> [] -> host_header headers = None ->
      plaintext peer [HoHead headers; HoReply response_400]
  | PtRedirect headers host :
      headers <> [] -> host_header headers = Some host ->
      starts_with ACME_PATH_PREFIX (request_target headers) = false ->
      plaintext peer [HoHead headers; HoReply (redirect_to (redirect_location host (request_target headers)))]
  | PtUnknown headers host : challenges headers host ->
      plaintext peer [HoHead headers; HoRouted host false None; HoReply response_404; HoCount (inr ENoRoute)]
  | PtRefused headers host route :
      challenges headers host -> refuses_source (rt_allowed_sources route) (sa_ip peer) = true ->
      plaintext peer [HoHead headers; HoRouted host false (Some route); HoCount (inl BSourceNotAllowed)]
  | PtLimited headers host route rl :
      challenges headers host -> refuses_source (rt_allowed_sources route) (sa_ip peer) = false ->
      rt_rate_limiter route = Some rl ->
      plaintext peer [HoHead headers; HoRouted host false (Some route); HoAcquired rl false; HoCount (inr ERouteRateLimited)]
  | PtUnreachable headers host route :
      challenges headers host -> refuses_source (rt_allowed_sources route) (sa_ip peer) = false ->
      plaintext peer ([HoHead headers; HoRouted host false (Some route)] ++ token route ++
        [HoConnect (rt_destination route) None; HoCount (inr EUpstreamConnect)])
  | PtProxied headers host route u (failed : bool) :
      challenges headers host -> refuses_source (rt_allowed_sources route) (sa_ip peer) = false ->
      plaintext peer ([HoHead headers; HoRouted host false (Some route)] ++ token route ++
        [HoConnect (rt_destination route) (Some u); HoSent (one_shot_head headers)] ++
        if failed then [HoCount (inr EStream)] else []).

Section Safe.
Context (ctx : ConnContext) (peer : SocketAddr).

Local Abbreviation safe := (Task.safe (perform_http ctx) observe_http (fun _ _ => True)).
Local Abbreviation ends := (fun (h : list http_obs) (_ : unit) => plaintext peer h).

(** Nothing is asked of what comes before an observation. *)
Lemma obliged_nothing (h k : list http_obs) : obliged (fun _ _ => True) h k.
Proof. revert h. by induction k as [|o k IH]; intros h; [|split]. Qed.

Lemma see {X A} (e : httpE X) (t : X -> http A) Q h :
  (forall x, safe Q (h ++ observe_http X e x) (t x)) -> safe Q h (ask e ≫= t).
Proof. intros Hk. apply safe_ask. intros i w x _. split; [apply obliged_nothing | apply Hk]. Qed.

Lemma see_last {X} (e : httpE X) (Q : list http_obs -> X -> Prop) h :
  (forall x, Q (h ++ observe_http X e x) x) -> safe Q h (ask e).
Proof. intros Hk. apply safe_last. intros i w x _. split; [apply obliged_nothing | apply Hk]. Qed.

Lemma simple_says h response (Q : list http_obs -> unit -> Prop) :
  Q (h ++ [HoReply response]) tt -> safe Q h (write_simple_response response).
Proof.
  intros HQ. unfold write_simple_response. apply see. intros written. destruct written; [|by apply safe_ret].
  apply see. intros []. apply see_last. intros []. simpl. by rewrite !app_nil_r.
Qed.

Lemma proxy_acme_says headers received host :
  challenges headers host -> safe ends [HoHead headers] (proxy_acme headers received peer host).
Proof.
  intros Hch. unfold proxy_acme. apply see. intros route. cbn [observe_http app]. destruct route as [route|].
  2: { eapply safe_then; [apply (simple_says _ _ (fun h _ => h = [HoHead headers; HoRouted host false None; HoReply response_404])); reflexivity |].
       intros h [] ->. apply see_last. intros []. by apply (PtUnknown peer headers host). }
  apply see. intros []. cbn [observe_http app]. destruct (refuses_source _ _) eqn:Hsrc.
  { apply see_last. intros []. by apply (PtRefused peer headers host route). }
  apply safe_then with (R := fun h acquired => if (acquired : bool)
    then h = [HoHead headers; HoRouted host false (Some route)] ++ token route
    else exists rl, rt_rate_limiter route = Some rl /\
      h = [HoHead headers; HoRouted host false (Some route); HoAcquired rl false]).
  { unfold token. destruct (rt_rate_limiter route) as [rl|]; [|by apply safe_ret].
    apply see_last. intros []; [done | by exists rl]. }
  intros h acquired Hacq. destruct acquired; cbn [negb].
  2: { destruct Hacq as (rl & Hrl & ->). apply see_last. intros []. by apply (PtLimited peer headers host route rl). }
  subst h. apply see. intros upstream. cbn [observe_http]. destruct upstream as [u|].
  2: { apply see_last. intros []. cbn [observe_http]. rewrite <- !app_assoc. by apply PtUnreachable. }
  apply see. intros []. cbn [observe_http]. rewrite app_nil_r.
  apply see. intros [ok polls]. cbn [observe_http]. apply see. intros []. cbn [observe_http]. rewrite app_nil_r.
  apply see. intros []. cbn [observe_http]. rewrite app_nil_r. destruct ok; cbn [negb].
  - apply safe_ret. pose proof (PtProxied peer headers host route u false Hch Hsrc) as Hp.
    rewrite <- !app_assoc. exact Hp.
  - apply see_last. intros []. pose proof (PtProxied peer headers host route u true Hch Hsrc) as Hp.
    cbn [observe_http]. rewrite <- !app_assoc. exact Hp.
Qed.

Lemma handle_http_says : safe ends [] (handle_http peer).
Proof.
  unfold handle_http. apply see. intros []. apply see. intros head. cbn [observe_http app].
  destruct head as [[[|b headers] excess]|timed_out]; [apply safe_ret; constructor | |].
  2: { apply see_last. intros []. constructor. }
  set (head := b :: headers). assert (head <> []) as Hne by done. clearbody head.
  unfold answer_head. cbv zeta. apply see. intros []. cbn [observe_http]. rewrite app_nil_r.
  destruct (starts_with ACME_PATH_PREFIX _) eqn:Ht; (destruct (host_header head) as [host|] eqn:Hhost;
    [|apply simple_says; by apply PtNoHost]).
  - by apply proxy_acme_says.
  - apply see. intros written. cbn [observe_http app].
    apply safe_then with (R := fun h _ => h = [HoHead head; HoReply (redirect_to (redirect_location host (request_target head)))]).
    { destruct written; [by apply see_last; intros [] | by apply safe_ret]. }
    intros h [] ->. apply see_last. intros []. by apply PtRedirect.
Qed.
End Safe.
End HttpListener.

(** ** Lemmas: the head of a challenge, as lines *)

(** A line that is neither empty nor cut by a line end of its own. *)
Definition framed (l : bytes) : Prop := l <> [] /\ find_sub crlf (l ++ crlf) = Some (length l).

Lemma split_line fuel l rest : find_sub crlf (l ++ crlf) = Some (length l) ->
  split_crlf (S fuel) (l ++ crlf ++ rest) = l :: split_crlf fuel rest.
Proof.
  intros Hl. cbn [split_crlf]. rewrite app_assoc, (find_sub_extend crlf (l ++ crlf) rest (length l) crlf_ne Hl).
  rewrite <- app_assoc, take_app_length. f_equal. f_equal.
  rewrite (app_assoc l crlf rest). apply drop_app_length'. rewrite length_app. simpl. lia.
Qed.

Lemma split_nil fuel : split_crlf fuel [] = [[]].
Proof. by destruct fuel. Qed.

Lemma split_head_lines lines fuel :
  Forall framed lines -> (length lines < fuel)%nat -> split_crlf fuel (enc_lines lines ++ crlf) = lines ++ [[]; []].
Proof.
  revert fuel. induction lines as [|l lines IH]; intros fuel Hl Hf; (destruct fuel as [|fuel]; [simpl in Hf; lia |]).
  - etrans; [exact (split_line fuel [] [] eq_refl) |]. by rewrite split_nil.
  - apply Forall_cons_iff in Hl as [[_ Hl] Hls]. rewrite enc_lines_cons, <- !app_assoc, split_line by done.
    simpl. f_equal. apply IH; [done | simpl in Hf; lia].
Qed.

Lemma enc_lines_length lines : (2 * length lines <= length (enc_lines lines))%nat.
Proof. induction lines as [|l lines IH]; [done |]. rewrite enc_lines_cons, !length_app. simpl. lia. Qed.

Lemma split_head rl lines : framed rl -> Forall framed lines ->
  split_crlf (length (encode_head rl lines)) (encode_head rl lines) = rl :: lines ++ [[]; []].
Proof.
  intros [_ Hrl] Hl. pose proof (enc_lines_length lines) as Hlen.
  assert (exists n, length (encode_head rl lines) = S n /\ (length lines < n)%nat) as (n & -> & Hn).
  { exists (length (encode_head rl lines) - 1)%nat. unfold encode_head. rewrite !length_app. simpl. lia. }
  unfold encode_head. rewrite split_line by done. f_equal. by apply split_head_lines.
Qed.

Lemma map_head rl lines f g : framed rl -> Forall framed lines ->
  (forall l, l ∈ lines -> f l = enc_lines (g l)) ->
  map_lines f (encode_head rl lines) = rl ++ crlf ++ enc_lines (lines ≫= g).
Proof.
  intros Hrl Hl Hf. unfold map_lines. rewrite split_head by done. destruct rl as [|b rl]; [by destruct Hrl |].
  rewrite <- app_assoc. f_equal. f_equal. rewrite fmap_app, concat_app. simpl. rewrite app_nil_r.
  revert Hf. induction Hl as [|l lines [Hne _] _ IH]; intros Hf; [done |]. simpl.
  assert (forall a b, enc_lines (a ++ b) = enc_lines a ++ enc_lines b) as Happ
    by (intros a b'; unfold enc_lines; by rewrite fmap_app, concat_app).
  rewrite Happ. f_equal; [destruct l; [done |]; apply Hf; constructor |]. apply IH. intros l' Hl'. apply Hf. by constructor.
Qed.

Lemma encode_utf8 rl lines : Forall (fun l => is_utf8 l = true) (rl :: lines) -> is_utf8 (encode_head rl lines) = true.
Proof.
  intros [Hrl Hl]%Forall_cons_iff. unfold encode_head. apply is_utf8_app; [done |]. apply is_utf8_app; [done |].
  apply is_utf8_app; [|done]. induction Hl as [|l lines Hu _ IH]; [done |]. rewrite enc_lines_cons.
  apply is_utf8_app; [done |]. by apply is_utf8_app.
Qed.

Definition is_framing_line (l : bytes) : bool :=
  match line_name l with
  | Some name => eq_ignore_ascii_case name (bs "content-length") || eq_ignore_ascii_case name (bs "transfer-encoding")
  | None => false
  end.
Definition close_line : bytes := bs "Connection: close".

(** What is left of the client's lines. *)
Definition one_shot_lines (lines : list bytes) : list bytes :=
  let kept := List.filter (fun l => negb (is_framing_line l)) lines in
  ((fun l => if is_connection_line l then close_line else l) <$> kept) ++
  (if existsb is_connection_line kept then [] else [close_line]).

Lemma strip_head rl lines :
  framed rl -> Forall framed lines -> Forall (fun l => is_utf8 l = true) (rl :: lines) ->
  strip_body_framing (encode_head rl lines) = encode_head rl (List.filter (fun l => negb (is_framing_line l)) lines).
Proof.
  intros Hrl Hl Hu. unfold strip_body_framing. rewrite encode_utf8 by done. cbn [negb].
  rewrite (map_head rl lines _ (fun l => if is_framing_line l then [] else [l]) Hrl Hl).
  - unfold encode_head. rewrite <- !app_assoc. do 2 f_equal.
    clear Hl Hu. f_equal. f_equal. induction lines as [|l lines IH]; [done |]. simpl. rewrite <- IH.
    by destruct (is_framing_line l).
  - intros l _. unfold is_framing_line. destruct (line_name l) as [n|]; [|by rewrite enc_lines_cons, app_nil_r].
    destruct (_ || _); [done | by rewrite enc_lines_cons, app_nil_r].
Qed.

Lemma close_head rl lines :
  framed rl -> Forall framed lines -> Forall (fun l => is_utf8 l = true) (rl :: lines) ->
  with_connection_close (encode_head rl lines) =
  encode_head rl (((fun l => if is_connection_line l then close_line else l) <$> lines) ++
                  (if existsb is_connection_line lines then [] else [close_line])).
Proof.
  intros Hrl Hl Hu. unfold with_connection_close, rewrite_connection_header. rewrite encode_utf8 by done. cbn [negb].
  rewrite split_head by done. change (drop 1 (rl :: lines ++ [[]; []])) with (lines ++ [[]; []]).
  rewrite (map_head rl lines _ (fun l => [if is_connection_line l then close_line else l]) Hrl Hl).
  2: { intros l _. rewrite enc_lines_cons, app_nil_r. by destruct (is_connection_line l). }
  rewrite existsb_app. assert (existsb is_connection_line [[]; []] = false) as -> by reflexivity. rewrite orb_false_r.
  assert ((lines ≫= (fun l => [if is_connection_line l then close_line else l])) =
    ((fun l => if is_connection_line l then close_line else l) <$> lines)) as -> by (by induction lines; simpl; f_equal).
  unfold encode_head. rewrite <- !app_assoc. do 2 f_equal.
  destruct (existsb _ _); [by rewrite !app_nil_r |]. rewrite enc_lines_snoc, <- !app_assoc. done.
Qed.

Lemma one_shot_head_lines rl lines :
  framed rl -> Forall framed lines -> Forall (fun l => is_utf8 l = true) (rl :: lines) ->
  one_shot_head (encode_head rl lines) = encode_head rl (one_shot_lines lines).
Proof.
  intros Hrl Hl Hu. unfold one_shot_head. rewrite strip_head by done. apply close_head; [done | |].
  - apply Forall_forall. intros l [Hin _]%filter_In. rewrite Forall_forall in Hl. by apply Hl.
  - apply Forall_cons_iff in Hu as [Hr Hu]. constructor; [done |]. apply Forall_forall. intros l [Hin _]%filter_In.
    rewrite Forall_forall in Hu. by apply Hu.
Qed.

(** ** Lemmas: the redirect *)

Definition no_line_end (s : bytes) : Prop := Forall (fun b => b <> 13 /\ b <> 10) s.

Lemma position_before (p : Z -> bool) s : Forall (fun b => p b = false) (take (default (length s) (position p s)) s).
Proof.
  induction s as [|b s IH]; [by rewrite take_nil |]. cbn [position]. destruct (p b) eqn:Hb; [constructor |].
  destruct (position p s) as [n|]; simpl in *; by constructor.
Qed.

Lemma request_target_line headers : no_line_end (request_target headers).
Proof.
  unfold request_target. destruct (position _ headers) as [first_sp|]; [|constructor].
  pose proof (position_before (fun b => (b =? 32) || (b =? 13) || (b =? 10)) (drop (first_sp + 1) headers)) as Hp.
  eapply Forall_impl; [|exact Hp]. intros b Hb. simpl in Hb. rewrite !orb_false_iff, !Z.eqb_neq in Hb. lia.
Qed.

Lemma host_line headers host : host_header headers = Some host -> no_line_end host /\ host <> [].
Proof.
  unfold host_header. destruct (header_field headers _) as [v|]; [|done]. cbn [mbind option_bind].
  destruct (from_utf8 v) as [value|]; [|done]. cbn [mbind option_bind]. destruct (existsb _ value) eqn:Hb; [done |].
  assert (no_line_end value) as Hv.
  { apply Forall_forall. intros b Hin. apply not_true_iff_false in Hb. split; intros ->; apply Hb, existsb_exists;
      (eexists; split; [exact Hin | reflexivity]). }
  assert (forall n, no_line_end (take n value)) as Ht by (intros n; rewrite <- (take_drop n value) in Hv; by apply Forall_app in Hv as [? _]).
  destruct (starts_with _ value).
  - destruct (position (Z.eqb 93) value) as [close|]; [|done]. cbn [mbind option_bind].
    destruct (take (close + 1) value) as [|b t] eqn:E; [done |]. intros [= <-]. split; [rewrite <- E; apply Ht | done].
  - destruct (position (Z.eqb 58) value) as [colon|]; cbn [mbind option_bind].
    + destruct (take colon value) as [|b t] eqn:E; [done |]. intros [= <-]. split; [rewrite <- E; apply Ht | done].
    + destruct value as [|b t] eqn:E; [done |]. intros [= <-]. done.
Qed.

Lemma location_line headers host :
  host_header headers = Some host -> no_line_end (redirect_location host (request_target headers)).
Proof.
  intros [Hh _]%host_line. pose proof (request_target_line headers) as Ht. unfold redirect_location, from_utf8. cbv zeta.
  assert (no_line_end (bs "https://") /\ no_line_end (bs "/")) as [H1 H2]
    by (split; apply Forall_forall; intros b Hb; vm_compute in Hb; repeat destruct Hb as [<-|Hb]; lia || done).
  apply Forall_app. split; [done |]. apply Forall_app. split; [done |].
  destruct (is_utf8 _); simpl; [|done]. destruct (request_target headers); done.
Qed.

Lemma no_line_end_framed l : no_line_end l -> l <> [] -> framed l.
Proof.
  intros Hl Hne. split; [done |]. apply no_cr_line. apply not_true_iff_false. intros Hc.
  apply existsb_exists in Hc as (b & Hin & Hb). unfold no_line_end in Hl. rewrite Forall_forall in Hl. specialize (Hl b Hin).
  apply Z.eqb_eq in Hb. lia.
Qed.

(** ** Properties *)

Module Properties.


(** A challenge is forwarded as one request without a body. For every head
    that is UTF-8 text, what the upstream is sent has the client's request line
    and fields in their order, but no Content-Length or Transfer-Encoding, and
    Connection says close, wherever the client said anything else and also where
    it said nothing. *)
Theorem challenge_is_one_shot rl lines :
  framed rl -> Forall framed lines -> Forall (fun l => is_utf8 l = true) (rl :: lines) ->
  let sent := one_shot_lines lines in
  one_shot_head (encode_head rl lines) = encode_head rl sent /\
  Forall (fun l => is_framing_line l = false /\ (is_connection_line l = true -> l = close_line)) sent /\
  close_line ∈ sent /\
  List.filter (fun l => negb (is_framing_line l) && negb (is_connection_line l)) sent =
  List.filter (fun l => negb (is_framing_line l) && negb (is_connection_line l)) lines.
Proof.
  intros Hrl Hl Hu sent. split; [by apply one_shot_head_lines |]. unfold sent, one_shot_lines.
  set (kept := List.filter (fun l => negb (is_framing_line l)) lines).
  set (g := fun l => if is_connection_line l then close_line else l).
  assert (is_framing_line close_line = false /\ is_connection_line close_line = true) as [Hcf Hcc]
    by (split; vm_compute; reflexivity).
  assert (Forall (fun l => is_framing_line l = false) kept) as Hk.
  { apply Forall_forall. intros l [_ Hf]%filter_In. by apply negb_true_iff. }
  split; [|split].
  - apply Forall_app. split.
    + apply Forall_fmap. eapply Forall_impl; [|exact Hk]. intros l Hf. cbv beta. unfold g.
      cbn [compose]. destruct (is_connection_line l) eqn:Hc; [split; [exact Hcf | reflexivity] |]. split; [exact Hf |]. rewrite Hc. discriminate.
    + destruct (existsb _ kept); constructor; [split; [exact Hcf | reflexivity] | constructor].
  - apply elem_of_app. destruct (existsb is_connection_line kept) eqn:He; [left | right; by apply list_elem_of_singleton].
    apply existsb_exists in He as (l & Hin & Hc). apply list_elem_of_fmap. exists l. unfold g. rewrite Hc.
    split; [done | by apply list_elem_of_In].
  - rewrite List.filter_app.
    assert (List.filter (fun l => negb (is_framing_line l) && negb (is_connection_line l))
      (if existsb is_connection_line kept then [] else [close_line]) = []) as ->
      by (destruct (existsb _ kept); cbn [List.filter]; [done | by rewrite Hcc, andb_false_r]).
    rewrite app_nil_r. unfold kept. clear Hk Hl Hu. induction lines as [|l lines IH]; [done |].
    cbn [List.filter]. destruct (is_framing_line l) eqn:Hf; cbn [negb andb]; [exact IH |].
    rewrite fmap_cons. cbn [List.filter]. assert (g l = if is_connection_line l then close_line else l) as Hg by reflexivity.
    destruct (is_connection_line l) eqn:Hc; rewrite Hg; [rewrite Hcc, Hcf | rewrite Hf, Hc]; cbn [negb andb];
      [exact IH | f_equal; exact IH].
Qed.

Lemma challenge_is_one_shot_witness :
  one_shot_head (encode_head (bs "GET /.well-known/acme-challenge/x HTTP/1.1")
    [bs "Host: a.example.com"; bs "content-length: 999999"; bs "Connection: keep-alive"]) =
  encode_head (bs "GET /.well-known/acme-challenge/x HTTP/1.1") [bs "Host: a.example.com"; close_line].
Proof.
  etrans; [apply challenge_is_one_shot |].
  - split; [discriminate | vm_compute; reflexivity].
  - repeat constructor; try discriminate; vm_compute; reflexivity.
  - repeat constructor.
  - vm_compute; reflexivity.
Defined.

(** A head that is not UTF-8 is forwarded as it came, so that a challenge with one
    such byte in some field reaches the upstream with the body it announces and the
    connection handling it asks for, and nothing else is sent after it. *)
Theorem challenge_framing_can_be_kept :
  (forall headers, is_utf8 headers = false -> one_shot_head headers = headers) /\
  exists rl lines, framed rl /\ Forall framed lines /\
    starts_with ACME_PATH_PREFIX (request_target (encode_head rl lines)) = true /\
    host_header (encode_head rl lines) = Some (bs "a.example.com") /\ is_utf8 (encode_head rl lines) = false /\
    existsb is_framing_line lines = true /\ existsb is_connection_line lines = false.
Proof.
  split; [intros headers Hu; unfold one_shot_head, strip_body_framing; rewrite Hu;
    cbn [negb]; unfold with_connection_close, rewrite_connection_header; by rewrite Hu |].
  exists (bs "GET /.well-known/acme-challenge/x HTTP/1.1"),
    [bs "Host: a.example.com"; bs "Content-Length: 999999"; bs "X: " ++ [255]].
  split; [split; [discriminate | vm_compute; reflexivity] |].
  split; [repeat constructor; try discriminate; vm_compute; reflexivity |].
  split_and!; vm_compute; reflexivity.
Qed.

(** A redirect cannot be split. Whatever the request line and Host carry, the
    301 has the same four lines: the target and the host bring no line end into
    the Location field, and the host is not empty. *)
Theorem redirect_has_four_lines headers host :
  host_header headers = Some host ->
  let location := redirect_location host (request_target headers) in
  no_line_end location /\
  redirect_to location = encode_head (bs "HTTP/1.1 301 Moved Permanently")
    [bs "Location: " ++ location; bs "Content-Length: 0"; close_line] /\
  split_crlf (length (redirect_to location)) (redirect_to location) =
    [bs "HTTP/1.1 301 Moved Permanently"; bs "Location: " ++ location; bs "Content-Length: 0"; close_line; []; []].
Proof.
  intros Hh location. pose proof (location_line headers host Hh) as Hl. fold location in Hl.
  assert (redirect_to location = encode_head (bs "HTTP/1.1 301 Moved Permanently")
    [bs "Location: " ++ location; bs "Content-Length: 0"; close_line]) as Heq.
  { unfold redirect_to, encode_head, enc_lines. cbn [fmap list_fmap concat]. rewrite <- !app_assoc. reflexivity. }
  split_and!; [exact Hl | exact Heq |]. rewrite Heq. apply split_head.
  - split; [discriminate | vm_compute; reflexivity].
  - constructor.
    + apply no_line_end_framed; [|discriminate]. apply Forall_app. split; [|exact Hl].
      repeat constructor; discriminate.
    + repeat constructor; try discriminate; vm_compute; reflexivity.
Qed.

Lemma redirect_has_four_lines_witness :
  let headers := encode_head (bs "GET /a?b HTTP/1.1") [bs "Host: a.example.com:80"] in
  redirect_location (bs "a.example.com") (request_target headers) = bs "https://a.example.com/a?b" /\
  no_line_end (redirect_location (bs "a.example.com") (request_target headers)).
Proof.
  intros headers. split; [vm_compute; reflexivity |].
  apply (redirect_has_four_lines headers (bs "a.example.com")). vm_compute. reflexivity.
Defined.

(** ** A run *)

#[local] Existing Instance Net.cidr_lib.
#[local] Existing Instance Protection.ascii_lowercase.
#[local] Existing Instance Tls.Properties.raw_tls.
#[local] Existing Instance Tls.Properties.tagged_digests.

Definition challenge : bytes :=
  encode_head (bs "GET /.well-known/acme-challenge/x HTTP/1.1") [bs "Host: a.example.com"].
Definition challenge_io : http_io := mkHttpIo false (fun n => n) false challenge true ConnectionRuns.Properties.sample_io.
Definition challenge_run : option unit * proc * list http_obs :=
  execute (perform_http (ConnectionRuns.Properties.sample_ctx false)) observe_http
    (handle_http ConnectionRuns.Properties.sample_peer) (replicate 12 challenge_io) ConnectionRuns.Properties.sample_proc.

Definition page : bytes := encode_head (bs "GET /page HTTP/1.1") [bs "Host: a.example.com"].
Definition page_run : option unit * proc * list http_obs :=
  execute (perform_http (ConnectionRuns.Properties.sample_ctx false)) observe_http
    (handle_http ConnectionRuns.Properties.sample_peer)
    (replicate 12 (mkHttpIo false (fun n => n) false page true ConnectionRuns.Properties.sample_io))
    ConnectionRuns.Properties.sample_proc.

End Properties.
