(* ===== verification/Pool.v ===== *)
(** * Many connections at once (src/src/listener.rs, src/src/http_listener.rs and
    src/src/proxy_conn.rs)

    The accept loops and the tasks they spawn, as a step relation: any number of
    connections of both kinds of listener interleave, each advancing by one
    question of [Connection.handle] or [HttpListener.handle_http] at a time,
    between reloads, evictions, reconfigurations, the application's answers and
    the background tasks. A task holds its guards on a stack; when it has
    finished, or its future is dropped at an await, they are dropped one by one,
    the latest first. *)

From S2P Require Import Prelude Bytes Net TokenBucket Sni Tls Protection ProxyProtocol Balancer BalancerState Metrics Failover Router HttpHead HttpPump Forwarding Task Suspended Liveness Connection ConnectionRuns HttpListener.

Open Scope Z_scope.

Section Pool.
Context `{TlsLib} `{NetLib}.

(** ** Tasks and steps *)

(** A connection of a TLS listener, and one of an HTTP listener. *)
Inductive anyE : Type -> Type :=
  | TlsE {X} (e : connE X) : anyE X
  | HttpE {X} (e : httpE X) : anyE X.

Definition perform_any (ctx : ConnContext) (i : http_io) (w : proc) (X : Type) (e : anyE X) : X * proc :=
  match e with
  | TlsE e => perform ctx (hi_io i) w _ e
  | HttpE e => perform_http ctx i w _ e
  end.

Record conn_task : Type := mkConnTask { ct_ctx : ConnContext; ct_rest : task anyE unit; ct_guards : list guard }.

Record pool : Type := mkPool { po_proc : proc; po_tasks : list conn_task }.

(** [active_guard.ip_state = Some(state)] *)
Definition hold (id : nat) (gs : list guard) : list guard :=
  match gs with
  | GActive _ :: gs' => GActive (Some id) :: gs'
  | _ => gs
  end.

(** An upstream is in scope once it is connected. *)
Definition connected (u : option upstream_stream) (gs : list guard) : list guard :=
  match u with Some u => GUpstream u :: gs | None => gs end.

(** What a question does to the stack, and what leaves it. *)
Definition tls_guards_after (X : Type) (e : connE X) (x : X) (gs : list guard) : list guard :=
  match e in connE X return X -> list guard with
  | Acquire g => fun _ => g :: gs
  | Leave => fun _ => tail gs
  | Check _ _ => fun d => match d with Allow id => hold id gs | _ => gs end
  | Connect _ _ _ _ => fun u => connected u gs
  | _ => fun _ => gs
  end x.

Definition http_guards_after (X : Type) (e : httpE X) (x : X) (gs : list guard) : list guard :=
  match e in httpE X return X -> list guard with
  | HAcquire g => fun _ => g :: gs
  | HConnect _ _ _ => fun u => connected u gs
  | _ => fun _ => gs
  end x.

Definition guards_after (X : Type) (e : anyE X) (x : X) (gs : list guard) : list guard :=
  match e in anyE X return X -> list guard with
  | TlsE e => fun x => tls_guards_after _ e x gs
  | HttpE e => fun x => http_guards_after _ e x gs
  end x.

Definition left_by (X : Type) (e : anyE X) (gs : list guard) : option guard :=
  match e with TlsE Leave => head gs | _ => None end.

(** One question of a task, answered. *)
Definition advance (i : http_io) (w : proc) (ctx : ConnContext) (X : Type) (e : anyE X) (k : X -> task anyE unit)
    (gs : list guard) : conn_task * proc :=
  let '(x, w') := perform_any ctx i w X e in
  (mkConnTask ctx (k x) (guards_after X e x gs),
   match left_by X e gs with Some g => drop_guard ctx w' g | None => w' end).

(** The task of an accepted stream. *)
Definition work_of (mode : ListenerMode) (ctx : ConnContext) (peer : SocketAddr) (local : option SocketAddr)
    : task anyE unit :=
  match mode with
  | ModeTls => embed (@TlsE) (handle ctx peer local)
  | ModeHttp => embed (@HttpE) (handle_http peer)
  end.

(** The two [accept_loop]s: a stream over the limit is dropped and counted, any
    other is handled in a task of its own. *)
Definition accept (mode : ListenerMode) (ctx : ConnContext) (max_connections : Z) (peer : SocketAddr)
    (local : option SocketAddr) (p : pool) : pool :=
  if (0 <? max_connections) && (max_connections <=? gm_active (pc_global (po_proc p)))
  then mkPool (set_listener (po_proc p) (cx_listener ctx)
                 (lm_inc_blocked (listener_of (po_proc p) (cx_listener ctx)) BMaxConnections)) (po_tasks p)
  else mkPool (po_proc p) (po_tasks p ++ [mkConnTask ctx (work_of mode ctx peer local) []]).

(** What the rest of the process does between the steps of connections. *)
Inductive background : proc -> proc -> Prop :=
  | BgReload w t sh fl st :
      background w (mkProc (pc_listeners w) (pc_global w) (pc_routes w) (pc_protection w) (pc_ingress w) t
                      (pc_registry w) sh fl st (pc_balancers w))
  | BgIngress w ing :
      background w (mkProc (pc_listeners w) (pc_global w) (pc_routes w) (pc_protection w) ing (pc_table w)
                      (pc_registry w) (pc_shared w) (pc_fleet w) (pc_configs w) (pc_balancers w))
  | BgEvict w l now : background w (set_protection w l (Protection.evict_at (protection_of w l) now))
  | BgReconfigure w l c : background w (set_protection w l (reconfigure (protection_of w l) c))
  | BgResolve w id v : background w (set_registry w (resolve (pc_registry w) id v))
  | BgAffinity w b now :
      background w (set_balancers w (keep_affinity (pc_balancers w) (evict_affinity (balancer_now (pc_balancers w) b) now))).

(** A connection goes on by one question, with an input the rest of the process
    allows, is dropped at an await, or drops a guard once it has ended. *)
Inductive task_step (allowed : http_io -> Prop) : pool -> pool -> Prop :=
  | StepAsk w ts j i ctx X (e : anyE X) k gs t' w' :
      allowed i -> ts !! j = Some (mkConnTask ctx (Ask e k) gs) -> advance i w ctx X e k gs = (t', w') ->
      task_step allowed (mkPool w ts) (mkPool w' (<[j := t']> ts))
  | StepAbort w ts j ctx rest gs :
      ts !! j = Some (mkConnTask ctx rest gs) ->
      task_step allowed (mkPool w ts) (mkPool w (<[j := mkConnTask ctx (Finish tt) gs]> ts))
  | StepDrop w ts j ctx a g gs :
      ts !! j = Some (mkConnTask ctx (Finish a) (g :: gs)) ->
      task_step allowed (mkPool w ts) (mkPool (drop_guard ctx w g) (<[j := mkConnTask ctx (Finish a) gs]> ts)).

(** [limits]: the [max_connections] each listener was started with. *)
Inductive step (limits : nat -> Z) : pool -> pool -> Prop :=
  | StepTask p p' : task_step (fun _ => True) p p' -> step limits p p'
  | StepAccept p mode ctx peer local : step limits p (accept mode ctx (limits (cx_listener ctx)) peer local p)
  | StepBackground w w' ts : background w w' -> step limits (mkPool w ts) (mkPool w' ts).

(** ** Counting guards *)

Definition guards_where (P : ConnContext -> guard -> bool) (t : conn_task) : Z :=
  Z.of_nat (length (List.filter (P (ct_ctx t)) (ct_guards t))).
Definition guards_held (P : ConnContext -> guard -> bool) (ts : list conn_task) : Z :=
  foldr (fun t acc => guards_where P t + acc) 0 ts.

Definition active_on (l : nat) (ctx : ConnContext) (g : guard) : bool :=
  match g with GActive _ => (cx_listener ctx =? l)%nat | _ => false end.
Definition active_anywhere (ctx : ConnContext) (g : guard) : bool :=
  match g with GActive _ => true | _ => false end.
Definition half_closed_on (l : nat) (ctx : ConnContext) (g : guard) : bool :=
  match g with GHalfClosed => (cx_listener ctx =? l)%nat | _ => false end.
Definition on_slot (slot : nat * bytes) (ctx : ConnContext) (g : guard) : bool :=
  match g with GUpstream (UpUds a path) => bool_decide ((a, path) = slot) | _ => false end.
Definition on_route (r : nat) (ctx : ConnContext) (g : guard) : bool :=
  match g with GRoute r' => (r' =? r)%nat | _ => false end.

(** Fewer guards than the narrowest counter can count. *)
Definition small (p : pool) : Prop := guards_held (fun _ _ => true) (po_tasks p) <= u32_max.

(** The process as it starts, with the protection of each listener that has it. *)
Definition boot_proc (cfgs : gmap nat ProtectionConfig) (w : proc) : Prop :=
  pc_listeners w = ∅ /\ pc_global w = mkGM 0 0 0 0 /\ pc_routes w = ∅ /\
  pc_protection w = ProtectionState_new <$> cfgs /\ pc_registry w = SuspendedRegistry_new /\
  active_counts (pc_balancers w) = ∅.

Inductive reachable (limits : nat -> Z) (cfgs : gmap nat ProtectionConfig) : pool -> Prop :=
  | ReachBoot w : boot_proc cfgs w -> reachable limits cfgs (mkPool w [])
  | ReachStep p p' : reachable limits cfgs p -> step limits p p' -> small p' -> reachable limits cfgs p'.

(** ** Lemmas: what a question changes *)

Definition gauges (w : proc) (l r : nat) (s : nat * bytes) : Z * Z * Z * Z * Z :=
  (lm_active (listener_of w l), lm_half_closed (listener_of w l), gm_active (pc_global w), rm_active (route_of w r),
   slot_active_count (pc_balancers w) s.1 s.2).

Lemma listener_of_set w l l' m :
  listener_of (set_listener w l m) l' = if decide (l = l') then m else listener_of w l'.
Proof.
  unfold listener_of. simpl. case_decide as Hd; [subst; by rewrite lookup_insert_eq | by rewrite lookup_insert_ne].
Qed.

Lemma route_of_set w r r' m :
  route_of (set_route_metrics w r m) r' = if decide (r = r') then m else route_of w r'.
Proof.
  unfold route_of. simpl. case_decide as Hd; [subst; by rewrite lookup_insert_eq | by rewrite lookup_insert_ne].
Qed.

(** Counters other than the gauges. *)
Lemma set_listener_gauges w l l' r s m :
  lm_active m = lm_active (listener_of w l) -> lm_half_closed m = lm_half_closed (listener_of w l) ->
  gauges (set_listener w l m) l' r s = gauges w l' r s.
Proof.
  intros Ha Hh. unfold gauges. rewrite listener_of_set. case_decide as Hd; [subst; by rewrite Ha, Hh | done].
Qed.

Lemma count_both_gauges ctx w r f l' r' s :
  (forall l m, lm_active (f l m).1 = lm_active l /\ lm_half_closed (f l m).1 = lm_half_closed l /\
     rm_active (f l m).2 = rm_active m) ->
  gauges (count_both ctx w r f) l' r' s = gauges w l' r' s.
Proof.
  intros Hf. unfold count_both. destruct (Hf (listener_of w (cx_listener ctx)) (route_of w r)) as (Ha & Hh & Hr).
  destruct (f _ _) as [l m]. simpl in *. unfold gauges. rewrite route_of_set.
  change (listener_of (set_route_metrics (set_listener w (cx_listener ctx) l) r m) l')
    with (listener_of (set_listener w (cx_listener ctx) l) l').
  rewrite listener_of_set. repeat case_decide; subst; rewrite ?Ha, ?Hh, ?Hr; done.
Qed.

Lemma poll_io_gauges s e :
  lm_active (cs_listener (poll_io s e)) = lm_active (cs_listener s) /\
  lm_half_closed (cs_listener (poll_io s e)) = lm_half_closed (cs_listener s) /\
  rm_active <$> cs_route (poll_io s e) = rm_active <$> cs_route s.
Proof.
  unfold poll_io, record_in, record_out. repeat case_match; simpl; try done; by destruct (cs_route s).
Qed.

Lemma polls_gauges polls s :
  lm_active (cs_listener (foldl poll_io s polls)) = lm_active (cs_listener s) /\
  lm_half_closed (cs_listener (foldl poll_io s polls)) = lm_half_closed (cs_listener s) /\
  rm_active <$> cs_route (foldl poll_io s polls) = rm_active <$> cs_route s.
Proof.
  revert s. induction polls as [|e polls IH]; intros s; [done |]. simpl.
  destruct (IH (poll_io s e)) as (-> & -> & ->). apply poll_io_gauges.
Qed.

Lemma count_polls_gauges polls l m :
  lm_active (count_polls polls l m).1 = lm_active l /\ lm_half_closed (count_polls polls l m).1 = lm_half_closed l /\
  rm_active (count_polls polls l m).2 = rm_active m.
Proof.
  unfold count_polls. cbv zeta. set (s := foldl poll_io (CountingStream_new l (Some m)) polls).
  destruct (polls_gauges polls (CountingStream_new l (Some m))) as (Ha & Hh & Hr). fold s in Ha, Hh, Hr.
  assert (lm_active (cs_listener (CountingStream_drop s)) = lm_active (cs_listener s) /\
    lm_half_closed (cs_listener (CountingStream_drop s)) = lm_half_closed (cs_listener s) /\
    rm_active <$> cs_route (CountingStream_drop s) = rm_active <$> cs_route s) as (Ha' & Hh' & Hr').
  { unfold CountingStream_drop. repeat case_match; simpl; try done; by destruct (cs_route s). }
  simpl. rewrite Ha', Hh', Ha, Hh. split_and!; [done | done |]. rewrite Hr in Hr'. simpl in Hr'.
  destruct (cs_route (CountingStream_drop s)); simplify_eq/=; done.
Qed.

Lemma inc_route_error_gauges k l m :
  lm_active (inc_route_error l m k).1 = lm_active l /\ lm_half_closed (inc_route_error l m k).1 = lm_half_closed l /\
  rm_active (inc_route_error l m k).2 = rm_active m.
Proof. unfold inc_route_error, rm_inc_error. simpl. by case_match. Qed.

Lemma inc_route_blocked_gauges k l m :
  lm_active (inc_route_blocked l m k).1 = lm_active l /\ lm_half_closed (inc_route_blocked l m k).1 = lm_half_closed l /\
  rm_active (inc_route_blocked l m k).2 = rm_active m.
Proof. unfold inc_route_blocked, rm_inc_blocked. simpl. by case_match. Qed.

Lemma add1_small v : 0 <= v -> v + 1 <= u64_max -> add1 v = v + 1.
Proof. intros. unfold add1, u64_wrapping_add. apply Z.mod_small. unfold u64_max in *. lia. Qed.
Lemma sub1_small v : 1 <= v <= u64_max -> sub1 v = v - 1.
Proof. intros. unfold sub1, u64_wrapping_sub. apply Z.mod_small. unfold u64_max in *. lia. Qed.
Lemma u32_add1_small v : 0 <= v -> v + 1 <= u32_max -> u32_wrapping_add v 1 = v + 1.
Proof. intros. unfold u32_wrapping_add. apply Z.mod_small. unfold u32_max in *. lia. Qed.

(** The gauges are [c]: of the listener, its half-closed ones, of the process,
    of the route and of the balancer's slot. *)
Definition gauge_tuple (P : (ConnContext -> guard -> bool) -> Z) (l r : nat) (s : nat * bytes) : Z * Z * Z * Z * Z :=
  (P (active_on l), P (half_closed_on l), P active_anywhere, P (on_route r), P (on_slot s)).

Definition hit (ctx : ConnContext) (g : guard) (P : ConnContext -> guard -> bool) : Z := Z.b2z (P ctx g).

(** A balancer's guard and its slot. *)
Lemma upstream_counted bl a path s (c : Z) :
  0 <= c -> c + Z.b2z (bool_decide ((a, path) = s)) <= u32_max -> slot_active_count bl s.1 s.2 = c ->
  slot_active_count (guard_new bl a path) s.1 s.2 = c + Z.b2z (bool_decide ((a, path) = s)).
Proof.
  intros Hpos Hmax Hc. unfold guard_new. rewrite count_of_adjust. destruct s as [a' p']. simpl in *. case_decide as He.
  - rewrite bool_decide_eq_true_2 in * by done. injection He as -> ->. rewrite Hc. by apply u32_add1_small.
  - rewrite bool_decide_eq_false_2 by done. rewrite Hc. simpl. lia.
Qed.

Lemma upstream_uncounted bl a path s (c : Z) :
  Z.b2z (bool_decide ((a, path) = s)) <= c -> slot_active_count bl s.1 s.2 = c ->
  slot_active_count (guard_drop bl a path) s.1 s.2 = c - Z.b2z (bool_decide ((a, path) = s)).
Proof.
  intros Hpos Hc. unfold guard_drop. rewrite count_of_adjust. destruct s as [a' p']. simpl in *. case_decide as He.
  - rewrite bool_decide_eq_true_2 in * by done. injection He as -> ->. rewrite Hc. unfold saturating_sub.
    simpl in *. by rewrite Z.max_r by lia.
  - rewrite bool_decide_eq_false_2 by done. rewrite Hc. simpl. lia.
Qed.

Lemma acquire_gauges ctx w g l r s (c : (ConnContext -> guard -> bool) -> Z) :
  (forall P, 0 <= c P) -> (forall P, c P + hit ctx g P <= u32_max) ->
  gauges w l r s = gauge_tuple c l r s ->
  gauges (acquire ctx w g) l r s = gauge_tuple (fun P => c P + hit ctx g P) l r s.
Proof.
  intros Hpos Hmax32 [= Ha Hh Hn Hq Hu]. unfold gauges, gauge_tuple.
  assert (forall P, c P + hit ctx g P <= u64_max) as Hmax by (intros P; specialize (Hmax32 P); unfold u32_max, u64_max in *; lia).
  destruct g as [ip|r'|u|]; simpl in *; unfold hit in *; simpl; rewrite ?Z.add_0_r; try rewrite Hu.
  - change (listener_of (set_global ?w' _) l) with (listener_of w' l).
    change (route_of (set_global (set_listener w _ _) _) r) with (route_of w r). simpl.
    rewrite listener_of_set, Hn, Hq. specialize (Hmax active_anywhere) as Hany. simpl in Hany.
    rewrite (add1_small (c active_anywhere)) by (specialize (Hpos active_anywhere); lia).
    specialize (Hmax (active_on l)). simpl in Hmax. specialize (Hpos (active_on l)).
    destruct (decide (cx_listener ctx = l)) as [<-|Hne].
    + rewrite Nat.eqb_refl in *. simpl in *. by rewrite Ha, Hh, add1_small by lia.
    + apply Nat.eqb_neq in Hne as ->. simpl. by rewrite Ha, Hh, Z.add_0_r.
  - change (listener_of (set_route_metrics w r' _) l) with (listener_of w l).
    rewrite Ha, Hh, Hn, route_of_set. specialize (Hmax (on_route r)). simpl in Hmax. specialize (Hpos (on_route r)).
    destruct (decide (r' = r)) as [<-|Hne].
    + rewrite Nat.eqb_refl in *. simpl in *. by rewrite Hq, add1_small by lia.
    + apply Nat.eqb_neq in Hne as ->. simpl. by rewrite Hq, Z.add_0_r.
  - specialize (Hmax32 (on_slot s)). specialize (Hpos (on_slot s)).
    destruct u as [|a path]; simpl in *; [by rewrite Ha, Hh, Hn, Hq, Z.add_0_r, Hu |].
    change (listener_of (set_balancers w _) l) with (listener_of w l).
    change (route_of (set_balancers w _) r) with (route_of w r). rewrite Ha, Hh, Hn, Hq.
    f_equal. apply upstream_counted; done.
  - change (route_of (set_listener w _ _) r) with (route_of w r).
    change (pc_global (set_listener w _ _)) with (pc_global w).
    rewrite Hn, Hq, listener_of_set. specialize (Hmax (half_closed_on l)). simpl in Hmax. specialize (Hpos (half_closed_on l)).
    destruct (decide (cx_listener ctx = l)) as [<-|Hne].
    + rewrite Nat.eqb_refl in *. simpl in *. by rewrite Ha, Hh, add1_small by lia.
    + apply Nat.eqb_neq in Hne as ->. simpl. by rewrite Ha, Hh, Z.add_0_r.
Qed.

(** An upstream is counted by the connect that made it. *)
Lemma connect_gauges ctx i w d ip h l r s (c : (ConnContext -> guard -> bool) -> Z) :
  (forall P, 0 <= c P) ->
  let g := GUpstream <$> (connect i w d ip h).1 in
  (forall P, c P + match g with Some g => hit ctx g P | None => 0 end <= u32_max) ->
  gauges w l r s = gauge_tuple c l r s ->
  gauges (connect i w d ip h).2 l r s = gauge_tuple (fun P => c P + match g with Some g => hit ctx g P | None => 0 end) l r s.
Proof.
  intros Hpos g Hmax Hc. unfold g in *. clear g. unfold connect in *. destruct d as [addr|b].
  - assert (forall w' : proc, gauges w' l r s = gauges w l r s ->
      gauges w' l r s = gauge_tuple (fun P => c P + 0) l r s) as Hsame.
    { intros w' ->. rewrite Hc. unfold gauge_tuple. by rewrite !Z.add_0_r. }
    destruct (outcome _ _ _); simpl; unfold hit; simpl; apply Hsame; repeat case_match; done.
  - destruct (connect_shared _ _ _ _ _ _ _) as [[path sh] bl] eqn:E. simpl in *.
    injection Hc as Ha Hh Hn Hq Hu. specialize (Hmax (on_slot s)). specialize (Hpos (on_slot s)). unfold gauges, gauge_tuple.
    change (listener_of (set_balancers (set_shared w sh) bl) l) with (listener_of w l).
    change (route_of (set_balancers (set_shared w sh) bl) r) with (route_of w r). simpl.
    rewrite (connect_shared_counts _ _ _ _ _ _ _ _ _ _ _ _ E), Ha, Hh, Hn, Hq.
    destruct path as [path|]; simpl in *; [|by rewrite Hu, !Z.add_0_r].
    unfold hit in *. simpl in *. rewrite !Z.add_0_r. f_equal. by apply upstream_counted.
Qed.

Lemma drop_gauges ctx w g l r s (c : (ConnContext -> guard -> bool) -> Z) :
  (forall P, hit ctx g P <= c P <= u64_max) ->
  gauges w l r s = gauge_tuple c l r s ->
  gauges (drop_guard ctx w g) l r s = gauge_tuple (fun P => c P - hit ctx g P) l r s.
Proof.
  intros Hc [= Ha Hh Hn Hq Hu]. unfold gauges, gauge_tuple.
  destruct g as [ip|r'|u|]; simpl in *; unfold hit in *; simpl; rewrite ?Z.sub_0_r.
  - set (w1 := set_listener _ _ _).
    replace (match ip with Some id => _ | None => w1 end)
      with (match ip with Some id => set_protection w1 (cx_listener ctx) (release (protection_of w1 (cx_listener ctx)) id)
            | None => w1 end) by done.
    assert (forall w2, w2 = match ip with Some id => set_protection w1 (cx_listener ctx)
      (release (protection_of w1 (cx_listener ctx)) id) | None => w1 end ->
      gauges w2 l r s = gauges w1 l r s) as Hrel by (intros w2 ->; by destruct ip).
    specialize (Hrel _ eq_refl). unfold gauges in Hrel. injection Hrel as -> -> -> -> ->. unfold w1.
    change (route_of (set_listener (set_global w _) _ _) r) with (route_of w r).
    change (pc_balancers (set_listener (set_global w _) _ _)) with (pc_balancers w).
    change (pc_global (set_listener ?w' _ _)) with (pc_global w'). simpl.
    rewrite listener_of_set, Hn, Hq, Hu. specialize (Hc active_anywhere) as Hany. simpl in Hany.
    rewrite (sub1_small (c active_anywhere)) by lia.
    change (listener_of (set_global w _) ?x) with (listener_of w x).
    specialize (Hc (active_on l)). simpl in Hc.
    destruct (decide (cx_listener ctx = l)) as [<-|Hne].
    + rewrite Nat.eqb_refl in *. simpl in *. by rewrite Ha, Hh, sub1_small by lia.
    + apply Nat.eqb_neq in Hne as ->. simpl. by rewrite Ha, Hh, Z.sub_0_r.
  - change (listener_of (set_route_metrics w r' _) l) with (listener_of w l).
    rewrite Ha, Hh, Hn, Hu, route_of_set. specialize (Hc (on_route r)). simpl in Hc.
    destruct (decide (r' = r)) as [<-|Hne].
    + rewrite Nat.eqb_refl in *. simpl in *. rewrite Hq. destruct (Z.eqb_spec (c (on_route r')) 0); [lia | done].
    + apply Nat.eqb_neq in Hne as ->. simpl. by rewrite Hq, Z.sub_0_r.
  - destruct u as [|a path]; simpl; [by rewrite Ha, Hh, Hn, Hq, Hu, Z.sub_0_r |].
    change (listener_of (set_balancers w _) l) with (listener_of w l).
    change (route_of (set_balancers w _) r) with (route_of w r). rewrite Ha, Hh, Hn, Hq.
    specialize (Hc (on_slot s)). f_equal. apply upstream_uncounted; [apply Hc | done].
  - change (route_of (set_listener w _ _) r) with (route_of w r).
    change (pc_global (set_listener w _ _)) with (pc_global w).
    rewrite Hn, Hq, Hu, listener_of_set. specialize (Hc (half_closed_on l)). simpl in Hc.
    destruct (decide (cx_listener ctx = l)) as [<-|Hne].
    + rewrite Nat.eqb_refl in *. simpl in *. by rewrite Ha, Hh, sub1_small by lia.
    + apply Nat.eqb_neq in Hne as ->. simpl. by rewrite Ha, Hh, Z.sub_0_r.
Qed.

(** The guard a question leaves on the stack. *)
Definition pushed (X : Type) (e : anyE X) (x : X) : option guard :=
  match e in anyE X return X -> option guard with
  | TlsE (Acquire g) | HttpE (HAcquire g) => fun _ => Some g
  | TlsE e => fun x => match e in connE X return X -> option guard with
                       | Connect _ _ _ _ => fun u => GUpstream <$> u
                       | _ => fun _ => None
                       end x
  | HttpE e => fun x => match e in httpE X return X -> option guard with
                        | HConnect _ _ _ => fun u => GUpstream <$> u
                        | _ => fun _ => None
                        end x
  end x.

(** ** Lemmas: counting over tasks *)

Lemma guards_where_nonneg P t : 0 <= guards_where P t.
Proof. unfold guards_where. lia. Qed.

Lemma guards_held_nonneg P ts : 0 <= guards_held P ts.
Proof. induction ts as [|t ts IH]; simpl; [done |]. pose proof (guards_where_nonneg P t). lia. Qed.

Lemma guards_held_all P ts : guards_held P ts <= guards_held (fun _ _ => true) ts.
Proof.
  induction ts as [|t ts IH]; simpl; [done |].
  assert (guards_where P t <= guards_where (fun _ _ => true) t); [|lia].
  unfold guards_where. apply inj_le. induction (ct_guards t) as [|g gs IHg]; simpl; [done |].
  destruct (P (ct_ctx t) g); simpl; lia.
Qed.

Lemma guards_held_insert P ts j t t' :
  ts !! j = Some t -> guards_held P (<[j := t']> ts) = guards_held P ts - guards_where P t + guards_where P t'.
Proof.
  revert j. induction ts as [|t0 ts IH]; intros [|j] Hj; simplify_eq/=; [lia |]. rewrite (IH j) by done. lia.
Qed.

Lemma guards_held_app P ts t : guards_held P (ts ++ [t]) = guards_held P ts + guards_where P t.
Proof. induction ts as [|t0 ts IH]; simpl; lia. Qed.

Lemma guards_where_push P ctx rest rest' g gs :
  guards_where P (mkConnTask ctx rest (g :: gs)) = hit ctx g P + guards_where P (mkConnTask ctx rest' gs).
Proof. unfold guards_where, hit. simpl. destruct (P ctx g); simpl; lia. Qed.

(** The patterns we count do not look at the held state. *)
Definition blind (P : ConnContext -> guard -> bool) : Prop :=
  forall ctx a b, P ctx (GActive a) = P ctx (GActive b).

Lemma guards_where_hold P ctx rest id gs :
  blind P -> guards_where P (mkConnTask ctx rest (hold id gs)) = guards_where P (mkConnTask ctx rest gs).
Proof.
  intros HP. unfold guards_where, hold. simpl. destruct gs as [|[a| | |] gs]; try done. simpl.
  rewrite (HP ctx (Some id) a). by destruct (P ctx (GActive a)).
Qed.

Definition exact_gauges (p : pool) : Prop :=
  forall l r s, gauges (po_proc p) l r s = gauge_tuple (fun P => guards_held P (po_tasks p)) l r s.

Lemma gauge_tuple_ext c c' l r s :
  (forall P, blind P -> c P = c' P) -> gauge_tuple c l r s = gauge_tuple c' l r s.
Proof. intros Heq. unfold gauge_tuple. by rewrite !Heq by done. Qed.

Definition hit_if (ctx : ConnContext) (g : option guard) (P : ConnContext -> guard -> bool) : Z :=
  match g with Some g => hit ctx g P | None => 0 end.

(** The answer to a question moves the gauges of the guard it pushes, and no other. *)
Lemma perform_gauges ctx i w X (e : anyE X) l r s c :
  (forall P, 0 <= c P) ->
  let g := pushed X e (perform_any ctx i w X e).1 in
  (forall P, c P + hit_if ctx g P <= u32_max) ->
  gauges w l r s = gauge_tuple c l r s ->
  gauges (perform_any ctx i w X e).2 l r s = gauge_tuple (fun P => c P + hit_if ctx g P) l r s.
Proof.
  intros Hpos g Hmax Hc.
  assert (forall w' : proc, g = None -> gauges w' l r s = gauges w l r s ->
    gauges w' l r s = gauge_tuple (fun P => c P + hit_if ctx g P) l r s) as Hsame.
  { intros w' -> ->. rewrite Hc. apply gauge_tuple_ext. intros P _. simpl. lia. }
  destruct e as [X e|X e]; destruct e; try (by apply acquire_gauges); try (by apply connect_gauges);
    (apply Hsame; [done |]); simpl; try done; try (by apply set_listener_gauges);
    try (apply count_both_gauges; eauto using inc_route_error_gauges, inc_route_blocked_gauges, count_polls_gauges).
  - by destruct (check_at _ _ _ _ _).
  - by destruct (spill_target _ _ _ _ _).
  - by destruct (Failover.forward_to_peers _ _ _ _ _ _ _ _ _ _).
  - unfold gauges. rewrite route_of_set. case_decide; [by subst | done].
Qed.

(** What it does to the stack. *)
Lemma guards_after_count P ctx X (e : anyE X) x rest rest' gs :
  blind P ->
  guards_where P (mkConnTask ctx rest (guards_after X e x gs)) =
  guards_where P (mkConnTask ctx rest' gs) + hit_if ctx (pushed X e x) P - hit_if ctx (left_by X e gs) P.
Proof.
  intros HP. assert (forall gs, guards_where P (mkConnTask ctx rest gs) = guards_where P (mkConnTask ctx rest' gs)) as Hr by done.
  assert (forall u, guards_where P (mkConnTask ctx rest (connected u gs)) =
    guards_where P (mkConnTask ctx rest' gs) + hit_if ctx (GUpstream <$> u) P - 0) as Hu.
  { intros [u|]; simpl; [rewrite (guards_where_push P ctx rest rest'); lia | rewrite Hr; lia]. }
  destruct e as [X e|X e]; destruct e; cbn [guards_after tls_guards_after http_guards_after pushed left_by hit_if];
    try (rewrite Hr; lia); try (by rewrite (guards_where_push P ctx rest rest'); lia); try apply Hu.
  - destruct gs as [|g gs]; simpl; [rewrite Hr; lia |]. rewrite (guards_where_push P ctx rest' rest). lia.
  - destruct x as [id| |]; rewrite ?guards_where_hold by done; rewrite Hr; lia.
Qed.

Lemma hit_if_all ctx g P : hit_if ctx g P <= hit_if ctx g (fun _ _ => true).
Proof. destruct g as [g|]; simpl; [|done]. unfold hit. by destruct (P ctx g). Qed.

Lemma left_or_pushed X (e : anyE X) x gs : left_by X e gs = None \/ pushed X e x = None.
Proof. destruct e as [X e|X e]; [destruct e; auto | by left]. Qed.

(** A guard on the stack is counted. *)
Lemma guards_left P ctx X (e : anyE X) gs g ts j rest :
  left_by X e gs = Some g -> ts !! j = Some (mkConnTask ctx rest gs) -> hit ctx g P <= guards_held P ts.
Proof.
  intros Hl Hj. assert (exists gs', gs = g :: gs') as [gs' ->].
  { destruct e as [X e|X e]; [|done]. destruct e; try done. destruct gs as [|g' gs']; [done |]. injection Hl as ->. eauto. }
  pose proof (guards_held_nonneg P (<[j := mkConnTask ctx rest gs']> ts)) as Hn.
  rewrite (guards_held_insert P _ _ _ _ Hj), (guards_where_push P ctx rest rest) in Hn. lia.
Qed.

(** The gauges of a task's step. *)
Lemma advance_gauges i w ctx X (e : anyE X) k gs ts j t' w' :
  ts !! j = Some (mkConnTask ctx (Ask e k) gs) -> advance i w ctx X e k gs = (t', w') ->
  small (mkPool w ts) -> small (mkPool w' (<[j := t']> ts)) ->
  exact_gauges (mkPool w ts) -> exact_gauges (mkPool w' (<[j := t']> ts)).
Proof.
  intros Hj Ha Hs Hs' He l r s. specialize (He l r s). unfold small in *. simpl in *.
  unfold advance in Ha. pose proof (perform_gauges ctx i w X e l r s (fun P => guards_held P ts)) as Hp.
  destruct (perform_any ctx i w X e) as [x w1] eqn:Ep. injection Ha as <- <-.
  assert (forall P, blind P -> guards_held P (<[j := mkConnTask ctx (k x) (guards_after X e x gs)]> ts) =
    guards_held P ts + hit_if ctx (pushed X e x) P - hit_if ctx (left_by X e gs) P) as Hins.
  { intros P HP. rewrite (guards_held_insert P _ _ _ _ Hj), (guards_after_count P ctx X e x (k x) (Ask e k)) by done. lia. }
  assert (forall P, guards_held P ts + hit_if ctx (pushed X e x) P <= u32_max) as Hroom.
  { intros P. pose proof (guards_held_all P ts). pose proof (hit_if_all ctx (pushed X e x) P).
    rewrite Hins in Hs' by done. destruct (left_or_pushed X e x gs) as [E|E]; rewrite E in *; simpl in *; lia. }
  specialize (Hp (fun P => guards_held_nonneg P ts) Hroom He). simpl in Hp.
  rewrite (gauge_tuple_ext _ _ l r s Hins). destruct (left_by X e gs) as [g|] eqn:El.
  - destruct (left_or_pushed X e x gs) as [E|E]; rewrite ?E in *; [congruence |].
    erewrite drop_gauges; [apply gauge_tuple_ext | | exact Hp].
    + intros P _. simpl. lia.
    + intros P. specialize (Hroom P). simpl in *. split; [|unfold u32_max, u64_max in *; lia].
      rewrite Z.add_0_r. by eapply guards_left.
  - rewrite Hp. apply gauge_tuple_ext. intros P _. simpl. lia.
Qed.

Lemma background_gauges w w' l r s : background w w' -> gauges w' l r s = gauges w l r s.
Proof. destruct 1; try done. unfold gauges. simpl. by rewrite keep_affinity_counts. Qed.

Lemma step_gauges limits p p' : step limits p p' -> small p -> small p' -> exact_gauges p -> exact_gauges p'.
Proof.
  destruct 1 as [p p' [w ts j i ctx X e k gs t' w' _ Hj Ha|w ts j ctx rest gs Hj|w ts j ctx a g gs Hj]
    |p mode ctx peer local|w w' ts Hbg]; intros Hs Hs' He.
  - by eapply advance_gauges.
  - intros l r s. specialize (He l r s). simpl in *. rewrite He. apply gauge_tuple_ext. intros P _.
    rewrite (guards_held_insert P ts j _ _ Hj). unfold guards_where. simpl. lia.
  - intros l r s. specialize (He l r s). unfold small, u32_max in *. simpl in *.
    assert (forall P, guards_held P (<[j := mkConnTask ctx (Finish a) gs]> ts) = guards_held P ts - hit ctx g P) as Hins.
    { intros P. rewrite (guards_held_insert P ts j _ _ Hj), (guards_where_push P ctx (Finish a) (Finish a)). lia. }
    rewrite (drop_gauges ctx w g l r s (fun P => guards_held P ts)); [|intros P | done].
    + apply gauge_tuple_ext. intros P _. by rewrite Hins.
    + pose proof (guards_held_nonneg P (<[j := mkConnTask ctx (Finish a) gs]> ts)) as Hn. rewrite Hins in Hn.
      pose proof (guards_held_all P ts). unfold u64_max. lia.
  - intros l r s. specialize (He l r s). unfold accept. destruct (_ && _); simpl.
    + rewrite set_listener_gauges by done. exact He.
    + rewrite He. apply gauge_tuple_ext. intros P _. rewrite guards_held_app. unfold guards_where. simpl. lia.
  - intros l r s. simpl. by rewrite (background_gauges w w' l r s Hbg).
Qed.

Lemma reachable_gauges limits cfgs p : reachable limits cfgs p -> small p /\ exact_gauges p.
Proof.
  induction 1 as [w (Hl & Hg & Hr & _ & _ & Hb)|p p' _ [Hs He] Hstep Hs'].
  - split; [unfold small, u32_max; simpl; lia |]. intros l r s. unfold gauges, listener_of, route_of, slot_active_count. simpl.
    by rewrite Hl, Hg, Hr, Hb, !lookup_empty.
  - split; [done |]. by eapply step_gauges.
Qed.

(** ** Lemmas: when a task checks *)

(** Every question of the task satisfies [ok]. *)
Fixpoint only {E A} (ok : forall X, E X -> Prop) (t : task E A) : Prop :=
  match t with
  | Finish _ => True
  | Ask e k => ok _ e /\ forall x, only ok (k x)
  end.

Lemma only_bind {E A B} ok (t : task E A) (f : A -> task E B) : only ok t -> (forall a, only ok (f a)) -> only ok (t ≫= f).
Proof. induction t as [a|X e k IH]; simpl; [auto |]. intros [? Hk] Hf. split; [done |]. intros x. by apply IH. Qed.

Lemma only_ask {E X} (ok : forall X, E X -> Prop) (e : E X) : ok X e -> only ok (ask e).
Proof. by split. Qed.

(** Neither admission nor a check. *)
Definition later (X : Type) (e : connE X) : Prop :=
  match e with Check _ _ | Acquire (GActive _) => False | _ => True end.
(** Nothing that touches the guards. *)
Definition plain (X : Type) (e : connE X) : Prop :=
  match e with Check _ _ | Acquire _ | Leave | Connect _ _ _ _ => False | _ => True end.
(** An address's state comes from a check alone. *)
Definition http_unheld (X : Type) (e : httpE X) : Prop :=
  match e with HAcquire (GActive (Some _)) => False | _ => True end.

(** The check finds the connection's own active guard, still without a state. *)
Definition asks_guarded (X : Type) (e : anyE X) (gs : list guard) : Prop :=
  match e with
  | TlsE (Check _ _) => exists gs', gs = GActive None :: gs'
  | TlsE (Acquire (GActive (Some _))) | HttpE (HAcquire (GActive (Some _))) => False
  | _ => True
  end.
Fixpoint guarded (t : task anyE unit) (gs : list guard) : Prop :=
  match t with
  | Finish _ => True
  | Ask e k => asks_guarded _ e gs /\ forall x, guarded (k x) (guards_after _ e x gs)
  end.

Abbreviation tls_guarded t := (guarded (embed (@TlsE) t)).

Lemma later_guarded t gs : only later t -> tls_guarded t gs.
Proof.
  revert gs. induction t as [a|X e k IH]; intros gs; simpl; [done |]. intros [He Hk].
  split; [|intros x; by apply IH]. destruct e as [[]| | | | | | | | | | | | | | | | | | | | | | | | | | | | | | | | |]; done.
Qed.

Lemma unheld_guarded t gs : only http_unheld t -> guarded (embed (@HttpE) t) gs.
Proof.
  revert gs. induction t as [a|X e k IH]; intros gs; simpl; [done |]. intros [He Hk].
  split; [|intros x; by apply IH]. destruct e; done.
Qed.

Lemma plain_guarded {A} (t : conn A) (f : A -> conn unit) gs :
  only plain t -> (forall a, tls_guarded (f a) gs) -> tls_guarded (t ≫= f) gs.
Proof.
  induction t as [a|X e k IH]; simpl; [auto |]. intros [He Hk] Hf. split.
  - by destruct e.
  - intros x. destruct e; try done; simpl; by apply IH.
Qed.

Ltac crawl :=
  repeat first
    [ progress intros
    | exact I
    | progress cbv zeta
    | match goal with
      | |- only _ (mbind _ _) => apply only_bind
      | |- only _ (ask _) => apply only_ask; exact I
      | |- only _ (match ?x with _ => _ end) => destruct x
      | |- only _ (if ?b then _ else _) => destruct b
      | |- only _ (let '(_, _) := ?x in _) => destruct x
      end ].

Lemma ingress_source_plain ctx peer hs : only plain (ingress_source ctx peer hs).
Proof. unfold ingress_source, answer_load_query. crawl. Qed.

Lemma forward_later ctx sf l7 : only later (forward ctx sf l7).
Proof. unfold forward. crawl. Qed.

Lemma counted_forward_later ctx r sf l7 polls : only later (counted_forward ctx r sf l7 polls).
Proof. unfold counted_forward. crawl. apply forward_later. Qed.

Lemma forward_to_peers_later ctx r fo peek mode hs peer local :
  only later (forward_to_peers ctx r fo peek mode hs peer local).
Proof. unfold forward_to_peers, forward_opaque. crawl; apply counted_forward_later. Qed.

Lemma failover_step_later ctx route peek hs peer local : only later (failover_step ctx route peek hs peer local).
Proof. unfold failover_step, count_route_error. crawl; apply forward_to_peers_later. Qed.

Lemma effective_route_later ctx route sni peer : only later (effective_route ctx route sni peer).
Proof. unfold effective_route, count_route_error. crawl. Qed.

Lemma connect_or_forward_later ctx route d h peers hs peek sf :
  only later (connect_or_forward ctx route d h peers hs peek sf).
Proof. unfold connect_or_forward, count_route_error. crawl; apply forward_to_peers_later. Qed.

Lemma after_handshake_later ctx route ef h session early predicted sf :
  only later (after_handshake ctx route ef h session early predicted sf).
Proof. unfold after_handshake, keep_early, proxy_via_tls. crawl; apply counted_forward_later. Qed.

Lemma go_upstream_later ctx route ef peek hs peer local : only later (go_upstream ctx route ef peek hs peer local).
Proof.
  unfold go_upstream, terminate, passthrough, connect_early, count_failure, count_route_error, proxy_raw.
  crawl; auto using connect_or_forward_later, after_handshake_later, counted_forward_later.
Qed.

Lemma serve_later ctx route peek hs peer local : only later (serve ctx route peek hs peer local).
Proof.
  unfold serve, count_route_error. crawl; auto using failover_step_later, effective_route_later, go_upstream_later.
Qed.

Lemma handle_guarded ctx peer local : tls_guarded (handle ctx peer local) [].
Proof.
  unfold handle. split; [exact I |]. intros []. split; [exact I |]. intros hs.
  apply (plain_guarded (ingress_source ctx peer hs)); [apply ingress_source_plain |]. intros [client|]; [|exact I].
  split; [exact I |]. intros peek. unfold protection_admits.
  assert (forall gs (b : bool), tls_guarded (if negb b then mret tt else
    (route ← ask (ResolveRoute (pi_sni peek) (negb (cx_ingress ctx)));
     match route with
     | None => ask (CountError ENoRoute)
     | Some route => _ ← ask (Acquire (GRoute (mi_id (rt_identity route)))); serve ctx route peek hs client local
     end)) gs) as Hrest.
  { intros gs b. apply later_guarded. crawl. apply serve_later. }
  destruct (cx_protection ctx); simpl negb; cbv iota; [|exact (Hrest _ true)].
  split; [by eexists |]. intros [id| |reason]; [exact (Hrest _ true) | exact (Hrest _ true) |].
  split; [exact I |]. intros []. split; [exact I |]. intros q. exact (Hrest _ false).
Qed.

Lemma handle_http_guarded peer : guarded (embed (@HttpE) (handle_http peer)) [].
Proof.
  apply unheld_guarded. unfold handle_http, answer_head, proxy_acme, write_simple_response. crawl.
Qed.

Lemma work_guarded mode ctx peer local : guarded (work_of mode ctx peer local) [].
Proof. destruct mode; [apply handle_guarded | apply handle_http_guarded]. Qed.

(** What a TLS connection may ask: a check only where there is protection; whether
    its TCP peer is trusted, a PROXY header and what a load query needs only on a
    failover ingress; a peer to hand it to only elsewhere; and the default route
    exactly elsewhere. *)
Definition tls_asks (protection ingress : bool) (X : Type) (e : connE X) : Prop :=
  match e with
  | Check _ _ => protection = true
  | Trusts _ | ReadHeader _ | CountLoadQuery | LoadAnswers _ | WriteAnswer _ _ => ingress = true
  | SpillTarget _ _ _ | HandToPeers _ _ _ _ _ _ | ReadHello _ => ingress = false
  | ResolveRoute _ allow_default => allow_default = negb ingress
  | _ => True
  end.

(** What a connection of a listener may ask: the questions of its own kind. *)
Definition may_ask (mode : ListenerMode) (protection ingress : bool) (X : Type) (e : anyE X) : Prop :=
  match e with
  | TlsE e => mode = ModeTls /\ tls_asks protection ingress _ e
  | HttpE _ => mode = ModeHttp
  end.

Lemma only_embed {E F : Type -> Type} {A} (f : forall X, E X -> F X) (ok : forall X, E X -> Prop)
    (ok' : forall X, F X -> Prop) (t : task E A) :
  (forall X e, ok X e -> ok' X (f X e)) -> only ok t -> only ok' (embed f t).
Proof. intros Hok. induction t as [a|X e k IH]; simpl; [done |]. intros [? ?]. split; [auto |]. intros x. by apply IH. Qed.

Lemma only_mono {E A} (ok ok' : forall X, E X -> Prop) (t : task E A) :
  (forall X e, ok X e -> ok' X e) -> only ok t -> only ok' t.
Proof. intros Hok. induction t as [a|X e k IH]; simpl; [done |]. intros [? ?]. split; [auto |]. intros x. by apply IH. Qed.

Section Asks.
Context (ctx : ConnContext).
Local Abbreviation asks := (only (tls_asks (cx_protection ctx) (cx_ingress ctx))).

Lemma counted_forward_asks r sf l7 polls : asks (counted_forward ctx r sf l7 polls).
Proof. unfold counted_forward, forward. crawl. Qed.

Lemma forward_to_peers_asks r fo peek mode hs peer local :
  cx_ingress ctx = false -> asks (forward_to_peers ctx r fo peek mode hs peer local).
Proof.
  intros Hi. unfold forward_to_peers, forward_opaque. apply only_bind; [by apply only_ask |].
  intros [[u|k]|b]; [|done | done]. apply only_bind; [by apply only_ask |]. crawl. apply counted_forward_asks.
Qed.

Lemma failover_step_asks route peek hs peer local : asks (failover_step ctx route peek hs peer local).
Proof.
  unfold failover_step. destruct (rt_failover route) as [fo|]; [|done]. apply only_bind; [by apply only_ask |]. intros down.
  apply only_bind.
  - destruct (cx_ingress ctx) eqn:Hi; simpl; [done |]. crawl. by apply only_ask.
  - intros spill. destruct (decide_failover _ _ _ _ _) as [|mode|] eqn:Hd; [unfold count_route_error; crawl | | done].
    apply only_bind; [|unfold count_route_error; crawl]. apply forward_to_peers_asks.
    unfold decide_failover in Hd. by destruct (cx_ingress ctx); repeat case_match.
Qed.

Lemma connect_or_forward_asks route d h peers hs peek sf :
  (is_Some peers -> cx_ingress ctx = false) -> asks (connect_or_forward ctx route d h peers hs peek sf).
Proof.
  intros Hp. unfold connect_or_forward, count_route_error. cbv zeta. apply only_bind; [by apply only_ask |].
  intros [u|]; [done |]. apply only_bind; [by apply only_ask |]. intros []. destruct peers as [[fo deadline]|]; [|done].
  apply only_bind; [by apply only_ask |]. intros now. apply only_bind; [by apply forward_to_peers_asks, Hp |]. crawl.
Qed.

Lemma go_upstream_asks route ef peek hs peer local : asks (go_upstream ctx route ef peek hs peer local).
Proof.
  assert (forall h peers sf hs, (is_Some peers -> cx_ingress ctx = false) ->
    asks (terminate ctx route ef h peers hs peek sf) /\ asks (passthrough ctx route ef h peers hs peek sf)) as Hrest.
  { intros h peers sf hs' Hp. split.
    - unfold terminate, after_handshake, keep_early, proxy_via_tls, count_failure, count_route_error.
      destruct (ef_tls_config ef); [|by apply only_ask]. apply only_bind; [by apply only_ask |]. intros predicted. apply only_bind.
      + unfold connect_early. destruct (_ && _); [|done]. destruct peers as [[fo deadline]|]; [|done].
        apply only_bind; [by apply connect_or_forward_asks | crawl].
      + crawl; apply counted_forward_asks.
    - unfold passthrough, proxy_raw, count_failure, count_route_error.
      apply only_bind; [by apply connect_or_forward_asks | crawl]. apply counted_forward_asks. }
  unfold go_upstream. cbv zeta. destruct (if rt_suspended route then None else rt_failover route) as [fo|].
  - destruct (cx_ingress ctx) eqn:Hi.
    + destruct (ef_terminate_tls ef); apply (Hrest _ None); by intros [].
    + apply only_bind; [crawl |]. intros peers. destruct (ef_terminate_tls ef); by apply Hrest.
  - destruct (ef_terminate_tls ef); apply (Hrest _ None); by intros [].
Qed.

Lemma handle_asks peer local : asks (handle ctx peer local).
Proof.
  unfold handle. apply only_bind; [by apply only_ask |]. intros []. apply only_bind; [by apply only_ask |]. intros hs.
  apply only_bind.
  { unfold ingress_source, answer_load_query. destruct (cx_ingress ctx) eqn:Hi; [|done]. cbn [negb].
    repeat first [by apply only_ask | done | apply only_bind | progress crawl]. }
  intros [client|]; [|done]. apply only_bind; [by apply only_ask |]. intros peek. apply only_bind.
  { unfold protection_admits. destruct (cx_protection ctx) eqn:Hc; [|done]. cbn [negb].
    apply only_bind; [by apply only_ask | crawl]. }
  intros [|]; [|done]. cbn [negb]. apply only_bind; [by apply only_ask |]. intros [route|]; [|by apply only_ask].
  apply only_bind; [by apply only_ask |]. intros []. unfold serve, count_route_error.
  destruct (refuses_source _ _); [by apply only_ask |]. apply only_bind; [crawl |].
  intros [|]; [|by apply only_ask]. cbn [negb]. apply only_bind; [apply failover_step_asks |]. intros [hs'|]; [|done].
  apply only_bind; [unfold effective_route, count_route_error; crawl |]. intros [ef|]; [apply go_upstream_asks | done].
Qed.
End Asks.

Lemma work_asks mode ctx peer local :
  only (may_ask mode (cx_protection ctx) (cx_ingress ctx)) (work_of mode ctx peer local).
Proof.
  destruct mode; cbn [work_of].
  - apply (only_embed _ (tls_asks (cx_protection ctx) (cx_ingress ctx))); [done | apply handle_asks].
  - apply (only_embed _ (fun _ _ => True)); [done |].
    unfold handle_http, answer_head, proxy_acme, write_simple_response. crawl.
Qed.

(** ** Protection, seen from the pool *)

Definition held_state (l : nat) (ctx : ConnContext) (g : guard) : option nat :=
  match g with GActive (Some id) => if (cx_listener ctx =? l)%nat then Some id else None | _ => None end.
(** The address states the live connections of a listener hold. *)
Definition held_by (l : nat) (t : conn_task) : list nat := omap (held_state l (ct_ctx t)) (ct_guards t).
Definition held_ids (l : nat) (ts : list conn_task) : list nat := mjoin (held_by l <$> ts).

Lemma held_ids_insert l ts j t t' :
  ts !! j = Some t -> exists rest, held_ids l ts ≡ₚ held_by l t ++ rest /\
    held_ids l (<[j := t']> ts) ≡ₚ held_by l t' ++ rest.
Proof.
  intros Hj. exists (held_ids l (take j ts) ++ held_ids l (drop (S j) ts)).
  assert (forall x, held_ids l (take j ts ++ x :: drop (S j) ts) ≡ₚ
    held_by l x ++ held_ids l (take j ts) ++ held_ids l (drop (S j) ts)) as Hx.
  { intros x. unfold held_ids. rewrite fmap_app, join_app. simpl.
    rewrite (assoc (++) (mjoin _) (held_by l x)), (comm (++) (mjoin _) (held_by l x)). by rewrite <- (assoc (++)). }
  rewrite <- (take_drop_middle ts j t Hj) at 1. split; [apply Hx |].
  rewrite insert_take_drop by (by eapply lookup_lt_Some). apply Hx.
Qed.

(** The state of a listener's protection is what a history of its own operations
    leaves, with the connections that hold an address being the open ones. *)
Definition follows (c : ProtectionConfig) (l : nat) (p : pool) : Prop :=
  exists ops, let y := run_ops (boot c) ops in
    sys_ok y /\ sys_state y = protection_of (po_proc p) l /\ (held y).*2 ≡ₚ held_ids l (po_tasks p).

Lemma run_ops_snoc y ops o : run_ops y (ops ++ [o]) = run_op (run_ops y ops) o.
Proof. unfold run_ops. by rewrite foldl_app. Qed.

(** Nothing but a check touches protection. *)
Definition same_policies (w w' : proc) : Prop :=
  pc_table w' = pc_table w /\ pc_ingress w' = pc_ingress w /\ pc_protection w' = pc_protection w.

Lemma connect_policies i w d ip h : same_policies w (connect i w d ip h).2.
Proof. unfold connect. destruct d; [repeat case_match; done |]. by destruct (connect_shared _ _ _ _ _ _ _) as [[]]. Qed.

Lemma perform_policies ctx i w X (e : anyE X) :
  match e with TlsE (Check _ _) => False | _ => True end -> same_policies w (perform_any ctx i w X e).2.
Proof.
  destruct e as [X e|X e]; destruct e; intros He; try done; simpl; try apply connect_policies;
    unfold count_both, acquire; repeat case_match; done.
Qed.

Lemma perform_protection ctx i w X (e : anyE X) l :
  match e with TlsE (Check _ _) => False | _ => True end ->
  protection_of (perform_any ctx i w X e).2 l = protection_of w l.
Proof. intros He. unfold protection_of. by destruct (perform_policies ctx i w X e He) as (_ & _ & ->). Qed.

Lemma follows_same c l w w' ts ts' :
  follows c l (mkPool w ts) -> protection_of w' l = protection_of w l -> held_ids l ts' ≡ₚ held_ids l ts ->
  follows c l (mkPool w' ts').
Proof. intros (ops & Hok & Hst & Hh) Hp Hi. exists ops. simpl in *. by rewrite Hp, Hi. Qed.

Lemma held_ids_same l ts j t t' :
  ts !! j = Some t -> held_by l t' = held_by l t -> held_ids l (<[j := t']> ts) ≡ₚ held_ids l ts.
Proof. intros Hj Heq. destruct (held_ids_insert l ts j t t' Hj) as (rest & -> & ->). by rewrite Heq. Qed.

Lemma held_on_ids id (hs : list (IpAddr * nat)) : held_on id hs = length (filter (fun i => i = id) hs.*2).
Proof.
  induction hs as [|h hs IH]; [done |]. rewrite held_on_cons, fmap_cons, filter_cons, IH. by case_decide.
Qed.

(** One operation of the listener's protection, and the tasks that follow it. *)
Lemma follows_op c l w w' ts ts' o :
  follows c l (mkPool w ts) ->
  (forall y, sys_ok y -> sys_state y = protection_of w l -> (held y).*2 ≡ₚ held_ids l ts ->
     sys_ok (run_op y (o y)) /\ sys_state (run_op y (o y)) = protection_of w' l /\
     (held (run_op y (o y))).*2 ≡ₚ held_ids l ts') ->
  follows c l (mkPool w' ts').
Proof.
  intros (ops & Hok & Hst & Hh) Ho. exists (ops ++ [o (run_ops (boot c) ops)]). cbv zeta. rewrite run_ops_snoc. by apply Ho.
Qed.

Definition place (id : nat) (y : system) : nat := default 0%nat (fst <$> list_find (fun h => h.2 = id) (held y)).

Lemma place_spec id y : id ∈ (held y).*2 -> exists h, held y !! place id y = Some h /\ h.2 = id.
Proof.
  intros (h & -> & Hin)%list_elem_of_fmap. unfold place.
  destruct (list_find_elem_of (fun h' => h'.2 = h.2) (held y) h Hin eq_refl) as [[i h'] Hf]. rewrite Hf. simpl.
  apply list_find_Some in Hf as (Hi & Heq & _). eauto.
Qed.

Lemma drop_follows c l ctx w ts j t t' g :
  ts !! j = Some t -> held_by l t = option_list (held_state l ctx g) ++ held_by l t' ->
  follows c l (mkPool w ts) -> follows c l (mkPool (drop_guard ctx w g) (<[j := t']> ts)).
Proof.
  intros Hj Hheld Hf. destruct (held_ids_insert l ts j t t' Hj) as (rest & Hbefore & Hafter). rewrite Hheld in Hbefore.
  destruct (held_state l ctx g) as [id|] eqn:Hg; simpl in Hbefore.
  - destruct g as [[id'|]| | |]; simpl in Hg; try done. destruct (Nat.eqb_spec (cx_listener ctx) l) as [Hl|]; [|done].
    injection Hg as ->. refine (follows_op c l w _ ts _ (fun y => OpClose (place id y)) Hf _). intros y Hok Hst Hh.
    split; [by apply run_close_ok |].
    destruct (place_spec id y) as ([ip id'] & Hi & Hid); [rewrite Hh, Hbefore; constructor |]. simpl in Hid. subst id'.
    cbn [run_op]. rewrite Hi. simpl. rewrite protection_of_set, decide_True by done. split.
    + by rewrite Hst, Hl.
    + rewrite (delete_Permutation (held y) _ _ Hi) in Hh. simpl in Hh. rewrite Hbefore in Hh.
      apply Permutation_cons_inv in Hh. by rewrite Hh, Hafter.
  - refine (follows_same c l w _ ts _ Hf _ _); [|by rewrite Hbefore, Hafter].
    destruct g as [[id|]| |[]|]; simpl in *; try done. rewrite protection_of_set, decide_False; [done |].
    intros Hl. rewrite Hl, Nat.eqb_refl in Hg. done.
Qed.

Lemma check_follows c l i w ctx ip peek k gs ts j d st :
  ts !! j = Some (mkConnTask ctx (Ask (TlsE (Check ip peek)) k) (GActive None :: gs)) ->
  check_at (protection_of w (cx_listener ctx)) ip peek (io_now i) (io_now' i) = (d, st) ->
  Z.of_nat (length (held_ids l ts)) < u32_max ->
  follows c l (mkPool w ts) ->
  follows c l (mkPool (set_protection w (cx_listener ctx) st)
    (<[j := mkConnTask ctx (k d) (match d with Allow id => hold id (GActive None :: gs) | _ => GActive None :: gs end)]> ts)).
Proof.
  intros Hj Hc Hlen Hf. destruct (Nat.eqb_spec (cx_listener ctx) l) as [<-|Hne].
  - refine (follows_op c _ w _ ts _ (fun _ => OpCheck ip peek (io_now i) (io_now' i)) Hf _). intros y Hok Hst Hh.
    split. { apply run_check_ok; [done |]. by rewrite <- (length_fmap snd), Hh. }
    cbn [run_op]. rewrite Hst, Hc. simpl. rewrite protection_of_set, decide_True by done. split; [done |].
    destruct d as [id| |]; [|rewrite Hh; symmetry; by eapply held_ids_same ..]. rewrite fmap_app, Hh. simpl.
    destruct (held_ids_insert (cx_listener ctx) ts j _
      (mkConnTask ctx (k (Allow id)) (GActive (Some id) :: gs)) Hj) as (rest & -> & ->).
    unfold held_by. simpl. rewrite Nat.eqb_refl. by rewrite Permutation_app_comm.
  - refine (follows_same c l w _ ts _ Hf _ _); [by rewrite protection_of_set, decide_False |].
    eapply held_ids_same; [done |]. unfold held_by. destruct d as [id| |]; try done. simpl.
    by apply Nat.eqb_neq in Hne as ->.
Qed.

Definition all_guarded (p : pool) : Prop := Forall (fun t => guarded (ct_rest t) (ct_guards t)) (po_tasks p).

Lemma held_ids_length l ts : Z.of_nat (length (held_ids l ts)) <= guards_held (fun _ _ => true) ts.
Proof.
  induction ts as [|t ts IH]; [done |]. unfold held_ids in *. simpl. rewrite length_app.
  rewrite Nat2Z.inj_add. apply Z.add_le_mono; [|exact IH].
  unfold held_by, guards_where. apply inj_le. induction (ct_guards t) as [|g gs IHg]; [done |]. simpl.
  destruct (held_state l (ct_ctx t) g); [apply le_n_S, IHg | apply le_S, IHg].
Qed.

(** The task that asks for a check holds a guard without a state. *)
Lemma held_ids_room l ts j t gs :
  ts !! j = Some t -> ct_guards t = GActive None :: gs -> guards_held (fun _ _ => true) ts <= u32_max ->
  Z.of_nat (length (held_ids l ts)) < u32_max.
Proof.
  intros Hj Hg Hs. pose (t' := mkConnTask (ct_ctx t) (ct_rest t) gs).
  pose proof (held_ids_length l (<[j := t']> ts)) as Hl.
  rewrite (guards_held_insert _ _ _ _ _ Hj), (held_ids_same l ts j t t' Hj) in Hl.
  - destruct t as [ctx rest gs']. simpl in *. subst gs'. unfold t' in Hl. simpl in Hl.
    rewrite (guards_where_push _ _ rest rest) in Hl. unfold hit in Hl. simpl in Hl. lia.
  - unfold held_by. by rewrite Hg.
Qed.

Lemma advance_follows c l i w ctx X (e : anyE X) k gs ts j t' w' :
  ts !! j = Some (mkConnTask ctx (Ask e k) gs) -> advance i w ctx X e k gs = (t', w') ->
  small (mkPool w ts) -> guarded (Ask e k) gs ->
  follows c l (mkPool w ts) -> follows c l (mkPool w' (<[j := t']> ts)).
Proof.
  intros Hj Ha Hs [Hg _] Hf. unfold advance in Ha. pose proof (perform_protection ctx i w X e l) as Hp.
  destruct (perform_any ctx i w X e) as [x w1] eqn:Ep. injection Ha as <- <-.
  assert (forall t0, held_by l t0 = held_by l (mkConnTask ctx (Ask e k) gs) ->
    match e with TlsE (Check _ _) => False | _ => True end -> follows c l (mkPool w1 (<[j := t0]> ts))) as Hsame.
  { intros t0 Ht0 He. refine (follows_same c l w _ ts _ Hf (Hp He) _). by eapply held_ids_same. }
  assert (forall rest rest' u, held_by l (mkConnTask ctx rest (connected u gs)) = held_by l (mkConnTask ctx rest' gs)) as Hu
    by (by intros rest rest' [u|]).
  destruct e as [X e|X e]; destruct e; cbn [left_by guards_after tls_guards_after http_guards_after] in *;
    try (by apply Hsame); try (apply Hsame; [apply Hu | done]).
  - apply Hsame; [|done]. by destruct g as [[]| | |].
  - simpl in Ep. injection Ep as <- <-. destruct gs as [|g gs]; [by apply Hsame |].
    eapply drop_follows; [exact Hj | | exact Hf]. unfold held_by. simpl. by destruct (held_state l ctx g).
  - destruct Hg as [gs' ->]. simpl in Ep.
    destruct (check_at _ ip peek (io_now (hi_io i)) (io_now' (hi_io i))) as [d st] eqn:Ec. injection Ep as <- <-.
    eapply check_follows; [done | done | by eapply held_ids_room | done].
  - apply Hsame; [|done]. by destruct g as [[]| | |].
Qed.

Lemma background_follows c l w w' ts :
  background w w' -> follows c l (mkPool w ts) -> follows c l (mkPool w' ts).
Proof.
  intros Hbg Hf. destruct Hbg as [w t sh fl st|w ing|w l' now|w l' c'|w id v|w b now];
    try exact (follows_same c l w _ ts ts Hf eq_refl (Permutation_refl _));
    (destruct (decide (l' = l)) as [->|Hne];
     [|refine (follows_same c l w _ ts ts Hf _ (Permutation_refl _)); by rewrite protection_of_set, decide_False]).
  - refine (follows_op c l w _ ts _ (fun _ => OpEvict now) Hf _). intros y Hok Hst Hh.
    split_and!; [by apply run_evict_ok | | done]. by rewrite protection_of_set, decide_True, <- Hst.
  - refine (follows_op c l w _ ts _ (fun _ => OpReconfigure c') Hf _). intros y Hok Hst Hh.
    split_and!; [by apply run_reconfigure_ok | | done]. by rewrite protection_of_set, decide_True, <- Hst.
Qed.

Lemma guarded_insert w w' ts j t :
  all_guarded (mkPool w ts) -> guarded (ct_rest t) (ct_guards t) -> all_guarded (mkPool w' (<[j := t]> ts)).
Proof. intros Hg Ht. by apply Forall_insert. Qed.

Lemma step_guarded limits p p' : step limits p p' -> all_guarded p -> all_guarded p'.
Proof.
  destruct 1 as [p p' [w ts j i ctx X e k gs t' w' _ Hj Ha|w ts j ctx rest gs Hj|w ts j ctx a g gs Hj]
    |p mode ctx peer local|w w' ts Hbg]; intros Hg; try (by eapply guarded_insert); try done.
  - eapply guarded_insert; [done |]. pose proof (Forall_lookup_1 _ _ _ _ Hg Hj) as [_ Hk]. unfold advance in Ha.
    destruct (perform_any ctx i w X e) as [x w1]. injection Ha as <- <-. apply Hk.
  - unfold accept. destruct (_ && _); [done |]. apply Forall_app_2; [done |].
    apply Forall_singleton, work_guarded.
Qed.

Lemma step_follows limits c l p p' : step limits p p' -> small p -> all_guarded p -> follows c l p -> follows c l p'.
Proof.
  destruct 1 as [p p' [w ts j i ctx X e k gs t' w' _ Hj Ha|w ts j ctx rest gs Hj|w ts j ctx a g gs Hj]
    |p mode ctx peer local|w w' ts Hbg]; intros Hs Hg Hf.
  - eapply advance_follows; [done | done | done | | done]. apply (Forall_lookup_1 _ _ _ _ Hg Hj).
  - refine (follows_same c l w _ ts _ Hf eq_refl _). by eapply held_ids_same.
  - eapply drop_follows; [exact Hj | | exact Hf]. unfold held_by. simpl. by destruct (held_state l ctx g).
  - unfold accept. destruct p as [w ts]. destruct (_ && _); simpl.
    + by refine (follows_same c l w _ ts _ Hf eq_refl _).
    + refine (follows_same c l w _ ts _ Hf eq_refl _). unfold held_ids. rewrite fmap_app, join_app. simpl.
      by rewrite !app_nil_r.
  - by eapply background_follows.
Qed.

Lemma reachable_follows limits cfgs l c p :
  reachable limits cfgs p -> cfgs !! l = Some c -> all_guarded p /\ follows c l p.
Proof.
  intros Hr Hc. induction Hr as [w (_ & _ & _ & Hp & _)|p p' Hr [Hg Hf] Hstep Hs'].
  - split; [constructor |]. exists []. split; [apply boot_ok |]. split; [|done]. unfold protection_of. simpl.
    by rewrite Hp, lookup_fmap, Hc.
  - destruct (reachable_gauges _ _ _ Hr) as [Hs _]. split; [by eapply step_guarded | by eapply step_follows].
Qed.

(** An accept loop refuses by the process's own count. *)
Lemma accept_refuses mode ctx mx peer local p :
  gm_active (pc_global (po_proc p)) = guards_held active_anywhere (po_tasks p) ->
  po_tasks (accept mode ctx mx peer local p) = po_tasks p <-> 0 < mx <= guards_held active_anywhere (po_tasks p).
Proof.
  intros Hg. unfold accept. rewrite Hg.
  destruct (Z.ltb_spec 0 mx), (Z.leb_spec mx (guards_held active_anywhere (po_tasks p))); simpl;
    (split; [|try done; try lia]); intros Heq; try done; try lia.
  all: apply (f_equal length) in Heq; rewrite length_app in Heq; simpl in Heq; lia.
Qed.

(** ** Schedules *)

(** A step chosen by name, for one input and one client. *)
Inductive move : Type := MAccept (mode : ListenerMode) | MAsk (j : nat) | MAbort (j : nat) | MDrop (j : nat).

Definition make (limits : nat -> Z) (i : http_io) (ctx : ConnContext) (peer : SocketAddr) (p : pool) (m : move)
    : option pool :=
  match m with
  | MAccept mode => Some (accept mode ctx (limits (cx_listener ctx)) peer None p)
  | MAsk j =>
      match po_tasks p !! j with
      | Some (mkConnTask ctx (Ask e k) gs) =>
          let '(t', w') := advance i (po_proc p) ctx _ e k gs in Some (mkPool w' (<[j := t']> (po_tasks p)))
      | _ => None
      end
  | MAbort j =>
      match po_tasks p !! j with
      | Some (mkConnTask ctx _ gs) => Some (mkPool (po_proc p) (<[j := mkConnTask ctx (Finish tt) gs]> (po_tasks p)))
      | None => None
      end
  | MDrop j =>
      match po_tasks p !! j with
      | Some (mkConnTask ctx (Finish a) (g :: gs)) =>
          Some (mkPool (drop_guard ctx (po_proc p) g) (<[j := mkConnTask ctx (Finish a) gs]> (po_tasks p)))
      | _ => None
      end
  end.

Fixpoint schedule (limits : nat -> Z) (i : http_io) (ctx : ConnContext) (peer : SocketAddr) (p : pool) (ms : list move)
    : option pool :=
  match ms with
  | [] => Some p
  | m :: ms =>
      p' ← make limits i ctx peer p m;
      if guards_held (fun _ _ => true) (po_tasks p') <=? u32_max then schedule limits i ctx peer p' ms else None
  end.

Lemma make_step limits i ctx peer p m p' : make limits i ctx peer p m = Some p' -> step limits p p'.
Proof.
  destruct p as [w ts]. destruct m as [mode|j|j|j]; simpl.
  - intros [= <-]. apply StepAccept.
  - destruct (ts !! j) as [[c [a|X e k] gs]|] eqn:Hj; try done.
    destruct (advance i w c X e k gs) as [t' w'] eqn:Ha. intros [= <-]. eapply StepTask, StepAsk; done.
  - destruct (ts !! j) as [[c rest gs]|] eqn:Hj; [|done]. intros [= <-]. by eapply StepTask, StepAbort.
  - destruct (ts !! j) as [[c [a|X e k] [|g gs]]|] eqn:Hj; try done. intros [= <-]. by eapply StepTask, StepDrop.
Qed.

Lemma schedule_reachable limits cfgs i ctx peer p ms p' :
  reachable limits cfgs p -> schedule limits i ctx peer p ms = Some p' -> reachable limits cfgs p'.
Proof.
  revert p. induction ms as [|m ms IH]; intros p Hr; simpl; [by intros [= <-] |].
  destruct (make limits i ctx peer p m) as [p1|] eqn:Em; [|done]. simpl.
  destruct (_ <=? _) eqn:Hs; [|done]. apply IH. eapply ReachStep; [done | by eapply make_step |].
  by apply Z.leb_le.
Qed.
End Pool.

Module Properties.
Import ConnectionRuns.Properties HttpListener.Properties.

#[local] Existing Instance Net.cidr_lib.
#[local] Existing Instance Protection.ascii_lowercase.
#[local] Existing Instance Tls.Properties.raw_tls.
#[local] Existing Instance Tls.Properties.tagged_digests.

(** ** A process and its clients *)

Definition sample_cfgs : gmap nat ProtectionConfig := {[0%nat := ProtectionConfig_default]}.
Definition boot_of `{TlsLib} `{NetLib} (cfgs : gmap nat ProtectionConfig) (t : RouteTable) : pool :=
  mkPool (mkProc ∅ (mkGM 0 0 0 0) ∅ (ProtectionState_new <$> cfgs) ∅ t SuspendedRegistry_new
    (mkShared ∅ ∅ 0) (mkFleet ∅ ∅ ∅ 0) (mkStore ∅ 0) balancers_new) [].
Definition protected_ctx : ConnContext :=
  mkContext 0 (bs "0.0.0.0:443") true false 60000000000 60000000000 None 30000000000 8192 8192 None.

Lemma boot_reachable `{TlsLib} `{NetLib} limits cfgs t : reachable limits cfgs (boot_of cfgs t).
Proof. by apply ReachBoot. Qed.

(** C11: The gauges are exact. In every reachable state of the process, however
    its connections on TLS and HTTP listeners interleave, are aborted, fail or
    finish, and whatever is reloaded meanwhile: a listener's active and half-closed
    counts, the process's active count, a route's active count and the count a
    balancer ranks a slot by (the first slot of its path) are the numbers of live
    guards that stand for them, so no path leaks or doubles a count and none wraps
    below zero. *)
Theorem gauges_are_exact `{TlsLib} `{NetLib} limits cfgs p l r b k s :
  reachable limits cfgs p ->
  lm_active (listener_of (po_proc p) l) = guards_held (active_on l) (po_tasks p) /\
  lm_half_closed (listener_of (po_proc p) l) = guards_held (half_closed_on l) (po_tasks p) /\
  gm_active (pc_global (po_proc p)) = guards_held active_anywhere (po_tasks p) /\
  rm_active (route_of (po_proc p) r) = guards_held (on_route r) (po_tasks p) /\
  (sockets (balancer_now (pc_balancers (po_proc p)) b) !! k = Some s ->
   slot_path s ∉ take k (slot_path <$> sockets b) ->
   slot_active s = guards_held (on_slot (arc b, slot_path s)) (po_tasks p)).
Proof.
  intros Hr. destruct (reachable_gauges _ _ _ Hr) as [_ He].
  pose proof (He l r (arc b, slot_path s)) as Hg. injection Hg as Ha Hh Hn Hq Hu. split_and!; try done.
  intros Hk Hf. rewrite <- Hu. by eapply live_count.
Qed.

(** Two clients, one past its check, one aborted and not yet dropped, and a third
    on an HTTP listener. *)
Definition two_clients : option pool :=
  schedule (fun _ => 0) challenge_io protected_ctx sample_peer (boot_of sample_cfgs sample_table)
    [MAccept ModeTls; MAccept ModeTls; MAsk 0; MAsk 1; MAsk 0; MAsk 0; MAccept ModeHttp; MAsk 1; MAsk 0; MAsk 2; MAsk 0;
     MAsk 0; MAbort 1; MAsk 2].

Lemma two_clients_made (P : pool -> bool) :
  match two_clients with Some p => P p | None => false end = true -> exists p, two_clients = Some p /\ P p = true.
Proof. destruct two_clients as [p|]; [by exists p | discriminate]. Qed.

Lemma gauges_are_exact_witness :
  exists p, two_clients = Some p /\ gm_active (pc_global (po_proc p)) = 3 /\
    lm_active (listener_of (po_proc p) 0) = guards_held (active_on 0) (po_tasks p).
Proof.
  destruct (two_clients_made (fun p => gm_active (pc_global (po_proc p)) =? 3)) as (p & E & Hp);
    [vm_compute; reflexivity |].
  exists p. split; [exact E |]. split; [by apply Z.eqb_eq |].
  apply (gauges_are_exact (fun _ => 0) sample_cfgs p 0%nat 0%nat (mkBalancer [] None 0 0) 0%nat (mkSlot [] 0 None None)).
  eapply schedule_reachable; [apply boot_reachable | exact E].
Defined.



(** C38: The connection limit counts connections that have started. A new
    connection is refused exactly when the limit of its listener is positive and
    at least that many connections are live in the whole process, on whichever
    listener. It is counted by its own task, not when it is accepted, so
    connections accepted before the tasks of the earlier ones have run are not
    held to the limit: with a limit of one, two can be live. *)
Theorem connection_limit_is_soft `{TlsLib} `{NetLib} :
  (forall limits cfgs p mode ctx peer local, reachable limits cfgs p ->
     (po_tasks (accept mode ctx (limits (cx_listener ctx)) peer local p) = po_tasks p <->
      0 < limits (cx_listener ctx) <= guards_held active_anywhere (po_tasks p))) /\
  (exists cfgs p, reachable (fun _ => 1) cfgs p /\ guards_held active_anywhere (po_tasks p) = 2).
Proof.
  split.
  - intros limits cfgs p mode ctx peer local Hr. destruct (reachable_gauges _ _ _ Hr) as [_ He].
    specialize (He 0%nat 0%nat (0%nat, [])). injection He as _ _ Hg _ _. by apply accept_refuses.
  - destruct (schedule (fun _ => 1) challenge_io protected_ctx sample_peer (boot_of ∅ (mkTable ∅ [] None [] [] [] ∅ ∅ ∅ ∅ [] ∅ []))
      [MAccept ModeTls; MAccept ModeHttp; MAsk 0; MAsk 1]) as [p|] eqn:E; [|discriminate E].
    exists ∅, p. split; [eapply schedule_reachable; [apply boot_reachable | exact E] |].
    injection E as <-. reflexivity.
Qed.
End Properties.
