(* ===== verification/Config.v ===== *)
(** * The JavaScript configuration (src/src/proxy.rs)

    The objects that cross the N-API boundary and their translation into the
    specifications the rest of the proxy is built from: routes, upstreams, the
    answers of [resolveConnection], copy buffers, keepalive and timeouts. Texts
    are UTF-8 bytes, numbers the doubles JavaScript has, and an error message is
    the constructor that says which check refused. Lines printed to standard
    error are not modelled. *)

From Stdlib Require Import SpecFloat.
From S2P Require Import Prelude Bytes Float64 Net IpText TokenBucket Sni Tls Protection Balancer Failover Router Liveness Forwarding Task Suspended Connection.

Open Scope Z_scope.

(** ** The objects *)

Record JsUpstream : Type := mkJsUpstream {
  ju_kind : bytes;
  ju_host : option bytes;
  ju_port : option Z;
  ju_path : option bytes;
  ju_ip_affinity : option bool;
  ju_ip_affinity_ttl_ms : option f64;
  ju_pid : option Z;
  ju_tid : option Z;
  ju_protocol : option bytes;
}.

(** [Either<String, Buffer>] and [Either<String, Vec<String>>] *)
Inductive Either (A B : Type) : Type := EitherA (a : A) | EitherB (b : B).
Arguments EitherA {A B} a.
Arguments EitherB {A B} b.

Record JsCertConfig : Type := mkJsCert { jc_cert_chain : Either bytes bytes; jc_private_key : Either bytes bytes }.
Record JsMtlsConfig : Type := mkJsMtls { jm_client_ca_cert : Either bytes bytes; jm_require_client_cert : option bool }.

Record JsPeerCooldown : Type := mkJsCooldown { jp_min : f64; jp_max : f64 }.
Record JsSpillConfig : Type := mkJsSpill {
  jsp_high_water : option f64;
  jsp_margin : option f64;
  jsp_step : option f64;
  jsp_max_fraction : option f64;
  jsp_max_peer_rtt_ms : option f64;
}.
Record JsFailoverConfig : Type := mkJsFailover {
  jf_peers : list (bytes * Z);
  jf_drain : option bool;
  jf_probe_interval_ms : option f64;
  jf_peer_cooldown_ms : option JsPeerCooldown;
  jf_spill : option JsSpillConfig;
}.

Record JsRouteConfig : Type := mkJsRoute {
  jr_sni : bytes;
  jr_metrics_group : option bytes;
  jr_upstreams : list JsUpstream;
  jr_terminate_tls : bool;
  jr_cert : option JsCertConfig;
  jr_mtls : option JsMtlsConfig;
  jr_suspended : option bool;
  jr_suspend_timeout_ms : option f64;
  jr_max_connections_per_second : option f64;
  jr_burst : option f64;
  jr_source_address_header : option bytes;
  jr_forward_fingerprint : option (Either bytes (list bytes));
  jr_http2 : option bool;
  jr_protocol : option bytes;
  jr_allowed_sources : option (list bytes);
  jr_failover : option JsFailoverConfig;
}.

Record JsResolveRoute : Type := mkJsResolve {
  jv_upstream : JsUpstream;
  jv_terminate_tls : bool;
  jv_cert : option JsCertConfig;
  jv_mtls : option JsMtlsConfig;
  jv_source_address_header : option bytes;
  jv_forward_fingerprint : option (Either bytes (list bytes));
  jv_http2 : option bool;
  jv_protocol : option bytes;
  jv_allowed_sources : option (list bytes);
}.

Record JsTcpKeepaliveConfig : Type := mkJsKeepalive {
  jk_enabled : option bool;
  jk_idle_ms : option f64;
  jk_interval_ms : option f64;
  jk_retries : option Z;
}.

Inductive config_error : Type :=
  | SniTooLong
  | SniControl
  | GroupTooLong (sni : bytes)
  | GroupControl (sni : bytes)
  | TcpMissingHost (sni : bytes)
  | TcpMissingPort (sni : bytes)
  | TcpProtocol (sni : bytes)
  | UdsMissingPath (sni : bytes)
  | UdsProtocol (sni protocol : bytes)
  | UnknownUpstream (kind sni : bytes)
  | UnknownSourceHeader (value : bytes)
  | UnknownFingerprint (value : bytes)
  | UnknownFingerprintEntry (value : bytes)
  | UnknownProtocol (value : bytes)
  | ResolveAddress
  | ResolveNoCarrier
  | ResolveDeclareHttp
  | ResolveXffWithH2
  | ResolveSources (e : source_error)
  | OutOfRangeMs (ms : f64)
  | NotWholeSeconds (ms : f64)
  | KeepaliveRetries (retries : Z).

(** ** Upstreams and forwarding *)

Definition pem_bytes (v : Either bytes bytes) : bytes := match v with EitherA s => s | EitherB b => b end.

Definition MAX_METRICS_GROUP_BYTES : nat := 128.
Definition MAX_ROUTE_METRIC_LABEL_BYTES : nat := 255.

(** [chars().any(char::is_control)]: U+0000 to U+001F, U+007F, and U+0080 to
    U+009F, which UTF-8 writes as C2 followed by the same byte. *)
Fixpoint has_control (s : bytes) : bool :=
  match s with
  | [] => false
  | b :: s' =>
      (b <? 32) || (b =? 127) ||
      ((b =? 194) && match s' with c :: _ => (128 <=? c) && (c <=? 159) | [] => false end) ||
      has_control s'
  end.

Definition validate_route_metric_label (sni : bytes) : result config_error unit :=
  if (MAX_ROUTE_METRIC_LABEL_BYTES <? length sni)%nat then Err SniTooLong
  else if has_control sni then Err SniControl
  else Ok tt.

Definition parse_metrics_group (group : option bytes) (sni : bytes) : result config_error bytes :=
  let group := default [] group in
  if (MAX_METRICS_GROUP_BYTES <? length group)%nat then Err (GroupTooLong sni)
  else if has_control group then Err (GroupControl sni)
  else Ok group.

Definition parse_upstream_spec (u : JsUpstream) (sni : bytes) : result config_error UpstreamSpec :=
  if bytes_eqb (ju_kind u) (bs "tcp") then
    host ← ok_or (TcpMissingHost sni) (ju_host u);
    port ← ok_or (TcpMissingPort sni) (ju_port u);
    if bool_decide (is_Some (ju_protocol u)) then Err (TcpProtocol sni)
    else Ok (UTcp host port)
  else if bytes_eqb (ju_kind u) (bs "uds") then
    path ← ok_or (UdsMissingPath sni) (ju_path u);
    _ ← match ju_protocol u with
        | Some p => if negb (bytes_eqb p (bs "h2")) && negb (bytes_eqb p (bs "http/1.1"))
                    then Err (UdsProtocol sni p) else Ok tt
        | None => Ok tt
        end;
    Ok (UUds [path] [ju_pid u] [ju_tid u] (default false (ju_ip_affinity u))
          (f64_as_u64 (default (f64_of_Z 300000) (ju_ip_affinity_ttl_ms u)))
          (match ju_protocol u with
           | Some p => if bytes_eqb p (bs "h2") then Some p else None
           | None => None
           end))
  else Err (UnknownUpstream (ju_kind u) sni).

Definition parse_source_address_mode (value : option bytes) (has_uds_upstreams : bool)
    : result config_error SourceAddressMode :=
  match value with
  | Some v =>
      if bytes_eqb v (bs "proxyProtocol") then Ok SaProxyProtocol
      else if bytes_eqb v (bs "proxyProtocolV2") then Ok SaProxyProtocolV2
      else if bytes_eqb v (bs "xForwardedFor") then Ok SaXForwardedFor
      else if bytes_eqb v (bs "none") then Ok SaNone
      else Err (UnknownSourceHeader v)
  | None => Ok (if has_uds_upstreams then SaProxyProtocol else SaNone)
  end.

Fixpoint fingerprint_list (f : ForwardFingerprint) (kinds : list bytes) : result config_error ForwardFingerprint :=
  match kinds with
  | [] => Ok f
  | kind :: kinds' =>
      if bytes_eqb kind (bs "ja3") then fingerprint_list (mkFingerprint true (ff_ja4 f)) kinds'
      else if bytes_eqb kind (bs "ja4") then fingerprint_list (mkFingerprint (ff_ja3 f) true) kinds'
      else Err (UnknownFingerprintEntry kind)
  end.

Definition parse_forward_fingerprint (value : option (Either bytes (list bytes)))
    : result config_error ForwardFingerprint :=
  match value with
  | None => Ok (mkFingerprint false false)
  | Some (EitherA kind) =>
      if bytes_eqb kind (bs "none") then Ok (mkFingerprint false false)
      else if bytes_eqb kind (bs "ja3") then Ok (mkFingerprint true false)
      else if bytes_eqb kind (bs "ja4") then Ok (mkFingerprint false true)
      else Err (UnknownFingerprint kind)
  | Some (EitherB kinds) => fingerprint_list (mkFingerprint false false) kinds
  end.

Definition parse_route_protocol (value : option bytes) : result config_error RouteProtocol :=
  match value with
  | None => Ok ProtoOpaque
  | Some v =>
      if bytes_eqb v (bs "opaque") then Ok ProtoOpaque
      else if bytes_eqb v (bs "http") then Ok ProtoHttp
      else Err (UnknownProtocol v)
  end.

Definition is_uds (u : UpstreamSpec) : bool := match u with UUds _ _ _ _ _ _ => true | UTcp _ _ => false end.

(** [m.and_then(|m| m.require_client_cert).unwrap_or(d)] *)
Definition requires_cert (m : option JsMtlsConfig) (d : bool) : bool :=
  default d (m ≫= jm_require_client_cert).

Definition failover_spec (f : JsFailoverConfig) : FailoverSpec :=
  mkFailoverSpec (jf_peers f) (default false (jf_drain f)) (jf_probe_interval_ms f)
    (jp_min <$> jf_peer_cooldown_ms f) (jp_max <$> jf_peer_cooldown_ms f)
    ((fun s => mkSpillSpec (jsp_high_water s) (jsp_margin s) (jsp_step s) (jsp_max_fraction s)
                 (jsp_max_peer_rtt_ms s)) <$> jf_spill f).

Definition parse_route_spec (r : JsRouteConfig) : result config_error RouteSpec :=
  _ ← validate_route_metric_label (jr_sni r);
  upstreams ← try_map (fun u => parse_upstream_spec u (jr_sni r)) (jr_upstreams r);
  let has_uds := existsb is_uds upstreams in
  source_address_mode ← parse_source_address_mode (jr_source_address_header r) has_uds;
  forward_fingerprint ← parse_forward_fingerprint (jr_forward_fingerprint r);
  protocol ← parse_route_protocol (jr_protocol r);
  metrics_group ← parse_metrics_group (jr_metrics_group r) (jr_sni r);
  Ok (mkRouteSpec (jr_sni r) metrics_group upstreams (jr_terminate_tls r)
        ((fun c => pem_bytes (jc_cert_chain c)) <$> jr_cert r)
        ((fun c => pem_bytes (jc_private_key c)) <$> jr_cert r)
        ((fun m => pem_bytes (jm_client_ca_cert m)) <$> jr_mtls r)
        (requires_cert (jr_mtls r) false)
        (default false (jr_suspended r))
        (f64_as_u64 (default (f64_of_Z 30000) (jr_suspend_timeout_ms r)))
        (jr_max_connections_per_second r) (jr_burst r) source_address_mode forward_fingerprint
        (default false (jr_http2 r)) protocol (default [] (jr_allowed_sources r))
        (failover_spec <$> jr_failover r)).

(** ** Answers of the application *)

Section Resolve.
Context `{NetLib}.

Definition resolve_upstream (u : UpstreamSpec) : result config_error ResolveUpstream :=
  match u with
  | UTcp host port =>
      match parse_socket_addr (host ++ [58] ++ to_decimal port) with
      | Some addr => Ok (ResolveTcp addr)
      | None => Err ResolveAddress
      end
  | UUds paths _ _ ip_affinity affinity_ttl_ms _ => Ok (ResolveUds paths ip_affinity affinity_ttl_ms)
  end.

Definition parse_resolve_spec (r : JsResolveRoute) : result config_error ResolveSpec :=
  spec ← parse_upstream_spec (jv_upstream r) (bs "<resolved>");
  upstream ← resolve_upstream spec;
  let has_uds := match upstream with ResolveUds _ _ _ => true | ResolveTcp _ => false end in
  source_address_mode ← parse_source_address_mode (jv_source_address_header r) has_uds;
  forward_fingerprint ← parse_forward_fingerprint (jv_forward_fingerprint r);
  protocol ← parse_route_protocol (jv_protocol r);
  let requires_http := requires_http_protocol source_address_mode forward_fingerprint in
  let http2 := default false (jv_http2 r) in
  if requires_http && negb (jv_terminate_tls r) then Err ResolveNoCarrier
  else if requires_http && negb (bool_decide (protocol = ProtoHttp)) then Err ResolveDeclareHttp
  else if bool_decide (source_address_mode = SaXForwardedFor) && http2 && jv_terminate_tls r then Err ResolveXffWithH2
  else
    allowed_sources ← match SourceAllowlist_parse (default [] (jv_allowed_sources r)) with
                      | Ok a => Ok a
                      | Err e => Err (ResolveSources e)
                      end;
    Ok (mkResolveSpec upstream (jv_terminate_tls r)
          ((fun c => pem_bytes (jc_cert_chain c)) <$> jv_cert r)
          ((fun c => pem_bytes (jc_private_key c)) <$> jv_cert r)
          ((fun m => pem_bytes (jm_client_ca_cert m)) <$> jv_mtls r)
          (requires_cert (jv_mtls r) false)
          source_address_mode forward_fingerprint http2 protocol allowed_sources).
End Resolve.

(** ** Numbers *)

Definition resolve_copy_buffer_size (configured : option Z) : Z :=
  let requested := default DEFAULT_COPY_BUFFER_SIZE configured in
  Z.min MAX_COPY_BUFFER_SIZE (Z.max MIN_COPY_BUFFER_SIZE requested).

Definition DEFAULT_KEEPALIVE_IDLE_MS : f64 := f64_of_Z 300000.
Definition DEFAULT_KEEPALIVE_INTERVAL_MS : f64 := f64_of_Z 30000.
Definition DEFAULT_KEEPALIVE_RETRIES : Z := 5.
Definition DEFAULT_HALF_CLOSE_TIMEOUT_MS : f64 := f64_of_Z 300000.
Definition MAX_KEEPALIVE_RETRIES : Z := 127.
Definition i32_max : Z := 2147483647.

(** A duration is its nanoseconds. *)
Definition from_millis (ms : Z) : Z := ms * 1000000.

Definition bounded_ms (value : option f64) (dflt min_ms max_ms : f64) : result config_error Z :=
  let ms := default dflt value in
  if negb (f64_is_finite ms) || f64_ltb ms min_ms || f64_ltb max_ms ms then Err (OutOfRangeMs ms)
  else Ok (from_millis (f64_as_u64 ms)).

Definition keepalive_ms (value : option f64) (dflt : f64) : result config_error Z :=
  let ms := default dflt value in
  resolved ← bounded_ms value dflt (f64_of_Z 1000) (f64_mul (f64_of_Z i32_max) (f64_of_Z 1000));
  if negb (f64_eqb (f64_rem ms (f64_of_Z 1000)) f64_zero) then Err (NotWholeSeconds ms)
  else Ok resolved.

Definition parse_keepalive_config (cfg : option JsTcpKeepaliveConfig) : result config_error (option KeepaliveConfig) :=
  if match cfg with Some c => match jk_enabled c with Some false => true | _ => false end | None => false end
  then Ok None
  else
    let retries := default DEFAULT_KEEPALIVE_RETRIES (cfg ≫= jk_retries) in
    if (retries =? 0) || (MAX_KEEPALIVE_RETRIES <? retries) then Err (KeepaliveRetries retries)
    else
      idle ← keepalive_ms (cfg ≫= jk_idle_ms) DEFAULT_KEEPALIVE_IDLE_MS;
      interval ← keepalive_ms (cfg ≫= jk_interval_ms) DEFAULT_KEEPALIVE_INTERVAL_MS;
      Ok (Some (mkKeepalive idle interval retries)).

Definition parse_half_close_timeout (value : option f64) : result config_error Z :=
  if match value with Some v => f64_eqb v f64_zero | None => false end then Ok 0
  else bounded_ms value DEFAULT_HALF_CLOSE_TIMEOUT_MS (f64_of_Z 1) (f64_of_Z u32_max).

(** [idle_timeout_ms > 0.0], else no timeout *)
Definition idle_timeout_of (ms : f64) : Z := if f64_ltb f64_zero ms then from_millis (f64_as_u64 ms) else 0.

(** ** Lemmas: what the numbers can be *)

(** A JavaScript number is a double. *)
Definition numbers_ok (v : option f64) : Prop := match v with Some x => f64_valid x | None => True end.

Lemma valid_default d v : f64_valid d -> numbers_ok v -> f64_valid (default d v).
Proof. by destruct v. Qed.

(** The bounds of [bounded_ms] are positive whole numbers. *)
Definition whole (x : f64) (z : Z) : Prop :=
  exists m e, x = S754_finite false m e /\ f64_valid x /\ ulps x = in_ulps z.

Lemma ulps_div z : in_ulps z / 2 ^ 1074 = z.
Proof. apply Z.div_mul. by apply Z.pow_nonzero. Qed.

Lemma bounded_ms_spec value dflt min_ms max_ms lo hi r :
  f64_valid (default dflt value) -> whole min_ms lo -> whole max_ms hi -> hi <= u64_max ->
  bounded_ms value dflt min_ms max_ms = Ok r ->
  exists m e, default dflt value = S754_finite false m e /\
    r = from_millis (ulps (default dflt value) / 2 ^ 1074) /\ lo <= ulps (default dflt value) / 2 ^ 1074 <= hi.
Proof.
  intros Hv (mlo & elo & -> & Hlo & Elo) (mhi & ehi & -> & Hhi & Ehi) Hmax. unfold bounded_ms.
  destruct (f64_is_finite (default dflt value)) eqn:Hf; [|done].
  destruct (f64_ltb _ (S754_finite false mlo elo)) eqn:Hl; [done |].
  destruct (f64_ltb (S754_finite false mhi ehi) _) eqn:Hh; [done |]. intros [= <-].
  destruct (not_below _ mlo elo Hv Hlo Hf Hl) as (m & e & Hx & Hge). rewrite Hx in *. exists m, e. split; [done |].
  pose proof (not_above m e mhi ehi Hv Hhi Hh) as Hle. rewrite Elo in Hge. rewrite Ehi in Hle.
  assert (0 < 2 ^ 1074) as Hpow by (by apply Z.pow_pos_nonneg).
  apply (Z.div_le_mono _ _ (2 ^ 1074) Hpow) in Hge, Hle. rewrite ulps_div in Hge, Hle. split; [|done].
  unfold f64_as_u64, f64_as_uint. rewrite trunc_ulps by (by destruct (valid_finite _ _ _ Hv)).
  f_equal. cbn [ulps] in *. rewrite Z.mul_1_l in *. lia.
Qed.

Lemma whole_1 : whole (f64_of_Z 1) 1.
Proof. eexists _, _. split; [vm_compute; reflexivity |]. split; vm_compute; reflexivity. Qed.
Lemma whole_1000 : whole (f64_of_Z 1000) 1000.
Proof. eexists _, _. split; [vm_compute; reflexivity |]. split; vm_compute; reflexivity. Qed.
Lemma whole_u32 : whole (f64_of_Z u32_max) u32_max.
Proof. eexists _, _. split; [vm_compute; reflexivity |]. split; vm_compute; reflexivity. Qed.
Lemma whole_i32_seconds : whole (f64_mul (f64_of_Z i32_max) (f64_of_Z 1000)) (i32_max * 1000).
Proof. eexists _, _. split; [vm_compute; reflexivity |]. split; vm_compute; reflexivity. Qed.

Definition second_ns : Z := 1000000000.

Lemma keepalive_ms_spec value dflt r :
  f64_valid (default dflt value) -> keepalive_ms value dflt = Ok r ->
  exists s, r = s * second_ns /\ 1 <= s <= i32_max.
Proof.
  intros Hv. unfold keepalive_ms. cbv zeta. destruct (bounded_ms _ _ _ _) as [r'|] eqn:Hb; [|done].
  cbn [mbind result_bind]. destruct (f64_eqb _ _) eqn:Hr; [|done]. intros [= <-].
  destruct (bounded_ms_spec _ _ _ _ _ _ _ Hv whole_1000 whole_i32_seconds ltac:(unfold i32_max, u64_max; lia) Hb)
    as (m & e & Hx & -> & Hrange).
  destruct whole_1000 as (m' & e' & Hy & Hvy & Huy). rewrite Hx, Hy in Hr. rewrite Hx in Hv. rewrite Hy in Hvy.
  destruct (rem_zero m e m' e') as [q Hq]; [by destruct (valid_finite _ _ _ Hv) | by destruct (valid_finite _ _ _ Hvy) | done |].
  rewrite Hy in Huy. rewrite Hx, Hq, Huy in *. unfold in_ulps in *. rewrite Z.mul_assoc, Z.div_mul in * by (by apply Z.pow_nonzero).
  exists q. unfold from_millis, second_ns, i32_max in *. lia.
Qed.

Lemma parse_half_close_spec value r :
  numbers_ok value -> parse_half_close_timeout value = Ok r ->
  (r = 0 /\ exists v, value = Some v /\ f64_eqb v f64_zero = true) \/
  exists ms, r = from_millis ms /\ 1 <= ms <= u32_max.
Proof.
  intros Hv. unfold parse_half_close_timeout. destruct (match value with Some v => _ | None => _ end) eqn:H0.
  - intros [= <-]. left. split; [done |]. destruct value; [eauto | done].
  - intros Hb. right.
    assert (f64_valid (default DEFAULT_HALF_CLOSE_TIMEOUT_MS value)) as Hd by (apply valid_default; [reflexivity | done]).
    destruct (bounded_ms_spec _ _ _ _ _ _ _ Hd whole_1 whole_u32 ltac:(unfold u32_max, u64_max; lia) Hb)
      as (m & e & _ & -> & Hrange). eauto.
Qed.

Lemma copy_buffer_range v : MIN_COPY_BUFFER_SIZE <= resolve_copy_buffer_size v <= MAX_COPY_BUFFER_SIZE.
Proof. unfold resolve_copy_buffer_size, MIN_COPY_BUFFER_SIZE, MAX_COPY_BUFFER_SIZE. lia. Qed.
