(* ===== verification/Proxy.v ===== *)
(** * The proxy object (src/src/proxy.rs, src/src/listener.rs, src/src/bench_hooks.rs)

    [SymphonyProxyWrap] is what JavaScript holds: its constructor, [start],
    [stop], [update_config], [metrics], [blocked_ips] and [resolve_connection].
    The state the connections share is the [proc] of Connection.v; a listener's
    protection and ingress are in it under the listener's index. The number of
    processors, the environment, the kernel's answers and the clock are the
    [machine].

    A text made only for a person (an error message, the [Display] of a network
    block) is a parameter. *)

From S2P Require Import Prelude Bytes Float64 Net IpText TokenBucket Sni Tls Protection ProxyProtocol Balancer BalancerState Metrics Failover Router HttpHead Forwarding Task Suspended Liveness Sockets Connection HttpListener Config.

Open Scope Z_scope.

(** ** Benchmark hooks *)

Inductive env_var : Type := EnvUnset | EnvNotUnicode | EnvSet (raw : bytes).

Inductive hook_error : Type := HookNotAtLeast (min : Z) | HookNoMallocTrim.

Definition MIN_TLS_BUFFER_LIMIT : Z := 1024.
Definition MIN_MALLOC_TRIM_INTERVAL_MS : Z := 100.

Definition parse_at_least (raw : option bytes) (min : Z) : result hook_error (option Z) :=
  match raw with
  | None => Ok None
  | Some raw =>
      match parse_u64 (trim_str raw) with
      | Some value => if min <=? value then Ok (Some value) else Err (HookNotAtLeast min)
      | None => Err (HookNotAtLeast min)
      end
  end.

Definition read_env (v : env_var) (min : Z) : result hook_error (option Z) :=
  match v with
  | EnvSet raw => parse_at_least (Some raw) min
  | EnvUnset => parse_at_least None min
  | EnvNotUnicode => Err (HookNotAtLeast min)
  end.

(** A [usize] has 64 bits. *)
Definition tls_buffer_limit (v : env_var) : result hook_error (option Z) := read_env v MIN_TLS_BUFFER_LIMIT.

Definition malloc_trim_interval (supported : bool) (v : env_var) : result hook_error (option Z) :=
  ms ← read_env v MIN_MALLOC_TRIM_INTERVAL_MS;
  if bool_decide (is_Some ms) && negb supported then Err HookNoMallocTrim
  else Ok (from_millis <$> ms).

(** ** Listeners *)

Record InternalListener : Type := mkInternal { il_addr : SocketAddr; il_max_connections : Z; il_mode : ListenerMode }.

(** Which of protection and ingress the listener was started with; their states
    are in the process. *)
Record ListenerState : Type := mkListenerState {
  ls_addr : bytes;
  ls_port : Z;
  ls_protection : bool;
  ls_ingress : bool;
}.

Record JsListenerConfig : Type := mkJsListener {
  jl_host : option bytes;
  jl_port : Z;
  jl_mode : option bytes;
  jl_default_cert : option JsCertConfig;
  jl_mtls : option JsMtlsConfig;
  jl_max_connections : option Z;
  jl_idle_timeout_ms : option f64;
  jl_protection : option JsProtectionConfig;
  jl_failover_ingress : option (list bytes);
}.

Record JsProxyConfig : Type := mkJsProxy {
  jx_listeners : list JsListenerConfig;
  jx_routes : list JsRouteConfig;
  jx_worker_threads : option Z;
  jx_read_buffer_size : option Z;
  jx_client_read_buffer_size : option Z;
  jx_upstream_read_buffer_size : option Z;
  jx_tcp_keepalive : option JsTcpKeepaliveConfig;
  jx_half_close_timeout_ms : option f64;
}.

Record JsHotConfig : Type := mkJsHot {
  jh_routes : option (list JsRouteConfig);
  jh_protection : option (list (Z * JsProtectionConfig));
  jh_failover_ingress : option (list (Z * list bytes));
}.

Inductive hot_error : Type :=
  | NoListener (port : Z)
  | WithoutProtection (port : Z)
  | WithoutIngress (port : Z)
  | SeveralListeners (port : Z)
  | HotSources (port : Z) (e : source_error).

Inductive proxy_error : Type :=
  | ConfigError (e : config_error)
  | ProtectionError (e : prot_error)
  | HookError (e : hook_error)
  | ListenerAddress (addr : bytes)
  | UnknownMode (mode : bytes)
  | IngressNeedsTls (addr : bytes)
  | TrustedSources (e : source_error)
  | NoRuntime
  | AlreadyStarted
  | BindFailed (addr : SocketAddr) (e : SymphonyError)
  | HotErrors (es : list hot_error).

(** The error of one component as the error of another. *)
Definition lift {E E' A} (f : E -> E') (r : result E A) : result E' A :=
  match r with Ok a => Ok a | Err e => Err (f e) end.

Definition listener_tls_spec (l : JsListenerConfig) : ListenerTlsSpec :=
  mkListenerTls ((fun c => pem_bytes (jc_cert_chain c)) <$> jl_default_cert l)
    ((fun c => pem_bytes (jc_private_key c)) <$> jl_default_cert l)
    ((fun m => pem_bytes (jm_client_ca_cert m)) <$> jl_mtls l)
    (requires_cert (jl_mtls l) true).

(** What a build or a call reads from outside. *)
Record machine : Type := mkMachine {
  mc_cpus : option Z;
  mc_tls_buffer_limit : env_var;
  mc_malloc_trim : env_var;
  mc_malloc_trim_supported : bool;
  mc_runtime : Z -> bool;
  mc_surroundings : surroundings;
}.

Definition num_cpus (m : machine) : Z := default 4 (mc_cpus m).

(** ** The object *)

Section Proxy.
Context `{TlsLib} `{Digests} `{NetLib} `{Lowercase}.

(** The tasks [start] spawns. *)
Inductive job : Type :=
  | JobTls (sockets : list socket) (max_connections : Z) (ctx : ConnContext)
  | JobHttp (sockets : list socket) (max_connections : Z) (ctx : ConnContext)
  | JobSampler
  | JobAffinity (interval : Z)
  | JobProbe
  | JobPeerLoads
  | JobTrim (interval : Z)
  | JobEvict (listener : nat) (interval : Z).

Record SymphonyProxyWrap : Type := mkWrap {
  sp_listeners : list InternalListener;
  sp_default_listener_tls : ListenerTlsSpec;
  sp_worker_threads : Z;
  sp_idle_timeout : Z;
  sp_half_close_timeout : Z;
  sp_keepalive : option KeepaliveConfig;
  sp_client_read_buffer_size : Z;
  sp_upstream_read_buffer_size : Z;
  sp_tls_buffer_limit : option Z;
  sp_malloc_trim_interval : option Z;
  sp_states : list ListenerState;
  sp_running : option (list job);
  sp_cache : TlsConfigCache;
  sp_next_identity : nat;
  sp_proc : proc;
}.

Definition set_running (w : SymphonyProxyWrap) (r : option (list job)) : SymphonyProxyWrap :=
  mkWrap (sp_listeners w) (sp_default_listener_tls w) (sp_worker_threads w) (sp_idle_timeout w)
    (sp_half_close_timeout w) (sp_keepalive w) (sp_client_read_buffer_size w) (sp_upstream_read_buffer_size w)
    (sp_tls_buffer_limit w) (sp_malloc_trim_interval w) (sp_states w) r (sp_cache w) (sp_next_identity w) (sp_proc w).

Definition set_shared_state (w : SymphonyProxyWrap) (c : TlsConfigCache) (n : nat) (p : proc) : SymphonyProxyWrap :=
  mkWrap (sp_listeners w) (sp_default_listener_tls w) (sp_worker_threads w) (sp_idle_timeout w)
    (sp_half_close_timeout w) (sp_keepalive w) (sp_client_read_buffer_size w) (sp_upstream_read_buffer_size w)
    (sp_tls_buffer_limit w) (sp_malloc_trim_interval w) (sp_states w) (sp_running w) c n p.

Definition parse_trusted_sources (entries : list bytes) : result source_error SourceAllowlist := parse_required entries.

(** One listener of the constructor's loop. *)
Definition parse_listener (l : JsListenerConfig)
    : result proxy_error (InternalListener * ListenerState * option ProtectionConfig * option SourceAllowlist) :=
  let addr_str := default (bs "0.0.0.0") (jl_host l) ++ [58] ++ to_decimal (jl_port l) in
  addr ← ok_or (ListenerAddress addr_str) (parse_socket_addr addr_str);
  mode ← match jl_mode l with
         | None => Ok ModeTls
         | Some m =>
             if bytes_eqb m (bs "tls") then Ok ModeTls
             else if bytes_eqb m (bs "http") then Ok ModeHttp
             else Err (UnknownMode m)
         end;
  protection ← match jl_protection l with
               | Some p => cfg ← lift ProtectionError (parse_protection_config p); Ok (Some cfg)
               | None => Ok None
               end;
  ingress ← match jl_failover_ingress l with
            | None => Ok None
            | Some entries =>
                if bool_decide (mode = ModeHttp) then Err (IngressNeedsTls addr_str)
                else t ← lift TrustedSources (parse_trusted_sources entries); Ok (Some t)
            end;
  Ok (mkInternal addr (default 0 (jl_max_connections l)) mode,
      mkListenerState addr_str (jl_port l) (bool_decide (is_Some protection)) (bool_decide (is_Some ingress)),
      protection, ingress).

Definition is_http_mode (l : JsListenerConfig) : bool :=
  match jl_mode l with Some m => bytes_eqb m (bs "http") | None => false end.

(** The TLS configurations a table's routes hold. *)
Definition table_configs (t : RouteTable) : list nat :=
  omap rt_tls_config (((map_to_list (exact t)).*2 ++ (wildcard t).*2) ++
                      match default_route t with Some r => [r] | None => [] end).
Definition holding_table (su : surroundings) (t : RouteTable) : surroundings :=
  mkSurroundings (su_now su) (su_ticketer su) (fun c => su_held su c || bool_decide (c ∈ table_configs t)).

(** The value at each index that has one. *)
Definition by_index {A} (l : list (option A)) : gmap nat A :=
  foldl (fun m e => match e.2 with Some a => <[e.1 := a]> m | None => m end) ∅ (enumerate l).

Definition SymphonyProxyWrap_new (m : machine) (config : JsProxyConfig) : result proxy_error SymphonyProxyWrap :=
  let default_listener_tls :=
    match find_first (fun l => negb (is_http_mode l)) (jx_listeners config) with
    | Some l => listener_tls_spec l
    | None => ListenerTlsSpec_empty
    end in
  let worker_threads := default (num_cpus m) (jx_worker_threads config) in
  let idle_timeout := idle_timeout_of (default (f64_of_Z 60000) (head (jx_listeners config) ≫= jl_idle_timeout_ms)) in
  half_close_timeout ← lift ConfigError (parse_half_close_timeout (jx_half_close_timeout_ms config));
  keepalive ← lift ConfigError (parse_keepalive_config (jx_tcp_keepalive config));
  tls_limit ← lift HookError (tls_buffer_limit (mc_tls_buffer_limit m));
  trim ← lift HookError (malloc_trim_interval (mc_malloc_trim_supported m) (mc_malloc_trim m));
  let base := resolve_copy_buffer_size (jx_read_buffer_size config) in
  let size v := match v with Some _ => resolve_copy_buffer_size v | None => base end in
  listeners ← try_map parse_listener (jx_listeners config);
  specs ← lift ConfigError (try_map parse_route_spec (jx_routes config));
  let su := mc_surroundings m in
  let '(table, e) := build_route_table su
    (mkEnv (mkShared ∅ ∅ 0) (mkFleet ∅ ∅ ∅ 0) TlsConfigCache_new (mkStore ∅ 0) 0) specs default_listener_tls None in
  if negb (mc_runtime m worker_threads) then Err NoRuntime
  else
    Ok (mkWrap ((fun x => x.1.1.1) <$> listeners) default_listener_tls worker_threads idle_timeout half_close_timeout
          keepalive (size (jx_client_read_buffer_size config)) (size (jx_upstream_read_buffer_size config))
          tls_limit trim ((fun x => x.1.1.2) <$> listeners) None
          (retain_used (su_held (holding_table su table)) (e_cache e)) (e_next_identity e)
          (mkProc ∅ (mkGM 0 0 0 0) ∅
             (ProtectionState_new <$> by_index ((fun x => x.1.2) <$> listeners))
             (IngressState_new <$> by_index ((fun x => x.2) <$> listeners))
             table SuspendedRegistry_new (e_shared e) (e_fleet e) (e_configs e) balancers_new)).

(** ** Starting and stopping *)

(** [set_rlimit_nofile]: the soft and hard limits, when they can be read, and
    whether the kernel takes the new ones. It reports no error. *)
Definition set_rlimit_nofile (desired : Z) (limits : option (Z * Z)) (accepted : bool) : option (Z * Z) :=
  match limits with
  | None => None
  | Some (cur, mx) =>
      let target := Z.min desired mx in
      if (cur <? target) && accepted then Some (target, mx) else Some (cur, mx)
  end.

(** The file descriptors asked for: two per connection of the largest limit. *)
Definition wanted_nofile (ls : list InternalListener) : option Z :=
  match il_max_connections <$> ls with
  | [] => None
  | ms => let m := foldr Z.max 0 ms in if 0 <? m then Some (m * 2 + 1024) else None
  end.

(** Nanoseconds. *)
Definition upstream_connect_timeout (w : SymphonyProxyWrap) (i : nat) (s : ListenerState) : Z :=
  if ls_protection s then from_millis (tls_handshake_timeout (config (protection_of (sp_proc w) i))) else 30000000000.

Definition context_of (w : SymphonyProxyWrap) (i : nat) (s : ListenerState) : ConnContext :=
  mkContext i (ls_addr s) (ls_protection s) (ls_ingress s) (sp_idle_timeout w) (sp_half_close_timeout w)
    (sp_keepalive w) (upstream_connect_timeout w i s) (sp_client_read_buffer_size w) (sp_upstream_read_buffer_size w)
    (sp_tls_buffer_limit w).

Definition listener_job (w : SymphonyProxyWrap) (x : nat * (InternalListener * ListenerState * list socket)) : job :=
  let '(i, (l, s, sockets)) := x in
  match il_mode l with
  | ModeTls => JobTls sockets (il_max_connections l) (context_of w i s)
  | ModeHttp => JobHttp sockets (il_max_connections l) (context_of w i s)
  end.

Definition minute : Z := 60000000000.

Definition jobs_of (w : SymphonyProxyWrap) (bound : list (list socket)) : list job :=
  (listener_job w <$> enumerate (zip (zip (sp_listeners w) (sp_states w)) bound)) ++
  [JobSampler; JobAffinity minute; JobProbe; JobPeerLoads] ++
  match sp_malloc_trim_interval w with Some i => [JobTrim i] | None => [] end ++
  omap (fun x => if ls_protection x.2 then Some (JobEvict x.1 minute) else None) (enumerate (sp_states w)).

(** Socket [j] of listener [i] meets the system [k i j]. *)
Definition bind_listener (k : nat -> nat -> kernel) (w : SymphonyProxyWrap) (x : nat * InternalListener)
    : result proxy_error (list socket) :=
  lift (BindFailed (il_addr x.2)) (bind_workers (k x.1) (il_addr x.2) (sp_worker_threads w) (sp_keepalive w)).

(** [start] in a process with the file-descriptor limits [nofile], where the kernel
    takes new limits or not: the outcome, the limits and the proxy it leaves. The
    limit is raised before the first socket is asked for. *)
Definition start (k : nat -> nat -> kernel) (accepted : bool) (nofile : option (Z * Z)) (w : SymphonyProxyWrap)
    : result proxy_error unit * option (Z * Z) * SymphonyProxyWrap :=
  match sp_running w with
  | Some _ => (Err AlreadyStarted, nofile, w)
  | None =>
      let nofile := match wanted_nofile (sp_listeners w) with
                    | Some desired => set_rlimit_nofile desired nofile accepted
                    | None => nofile
                    end in
      match try_map (bind_listener k w) (enumerate (sp_listeners w)) with
      | Err e => (Err e, nofile, w)
      | Ok bound => (Ok tt, nofile, set_running w (Some (jobs_of w bound)))
      end
  end.

(** The milliseconds slept after the signal. *)
Definition stop (timeout_ms : option f64) (w : SymphonyProxyWrap) : Z * SymphonyProxyWrap :=
  (f64_as_u64 (f64_min (default (f64_of_Z 100) timeout_ms) (f64_of_Z 5000)), set_running w None).

(** ** Reconfiguration *)

(** The listeners of a port, with their indices. *)
Definition listeners_on (w : SymphonyProxyWrap) (port : Z) : list (nat * ListenerState) :=
  List.filter (fun x => ls_port x.2 =? port) (enumerate (sp_states w)).

Definition check_protection_update (w : SymphonyProxyWrap) (update : Z * JsProtectionConfig) : list hot_error :=
  match listeners_on w update.1 with
  | [] => [NoListener update.1]
  | [(_, s)] => if negb (ls_protection s) then [WithoutProtection update.1] else []
  | _ => [SeveralListeners update.1]
  end.

Definition validate_protection (w : SymphonyProxyWrap) (updates : option (list (Z * JsProtectionConfig)))
    : result proxy_error (list (Z * ProtectionConfig)) :=
  match updates with
  | None => Ok []
  | Some updates =>
      let errors := concat (check_protection_update w <$> updates) in
      if negb (bool_decide (length errors = 0%nat)) then Err (HotErrors errors)
      else lift ProtectionError (try_map (fun u => cfg ← parse_protection_config u.2; Ok (u.1, cfg)) updates)
  end.

(** The listener and its new sources, or the error. *)
Definition check_ingress_update (w : SymphonyProxyWrap) (update : Z * list bytes)
    : result hot_error (nat * SourceAllowlist) :=
  match listeners_on w update.1 with
  | [] => Err (NoListener update.1)
  | [(i, s)] =>
      if negb (ls_ingress s) then Err (WithoutIngress update.1)
      else lift (HotSources update.1) (trusted ← parse_trusted_sources update.2; Ok (i, trusted))
  | _ => Err (SeveralListeners update.1)
  end.

Definition oks {E A} (l : list (result E A)) : list A := omap (fun r => match r with Ok a => Some a | Err _ => None end) l.
Definition errs {E A} (l : list (result E A)) : list E := omap (fun r => match r with Ok _ => None | Err e => Some e end) l.

Definition validate_ingress (w : SymphonyProxyWrap) (updates : option (list (Z * list bytes)))
    : result proxy_error (list (nat * SourceAllowlist)) :=
  match updates with
  | None => Ok []
  | Some updates =>
      let rs := check_ingress_update w <$> updates in
      if negb (bool_decide (length (errs rs) = 0%nat)) then Err (HotErrors (errs rs)) else Ok (oks rs)
  end.

Definition set_table (p : proc) (t : RouteTable) : proc :=
  mkProc (pc_listeners p) (pc_global p) (pc_routes p) (pc_protection p) (pc_ingress p) t (pc_registry p)
    (pc_shared p) (pc_fleet p) (pc_configs p) (pc_balancers p).
Definition set_ingress (p : proc) (i : nat) (s : IngressState) : proc :=
  mkProc (pc_listeners p) (pc_global p) (pc_routes p) (pc_protection p) (<[i := s]> (pc_ingress p)) (pc_table p)
    (pc_registry p) (pc_shared p) (pc_fleet p) (pc_configs p) (pc_balancers p).
(** What a build leaves behind even when its table is not used. *)
Definition after_build (w : SymphonyProxyWrap) (e : env) : SymphonyProxyWrap :=
  let p := sp_proc w in
  set_shared_state w (e_cache e) (e_next_identity e)
    (mkProc (pc_listeners p) (pc_global p) (pc_routes p) (pc_protection p) (pc_ingress p) (pc_table p)
       (pc_registry p) (e_shared e) (e_fleet e) (e_configs e) (pc_balancers p)).
Definition env_of (w : SymphonyProxyWrap) : env :=
  mkEnv (pc_shared (sp_proc w)) (pc_fleet (sp_proc w)) (sp_cache w) (pc_configs (sp_proc w)) (sp_next_identity w).

(** The new table, not yet swapped in. *)
Definition build_hot_table (su : surroundings) (w : SymphonyProxyWrap) (routes : option (list JsRouteConfig))
    : result proxy_error (option RouteTable) * SymphonyProxyWrap :=
  match routes with
  | None => (Ok None, w)
  | Some routes =>
      match try_map parse_route_spec routes with
      | Err e => (Err (ConfigError e), w)
      | Ok specs =>
          let current := pc_table (sp_proc w) in
          let '(table, e) := build_route_table (holding_table su current) (env_of w) specs
                               (sp_default_listener_tls w) (Some current) in
          (Ok (Some table), after_build w e)
      end
  end.

(** [self.listener_states.iter().find(|s| s.port == port)], its protection *)
Definition store_protection (w : SymphonyProxyWrap) (p : proc) (u : Z * ProtectionConfig) : proc :=
  match head (listeners_on w u.1) with
  | Some (i, _) => set_protection p i (reconfigure (protection_of p i) u.2)
  | None => p
  end.
Definition store_ingress (p : proc) (u : nat * SourceAllowlist) : proc :=
  set_ingress p u.1 (set_trusted (default (mkIngress []) (pc_ingress p !! u.1)) u.2).

Definition commit_table (su : surroundings) (w : SymphonyProxyWrap) (t : option RouteTable) : SymphonyProxyWrap :=
  match t with
  | None => w
  | Some t =>
      set_shared_state w (retain_used (su_held (holding_table su t)) (sp_cache w)) (sp_next_identity w)
        (set_table (sp_proc w) t)
  end.

Definition update_config (su : surroundings) (w : SymphonyProxyWrap) (hot : JsHotConfig)
    : result proxy_error unit * SymphonyProxyWrap :=
  match build_hot_table su w (jh_routes hot) with
  | (Err e, w1) => (Err e, w1)
  | (Ok table, w1) =>
      match validate_protection w1 (jh_protection hot) with
      | Err e => (Err e, w1)
      | Ok protection =>
          match validate_ingress w1 (jh_failover_ingress hot) with
          | Err e => (Err e, w1)
          | Ok ingress =>
              let w2 := commit_table su w1 table in
              let p := foldl (store_protection w2) (sp_proc w2) protection in
              let p := foldl store_ingress p ingress in
              (Ok tt, set_shared_state w2 (sp_cache w2) (sp_next_identity w2) p)
          end
      end
  end.

(** The same in the pieces a connection can tell apart: everything that can fail,
    and then the stores, one after the other. A swap of the table is kept with the
    routes it was built from. *)
Inductive commit : Type :=
  | SwapTable (routes : list JsRouteConfig) (t : RouteTable)
  | StoreProtection (u : Z * ProtectionConfig)
  | StoreIngress (u : nat * SourceAllowlist).

Definition commits (routes : list JsRouteConfig) (table : option RouteTable) (protection : list (Z * ProtectionConfig))
    (ingress : list (nat * SourceAllowlist)) : list commit :=
  match table with Some t => [SwapTable routes t] | None => [] end ++
  (StoreProtection <$> protection) ++ (StoreIngress <$> ingress).

Definition prepare_update (su : surroundings) (w : SymphonyProxyWrap) (hot : JsHotConfig)
    : result proxy_error (list commit) * SymphonyProxyWrap :=
  match build_hot_table su w (jh_routes hot) with
  | (Err e, w1) => (Err e, w1)
  | (Ok table, w1) =>
      (protection ← validate_protection w1 (jh_protection hot);
       ingress ← validate_ingress w1 (jh_failover_ingress hot);
       Ok (commits (default [] (jh_routes hot)) table protection ingress), w1)
  end.

Definition commit_one (su : surroundings) (w : SymphonyProxyWrap) (c : commit) : SymphonyProxyWrap :=
  match c with
  | SwapTable _ t => commit_table su w (Some t)
  | StoreProtection u => set_shared_state w (sp_cache w) (sp_next_identity w) (store_protection w (sp_proc w) u)
  | StoreIngress u => set_shared_state w (sp_cache w) (sp_next_identity w) (store_ingress (sp_proc w) u)
  end.

(** ** Answers *)

Inductive resolve_failure : Type :=
  | ResolveConfig (e : config_error)
  | ResolveBuild (e : resolve_error).

Section Texts.
Context (describe : resolve_failure -> bytes) (net_to_string : IpNetwork -> bytes).

Definition invalid_id_message (id : bytes) : bytes :=
  bs "resolveConnection: invalid connection id '" ++ id ++ bs "' (not a valid id, so it was never live)".
Definition failed_route_message (id : bytes) (f : resolve_failure) : bytes :=
  bs "resolveConnection(id=" ++ id ++ bs "): " ++ describe f.

(** The route of an answer, and what building it leaves in the proxy. *)
Definition answered_route (su : surroundings) (w : SymphonyProxyWrap) (r : JsResolveRoute)
    : result resolve_failure ResolvedRoute * SymphonyProxyWrap :=
  match parse_resolve_spec r with
  | Err e => (Err (ResolveConfig e), w)
  | Ok spec =>
      let p := sp_proc w in
      let '(built, c, st, sh) := build_resolved_route (su_ticketer su)
        (su_held (holding_table su (pc_table p))) (sp_cache w) (pc_configs p) (pc_shared p) spec in
      (lift ResolveBuild built,
       set_shared_state w c (sp_next_identity w)
         (mkProc (pc_listeners p) (pc_global p) (pc_routes p) (pc_protection p) (pc_ingress p) (pc_table p)
            (pc_registry p) sh (pc_fleet p) st (pc_balancers p)))
  end.

Definition deliver (w : SymphonyProxyWrap) (id : Z) (v : option ResolvedRoute) : SymphonyProxyWrap :=
  set_shared_state w (sp_cache w) (sp_next_identity w)
    (set_registry (sp_proc w) (resolve (pc_registry (sp_proc w)) id v)).

(** The events emitted; the call itself always succeeds. *)
Definition resolve_connection (su : surroundings) (w : SymphonyProxyWrap) (id : bytes) (route : option JsResolveRoute)
    : list JsEvent * SymphonyProxyWrap :=
  match parse_u64 id with
  | None => ([JsError (invalid_id_message id) []], w)
  | Some id_num =>
      if negb (contains (pc_registry (sp_proc w)) id_num) then ([], w)
      else
        match route with
        | None => ([], deliver w id_num None)
        | Some r =>
            match answered_route su w r with
            | (Ok resolved, w') => ([], deliver w' id_num (Some resolved))
            | (Err f, w') => ([JsError (failed_route_message id f) []], deliver w' id_num None)
            end
        end
  end.

(** ** Events *)

Inductive js_value : Type := JsText (s : bytes) | JsNumber (x : f64).

(** The object the application's listener is called with. *)
Definition event_object (e : JsEvent) : list (bytes * js_value) :=
  match e with
  | JsBlocked ip reason listener ja3 ja4 =>
      [(bs "type", JsText (bs "blocked")); (bs "ip", JsText ip); (bs "reason", JsText reason);
       (bs "listener", JsText listener); (bs "ja3", JsText ja3); (bs "ja4", JsText ja4)]
  | JsSuspended id sni peer_ip peer_port listener =>
      [(bs "type", JsText (bs "suspended")); (bs "id", JsText id); (bs "sni", JsText sni); (bs "peerIp", JsText peer_ip);
       (bs "peerPort", JsNumber (f64_of_Z peer_port)); (bs "listener", JsText listener)]
  | JsError message listener =>
      [(bs "type", JsText (bs "error")); (bs "message", JsText message); (bs "listener", JsText listener)]
  | JsRouteHealth route metrics_group up =>
      [(bs "type", JsText (bs "routeHealth")); (bs "route", JsText route); (bs "metricsGroup", JsText metrics_group);
       (bs "status", JsText (if up then bs "up" else bs "down"))]
  end.

(** ** Reports *)

Record JsBlockedIpsInfo : Type := mkBlockedIps {
  bi_rate_limited : gset bytes;
  bi_concurrency_limited : gset bytes;
  bi_cidr_blocklist : gset bytes;
  bi_penalty_boxed : gset bytes;
}.

Definition texts (ips : list IpAddr) : gset bytes := list_to_set (ip_to_string <$> ips).

Definition blocked_ips_of (now : Z) (acc : JsBlockedIpsInfo) (st : ProtectionState) : JsBlockedIpsInfo :=
  let '(rl, cl, pb) := blocked_ips st now in
  mkBlockedIps (bi_rate_limited acc ∪ texts rl) (bi_concurrency_limited acc ∪ texts cl)
    (bi_cidr_blocklist acc ∪ list_to_set (net_to_string <$> blocklist (config st)))
    (bi_penalty_boxed acc ∪ texts pb).

Definition protection_states (w : SymphonyProxyWrap) : list ProtectionState :=
  omap (fun x => if ls_protection x.2 then Some (protection_of (sp_proc w) x.1) else None) (enumerate (sp_states w)).

Definition all_blocked_ips (now : Z) (w : SymphonyProxyWrap) : JsBlockedIpsInfo :=
  foldl (blocked_ips_of now) (mkBlockedIps ∅ ∅ ∅ ∅) (protection_states w).
End Texts.

Definition JsLabeledCount : Type := bytes * f64.
Definition labeled_counts (counts : list (bytes * Z)) : list JsLabeledCount := (fun c => (c.1, f64_of_Z c.2)) <$> counts.

Record JsListenerMetrics : Type := mkJsLm {
  jlm_address : bytes;
  jlm_mode : bytes;
  jlm_active_connections : f64;
  jlm_half_closed_connections : f64;
  jlm_accepted : f64;
  jlm_blocked : f64;
  jlm_errors : f64;
  jlm_bytes_received : f64;
  jlm_bytes_sent : f64;
  jlm_blocked_by_reason : list JsLabeledCount;
  jlm_errors_by_reason : list JsLabeledCount;
  jlm_load_queries : f64;
}.

Record JsSpillMetrics : Type := mkJsSpillM { jsm_fraction : f64; jsm_target : option bytes; jsm_local_load : option f64 }.

Record JsFailoverPeerMetrics : Type := mkJsPeerM {
  jpm_peer : bytes;
  jpm_forwarded : f64;
  jpm_spilled : f64;
  jpm_cooling_down : bool;
  jpm_load : option f64;
  jpm_rtt_ms : option f64;
  jpm_failures_by_reason : list JsLabeledCount;
}.

Record JsRouteFailoverMetrics : Type := mkJsFm {
  jfm_local_up : bool;
  jfm_refusing_slots : f64;
  jfm_slots : f64;
  jfm_drain : bool;
  jfm_replays : f64;
  jfm_exhausted : f64;
  jfm_local_fallbacks : f64;
  jfm_spill : option JsSpillMetrics;
  jfm_peers : list JsFailoverPeerMetrics;
}.

Record JsRouteMetrics : Type := mkJsRm {
  jrm_route : bytes;
  jrm_metrics_group : bytes;
  jrm_active_connections : f64;
  jrm_connections : f64;
  jrm_blocked : f64;
  jrm_errors : f64;
  jrm_bytes_received : f64;
  jrm_bytes_sent : f64;
  jrm_blocked_by_reason : list JsLabeledCount;
  jrm_errors_by_reason : list JsLabeledCount;
  jrm_failover : option JsRouteFailoverMetrics;
}.

Record JsProxyMetrics : Type := mkJsPm {
  jpx_active_connections : f64;
  jpx_blocked_connections : f64;
  jpx_pending_suspended : f64;
  jpx_suspended_resolved : f64;
  jpx_suspended_unresolved : f64;
  jpx_routes : f64;
  jpx_failing_routes : f64;
  jpx_listeners : list JsListenerMetrics;
  jpx_route_metrics : list JsRouteMetrics;
}.

Definition listener_report (w : SymphonyProxyWrap) (x : nat * (InternalListener * ListenerState)) : JsListenerMetrics :=
  let '(i, (l, s)) := x in
  let m := listener_of (sp_proc w) i in
  let blocked_by_reason := lm_blocked_by_reason m in
  let errors_by_reason := lm_errors_by_reason m in
  mkJsLm (ls_addr s) (match il_mode l with ModeTls => bs "tls" | ModeHttp => bs "http" end)
    (f64_of_Z (lm_active m)) (f64_of_Z (lm_half_closed m)) (f64_of_Z (lm_total_accepted m))
    (f64_of_Z (total_of blocked_by_reason)) (f64_of_Z (total_of errors_by_reason))
    (f64_of_Z (lm_bytes_in m)) (f64_of_Z (lm_bytes_out m))
    (labeled_counts blocked_by_reason) (labeled_counts errors_by_reason) (f64_of_Z (lm_load_queries m)).

(** [SocketAddr::to_string] *)
Definition socket_addr_to_string (a : SocketAddr) : bytes :=
  match sa_ip a with
  | V4 _ => ip_to_string (sa_ip a) ++ [58] ++ to_decimal (sa_port a)
  | V6 _ => [91] ++ ip_to_string (sa_ip a) ++ [93; 58] ++ to_decimal (sa_port a)
  end.

(** [Duration::as_secs_f64] *)
Definition as_secs_f64 (ns : Z) : f64 :=
  f64_add (f64_of_Z (ns / 1000000000)) (f64_div (f64_of_Z (ns mod 1000000000)) (f64_of_Z 1000000000)).

Definition permille (l : Z * Z) : f64 := f64_div (f64_of_Z l.1) (f64_of_Z 1000).

Definition peer_metrics (fo : Failover) (now : Z) (p : FailoverPeer) : JsFailoverPeerMetrics :=
  mkJsPeerM (socket_addr_to_string (fp_addr p)) (f64_of_Z (fp_forwarded p)) (f64_of_Z (fp_spilled p)) (cooling_down p now)
    (match peer_report p with
     | Some r => if now / 1000000 <? u64_wrapping_add r.2 (report_ttl_ms fo) then Some (permille r) else None
     | None => None
     end)
    ((fun ns => f64_mul (as_secs_f64 ns) (f64_of_Z 1000)) <$> rtt p)
    (labeled_counts (failures_by_reason p)).

(** [load_get] reads a balancer's smoothed load. *)
Definition failover_metrics (load_get : nat -> Z -> option (Z * Z)) (now : Z) (p : proc) (identity : nat)
    : option JsRouteFailoverMetrics :=
  route ← find_first (fun r => (fr_identity r =? identity)%nat) (failover_routes (pc_table p));
  let fo := fr_failover route in
  let '(refusing, slots) := slot_counts (pc_shared p) route in
  let status := status_at (pc_fleet p) (fo_status fo) in
  let spill := (fun x => mkJsSpillM x.1 (socket_addr_to_string <$> x.2)
                 (permille <$> route_load load_get (fr_destination route) (fr_destination_h2 route) now))
               <$> spill_status (pc_fleet p) fo now in
  Some (mkJsFm (negb (route_locally_down (pc_shared p) route)) (f64_of_Z (Z.of_nat refusing)) (f64_of_Z (Z.of_nat slots))
          (fo_drain fo) (f64_of_Z (replays status)) (f64_of_Z (exhausted status)) (f64_of_Z (local_fallbacks status))
          spill ((fun i => peer_metrics fo now (peer_at (pc_fleet p) i)) <$> fo_peers fo)).

Definition route_report (load_get : nat -> Z -> option (Z * Z)) (now : Z) (p : proc) (identity : RouteMetricIdentity)
    : JsRouteMetrics :=
  let m := route_of p (mi_id identity) in
  let blocked_by_reason := rm_blocked_by_reason m in
  let errors_by_reason := rm_errors_by_reason m in
  mkJsRm (mi_route identity) (mi_group identity) (f64_of_Z (rm_active m)) (f64_of_Z (rm_total m))
    (f64_of_Z (total_of blocked_by_reason)) (f64_of_Z (total_of errors_by_reason))
    (f64_of_Z (rm_bytes_in m)) (f64_of_Z (rm_bytes_out m))
    (labeled_counts blocked_by_reason) (labeled_counts errors_by_reason)
    (failover_metrics load_get now p (mi_id identity)).

(** The sum of no values is zero, whichever its sign. *)
Definition metrics (load_get : nat -> Z -> option (Z * Z)) (now : Z) (w : SymphonyProxyWrap) : JsProxyMetrics :=
  let p := sp_proc w in
  let listeners := listener_report w <$> enumerate (zip (sp_listeners w) (sp_states w)) in
  let g := pc_global p in
  mkJsPm (f64_of_Z (gm_active g)) (foldl f64_add f64_zero (jlm_blocked <$> listeners))
    (f64_of_Z (gm_pending_suspended g)) (f64_of_Z (gm_suspended_resolved g)) (f64_of_Z (gm_suspended_unresolved g))
    (f64_of_Z (Z.of_nat (route_count (pc_table p)))) (f64_of_Z (Z.of_nat (failing_route_count (pc_table p))))
    listeners (route_report load_get now p <$> metric_identities (pc_table p)).
End Proxy.
