(* ===== verification/ProxyLife.v ===== *)
(** * The life of a proxy (src/src/proxy.rs, with the builders of src/src/router.rs)

    What the calls of Proxy.v promise. Building a route table allocates cells and
    never writes one that exists ([grows]), which is what makes a refused update
    invisible to the running proxy. *)

From Stdlib Require Import SpecFloat.
From S2P Require Import Prelude Bytes Float64 Net IpText TokenBucket Sni Tls Protection ProxyProtocol Balancer BalancerState Metrics Failover Router HttpHead Forwarding Task Suspended Liveness Sockets Connection HttpListener Config Proxy.

Open Scope Z_scope.

Section ProxyLife.
Context `{TlsLib} `{Digests} `{NetLib} `{Lowercase}.

(** ** What a build allocates *)

Definition same_below {A} (n : nat) (m m' : gmap nat A) : Prop := forall i, (i < n)%nat -> m' !! i = m !! i.

Definition shared_grows (sh sh' : shared) : Prop :=
  (next_cell sh <= next_cell sh')%nat /\ same_below (next_cell sh) (healths sh) (healths sh') /\
  same_below (next_cell sh) (cpus sh) (cpus sh').
(** What the application was told of a route: a new one has been reported up. *)
Definition fresh_statuses (fl : fleet) : Prop :=
  forall c, (next_fleet fl <= c)%nat -> reported_down (status_at fl c) = false.
Definition statuses_kept (fl fl' : fleet) : Prop :=
  fresh_statuses fl ->
  fresh_statuses fl' /\ forall c, reported_down (status_at fl' c) = reported_down (status_at fl c).
Definition fleet_grows (fl fl' : fleet) : Prop :=
  (next_fleet fl <= next_fleet fl')%nat /\ same_below (next_fleet fl) (peer_cells fl) (peer_cells fl') /\
  same_below (next_fleet fl) (spill_cells fl) (spill_cells fl') /\
  same_below (next_fleet fl) (status_cells fl) (status_cells fl') /\ statuses_kept fl fl'.
Definition store_grows (st st' : config_store) : Prop :=
  (next_config st <= next_config st')%nat /\ same_below (next_config st) (configs st) (configs st').
Definition grows (e e' : env) : Prop :=
  shared_grows (e_shared e) (e_shared e') /\ fleet_grows (e_fleet e) (e_fleet e') /\
  store_grows (e_configs e) (e_configs e') /\ (e_next_identity e <= e_next_identity e')%nat.

Lemma same_below_trans {A} n n' (m m' m'' : gmap nat A) :
  (n <= n')%nat -> same_below n m m' -> same_below n' m' m'' -> same_below n m m''.
Proof. intros Hn H1' H2' i Hi. rewrite H2' by lia. by apply H1'. Qed.

Lemma same_below_insert {A} n (m : gmap nat A) x : same_below n m (<[n := x]> m).
Proof. intros i Hi. apply lookup_insert_ne. lia. Qed.

Lemma statuses_kept_trans fl fl' fl'' : statuses_kept fl fl' -> statuses_kept fl' fl'' -> statuses_kept fl fl''.
Proof. intros H1' H2' Hf. destruct (H1' Hf) as [Hf' He]. destruct (H2' Hf') as [Hf'' He']. split; [done |]. intros c. by rewrite He', He. Qed.

(** A cell more, but no status. *)
Lemma statuses_kept_alloc fl fl' :
  status_cells fl' = status_cells fl -> (next_fleet fl <= next_fleet fl')%nat -> statuses_kept fl fl'.
Proof.
  intros Hs Hn Hf. split; [|intros c; unfold status_at; by rewrite Hs].
  intros c Hc. unfold status_at. rewrite Hs. apply Hf. lia.
Qed.

Lemma statuses_kept_new fl p sp :
  statuses_kept fl (mkFleet p sp (<[next_fleet fl := FailoverStatus_default]> (status_cells fl)) (S (next_fleet fl))).
Proof.
  intros Hf. split.
  - intros c Hc. unfold status_at. simpl in *. rewrite lookup_insert_ne by lia. apply Hf. lia.
  - intros c. unfold status_at at 1. simpl. destruct (decide (next_fleet fl = c)) as [<-|Hne].
    + rewrite lookup_insert_eq. by rewrite Hf by lia.
    + by rewrite lookup_insert_ne.
Qed.

#[local] Instance shared_grows_preorder : PreOrder shared_grows.
Proof.
  split; [by intros sh; repeat split |]. intros a b c (? & ? & ?) (? & ? & ?).
  split_and!; [lia | by eapply same_below_trans ..].
Qed.
#[local] Instance fleet_grows_preorder : PreOrder fleet_grows.
Proof.
  split; [by intros sh; split_and!; [| | | | by apply statuses_kept_alloc] |].
  intros a b c (? & ? & ? & ? & ?) (? & ? & ? & ? & ?).
  split_and!; [lia | by eapply same_below_trans .. | by eapply statuses_kept_trans].
Qed.
#[local] Instance store_grows_preorder : PreOrder store_grows.
Proof.
  split; [by intros sh; repeat split |]. intros a b c (? & ?) (? & ?). split; [lia | by eapply same_below_trans].
Qed.
#[local] Instance grows_preorder : PreOrder grows.
Proof.
  split; [by intros e; split_and! |]. intros a b c (? & ? & ? & ?) (? & ? & ? & ?).
  split_and!; [by etrans .. | lia].
Qed.

Lemma new_health_grows sh r now : shared_grows sh (new_health sh r now).2.
Proof. split_and!; simpl; [lia | apply same_below_insert | done]. Qed.

Lemma new_cpu_grows sh path pid tid : shared_grows sh (new_cpu sh path pid tid).2.
Proof. split_and!; simpl; [lia | done | apply same_below_insert]. Qed.

Lemma next_cell_grows sh : shared_grows sh (mkShared (healths sh) (cpus sh) (S (next_cell sh))).
Proof. split_and!; simpl; [lia | done | done]. Qed.

(** Name the result of a call, with what the lemma says of it. *)
Ltac grown lem := let Hg := fresh "Hg" in pose proof lem as Hg;
  match type of Hg with context [snd ?c] => destruct c as [? ?] eqn:?; cbn [fst snd] in Hg |- * end.

Lemma new_slots_grows sh specs : shared_grows sh (new_slots sh specs).2.
Proof.
  revert sh. induction specs as [|s specs IH]; intros sh; cbn [new_slots]; [done |].
  assert (shared_grows sh (match spec_pid s, spec_tid s with
    | Some pid, Some tid => let '(c, sh') := new_cpu sh (spec_path s) pid tid in (Some c, sh')
    | _, _ => (None, sh) end).2) as Hc.
  { destruct (spec_pid s) as [pid|]; [|done]. destruct (spec_tid s) as [tid|]; [|done]. apply new_cpu_grows. }
  destruct (match spec_pid s with Some _ => _ | None => _ end) as [cpu sh1]. simpl in Hc.
  grown (IH sh1). by etrans.
Qed.

Lemma UdsBalancer_new_grows sh specs a ttl : shared_grows sh (UdsBalancer_new sh specs a ttl).2.
Proof. unfold UdsBalancer_new. grown (new_slots_grows sh specs). etrans; [done | apply next_cell_grows]. Qed.

Lemma track_slots_grows sh previous refuse_new now slots :
  shared_grows sh (track_slots sh previous refuse_new now slots).2.
Proof.
  revert sh. induction slots as [|s slots IH]; intros sh; cbn [track_slots]; [done |].
  destruct (inherited_health previous (slot_path s)) as [h|].
  - by grown (IH sh).
  - grown (new_health_grows sh refuse_new now). grown (IH s0). by etrans.
Qed.

Lemma with_health_grows sh b previous refuse_new now : shared_grows sh (with_health sh b previous refuse_new now).2.
Proof. unfold with_health. by grown (track_slots_grows sh previous refuse_new now (sockets b)). Qed.

Lemma retracked_grows sh b track now : shared_grows sh (retracked sh b track now).2.
Proof.
  unfold retracked. destruct (match affinity b with Some a => _ | None => _ end) as [aff ttl].
  grown (UdsBalancer_new_grows sh (spec_of_slot sh <$> sockets b) aff ttl).
  destruct track; [|done]. etrans; [done | apply with_health_grows].
Qed.

Lemma build_destination_for_grows sh now us prev track refuse :
  shared_grows sh (build_destination_for sh now us prev track refuse).2.
Proof.
  unfold build_destination_for. destruct us as [|[host port|paths pids tids aff ttl proto] us]; [done | done |].
  destruct (foldl uds_affinity _ _) as [aff' ttl'].
  grown (UdsBalancer_new_grows sh (concat (uds_slots <$> UUds paths pids tids aff ttl proto :: us)) aff' ttl').
  destruct track; [|done]. grown (with_health_grows s (with_cpu_from s u prev) prev refuse now). by etrans.
Qed.

Lemma build_destinations_grows sh now spec inherit : shared_grows sh (build_destinations sh now spec inherit).2.
Proof.
  unfold build_destinations. destruct (_ || _); [done |]. destruct (List.filter _ _) as [|u us]; [done |].
  match goal with |- context [build_destination_for sh now ?us ?p ?t ?r] =>
    grown (build_destination_for_grows sh now us p t r) end.
  destruct r; [|done]. destruct (List.filter is_h2 _) as [|u' us']; [done |].
  match goal with |- context [build_destination_for s now ?us ?p ?t ?r] =>
    grown (build_destination_for_grows s now us p t r) end. by etrans.
Qed.

Lemma get_or_build_grows tk held c st cert mtls h2 : store_grows st (get_or_build tk held c st cert mtls h2).2.
Proof.
  unfold get_or_build, lookup_or_build. destruct (cache c !! _); [done |].
  destruct (build_server_config _ _ _ _); [|done]. split; simpl; [lia | apply same_below_insert].
Qed.

Lemma build_tls_grows su e spec lt : grows e (build_tls su e spec lt).2.
Proof.
  unfold build_tls. destruct (rs_terminate_tls spec); [|done]. destruct (or_opt _ _) as [cert|]; [|done].
  destruct (or_opt _ _) as [key|]; [|done].
  match goal with |- context [get_or_build ?a ?b ?c ?d ?e ?f ?g] => pose proof (get_or_build_grows a b c d e f g) as Hg;
    destruct (get_or_build a b c d e f g) as [[r c'] st'] end. simpl in *. by split_and!.
Qed.

Lemma with_shared_grows e sh : shared_grows (e_shared e) sh -> grows e (with_shared e sh).
Proof. intros Hs. by split_and!. Qed.

Lemma build_route_grows su e spec lt inherit : grows e (build_route su e spec lt inherit).2.
Proof.
  unfold build_route. grown (build_tls_grows su e spec lt). destruct r as [tls|]; [|done].
  grown (build_destinations_grows (e_shared e0) (su_now su) spec inherit).
  assert (grows e (with_shared e0 s)) as Hs by (etrans; [done | by apply with_shared_grows]).
  destruct r as [[d h2]|]; [|done]. destruct (check_h2 _ _); [|done].
  destruct Hs as (Hs & Hf & Hc & Hi). simpl in *. split_and!; simpl; try done. lia.
Qed.

Lemma dest_retracked_grows sh now track d : shared_grows sh (dest_retracked sh now track d).2.
Proof. destruct d as [a|b]; simpl; [done |]. by grown (retracked_grows sh b track now). Qed.

Lemma retrack_grows sh now carried r track : shared_grows sh (retrack sh now carried r track).2.
Proof.
  unfold retrack. destruct (_ && _); [|done]. grown (dest_retracked_grows sh now track (rt_destination r)).
  destruct (rt_destination_h2 r) as [d2|]; [|done]. grown (dest_retracked_grows s now track d2). by etrans.
Qed.

Lemma tcp_health_of_grows sh now prev down d : shared_grows sh (tcp_health_of sh now prev down d).2.
Proof.
  unfold tcp_health_of. destruct d as [addr|b]; [|done]. destruct (_ ≫= _); [done |].
  by grown (new_health_grows sh down now).
Qed.

Lemma adopt_peers_grows fl previous addrs : fleet_grows fl (adopt_peers fl previous addrs).2.
Proof.
  revert fl. induction addrs as [|addr addrs IH]; intros fl; cbn [adopt_peers]; [done |].
  destruct (find_first _ previous) as [p|]; [by grown (IH fl) |]. cbv zeta.
  match goal with |- context [adopt_peers ?f previous addrs] => grown (IH f) end. etrans; [|done].
  split_and!; simpl; [lia | apply same_below_insert | done | done | apply statuses_kept_alloc; simpl; lia || done].
Qed.

Lemma Failover_new_grows fl policy previous h same : fleet_grows fl (Failover_new fl policy previous h same).2.
Proof.
  unfold Failover_new.
  match goal with |- context [adopt_peers fl ?p ?a] => grown (adopt_peers_grows fl p a) end.
  assert (forall fl', fleet_grows fl fl' -> fleet_grows fl (match previous with
    | Some p => (fo_status p, fl')
    | None => let i := next_fleet fl' in (i, mkFleet (peer_cells fl') (spill_cells fl')
        (<[i := FailoverStatus_default]> (status_cells fl')) (S i)) end).2) as Hst.
  { intros fl' Hfl. destruct previous; [done |]. etrans; [done |].
    split_and!; simpl; [lia | done | done | apply same_below_insert | apply statuses_kept_new]. }
  assert (forall sp, fleet_grows fl (match (prev ← previous; continue_spill fl prev sp (pol_peers policy) same) with
    | Some cell => (Some (sp, cell), f)
    | None => let i := next_fleet f in (Some (sp, i), mkFleet (peer_cells f)
        (<[i := SpillState_default]> (spill_cells f)) (status_cells f) (S i)) end).2) as Hsp.
  { intros sp. destruct (_ ≫= _); [done |]. etrans; [done |].
    split_and!; simpl; [lia | done | apply same_below_insert | done | apply statuses_kept_alloc; simpl; lia || done]. }
  destruct (pol_spill policy) as [sp|].
  - specialize (Hsp sp). destruct (match (_ ≫= _) with Some _ => _ | None => _ end) as [spill fl2]. simpl in Hsp.
    specialize (Hst fl2 Hsp). destruct previous; exact Hst.
  - specialize (Hst f Hg). destruct previous; exact Hst.
Qed.

Lemma finish_route_grows su e spec prev down sources policy carried r :
  grows e (finish_route su e spec prev down sources policy carried r).2.
Proof.
  unfold finish_route.
  pose proof (retrack_grows (e_shared e) (su_now su) carried r (bool_decide (is_Some policy))) as Hs.
  destruct (retrack _ _ _ _ _) as [[d h2] sh1]. simpl in Hs. cbv zeta. destruct policy as [policy|]; simpl.
  - grown (tcp_health_of_grows sh1 (su_now su) prev down d).
    match goal with |- context [Failover_new ?a ?b ?c ?d ?e] => grown (Failover_new_grows a b c d e) end.
    split_and!; simpl; [by etrans | done | done | done].
  - by apply with_shared_grows.
Qed.

Lemma spec_outcome_grows su lt previous e spec : grows e (spec_outcome su lt previous e spec).2.
Proof.
  unfold spec_outcome. destruct (validate_route_protocol_declaration spec); [|done].
  destruct (SourceAllowlist_parse _) as [sources|]; [|done]. cbv zeta.
  destruct (failover_policy spec) as [[policy bf] bsp].
  match goal with |- context [build_route su e spec lt ?i] => grown (build_route_grows su e spec lt i) end.
  destruct r as [r|].
  - match goal with |- context [finish_route ?a ?b ?c ?d ?e ?f ?g ?h ?i] =>
      grown (finish_route_grows a b c d e f g h i) end. by etrans.
  - destruct (carry_forward previous spec _) as [r|]; [|done].
    match goal with |- context [finish_route ?a ?b ?c ?d ?e ?f ?g ?h ?i] =>
      grown (finish_route_grows a b c d e f g h i) end. by etrans.
Qed.

Lemma build_route_table_grows su e specs lt previous : grows e (build_route_table su e specs lt previous).2.
Proof.
  unfold build_route_table.
  assert (forall entries acc, grows e acc.2 ->
    grows e (foldl (build_step su lt previous (last_exact specs)) acc entries).2) as Hfold.
  { intros entries. induction entries as [|[i spec] entries IH]; intros [b e1] Hacc; [done |]. simpl. apply IH.
    destruct (decides _ _ _ _); [|done].
    grown (spec_outcome_grows (holding su b) lt previous e1 spec). simpl in Hacc. by etrans. }
  specialize (Hfold (enumerate specs) (builder_new, clear_cache su e)).
  destruct (foldl _ _ _) as [b e']. simpl in *. apply Hfold. by split_and!.
Qed.

(** ** A refused update *)

(** Nothing a running connection can see has changed: the settings, the tasks,
    the route table, protection, ingress, metrics and parked connections, and
    every cell and TLS configuration there was. *)
Definition undisturbed (w w' : SymphonyProxyWrap) : Prop :=
  w' = set_shared_state w (sp_cache w') (sp_next_identity w') (sp_proc w') /\
  pc_listeners (sp_proc w') = pc_listeners (sp_proc w) /\ pc_global (sp_proc w') = pc_global (sp_proc w) /\
  pc_routes (sp_proc w') = pc_routes (sp_proc w) /\ pc_protection (sp_proc w') = pc_protection (sp_proc w) /\
  pc_ingress (sp_proc w') = pc_ingress (sp_proc w) /\ pc_table (sp_proc w') = pc_table (sp_proc w) /\
  pc_registry (sp_proc w') = pc_registry (sp_proc w) /\ pc_balancers (sp_proc w') = pc_balancers (sp_proc w) /\
  grows (env_of w) (env_of w').

Lemma undisturbed_refl w : undisturbed w w.
Proof. split_and!; try done. by destruct w. Qed.

Lemma build_hot_table_undisturbed su w routes : undisturbed w (build_hot_table su w routes).2.
Proof.
  unfold build_hot_table. destruct routes as [routes|]; [|apply undisturbed_refl].
  destruct (try_map parse_route_spec routes) as [specs|]; [|apply undisturbed_refl].
  grown (build_route_table_grows (holding_table su (pc_table (sp_proc w))) (env_of w) specs
    (sp_default_listener_tls w) (Some (pc_table (sp_proc w)))).
  split_and!; try done.
Qed.

(** ** An accepted update *)

Lemma listeners_on_elem w port i s : (i, s) ∈ listeners_on w port <-> sp_states w !! i = Some s /\ ls_port s = port.
Proof.
  unfold listeners_on. rewrite list_elem_of_In, filter_In, <- list_elem_of_In, elem_of_enumerate, Z.eqb_eq. done.
Qed.

(** The one listener of an update's port, for every listener of the proxy. *)
Lemma listeners_on_one w port j s' i s :
  listeners_on w port = [(j, s')] -> sp_states w !! i = Some s -> (i = j <-> ls_port s = port).
Proof.
  intros Hone Hi. assert ((j, s') ∈ listeners_on w port) as [Hj Hp]%listeners_on_elem
    by (rewrite Hone; by apply list_elem_of_singleton).
  split; [intros ->; by rewrite Hj in Hi; injection Hi as -> |].
  intros Hs. assert ((i, s) ∈ listeners_on w port) as Hin by by apply listeners_on_elem.
  rewrite Hone in Hin. by apply list_elem_of_singleton in Hin as [= -> ->].
Qed.

Lemma last_with_snoc {A} (p : A -> bool) l x :
  last_with p (l ++ [x]) = if p x then Some x else last_with p l.
Proof. unfold last_with. by rewrite rev_app_distr. Qed.

Definition on_port (s : ListenerState) {A} (u : Z * A) : bool := u.1 =? ls_port s.

Lemma store_protection_spec w p us i s :
  sp_states w !! i = Some s -> Forall (fun u => exists x, listeners_on w u.1 = [x]) us ->
  protection_of (foldl (store_protection w) p us) i =
  match last_with (on_port s) us with
  | Some u => reconfigure (protection_of p i) u.2
  | None => protection_of p i
  end.
Proof.
  intros Hi. induction us as [|u us IH] using rev_ind; intros Hus; [done |].
  apply Forall_app in Hus as [Hus [[[j s'] Hj] _]%Forall_cons_iff]. rewrite foldl_app, last_with_snoc. simpl.
  unfold store_protection at 1. rewrite Hj. simpl. rewrite protection_of_set. unfold on_port at 1.
  pose proof (listeners_on_one w u.1 j s' i s Hj Hi) as Hone. destruct (Z.eqb_spec u.1 (ls_port s)) as [Heq|Hne].
  - assert (i = j) as <- by (by apply Hone). rewrite decide_True by done. rewrite IH by done.
    by destruct (last_with _ us).
  - rewrite decide_False by (intros ->; by apply Hne; symmetry; apply Hone). by apply IH.
Qed.

Lemma store_protection_rest w p us :
  let p' := foldl (store_protection w) p us in
  pc_ingress p' = pc_ingress p /\ pc_table p' = pc_table p /\ pc_registry p' = pc_registry p.
Proof.
  revert p. induction us as [|u us IH]; intros p; [done |]. simpl. destruct (IH (store_protection w p u)) as (-> & -> & ->).
  unfold store_protection. by destruct (head _) as [[] |].
Qed.

Lemma store_ingress_spec p us i :
  pc_ingress (foldl store_ingress p us) !! i =
  match last_with (fun u => u.1 =? i)%nat us with Some u => Some (mkIngress u.2) | None => pc_ingress p !! i end.
Proof.
  induction us as [|u us IH] using rev_ind; [done |]. rewrite foldl_app, last_with_snoc. simpl.
  destruct (Nat.eqb_spec u.1 i) as [->|Hne]; [by rewrite lookup_insert_eq | by rewrite lookup_insert_ne].
Qed.

Lemma store_ingress_rest p us :
  let p' := foldl store_ingress p us in
  pc_protection p' = pc_protection p /\ pc_table p' = pc_table p /\ pc_registry p' = pc_registry p.
Proof. revert p. induction us as [|u us IH]; intros p; [done |]. simpl. by destruct (IH (store_ingress p u)) as (-> & -> & ->). Qed.

Lemma last_with_Forall2 {A B} (R : A -> B -> Prop) (p : A -> bool) (q : B -> bool) l k :
  Forall2 R l k -> (forall x y, R x y -> p x = q y) ->
  match last_with p l, last_with q k with
  | Some x, Some y => R x y
  | None, None => True
  | _, _ => False
  end.
Proof.
  intros HR Hpq. unfold last_with. assert (Forall2 R (rev l) (rev k)) as Hrev.
  { clear Hpq. induction HR as [|x y l k Hxy _ IH]; simpl; [constructor |].
    apply Forall2_app; [done | by repeat constructor]. }
  induction Hrev as [|x y l' k' Hxy _ IH]; simpl; [done |]. rewrite (Hpq x y Hxy). by destruct (q y).
Qed.

Lemma check_errors_nil {A E} (f : A -> list E) l :
  length (concat (f <$> l)) = 0%nat -> Forall (fun a => f a = []) l.
Proof.
  induction l as [|a l IH]; [constructor |]. simpl. rewrite length_app. intros [Hl Hl']%Nat.eq_add_0. constructor.
  - by apply length_zero_iff_nil.
  - by apply IH.
Qed.

Lemma validate_protection_spec w ups us :
  validate_protection w ups = Ok us ->
  Forall2 (fun u u' => u'.1 = u.1 /\ parse_protection_config u.2 = Ok u'.2) (default [] ups) us /\
  Forall (fun u => exists x, listeners_on w u.1 = [x] /\ ls_protection x.2 = true) us.
Proof.
  unfold validate_protection. destruct ups as [ups|]; [|intros [= <-]; split; constructor].
  destruct (bool_decide _) eqn:He; [|done]. simpl. intros Hm. apply bool_decide_eq_true, check_errors_nil in He.
  destruct (try_map _ ups) as [us'|] eqn:Ht; [|done]. simpl in Hm. injection Hm as ->. apply try_map_Ok in Ht.
  assert (Forall2 (fun u u' => u'.1 = u.1 /\ parse_protection_config u.2 = Ok u'.2) ups us) as HF.
  { eapply Forall2_impl; [|exact Ht]. intros u u' Hu. simpl in Hu.
    destruct (parse_protection_config u.2) as [c|] eqn:Hp; [|done]. simpl in Hu. injection Hu as <-. by rewrite <- Hp. }
  split; [done |]. apply Forall_lookup. intros k u' Hu'. destruct (Forall2_lookup_r _ _ _ _ _ HF Hu') as (u & Hu & Heq & _).
  pose proof (Forall_lookup_1 _ _ _ _ He Hu) as Hc. unfold check_protection_update in Hc. rewrite Heq.
  destruct (listeners_on w u.1) as [|[i s] [|]]; try done. exists (i, s). split; [done |]. simpl.
  by destruct (ls_protection s).
Qed.

Lemma no_errs {E A} (rs : list (result E A)) : length (errs rs) = 0%nat -> rs = Ok <$> oks rs.
Proof. induction rs as [|[a|e] rs IH]; [done | |done]. intros Hl. simpl. f_equal. by apply IH. Qed.

Lemma validate_ingress_spec w ups us :
  validate_ingress w ups = Ok us -> Forall2 (fun u u' => check_ingress_update w u = Ok u') (default [] ups) us.
Proof.
  unfold validate_ingress. destruct ups as [ups|]; [|intros [= <-]; constructor]. cbv zeta.
  destruct (bool_decide _) eqn:He; [|done]. intros [= <-]. apply bool_decide_eq_true, no_errs in He.
  simpl. apply Forall2_fmap_l with (f := check_ingress_update w) (P := fun r u' => r = Ok u'). rewrite He at 1.
  apply Forall2_fmap_l. generalize (oks (check_ingress_update w <$> ups)). intros l. clear He.
  induction l as [|x l IH]; [apply Forall2_nil | by apply Forall2_cons].
Qed.

Lemma check_ingress_spec w u u' :
  check_ingress_update w u = Ok u' ->
  exists s, listeners_on w u.1 = [(u'.1, s)] /\ ls_ingress s = true /\ parse_trusted_sources u.2 = Ok u'.2.
Proof.
  unfold check_ingress_update. destruct (listeners_on w u.1) as [|[i s] [|]]; try done.
  destruct (ls_ingress s) eqn:Hs; [|done]. simpl. destruct (parse_trusted_sources u.2) as [t|] eqn:Ht; [|done].
  simpl. intros [= <-]. by exists s.
Qed.

(** What an accepted update leaves: the table its routes build, and for each
    listener the settings of the last update that names its port, as they parse;
    the addresses protection knows stay, and so do the parked connections. *)
Definition installed (su : surroundings) (w : SymphonyProxyWrap) (hot : JsHotConfig) (w' : SymphonyProxyWrap) : Prop :=
  let p := sp_proc w in
  let p' := sp_proc w' in
  match jh_routes hot with
  | None => pc_table p' = pc_table p
  | Some routes => exists specs, try_map parse_route_spec routes = Ok specs /\
      pc_table p' = (build_route_table (holding_table su (pc_table p)) (env_of w) specs
                       (sp_default_listener_tls w) (Some (pc_table p))).1
  end /\
  (forall i s, sp_states w !! i = Some s ->
     match last_with (on_port s) (default [] (jh_protection hot)) with
     | Some u => exists c, parse_protection_config u.2 = Ok c /\
                   protection_of p' i = reconfigure (protection_of p i) c /\ ls_protection s = true
     | None => protection_of p' i = protection_of p i
     end /\
     match last_with (on_port s) (default [] (jh_failover_ingress hot)) with
     | Some u => exists t, parse_trusted_sources u.2 = Ok t /\ pc_ingress p' !! i = Some (mkIngress t) /\ ls_ingress s = true
     | None => pc_ingress p' !! i = pc_ingress p !! i
     end) /\
  pc_registry p' = pc_registry p /\ sp_running w' = sp_running w /\ sp_states w' = sp_states w.

Lemma hot_table_spec su w routes table w1 :
  build_hot_table su w routes = (Ok table, w1) ->
  match routes with
  | None => table = None
  | Some routes => exists specs, try_map parse_route_spec routes = Ok specs /\
      table = Some (build_route_table (holding_table su (pc_table (sp_proc w))) (env_of w) specs
                      (sp_default_listener_tls w) (Some (pc_table (sp_proc w)))).1
  end.
Proof.
  unfold build_hot_table. destruct routes as [routes|]; [|by intros [= <-]].
  destruct (try_map parse_route_spec routes) as [specs|]; [|done].
  destruct (build_route_table _ _ _ _ _) as [t e] eqn:Et. intros [= <- _]. exists specs. by rewrite Et.
Qed.

Lemma commit_protection su w w1 t i : protection_of (sp_proc (commit_table su w t)) i = protection_of (sp_proc w) i /\
  pc_ingress (sp_proc (commit_table su w t)) = pc_ingress (sp_proc w) /\
  pc_registry (sp_proc (commit_table su w t)) = pc_registry (sp_proc w) /\
  sp_states (commit_table su w t) = sp_states w /\ sp_running (commit_table su w t) = sp_running w /\
  pc_table (sp_proc (commit_table su w1 t)) = default (pc_table (sp_proc w1)) t.
Proof. by destruct t. Qed.

Lemma listeners_on_states w w' port : sp_states w' = sp_states w -> listeners_on w' port = listeners_on w port.
Proof. unfold listeners_on. by intros ->. Qed.

(** The stores of one accepted update, seen from one listener. *)
Lemma stored_protection w w2 ups us i s :
  sp_states w2 = sp_states w -> validate_protection w ups = Ok us -> sp_states w !! i = Some s ->
  match last_with (on_port s) (default [] ups) with
  | Some u => exists c, parse_protection_config u.2 = Ok c /\
      protection_of (foldl (store_protection w2) (sp_proc w2) us) i = reconfigure (protection_of (sp_proc w2) i) c /\
      ls_protection s = true
  | None => protection_of (foldl (store_protection w2) (sp_proc w2) us) i = protection_of (sp_proc w2) i
  end.
Proof.
  intros Hst Hv Hi. destruct (validate_protection_spec _ _ _ Hv) as [HF Hone].
  rewrite (store_protection_spec w2 _ us i s).
  - pose proof (last_with_Forall2 _ (on_port s) (on_port s) _ _ HF) as Hl.
    specialize (Hl ltac:(intros x y [Heq _]; unfold on_port; by rewrite Heq)).
    destruct (last_with (on_port s) us) as [u'|] eqn:Hu'.
    + destruct (last_with (on_port s) (default [] ups)) as [u|]; [|done]. destruct Hl as [_ Hp]. exists u'.2.
      split_and!; [done | done |]. unfold last_with in Hu'. apply find_first_Some in Hu' as [Hin Hport].
      apply list_elem_of_In, in_rev in Hin.
      destruct (proj1 (Forall_forall _ _) Hone u' Hin) as ([j s'] & Hj & Hprot). unfold on_port in Hport.
      apply Z.eqb_eq in Hport. assert ((i, s) ∈ listeners_on w u'.1) as Hs by (by apply listeners_on_elem).
      rewrite Hj in Hs. by apply list_elem_of_singleton in Hs as [= -> ->].
    + by destruct (last_with (on_port s) (default [] ups)).
  - by rewrite Hst.
  - eapply Forall_impl; [|exact Hone]. intros u (x & Hx & _). exists x. by rewrite (listeners_on_states w w2).
Qed.

Lemma stored_ingress w p ups us i s :
  validate_ingress w ups = Ok us -> sp_states w !! i = Some s ->
  match last_with (on_port s) (default [] ups) with
  | Some u => exists t, parse_trusted_sources u.2 = Ok t /\
      pc_ingress (foldl store_ingress p us) !! i = Some (mkIngress t) /\ ls_ingress s = true
  | None => pc_ingress (foldl store_ingress p us) !! i = pc_ingress p !! i
  end.
Proof.
  intros Hv Hi. apply validate_ingress_spec in Hv. rewrite store_ingress_spec.
  pose proof (last_with_Forall2 _ (on_port s) (fun u => u.1 =? i)%nat _ _ Hv) as Hl. cbv beta in Hl.
  assert (forall x y, check_ingress_update w x = Ok y -> on_port s x = (y.1 =? i)%nat) as Hport.
  { intros x y Hxy. apply check_ingress_spec in Hxy as (s' & Hone & _).
    pose proof (listeners_on_one w x.1 y.1 s' i s Hone Hi) as Hiff. unfold on_port. apply eq_true_iff_eq.
    rewrite Z.eqb_eq, Nat.eqb_eq. split; intros Heq; symmetry; apply Hiff; by symmetry. }
  specialize (Hl Hport). destruct (last_with (on_port s) (default [] ups)) as [u|] eqn:Hu.
  - destruct (last_with (fun u => u.1 =? i)%nat us) as [u'|] eqn:Hu'; [|done].
    apply check_ingress_spec in Hl as (s' & Hone & Hing & Hp). exists u'.2. split_and!; [done | done |].
    unfold last_with in Hu. apply find_first_Some in Hu as [_ Hu]. unfold on_port in Hu. apply Z.eqb_eq in Hu.
    assert ((i, s) ∈ listeners_on w u.1) as Hs by (by apply listeners_on_elem). rewrite Hone in Hs.
    by apply list_elem_of_singleton in Hs as [= -> ->].
  - by destruct (last_with (fun u => u.1 =? i)%nat us).
Qed.

Lemma update_config_spec su w hot :
  match update_config su w hot with
  | (Err _, w') => undisturbed w w'
  | (Ok _, w') => installed su w hot w'
  end.
Proof.
  unfold update_config. pose proof (build_hot_table_undisturbed su w (jh_routes hot)) as Hu.
  destruct (build_hot_table su w (jh_routes hot)) as [[table|e] w1] eqn:Hb; [|done]. simpl in Hu.
  destruct (validate_protection w1 (jh_protection hot)) as [prot|] eqn:Hp; [|done].
  destruct (validate_ingress w1 (jh_failover_ingress hot)) as [ing|] eqn:Hi; [|done]. cbv zeta.
  destruct Hu as (Hw & _ & _ & _ & Hprot & Hing & Htab & Hreg & _).
  assert (sp_states w1 = sp_states w /\ sp_running w1 = sp_running w) as [Hst Hrun] by (by rewrite Hw).
  destruct (commit_protection su w1 w1 table 0) as (_ & Hci & Hcr & Hcs & Hcrun & Hct).
  set (w2 := commit_table su w1 table) in *. set (p1 := foldl (store_protection w2) (sp_proc w2) prot).
  destruct (store_protection_rest w2 (sp_proc w2) prot) as (Hr1 & Hr2 & Hr3). fold p1 in Hr1, Hr2, Hr3.
  destruct (store_ingress_rest p1 ing) as (Hq1 & Hq2 & Hq3). set (p2 := foldl store_ingress p1 ing) in *.
  split_and!; simpl; try congruence.
  - rewrite Hq2, Hr2, Hct. pose proof (hot_table_spec su w _ _ _ Hb) as Ht. destruct (jh_routes hot) as [routes|].
    + destruct Ht as (specs & Hsp & ->). by exists specs.
    + by subst table.
  - intros i s Hs. rewrite <- Hst in Hs. split.
    + pose proof (stored_protection w1 w2 _ prot i s Hcs Hp Hs) as Hsp. fold p1 in Hsp.
      assert (protection_of p2 i = protection_of p1 i) as -> by (unfold protection_of; by rewrite Hq1).
      assert (protection_of (sp_proc w2) i = protection_of (sp_proc w) i) as Heq.
      { destruct (commit_protection su w1 w1 table i) as [Hc _]. fold w2 in Hc. rewrite Hc. unfold protection_of. by rewrite Hprot. }
      rewrite Heq in Hsp. exact Hsp.
    + pose proof (stored_ingress w1 p1 _ ing i s Hi Hs) as Hsi. fold p2 in Hsi. by rewrite Hr1, Hci, Hing in Hsi.
Qed.

(** ** A proxy's life *)

Definition fallback_listener (cfg : JsProxyConfig) : option JsListenerConfig :=
  find_first (fun l => negb (is_http_mode l)) (jx_listeners cfg).
Definition fallback_tls (cfg : JsProxyConfig) : ListenerTlsSpec :=
  match fallback_listener cfg with Some l => listener_tls_spec l | None => ListenerTlsSpec_empty end.
Definition first_idle_timeout (cfg : JsProxyConfig) : Z :=
  idle_timeout_of (default (f64_of_Z 60000) (head (jx_listeners cfg) ≫= jl_idle_timeout_ms)).

(** What the connections do between two calls: nothing to the table or to which
    listeners have protection and an ingress. *)
Definition served (p p' : proc) : Prop :=
  pc_table p' = pc_table p /\ (forall i, is_Some (pc_protection p' !! i) <-> is_Some (pc_protection p !! i)) /\
  (forall i, is_Some (pc_ingress p' !! i) <-> is_Some (pc_ingress p !! i)).

(** The stores left of an update that was accepted, and the routes in use once one
    of them is made. *)
Definition routes_after (routes : list JsRouteConfig) (c : commit) : list JsRouteConfig :=
  match c with SwapTable routes' _ => routes' | _ => routes end.
Definition prepared (su : surroundings) (w : SymphonyProxyWrap) (hot : JsHotConfig) : list commit :=
  match (prepare_update su w hot).1 with Ok cs => cs | Err _ => [] end.

(** The proxies of a configuration, with the routes in use and the stores an update
    has still to make. The application calls one method at a time; connections go
    on in between, also between two stores. *)
Inductive life (m : machine) (cfg : JsProxyConfig) : list JsRouteConfig -> list commit -> SymphonyProxyWrap -> Prop :=
  | LifeNew w : SymphonyProxyWrap_new m cfg = Ok w -> life m cfg (jx_routes cfg) [] w
  | LifeStart routes w k accepted nofile :
      life m cfg routes [] w -> life m cfg routes [] (start k accepted nofile w).2
  | LifeStop routes w t : life m cfg routes [] w -> life m cfg routes [] (stop t w).2
  | LifeUpdate routes w su hot : life m cfg routes [] w ->
      life m cfg routes (prepared su w hot) (prepare_update su w hot).2
  | LifeCommit routes c cs w su : life m cfg routes (c :: cs) w -> life m cfg (routes_after routes c) cs (commit_one su w c)
  | LifeResolve routes w describe su id r : life m cfg routes [] w ->
      life m cfg routes [] (resolve_connection describe su w id r).2
  | LifeConnections routes cs w p' : life m cfg routes cs w -> served (sp_proc w) p' ->
      life m cfg routes cs (set_shared_state w (sp_cache w) (sp_next_identity w) p').

(** Timers the kernel and the copy loop take as they are. *)
Definition whole_seconds (ns : Z) : Prop := exists s, ns = s * second_ns /\ 1 <= s <= i32_max.
Definition keepalive_ok (k : KeepaliveConfig) : Prop :=
  whole_seconds (ka_idle k) /\ whole_seconds (ka_interval k) /\ 1 <= ka_retries k <= MAX_KEEPALIVE_RETRIES.
Definition half_close_ok (ns : Z) : Prop := ns = 0 \/ exists ms, ns = from_millis ms /\ 1 <= ms <= u32_max.

(** The settings, which no call changes. *)
Record settings_ok (cfg : JsProxyConfig) (w : SymphonyProxyWrap) : Prop := {
  so_fallback : sp_default_listener_tls w = fallback_tls cfg;
  so_idle : sp_idle_timeout w = first_idle_timeout cfg;
  so_lengths : length (sp_listeners w) = length (sp_states w);
  so_client : MIN_COPY_BUFFER_SIZE <= sp_client_read_buffer_size w <= MAX_COPY_BUFFER_SIZE;
  so_upstream : MIN_COPY_BUFFER_SIZE <= sp_upstream_read_buffer_size w <= MAX_COPY_BUFFER_SIZE;
  so_half_close : half_close_ok (sp_half_close_timeout w);
  so_keepalive : forall k, sp_keepalive w = Some k -> keepalive_ok k;
  so_tls_limit : forall n, sp_tls_buffer_limit w = Some n -> MIN_TLS_BUFFER_LIMIT <= n <= u64_max;
  so_http : forall i l s, sp_listeners w !! i = Some l -> sp_states w !! i = Some s ->
    il_mode l = ModeHttp -> ls_ingress s = false;
}.

(** What the listeners were started with is what the process holds for them, and
    the table in use was built from the routes. *)
Record state_ok (routes : list JsRouteConfig) (w : SymphonyProxyWrap) : Prop := {
  st_protection : forall i, is_Some (pc_protection (sp_proc w) !! i) <->
    exists s, sp_states w !! i = Some s /\ ls_protection s = true;
  st_ingress : forall i, is_Some (pc_ingress (sp_proc w) !! i) <->
    exists s, sp_states w !! i = Some s /\ ls_ingress s = true;
  st_table : exists specs, try_map parse_route_spec routes = Ok specs /\
    live specs (sp_default_listener_tls w) (pc_table (sp_proc w));
}.

Lemma by_index_lookup {A} (l : list (option A)) i : by_index l !! i = mjoin (l !! i).
Proof.
  unfold by_index. induction l as [|a l IH] using rev_ind; [done |]. rewrite enumerate_snoc, foldl_app. simpl.
  destruct (decide (i = length l)) as [->|Hne].
  - rewrite lookup_app_r, Nat.sub_diag by lia. destruct a as [a|]; simpl; [by rewrite lookup_insert_eq |].
    rewrite IH. by rewrite lookup_ge_None_2 by lia.
  - assert ((l ++ [a]) !! i = l !! i) as ->.
    { destruct (decide (i < length l)%nat); [by apply lookup_app_l |].
      rewrite !lookup_ge_None_2; [done | lia | rewrite length_app; simpl; lia]. }
    destruct a as [a|]; simpl; [rewrite lookup_insert_ne by done |]; done.
Qed.

Lemma read_env_range v min r n : read_env v min = Ok r -> r = Some n -> min <= n <= u64_max.
Proof.
  destruct v as [| |raw]; simpl; [by intros [= <-] | done |]. destruct (parse_u64 (trim_str raw)) as [x|] eqn:Hp; [|done].
  destruct (Z.leb_spec min x); [|done]. intros [= <-] [= ->]. split; [done |].
  apply from_str_radix_range in Hp; [lia | lia | unfold u64_max; lia].
Qed.

Definition keepalive_numbers (cfg : option JsTcpKeepaliveConfig) : Prop :=
  match cfg with
  | Some c => numbers_ok (jk_idle_ms c) /\ numbers_ok (jk_interval_ms c) /\
      (forall r, jk_retries c = Some r -> is_u32 r)
  | None => True
  end.

Lemma parse_keepalive_spec cfg k :
  keepalive_numbers cfg -> parse_keepalive_config cfg = Ok (Some k) -> keepalive_ok k.
Proof.
  intros Hn. unfold parse_keepalive_config. destruct (match cfg with Some c => _ | None => _ end); [done |].
  cbv zeta. destruct (_ || _) eqn:Hr; [done |].
  assert (forall f d, f64_valid d -> (forall c, cfg = Some c -> numbers_ok (f c)) -> f64_valid (default d (cfg ≫= f))) as Hv.
  { intros f d Hd Hf. apply valid_default; [done |]. destruct cfg as [c|]; [by apply Hf | done]. }
  destruct (keepalive_ms (cfg ≫= jk_idle_ms) _) as [idle|] eqn:Hi; [|done].
  destruct (keepalive_ms (cfg ≫= jk_interval_ms) _) as [interval|] eqn:Hj; [|done].
  cbn [mbind result_bind]. intros [= <-]. split_and!; simpl.
  - eapply keepalive_ms_spec; [|exact Hi]. apply Hv; [reflexivity |]. intros c ->. apply Hn.
  - eapply keepalive_ms_spec; [|exact Hj]. apply Hv; [reflexivity |]. intros c ->. apply Hn.
  - apply orb_false_iff in Hr as [Hr0 _]. apply Z.eqb_neq in Hr0. unfold DEFAULT_KEEPALIVE_RETRIES in *.
    destruct cfg as [c|]; simpl in *; [|lia]. destruct Hn as (_ & _ & Hn).
    destruct (jk_retries c) as [r|]; simpl in *; [|lia]. specialize (Hn r eq_refl). unfold is_u32 in Hn. lia.
  - apply orb_false_iff in Hr as [_ Hr]. by apply Z.ltb_ge.
Qed.

Lemma parse_listener_spec l il ls prot ing :
  parse_listener l = Ok (il, ls, prot, ing) ->
  ls_protection ls = bool_decide (is_Some prot) /\ ls_ingress ls = bool_decide (is_Some ing) /\
  (il_mode il = ModeHttp -> ing = None).
Proof.
  unfold parse_listener. intros Hp.
  repeat match type of Hp with
  | context [mbind _ ?x] => destruct x as [?|?] eqn:?; [cbn [mbind result_bind] in Hp | discriminate Hp]
  end.
  injection Hp as <- <- <- <-. split_and!; [done | done |]. simpl. intros ->.
  destruct (jl_failover_ingress l); [done | congruence].
Qed.

Lemma copy_size_range v base :
  MIN_COPY_BUFFER_SIZE <= base <= MAX_COPY_BUFFER_SIZE ->
  MIN_COPY_BUFFER_SIZE <= match v with Some _ => resolve_copy_buffer_size v | None => base end <= MAX_COPY_BUFFER_SIZE.
Proof. destruct v; [intros _; apply copy_buffer_range | done]. Qed.

(** A listener's part of the constructor's loop, by index. *)
Lemma listeners_spec ls xs i :
  try_map parse_listener ls = Ok xs ->
  (is_Some (by_index ((fun x => x.1.2) <$> xs) !! i) <->
     exists s, ((fun x => x.1.1.2) <$> xs) !! i = Some s /\ ls_protection s = true) /\
  (is_Some (by_index ((fun x => x.2) <$> xs) !! i) <->
     exists s, ((fun x => x.1.1.2) <$> xs) !! i = Some s /\ ls_ingress s = true) /\
  (forall l s, ((fun x => x.1.1.1) <$> xs) !! i = Some l -> ((fun x => x.1.1.2) <$> xs) !! i = Some s ->
     il_mode l = ModeHttp -> ls_ingress s = false).
Proof.
  intros Ht. apply try_map_Ok in Ht. rewrite !by_index_lookup, !list_lookup_fmap.
  destruct (xs !! i) as [[[[il st] prot] ing]|] eqn:Hx; simpl.
  - destruct (Forall2_lookup_r _ _ _ _ _ Ht Hx) as (l & _ & Hl).
    destruct (parse_listener_spec _ _ _ _ _ Hl) as (Hp & Hi & Hh). split_and!.
    + split; [intros Hs; exists st; split; [done |]; rewrite Hp; by apply bool_decide_eq_true |].
      intros (s & [= <-] & Hs). rewrite Hp in Hs. by apply bool_decide_eq_true in Hs.
    + split; [intros Hs; exists st; split; [done |]; rewrite Hi; by apply bool_decide_eq_true |].
      intros (s & [= <-] & Hs). rewrite Hi in Hs. by apply bool_decide_eq_true in Hs.
    + intros l' s [= <-] [= <-] Hm. rewrite Hi, Hh by done. done.
  - split_and!; try done; (split; [by intros [? ?] | by intros (? & ? & ?)]).
Qed.

Definition proxy_numbers (cfg : JsProxyConfig) : Prop :=
  numbers_ok (jx_half_close_timeout_ms cfg) /\ keepalive_numbers (jx_tcp_keepalive cfg).

Lemma lift_Ok {E E' A} (f : E -> E') (r : result E A) a : lift f r = Ok a -> r = Ok a.
Proof. by destruct r; [intros [= ->] |]. Qed.

Lemma new_ok m cfg w :
  SymphonyProxyWrap_new m cfg = Ok w ->
  state_ok (jx_routes cfg) w /\ (proxy_numbers cfg -> settings_ok cfg w) /\ sp_running w = None.
Proof.
  unfold SymphonyProxyWrap_new. cbv zeta. intros Hn.
  destruct (lift ConfigError (parse_half_close_timeout _)) as [half|] eqn:Hhalf; [|discriminate Hn].
  destruct (lift ConfigError (parse_keepalive_config _)) as [keep|] eqn:Hkeep; [|discriminate Hn].
  destruct (lift HookError (tls_buffer_limit _)) as [limit|] eqn:Hlimit; [|discriminate Hn].
  destruct (lift HookError (malloc_trim_interval _ _)) as [trim|]; [|discriminate Hn].
  destruct (try_map parse_listener _) as [ls|] eqn:Hls; [|discriminate Hn].
  destruct (lift ConfigError (try_map parse_route_spec _)) as [specs|] eqn:Hspecs; [|discriminate Hn].
  cbn [mbind result_bind] in Hn. destruct (build_route_table _ _ _ _ _) as [table e] eqn:Ht.
  destruct (negb _); [discriminate Hn |]. injection Hn as <-. apply lift_Ok in Hhalf, Hkeep, Hlimit, Hspecs. split_and!.
  - split; simpl.
    + intros i. rewrite lookup_fmap, fmap_is_Some. apply (listeners_spec _ _ i Hls).
    + intros i. rewrite lookup_fmap, fmap_is_Some. apply (listeners_spec _ _ i Hls).
    + exists specs. split; [done |].
      match type of Ht with build_route_table ?su ?e ?specs ?lt None = _ =>
        pose proof (live_start su e specs lt) as Hl; rewrite Ht in Hl end. exact Hl.
  - intros [Hn1 Hn2]. split; simpl; try done.
    + by rewrite !length_fmap.
    + apply copy_size_range, copy_buffer_range.
    + apply copy_size_range, copy_buffer_range.
    + destruct (parse_half_close_spec _ _ Hn1 Hhalf) as [[-> _]|]; [by left | by right].
    + intros k ->. by eapply parse_keepalive_spec.
    + intros n ->. eapply read_env_range; [exact Hlimit | done].
    + intros i. apply (listeners_spec _ _ i Hls).
  - done.
Qed.

(** Settings only depend on the fields no call writes. *)
Lemma settings_shared cfg w c n p : settings_ok cfg w -> settings_ok cfg (set_shared_state w c n p).
Proof. intros []. by split. Qed.
Lemma settings_running cfg w r : settings_ok cfg w -> settings_ok cfg (set_running w r).
Proof. intros []. by split. Qed.

Lemma resolved_tls_grows tk held c st spec : store_grows st (resolved_tls tk held c st spec).2.
Proof.
  unfold resolved_tls. destruct (rv_terminate_tls spec); [|done]. destruct (rv_cert_pem spec) as [cert|]; [|done].
  destruct (rv_key_pem spec) as [key|]; [|done]. unfold get_or_build_unmarked, lookup_or_build.
  destruct (cache c !! _); [done |]. destruct (build_server_config _ _ _ _); [|done].
  split; simpl; [lia | apply same_below_insert].
Qed.

Lemma answered_undisturbed su w r : undisturbed w (answered_route su w r).2.
Proof.
  unfold answered_route. destruct (parse_resolve_spec r) as [spec|]; [|apply undisturbed_refl]. cbv zeta.
  unfold build_resolved_route.
  match goal with |- context [resolved_tls ?a ?b ?c ?d ?e] => pose proof (resolved_tls_grows a b c d e) as Hg;
    destruct (resolved_tls a b c d e) as [[[cfg|] c'] st'] end; simpl in Hg; [|by split_and!].
  assert (shared_grows (pc_shared (sp_proc w)) (resolved_destination (pc_shared (sp_proc w)) (rv_upstream spec)).2) as Hs.
  { unfold resolved_destination. destruct (rv_upstream spec) as [addr|paths aff ttl]; [done |].
    by grown (UdsBalancer_new_grows (pc_shared (sp_proc w)) ((fun p => mkSpec p None None) <$> paths) aff ttl). }
  destruct (resolved_destination _ _) as [d sh']. simpl in Hs. by split_and!.
Qed.

Lemma undisturbed_state routes w w' : undisturbed w w' -> state_ok routes w -> state_ok routes w'.
Proof.
  intros (Hw & _ & _ & _ & Hp & Hi & Ht & _) [Hsp Hsi Hst].
  assert (sp_states w' = sp_states w /\ sp_default_listener_tls w' = sp_default_listener_tls w) as [Hs Hd] by (by rewrite Hw).
  split; [by rewrite Hp, Hs | by rewrite Hi, Hs | by rewrite Ht, Hd].
Qed.

Lemma undisturbed_settings cfg w w' : undisturbed w w' -> settings_ok cfg w -> settings_ok cfg w'.
Proof. intros [Hw _]. rewrite Hw. apply settings_shared. Qed.

(** ** Stores keep which listeners have what *)

Lemma is_Some_insert {A} (m : gmap nat A) j x i : is_Some (m !! j) -> is_Some (<[j := x]> m !! i) <-> is_Some (m !! i).
Proof.
  intros Hj. destruct (decide (j = i)) as [->|Hne]; [rewrite lookup_insert_eq; split; eauto | by rewrite lookup_insert_ne].
Qed.

(** What was found when the stores were prepared: nothing a store, a connection or a
    call changes. *)
Definition commit_ok (w : SymphonyProxyWrap) (c : commit) : Prop :=
  match c with
  | SwapTable routes t => exists specs, try_map parse_route_spec routes = Ok specs /\ live specs (sp_default_listener_tls w) t
  | StoreProtection u => exists i s, listeners_on w u.1 = [(i, s)] /\ ls_protection s = true
  | StoreIngress u => exists s, sp_states w !! u.1 = Some s /\ ls_ingress s = true
  end.

Lemma commit_ok_same w w' c :
  sp_states w' = sp_states w -> sp_default_listener_tls w' = sp_default_listener_tls w -> commit_ok w c -> commit_ok w' c.
Proof. intros Hs Hd. destruct c; simpl; rewrite ?Hd, ?Hs; [done | by rewrite (listeners_on_states w w') | done]. Qed.

Lemma prepare_undisturbed su w hot : undisturbed w (prepare_update su w hot).2.
Proof.
  unfold prepare_update. pose proof (build_hot_table_undisturbed su w (jh_routes hot)) as Hu.
  by destruct (build_hot_table su w (jh_routes hot)) as [[table|e] w1].
Qed.

Lemma prepared_ok routes su w hot : state_ok routes w -> Forall (commit_ok (prepare_update su w hot).2) (prepared su w hot).
Proof.
  intros Hok. unfold prepared, prepare_update. pose proof (build_hot_table_undisturbed su w (jh_routes hot)) as [Hw _].
  pose proof (fun table w1 => hot_table_spec su w (jh_routes hot) table w1) as Ht.
  destruct (build_hot_table su w (jh_routes hot)) as [[table|e] w1]; [|constructor]. specialize (Ht _ _ eq_refl). simpl in Hw |- *.
  destruct (validate_protection w1 (jh_protection hot)) as [prot|] eqn:Hp; [|constructor].
  destruct (validate_ingress w1 (jh_failover_ingress hot)) as [ing|] eqn:Hi; [|constructor]. simpl. unfold commits.
  apply Forall_app_2; [|apply Forall_app_2].
  - destruct table as [t|]; [|constructor]. apply Forall_singleton. destruct (jh_routes hot) as [routes'|]; [|done].
    destruct Ht as (specs & Hspecs & [= ->]). exists specs. split; [done |]. rewrite Hw. simpl.
    destruct (st_table _ _ Hok) as (specs0 & _ & Hlive). by eapply live_reload.
  - apply Forall_fmap. destruct (validate_protection_spec _ _ _ Hp) as [_ Hone]. eapply Forall_impl; [|exact Hone].
    intros u ([i s] & Hl & Hs). by exists i, s.
  - apply Forall_fmap, Forall_lookup. intros k u' Hu'. apply validate_ingress_spec in Hi.
    destruct (Forall2_lookup_r _ _ _ _ _ Hi Hu') as (u & _ & Hc). apply check_ingress_spec in Hc as (s & Hone & Hing & _).
    exists s. split; [|done]. assert ((u'.1, s) ∈ listeners_on w1 u.1) as Hin by (rewrite Hone; by apply list_elem_of_singleton).
    by apply listeners_on_elem in Hin as [? _].
Qed.

Lemma commit_state routes su w c : state_ok routes w -> commit_ok w c -> state_ok (routes_after routes c) (commit_one su w c).
Proof.
  intros [Hsp Hsi Hst]. destruct c as [routes' t|u|u]; simpl; intros Hc.
  - by split.
  - destruct Hc as (i & s & Hl & Hs). split; simpl; unfold store_protection; rewrite Hl; simpl; [|done ..].
    intros j. rewrite is_Some_insert; [apply Hsp |]. apply Hsp. exists s. split; [|done].
    assert ((i, s) ∈ listeners_on w u.1) as Hin by (rewrite Hl; by apply list_elem_of_singleton).
    by apply listeners_on_elem in Hin as [? _].
  - destruct Hc as (s & Hs & Hing). split; [done | | done]. simpl. intros j. rewrite is_Some_insert; [apply Hsi |]. apply Hsi. eauto.
Qed.

Lemma commit_same su w c :
  sp_states (commit_one su w c) = sp_states w /\ sp_default_listener_tls (commit_one su w c) = sp_default_listener_tls w.
Proof. by destruct c. Qed.

Lemma commit_settings cfg su w c : settings_ok cfg w -> settings_ok cfg (commit_one su w c).
Proof. destruct c; apply settings_shared. Qed.

(** Making the stores of an accepted update in a row is the call. *)
Lemma update_in_stores su w hot :
  update_config su w hot =
  match prepare_update su w hot with
  | (Ok cs, w1) => (Ok tt, foldl (commit_one su) w1 cs)
  | (Err e, w1) => (Err e, w1)
  end.
Proof.
  unfold update_config, prepare_update. destruct (build_hot_table su w (jh_routes hot)) as [[table|e] w1]; [|done].
  destruct (validate_protection _ _) as [prot|]; [|done]. destruct (validate_ingress _ _) as [ing|]; [|done]. simpl. f_equal.
  unfold commits. rewrite !foldl_app.
  assert (foldl (commit_one su) w1 match table with Some t => [SwapTable (default [] (jh_routes hot)) t] | None => [] end =
    commit_table su w1 table) as -> by (by destruct table).
  set (w2 := commit_table su w1 table).
  assert (forall us, foldl (commit_one su) w2 (StoreProtection <$> us) =
    set_shared_state w2 (sp_cache w2) (sp_next_identity w2) (foldl (store_protection w2) (sp_proc w2) us)) as ->.
  { intros us. induction us as [|u us IH] using rev_ind; [by destruct w2 |]. rewrite fmap_app, !foldl_app, IH. done. }
  induction ing as [|u ing IH] using rev_ind; [done |]. rewrite fmap_app, !foldl_app, <- IH. done.
Qed.

Lemma deliver_state routes w id v : state_ok routes w -> state_ok routes (deliver w id v).
Proof. intros []. by split. Qed.

Lemma resolve_connection_ok cfg routes describe su w id r :
  state_ok routes w ->
  state_ok routes (resolve_connection describe su w id r).2 /\
  (settings_ok cfg w -> settings_ok cfg (resolve_connection describe su w id r).2).
Proof.
  intros Hok. unfold resolve_connection. destruct (parse_u64 id) as [n|]; [|done]. destruct (negb _); [done |].
  destruct r as [r|]; [|split; [by apply deliver_state | by apply settings_shared]].
  pose proof (answered_undisturbed su w r) as Hu. destruct (answered_route su w r) as [[v|f] w']; simpl in *;
    (split; [apply deliver_state; by eapply undisturbed_state | intros; apply settings_shared; by eapply undisturbed_settings]).
Qed.

Lemma proxy_life_ok m cfg routes cs w :
  life m cfg routes cs w -> state_ok routes w /\ (proxy_numbers cfg -> settings_ok cfg w) /\ Forall (commit_ok w) cs.
Proof.
  induction 1 as [w Hw|routes w k acc nf _ (Hok & Hset & _)|routes w t _ (Hok & Hset & _)|routes w su hot _ (Hok & Hset & _)
    |routes c cs w su _ (Hok & Hset & [Hc Hcs]%Forall_cons_iff)|routes w describe su id r _ (Hok & Hset & _)
    |routes cs w p' _ (Hok & Hset & Hcs) (Ht & Hp & Hi)].
  - destruct (new_ok _ _ _ Hw) as (? & ? & _). done.
  - unfold start. destruct (sp_running w); [done |]. destruct (try_map _ _); [|done]. simpl.
    split_and!; [by destruct Hok | intros; by apply settings_running, Hset | done].
  - simpl. split_and!; [by destruct Hok | intros; by apply settings_running, Hset | done].
  - pose proof (prepare_undisturbed su w hot) as Hu.
    split_and!; [by eapply undisturbed_state | intros; by eapply undisturbed_settings, Hset | by eapply prepared_ok].
  - split_and!; [by apply commit_state | intros; by apply commit_settings, Hset |].
    destruct (commit_same su w c) as [Hs Hd]. eapply Forall_impl; [|exact Hcs]. intros c'. by apply commit_ok_same.
  - destruct (resolve_connection_ok cfg routes describe su w id r Hok). eauto.
  - split_and!; [|intros; by apply settings_shared, Hset |].
    + destruct Hok as [Hsp Hsi Hst]. split; simpl; [intros i; by rewrite Hp | intros i; by rewrite Hi | by rewrite Ht].
    + eapply Forall_impl; [|exact Hcs]. intros c. by apply commit_ok_same.
Qed.

(** ** Routes, as they were written *)

(** Whether a route's server name covers a name. *)
Definition covers (n : bytes) (js : JsRouteConfig) : bool :=
  match strip_prefix star_dot (jr_sni js) with
  | Some suffix => wildcard_suffix_matches n suffix
  | None => bytes_eqb (jr_sni js) n
  end.

(** The client-certificate policy of a route: its own [mtls], where certificates
    are optional unless it says otherwise, or the first TLS listener's, where they
    are required unless it says otherwise. *)
Definition client_cert_required (cfg : JsProxyConfig) (js : JsRouteConfig) : bool :=
  jr_terminate_tls js &&
  match jr_mtls js with
  | Some m => default false (jm_require_client_cert m)
  | None => match fallback_listener cfg ≫= jl_mtls with
            | Some m => default true (jm_require_client_cert m)
            | None => false
            end
  end.

Lemma parse_route_fields js spec :
  parse_route_spec js = Ok spec ->
  rs_sni spec = jr_sni js /\ rs_terminate_tls spec = jr_terminate_tls js /\
  rs_mtls_ca_pem spec = (fun m => pem_bytes (jm_client_ca_cert m)) <$> jr_mtls js /\
  rs_require_client_cert spec = requires_cert (jr_mtls js) false /\
  rs_allowed_sources spec = default [] (jr_allowed_sources js).
Proof.
  unfold parse_route_spec. intros Hp.
  repeat match type of Hp with
  | context [mbind _ ?x] => destruct x as [?|?] eqn:?; [cbn [mbind result_bind] in Hp; cbv zeta in Hp | discriminate Hp]
  end.
  by injection Hp as <-.
Qed.

Lemma required_spec cfg js spec :
  parse_route_spec js = Ok spec ->
  (rs_terminate_tls spec && match effective_mtls spec (fallback_tls cfg) with Some (_, b) => b | None => false end) =
  client_cert_required cfg js.
Proof.
  intros Hp. apply parse_route_fields in Hp as (_ & Ht & Hca & Hreq & _). unfold effective_mtls, client_cert_required.
  rewrite Ht, Hca, Hreq. destruct (jr_mtls js) as [mt|]; simpl; [done |].
  unfold fallback_tls. by destruct (fallback_listener cfg) as [l|]; simpl; [destruct (jl_mtls l) |].
Qed.

Lemma deciding_covers specs n spec :
  deciding specs n = Some spec -> spec ∈ specs /\
  match strip_prefix star_dot (rs_sni spec) with
  | Some suffix => wildcard_suffix_matches n suffix
  | None => bytes_eqb (rs_sni spec) n
  end = true.
Proof.
  unfold deciding, last_with. destruct (find_first _ (rev specs)) as [x|] eqn:Hf.
  - intros [= ->]. apply find_first_Some in Hf as [Hin Hx]. split; [by apply list_elem_of_In, in_rev, list_elem_of_In in Hin |].
    apply andb_true_iff in Hx as [Hn Hnw]. apply negb_true_iff, strip_prefix_None in Hnw. by rewrite Hnw.
  - intros Hfind. apply find_first_Some in Hfind as [Hin Hx]. split; [done |].
    by destruct (strip_prefix star_dot (rs_sni spec)).
Qed.

Lemma undecided_covers specs n spec :
  deciding specs n = None -> spec ∈ specs ->
  match strip_prefix star_dot (rs_sni spec) with
  | Some suffix => wildcard_suffix_matches n suffix
  | None => bytes_eqb (rs_sni spec) n
  end = false.
Proof.
  unfold deciding, last_with. destruct (find_first _ (rev specs)) eqn:Hf; [done |]. intros Hf2 Hin.
  rewrite find_first_None in Hf, Hf2. specialize (Hf2 spec Hin). simpl in Hf2.
  assert (spec ∈ rev specs) as Hin' by (by apply list_elem_of_In, in_rev; rewrite rev_involutive; apply list_elem_of_In).
  specialize (Hf spec Hin'). simpl in Hf.
  destruct (strip_prefix star_dot (rs_sni spec)) eqn:Hs; [done |]. apply strip_prefix_None in Hs.
  unfold is_wild in Hf. by rewrite Hs, andb_true_r in Hf.
Qed.
End ProxyLife.

(** ** Properties *)

(** Every socket of every listener can be bound. *)
Definition all_bind `{TlsLib} `{NetLib} (k : nat -> nat -> kernel) (w : SymphonyProxyWrap) : Prop :=
  forall i l, sp_listeners w !! i = Some l -> binds (k i) (il_addr l) (sp_worker_threads w).

Lemma try_bind `{TlsLib} `{NetLib} k w :
  (exists bound, try_map (bind_listener k w) (enumerate (sp_listeners w)) = Ok bound) <-> all_bind k w.
Proof.
  rewrite try_map_is_Ok. unfold bind_listener, all_bind. split.
  - intros Hall i l Hl. apply (bind_workers_iff (k i) (il_addr l) (sp_worker_threads w) (sp_keepalive w)).
    destruct (Hall (i, l)) as [b Hb]; [by apply elem_of_enumerate |]. simpl in Hb.
    destruct (bind_workers _ _ _ _) as [ss|]; [by exists ss | done].
  - intros Hall [i l] Hl%elem_of_enumerate. simpl.
    destruct (proj2 (bind_workers_iff (k i) (il_addr l) (sp_worker_threads w) (sp_keepalive w)) (Hall i l Hl)) as [ss ->].
    by exists ss.
Qed.

(** The sockets of a listener that was bound. *)
Lemma bound_sockets `{TlsLib} `{NetLib} k w bound i l :
  try_map (bind_listener k w) (enumerate (sp_listeners w)) = Ok bound -> sp_listeners w !! i = Some l ->
  exists ss, bound !! i = Some ss /\ bind_workers (k i) (il_addr l) (sp_worker_threads w) (sp_keepalive w) = Ok ss.
Proof.
  intros Hb%try_map_Ok Hl. destruct (Forall2_lookup_l _ _ _ i (i, l) Hb) as (ss & Hi & Hs); [by apply lookup_enumerate |].
  exists ss. split; [done |]. unfold bind_listener in Hs. simpl in Hs. by destruct (bind_workers _ _ _ _) as [?|]; simplify_eq/=.
Qed.

(** ** Events as the application reads them *)

Definition field (name : bytes) (o : list (bytes * js_value)) : option js_value :=
  snd <$> find_first (fun x => bytes_eqb x.1 name) o.
Definition text_field (name : string) (o : list (bytes * js_value)) : option bytes :=
  match field (bs name) o with Some (JsText s) => Some s | _ => None end.
Definition number_field (name : string) (o : list (bytes * js_value)) : option Z :=
  match field (bs name) o with Some (JsNumber x) => Some (f64_as_u32 x) | _ => None end.

Definition event_of_object (o : list (bytes * js_value)) : option JsEvent :=
  kind ← text_field "type" o;
  if bytes_eqb kind (bs "blocked") then
    ip ← text_field "ip" o; reason ← text_field "reason" o; listener ← text_field "listener" o;
    ja3 ← text_field "ja3" o; ja4 ← text_field "ja4" o; Some (JsBlocked ip reason listener ja3 ja4)
  else if bytes_eqb kind (bs "suspended") then
    id ← text_field "id" o; sni ← text_field "sni" o; ip ← text_field "peerIp" o; port ← number_field "peerPort" o;
    listener ← text_field "listener" o; Some (JsSuspended id sni ip port listener)
  else if bytes_eqb kind (bs "error") then
    message ← text_field "message" o; listener ← text_field "listener" o; Some (JsError message listener)
  else
    route ← text_field "route" o; group ← text_field "metricsGroup" o; status ← text_field "status" o;
    Some (JsRouteHealth route group (bytes_eqb status (bs "up"))).

(** Every event reaches the application whole. *)
Lemma event_object_roundtrip e :
  match e with JsSuspended _ _ _ port _ => 0 <= port <= u16_max | _ => True end ->
  event_of_object (event_object e) = Some e.
Proof.
  destruct e as [| id sni ip port listener | | route group []]; try reflexivity. intros Hp.
  assert (f64_as_u32 (f64_of_Z port) = port) as Hx.
  { unfold u16_max in Hp. apply f64_of_Z_exact; [lia | unfold u32_max; lia]. }
  rewrite <- Hx at 2. unfold event_object. generalize (f64_of_Z port). reflexivity.
Qed.

(** What the application's answer comes to: nothing, a route, or why it is none. *)
Definition answer_to `{TlsLib} `{Digests} `{NetLib} (su : surroundings) (w : SymphonyProxyWrap)
    (route : option JsResolveRoute) : option (result resolve_failure ResolvedRoute) :=
  (fun r => (answered_route su w r).1) <$> route.

(** The jobs of a proxy that has been started. *)
Lemma started_jobs `{TlsLib} `{Digests} `{NetLib} k accepted nofile w jobs :
  (start k accepted nofile w).1.1 = Ok tt -> sp_running (start k accepted nofile w).2 = Some jobs ->
  exists bound, jobs = jobs_of w bound.
Proof.
  unfold start. destruct (sp_running w); [done |]. destruct (try_map _ _) as [bound|]; [|done]. simpl. intros _ [= <-].
  by exists bound.
Qed.

(** The largest of the listeners' limits is one of them. *)
Lemma max_of_list (l : list Z) :
  Forall (fun x => x <= foldr Z.max 0 l) l /\ (0 < foldr Z.max 0 l -> foldr Z.max 0 l ∈ l).
Proof.
  induction l as [|x l [Hall Hin]]; [by split; [|simpl; lia] |]. cbn [foldr]. split.
  - constructor; [lia |]. eapply Forall_impl; [|exact Hall]. simpl. lia.
  - intros Hp. destruct (Z.max_spec x (foldr Z.max 0 l)) as [[_ Hm]|[_ Hm]]; rewrite Hm in *;
      [by apply list_elem_of_further, Hin | apply list_elem_of_here].
Qed.

(** Two descriptors per connection of every listener that has a limit, and no more
    than some listener needs. *)
Lemma wanted_nofile_spec ls :
  match wanted_nofile ls with
  | Some n => (forall l, l ∈ ls -> il_max_connections l * 2 + 1024 <= n) /\
      exists l, l ∈ ls /\ 0 < il_max_connections l /\ n = il_max_connections l * 2 + 1024
  | None => forall l, l ∈ ls -> il_max_connections l <= 0
  end.
Proof.
  destruct (max_of_list (il_max_connections <$> ls)) as [Hall Hin]. rewrite List.Forall_forall in Hall.
  assert (forall l, l ∈ ls -> il_max_connections l <= foldr Z.max 0 (il_max_connections <$> ls)) as Hle.
  { intros l Hl. apply Hall, list_elem_of_In, list_elem_of_fmap. by exists l. }
  unfold wanted_nofile. destruct (il_max_connections <$> ls) as [|m ms] eqn:Hm.
  { apply fmap_nil_inv in Hm as ->. intros l Hl. by apply not_elem_of_nil in Hl. }
  cbv zeta. rewrite <- Hm in *. destruct (Z.ltb_spec 0 (foldr Z.max 0 (il_max_connections <$> ls))) as [Hp|Hp].
  - split; [intros l Hl; specialize (Hle l Hl); lia |]. apply list_elem_of_fmap in Hin as (l & Hl & Hin); [|done].
    exists l. split_and!; [done | lia | lia].
  - intros l Hl. specialize (Hle l Hl). lia.
Qed.

(** What [start] does to the file-descriptor limits: nothing on a proxy that runs;
    else the hard limit stays, the soft one is never lowered, covers every limited
    listener as far as the hard limit goes if the kernel takes it, and is raised
    for no more than some listener needs. *)
Definition nofile_raised `{TlsLib} `{NetLib} (accepted : bool) (w : SymphonyProxyWrap) (nofile nofile' : option (Z * Z)) : Prop :=
  match nofile with
  | None => nofile' = None
  | Some (soft, hard) => exists soft', nofile' = Some (soft', hard) /\ soft <= soft' /\
      (sp_running w = None -> accepted = true ->
         forall l, l ∈ sp_listeners w -> 0 < il_max_connections l -> Z.min (il_max_connections l * 2 + 1024) hard <= soft') /\
      (soft < soft' -> sp_running w = None /\ accepted = true /\
         exists l, l ∈ sp_listeners w /\ 0 < il_max_connections l /\ soft' = Z.min (il_max_connections l * 2 + 1024) hard)
  end.

Lemma start_nofile `{TlsLib} `{Digests} `{NetLib} k accepted nofile w :
  nofile_raised accepted w nofile (start k accepted nofile w).1.2.
Proof.
  assert (sp_running w = None -> nofile_raised accepted w nofile
    match wanted_nofile (sp_listeners w) with Some n => set_rlimit_nofile n nofile accepted | None => nofile end) as Hn.
  { intros Hrun. pose proof (wanted_nofile_spec (sp_listeners w)) as Hw. unfold nofile_raised.
    destruct nofile as [[soft hard]|]; [|by case_match].
    destruct (wanted_nofile (sp_listeners w)) as [n|].
    - destruct Hw as (Hall & l & Hl & Hpos & ->). unfold set_rlimit_nofile. cbv zeta.
      destruct (Z.ltb_spec soft (Z.min (il_max_connections l * 2 + 1024) hard)) as [Hlt|Hge]; simpl;
        [destruct accepted; simpl |]; eexists; (split; [reflexivity |]); split_and!; try lia; try done;
        try (intros _ _ l' Hl' _; specialize (Hall l' Hl'); lia).
      intros _. split_and!; [done | done |]. by exists l.
    - exists soft. split_and!; [done | lia | | lia]. intros _ _ l Hl Hp. specialize (Hw l Hl). lia. }
  unfold start. destruct (sp_running w) as [jobs|] eqn:Hrun; simpl.
  - destruct nofile as [[soft hard]|]; simpl; [|done]. exists soft. rewrite Hrun. split_and!; [done | lia | done | lia].
  - by destruct (try_map _ _); apply Hn.
Qed.

(** Raising the limit a second time does nothing more. *)
Lemma set_rlimit_again n nofile accepted :
  set_rlimit_nofile n (set_rlimit_nofile n nofile accepted) accepted = set_rlimit_nofile n nofile accepted.
Proof.
  destruct nofile as [[soft hard]|]; [|done]. simpl. destruct accepted; [|by rewrite !andb_false_r; simpl; rewrite andb_false_r].
  rewrite !andb_true_r. destruct (Z.ltb_spec soft (Z.min n hard)) as [Hlt|Hge]; simpl; rewrite !andb_true_r.
  - by rewrite Z.ltb_irrefl.
  - by destruct (Z.ltb_spec soft (Z.min n hard)); [lia |].
Qed.

Module Properties.

#[local] Existing Instance Net.cidr_lib.
#[local] Existing Instance Protection.ascii_lowercase.
#[local] Existing Instance Tls.Properties.raw_tls.
#[local] Existing Instance Tls.Properties.tagged_digests.


(** ** A configuration *)

Definition sample_machine : machine :=
  mkMachine (Some 8) (EnvSet (bs "65536")) EnvUnset true (fun n => 0 <? n) Router.Properties.quiet.
Definition tls_listener (port : Z) (idle : option f64) : JsListenerConfig :=
  mkJsListener None port None (Some (mkJsCert (EitherA (bs "cert")) (EitherA (bs "c"))))
    (Some (mkJsMtls (EitherB (bs "ca")) None)) (Some 1000) idle None None.
Definition route_for (sni : bytes) (mtls : option JsMtlsConfig) : JsRouteConfig :=
  mkJsRoute sni None [mkJsUpstream (bs "tcp") (Some (bs "127.0.0.1")) (Some 80) None None None None None None]
    true None mtls None None None None None None None None None None.
Definition sample_config : JsProxyConfig :=
  mkJsProxy [tls_listener 443 (Some (f64_of_Z 5000)); tls_listener 8443 (Some (f64_of_Z 60000))]
    [route_for (bs "a.example.com") (Some (mkJsMtls (EitherA (bs "ca")) None)); route_for (bs "b.example.com") None]
    None (Some 100) None (Some 70000) None None.

Lemma sample_made (P : SymphonyProxyWrap -> bool) :
  match SymphonyProxyWrap_new sample_machine sample_config with Ok w => P w | Err _ => false end = true ->
  exists w, SymphonyProxyWrap_new sample_machine sample_config = Ok w /\ P w = true.
Proof. destruct (SymphonyProxyWrap_new _ _) as [w|]; [by exists w | discriminate]. Qed.

(** C20: A proxy object is well formed for its whole life, whatever calls are made
    on it and whatever its connections do, also between two stores of an update: its copy buffers are within their
    bounds, its half-close timeout is off or at least a millisecond, keepalive is
    a whole number of seconds and of probes the kernel takes, the TLS buffer
    limit is off or at least its floor, an HTTP listener has no failover ingress;
    a listener has protection or an ingress exactly when it was configured with
    it; and the table in use was built from the routes swapped in last. *)
Theorem proxy_stays_well_formed `{TlsLib} `{Digests} `{NetLib} `{Lowercase} m cfg routes cs w :
  life m cfg routes cs w -> proxy_numbers cfg -> settings_ok cfg w /\ state_ok routes w.
Proof. intros Hl Hn. destruct (proxy_life_ok _ _ _ _ _ Hl) as (Hs & Hset & _). auto. Qed.

Lemma proxy_stays_well_formed_witness :
  exists w, SymphonyProxyWrap_new sample_machine sample_config = Ok w /\
    sp_client_read_buffer_size w = 512 /\ sp_keepalive w = Some (mkKeepalive 300000000000 30000000000 5) /\
    settings_ok sample_config w /\ state_ok (jx_routes sample_config) w.
Proof.
  destruct (sample_made (fun w => (sp_client_read_buffer_size w =? 512) &&
    match sp_keepalive w with
    | Some (mkKeepalive i v r) => (i =? 300000000000) && (v =? 30000000000) && (r =? 5)
    | None => false
    end)) as (w & Hw & HP); [vm_compute; reflexivity |].
  exists w. split; [exact Hw |]. apply andb_true_iff in HP as [Hb Hk]. split; [by apply Z.eqb_eq |]. split.
  - destruct (sp_keepalive w) as [[i v r]|]; [|done]. apply andb_true_iff in Hk as [Hk Hr].
    apply andb_true_iff in Hk as [Hi Hv]. apply Z.eqb_eq in Hi, Hv, Hr. by subst.
  - apply (proxy_stays_well_formed sample_machine sample_config (jx_routes sample_config) []); [by apply LifeNew | by split].
Defined.

(** C6: The configured routes are what is served. A server name is only ever
    answered by a route written for it in the configuration in use, which is the one
    accepted last or, until an accepted update has swapped its table in, the one
    before; or, for a name no route covers and where that is allowed, by the default
    route. The route terminates TLS and admits sources as written. It requires a client
    certificate when it has an [mtls] of its own that says so, and not when that
    says nothing; without one, when the first TLS listener's [mtls] does not say
    otherwise. *)
Theorem configured_routes_are_enforced `{TlsLib} `{Digests} `{NetLib} `{Lowercase} m cfg routes cs w n allow r :
  life m cfg routes cs w -> proxy_numbers cfg -> n <> [] ->
  resolve_with (pc_table (sp_proc w)) (Some n) allow = Some r ->
  (exists js, js ∈ routes /\ covers n js = true /\
     SourceAllowlist_parse (default [] (jr_allowed_sources js)) = Ok (rt_allowed_sources r) /\
     rt_terminate_tls r = jr_terminate_tls js /\ rt_requires_client_cert r = client_cert_required cfg js) \/
  (allow = true /\ default_route (pc_table (sp_proc w)) = Some r /\ Forall (fun js => covers n js = false) routes).
Proof.
  intros Hl Hn Hne Hr. destruct (proxy_life_ok _ _ _ _ _ Hl) as (Hs & Hset & _). specialize (Hset Hn).
  destruct (st_table _ _ Hs) as (specs & Hspecs & Hlive). rewrite (so_fallback _ _ Hset) in Hlive.
  apply try_map_Ok in Hspecs. destruct (deciding specs n) as [spec|] eqn:Hd.
  - left. destruct (deciding_covers _ _ _ Hd) as [Hin Hcov]. apply list_elem_of_lookup in Hin as [k Hk].
    destruct (Forall2_lookup_r _ _ _ _ _ Hspecs Hk) as (js & Hjs & Hp). exists js.
    destruct (live_enforces _ _ _ _ _ _ _ Hlive Hne Hd Hr) as (Hsrc & Hterm & Hreq & _).
    rewrite (required_spec cfg js spec Hp) in Hreq. destruct (parse_route_fields _ _ Hp) as (Hsni & Ht & _ & _ & Ha).
    split_and!; [by eapply list_elem_of_lookup_2 | unfold covers; by rewrite <- Hsni | by rewrite <- Ha | congruence | done].
  - right. destruct (live_undecided _ _ _ _ _ _ Hlive Hne Hd Hr) as [Ha Hdef]. split_and!; [done | done |].
    apply Forall_lookup. intros k js Hjs. destruct (Forall2_lookup_l _ _ _ _ _ Hspecs Hjs) as (spec & Hk & Hp).
    destruct (parse_route_fields _ _ Hp) as (Hsni & _). unfold covers. rewrite <- Hsni.
    apply (undecided_covers specs); [done | by eapply list_elem_of_lookup_2].
Qed.

(** The route with an [mtls] of its own does not require certificates, the one
    without does. *)
Lemma configured_routes_are_enforced_witness :
  exists w ra rb, SymphonyProxyWrap_new sample_machine sample_config = Ok w /\
    resolve_with (pc_table (sp_proc w)) (Some (bs "a.example.com")) false = Some ra /\
    resolve_with (pc_table (sp_proc w)) (Some (bs "b.example.com")) false = Some rb /\
    rt_requires_client_cert ra = false /\ rt_requires_client_cert rb = true.
Proof.
  pose (a := bs "a.example.com"). pose (b := bs "b.example.com").
  destruct (sample_made (fun w => bool_decide (is_Some (resolve_with (pc_table (sp_proc w)) (Some a) false)) &&
    bool_decide (is_Some (resolve_with (pc_table (sp_proc w)) (Some b) false)))) as (w & Hw & HP); [vm_compute; reflexivity |].
  apply andb_true_iff in HP as [[ra Hra]%bool_decide_eq_true [rb Hrb]%bool_decide_eq_true].
  exists w, ra, rb. split; [exact Hw |]. split; [exact Hra |]. split; [exact Hrb |].
  assert (proxy_numbers sample_config) as Hn by (by split).
  pose proof (LifeNew sample_machine sample_config w Hw) as Hl. split.
  - destruct (configured_routes_are_enforced _ _ _ _ _ a false ra Hl Hn ltac:(discriminate) Hra)
      as [(js & Hin & Hc & _ & _ & ->)|[Hf _]]; [|discriminate Hf].
    apply list_elem_of_In in Hin. destruct Hin as [<-|[<-|[]]]; [reflexivity | discriminate Hc].
  - destruct (configured_routes_are_enforced _ _ _ _ _ b false rb Hl Hn ltac:(discriminate) Hrb)
      as [(js & Hin & Hc & _ & _ & ->)|[Hf _]]; [|discriminate Hf].
    apply list_elem_of_In in Hin. destruct Hin as [<-|[<-|[]]]; [discriminate Hc | reflexivity].
Defined.

(** C21: An answer reaches the connection it is for, and only once. The number a
    parked connection was announced with, as text, names that connection: it
    receives the route built from the answer, or is turned away when there is none
    or it cannot be built, in which case one error event is emitted. Answering it
    again changes nothing, and neither does an answer to a number nobody is parked
    under, whatever route it carries. *)
Theorem answer_reaches_its_connection `{TlsLib} `{Digests} `{NetLib} describe su w id ch route :
  is_u64 id -> pending (pc_registry (sp_proc w)) !! id = Some ch ->
  channels (pc_registry (sp_proc w)) !! ch = Some None ->
  let '(events, w') := resolve_connection describe su w (to_decimal id) route in
  let outcome := answer_to su w route in
  (receive (pc_registry (sp_proc w')) ch).1 = match outcome with Some (Ok v) => Some v | _ => None end /\
  length events = (match outcome with Some (Err _) => 1 | _ => 0 end)%nat /\
  contains (pc_registry (sp_proc w')) id = false /\
  (forall text route', (forall n, parse_u64 text = Some n -> contains (pc_registry (sp_proc w')) n = false) ->
     (resolve_connection describe su w' text route').2 = w').
Proof.
  intros Hid Hp Hch. unfold resolve_connection at 1.
  assert (parse_u64 (to_decimal id) = Some id) as -> by (apply parse_to_decimal; [apply Hid | done]).
  assert (contains (pc_registry (sp_proc w)) id = true) as ->
    by (unfold contains; apply bool_decide_eq_true; by exists ch).
  cbn [negb].
  assert (forall w' v, pc_registry (sp_proc w') = pc_registry (sp_proc w) ->
    (receive (pc_registry (sp_proc (deliver w' id v))) ch).1 = v /\
    contains (pc_registry (sp_proc (deliver w' id v))) id = false) as Hd.
  { intros w' v Hreg. unfold deliver, resolve, receive, contains. simpl. rewrite Hreg, Hp. unfold send. simpl. rewrite Hch. simpl.
    rewrite lookup_insert_eq, lookup_delete_eq. done. }
  assert (forall w' text route', (forall n, parse_u64 text = Some n -> contains (pc_registry (sp_proc w')) n = false) ->
     (resolve_connection describe su w' text route').2 = w') as Hno.
  { intros w' text route' Hc. unfold resolve_connection. destruct (parse_u64 text) as [n|]; [by rewrite Hc | done]. }
  destruct route as [r|]; simpl.
  - pose proof (answered_undisturbed su w r) as (_ & _ & _ & _ & _ & _ & _ & Hreg & _).
    destruct (answered_route su w r) as [[v|f] w'] eqn:E; simpl in *.
    + destruct (Hd w' (Some v) Hreg) as [Hr Hc]. split_and!; auto.
    + destruct (Hd w' None Hreg) as [Hr Hc]. split_and!; auto.
  - destruct (Hd w None eq_refl) as [Hr Hc]. split_and!; auto.
Qed.

(** A proxy with one parked connection, which was told number 1. *)
Definition parked (w : SymphonyProxyWrap) : SymphonyProxyWrap :=
  set_shared_state w (sp_cache w) (sp_next_identity w)
    (set_registry (sp_proc w) (register (pc_registry (sp_proc w))).2).
Definition to_8080 : JsResolveRoute :=
  mkJsResolve (mkJsUpstream (bs "tcp") (Some (bs "127.0.0.1")) (Some 8080) None None None None None None)
    false None None None None None None None.

Lemma answer_reaches_its_connection_witness :
  exists w, SymphonyProxyWrap_new sample_machine sample_config = Ok w /\
    let w' := (resolve_connection (fun _ => []) Router.Properties.quiet (parked w) (bs "1") (Some to_8080)).2 in
    (fun r => rr_destination r) <$> (receive (pc_registry (sp_proc w')) 0).1 = Some (Tcp (mkSocketAddr (V4 2130706433) 8080)) /\
    contains (pc_registry (sp_proc w')) 1 = false.
Proof.
  destruct (sample_made (fun w => (counter (pc_registry (sp_proc w)) =? 1) && (next_channel (pc_registry (sp_proc w)) =? 0)%nat))
    as (w & Hw & HP); [vm_compute; reflexivity |]. exists w. split; [exact Hw |].
  apply andb_true_iff in HP as [Hc Hn]. apply Z.eqb_eq in Hc. apply Nat.eqb_eq in Hn.
  pose proof (answer_reaches_its_connection (fun _ => []) Router.Properties.quiet (parked w) 1 0%nat (Some to_8080)) as Ht.
  replace (to_decimal 1) with (bs "1") in Ht by (vm_compute; reflexivity).
  destruct (resolve_connection _ _ (parked w) (bs "1") (Some to_8080)) as [ev w']. simpl. destruct Ht as (Hr & _ & Hgone & _).
  - unfold is_u64, u64_max. lia.
  - simpl. rewrite Hc, Hn. apply lookup_insert_eq.
  - simpl. rewrite Hn. apply lookup_insert_eq.
  - split; [|exact Hgone]. simpl in Hr. rewrite Hr. reflexivity.
Defined.

(** C36: Starting is all or nothing, but for the limit on open files. [start]
    succeeds exactly on a stopped proxy for whose sockets the system grants
    everything but, perhaps, the keepalive schedule, and otherwise leaves the proxy
    as it was, so it can be tried again. The process's file-descriptor limit is
    raised first, and stays raised when the sockets are then refused: never
    lowered, never past the hard limit, to two descriptors per connection of the
    listener with the largest limit and 1024 more, where the kernel agrees, and
    left alone when the proxy already runs or no listener has a limit. Once [start]
    has succeeded every listener is served in its own mode with its own limit, by
    one listening socket per worker, each bound to the listener's address before
    any of them was served, sharing the port, and armed with keepalive before it
    listened; every protected listener is swept; it refuses to start again until
    [stop], after which it starts as before. *)
Theorem start_is_all_or_nothing `{TlsLib} `{Digests} `{NetLib} k accepted nofile w :
  let r := (start k accepted nofile w).1.1 in
  let nofile' := (start k accepted nofile w).1.2 in
  let w' := (start k accepted nofile w).2 in
  (r = Ok tt <-> sp_running w = None /\ all_bind k w) /\
  (r <> Ok tt -> w' = w) /\
  nofile_raised accepted w nofile nofile' /\
  (r = Ok tt ->
     (forall i l s, sp_listeners w !! i = Some l -> sp_states w !! i = Some s ->
        exists jobs sockets, sp_running w' = Some jobs /\
        (match il_mode l with
         | ModeTls => JobTls sockets (il_max_connections l) (context_of w i s)
         | ModeHttp => JobHttp sockets (il_max_connections l) (context_of w i s)
         end ∈ jobs) /\
        length sockets = Z.to_nat (Z.max (sp_worker_threads w) 1) /\
        (forall j so, sockets !! j = Some so -> serves (k i j) (il_addr l) (sp_keepalive w) so) /\
        (ls_protection s = true -> JobEvict i minute ∈ jobs)) /\
     (forall k' accepted' limits, start k' accepted' limits w' = (Err AlreadyStarted, limits, w')) /\
     (forall t, start k accepted nofile' (stop t w').2 = start k accepted nofile w)).
Proof.
  cbv zeta. pose proof (start_nofile k accepted nofile w) as Hn. revert Hn.
  unfold start. destruct (sp_running w) as [jobs|] eqn:Hrun; simpl; intros Hn.
  { split_and!; [split; [done | by intros [? _]] | done | done | done]. }
  pose proof (try_bind k w) as Hbind.
  destruct (try_map (bind_listener k w) (enumerate (sp_listeners w))) as [bound|e] eqn:Hf; simpl in *.
  - split_and!; [split; [intros _; split; [done | apply Hbind; by exists bound] | done] | done | exact Hn |].
    intros _. split_and!.
    + intros i l s Hl Hs. destruct (bound_sockets k w bound i l Hf Hl) as (ss & Hi & Hss).
      destruct (bind_workers_serve _ _ _ _ _ Hss) as [Hlen Hall].
      exists (jobs_of w bound), ss. split_and!; try done; unfold jobs_of.
      * apply elem_of_app. left. apply list_elem_of_fmap. exists (i, (l, s, ss)). split; [done |].
        apply elem_of_enumerate, lookup_zip_with_Some. exists (l, s), ss. split_and!; try done.
        apply lookup_zip_with_Some. by exists l, s.
      * intros Hp. apply elem_of_app. right. apply elem_of_app. right. apply elem_of_app. right.
        apply list_elem_of_omap. exists (i, s). split; [by apply elem_of_enumerate |]. simpl. by rewrite Hp.
    + done.
    + intros t. clear Hn. unfold bind_listener in *. destruct w. simpl in *. subst. rewrite Hf.
      by case_match; [rewrite set_rlimit_again |].
  - split_and!; [split; [done |] | done | exact Hn | done]. intros [_ Hall]. apply Hbind in Hall as [bound Hb]. discriminate Hb.
Qed.

(** Listeners share the first one's idle timeout and the first TLS
    listener's certificate. Whatever [idleTimeoutMs] a listener was given, the
    connections it accepts are held to the value of the first listener in the
    configuration, and a route without a certificate of its own is served with the
    default certificate of the first TLS listener, on every listener. *)
Theorem listeners_share_the_first_settings `{TlsLib} `{Digests} `{NetLib} `{Lowercase} m cfg routes cs w k accepted nofile jobs sockets mx ctx :
  life m cfg routes cs w -> proxy_numbers cfg -> (start k accepted nofile w).1.1 = Ok tt ->
  sp_running (start k accepted nofile w).2 = Some jobs ->
  JobTls sockets mx ctx ∈ jobs ->
  cx_idle_timeout ctx = first_idle_timeout cfg /\ sp_default_listener_tls w = fallback_tls cfg.
Proof.
  intros Hl Hn Hok Hs Hj. destruct (proxy_life_ok _ _ _ _ _ Hl) as (_ & Hset & _). specialize (Hset Hn).
  split; [|apply (so_fallback _ _ Hset)]. rewrite <- (so_idle _ _ Hset).
  destruct (started_jobs _ _ _ _ _ Hok Hs) as [bound ->]. unfold jobs_of in Hj. rewrite !elem_of_app in Hj.
  destruct Hj as [Hj|[Hj|[Hj|Hj]]].
  - apply list_elem_of_fmap in Hj as ([i [[l s] ss]] & Hj & _). unfold listener_job in Hj. destruct (il_mode l); [|done].
    by injection Hj as -> -> ->.
  - apply list_elem_of_In in Hj. simpl in Hj. by destruct_or? Hj.
  - destruct (sp_malloc_trim_interval w); [|by apply not_elem_of_nil in Hj]. by apply list_elem_of_singleton in Hj.
  - apply list_elem_of_omap in Hj as ([i s] & _ & Hj). simpl in Hj. by destruct (ls_protection s).
Qed.

(** The second listener asks for a minute and gets the first one's five seconds. *)
Lemma listeners_share_the_first_settings_witness :
  exists w s (jobs : list job) sockets, SymphonyProxyWrap_new sample_machine sample_config = Ok w /\
    sp_states w !! 1%nat = Some s /\ ls_port s = 8443 /\ JobTls sockets 1000 (context_of w 1 s) ∈ jobs /\
    cx_idle_timeout (context_of w 1 s) = 5000000000.
Proof.
  destruct (sample_made (fun w => match sp_states w !! 1%nat, sp_listeners w !! 1%nat with
    | Some s, Some l => (ls_port s =? 8443) && (il_max_connections l =? 1000) && bool_decide (il_mode l = ModeTls)
    | _, _ => false end)) as (w & Hw & HP); [vm_compute; reflexivity |].
  destruct (sp_states w !! 1%nat) as [s|] eqn:Hs; [|discriminate HP].
  destruct (sp_listeners w !! 1%nat) as [l|] eqn:Hl; [|discriminate HP].
  rewrite !andb_true_iff in HP. destruct HP as [[Hport Hmax] Hmode]. apply Z.eqb_eq in Hport, Hmax.
  apply bool_decide_eq_true in Hmode.
  destruct (proj2 (try_bind (fun _ _ => willing) w)) as [bound Hb]; [intros i l2 _ j c _ _; reflexivity |].
  destruct (bound_sockets _ w bound 1 l Hb Hl) as (ss & Hss & _). exists w, s, (jobs_of w bound), ss.
  assert (JobTls ss 1000 (context_of w 1 s) ∈ jobs_of w bound) as Hj.
  { unfold jobs_of. apply elem_of_app. left. apply list_elem_of_fmap. exists (1%nat, (l, s, ss)).
    split; [unfold listener_job; rewrite Hmode, Hmax; reflexivity |].
    apply elem_of_enumerate, lookup_zip_with_Some. exists (l, s), ss. split_and!; [reflexivity | | exact Hss].
    apply lookup_zip_with_Some. exists l, s. split; [reflexivity |]. split; [exact Hl | exact Hs]. }
  split_and!; [exact Hw | exact Hs | exact Hport | exact Hj |].
  destruct (listeners_share_the_first_settings sample_machine sample_config (jx_routes sample_config) [] w (fun _ _ => willing) true None
    (jobs_of w bound) ss 1000 (context_of w 1 s)) as [Hidle _].
  - apply LifeNew. exact Hw.
  - split; exact I.
  - destruct (new_ok _ _ _ Hw) as (_ & _ & Hnone). unfold start. rewrite Hnone, Hb. reflexivity.
  - destruct (new_ok _ _ _ Hw) as (_ & _ & Hnone). unfold start. rewrite Hnone, Hb. reflexivity.
  - exact Hj.
  - rewrite Hidle. vm_compute. reflexivity.
Defined.
End Properties.
