(* ===== verification/ThreadCpu.v ===== *)
(** * CPU of the worker threads (src/src/thread_cpu.rs)

    The load of a balancer is the smoothed CPU use of the threads behind its
    sockets. A slot's configured ids may be of another PID namespace, so a slot
    is first tied to the process that owns its socket ([resolve_identity]); only
    then does what [sample] measures count as load ([load_sample]).

    The files of [/proc] and the inode of the socket are arguments of a pass, as
    they are when it reads them; the exponential is a parameter. A platform
    without [/proc] is [linux = false]. *)

From Stdlib Require Import SpecFloat.
From S2P Require Import Prelude Bytes Float64 HttpHead.

Open Scope Z_scope.

Definition SAMPLE_VALID_NS : Z := 1000000000.
Definition DISCOVERY_RETRY_NS : Z := 5000000000.
Definition OWNER_RECHECK_NS : Z := 30000000000.
Definition MAX_CONCURRENT_DISCOVERIES : nat := 64.
Definition LOAD_TIME_CONSTANT_NS : f64 := f64_of_Z 3000000000.

(** ** Reading /proc *)

Record TaskStat : Type := mkTaskStat { ticks : Z; ts_start : Z }.

(** [split_whitespace]; [fuel] is the length. *)
Fixpoint words (fuel : nat) (word s : bytes) : list bytes :=
  let flush := match word with [] => [] | _ => [word] end in
  match fuel, s with
  | S fuel', b :: s' =>
      match find_first (fun w => starts_with w s) ws_chars with
      | Some w => flush ++ words fuel' [] (drop (length w) s)
      | None => words fuel' (word ++ [b]) s'
      end
  | _, _ => flush
  end.
Definition split_whitespace (s : bytes) : list bytes := words (length s) [] s.

(** [s.rfind(b)] *)
Definition rfind (b : Z) (s : bytes) : option nat :=
  (fun i => length s - 1 - i)%nat <$> position (Z.eqb b) (rev s).

Definition parse_task_stat (content : bytes) : option TaskStat :=
  close ← rfind 41 content;
  let after_comm := trim_start_str (length content) (drop (close + 1) content) in
  let fields := split_whitespace after_comm in
  utime ← fields !! 11%nat ≫= parse_u64;
  stime ← fields !! 12%nat ≫= parse_u64;
  start ← fields !! 19%nat ≫= parse_u64;
  Some (mkTaskStat (u64_wrapping_add utime stime) start).

Definition nspid_label : bytes := bs "NSpid:".

(** A line's trailing carriage return would be whitespace to what follows. *)
Definition parse_nspid (status : bytes) : option (list Z) :=
  line ← find_first (starts_with nspid_label) (split_on 10 status);
  ids ← try_map_opt parse_u32 (split_whitespace (drop (length nspid_label) line));
  match ids with [] => None | _ => Some ids end.

(** The files that could be read: a task's stat, a process's status, and the
    statuses of its tasks, where one may be unreadable. *)
Record ProcFs : Type := mkProcFs {
  stat_file : Z -> Z -> option bytes;
  status_file : Z -> option bytes;
  task_dir : Z -> option (list (option bytes));
}.

Definition task_stat (p : ProcFs) (pid tid : Z) : option TaskStat := stat_file p pid tid ≫= parse_task_stat.

Record ProcessView : Type := mkView { innermost_pid : Z; nested : bool; threads : gmap Z Z }.

Definition add_thread (m : gmap Z Z) (status : option bytes) : gmap Z Z :=
  match status ≫= parse_nspid with
  | Some ids => match head ids, head (rev ids) with Some host, Some inner => <[inner := host]> m | _, _ => m end
  | None => m
  end.

Definition process_view (p : ProcFs) (host_pid : Z) : option ProcessView :=
  nspid ← status_file p host_pid ≫= parse_nspid;
  innermost ← head (rev nspid);
  if (length nspid =? 1)%nat then Some (mkView innermost false ∅)
  else
    entries ← task_dir p host_pid;
    Some (mkView innermost true (foldl add_thread ∅ entries)).

(** ** Whose thread it is *)

Inductive Identity : Type :=
  | Unresolved
  | Discovered (pid tid start : Z)
  | Literal.
#[global] Instance Identity_eq_dec : EqDecision Identity.
Proof. solve_decision. Defined.

(** A pass scans a process once ([views]); within a pass the files are the same. *)
Definition resolve_identity (configured_pid configured_tid owner : Z) (p : ProcFs) : Identity :=
  match process_view p owner with
  | None => Unresolved
  | Some view =>
      let host_tid :=
        if (innermost_pid view =? configured_pid) && negb (nested view) then Some (Some configured_tid)
        else if innermost_pid view =? configured_pid then Some (threads view !! configured_tid)
        else if owner =? configured_pid then Some (Some configured_tid)
        else None in
      match host_tid with
      | None => Literal
      | Some None => Unresolved
      | Some (Some tid) =>
          match task_stat p owner tid with
          | Some stat => Discovered owner tid (ts_start stat)
          | None => Unresolved
          end
      end
  end.

(** ** One slot's thread *)

(** What [sysconf] says, or a hundred ticks a second. *)
Definition clk_tck_hz (sysconf : Z) : Z := if 0 <? sysconf then sysconf else 100.

(** [socket_owner]: the process at the other end, when a connect reached it in
    time and the system names it. *)
Definition socket_owner (peer : option (option Z)) : option Z :=
  pid ← peer; pid ← pid; if (0 <? pid) && (pid <=? u32_max) then Some pid else None.

Record Discovery : Type := mkDiscovery { dc_owner : option Z; dc_inode : option Z }.

Record SampleState : Type := mkSample {
  identity : Identity;
  next_discovery_ns : Z;
  discovered : option Discovery;
  sm_inode : option Z;
  next_recheck_ns : Z;
  owner_changed : bool;
  last_pass_ns : Z;
  last_ticks : Z;
  last_ns : Z;
  valid_until_ns : Z;
  sm_util_permille : Z;
}.

(** [util_permille] is the copy the balancer reads. *)
Record ThreadCpu : Type := mkThread {
  tc_path : bytes;
  tc_pid : Z;
  tc_tid : Z;
  tc_util_permille : Z;
  tc_state : SampleState;
}.

Definition ThreadCpu_new (linux : bool) (path : bytes) (pid tid : Z) : ThreadCpu :=
  mkThread path pid tid 0
    (mkSample (if linux then Unresolved else Literal) 0 None None u64_max false 0 0 0 0 0).

Definition with_state (c : ThreadCpu) (util : Z) (s : SampleState) : ThreadCpu :=
  mkThread (tc_path c) (tc_pid c) (tc_tid c) util s.

Definition begin_discovery (linux : bool) (c : ThreadCpu) (now : Z) : bool * ThreadCpu :=
  let s := tc_state c in
  if negb linux || (now <? next_discovery_ns s) then (false, c)
  else (true, with_state c (tc_util_permille c)
    (mkSample (identity s) (u64_saturating_add now DISCOVERY_RETRY_NS) (discovered s) (sm_inode s) (next_recheck_ns s)
       (owner_changed s) (last_pass_ns s) (last_ticks s) (last_ns s) (valid_until_ns s) (sm_util_permille s))).

Definition finish_discovery (c : ThreadCpu) (d : Discovery) : ThreadCpu :=
  let s := tc_state c in
  with_state c (tc_util_permille c)
    (mkSample (identity s) (next_discovery_ns s) (Some d) (sm_inode s) (next_recheck_ns s)
       (owner_changed s) (last_pass_ns s) (last_ticks s) (last_ns s) (valid_until_ns s) (sm_util_permille s)).

Definition apply_discovery (c : ThreadCpu) (s : SampleState) (d : Discovery) (now : Z) (p : ProcFs) : SampleState :=
  match dc_owner d with
  | None =>
      mkSample (identity s) (u64_saturating_add now DISCOVERY_RETRY_NS) (discovered s) (sm_inode s) (next_recheck_ns s)
        (owner_changed s) (last_pass_ns s) (last_ticks s) (last_ns s) (valid_until_ns s) (sm_util_permille s)
  | Some owner =>
      let id := resolve_identity (tc_pid c) (tc_tid c) owner p in
      let unresolved := bool_decide (id = Unresolved) in
      let same := bool_decide (id = identity s) in
      mkSample id
        (if unresolved then u64_saturating_add now DISCOVERY_RETRY_NS else u64_max) (discovered s)
        (if unresolved then sm_inode s else dc_inode d)
        (if unresolved then u64_max else u64_saturating_add now OWNER_RECHECK_NS)
        false (last_pass_ns s) (last_ticks s)
        (if same then last_ns s else 0) (if same then valid_until_ns s else 0) (sm_util_permille s)
  end.

(** The pass has started and taken what a discovery left. *)
Definition take_discovery (c : ThreadCpu) (now : Z) (p : ProcFs) : SampleState :=
  let s := tc_state c in
  let s1 := mkSample (identity s) (next_discovery_ns s) None (sm_inode s) (next_recheck_ns s)
              (owner_changed s) now (last_ticks s) (last_ns s) (valid_until_ns s) (sm_util_permille s) in
  match discovered s with Some d => apply_discovery c s1 d now p | None => s1 end.

(** [inode] is the socket file's now. *)
Definition recheck_owner (s : SampleState) (now : Z) (inode : option Z) : SampleState :=
  if next_recheck_ns s <=? now then
    let changed := negb (bool_decide (inode = sm_inode s)) in
    mkSample (identity s) (if changed then now else next_discovery_ns s) (discovered s) (sm_inode s)
      (u64_saturating_add now OWNER_RECHECK_NS) (if changed then true else owner_changed s) (last_pass_ns s)
      (last_ticks s) (last_ns s) (if changed then 0 else valid_until_ns s) (sm_util_permille s)
  else s.

Definition set_util (s : SampleState) (util : Z) : SampleState :=
  mkSample (identity s) (next_discovery_ns s) (discovered s) (sm_inode s) (next_recheck_ns s)
    (owner_changed s) (last_pass_ns s) (last_ticks s) (last_ns s) (valid_until_ns s) util.

(** A thread that can no longer be read. *)
Definition lose_thread (s : SampleState) (now : Z) (was_discovered : bool) : SampleState :=
  mkSample (if was_discovered then Unresolved else identity s) (if was_discovered then now else next_discovery_ns s)
    (discovered s) (sm_inode s) (if was_discovered then u64_max else next_recheck_ns s)
    (owner_changed s) (last_pass_ns s) (last_ticks s) 0 0 0.

Definition utilisation (hz delta_ticks delta_ns : Z) : Z :=
  let delta_secs := f64_div (f64_of_Z delta_ns) (f64_of_Z 1000000000) in
  f64_as_u32 (f64_min (f64_mul (f64_div (f64_of_Z delta_ticks) (f64_mul delta_secs (f64_of_Z hz))) (f64_of_Z 1000))
                (f64_of_Z 1000)).

(** [now + SAMPLE_VALID_NS] is computed in u64. *)
Definition take_sample (hz : Z) (s : SampleState) (stat : TaskStat) (now : Z) (was_discovered : bool) : SampleState :=
  let measured := 0 <? last_ns s in
  let util := utilisation hz (saturating_sub (ticks stat) (last_ticks s)) (now - last_ns s) in
  mkSample (identity s) (next_discovery_ns s) (discovered s) (sm_inode s) (next_recheck_ns s)
    (owner_changed s) (last_pass_ns s) (ticks stat) now
    (if measured && was_discovered && negb (owner_changed s) then u64_wrapping_add now SAMPLE_VALID_NS else valid_until_ns s)
    (if measured then util else sm_util_permille s).

Definition sample (hz : Z) (c : ThreadCpu) (now : Z) (p : ProcFs) (inode : option Z) : ThreadCpu :=
  if now <=? last_pass_ns (tc_state c) then c
  else
    let s := recheck_owner (take_discovery c now p) now inode in
    match identity s with
    | Unresolved => with_state c 0 (set_util s 0)
    | id =>
        let '(pid, tid, start) :=
          match id with Discovered pid tid start => (pid, tid, Some start) | _ => (tc_pid c, tc_tid c, None) end in
        let was_discovered := bool_decide (is_Some start) in
        match task_stat p pid tid with
        | Some stat =>
            if match start with Some st => st =? ts_start stat | None => true end then
              let s' := take_sample hz s stat now was_discovered in
              with_state c (if 0 <? last_ns s then sm_util_permille s' else tc_util_permille c) s'
            else with_state c 0 (lose_thread s now was_discovered)
        | None => with_state c 0 (lose_thread s now was_discovered)
        end
    end.

Definition load_sample (c : ThreadCpu) (now : Z) : option Z :=
  if now <? valid_until_ns (tc_state c) then Some (sm_util_permille (tc_state c)) else None.

(** ** The smoothed load *)

Record LoadEwma : Type := mkEwma { ew_value : option (f64 * Z); ew_last_pass_ns : Z; published : Z }.
Definition LoadEwma_default : LoadEwma := mkEwma None 0 0.

Definition load_get (e : LoadEwma) (now : Z) : option (Z * Z) :=
  let until_ms := Z.shiftr (published e) 10 in
  if now / 1000000 <? until_ms then Some (Z.land (published e) 1023, until_ms) else None.

Section Load.
Context (f64_exp : f64 -> f64).

Definition smoothed (value : option (f64 * Z)) (mean now : Z) : f64 :=
  match value with
  | Some (v, at_ns) =>
      if now - at_ns <? 3 * f64_as_u64 LOAD_TIME_CONSTANT_NS then
        let alpha := f64_sub (f64_of_Z 1)
                       (f64_exp (f64_div (SFopp (f64_of_Z (now - at_ns))) LOAD_TIME_CONSTANT_NS)) in
        f64_add v (f64_mul alpha (f64_sub (f64_of_Z mean) v))
      else f64_of_Z mean
  | None => f64_of_Z mean
  end.

(** [until_ms << 10] in u64 *)
Definition load_update (e : LoadEwma) (mean : option Z) (now : Z) : LoadEwma :=
  if now <=? ew_last_pass_ns e then e
  else
    match mean with
    | None => mkEwma (ew_value e) now 0
    | Some mean =>
        let v := smoothed (ew_value e) mean now in
        let permille := Z.min (f64_as_u64 (f64_round v)) 1000 in
        let until_ms := u64_wrapping_add now SAMPLE_VALID_NS / 1000000 in
        mkEwma (Some (v, now)) now (Z.lor (Z.shiftl until_ms 10 mod (u64_max + 1)) permille)
    end.

(** ** A pass over the table *)

(** The threads and the loads, by cell; a balancer is its load cell and the cells
    of its threads. *)
Record sampler : Type := mkSampler { sa_threads : gmap nat ThreadCpu; sa_loads : gmap nat LoadEwma }.

Record balancer_cells : Type := mkCells { bc_load : nat; bc_threads : list nat }.

(** One thread of the inner loop: sampled, then added when it counts. *)
Definition sample_thread (hz now : Z) (p : ProcFs) (inodes : nat -> option Z)
    (acc : gmap nat ThreadCpu * Z * Z) (c : nat) : gmap nat ThreadCpu * Z * Z :=
  let '(ts, sum, count) := acc in
  match ts !! c with
  | None => acc
  | Some t =>
      let t' := sample hz t now p (inodes c) in
      let ts' := <[c := t']> ts in
      match load_sample t' now with
      | Some util => (ts', sum + util, count + 1)
      | None => (ts', sum, count)
      end
  end.

Definition sample_balancer (hz now : Z) (p : ProcFs) (inodes : nat -> option Z) (sa : sampler) (b : balancer_cells)
    : sampler :=
  let '(ts, sum, count) := foldl (sample_thread hz now p inodes) (sa_threads sa, 0, 0) (bc_threads b) in
  let e := default LoadEwma_default (sa_loads sa !! bc_load b) in
  mkSampler ts (<[bc_load b := load_update e (if 0 <? count then Some (sum / count) else None) now]> (sa_loads sa)).

Definition sample_table (hz now : Z) (p : ProcFs) (inodes : nat -> option Z) (sa : sampler)
    (balancers : list balancer_cells) : sampler := foldl (sample_balancer hz now p inodes) sa balancers.

(** ** Scheduling discoveries *)

(** The loop over the due slots: from [cursor], round, while there is room for
    another connect. [running] is how many are under way; the slots started, and
    where the next pass starts. *)
Fixpoint start_discoveries (linux : bool) (now : Z) (cpus : list nat) (cursor i fuel running : nat)
    (ts : gmap nat ThreadCpu) : list nat * nat * gmap nat ThreadCpu :=
  match fuel with
  | O => ([], cursor, ts)
  | S fuel' =>
      let n := length cpus in
      if (MAX_CONCURRENT_DISCOVERIES <=? running)%nat then ([], ((cursor + i) mod n)%nat, ts)
      else
        match cpus !! ((cursor + i) mod n)%nat with
        | None => ([], cursor, ts)
        | Some c =>
            match ts !! c with
            | None => start_discoveries linux now cpus cursor (S i) fuel' running ts
            | Some t =>
                let '(begun, t') := begin_discovery linux t now in
                let '(started, cursor', ts') :=
                  start_discoveries linux now cpus cursor (S i) fuel' (if begun then S running else running)
                    (<[c := t']> ts) in
                (if begun then c :: started else started, cursor', ts')
            end
        end
  end.
Definition discovery_pass (linux : bool) (now : Z) (cpus : list nat) (cursor running : nat) (ts : gmap nat ThreadCpu)
    : list nat * nat * gmap nat ThreadCpu := start_discoveries linux now cpus cursor 0 (length cpus) running ts.
End Load.

Example stat_with_parens :
  parse_task_stat (bs "7 (a) b) S 1 2 3 4 5 6 7 8 9 10 40 2 13 14 15 16 17 18 99 20") = Some (mkTaskStat 42 99).
Proof. reflexivity. Qed.
Example nspid_nested : parse_nspid (bs "Name: x" ++ [10] ++ bs "NSpid:" ++ [9] ++ bs "4711" ++ [9] ++ bs "12") = Some [4711; 12].
Proof. reflexivity. Qed.

(** ** A thread's history *)

Inductive cpu_op : Type :=
  | CoBegin (now : Z)
  | CoFinish (d : Discovery)
  | CoSample (hz now : Z) (p : ProcFs) (inode : option Z).

Definition cpu_step (linux : bool) (c : ThreadCpu) (o : cpu_op) : ThreadCpu :=
  match o with
  | CoBegin now => (begin_discovery linux c now).2
  | CoFinish d => finish_discovery c d
  | CoSample hz now p inode => sample hz c now p inode
  end.
Definition cpu_run (linux : bool) (c : ThreadCpu) (ops : list cpu_op) : ThreadCpu := foldl (cpu_step linux) c ops.

(** When the last pass of a history was; a pass that is not later than it changes
    nothing. *)
Definition pass_of (last : Z) (o : cpu_op) : Z := match o with CoSample _ t _ _ => Z.max last t | _ => last end.
Definition last_pass (ops : list cpu_op) : Z := foldl pass_of 0 ops.

(** The looks a history owes the socket file: one at the first pass that is due,
    the next due [OWNER_RECHECK_NS] later; the inodes the file had at each. *)
Definition look (x : Z * Z * list (option Z)) (o : cpu_op) : Z * Z * list (option Z) :=
  match o with
  | CoSample _ t _ inode =>
      let '(last, due, seen) := x in
      if t <=? last then x
      else if due <=? t then (t, u64_saturating_add t OWNER_RECHECK_NS, seen ++ [inode])
      else (t, due, seen)
  | _ => x
  end.
Definition looks (last due : Z) (ops : list cpu_op) : Z * Z * list (option Z) := foldl look (last, due, []) ops.

(** The pass that tied the thread to the socket: a connect before it found the
    process that owns the socket, when the file had that inode, and the configured
    ids named this thread of it; [x] is what the looks owed since have found. *)
Definition watched (ops : list cpu_op) (cpid ctid pid tid start : Z) (inode : option Z) (x : Z * Z * list (option Z)) : Prop :=
  exists before hz t p i after d, ops = before ++ CoSample hz t p i :: after /\ last_pass before < t /\
    CoFinish d ∈ before /\ dc_owner d = Some pid /\ dc_inode d = inode /\
    resolve_identity cpid ctid pid p = Discovered pid tid start /\
    looks (last_pass before) (u64_saturating_add t OWNER_RECHECK_NS) (CoSample hz t p i :: after) = x.

(** Tied, and every look owed since found the file the connect went to. *)
Definition tied (ops : list cpu_op) (cpid ctid pid tid start : Z) : Prop :=
  exists inode last due seen, watched ops cpid ctid pid tid start inode (last, due, seen) /\ Forall (eq inode) seen.

(** A pass at [t] read the thread's own ticks. *)
Definition read_at (ops : list cpu_op) (pid tid start hz t : Z) (st : TaskStat) : Prop :=
  exists p i, CoSample hz t p i ∈ ops /\ task_stat p pid tid = Some st /\ ts_start st = start.

(** [u] is what the thread used between two passes that read it, the later of them
    within [SAMPLE_VALID_NS] of [until]. *)
Definition measured_until (ops : list cpu_op) (pid tid start u until : Z) : Prop :=
  exists hz hz' t t' st st', read_at ops pid tid start hz' t' st' /\ read_at ops pid tid start hz t st /\ 0 < t' < t /\
    u = utilisation hz (saturating_sub (ticks st) (ticks st')) (t - t') /\ until <= t + SAMPLE_VALID_NS.

(** What a thread's state knows of its history; [adv] is the look the pass under
    way still owes, [last] the pass before it. *)
Record thread_ok (ops : list cpu_op) (adv : Z * Z * list (option Z) -> Z * Z * list (option Z)) (last cpid ctid : Z)
    (s : SampleState) : Prop := {
  ok_discovered : forall d, discovered s = Some d -> CoFinish d ∈ ops;
  ok_last : last_ns s <= last;
  ok_identity : forall pid tid start, identity s = Discovered pid tid start ->
    exists seen, watched ops cpid ctid pid tid start (sm_inode s) (adv (last, next_recheck_ns s, seen)) /\
      (owner_changed s = false -> Forall (eq (sm_inode s)) seen);
  ok_read : forall pid tid start, identity s = Discovered pid tid start -> 0 < last_ns s ->
    exists hz st, read_at ops pid tid start hz (last_ns s) st /\ ticks st = last_ticks s;
  ok_valid : 0 < valid_until_ns s -> exists pid tid start, identity s = Discovered pid tid start /\
    owner_changed s = false /\ measured_until ops pid tid start (sm_util_permille s) (valid_until_ns s);
}.
Definition state_ok (ops : list cpu_op) (cpid ctid : Z) (s : SampleState) : Prop :=
  thread_ok ops id (last_pass ops) cpid ctid s /\ last_pass_ns s = last_pass ops.

Lemma last_pass_snoc ops o : last_pass (ops ++ [o]) = pass_of (last_pass ops) o.
Proof. unfold last_pass. by rewrite foldl_app. Qed.

Lemma last_pass_nonneg ops : 0 <= last_pass ops.
Proof. induction ops as [|o ops IH] using rev_ind; [done |]. rewrite last_pass_snoc. destruct o; simpl; lia. Qed.

Lemma read_more ops o pid tid start hz t st : read_at ops pid tid start hz t st -> read_at (ops ++ [o]) pid tid start hz t st.
Proof. intros (p & i & Hs & Hr). exists p, i. split; [apply elem_of_app; by left | done]. Qed.
Lemma measured_more ops o pid tid start u v : measured_until ops pid tid start u v -> measured_until (ops ++ [o]) pid tid start u v.
Proof.
  intros (hz & hz' & t & t' & st & st' & Hr' & Hr & Hrest). exists hz, hz', t, t', st, st'.
  split; [by apply read_more |]. split; [by apply read_more | exact Hrest].
Qed.
Lemma watched_more ops o cpid ctid pid tid start inode x :
  watched ops cpid ctid pid tid start inode x -> watched (ops ++ [o]) cpid ctid pid tid start inode (look x o).
Proof.
  intros (before & hz & t & p & i & after & d & -> & ? & ? & ? & ? & ? & <-).
  exists before, hz, t, p, i, (after ++ [o]), d. split_and!; try done; [by rewrite <- (assoc (++)) |].
  unfold looks. by rewrite app_comm_cons, foldl_app.
Qed.
Lemma thread_more ops o cpid ctid s :
  thread_ok ops id (last_pass ops) cpid ctid s -> thread_ok (ops ++ [o]) (fun x => look x o) (last_pass ops) cpid ctid s.
Proof.
  intros [Hd Hl Hi Hr Hv]. split; [| done | | |].
  - intros d Hs. apply elem_of_app. left. by apply Hd.
  - intros pid tid start Hs. destruct (Hi _ _ _ Hs) as (seen & Hw & Hseen). exists seen. split; [by apply watched_more | done].
  - intros pid tid start Hs Hp. destruct (Hr _ _ _ Hs Hp) as (hz & st & Hread & ?). exists hz, st. eauto using read_more.
  - intros Hp. destruct (Hv Hp) as (pid & tid & start & ? & ? & ?). exists pid, tid, start. eauto using measured_more.
Qed.

(** A step that is no pass, or one that is not later than the last. *)
Lemma thread_idle ops o cpid ctid s :
  (match o with CoSample _ t _ _ => t <= last_pass ops | _ => True end) ->
  thread_ok (ops ++ [o]) (fun x => look x o) (last_pass ops) cpid ctid s -> last_pass_ns s = last_pass ops ->
  state_ok (ops ++ [o]) cpid ctid s.
Proof.
  intros Ho [Hd Hl Hi Hr Hv] Hp.
  assert (last_pass (ops ++ [o]) = last_pass ops) as Hlast by (rewrite last_pass_snoc; destruct o; simpl; lia).
  split; [|congruence]. rewrite Hlast. split; try done. intros pid tid start Hs.
  destruct (Hi _ _ _ Hs) as (seen & Hw & Hseen). exists seen. split; [|done]. simpl in Hw.
  destruct o as [| |hz t p i]; try exact Hw. simpl in Hw. by destruct (Z.leb_spec t (last_pass ops)); [|lia].
Qed.

Section Pass.
Context (ops : list cpu_op) (cpid ctid hz now : Z) (p : ProcFs) (i : option Z).
Context (Hlater : last_pass ops < now).
Local Abbreviation o := (CoSample hz now p i).
Local Abbreviation during := (thread_ok (ops ++ [o]) (fun x => look x o) (last_pass ops) cpid ctid).
Local Abbreviation done_ := (thread_ok (ops ++ [o]) id now cpid ctid).

Lemma resolved_owner owner pid tid start :
  resolve_identity cpid ctid owner p = Discovered pid tid start -> owner = pid.
Proof. unfold resolve_identity. intros Hid. repeat (case_match; simplify_eq; try done). Qed.

(** The pass takes what a discovery left. *)
Lemma take_discovery_ok c :
  tc_pid c = cpid -> tc_tid c = ctid -> (forall d, discovered (tc_state c) = Some d -> CoFinish d ∈ ops) ->
  during (tc_state c) -> during (take_discovery c now p).
Proof.
  intros Hpid Htid Hfin [Hd Hl Hi Hr Hv]. unfold take_discovery. cbv zeta.
  destruct (discovered (tc_state c)) as [d|] eqn:Hdisc; [|by split].
  unfold apply_discovery. simpl. destruct (dc_owner d) as [owner|] eqn:Ho; [|by split]. rewrite Hpid, Htid.
  pose proof (last_pass_nonneg ops) as Hpos. set (id := resolve_identity cpid ctid owner p).
  assert (forall pid tid start v, id = Discovered pid tid start ->
    0 < (if bool_decide (id = identity (tc_state c)) then v else 0) ->
    identity (tc_state c) = Discovered pid tid start /\ bool_decide (id = identity (tc_state c)) = true) as Hsame.
  { intros pid tid start v Hid. case_bool_decide; [by rewrite <- Hid | lia]. }
  split; simpl; [done | by case_bool_decide | | |].
  - intros pid tid start Hid. pose proof (resolved_owner _ _ _ _ Hid) as ->. rewrite Hid. exists []. split; [|done].
    rewrite bool_decide_false by done. exists ops, hz, now, p, i, [], d. split_and!; auto.
  - intros pid tid start Hid Hn. destruct (Hsame _ _ _ _ Hid Hn) as [Hold ->]. apply Hr; [done |]. by case_bool_decide.
  - case_bool_decide as Hs; [|lia]. rewrite Hs. intros Hp. destruct (Hv Hp) as (pid & tid & start & ? & ? & ?). by exists pid, tid, start.
Qed.

(** It looks at the socket file when that is due. *)
Lemma recheck_ok s : during s -> done_ (recheck_owner s now i).
Proof.
  intros [Hd Hl Hi Hr Hv]. unfold recheck_owner. simpl in Hi.
  assert ((now <=? last_pass ops) = false) as Hn by (apply Z.leb_gt; lia). rewrite Hn in Hi.
  destruct (next_recheck_ns s <=? now); cbv zeta; split; simpl; try done; try lia.
  - intros pid tid start Hid. destruct (Hi _ _ _ Hid) as (seen & Hw & Hseen). exists (seen ++ [i]). split; [exact Hw |].
    case_bool_decide as Hsame; [|done]. intros Ho. apply Forall_app. split; [by apply Hseen | by constructor].
  - case_bool_decide; simpl; [done | lia].
Qed.

Lemma lose_ok s b : done_ s -> done_ (lose_thread s now b).
Proof.
  intros [Hd Hl Hi Hr Hv]. pose proof (last_pass_nonneg ops). split; simpl; [done | lia | | |]; try lia.
  all: destruct b; try done; try lia.
Qed.

Lemma take_sample_ok s stat pid tid start b :
  done_ s -> last_ns s <= last_pass ops -> task_stat p pid tid = Some stat ->
  (b = true -> identity s = Discovered pid tid start /\ ts_start stat = start) ->
  (b = false -> identity s = Literal) -> done_ (take_sample hz s stat now b).
Proof.
  intros [Hd Hl Hi Hr Hv] Hlast Hstat Hb Hlit. assert (o ∈ ops ++ [o]) as Hin by (apply elem_of_app; right; by apply list_elem_of_singleton).
  assert (forall pid' tid' start', identity s = Discovered pid' tid' start' -> b = true /\ pid' = pid /\ tid' = tid /\ start' = start) as Hsame.
  { intros pid' tid' start' Hid. destruct b; [|by rewrite Hlit in Hid]. destruct (Hb eq_refl) as [Hid' _]. rewrite Hid' in Hid. by simplify_eq. }
  split; simpl; [done | lia | done | |].
  - intros ? ? ? Hid _. destruct (Hsame _ _ _ Hid) as (-> & -> & -> & ->). destruct (Hb eq_refl) as [_ Hst].
    exists hz, stat. split; [|done]. by exists p, i.
  - destruct (Z.ltb_spec 0 (last_ns s)) as [Hm|]; [|done]. simpl. destruct b; simpl.
    2:{ intros Hp. destruct (Hv Hp) as (? & ? & ? & Hid & _). by rewrite Hlit in Hid. }
    destruct (owner_changed s) eqn:Ho; simpl.
    { intros Hp. by destruct (Hv Hp) as (? & ? & ? & _ & ? & _). }
    intros _. destruct (Hb eq_refl) as [Hid Hst]. destruct (Hr _ _ _ Hid Hm) as (hz' & st' & Hread & Ht).
    exists pid, tid, start. split_and!; [done | done |].
    exists hz, hz', now, (last_ns s), stat, st'. split_and!; [done | by exists p, i | lia | lia | by rewrite Ht |].
    unfold u64_wrapping_add, u64_max, SAMPLE_VALID_NS. apply Z.mod_le; lia.
Qed.

Lemma sample_ok c :
  tc_pid c = cpid -> tc_tid c = ctid -> state_ok ops cpid ctid (tc_state c) ->
  state_ok (ops ++ [o]) cpid ctid (tc_state (sample hz c now p i)).
Proof.
  intros Hpid Htid [Hok Hlp]. pose proof (ok_discovered _ _ _ _ _ _ Hok) as Hfin. pose proof (thread_more _ o _ _ _ Hok) as Hok'.
  pose proof (take_discovery_ok c Hpid Htid Hfin Hok') as Hs. pose proof (ok_last _ _ _ _ _ _ Hs) as Hlast. apply recheck_ok in Hs.
  unfold state_ok. rewrite last_pass_snoc. simpl pass_of. rewrite Z.max_r by lia.
  unfold sample. rewrite Hlp. destruct (Z.leb_spec now (last_pass ops)); [lia |]. cbv zeta.
  assert (last_pass_ns (recheck_owner (take_discovery c now p) now i) = now) as Hnow
    by (unfold recheck_owner, take_discovery, apply_discovery; repeat case_match; done).
  assert (last_ns (recheck_owner (take_discovery c now p) now i) <= last_pass ops) as Hl
    by (unfold recheck_owner; by destruct (_ <=? _)).
  set (s := recheck_owner (take_discovery c now p) now i) in *. clearbody s.
  destruct (identity s) as [|pid tid start|] eqn:Hid.
  - split; [|done]. destruct Hs as [? ? ? ? Hv]. split; simpl; try done. intros Hp. destruct (Hv Hp) as (? & ? & ? & ? & _). congruence.
  - destruct (task_stat p pid tid) as [stat|] eqn:Hstat; [|by split; [apply lose_ok |]].
    destruct (Z.eqb_spec start (ts_start stat)) as [Heq|]; [|by split; [apply lose_ok |]].
    simpl. split; [|done]. by eapply take_sample_ok with (start := start).
  - destruct (task_stat p (tc_pid c) (tc_tid c)) as [stat|] eqn:Hstat; [|by split; [apply lose_ok |]].
    simpl. split; [|done]. by eapply take_sample_ok with (start := 0).
Qed.
End Pass.

Lemma cpu_step_config linux c o : tc_pid (cpu_step linux c o) = tc_pid c /\ tc_tid (cpu_step linux c o) = tc_tid c.
Proof.
  destruct o as [now|d|hz now p i]; simpl; [unfold begin_discovery; by destruct (_ || _) | done |].
  unfold sample. by repeat (case_match; try done).
Qed.

Lemma cpu_run_ok linux path pid tid ops :
  let c := cpu_run linux (ThreadCpu_new linux path pid tid) ops in
  state_ok ops pid tid (tc_state c) /\ tc_pid c = pid /\ tc_tid c = tid.
Proof.
  unfold cpu_run. induction ops as [|o ops (Hok & Hp & Ht)] using rev_ind.
  - split; [|done]. split; [|done]. split; simpl; try done; try lia; by destruct linux.
  - rewrite foldl_app. simpl. set (c := foldl (cpu_step linux) _ ops) in *.
    destruct (cpu_step_config linux c o) as [-> ->]. split; [|done].
    destruct o as [now|d|hz now p i]; simpl.
    + destruct Hok as [Hok Hl]. unfold begin_discovery. apply (thread_more _ (CoBegin now)) in Hok.
      destruct (_ || _); apply thread_idle; try done. by destruct Hok.
    + destruct Hok as [Hok Hl]. apply (thread_more _ (CoFinish d)) in Hok. apply thread_idle; [done | | done].
      destruct Hok. split; simpl; try done. intros d' [= <-]. apply elem_of_app. right. by apply list_elem_of_singleton.
    + destruct (Z.leb_spec now (last_pass ops)) as [Hle|Hgt]; [|by apply sample_ok].
      destruct Hok as [Hok Hl]. unfold sample. rewrite Hl. destruct (Z.leb_spec now (last_pass ops)); [|lia].
      apply (thread_more _ (CoSample hz now p i)) in Hok. by apply thread_idle.
Qed.

(** ** The published load *)

Lemma sample_last_pass hz c now p i : now <= last_pass_ns (tc_state (sample hz c now p i)).
Proof.
  unfold sample. destruct (Z.leb_spec now (last_pass_ns (tc_state c))); [done |].
  assert (last_pass_ns (recheck_owner (take_discovery c now p) now i) = now) as Hl
    by (unfold recheck_owner, take_discovery, apply_discovery; repeat case_match; done).
  cbv zeta. repeat (case_match; simpl; try lia).
Qed.

Lemma sample_again hz c now p i i' : sample hz (sample hz c now p i) now p i' = sample hz c now p i.
Proof. pose proof (sample_last_pass hz c now p i). unfold sample at 1. by destruct (Z.leb_spec now (last_pass_ns (tc_state (sample hz c now p i)))); [|lia]. Qed.

Lemma land_low a b : 0 <= b < 1024 -> Z.land (Z.lor (Z.shiftl a 10) b) 1023 = b.
Proof.
  intros Hb. rewrite Z.land_lor_distr_l. change 1023 with (Z.ones 10). rewrite !Z.land_ones, Z.shiftl_mul_pow2 by lia.
  rewrite Z.mod_mul, Z.lor_0_l by lia. apply Z.mod_small. lia.
Qed.
Lemma shiftr_until a b : 0 <= b < 1024 -> Z.shiftr (Z.lor (Z.shiftl a 10) b) 10 = a.
Proof.
  intros Hb. rewrite Z.shiftr_lor, Z.shiftr_shiftl_l, Z.sub_diag, Z.shiftl_0_r by lia.
  rewrite (Z.shiftr_div_pow2 b), Z.div_small, Z.lor_0_r; lia.
Qed.

(** The clock's range: the packed word holds 54 bits of milliseconds. *)
Definition clock_ok (now : Z) : Prop := 0 <= now < 2 ^ 63.

Lemma until_small now : clock_ok now -> u64_wrapping_add now SAMPLE_VALID_NS = now + SAMPLE_VALID_NS.
Proof. unfold clock_ok, u64_wrapping_add, SAMPLE_VALID_NS, u64_max. intros. apply Z.mod_small. lia. Qed.

Section Published.
Context (f64_exp : f64 -> f64).
Local Abbreviation load_update := (load_update f64_exp).
Local Abbreviation sample_balancer := (sample_balancer f64_exp).

Lemma load_get_update e mean now t :
  clock_ok now -> ew_last_pass_ns e < now ->
  exists permille, 0 <= permille <= 1000 /\
  load_get (load_update e (Some mean) now) t =
    if t / 1000000 <? (now + SAMPLE_VALID_NS) / 1000000 then Some (permille, (now + SAMPLE_VALID_NS) / 1000000) else None.
Proof.
  intros Hn Hl. unfold ThreadCpu.load_update. destruct (Z.leb_spec now (ew_last_pass_ns e)); [lia |].
  rewrite until_small by done. set (v := smoothed _ _ _ _). set (u := (now + SAMPLE_VALID_NS) / 1000000).
  set (pm := Z.min (f64_as_u64 (f64_round v)) 1000). assert (0 <= pm <= 1000) as Hp.
  { pose proof (f64_as_u64_bounds (f64_round v)) as Hb. unfold is_u64 in Hb. unfold pm. lia. }
  exists pm. split; [done |]. unfold load_get. simpl published.
  assert (0 <= u < 2 ^ 54) as Hu. { unfold clock_ok in Hn. unfold u, SAMPLE_VALID_NS. split; [apply Z.div_pos | apply Z.div_lt_upper_bound]; lia. }
  rewrite Z.mod_small by (rewrite Z.shiftl_mul_pow2 by lia; unfold u64_max; lia).
  rewrite shiftr_until, land_low by lia. reflexivity.
Qed.

Lemma load_get_unknown e now t : ew_last_pass_ns e < now -> 0 <= t -> load_get (load_update e None now) t = None.
Proof.
  intros Hl Ht. unfold ThreadCpu.load_update. destruct (Z.leb_spec now (ew_last_pass_ns e)); [lia |]. unfold load_get.
  cbn [published]. change (Z.shiftr 0 10) with 0. cbv zeta. destruct (Z.ltb_spec (t / 1000000) 0); [|done]. pose proof (Z.div_pos t 1000000). lia.
Qed.

(** A cell the pass has sampled at [now]: sampling it again there changes nothing. *)
Definition settled (hz now : Z) (p : ProcFs) (ts : gmap nat ThreadCpu) (c : nat) : Prop :=
  forall t i, ts !! c = Some t -> sample hz t now p i = t.
Definition counted (now : Z) (ts : gmap nat ThreadCpu) (c : nat) : Prop :=
  exists t u, ts !! c = Some t /\ load_sample t now = Some u.

Lemma sample_thread_step hz now p inodes ts sum count c :
  let '(ts', sum', count') := sample_thread hz now p inodes (ts, sum, count) c in
  (forall d, settled hz now p ts d -> ts' !! d = ts !! d) /\ settled hz now p ts' c /\ count <= count' /\
  (count < count' <-> counted now ts' c).
Proof.
  simpl. destruct (ts !! c) as [t|] eqn:Ht.
  2:{ split_and!; [done | intros ? ? ?; congruence | lia | split; [lia |]]. intros (t & u & ? & ?). congruence. }
  set (t' := sample hz t now p (inodes c)).
  assert (forall d, settled hz now p ts d -> <[c := t']> ts !! d = ts !! d) as Hk.
  { intros d Hd. destruct (decide (c = d)) as [<-|]; [|by apply lookup_insert_ne].
    rewrite lookup_insert_eq, Ht. f_equal. by apply Hd. }
  assert (settled hz now p (<[c := t']> ts) c) as Hc.
  { intros ? i. rewrite lookup_insert_eq. intros [= <-]. apply sample_again. }
  destruct (load_sample t' now) as [u|] eqn:Hu; (split_and!; [done | done | lia | split; [try lia |]]).
  - intros _. exists t', u. by rewrite lookup_insert_eq.
  - lia.
  - intros (x & u & Hx & Hxu). rewrite lookup_insert_eq in Hx. congruence.
Qed.

Lemma sample_threads_count hz now p inodes cs ts sum count :
  let '(ts', sum', count') := foldl (sample_thread hz now p inodes) (ts, sum, count) cs in
  (forall d, settled hz now p ts d -> ts' !! d = ts !! d) /\ count <= count' /\
  (count < count' <-> Exists (counted now ts') cs).
Proof.
  revert ts sum count. induction cs as [|c cs IH]; intros ts sum count.
  { split_and!; [done | lia | split; [lia | by intros ?%Exists_nil]]. }
  pose proof (sample_thread_step hz now p inodes ts sum count c) as Hs.
  cbn [foldl]. destruct (sample_thread _ _ _ _ _ c) as [[ts1 sum1] count1]. destruct Hs as (Hk & Hc & Hle & Hiff).
  specialize (IH ts1 sum1 count1). destruct (foldl _ _ cs) as [[ts2 sum2] count2]. cbv beta iota in *. destruct IH as (Hk2 & Hle2 & Hiff2).
  assert (counted now ts2 c <-> counted now ts1 c) as Hsame by (unfold counted; by rewrite (Hk2 c Hc)).
  split; [|split; [lia |]].
  - intros d Hd. rewrite Hk2, Hk; [done .. |]. intros t i Ht. rewrite (Hk d Hd) in Ht. by apply Hd.
  - rewrite Exists_cons, Hsame, <- Hiff, <- Hiff2. lia.
Qed.

Lemma balancer_load hz now p inodes sa b e t :
  clock_ok now -> 0 <= t -> sa_loads sa !! bc_load b = Some e -> ew_last_pass_ns e < now ->
  let sa' := sample_balancer hz now p inodes sa b in
  exists e' permille, sa_loads sa' !! bc_load b = Some e' /\ 0 <= permille <= 1000 /\
  (Exists (counted now (sa_threads sa')) (bc_threads b) ->
     load_get e' t = if t / 1000000 <? (now + SAMPLE_VALID_NS) / 1000000 then Some (permille, (now + SAMPLE_VALID_NS) / 1000000) else None) /\
  (~ Exists (counted now (sa_threads sa')) (bc_threads b) -> load_get e' t = None).
Proof.
  intros Hn Ht He Hl. cbv zeta. unfold ThreadCpu.sample_balancer.
  pose proof (sample_threads_count hz now p inodes (bc_threads b) (sa_threads sa) 0 0) as Hc.
  destruct (foldl _ _ _) as [[ts sum] count]. destruct Hc as (_ & Hle & Hiff). cbv beta iota zeta. rewrite He. simpl.
  destruct (Z.ltb_spec 0 count) as [Hpos|Hz].
  - destruct (load_get_update e (sum / count) now t Hn Hl) as (pm & Hpm & Hget). eexists _, pm.
    split_and!; [apply lookup_insert_eq | apply Hpm | apply Hpm | done |]. intros Hno. by destruct Hno; apply Hiff.
  - eexists _, 0. split_and!; [apply lookup_insert_eq | done | done | intros Hyes; apply Hiff in Hyes; lia |].
    intros _. by apply load_get_unknown.
Qed.
End Published.

Module Properties.

(** C32: A thread's utilisation counts towards the load of its socket only while
    it is tied to it. Whatever discoveries and sampling passes came before, in any
    order, when [load_sample] gives a value: a connect named the process that owns
    the socket, and a later pass resolved the configured ids to this thread of that
    process; ever since, the socket file was looked at in the first pass
    [OWNER_RECHECK_NS] after that one, and in the first pass [OWNER_RECHECK_NS]
    after each look, and every one of those looks found the inode the connect went
    to; and the value is what that very thread (the same start time, so not another
    thread that was given its id) used between two passes that read it, the later
    of them less than [SAMPLE_VALID_NS] ago. *)
Theorem only_tied_threads_count linux path pid tid ops now u :
  0 <= now -> load_sample (cpu_run linux (ThreadCpu_new linux path pid tid) ops) now = Some u ->
  exists hpid htid start until, tied ops pid tid hpid htid start /\
    measured_until ops hpid htid start u until /\ now < until.
Proof.
  intros Hnow. destruct (cpu_run_ok linux path pid tid ops) as ([[_ _ Hi _ Hv] _] & _ & _). unfold load_sample.
  set (s := tc_state _) in *. destruct (Z.ltb_spec now (valid_until_ns s)) as [Hlt|]; [|done]. intros [= <-].
  destruct (Hv ltac:(lia)) as (hpid & htid & start & Hid & Ho & Hm). destruct (Hi _ _ _ Hid) as (seen & Hw & Hseen).
  exists hpid, htid, start, (valid_until_ns s). split; [|done]. exists (sm_inode s), (last_pass ops), (next_recheck_ns s), seen. auto.
Qed.

Definition container_stat : bytes := bs "4711 (node) S 1 1 1 0 -1 0 0 0 0 0 40 2 0 0 20 0 4 0 99 0 0".
Definition container_status : bytes := bs "NSpid: 4711 12".
Definition container_task : bytes := bs "NSpid: 4715 15".
Definition container_proc : ProcFs :=
  mkProcFs (fun pid tid => if (pid =? 4711) && (tid =? 4715) then Some container_stat else None)
    (fun pid => if pid =? 4711 then Some container_status else None)
    (fun pid => if pid =? 4711 then Some [Some container_status; None; Some container_task] else None).
Definition container_ops : list cpu_op :=
  [CoBegin 100; CoFinish (mkDiscovery (Some 4711) (Some 8)); CoSample 100 1000 container_proc (Some 8);
   CoSample 100 250001000 container_proc (Some 8)].

(** Half a minute later the file is looked at, and is still the same; had it been
    another, nothing would count, in this pass or the next. *)
Definition looked_ops (inode : Z) : list cpu_op :=
  container_ops ++ [CoSample 100 30001000000 container_proc (Some inode); CoSample 100 30250000000 container_proc (Some inode)].

Lemma only_tied_threads_count_witness :
  (exists hpid htid start until, tied (looked_ops 8) 12 15 hpid htid start /\
     measured_until (looked_ops 8) hpid htid start 0 until /\ 30250000000 < until) /\
  load_sample (cpu_run true (ThreadCpu_new true (bs "/w.sock") 12 15) (looked_ops 9)) 30250000000 = None.
Proof.
  split; [|vm_compute; reflexivity].
  apply (only_tied_threads_count true (bs "/w.sock") 12 15 (looked_ops 8) 30250000000 0).
  - lia.
  - vm_compute. reflexivity.
Defined.

(** After a sampling pass over a balancer, its load is known exactly when
    some thread of it has a sample that counts: then it reads, for the rest of the
    sample's validity and no longer, as one value of at most 1000 permille with
    the millisecond it expires; otherwise it is unknown, whatever was published
    before. Whatever the exponential computes, and also when two slots share a
    thread. *)
Theorem load_is_known_while_sampled f64_exp hz now p inodes sa b e t :
  clock_ok now -> 0 <= t -> sa_loads sa !! bc_load b = Some e -> ew_last_pass_ns e < now ->
  let sa' := sample_balancer f64_exp hz now p inodes sa b in
  exists e' permille, sa_loads sa' !! bc_load b = Some e' /\ 0 <= permille <= 1000 /\
  (Exists (counted now (sa_threads sa')) (bc_threads b) ->
     load_get e' t = if t / 1000000 <? (now + SAMPLE_VALID_NS) / 1000000 then Some (permille, (now + SAMPLE_VALID_NS) / 1000000) else None) /\
  (~ Exists (counted now (sa_threads sa')) (bc_threads b) -> load_get e' t = None).
Proof. apply balancer_load. Qed.

Definition container_sampler : sampler :=
  mkSampler {[7%nat := cpu_run true (ThreadCpu_new true (bs "/w.sock") 12 15) (take 3 container_ops)]}
    {[2%nat := LoadEwma_default]}.
Definition container_cells : balancer_cells := mkCells 2 [7%nat; 7%nat].

Lemma load_is_known_while_sampled_witness :
  let sa' := sample_balancer (fun x => x) 100 250001000 container_proc (fun _ => Some 8) container_sampler container_cells in
  (exists e' permille, sa_loads sa' !! 2%nat = Some e' /\ 0 <= permille <= 1000 /\
    (Exists (counted 250001000 (sa_threads sa')) [7%nat; 7%nat] ->
       load_get e' 700000000 = if 700000000 / 1000000 <? (250001000 + SAMPLE_VALID_NS) / 1000000
         then Some (permille, (250001000 + SAMPLE_VALID_NS) / 1000000) else None) /\
    (~ Exists (counted 250001000 (sa_threads sa')) [7%nat; 7%nat] -> load_get e' 700000000 = None)) /\
  (fun t => load_sample t 250001000) <$> sa_threads sa' !! 7%nat = Some (Some 0).
Proof.
  split.
  - apply (load_is_known_while_sampled (fun x => x) 100 250001000 container_proc (fun _ => Some 8) container_sampler
      container_cells LoadEwma_default 700000000); [split; lia | lia | reflexivity | reflexivity].
  - vm_compute. reflexivity.
Defined.
End Properties.
