(* ===== verification/System.v ===== *)
(** * The whole process (src/src/proxy.rs, with every task it spawns)

    The proxy object, the connections its listeners accepted, and the tasks
    [start] spawned, all on one [proc]: the application's calls, the accept loops
    of both kinds of listener, every question of every connection, the health
    probe, the load poll, the CPU sampler and the sweeps are steps that interleave
    freely. A task spawned by an earlier [start] may still take steps after
    [stop], until it has seen the signal. Each step is the component's own
    operation; the readings the sampler leaves are the ones the connections and
    the load poll see. *)

From S2P Require Import Prelude Bytes Float64 Net IpText TokenBucket Sni Tls Protection ProxyProtocol Balancer BalancerState Metrics Failover Router HttpHead HttpPump Background Forwarding Task Suspended Liveness Sockets Connection ConnectionRuns HttpListener Pool Config Proxy ProxyLife ThreadCpu.

Open Scope Z_scope.

Section System.
Context `{TlsLib} `{Digests} `{NetLib} `{Lowercase} (f64_exp : f64 -> f64).

(** ** The tasks of [start] *)

(** Each with what it keeps between two of its steps: the balancers a sweep or a
    pass has still to visit, the probes in flight, the queries in flight. *)
Inductive activity : Type :=
  | Serving (mode : ListenerMode) (max_connections : Z) (ctx : ConnContext)
  | Sampling (cursor : nat) (running : list nat) (pass : option (list UdsBalancer))
  | Sweeping (left : list UdsBalancer)
  | Probing (due : list (Endpoint * nat * Z))
  | Polling (p : poller)
  | Trimming
  | Evicting (listener : nat).

Definition activity_of (j : job) : activity :=
  match j with
  | JobTls _ mx ctx => Serving ModeTls mx ctx
  | JobHttp _ mx ctx => Serving ModeHttp mx ctx
  | JobSampler => Sampling 0 [] None
  | JobAffinity _ => Sweeping []
  | JobProbe => Probing []
  | JobPeerLoads => Polling poller_new
  | JobTrim _ => Trimming
  | JobEvict l _ => Evicting l
  end.

(** [LoadEwma::get] of a cell. *)
Definition load_now (sa : sampler) (cell : nat) (now : Z) : option (Z * Z) :=
  load_get (default LoadEwma_default (sa_loads sa !! cell)) now.

Definition local_load (sa : sampler) (now : Z) (r : FailoverRoute) : option (Z * Z) :=
  route_load (load_now sa) (fr_destination r) (fr_destination_h2 r) now.

(** A slot's [ThreadCpu] is made with its balancer; the copy of the utilisation
    the balancer reads is the sampler's. *)
Definition known_threads (linux : bool) (sh : shared) (ts : gmap nat ThreadCpu) : gmap nat ThreadCpu :=
  ts ∪ ((fun cell => ThreadCpu_new linux (cpu_path cell) (cpu_pid cell) (cpu_tid cell)) <$> cpus sh).
Definition publish (ts : gmap nat ThreadCpu) (sh : shared) : shared :=
  mkShared (healths sh)
    (map_imap (fun c cell => Some (mkCpu (cpu_path cell) (cpu_pid cell) (cpu_tid cell)
       (match ts !! c with Some t => tc_util_permille t | None => cpu_util_permille cell end))) (cpus sh))
    (next_cell sh).

Definition cells_of (b : UdsBalancer) : balancer_cells := mkCells (load b) (thread_cpus b).

(** What one step of a task leaves: its own state, the process, the sampler, and
    the [routeHealth] events the application's queue took. *)
Record effect : Type := mkEffect {
  ef_activity : activity;
  ef_proc : proc;
  ef_sampler : sampler;
  ef_events : list (FailoverRoute * bool);
}.

Definition sweep_one (w : proc) (b : UdsBalancer) (now : Z) : proc :=
  set_balancers w (keep_affinity (pc_balancers w) (evict_affinity (balancer_now (pc_balancers w) b) now)).

Definition start_probes (w : proc) (sa : sampler) (now : Z) : effect :=
  let '(fl, due) := probe_due (pc_fleet w) (pc_shared w) (failover_routes (pc_table w)) now in
  mkEffect (Probing due) (set_fleet w fl) sa [].

(** The reports after a pass, on the table that is live then. *)
Definition report_pass (w : proc) (sa : sampler) (queued : FailoverRoute -> bool) : effect :=
  let '(fl, events) := report_all (pc_shared w) queued (pc_fleet w) (failover_routes (pc_table w)) in
  mkEffect (Probing []) (set_fleet w fl) sa events.

Definition poll_once (w : proc) (sa : sampler) (p : poller) (o : poll_op) : effect :=
  let '(s, _) := poll_step (mkPolling p (pc_fleet w)) o in
  mkEffect (Polling (pg_poller s)) (set_fleet w (pg_fleet s)) sa [].

(** The discoveries a pass starts, before it samples; without monitored balancers
    there is no pass. *)
Definition start_pass (linux : bool) (w : proc) (sa : sampler) (cursor : nat) (running : list nat) (now : Z) : effect :=
  let balancers := monitored_balancers (pc_table w) in
  if bool_decide (balancers = []) then mkEffect (Sampling cursor running None) w sa [] else
  let ts := known_threads linux (pc_shared w) (sa_threads sa) in
  let '(started, cursor', ts') :=
    discovery_pass linux now (concat (thread_cpus <$> balancers)) cursor (length running) ts in
  mkEffect (Sampling cursor' (running ++ started) (Some balancers)) w (mkSampler ts' (sa_loads sa)) [].

Definition sample_pass (w : proc) (sa : sampler) (cursor : nat) (running : list nat) (balancers : list UdsBalancer)
    (hz now : Z) (p : ProcFs) (inodes : nat -> option Z) : effect :=
  let sa' := sample_table f64_exp hz now p inodes sa (cells_of <$> balancers) in
  mkEffect (Sampling cursor running None) (set_shared w (publish (sa_threads sa') (pc_shared w))) sa' [].

Definition finish_one (sa : sampler) (c : nat) (d : Discovery) : sampler :=
  mkSampler (alter (fun t => finish_discovery t d) c (sa_threads sa)) (sa_loads sa).

(** What a load query that ended may have brought: the peer asked, the names, and
    the answer. *)
Definition replies : Type := SocketAddr -> list bytes -> option LoadAnswer -> Prop.
Definition any_reply : replies := fun _ _ _ => True.

Inductive works (obtained : replies) (linux : bool) : activity -> proc -> sampler -> effect -> Prop :=
  | WEvict l w sa now :
      works obtained linux (Evicting l) w sa
        (mkEffect (Evicting l) (set_protection w l (Protection.evict_at (protection_of w l) now)) sa [])
  | WSweepStart w sa : works obtained linux (Sweeping []) w sa (mkEffect (Sweeping (affinity_balancers (pc_table w))) w sa [])
  | WSweepOne b bs w sa now : works obtained linux (Sweeping (b :: bs)) w sa (mkEffect (Sweeping bs) (sweep_one w b now) sa [])
  | WProbeStart w sa now : works obtained linux (Probing []) w sa (start_probes w sa now)
  | WProbed due k t reached reads w sa :
      due !! k = Some t ->
      works obtained linux (Probing due) w sa
        (mkEffect (Probing (delete k due)) (set_shared w (probe_apply (fun _ => probe reached reads) (pc_shared w) [t])) sa [])
  | WReport w sa queued : works obtained linux (Probing []) w sa (report_pass w sa queued)
  | WPollTick p w sa now order :
      0 <= now -> order ≡ₚ map_to_list (due_queries (pc_fleet w) (List.filter spills (failover_routes (pc_table w)))) ->
      works obtained linux (Polling p) w sa
        (poll_once w sa p (PlTick now (failover_routes (pc_table w)) order (local_load sa now)))
  | WPollDone p w sa id done_ now :
      0 <= now ->
      (forall addr names answer, done_ = Some (addr, names, answer) -> in_flight p !! id = Some addr /\ obtained addr names answer) ->
      works obtained linux (Polling p) w sa
        (poll_once w sa p (PlDone id done_ (failover_routes (pc_table w)) now (local_load sa now)))
  | WPassStart cursor running w sa now :
      works obtained linux (Sampling cursor running None) w sa (start_pass linux w sa cursor running now)
  | WPassEnd cursor running bs w sa sysconf now p inodes :
      clock_ok now ->
      works obtained linux (Sampling cursor running (Some bs)) w sa
        (sample_pass w sa cursor running bs (clk_tck_hz sysconf) now p inodes)
  | WTrim w sa : works obtained linux Trimming w sa (mkEffect Trimming w sa [])
  | WDiscovered cursor running pass k c peer inode w sa :
      running !! k = Some c ->
      works obtained linux (Sampling cursor running pass) w sa
        (mkEffect (Sampling cursor (delete k running) pass) w (finish_one sa c (mkDiscovery (socket_owner peer) inode)) []).

(** ** The process *)

Record system : Type := mkSystem {
  sy_wrap : SymphonyProxyWrap;
  sy_tasks : list conn_task;
  sy_activities : list activity;
  sy_sampler : sampler;
  sy_health : list (FailoverRoute * bool);
  sy_routes : list JsRouteConfig;
  sy_pending : list commit;
}.

Definition pool_of (s : system) : pool := mkPool (sp_proc (sy_wrap s)) (sy_tasks s).
Definition with_proc (w : SymphonyProxyWrap) (p : proc) : SymphonyProxyWrap :=
  set_shared_state w (sp_cache w) (sp_next_identity w) p.
Definition with_pool (s : system) (p : pool) : system :=
  mkSystem (with_proc (sy_wrap s) (po_proc p)) (po_tasks p) (sy_activities s) (sy_sampler s) (sy_health s) (sy_routes s)
    (sy_pending s).
Definition with_wrap (s : system) (w : SymphonyProxyWrap) (routes : list JsRouteConfig) (cs : list commit) : system :=
  mkSystem w (sy_tasks s) (sy_activities s) (sy_sampler s) (sy_health s) routes cs.

(** The limits on open files are the operating system's; a start meets some. *)
Definition after_start (s : system) (k : nat -> nat -> kernel) (accepted : bool) (nofile : option (Z * Z)) : system :=
  let '(r, _, w) := start k accepted nofile (sy_wrap s) in
  mkSystem w (sy_tasks s)
    (sy_activities s ++ match r with Ok _ => activity_of <$> default [] (sp_running w) | Err _ => [] end)
    (sy_sampler s) (sy_health s) (sy_routes s) (sy_pending s).

Definition after_work (s : system) (k : nat) (e : effect) : system :=
  mkSystem (with_proc (sy_wrap s) (ef_proc e)) (sy_tasks s) (<[k := ef_activity e]> (sy_activities s)) (ef_sampler e)
    (sy_health s ++ ef_events e) (sy_routes s) (sy_pending s).

(** A task that has seen the signal ends: an accept loop is aborted, the
    connections it accepted are not. *)
Definition after_end (s : system) (k : nat) : system :=
  mkSystem (sy_wrap s) (sy_tasks s) (delete k (sy_activities s)) (sy_sampler s) (sy_health s) (sy_routes s) (sy_pending s).

(** The application's calls are made one at a time: while the stores of an update
    are being made there is no other. *)
Inductive sys_step (obtained : replies) (linux : bool) : system -> system -> Prop :=
  | SysStart s k accepted nofile : sy_pending s = [] -> sys_step obtained linux s (after_start s k accepted nofile)
  | SysStop s t : sy_pending s = [] -> sys_step obtained linux s (with_wrap s (stop t (sy_wrap s)).2 (sy_routes s) [])
  | SysUpdate s su hot :
      sy_pending s = [] ->
      sys_step obtained linux s (with_wrap s (prepare_update su (sy_wrap s) hot).2 (sy_routes s) (prepared su (sy_wrap s) hot))
  | SysCommit s su c cs :
      sy_pending s = c :: cs ->
      sys_step obtained linux s (with_wrap s (commit_one su (sy_wrap s) c) (routes_after (sy_routes s) c) cs)
  | SysResolve s describe su id r :
      sy_pending s = [] ->
      sys_step obtained linux s (with_wrap s (resolve_connection describe su (sy_wrap s) id r).2 (sy_routes s) [])
  | SysAccept s mode mx ctx peer local :
      Serving mode mx ctx ∈ sy_activities s ->
      sys_step obtained linux s (with_pool s (accept mode ctx mx peer local (pool_of s)))
  | SysTask s p' :
      task_step (fun i => io_load (hi_io i) = load_now (sy_sampler s)) (pool_of s) p' ->
      sys_step obtained linux s (with_pool s p')
  | SysWork s k a e :
      sy_activities s !! k = Some a -> works obtained linux a (sp_proc (sy_wrap s)) (sy_sampler s) e ->
      sys_step obtained linux s (after_work s k e)
  | SysEnd s k :
      sys_step obtained linux s (after_end s k).

Definition deploy (w : SymphonyProxyWrap) (cfg : JsProxyConfig) : system :=
  mkSystem w [] [] (mkSampler ∅ ∅) [] (jx_routes cfg) [].

(** Every state the process of a configuration reaches. *)
Inductive deployed (m : machine) (cfg : JsProxyConfig) (linux : bool) : system -> Prop :=
  | DeployNew w : SymphonyProxyWrap_new m cfg = Ok w -> deployed m cfg linux (deploy w cfg)
  | DeployStep s s' : deployed m cfg linux s -> sys_step any_reply linux s s' -> small (pool_of s') -> deployed m cfg linux s'.

(** ** Lemmas: every step is a step of the pool *)

Lemma reachable_background limits cfgs w w' ts :
  rtc background w w' -> reachable limits cfgs (mkPool w ts) -> reachable limits cfgs (mkPool w' ts).
Proof.
  induction 1 as [|w w1 w' Hb _ IH]; [done |]. intros Hr. apply IH.
  destruct (reachable_gauges _ _ _ Hr) as [Hs _]. eapply ReachStep; [exact Hr | by apply StepBackground | exact Hs].
Qed.

Lemma reload_background w t sh fl st :
  rtc background w (mkProc (pc_listeners w) (pc_global w) (pc_routes w) (pc_protection w) (pc_ingress w) t
                      (pc_registry w) sh fl st (pc_balancers w)).
Proof. apply rtc_once, BgReload. Qed.

Lemma set_fleet_background w fl : rtc background w (set_fleet w fl).
Proof. apply reload_background. Qed.
Lemma set_shared_background w sh : rtc background w (set_shared w sh).
Proof. apply reload_background. Qed.

Lemma store_protection_background w p u : rtc background p (store_protection w p u).
Proof. unfold store_protection. destruct (head _) as [[i s]|]; [|done]. apply rtc_once, BgReconfigure. Qed.
Lemma store_ingress_background p u : rtc background p (store_ingress p u).
Proof. unfold store_ingress. apply rtc_once, BgIngress. Qed.

Lemma build_hot_table_background su w routes : rtc background (sp_proc w) (sp_proc (build_hot_table su w routes).2).
Proof.
  unfold build_hot_table. destruct routes as [routes|]; [|done]. destruct (try_map _ _); [|done].
  destruct (build_route_table _ _ _ _ _) as [t e]. apply reload_background.
Qed.

Lemma prepare_background su w hot : rtc background (sp_proc w) (sp_proc (prepare_update su w hot).2).
Proof.
  unfold prepare_update. pose proof (build_hot_table_background su w (jh_routes hot)) as Hb.
  by destruct (build_hot_table su w (jh_routes hot)) as [[table|e] w1].
Qed.

Lemma commit_background su w c : rtc background (sp_proc w) (sp_proc (commit_one su w c)).
Proof. destruct c; simpl; [apply reload_background | apply store_protection_background | apply store_ingress_background]. Qed.

Lemma deliver_background w id v : rtc background (sp_proc w) (sp_proc (deliver w id v)).
Proof. apply rtc_once, BgResolve. Qed.

Lemma resolve_background describe su w id r :
  rtc background (sp_proc w) (sp_proc (resolve_connection describe su w id r).2).
Proof.
  unfold resolve_connection. destruct (parse_u64 id); [|done]. destruct (negb _); [done |].
  destruct r as [r|]; [|apply deliver_background]. unfold answered_route.
  destruct (parse_resolve_spec r) as [spec|e]; [|apply deliver_background].
  destruct (build_resolved_route _ _ _ _ _ _) as [[[built c] st] sh]. cbv zeta.
  destruct built; (eapply rtc_r; [apply reload_background | apply BgResolve]).
Qed.

Lemma works_background obtained linux a w sa e : works obtained linux a w sa e -> rtc background w (ef_proc e).
Proof.
  destruct 1; try done; try apply set_shared_background.
  - apply rtc_once, BgEvict.
  - apply rtc_once, BgAffinity.
  - unfold start_probes. destruct (probe_due _ _ _ _). apply set_fleet_background.
  - unfold report_pass. destruct (report_all _ _ _ _). apply set_fleet_background.
  - unfold poll_once. destruct (poll_step _ _). apply set_fleet_background.
  - unfold poll_once. destruct (poll_step _ _). apply set_fleet_background.
  - unfold start_pass. cbv zeta. case_bool_decide; [done |]. by destruct (discovery_pass _ _ _ _ _ _) as [[]].
Qed.

(** ** Lemmas: the settings connections run with *)

Lemma prepare_keeps_settings su w hot :
  sp_listeners (prepare_update su w hot).2 = sp_listeners w /\ sp_states (prepare_update su w hot).2 = sp_states w.
Proof. destruct (prepare_undisturbed su w hot) as [Hw _]. by rewrite Hw. Qed.

Lemma resolve_keeps_settings describe su w id r :
  sp_listeners (resolve_connection describe su w id r).2 = sp_listeners w /\
  sp_states (resolve_connection describe su w id r).2 = sp_states w.
Proof.
  unfold resolve_connection. destruct (parse_u64 id); [|done]. destruct (negb _); [done |].
  destruct r as [r|]; [|done]. destruct (answered_undisturbed su w r) as [Hw _].
  destruct (answered_route su w r) as [[] w']; simpl in *; by rewrite Hw.
Qed.

Lemma start_keeps_settings k accepted nofile w :
  let w' := (start k accepted nofile w).2 in
  sp_listeners w' = sp_listeners w /\ sp_states w' = sp_states w /\ sp_proc w' = sp_proc w.
Proof. unfold start. destruct (sp_running w); [done |]. by destruct (try_map _ _). Qed.

(** The listener a context belongs to. *)
Definition belongs (w : SymphonyProxyWrap) (mode : ListenerMode) (mx : Z) (ctx : ConnContext) : Prop :=
  exists l s, sp_listeners w !! cx_listener ctx = Some l /\ sp_states w !! cx_listener ctx = Some s /\
    il_mode l = mode /\ il_max_connections l = mx /\ cx_protection ctx = ls_protection s /\ cx_ingress ctx = ls_ingress s /\
    cx_listener_addr ctx = ls_addr s.

Definition activity_ok (w : SymphonyProxyWrap) (a : activity) : Prop :=
  match a with
  | Serving mode mx ctx => belongs w mode mx ctx
  | Evicting l => exists s, sp_states w !! l = Some s /\ ls_protection s = true
  | _ => True
  end.

(** A connection asks what its listener's mode lets it ask, and holds an
    address's state only where there is protection. *)
Definition unheld (g : guard) : Prop := match g with GActive (Some _) => False | _ => True end.
Definition task_ok (w : SymphonyProxyWrap) (t : conn_task) : Prop :=
  exists mode mx, belongs w mode mx (ct_ctx t) /\ only (may_ask mode (cx_protection (ct_ctx t)) (cx_ingress (ct_ctx t))) (ct_rest t) /\
    (cx_protection (ct_ctx t) = false -> Forall unheld (ct_guards t)).

Lemma jobs_ok w bound j : j ∈ jobs_of w bound -> activity_ok w (activity_of j).
Proof.
  unfold jobs_of. rewrite !elem_of_app. intros [Hj|[Hj|[Hj|Hj]]].
  - apply list_elem_of_fmap in Hj as ([i [[l s] ss]] & -> & Hin). apply elem_of_enumerate, lookup_zip_with_Some in Hin
      as ([l' s'] & ss' & [= <- <- _] & Hz & _). apply lookup_zip_with_Some in Hz as (l2 & s2 & [= <- <-] & Hl & Hs). unfold listener_job. destruct (il_mode l) eqn:Hm; simpl; exists l, s; by split_and!.
  - apply list_elem_of_In in Hj. simpl in Hj. by destruct_or? Hj; subst.
  - destruct (sp_malloc_trim_interval w); [|by apply not_elem_of_nil in Hj]. apply list_elem_of_singleton in Hj. by subst.
  - apply list_elem_of_omap in Hj as ([i s] & Hin & Hj). apply elem_of_enumerate in Hin. simpl in Hj.
    destruct (ls_protection s) eqn:Hp; [|done]. injection Hj as <-. simpl. eauto.
Qed.

(** ** Lemmas: what connections leave alone *)

Lemma same_served w w' : same_policies w w' -> served w w'.
Proof. intros (Ht & Hi & Hp). split_and!; [done | by rewrite Hp | by rewrite Hi]. Qed.

Lemma set_protection_served w l st : is_Some (pc_protection w !! l) -> served w (set_protection w l st).
Proof. intros Hl. split_and!; [done | | done]. intros i. simpl. by rewrite is_Some_insert. Qed.

Lemma served_trans w w' w'' : served w w' -> served w' w'' -> served w w''.
Proof.
  intros (Ht & Hp & Hi) (Ht' & Hp' & Hi'). split_and!; [congruence | |]; intros i; [by rewrite Hp', Hp | by rewrite Hi', Hi].
Qed.

Lemma perform_served ctx i w X (e : anyE X) mode :
  may_ask mode (cx_protection ctx) (cx_ingress ctx) X e -> (cx_protection ctx = true -> is_Some (pc_protection w !! cx_listener ctx)) ->
  served w (perform_any ctx i w X e).2.
Proof.
  intros Ha Hp. destruct e as [X e|X e].
  - destruct e; try (apply same_served, perform_policies; done).
    simpl in *. destruct (check_at _ _ _ _ _) as [d st]. apply set_protection_served. by apply Hp, Ha.
  - by apply same_served, perform_policies.
Qed.

Lemma drop_served ctx w g :
  (unheld g \/ is_Some (pc_protection w !! cx_listener ctx)) -> served w (drop_guard ctx w g).
Proof.
  intros Hg. destruct g as [[id|]| |[]|]; try (by apply same_served). simpl. destruct Hg as [[]|Hg].
  eapply served_trans; [|by apply set_protection_served]. by apply same_served.
Qed.

Section Tasks.
Context (w : SymphonyProxyWrap) (p : proc).
Context (Hprot : forall i s, sp_states w !! i = Some s -> ls_protection s = true -> is_Some (pc_protection p !! i)).

Lemma belongs_protected mode mx ctx :
  belongs w mode mx ctx -> cx_protection ctx = true -> is_Some (pc_protection p !! cx_listener ctx).
Proof. intros (l & s & _ & Hs & _ & _ & Hc & _) Hp. eapply Hprot; [exact Hs | congruence]. Qed.

Lemma guard_protected t g :
  task_ok w t -> g ∈ ct_guards t -> unheld g \/ is_Some (pc_protection p !! cx_listener (ct_ctx t)).
Proof.
  intros (mode & mx & Hb & _ & Hh) Hg. destruct (cx_protection (ct_ctx t)) eqn:Hc.
  - right. by eapply belongs_protected.
  - left. specialize (Hh eq_refl). rewrite Forall_forall in Hh. apply Hh. by apply list_elem_of_In.
Qed.

Lemma unheld_after prot ingress mode X (e : anyE X) x gs :
  may_ask mode prot ingress X e -> asks_guarded X e gs -> prot = false -> Forall unheld gs -> Forall unheld (guards_after X e x gs).
Proof.
  intros Ha Hg Hp Hgs. assert (forall u, Forall unheld (connected u gs)) as Hu by (intros [u|]; [by constructor | done]).
  destruct e as [X e|X e]; destruct e; simpl in *; try done; try apply Hu.
  - constructor; [by destruct g as [[]| | |] | done].
  - by destruct Hgs.
  - destruct Ha as [_ Ha]. congruence.
  - constructor; [by destruct g as [[]| | |] | done].
Qed.

Lemma task_step_ok allowed ts p' :
  task_step allowed (mkPool p ts) p' -> Forall (task_ok w) ts -> all_guarded (mkPool p ts) ->
  served p (po_proc p') /\ Forall (task_ok w) (po_tasks p').
Proof.
  intros Hs Hts Hg. inversion Hs as [? ? j i ctx X e k gs t' w' _ Hj Ha|? ? j ctx rest gs Hj|? ? j ctx a g gs Hj]; subst.
  - pose proof (Forall_lookup_1 _ _ _ _ Hts Hj) as Ht. pose proof (Forall_lookup_1 _ _ _ _ Hg Hj) as [Hask _].
    pose proof Ht as (mode & mx & Hb & [He Hk] & Hh). unfold advance in Ha.
    pose proof (perform_served ctx i p X e mode He (belongs_protected _ _ _ Hb)) as Hserved.
    destruct (perform_any ctx i p X e) as [x w1] eqn:Ep. injection Ha as <- <-. simpl in *. split.
    + destruct (left_by X e gs) as [g|] eqn:El; [|exact Hserved]. eapply served_trans; [exact Hserved |]. apply drop_served.
      destruct (guard_protected _ g Ht) as [|Hd]; [|by left | right; by apply Hserved].
      destruct e as [X e|X e]; [|done]. destruct e; try done. destruct gs; [done |]. injection El as ->. constructor.
    + apply Forall_insert; [done |]. exists mode, mx. split_and!; [done | apply Hk |]. simpl. intros Hc.
      eapply unheld_after; [exact He | exact Hask | exact Hc | by apply Hh].
  - split; [done |]. simpl. apply Forall_insert; [done |].
    destruct (Forall_lookup_1 _ _ _ _ Hts Hj) as (mode & mx & Hb & _ & Hh). exists mode, mx. by split_and!.
  - pose proof (Forall_lookup_1 _ _ _ _ Hts Hj) as Ht. split.
    + apply drop_served. eapply (guard_protected _ g Ht). constructor.
    + apply Forall_insert; [done |]. destruct Ht as (mode & mx & Hb & Hr & Hh). exists mode, mx. split_and!; [done | done |].
      intros Hc. specialize (Hh Hc). by apply Forall_cons_iff in Hh as [_ Hh].
Qed.
End Tasks.

Lemma works_served obtained linux a w sa e :
  works obtained linux a w sa e -> (forall l, a = Evicting l -> is_Some (pc_protection w !! l)) -> served w (ef_proc e).
Proof.
  destruct 1; intros Hl; try (by apply same_served).
  1: by apply set_protection_served, Hl.
  all: unfold start_probes, report_pass, poll_once, start_pass; cbv zeta; repeat case_match; by apply same_served.
Qed.

Lemma works_activity obtained linux a w sa e wrap : works obtained linux a w sa e -> activity_ok wrap a -> activity_ok wrap (ef_activity e).
Proof.
  destruct 1; intros Ha; try done.
  all: unfold start_probes, report_pass, poll_once, start_pass; cbv zeta; repeat case_match; done.
Qed.

(** ** The invariant *)

Definition limits_of (w : SymphonyProxyWrap) (l : nat) : Z := default 0 (il_max_connections <$> sp_listeners w !! l).

(** [w0] is the proxy as it was made. *)
Record system_ok (m : machine) (cfg : JsProxyConfig) (w0 : SymphonyProxyWrap) (cfgs : gmap nat ProtectionConfig)
    (s : system) : Prop := {
  ok_life : life m cfg (sy_routes s) (sy_pending s) (sy_wrap s);
  ok_settings : sp_listeners (sy_wrap s) = sp_listeners w0 /\ sp_states (sy_wrap s) = sp_states w0;
  ok_pool : reachable (limits_of w0) cfgs (pool_of s);
  ok_guarded : all_guarded (pool_of s);
  ok_activities : Forall (activity_ok (sy_wrap s)) (sy_activities s);
  ok_tasks : Forall (task_ok (sy_wrap s)) (sy_tasks s);
}.

(** The settings a task or an activity depends on. *)
Lemma same_settings_ok w w' :
  sp_listeners w' = sp_listeners w -> sp_states w' = sp_states w ->
  (forall a, activity_ok w a -> activity_ok w' a) /\
  (forall t, task_ok w t -> task_ok w' t).
Proof.
  intros Hl Hs. assert (forall mode mx ctx, belongs w mode mx ctx -> belongs w' mode mx ctx) as Hb
    by (unfold belongs; rewrite Hl, Hs; done).
  split.
  - intros []; simpl; rewrite ?Hs; auto.
  - intros t (mode & mx & ? & ? & ?). exists mode, mx. auto.
Qed.

Lemma system_ok_wrap m cfg w0 cfgs s w routes cs acts :
  system_ok m cfg w0 cfgs s -> life m cfg routes cs w ->
  sp_listeners w = sp_listeners (sy_wrap s) -> sp_states w = sp_states (sy_wrap s) ->
  rtc background (sp_proc (sy_wrap s)) (sp_proc w) -> Forall (activity_ok (sy_wrap s)) acts ->
  forall sa health, system_ok m cfg w0 cfgs (mkSystem w (sy_tasks s) acts sa health routes cs).
Proof.
  intros [Hlife [Hl0 Hs0] Hpool Hgu Hact Htask] Hl Hli Hst Hbg Ha sa health.
  destruct (same_settings_ok _ _ Hli Hst) as (H2' & H3'). split; simpl.
  - done.
  - by rewrite Hli, Hst.
  - by eapply reachable_background.
  - exact Hgu.
  - eapply Forall_impl; [exact H2' | exact Ha].
  - eapply Forall_impl; [exact H3' | exact Htask].
Qed.

(** What life says of protection. *)
Lemma life_protection m cfg routes cs w :
  life m cfg routes cs w -> forall i s, sp_states w !! i = Some s -> ls_protection s = true ->
  is_Some (pc_protection (sp_proc w) !! i).
Proof. intros Hl i s Hs Hp. destruct (proxy_life_ok _ _ _ _ _ Hl) as [Hok _]. apply (st_protection _ _ Hok). eauto. Qed.

Lemma system_ok_step m cfg obtained linux w0 cfgs s s' :
  system_ok m cfg w0 cfgs s -> sys_step obtained linux s s' -> small (pool_of s') -> system_ok m cfg w0 cfgs s'.
Proof.
  intros Hok Hstep Hsmall. pose proof Hok as [Hlife Hset Hpool Hgu Hact Htask].
  destruct Hstep as [s kn acc nf Hidle|s t Hidle|s su hot Hidle|s su c cs Hpend|s describe su id r Hidle|s mode mx ctx peer local Hin|s p' Hs|s k a e Hk Hw|s k].
  - unfold after_start. destruct (start_keeps_settings kn acc nf (sy_wrap s)) as (Hli & Hst & Hpr).
    rewrite Hidle in Hlife. pose proof (LifeStart m cfg _ _ kn acc nf Hlife) as Hl. pose proof (started_jobs kn acc nf (sy_wrap s)) as Hj.
    destruct (start kn acc nf (sy_wrap s)) as [[r nf'] w]. simpl in *. rewrite Hidle. apply system_ok_wrap; try done; [by rewrite Hpr |].
    apply Forall_app. split; [done |]. destruct r as [[]|]; [|done]. destruct (sp_running w) as [jobs|] eqn:Hr; [|done].
    destruct (Hj jobs eq_refl eq_refl) as [sockets ->]. simpl. apply Forall_forall. intros a Ha%list_elem_of_In.
    apply list_elem_of_fmap in Ha as (j & -> & Hin). by eapply jobs_ok.
  - rewrite Hidle in Hlife. apply system_ok_wrap; try done. by apply LifeStop.
  - rewrite Hidle in Hlife. destruct (prepare_keeps_settings su (sy_wrap s) hot). apply system_ok_wrap; try done; [by apply LifeUpdate |].
    apply prepare_background.
  - rewrite Hpend in Hlife. apply system_ok_wrap; try done; [by apply LifeCommit | by destruct c | by destruct c | apply commit_background].
  - rewrite Hidle in Hlife. destruct (resolve_keeps_settings describe su (sy_wrap s) id r). apply system_ok_wrap; try done; [by apply LifeResolve |].
    apply resolve_background.
  - pose proof (Forall_forall (activity_ok (sy_wrap s)) (sy_activities s)) as [Hall _]. specialize (Hall Hact _ (proj1 (list_elem_of_In _ _) Hin)).
    simpl in Hall. assert (mx = limits_of w0 (cx_listener ctx)) as ->.
    { destruct Hall as (l & st & Hl & _ & _ & Hmx & _). unfold limits_of. destruct Hset as [<- _]. by rewrite Hl. }
    pose proof (StepAccept (limits_of w0) (pool_of s) mode ctx peer local) as Hst. split; simpl.
    + apply LifeConnections; [done |]. apply same_served. unfold accept. by destruct (_ && _).
    + done.
    + destruct (accept _ _ _ _ _ _) as [pr ts] eqn:E. eapply ReachStep; [exact Hpool | exact Hst |]. exact Hsmall.
    + pose proof (step_guarded _ _ _ Hst Hgu) as Hg. by destruct (accept _ _ _ _ _ _).
    + done.
    + unfold accept. destruct (_ && _); [done |]. simpl. apply Forall_app_2; [done |]. apply Forall_singleton.
      exists mode, (limits_of w0 (cx_listener ctx)). split_and!; [done | apply work_asks | done].
  - destruct (task_step_ok (sy_wrap s) (sp_proc (sy_wrap s)) (life_protection _ _ _ _ _ Hlife) _ _ _ Hs Htask Hgu) as [Hserved Hts].
    assert (step (limits_of w0) (pool_of s) p') as Hst.
    { apply StepTask. destruct Hs; [eapply StepAsk | eapply StepAbort | eapply StepDrop]; done. }
    split; simpl; [by apply LifeConnections | done | | | done | done].
    + destruct p' as [pr ts]. eapply ReachStep; [exact Hpool | exact Hst | exact Hsmall].
    + pose proof (step_guarded _ _ _ Hst Hgu) as Hg. by destruct p'.
  - pose proof (Forall_lookup_1 _ _ _ _ Hact Hk) as Ha. apply system_ok_wrap; simpl; try done.
    + apply LifeConnections; [done |]. eapply works_served; [exact Hw |]. intros l ->. destruct Ha as (st & Hst & Hp).
      by eapply life_protection.
    + by eapply works_background.
    + apply Forall_insert; [done |]. by eapply works_activity.
  - apply system_ok_wrap; try done. by apply Forall_delete.
Qed.

Lemma deployed_system_ok m cfg linux w s :
  SymphonyProxyWrap_new m cfg = Ok w -> deployed m cfg linux s ->
  exists cfgs, pc_protection (sp_proc w) = ProtectionState_new <$> cfgs /\ system_ok m cfg w cfgs s.
Proof.
  intros Hw Hd. assert (exists cfgs, boot_proc cfgs (sp_proc w)) as [cfgs Hboot].
  { revert Hw. unfold SymphonyProxyWrap_new. cbv zeta. intros Hn.
    repeat match type of Hn with
    | context [mbind _ ?x] => destruct x as [?|?] eqn:?; [cbn [mbind result_bind] in Hn | discriminate Hn]
    end.
    destruct (build_route_table _ _ _ _ _) as [table e] eqn:Ht. destruct (negb _); [discriminate Hn |]. injection Hn as <-.
    eexists. split_and!; reflexivity. }
  exists cfgs. split; [apply Hboot |]. induction Hd as [w' Hw'|s s' _ IH Hst Hsm].
  - rewrite Hw in Hw'. injection Hw' as <-. split; simpl; try done; [by apply LifeNew | by apply ReachBoot | constructor].
  - by eapply system_ok_step.
Qed.

Lemma deployed_made m cfg linux s : deployed m cfg linux s -> exists w, SymphonyProxyWrap_new m cfg = Ok w.
Proof. induction 1; eauto. Qed.

Lemma new_listeners m cfg w :
  SymphonyProxyWrap_new m cfg = Ok w -> forall i l st, sp_listeners w !! i = Some l -> sp_states w !! i = Some st ->
  exists jl prot ing, jx_listeners cfg !! i = Some jl /\ parse_listener jl = Ok (l, st, prot, ing).
Proof.
  unfold SymphonyProxyWrap_new. cbv zeta. intros Hn.
  repeat match type of Hn with
  | context [mbind _ ?x] => destruct x as [?|?] eqn:?; [cbn [mbind result_bind] in Hn | discriminate Hn]
  end.
  destruct (build_route_table _ _ _ _ _) as [table e]. destruct (negb _); [discriminate Hn |]. injection Hn as <-. simpl.
  match goal with E : try_map parse_listener _ = Ok ?xs |- _ => rename E into Hls; rename xs into xs0 end.
  apply try_map_Ok in Hls. intros i l st. rewrite !list_lookup_fmap.
  destruct (xs0 !! i) as [[[[l' st'] prot] ing]|] eqn:Hx; [|done]. simpl. intros [= ->] [= ->].
  destruct (Forall2_lookup_r _ _ _ _ _ Hls Hx) as (jl & Hj & Hp). eauto 10.
Qed.

Lemma parse_listener_limit jl l st prot ing :
  parse_listener jl = Ok (l, st, prot, ing) -> il_max_connections l = default 0 (jl_max_connections jl).
Proof.
  unfold parse_listener. intros Hp.
  repeat match type of Hp with
  | context [mbind _ ?x] => destruct x as [?|?] eqn:?; [cbn [mbind result_bind] in Hp | discriminate Hp]
  end.
  by injection Hp as <- <- <- <-.
Qed.

(** ** Schedules *)

Definition tied_io (sa : sampler) (i : http_io) : http_io :=
  let j := hi_io i in
  mkHttpIo (hi_timed_out i) (hi_arrived i) (hi_read_fails i) (hi_data i) (hi_written i)
    (mkIo (io_now j) (io_now' j) (io_header j) (io_peek j) (io_queued j) (io_acquired j) (io_hash j) (io_rotation j)
       (io_peers j) (io_read j) (load_now sa) (io_seen j) (io_connects j) (io_closed j) (io_accepted j) (io_copy j)).

(** A step chosen by name, for one input and one client. *)
Inductive sys_move : Type :=
  | DoStart
  | DoStop
  | DoUpdate (su : surroundings) (hot : JsHotConfig)
  | DoCommit (su : surroundings)
  | DoAccept (k : nat)
  | DoAsk (j : nat)
  | DoReport (k : nat)
  | DoPass (k : nat) (now : Z)
  | DoFound (k j : nat) (peer inode : option Z)
  | DoSampled (k : nat) (hz now : Z) (p : ProcFs) (inode : option Z).

Definition sys_make (i : http_io) (peer : SocketAddr) (s : system) (m : sys_move) : option system :=
  let w := sp_proc (sy_wrap s) in
  match m with
  | DoStart => match sy_pending s with [] => Some (after_start s (fun _ _ => willing) true None) | _ => None end
  | DoStop => match sy_pending s with [] => Some (with_wrap s (stop None (sy_wrap s)).2 (sy_routes s) []) | _ => None end
  | DoUpdate su hot =>
      match sy_pending s with
      | [] => Some (with_wrap s (prepare_update su (sy_wrap s) hot).2 (sy_routes s) (prepared su (sy_wrap s) hot))
      | _ => None
      end
  | DoCommit su =>
      match sy_pending s with
      | c :: cs => Some (with_wrap s (commit_one su (sy_wrap s) c) (routes_after (sy_routes s) c) cs)
      | [] => None
      end
  | DoAccept k =>
      match sy_activities s !! k with
      | Some (Serving mode mx ctx) => Some (with_pool s (accept mode ctx mx peer None (pool_of s)))
      | _ => None
      end
  | DoAsk j =>
      match sy_tasks s !! j with
      | Some (mkConnTask ctx (Ask e k) gs) =>
          let '(t', w') := advance (tied_io (sy_sampler s) i) w ctx _ e k gs in
          Some (with_pool s (mkPool w' (<[j := t']> (sy_tasks s))))
      | _ => None
      end
  | DoReport k =>
      match sy_activities s !! k with
      | Some (Probing []) => Some (after_work s k (report_pass w (sy_sampler s) (fun _ => true)))
      | _ => None
      end
  | DoPass k now =>
      match sy_activities s !! k with
      | Some (Sampling c r None) => Some (after_work s k (start_pass true w (sy_sampler s) c r now))
      | _ => None
      end
  | DoFound k j peer inode =>
      match sy_activities s !! k with
      | Some (Sampling c r pass) =>
          (fun t => after_work s k (mkEffect (Sampling c (delete j r) pass) w
             (finish_one (sy_sampler s) t (mkDiscovery (socket_owner (Some peer)) inode)) [])) <$> r !! j
      | _ => None
      end
  | DoSampled k hz now p inode =>
      match sy_activities s !! k with
      | Some (Sampling c r (Some bs)) =>
          if (0 <=? now) && (now <? 2 ^ 63)
          then Some (after_work s k (sample_pass w (sy_sampler s) c r bs (clk_tck_hz hz) now p (fun _ => inode))) else None
      | _ => None
      end
  end.

Fixpoint sys_schedule (i : http_io) (peer : SocketAddr) (s : system) (ms : list sys_move) : option system :=
  match ms with
  | [] => Some s
  | m :: ms =>
      s' ← sys_make i peer s m;
      if guards_held (fun _ _ => true) (sy_tasks s') <=? u32_max then sys_schedule i peer s' ms else None
  end.

Lemma sys_make_step obtained i peer s m s' : sys_make i peer s m = Some s' -> sys_step obtained true s s'.
Proof.
  destruct m as [| |su hot|su|k|j|k|k now|k j pr inode|k hz now p inode]; simpl.
  - destruct (sy_pending s) eqn:Hp; [|done]. intros [= <-]. by apply SysStart.
  - destruct (sy_pending s) eqn:Hp; [|done]. intros [= <-]. by apply (SysStop obtained true s None).
  - destruct (sy_pending s) eqn:Hp; [|done]. intros [= <-]. by apply SysUpdate.
  - destruct (sy_pending s) eqn:Hp; [done |]. intros [= <-]. by apply SysCommit.
  - destruct (sy_activities s !! k) as [[]|] eqn:Hk; try done. intros [= <-]. apply SysAccept. by eapply list_elem_of_lookup_2.
  - destruct (sy_tasks s !! j) as [[ctx [a|X e k] gs]|] eqn:Hj; try done.
    destruct (advance _ _ _ _ _ _ _) as [t' w'] eqn:Ha. intros [= <-]. apply SysTask. eapply StepAsk; [|exact Hj | exact Ha]. done.
  - destruct (sy_activities s !! k) as [[| | |[]| | |]|] eqn:Hk; try done. intros [= <-].
    eapply SysWork; [exact Hk | apply WReport].
  - destruct (sy_activities s !! k) as [[|c r []| | | | |]|] eqn:Hk; try done. intros [= <-].
    eapply SysWork; [exact Hk | apply WPassStart].
  - destruct (sy_activities s !! k) as [[|c r pass| | | | |]|] eqn:Hk; try done.
    destruct (r !! j) as [t|] eqn:Hj; [|done]. simpl. intros [= <-].
    eapply SysWork; [exact Hk | by apply (WDiscovered obtained true _ _ _ _ _ (Some pr))].
  - destruct (sy_activities s !! k) as [[|c r [bs|]| | | | |]|] eqn:Hk; try done.
    destruct (_ && _) eqn:Hn; [|done]. intros [= <-]. apply andb_true_iff in Hn as [H1'%Z.leb_le H2'%Z.ltb_lt].
    eapply SysWork; [exact Hk | by apply WPassEnd].
Qed.

Lemma sys_schedule_deployed m cfg i peer s ms s' :
  deployed m cfg true s -> sys_schedule i peer s ms = Some s' -> deployed m cfg true s'.
Proof.
  revert s. induction ms as [|mv ms IH]; intros s Hd; simpl; [by intros [= <-] |].
  destruct (sys_make i peer s mv) as [s1|] eqn:Em; [|done]. simpl. destruct (_ <=? _) eqn:Hs; [|done]. apply IH.
  eapply DeployStep; [done | by eapply sys_make_step | by apply Z.leb_le].
Qed.

(** A number that is the double of [n] and reads back as [n]. *)
Definition shows (x : f64) (n : Z) : Prop := x = f64_of_Z n /\ f64_as_u64 x = n.

Lemma gauge_shown p P : small p -> shows (f64_of_Z (guards_held P (po_tasks p))) (guards_held P (po_tasks p)).
Proof.
  intros Hs. split; [done |]. pose proof (guards_held_nonneg P (po_tasks p)). pose proof (guards_held_all P (po_tasks p)).
  unfold small in Hs. apply f64_of_Z_exact; unfold u32_max, u64_max in *; lia.
Qed.
End System.

Module Properties.
Import ConnectionRuns.Properties HttpListener.Properties.

#[local] Existing Instance Net.cidr_lib.
#[local] Existing Instance Protection.ascii_lowercase.
#[local] Existing Instance Tls.Properties.raw_tls.
#[local] Existing Instance Tls.Properties.tagged_digests.

(** ** A process *)

Definition http_listener : JsListenerConfig := mkJsListener None 80 (Some (bs "http")) None None None None None None.
Definition both_listeners : JsProxyConfig :=
  mkJsProxy [ProxyLife.Properties.tls_listener 443 None; http_listener]
    [ProxyLife.Properties.route_for (bs "a.example.com") None] None None None None None None.

(** C14: The application sees every connection. Whatever configuration the proxy
    was made with, and however its starts and stops, reconfigurations, answers,
    background tasks and connections interleave, [metrics] reports at any moment
    exactly the connections that are live: in all, for each listener under its own
    address (with how many of them are half closed), and for each route of the
    table in use. The numbers are doubles, and each is exact. *)
Theorem metrics_count_live_connections `{TlsLib} `{Digests} `{NetLib} `{Lowercase} f64_exp m cfg linux s now :
  deployed f64_exp m cfg linux s ->
  let report := metrics (load_now (sy_sampler s)) now (sy_wrap s) in
  shows (jpx_active_connections report) (guards_held active_anywhere (sy_tasks s)) /\
  (forall i l st, sp_listeners (sy_wrap s) !! i = Some l -> sp_states (sy_wrap s) !! i = Some st ->
     exists j, jpx_listeners report !! i = Some j /\ jlm_address j = ls_addr st /\
       shows (jlm_active_connections j) (guards_held (active_on i) (sy_tasks s)) /\
       shows (jlm_half_closed_connections j) (guards_held (half_closed_on i) (sy_tasks s))) /\
  (forall k id, metric_identities (pc_table (sp_proc (sy_wrap s))) !! k = Some id ->
     exists j, jpx_route_metrics report !! k = Some j /\ jrm_route j = mi_route id /\
       shows (jrm_active_connections j) (guards_held (on_route (mi_id id)) (sy_tasks s))).
Proof.
  intros Hd report. destruct (deployed_made _ _ _ _ _ Hd) as [w Hw].
  destruct (deployed_system_ok _ _ _ _ _ _ Hw Hd) as (cfgs & _ & Hok).
  destruct (reachable_gauges _ _ _ (ok_pool _ _ _ _ _ Hok)) as [Hsm Hg]. simpl in Hg.
  pose proof (fun P => gauge_shown (pool_of s) P Hsm) as Hx. simpl in Hx. unfold report, metrics. simpl. split_and!.
  - specialize (Hg 0%nat 0%nat (0%nat, [])). injection Hg as _ _ -> _ _. apply Hx.
  - intros i l st Hl Hs. specialize (Hg i 0%nat (0%nat, [])). injection Hg as Ha Hh _ _ _.
    rewrite list_lookup_fmap, (proj2 (lookup_enumerate (zip _ _) i i (l, st))).
    + eexists. split; [reflexivity |]. simpl. rewrite Ha, Hh. auto.
    + split; [done |]. by apply lookup_zip_with_Some; exists l, st.
  - intros k id Hk. specialize (Hg 0%nat (mi_id id) (0%nat, [])). injection Hg as _ _ _ Hr _.
    rewrite list_lookup_fmap, Hk. eexists. split; [reflexivity |]. simpl. rewrite Hr. auto.
Qed.

Definition busy : option system :=
  match SymphonyProxyWrap_new ProxyLife.Properties.sample_machine both_listeners with
  | Ok w => sys_schedule (fun x => x) challenge_io sample_peer (deploy w both_listeners) [DoStart; DoAccept 0; DoAccept 1; DoAsk 0; DoAsk 1; DoAsk 1]
  | Err _ => None
  end.

Lemma busy_made (P : system -> bool) :
  match busy with Some s => P s | None => false end = true -> exists s, busy = Some s /\ P s = true.
Proof. destruct busy as [s|]; [by exists s | discriminate]. Qed.

Lemma busy_deployed s :
  busy = Some s -> deployed (fun x => x) ProxyLife.Properties.sample_machine both_listeners true s.
Proof.
  unfold busy. destruct (SymphonyProxyWrap_new _ _) as [w|] eqn:Hw; [|done]. intros Hs.
  eapply sys_schedule_deployed; [by apply DeployNew | exact Hs].
Qed.

(** One connection on each listener. *)
Lemma metrics_count_live_connections_witness :
  exists s, busy = Some s /\ guards_held active_anywhere (sy_tasks s) = 2 /\
    shows (jpx_active_connections (metrics (load_now (sy_sampler s)) 5 (sy_wrap s))) 2.
Proof.
  destruct (busy_made (fun s => guards_held active_anywhere (sy_tasks s) =? 2)) as (s & E & Hp); [vm_compute; reflexivity |].
  apply Z.eqb_eq in Hp. exists s. split; [exact E |]. split; [exact Hp |].
  destruct (metrics_count_live_connections (fun x => x) ProxyLife.Properties.sample_machine both_listeners true s 5
    (busy_deployed s E)) as (Ha & _). rewrite Hp in Ha. exact Ha.
Defined.

(** C7: Listeners serve what they were configured for. Every connection of the
    process belongs to a listener of the configuration and asks only what that
    listener's mode and settings allow. A plaintext one never gets past the
    challenge and redirect handler, whatever protection it was given. A TLS one is
    checked by protection only where the listener has it; only on a failover
    ingress is its peer matched against the trusted sources, a failover header
    read or a load query answered; only elsewhere is it offered to a peer, or its
    hello read off to be sent there; and it may fall back on the default route
    exactly where the listener is no ingress. An accept loop holds the limit its listener
    was given, and refuses a connection exactly when that many are live in the
    whole process. *)
Theorem listeners_serve_as_configured `{TlsLib} `{Digests} `{NetLib} `{Lowercase} f64_exp m cfg linux s :
  deployed f64_exp m cfg linux s ->
  (forall t, t ∈ sy_tasks s -> exists jl l st prot ing,
     jx_listeners cfg !! cx_listener (ct_ctx t) = Some jl /\ parse_listener jl = Ok (l, st, prot, ing) /\
     only (may_ask (il_mode l) (ls_protection st) (ls_ingress st)) (ct_rest t) /\ cx_ingress (ct_ctx t) = ls_ingress st) /\
  (forall mode mx ctx, Serving mode mx ctx ∈ sy_activities s ->
     (exists jl l st prot ing, jx_listeners cfg !! cx_listener ctx = Some jl /\
        parse_listener jl = Ok (l, st, prot, ing) /\ il_mode l = mode /\ default 0 (jl_max_connections jl) = mx) /\
     forall peer local, po_tasks (accept mode ctx mx peer local (pool_of s)) = sy_tasks s <->
       0 < mx <= guards_held active_anywhere (sy_tasks s)).
Proof.
  intros Hd. destruct (deployed_made _ _ _ _ _ Hd) as [w Hw].
  destruct (deployed_system_ok _ _ _ _ _ _ Hw Hd) as (cfgs & _ & Hok).
  destruct (reachable_gauges _ _ _ (ok_pool _ _ _ _ _ Hok)) as [_ Hg].
  pose proof (new_listeners _ _ _ Hw) as Hnew. destruct (ok_settings _ _ _ _ _ Hok) as [Hl0 Hs0]. split.
  - intros t Ht%list_elem_of_In. pose proof (ok_tasks _ _ _ _ _ Hok) as Hts. rewrite Forall_forall in Hts.
    destruct (Hts t Ht) as (mode & mx & (l & st & Hl & Hs & Hm & _ & Hp & Hi & _) & Hask & _). rewrite Hl0 in Hl. rewrite Hs0 in Hs.
    destruct (Hnew _ _ _ Hl Hs) as (jl & prot & ing & Hj & Hparse). exists jl, l, st, prot, ing. rewrite Hm, <- Hp, <- Hi. by split_and!.
  - intros mode mx ctx Hin%list_elem_of_In. pose proof (ok_activities _ _ _ _ _ Hok) as Has. rewrite Forall_forall in Has.
    destruct (Has _ Hin) as (l & st & Hl & Hs & Hm & Hmx & _). rewrite Hl0 in Hl. rewrite Hs0 in Hs.
    destruct (Hnew _ _ _ Hl Hs) as (jl & prot & ing & Hj & Hparse). split.
    + exists jl, l, st, prot, ing. split_and!; try done. rewrite <- Hmx. symmetry. by eapply parse_listener_limit.
    + intros peer local. specialize (Hg 0%nat 0%nat (0%nat, [])). injection Hg as _ _ Hg _ _. by apply accept_refuses.
Qed.

Lemma listeners_serve_as_configured_witness :
  exists s, busy = Some s /\ length (sy_tasks s) = 2%nat /\
    (forall t, t ∈ sy_tasks s -> exists jl l st prot ing,
       jx_listeners both_listeners !! cx_listener (ct_ctx t) = Some jl /\ parse_listener jl = Ok (l, st, prot, ing) /\
       only (may_ask (il_mode l) (ls_protection st) (ls_ingress st)) (ct_rest t) /\ cx_ingress (ct_ctx t) = ls_ingress st).
Proof.
  destruct (busy_made (fun s => length (sy_tasks s) =? 2)%nat) as (s & E & Hp); [vm_compute; reflexivity |].
  exists s. split; [exact E |]. split; [by apply Nat.eqb_eq |].
  apply (listeners_serve_as_configured (fun x => x) ProxyLife.Properties.sample_machine both_listeners true s
    (busy_deployed s E)).
Defined.
(** An accepted update is not seen at once: a connection that arrives between two of
    its stores is resolved by the new routes and still held to the old trusted
    sources. *)
Definition trusting_config : JsProxyConfig :=
  mkJsProxy [mkJsListener None 443 None (Some (mkJsCert (EitherA (bs "cert")) (EitherA (bs "c")))) None None None None
               (Some [[8; 10; 0; 0; 0]])]
    [ProxyLife.Properties.route_for (bs "a.example.com") None] None None None None None None.
Definition both_parts : JsHotConfig :=
  mkJsHot (Some [ProxyLife.Properties.route_for (bs "b.example.com") None]) None (Some [(443, [[8; 11; 0; 0; 0]])]).
Definition part_way : option system :=
  match SymphonyProxyWrap_new ProxyLife.Properties.sample_machine trusting_config with
  | Ok w => sys_schedule (fun x => x) challenge_io sample_peer (deploy w trusting_config)
      [DoStart; DoUpdate Router.Properties.quiet both_parts; DoCommit Router.Properties.quiet]
  | Err _ => None
  end.
Definition seen_part_way (s : system) : bool :=
  let p := sp_proc (sy_wrap s) in
  let trusted ip := match pc_ingress p !! 0%nat with Some i => trusts i ip | None => false end in
  bool_decide (is_Some (resolve_with (pc_table p) (Some (bs "b.example.com")) false)) &&
  negb (bool_decide (is_Some (resolve_with (pc_table p) (Some (bs "a.example.com")) false))) &&
  trusted (V4 167772161) && negb (trusted (V4 184549377)) && (length (sy_pending s) =? 1)%nat.

Example update_is_stored_in_parts :
  exists s, deployed (fun x => x) ProxyLife.Properties.sample_machine trusting_config true s /\ seen_part_way s = true.
Proof.
  assert (match part_way with Some s => seen_part_way s | None => false end = true) as Hp by (vm_compute; reflexivity).
  destruct part_way as [s|] eqn:E; [|discriminate Hp]. exists s. split; [|exact Hp]. revert E. unfold part_way.
  destruct (SymphonyProxyWrap_new _ _) as [w|] eqn:Hw; [|discriminate]. intros E.
  eapply sys_schedule_deployed; [apply DeployNew; exact Hw | exact E].
Qed.
End Properties.
