(* ===== verification/SystemHealth.v ===== *)
(** * What the application hears of route health, in the whole process
    (src/src/failover.rs and src/src/router.rs)

    A failover route keeps what was last reported of it in a status cell that a
    reload hands on to the route of the same name and metrics group
    ([taken_over]). No two routes of a table share a cell ([cells_ok], kept by
    [build_route_table]), and nothing but the probe's report writes it; so the
    events that name a route alternate, through reloads, restarts and any traffic
    ([System.deployed]), for as long as the name keeps its failover and its group
    ([since]). *)

From S2P Require Import Prelude Bytes Float64 Net IpText TokenBucket Sni Tls Protection ProxyProtocol Balancer BalancerState Metrics Failover Router HttpHead HttpPump Background Forwarding Task Suspended Liveness Sockets Connection ConnectionRuns HttpListener Pool Config Proxy ProxyLife ThreadCpu System.

Open Scope Z_scope.

Section SystemHealth.
Context `{TlsLib} `{Digests} `{NetLib} `{Lowercase}.

(** ** The status cells of a table *)

Definition failover_cell (r : Route) : option nat := fo_status <$> rt_failover r.
Definition cell_of (t : RouteTable) (sni : bytes) : option nat := get_for_spec_sni t sni ≫= failover_cell.

(** The failover route a table has for a name. *)
Definition listed_as (r : Route) : option FailoverRoute :=
  (fun f => mkRoute (mi_id (rt_identity r)) (mi_route (rt_identity r)) (mi_group (rt_identity r)) f
              (rt_destination r) (rt_destination_h2 r)) <$> rt_failover r.
Definition record_of (t : RouteTable) (sni : bytes) : option FailoverRoute := get_for_spec_sni t sni ≫= listed_as.

Lemma cell_of_record t sni : cell_of t sni = status_cell <$> record_of t sni.
Proof.
  unfold cell_of, record_of, failover_cell, listed_as. destruct (get_for_spec_sni t sni) as [r|]; [|done]. simpl.
  by destruct (rt_failover r).
Qed.

Record cells_ok (t : RouteTable) (n : nat) : Prop := {
  co_named : forall sni r, get_for_spec_sni t sni = Some r -> mi_route (rt_identity r) = sni;
  co_distinct : forall sni sni' c, cell_of t sni = Some c -> cell_of t sni' = Some c -> sni = sni';
  co_below : forall sni c, cell_of t sni = Some c -> (c < n)%nat;
  co_listed : forall x, x ∈ failover_routes t <-> record_of t (fr_route x) = Some x;
  co_nodup : NoDup (status_cell <$> failover_routes t);
}.

Lemma cells_ok_more t n n' : (n <= n')%nat -> cells_ok t n -> cells_ok t n'.
Proof. intros Hn []. split; try done. intros sni c Hc. specialize (co_below0 sni c Hc). lia. Qed.

(** ** A new failover's cell *)

Definition cell_from (fl fl' : fleet) (previous : option nat) (c : nat) : Prop :=
  (c < next_fleet fl')%nat /\ ((next_fleet fl <= c)%nat \/ previous = Some c).

Lemma Failover_new_cell fl policy previous h same :
  (forall p, previous = Some p -> (fo_status p < next_fleet fl)%nat) ->
  let '(f, fl') := Failover_new fl policy previous h same in
  cell_from fl fl' (fo_status <$> previous) (fo_status f).
Proof.
  intros Hp. pose proof (Failover_new_grows fl policy previous h same) as (Hn & _). revert Hn. unfold Failover_new.
  pose proof (adopt_peers_grows fl (match previous with Some p => fo_peers p | None => [] end) (pol_peers policy)) as (Ha & _).
  destruct (adopt_peers _ _ _) as [peers fl1]. simpl in Ha.
  assert (forall fl2, (next_fleet fl <= next_fleet fl2)%nat -> let '(status, fl3) := match previous with
      | Some p => (fo_status p, fl2)
      | None => let i := next_fleet fl2 in (i, mkFleet (peer_cells fl2) (spill_cells fl2)
          (<[i := FailoverStatus_default]> (status_cells fl2)) (S i)) end in
    (next_fleet fl <= next_fleet fl3)%nat -> cell_from fl fl3 (fo_status <$> previous) status) as Hst.
  { intros fl2 Hfl2. destruct previous as [p|]; simpl; intros Hle.
    - split; [specialize (Hp p eq_refl); lia | by right].
    - split; simpl in *; [lia | left; lia]. }
  destruct (pol_spill policy) as [sp|]; [destruct (_ ≫= _)|]; cbv zeta;
    match goal with |- context [match previous with Some p => (fo_status p, ?f) | None => _ end] =>
      specialize (Hst f); simpl in Hst; specialize (Hst ltac:(simpl; lia)) end;
    destruct previous; exact Hst.
Qed.

Definition previous_cell (previous : option RouteTable) (sni : bytes) : option nat := p ← previous; cell_of p sni.

Lemma finish_route_cell su e spec prev down sources policy carried r :
  (forall p c, prev = Some p -> failover_cell p = Some c -> (c < next_fleet (e_fleet e))%nat) ->
  let '(r', e') := finish_route su e spec prev down sources policy carried r in
  forall c, failover_cell r' = Some c -> cell_from (e_fleet e) (e_fleet e') (prev ≫= failover_cell) c.
Proof.
  intros Hp. unfold finish_route. destruct (retrack _ _ _ _ _) as [[d h2] sh1]. cbv zeta. destruct policy as [policy|]; [|done].
  destruct (tcp_health_of _ _ _ _ _) as [th sh2].
  match goal with |- context [Failover_new ?a ?b ?p ?d ?e] => pose proof (Failover_new_cell a b p d e) as Hf end.
  match type of Hf with (forall p, ?prev = Some p -> _) -> _ => set (pf := prev) in *; remember pf as pf' eqn:Epf end.
  destruct (Failover_new _ _ _ _ _) as [f fl]. simpl. intros c [= <-].
  assert (forall q, pf' = Some q -> exists p, prev = Some p /\ rt_failover p = Some q) as Hq.
  { intros q ->. unfold pf in Epf. destruct prev as [p|]; [|done]. simpl in Epf. destruct (_ =? _)%nat; [|done]. eauto. }
  destruct Hf as [Hlt [Hle|Hprev]].
  - intros q Hq'. destruct (Hq q Hq') as (p & -> & Hpf). eapply Hp; [done |]. unfold failover_cell. by rewrite Hpf.
  - split; [done | by left].
  - split; [done |]. right. destruct pf' as [q|]; [|done]. destruct (Hq q eq_refl) as (p & -> & Hpf).
    simpl. unfold failover_cell. by rewrite Hpf.
Qed.

Lemma cell_from_mono fl fl1 fl' p c :
  (next_fleet fl <= next_fleet fl1)%nat -> cell_from fl1 fl' p c -> cell_from fl fl' p c.
Proof. intros Hle [H1' [H2'|H2']]; (split; [done |]); [left; lia | by right]. Qed.

Lemma spec_outcome_cell su lt previous e spec :
  (forall c, previous_cell previous (rs_sni spec) = Some c -> (c < next_fleet (e_fleet e))%nat) ->
  let '(res, e') := spec_outcome su lt previous e spec in
  forall r c, sr_route res = Some r -> failover_cell r = Some c ->
    cell_from (e_fleet e) (e_fleet e') (previous_cell previous (rs_sni spec)) c.
Proof.
  intros Hp. unfold spec_outcome. destruct (validate_route_protocol_declaration spec); [|done].
  destruct (SourceAllowlist_parse _) as [sources|]; [|done]. cbv zeta.
  destruct (failover_policy spec) as [[policy bf] bsp]. set (prev := p ← previous; get_for_spec_sni p (rs_sni spec)).
  assert (prev ≫= failover_cell = previous_cell previous (rs_sni spec)) as Hprev by (unfold prev; by destruct previous).
  match goal with |- context [build_route su e spec lt ?i] => pose proof (build_route_grows su e spec lt i) as (_ & (Hn & _) & _);
    destruct (build_route su e spec lt i) as [built e1] end. simpl in Hn.
  assert (forall down carried r, let '(r', e') := finish_route su e1 spec prev down sources policy carried r in
    forall c, failover_cell r' = Some c -> cell_from (e_fleet e) (e_fleet e') (previous_cell previous (rs_sni spec)) c) as Hfin.
  { intros down carried r. pose proof (finish_route_cell su e1 spec prev down sources policy carried r) as Hf.
    destruct (finish_route _ _ _ _ _ _ _ _ _) as [r' e']. intros c Hc. rewrite <- Hprev. eapply cell_from_mono; [exact Hn |].
    apply Hf; [|done]. intros p c' Ep Hc'. specialize (Hp c'). rewrite <- Hprev, Ep in Hp. specialize (Hp Hc'). lia. }
  destruct built as [r|].
  - match goal with |- context [finish_route su e1 spec prev ?d sources policy ?c r] => specialize (Hfin d c r) end.
    destruct (finish_route _ _ _ _ _ _ _ _ _) as [r' e']. simpl. intros r0 c [= <-]. apply Hfin.
  - destruct (carry_forward previous spec _) as [r|]; [|done].
    match goal with |- context [finish_route su e1 spec prev ?d sources policy ?c r] => specialize (Hfin d c r) end.
    destruct (finish_route _ _ _ _ _ _ _ _ _) as [r' e']. simpl. intros r0 c [= <-]. apply Hfin.
Qed.

(** ** The record a new route continues *)

(** Of the name [sni], after the route [prev]: it says so of itself, and continues
    the record of a route of the same group. *)
Definition continues (prev : option Route) (sni : bytes) (r : Route) : Prop :=
  mi_route (rt_identity r) = sni /\
  forall p f f', prev = Some p -> rt_failover p = Some f -> rt_failover r = Some f' ->
    mi_group (rt_identity p) = mi_group (rt_identity r) -> fo_status f' = fo_status f.

Lemma Failover_new_status fl policy p h same : fo_status (Failover_new fl policy (Some p) h same).1 = fo_status p.
Proof.
  unfold Failover_new. destruct (adopt_peers _ _ _) as [peers fl1].
  destruct (pol_spill policy) as [sp|]; [destruct (_ ≫= _)|]; done.
Qed.

Lemma finish_route_continues su e spec prev down sources policy carried r :
  (forall p, prev = Some p -> mi_route (rt_identity p) = rs_sni spec) -> mi_route (rt_identity r) = rs_sni spec ->
  mi_group (rt_identity r) = rs_metrics_group spec \/ prev = Some r ->
  continues prev (rs_sni spec) (finish_route su e spec prev down sources policy carried r).1.
Proof.
  intros Hp Hr Hg. unfold finish_route. destruct (retrack _ _ _ _ _) as [[d h2] sh1]. cbv zeta.
  set (identity := match prev with Some p => _ | None => _ end).
  assert (mi_route identity = rs_sni spec) as Hname.
  { unfold identity. destruct prev as [p|]; [|done]. destruct (bytes_eqb _ _); [by apply Hp | done]. }
  assert (forall p, prev = Some p -> mi_group (rt_identity p) = mi_group identity -> mi_id (rt_identity p) = mi_id identity) as Hid.
  { intros p ->. unfold identity. unfold bytes_eqb. case_bool_decide as Hsame; [done |].
    destruct Hg as [Hg|[= ->]]; [|done]. congruence. }
  clearbody identity. destruct policy as [policy|]; [|split; [exact Hname | done]].
  destruct (tcp_health_of _ _ _ _ _) as [th sh2].
  match goal with |- context [Failover_new ?a ?b ?q ?h ?s] => pose proof (fun q' => Failover_new_status a b q' h s) as Hst;
    assert (forall q', q = Some q' -> fo_status (Failover_new a b q h s).1 = fo_status q') as Hcont by (intros q' ->; apply Hst);
    destruct (Failover_new a b q h s) as [f fl] end.
  split; [exact Hname |]. intros p f0 f' Hprev Hf0 [= <-] Hgroup. apply Hcont. rewrite Hprev. simpl.
  by rewrite (Hid p Hprev Hgroup), Nat.eqb_refl.
Qed.

Lemma build_route_made su e spec lt inherit :
  let '(built, e') := build_route su e spec lt inherit in
  e_fleet e' = e_fleet e /\
  forall r, built = Ok r -> mi_route (rt_identity r) = rs_sni spec /\ mi_group (rt_identity r) = rs_metrics_group spec.
Proof.
  unfold build_route. assert (e_fleet (build_tls su e spec lt).2 = e_fleet e) as Ht.
  { unfold build_tls. repeat case_match; done. }
  destruct (build_tls su e spec lt) as [[tls|] e1]; simpl in Ht; [|done].
  destruct (build_destinations _ _ _ _) as [[[d h2]|] sh]; [|done]. destruct (check_h2 _ _); [|done].
  split; [done |]. by intros r [= <-].
Qed.

Lemma spec_outcome_continues su lt previous e spec :
  (forall t p, previous = Some t -> get_for_spec_sni t (rs_sni spec) = Some p -> mi_route (rt_identity p) = rs_sni spec) ->
  forall r, sr_route (spec_outcome su lt previous e spec).1 = Some r ->
  continues (t ← previous; get_for_spec_sni t (rs_sni spec)) (rs_sni spec) r.
Proof.
  intros Hp r. unfold spec_outcome. destruct (validate_route_protocol_declaration spec); [|done].
  destruct (SourceAllowlist_parse _) as [sources|]; [|done]. cbv zeta.
  destruct (failover_policy spec) as [[policy bf] bsp].
  assert (forall p, (t ← previous; get_for_spec_sni t (rs_sni spec)) = Some p -> mi_route (rt_identity p) = rs_sni spec) as Hprev
    by (intros p; destruct previous as [t|]; [apply Hp; done | done]).
  match goal with |- context [build_route su e spec lt ?i] => pose proof (build_route_made su e spec lt i) as Hmade;
    destruct (build_route su e spec lt i) as [built e1]; destruct Hmade as [_ Hmade] end.
  destruct built as [r0|].
  - destruct (Hmade r0 eq_refl) as [Hr Hg].
    match goal with |- context [finish_route ?a ?b ?c ?p ?d ?f ?g ?h r0] =>
      pose proof (finish_route_continues a b c p d f g h r0 Hprev Hr (or_introl Hg)) as Hc;
      destruct (finish_route a b c p d f g h r0) as [r' e'] end. by intros [= <-].
  - destruct (carry_forward previous spec _) as [r0|] eqn:Hcar; [|done].
    assert ((t ← previous; get_for_spec_sni t (rs_sni spec)) = Some r0) as Hr0.
    { unfold carry_forward in Hcar. destruct previous as [t|]; [|done]. simpl in *.
      destruct (get_for_spec_sni t (rs_sni spec)); [|done]. simpl in Hcar. case_bool_decide; [done | done]. }
    match goal with |- context [finish_route ?a ?b ?c ?p ?d ?f ?g ?h r0] =>
      pose proof (finish_route_continues a b c p d f g h r0 Hprev (Hprev _ Hr0) (or_intror Hr0)) as Hc;
      destruct (finish_route a b c p d f g h r0) as [r' e'] end. by intros [= <-].
Qed.

(** ** The cells of a build *)

Lemma spec_route_status b sni : get_for_spec_sni (table_of b) sni = mjoin (status b sni).
Proof. unfold status. destruct (get_for_spec_sni (table_of b) sni); [done |]. by repeat case_match. Qed.

(** Through the verdict a builder holds for a name. *)
Definition verdict_cell (v : option (option Route)) : option nat := r ← v; r ≫= failover_cell.

Lemma cell_of_status b sni : cell_of (table_of b) sni = verdict_cell (status b sni).
Proof.
  unfold cell_of, verdict_cell, status. destruct (get_for_spec_sni (table_of b) sni) as [r|]; [done |]. simpl.
  by repeat case_match.
Qed.

Section Build.
Context (su : surroundings) (lt : ListenerTlsSpec) (previous : option RouteTable) (specs : list RouteSpec) (e0 : env).
Context (Hprevious : forall p, previous = Some p -> cells_ok p (next_fleet (e_fleet e0))).

Record built_cells (b : builder) (e : env) : Prop := {
  bc_next : (next_fleet (e_fleet e0) <= next_fleet (e_fleet e))%nat;
  bc_ok : cells_ok (table_of b) (next_fleet (e_fleet e));
  bc_from : forall sni c, cell_of (table_of b) sni = Some c ->
    (next_fleet (e_fleet e0) <= c)%nat \/ previous_cell previous sni = Some c;
  bc_continues : forall sni r, get_for_spec_sni (table_of b) sni = Some r ->
    continues (t ← previous; get_for_spec_sni t sni) sni r;
}.

Lemma previous_below sni c : previous_cell previous sni = Some c -> (c < next_fleet (e_fleet e0))%nat.
Proof. unfold previous_cell. destruct previous as [p|]; [|done]. apply (co_below _ _ (Hprevious p eq_refl)). Qed.

Lemma previous_distinct sni sni' c :
  previous_cell previous sni = Some c -> previous_cell previous sni' = Some c -> sni = sni'.
Proof. unfold previous_cell. destruct previous as [p|]; [|done]. apply (co_distinct _ _ (Hprevious p eq_refl)). Qed.

(** A table that gains no cell. *)
Lemma built_same b b' e e' :
  built_cells b e -> (next_fleet (e_fleet e) <= next_fleet (e_fleet e'))%nat ->
  (forall sni, get_for_spec_sni (table_of b') sni = get_for_spec_sni (table_of b) sni) ->
  b_failover_routes b' = b_failover_routes b -> built_cells b' e'.
Proof.
  intros [Hn [Hna Hd Hb Hl Hnd] Hf Hq] Hle Hc Hr.
  assert (forall sni, cell_of (table_of b') sni = cell_of (table_of b) sni) as Hcell by (intros sni; unfold cell_of; by rewrite Hc).
  split; [lia | | |].
  - split; simpl; rewrite ?Hr; try done.
    + intros sni r. rewrite Hc. apply Hna.
    + intros sni sni' c. rewrite !Hcell. apply Hd.
    + intros sni c. rewrite Hcell. intros Hs. specialize (Hb sni c Hs). lia.
    + intros x. unfold record_of. rewrite Hc. apply Hl.
  - intros sni c. rewrite Hcell. apply Hf.
  - intros sni r. rewrite Hc. apply Hq.
Qed.

(** A route installed for a name that had none. *)
Lemma built_install b e e' sni a r :
  built_cells b e -> status b sni = None -> (next_fleet (e_fleet e) <= next_fleet (e_fleet e'))%nat ->
  (forall c, failover_cell r = Some c -> cell_from (e_fleet e) (e_fleet e') (previous_cell previous sni) c) ->
  continues (t ← previous; get_for_spec_sni t sni) sni r ->
  built_cells (install b sni a r) e'.
Proof.
  intros Hok Hnone Hle Hr Hcont. pose proof Hok as [Hn [Hna Hd Hb Hl Hnd] Hf Hq].
  assert (forall sni', get_for_spec_sni (table_of (install b sni a r)) sni' =
    if bool_decide (sni' = sni) then Some r else get_for_spec_sni (table_of b) sni') as Hget.
  { intros sni'. rewrite !spec_route_status, status_install by done. by case_bool_decide. }
  assert (record_of (table_of b) sni = None) as Hnorec by (unfold record_of; by rewrite spec_route_status, Hnone).
  assert (forall sni', cell_of (table_of (install b sni a r)) sni' =
    if bool_decide (sni' = sni) then failover_cell r else cell_of (table_of b) sni') as Hc.
  { intros sni'. rewrite !cell_of_status, status_install by done. by case_bool_decide. }
  assert (forall sni' c, failover_cell r = Some c -> cell_of (table_of b) sni' = Some c -> sni' = sni) as Hnew.
  { intros sni' c Hrc Hs. destruct (Hr c Hrc) as [_ [Hge|Hp]]; [specialize (Hb sni' c Hs); lia |].
    destruct (Hf sni' c Hs) as [Hge|Hp']; [specialize (previous_below sni c Hp); lia |]. by eapply previous_distinct. }
  assert (forall c, failover_cell r = Some c -> cell_of (table_of b) sni <> Some c) as Hfree
    by (intros c _; by rewrite cell_of_status, Hnone).
  split; [lia | | |].
  - split.
    + intros s x. rewrite Hget. case_bool_decide; [|apply Hna]. subst. intros [= <-]. apply Hcont.
    + intros s1 s2 c. rewrite !Hc. case_bool_decide as E1; case_bool_decide as E2; subst; intros Hs1 Hs2; try done.
      * symmetry. by eapply Hnew.
      * by eapply Hnew.
      * by eapply Hd.
    + intros s c. rewrite Hc. case_bool_decide; intros Hs; [by destruct (Hr c Hs) | specialize (Hb s c Hs); lia].
    + intros x. unfold record_of. rewrite Hget. simpl. rewrite elem_of_app. unfold listed_as.
      assert (x ∈ b_failover_routes b -> fr_route x <> sni) as Hother.
      { intros Hin <-. apply Hl in Hin. by rewrite Hnorec in Hin. }
      case_bool_decide as E; simpl.
      * destruct (rt_failover r) as [f|]; simpl.
        -- rewrite list_elem_of_singleton. split; [intros [Hin| ->]; [by destruct (Hother Hin) | done] | intros [= <-]; by right].
        -- split; [intros [Hin|Hin]; [by destruct (Hother Hin) | by apply not_elem_of_nil in Hin] | done].
      * rewrite <- (Hl x). split; [intros [Hin|Hin]; [done |] | by left]. destruct E.
        destruct (rt_failover r); [|by apply not_elem_of_nil in Hin]. apply list_elem_of_singleton in Hin as ->. apply Hcont.
    + simpl. rewrite fmap_app. apply list.NoDup_app. split; [done |]. destruct (rt_failover r) as [f|] eqn:Ef; [|split; [|constructor]].
      2:{ intros c Hin Hc'. by apply not_elem_of_nil in Hc'. }
      split; [|apply NoDup_singleton]. intros c Hin Hc'. simpl in Hc'. apply list_elem_of_singleton in Hc'.
      assert (failover_cell r = Some c) as Hrc by (unfold failover_cell; rewrite Ef; by subst).
      apply list_elem_of_fmap in Hin as (x & -> & Hx). apply Hl in Hx.
      assert (cell_of (table_of b) (fr_route x) = Some (status_cell x)) as Hs by (by rewrite cell_of_record, Hx).
      rewrite (Hnew _ _ Hrc Hs) in Hs. by eapply Hfree.
  - intros s c. rewrite Hc. case_bool_decide; [subst s |]; intros Hs; [|by apply Hf].
    destruct (Hr c Hs) as [_ [Hge|Hp]]; [left; lia | by right].
  - intros s x. rewrite Hget. case_bool_decide; [subst s; by intros [= <-] | apply Hq].
Qed.

Lemma build_step_cells pre x post b e :
  specs = pre ++ x :: post -> decided lt previous specs pre b -> built_cells b e ->
  let '(b', e') := build_step su lt previous (last_exact specs) (b, e) (length pre, x) in built_cells b' e'.
Proof.
  intros Hsp Hdec Hok. pose proof (decides_spec lt previous specs pre x post b Hsp Hdec) as Hd. unfold build_step.
  destruct (decides _ _ _ _) eqn:Hb.
  - destruct Hd as [Hnone _]. pose proof (dec_status _ _ _ _ _ Hdec (rs_sni x)) as Hst. rewrite Hnone in Hst.
    pose proof (spec_outcome_cell (holding su b) lt previous e x) as Hcell.
    pose proof (spec_outcome_grows (holding su b) lt previous e x) as (_ & (Hn & _) & _).
    pose proof (spec_outcome_continues (holding su b) lt previous e x) as Hcont.
    destruct (spec_outcome _ _ _ _ _) as [res e']. simpl in Hn, Hcont.
    assert (built_cells (note_result b (rs_sni x) res) e) as Hok' by (by apply (built_same b _ e)).
    destruct (sr_route res) as [r|] eqn:Hr.
    + eapply built_install; [exact Hok' | exact Hst | exact Hn | |].
      * intros c Hc. eapply Hcell; [|done | done]. intros c' Hc'. destruct Hok. specialize (previous_below _ _ Hc'). lia.
      * apply Hcont; [|done]. intros t p Ht. by apply (co_named _ _ (Hprevious t Ht)).
    + apply (built_same _ _ _ _ Hok' Hn).
      * intros sni. rewrite !spec_route_status, status_tombstone by done. case_bool_decide; [subst; by rewrite status_note, Hst | done].
      * unfold tombstone. by destruct (strip_prefix _ _).
  - destruct (strip_prefix star_dot (rs_sni x)); [|done]. by apply (built_same b _ e).
Qed.

Lemma build_cells pre post e :
  specs = pre ++ post -> built_cells builder_new e ->
  let '(b', e') := foldl (build_step su lt previous (last_exact specs)) (builder_new, e) (enumerate pre) in built_cells b' e'.
Proof.
  revert post. induction pre as [|x pre IH] using rev_ind; intros post Hsp Hok; [exact Hok |].
  rewrite <- app_assoc in Hsp. rewrite enumerate_snoc, foldl_app. specialize (IH _ Hsp Hok).
  pose proof (build_decided su lt previous specs pre (x :: post) e Hsp) as Hdec.
  destruct (foldl _ (builder_new, e) (enumerate pre)) as [b e1]. by apply (build_step_cells pre x post).
Qed.
End Build.

Lemma cells_ok_new n : cells_ok (table_of builder_new) n.
Proof.
  assert (forall sni, get_for_spec_sni (table_of builder_new) sni = None) as Hn by (intros sni; by rewrite spec_route_status, status_new).
  split; try (intros *; unfold cell_of, record_of; by rewrite Hn); [|constructor].
  intros x. unfold record_of. rewrite Hn. split; [by intros ?%not_elem_of_nil | done].
Qed.

(** What a table takes over from the one before, [n] cells being in use then: the
    record of every name that keeps its group; a name that had none gets a new
    one. *)
Record taken_over (old t : RouteTable) (n : nat) : Prop := {
  tk_same : forall sni x x', record_of old sni = Some x -> record_of t sni = Some x' -> fr_group x = fr_group x' ->
    status_cell x' = status_cell x;
  tk_new : forall sni x', record_of t sni = Some x' -> record_of old sni = None -> (n <= status_cell x')%nat;
}.

Lemma build_route_table_cells su e specs lt previous :
  (forall p, previous = Some p -> cells_ok p (next_fleet (e_fleet e))) ->
  let '(t, e') := build_route_table su e specs lt previous in
  cells_ok t (next_fleet (e_fleet e')) /\ forall p, previous = Some p -> taken_over p t (next_fleet (e_fleet e)).
Proof.
  intros Hp. unfold build_route_table.
  pose proof (build_cells su lt previous specs e Hp specs [] (clear_cache su e) (eq_sym (app_nil_r _))) as Hb.
  destruct (foldl _ _ _) as [b e']. destruct Hb as [_ Hok Hfrom Hcont].
  { split; [done | apply cells_ok_new | |].
    - intros sni c Hc. by rewrite cell_of_status, status_new in Hc.
    - intros sni r Hc. by rewrite spec_route_status, status_new in Hc. }
  split; [exact Hok |]. intros p ->. split.
  - intros sni x x' Hx Hx' Hg. unfold record_of, listed_as in Hx, Hx'.
    destruct (get_for_spec_sni p sni) as [rp|] eqn:Hgp; [|done]. simpl in Hx. destruct (rt_failover rp) as [f|] eqn:Hf; [|done].
    destruct (get_for_spec_sni (table_of b) sni) as [r|] eqn:Hgt; [|done]. simpl in Hx'. destruct (rt_failover r) as [f'|] eqn:Hf'; [|done].
    injection Hx as <-. injection Hx' as <-. destruct (Hcont _ _ Hgt) as [_ Hsame]. by eapply Hsame.
  - intros sni x' Hx' Hnone. destruct (Hfrom sni (status_cell x')) as [Hle|Hc]; [by rewrite cell_of_record, Hx' | done |].
    simpl in Hc. by rewrite cell_of_record, Hnone in Hc.
Qed.

(** ** What writes a report *)

Definition same_reported (fl fl' : fleet) : Prop :=
  next_fleet fl' = next_fleet fl /\ forall c, reported_down (status_at fl' c) = reported_down (status_at fl c).

#[local] Instance same_reported_preorder : PreOrder same_reported.
Proof. split; [done |]. intros a b c [Hn Hr] [Hn' Hr']. split; [congruence |]. intros x. by rewrite Hr', Hr. Qed.

Lemma put_peer_reported fl i p : same_reported fl (put_peer fl i p).
Proof. done. Qed.
Lemma put_spill_reported fl i p : same_reported fl (put_spill fl i p).
Proof. done. Qed.
Lemma put_status_reported fl i s : reported_down s = reported_down (status_at fl i) -> same_reported fl (put_status fl i s).
Proof. intros Hs. split; [done |]. intros c. rewrite status_at_put. case_decide; [by subst | done]. Qed.
Lemma bump_status_reported fl fo mode : same_reported fl (bump_status fl fo mode).
Proof. apply put_status_reported. by destruct mode. Qed.
Lemma bump_replays_reported fl fo : same_reported fl (bump_replays fl fo).
Proof. by apply put_status_reported. Qed.
Hint Resolve put_peer_reported put_spill_reported bump_status_reported bump_replays_reported : core.

Lemma foldl_reported {A} (f : fleet -> A -> fleet) l fl :
  (forall fl a, same_reported fl (f fl a)) -> same_reported fl (foldl f fl l).
Proof. intros Hf. revert fl. induction l as [|a l IH]; intros fl; simpl; [done |]. etrans; [apply Hf | apply IH]. Qed.

(** ** What connections do to the peers' state *)

(** A relation that everything a connection does to the fleet stays within: what
    becomes of one attempt on a peer, the counts of a forward, and the admission
    that is cleared once it has expired. *)
Class Connecting (R : relation fleet) : Prop := {
  cn_preorder : PreOrder R;
  cn_failure : forall fl p kind lo hi now, R fl (put_peer fl p (record_failure (peer_at fl p) kind lo hi now));
  cn_success : forall fl p mode, R fl (put_peer fl p (hand_over (peer_at fl p) mode));
  cn_status : forall fl fo mode, R fl (bump_status fl fo mode);
  cn_replays : forall fl fo, R fl (bump_replays fl fo);
  cn_expiry : forall fl cell fraction last, R fl (put_spill fl cell (mkSpillState 0 fraction last));
}.

#[local] Instance same_reported_connecting : Connecting same_reported.
Proof. split; auto with typeclass_instances. Qed.

Section Connecting.
Context (R : relation fleet) `{!Connecting R}.
#[local] Existing Instance cn_preorder.
Ltac stays := simpl; first [reflexivity | apply cn_failure | apply cn_success | apply cn_status | apply cn_replays | apply cn_expiry].

Lemma forward_loop_does w fo mode hs budget count hello attempt peers fl tried :
  R fl (fr_fleet (forward_loop w fo mode hs budget count hello attempt peers fl tried)).
Proof.
  revert attempt fl tried. induction peers as [|p peers IH]; intros attempt fl tried; cbn [forward_loop]; [stays |].
  cbv zeta. destruct (_ =? _); [stays |].
  set (fl1 := if (0 <? attempt)%nat then bump_replays fl fo else fl).
  assert (R fl fl1) as H1' by (unfold fl1; destruct (_ <? _)%nat; stays). clearbody fl1. etrans; [exact H1' |].
  destruct (attempt_peer _ _); [destruct (fw_hello_read w); stays |].
  etrans; [apply cn_failure | apply IH].
Qed.

Lemma forward_to_peers_does w fl fo complete hello mode hs peer local now :
  R fl (fr_fleet (Failover.forward_to_peers w fl fo complete hello mode hs peer local now).1).
Proof.
  unfold Failover.forward_to_peers. cbv zeta. destruct (_ || _); [destruct mode; stays |].
  destruct (candidates_for _ _ _ _) as [[count peers] fo']. destruct (_ =? _)%nat; [stays |].
  destruct (write_proxy_v2_header _ _ _); [|stays]. destruct (bool_decide _); [apply forward_loop_does | stays].
Qed.

Lemma spill_target_does fl fo cell hash now : R fl (spill_target fl fo cell hash now).2.
Proof. unfold spill_target. repeat case_match; stays. Qed.
End Connecting.

Lemma control_all_reported fl load now routes : same_reported fl (control_all fl load now routes).
Proof. apply foldl_reported. intros f r. unfold control_route. destruct (fo_spill _) as [[]|]; auto; done. Qed.

Lemma apply_answer_reported fl routes addr names answer : same_reported fl (apply_answer fl routes addr names answer).
Proof.
  unfold apply_answer. destruct answer; [|done]. apply foldl_reported. intros f r. unfold apply_to_route.
  repeat case_match; auto; done.
Qed.

Lemma probe_due_same fl sh routes now : same_reported fl (probe_due fl sh routes now).1.
Proof.
  split; [|intros c; apply probe_due_reported]. unfold probe_due. generalize (@nil (Endpoint * nat * Z)) as due. revert fl.
  induction routes as [|r routes IH]; intros fl due; [done |]. cbn [foldl]. unfold probe_route at 2. cbv zeta.
  destruct (_ <? _); [apply IH |]. destruct (route_targets sh r); [apply IH |]. by rewrite IH.
Qed.

Lemma poll_step_reported p o :
  match o with PlOther _ => False | _ => True end -> same_reported (pg_fleet p) (pg_fleet (poll_step p o).1).
Proof.
  destruct o as [now table order load|id done_ table now load|]; intros Ho; [| |done]; simpl.
  - destruct (poll_tick _ _ _ _ _). apply control_all_reported.
  - etrans; [|apply control_all_reported]. destruct done_ as [[[addr names] answer]|]; [apply apply_answer_reported | done].
Qed.

Lemma connect_fleet i w d ip h : pc_fleet (connect i w d ip h).2 = pc_fleet w.
Proof. unfold connect. destruct d; [repeat case_match; done |]. by destruct (connect_shared _ _ _ _ _ _ _) as [[]]. Qed.

Lemma perform_table ctx i w X (e : anyE X) : pc_table (perform_any ctx i w X e).2 = pc_table w.
Proof.
  destruct e as [X e|X e]; [|by destruct (perform_policies ctx i w X (HttpE e) I)].
  destruct e; try (by match goal with |- pc_table (perform_any _ _ _ _ ?q).2 = _ => destruct (perform_policies ctx i w _ q I) end).
  simpl. by destruct (check_at _ _ _ _ _).
Qed.

(** The process keeps its table, and its fleet stays within a relation. *)
Definition keeps (R : relation fleet) (p p' : proc) : Prop := pc_table p' = pc_table p /\ R (pc_fleet p) (pc_fleet p').

Lemma drop_keeps R `{!Connecting R} ctx w g : keeps R w (drop_guard ctx w g).
Proof. pose proof cn_preorder. by destruct g as [[]| |[]|]. Qed.

Lemma perform_does R `{!Connecting R} ctx i w X (e : anyE X) : R (pc_fleet w) (pc_fleet (perform_any ctx i w X e).2).
Proof.
  pose proof cn_preorder. destruct e as [X e|X e]; destruct e; simpl; try done; try (by rewrite connect_fleet);
    try (unfold count_both; by destruct (_ _ _)); try (by destruct g as [| |[]|]).
  - by destruct (check_at _ _ _ _ _).
  - pose proof (spill_target_does R (pc_fleet w) fo cell (io_hash (hi_io i)) (io_now (hi_io i))) as Hs.
    by destruct (spill_target _ _ _ _ _).
  - match goal with |- context [Failover.forward_to_peers ?a ?b ?c ?d ?e ?f ?g ?h ?j ?k] =>
      pose proof (forward_to_peers_does R a b c d e f g h j k) as Hs; destruct (Failover.forward_to_peers a b c d e f g h j k) end.
    exact Hs.
Qed.

Lemma task_step_keeps R `{!Connecting R} allowed p p' : task_step allowed p p' -> keeps R (po_proc p) (po_proc p').
Proof.
  pose proof cn_preorder.
  destruct 1 as [w ts j i ctx X e k gs t' w' _ Hj Ha|w ts j ctx rest gs Hj|w ts j ctx a g gs Hj]; simpl; [|done | by apply drop_keeps].
  unfold advance in Ha. pose proof (perform_does R ctx i w X e) as Hf. pose proof (perform_table ctx i w X e) as Ht.
  destruct (perform_any ctx i w X e) as [x w1]. injection Ha as <- <-. simpl in *.
  destruct (left_by X e gs) as [g|]; [|done]. destruct (drop_keeps R ctx w1 g) as [Ht' Hf'].
  split; [congruence | by etrans].
Qed.

Lemma accept_keeps R `{!Connecting R} mode ctx mx peer local p : keeps R (po_proc p) (po_proc (accept mode ctx mx peer local p)).
Proof. pose proof cn_preorder. unfold accept. by destruct (_ && _). Qed.

Lemma resolve_keeps R `{!Connecting R} describe su w id r :
  keeps R (sp_proc w) (sp_proc (resolve_connection describe su w id r).2).
Proof.
  pose proof cn_preorder.
  unfold resolve_connection. destruct (parse_u64 id); [|done]. destruct (negb _); [done |]. destruct r as [r|]; [|done].
  unfold answered_route. destruct (parse_resolve_spec r); [|done]. cbv zeta.
  destruct (build_resolved_route _ _ _ _ _ _) as [[[built c] st] sh]. by destruct built.
Qed.

(** The process, as far as reports are concerned. *)
Definition unreported : relation proc := keeps same_reported.

(** A background task that is not reporting. *)
Lemma works_unreported f64_exp obtained linux a w sa e :
  works f64_exp obtained linux a w sa e -> ef_events e = [] /\ unreported w (ef_proc e) \/ exists queued, e = report_pass w sa queued.
Proof.
  destruct 1; try (left; done); try (right; by eexists).
  - left. unfold start_probes. pose proof (probe_due_same (pc_fleet w) (pc_shared w) (failover_routes (pc_table w)) now) as Hs.
    by destruct (probe_due _ _ _ _).
  - left. unfold poll_once. match goal with |- context [poll_step ?p ?o] => pose proof (poll_step_reported p o I) as Hs end.
    by destruct (poll_step _ _).
  - left. unfold poll_once. match goal with |- context [poll_step ?p ?o] => pose proof (poll_step_reported p o I) as Hs end.
    by destruct (poll_step _ _).
  - left. unfold start_pass. cbv zeta. case_bool_decide; [done |]. by destruct (discovery_pass _ _ _ _ _ _) as [[]].
Qed.

(** ** The invariant *)

(** A table that is to replace another: the records of its names are theirs, or
    nothing has been reported in them. *)
Record replaces (fl : fleet) (old t : RouteTable) : Prop := {
  rp_same : forall sni x x', record_of old sni = Some x -> record_of t sni = Some x' -> fr_group x = fr_group x' ->
    status_cell x' = status_cell x;
  rp_new : forall sni x', record_of t sni = Some x' -> record_of old sni = None ->
    reported_down (status_at fl (status_cell x')) = false /\ status_cell x' ∉ status_cell <$> failover_routes old;
}.

(** Of a process, the stores an update has still to make, and what was heard. *)
Record heard_ok (p : proc) (cs : list commit) (events : list (FailoverRoute * bool)) : Prop := {
  ho_fresh : fresh_statuses (pc_fleet p);
  ho_cells : cells_ok (pc_table p) (next_fleet (pc_fleet p));
  ho_pending : forall routes t, SwapTable routes t ∈ cs ->
    cells_ok t (next_fleet (pc_fleet p)) /\ replaces (pc_fleet p) (pc_table p) t;
  ho_once : forall routes t, SwapTable routes t ∉ tail cs;
  ho_heard : forall c, foldl hear (Some false) (ups c events) = Some (reported_down (status_at (pc_fleet p) c));
}.

Lemma unreported_ok p p' cs events : unreported p p' -> heard_ok p cs events -> heard_ok p' cs events.
Proof.
  intros (Ht & Hn & Hr) [Hf Hc Hp Ho Hh]. split.
  - intros c Hle. rewrite Hr. apply Hf. lia.
  - by rewrite Ht, Hn.
  - intros routes t Hin. rewrite Ht, Hn. destruct (Hp routes t Hin) as [? [Hs Hnew]]. split; [done |]. split; [done |].
    intros sni x' Hx'. rewrite Hr. by apply (Hnew sni).
  - done.
  - intros c. by rewrite Hr.
Qed.

Lemma cell_below t n x : cells_ok t n -> x ∈ failover_routes t -> (status_cell x < n)%nat.
Proof.
  intros Hc Hx. apply (co_below _ _ Hc (fr_route x)). rewrite cell_of_record. by rewrite (proj1 (co_listed _ _ Hc x) Hx).
Qed.

Lemma report_route_next sh queued acc r : next_fleet (report_route sh queued acc r).1 = next_fleet acc.1.
Proof. destruct acc as [fl es]. unfold report_route. simpl. by destruct (report_health _ _ _). Qed.

Lemma report_all_next sh queued fl routes : next_fleet (report_all sh queued fl routes).1 = next_fleet fl.
Proof.
  unfold report_all. generalize (@nil (FailoverRoute * bool)) as es. revert fl. induction routes as [|r routes IH]; intros fl es; [done |].
  cbn [foldl]. pose proof (report_route_next sh queued (fl, es) r) as Hn. destruct (report_route sh queued (fl, es) r) as [fl1 es1].
  simpl in Hn. by rewrite IH, Hn.
Qed.

Lemma report_ok p sa queued cs events :
  heard_ok p cs events ->
  heard_ok (ef_proc (report_pass p sa queued)) cs (events ++ ef_events (report_pass p sa queued)).
Proof.
  intros [Hf Hc Hp Hone Hh]. unfold report_pass. pose proof (report_all_next (pc_shared p) queued (pc_fleet p) (failover_routes (pc_table p))) as Hn.
  pose proof (fun c => report_all_others (pc_shared p) queued (pc_fleet p) (failover_routes (pc_table p)) c) as Ho.
  pose proof (fun c => report_all_heard (pc_shared p) queued (pc_fleet p) events (failover_routes (pc_table p)) c (Hh c)) as Hr.
  rewrite report_all_events in Hr. destruct (report_all _ _ _ _) as [fl es]. simpl in *. split; simpl.
  - intros c Hle. rewrite Ho; [apply Hf; lia |]. intros Hin. apply list_elem_of_fmap in Hin as (r & -> & Hr').
    specialize (cell_below _ _ _ Hc Hr'). lia.
  - by rewrite Hn.
  - intros routes t Hin. rewrite Hn. destruct (Hp routes t Hin) as [? [Hs Hnew]]. split; [done |]. split; [done |].
    intros sni x' Hx' Hnone. destruct (Hnew sni x' Hx' Hnone). split; [by rewrite Ho | done].
  - exact Hone.
  - exact Hr.
Qed.

(** A process whose statuses are as they were, whatever its table and its stores. *)
Lemma reload_ok p cs events p' cs' :
  heard_ok p cs events -> statuses_kept (pc_fleet p) (pc_fleet p') -> cells_ok (pc_table p') (next_fleet (pc_fleet p')) ->
  (forall routes t, SwapTable routes t ∈ cs' ->
     cells_ok t (next_fleet (pc_fleet p')) /\ replaces (pc_fleet p') (pc_table p') t) ->
  (forall routes t, SwapTable routes t ∉ tail cs') -> heard_ok p' cs' events.
Proof.
  intros [Hf Hc Hp Ho Hh] Hk Ht Hcs Hone. destruct (Hk Hf) as [Hf' Hr]. split; try done. intros c. by rewrite Hr.
Qed.

Lemma once_in_commits routes table prot ing routes' t : SwapTable routes' t ∉ tail (commits routes table prot ing).
Proof.
  unfold commits. intros Hin. set (rest := (_ <$> prot) ++ _) in Hin. assert (SwapTable routes' t ∈ rest) as Hr.
  { destruct table; [exact Hin |]. simpl in Hin. destruct rest; [done |]. by constructor. }
  unfold rest in Hr. rewrite elem_of_app, !list_elem_of_fmap in Hr. by destruct Hr as [(? & ? & _)|(? & ? & _)].
Qed.

Lemma once_prepared su w hot routes t : SwapTable routes t ∉ tail (prepared su w hot).
Proof.
  unfold prepared, prepare_update. destruct (build_hot_table su w (jh_routes hot)) as [[table|e] w1]; simpl;
    [|apply not_elem_of_nil]. destruct (validate_protection _ _); [|apply not_elem_of_nil].
  destruct (validate_ingress _ _); [|apply not_elem_of_nil]. apply once_in_commits.
Qed.

(** What a build takes over is what the table it makes is to replace. *)
Lemma taken_over_replaces fl fl' old t :
  fresh_statuses fl -> statuses_kept fl fl' -> cells_ok old (next_fleet fl) -> taken_over old t (next_fleet fl) ->
  replaces fl' old t.
Proof.
  intros Hf Hk Hc [Hs Hn]. destruct (Hk Hf) as [_ Hr]. split; [exact Hs |]. intros sni x' Hx' Hnone.
  specialize (Hn sni x' Hx' Hnone). split; [rewrite Hr; by apply Hf |].
  intros Hin. apply list_elem_of_fmap in Hin as (x & Hcell & Hx). pose proof (cell_below _ _ _ Hc Hx). lia.
Qed.

(** The tables among the stores of an update: the one that was built. *)
Lemma swap_in_commits routes table prot ing routes' t :
  SwapTable routes' t ∈ commits routes table prot ing -> table = Some t.
Proof.
  unfold commits. rewrite !elem_of_app. intros [Hin|[Hin|Hin]].
  - destruct table as [t'|]; [|by apply not_elem_of_nil in Hin]. by apply list_elem_of_singleton in Hin as [= _ ->].
  - by apply list_elem_of_fmap in Hin as (? & ? & _).
  - by apply list_elem_of_fmap in Hin as (? & ? & _).
Qed.

(** What preparing an update does to the peers' state: it builds at most one table,
    against the one in use. *)
Lemma prepared_swap su w hot routes t :
  SwapTable routes t ∈ prepared su w hot ->
  (build_hot_table su w (jh_routes hot)).1 = Ok (Some t).
Proof.
  unfold prepared, prepare_update. destruct (build_hot_table su w (jh_routes hot)) as [[table|e] w1]; simpl;
    [|by intros ?%not_elem_of_nil]. destruct (validate_protection _ _); [|by intros ?%not_elem_of_nil].
  destruct (validate_ingress _ _); [|by intros ?%not_elem_of_nil]. simpl. by intros ->%swap_in_commits.
Qed.

Lemma prepare_proc su w hot : (prepare_update su w hot).2 = (build_hot_table su w (jh_routes hot)).2.
Proof. unfold prepare_update. by destruct (build_hot_table su w (jh_routes hot)) as [[table|e] w1]. Qed.

Lemma prepare_heard su w hot events :
  heard_ok (sp_proc w) [] events -> heard_ok (sp_proc (prepare_update su w hot).2) (prepared su w hot) events.
Proof.
  intros Hok. pose proof (ho_cells _ _ _ Hok) as Hc. pose proof (fun routes t => prepared_swap su w hot routes t) as Hsw.
  rewrite prepare_proc. unfold build_hot_table in *.
  assert (statuses_kept (pc_fleet (sp_proc w)) (pc_fleet (sp_proc w))) as Hsame by (by apply statuses_kept_alloc).
  pose proof (fun routes t => once_prepared su w hot routes t) as Hone.
  destruct (jh_routes hot) as [routes|]; [|eapply reload_ok; try done; intros rs t Hin; by specialize (Hsw rs t Hin)].
  destruct (try_map _ _) as [specs|]; [|eapply reload_ok; try done; intros rs t Hin; by specialize (Hsw rs t Hin)].
  match goal with |- context [build_route_table ?a ?b ?c ?d ?e] =>
    pose proof (build_route_table_grows a b c d e) as (_ & (Hn & _ & _ & _ & Hk) & _);
    pose proof (build_route_table_cells a b c d e) as Hcells; destruct (build_route_table a b c d e) as [t e'] end.
  simpl in *. destruct Hcells as [Hcells Htake]; [by intros p [= <-] |].
  eapply reload_ok; [exact Hok | exact Hk | by eapply cells_ok_more | | exact Hone].
  intros rs t' Hin. specialize (Hsw rs t' Hin) as [= <-]. split; [exact Hcells |].
  eapply taken_over_replaces; [apply (ho_fresh _ _ _ Hok) | exact Hk | exact Hc | by apply Htake].
Qed.

Lemma commit_fleet su w c :
  pc_fleet (sp_proc (commit_one su w c)) = pc_fleet (sp_proc w) /\
  pc_table (sp_proc (commit_one su w c)) = match c with SwapTable _ t => t | _ => pc_table (sp_proc w) end.
Proof. destruct c; simpl; try done. unfold store_protection. by destruct (head _) as [[]|]. Qed.

Lemma commit_heard su w c cs events :
  heard_ok (sp_proc w) (c :: cs) events -> heard_ok (sp_proc (commit_one su w c)) cs events.
Proof.
  intros Hok. destruct (commit_fleet su w c) as [Hf Ht]. eapply reload_ok; [exact Hok | rewrite Hf; by apply statuses_kept_alloc | | |].
  - rewrite Hf, Ht. destruct c as [routes t|u|u]; [|apply (ho_cells _ _ _ Hok) ..].
    apply (ho_pending _ _ _ Hok routes t). constructor.
  - intros routes t Hin. by destruct (ho_once _ _ _ Hok routes t).
  - intros routes t Hin. apply (ho_once _ _ _ Hok routes t). simpl. destruct cs; [done | by constructor].
Qed.

Lemma sys_step_heard f64_exp obtained linux s s' :
  sys_step f64_exp obtained linux s s' -> heard_ok (sp_proc (sy_wrap s)) (sy_pending s) (sy_health s) ->
  heard_ok (sp_proc (sy_wrap s')) (sy_pending s') (sy_health s').
Proof.
  destruct 1 as [s kn acc nf Hi|s t Hi|s su hot Hi|s su c cs Hp|s describe su id r Hi|s mode mx ctx peer local Hin|s p' Hs|s k a e Hk Hw|s k];
    intros Hok.
  - unfold after_start. destruct (start_keeps_settings kn acc nf (sy_wrap s)) as (_ & _ & Hp).
    destruct (start kn acc nf (sy_wrap s)) as [[r nf'] w]. simpl in *. by rewrite Hp.
  - rewrite Hi in Hok. exact Hok.
  - rewrite Hi in Hok. by apply prepare_heard.
  - rewrite Hp in Hok. by apply commit_heard.
  - rewrite Hi in Hok. by eapply unreported_ok; [apply (resolve_keeps _) |].
  - simpl. eapply unreported_ok; [|exact Hok]. by apply (accept_keeps _).
  - simpl. eapply unreported_ok; [|exact Hok]. exact (task_step_keeps _ _ _ _ Hs).
  - simpl. destruct (works_unreported _ _ _ _ _ _ _ Hw) as [[-> Hu]|[queued ->]]; [|by apply report_ok].
    rewrite app_nil_r. by eapply unreported_ok.
  - exact Hok.
Qed.

Lemma deployed_heard f64_exp m cfg linux s :
  deployed f64_exp m cfg linux s -> heard_ok (sp_proc (sy_wrap s)) (sy_pending s) (sy_health s).
Proof.
  induction 1 as [w Hw|s s' _ IH Hst _]; [|by eapply sys_step_heard].
  simpl. revert Hw. unfold SymphonyProxyWrap_new. cbv zeta. intros Hn.
  repeat match type of Hn with
  | context [mbind _ ?x] => destruct x as [?|?]; [cbn [mbind result_bind] in Hn | discriminate Hn]
  end.
  match type of Hn with context [build_route_table ?a ?b ?c ?d ?e] =>
    pose proof (build_route_table_grows a b c d e) as (_ & (_ & _ & _ & _ & Hk) & _);
    pose proof (build_route_table_cells a b c d e) as Hcells; destruct (build_route_table a b c d e) as [t e'] end.
  destruct (negb _); [discriminate Hn |]. injection Hn as <-. simpl in *.
  destruct Hk as [Hf Hr]; [intros c _; unfold status_at; simpl; by rewrite lookup_empty |]. split; simpl.
  - exact Hf.
  - by apply Hcells.
  - by intros ? ? ?%not_elem_of_nil.
  - intros ? ?. apply not_elem_of_nil.
  - intros c. rewrite Hr. unfold status_at. simpl. by rewrite lookup_empty.
Qed.

(** ** What is heard of a name *)

(** The failover route of a name in use, and what was last reported of it. *)
Definition route_of (s : system) (name : bytes) : option FailoverRoute := record_of (pc_table (sp_proc (sy_wrap s))) name.
Definition reported (s : system) (r : FailoverRoute) : bool :=
  reported_down (status_at (pc_fleet (sp_proc (sy_wrap s))) (status_cell r)).

(** The events that name a route. *)
Definition ups_named (name : bytes) (events : list (FailoverRoute * bool)) : list bool :=
  snd <$> List.filter (fun e => bytes_eqb (fr_route e.1) name) events.

Lemma ups_named_app name es es' : ups_named name (es ++ es') = ups_named name es ++ ups_named name es'.
Proof. unfold ups_named. by rewrite List.filter_app, fmap_app. Qed.

Lemma report_all_listed sh queued fl routes e : e ∈ (report_all sh queued fl routes).2 -> e.1 ∈ routes.
Proof.
  unfold report_all. assert (forall fl es, e ∈ (foldl (report_route sh queued) (fl, es) routes).2 -> e ∈ es \/ e.1 ∈ routes) as Hall.
  { induction routes as [|r routes IH]; intros fl0 es; [by left |]. cbn [foldl].
    destruct (report_route sh queued (fl0, es) r) as [fl1 es1] eqn:Er. intros Hin.
    destruct (IH _ _ Hin) as [Hes|Hr]; [|right; by constructor].
    unfold report_route in Er. destruct (report_health _ _ _) as [rep ev]. injection Er as _ <-. apply elem_of_app in Hes as [?|Hev]; [by left |].
    right. destruct ev; [|by apply not_elem_of_nil in Hev]. apply list_elem_of_singleton in Hev as ->. constructor. }
  intros Hin. destruct (Hall fl [] Hin) as [Hn|]; [by apply not_elem_of_nil in Hn | done].
Qed.

(** The events of a table's routes that name one of them are those of its record. *)
Lemma ups_of_name t n name x events :
  cells_ok t n -> record_of t name = Some x -> (forall e, e ∈ events -> e.1 ∈ failover_routes t) ->
  ups_named name events = ups (status_cell x) events.
Proof.
  intros Hc Hx. unfold ups_named, ups. induction events as [|e events IH]; intros Hall; [done |]. cbn [List.filter].
  assert (bytes_eqb (fr_route e.1) name = (status_cell e.1 =? status_cell x)%nat) as ->.
  { assert (e.1 ∈ failover_routes t) as He%(co_listed _ _ Hc) by (apply Hall; constructor).
    unfold bytes_eqb. case_bool_decide as Hn; symmetry.
    - rewrite Hn, Hx in He. injection He as <-. apply Nat.eqb_refl.
    - apply Nat.eqb_neq. intros Hs. apply Hn. eapply (co_distinct _ _ Hc).
      + by rewrite cell_of_record, He.
      + rewrite cell_of_record, Hx. by rewrite Hs. }
  destruct (_ =? _)%nat; cbn [fmap list_fmap]; rewrite IH; try done; intros e' He'; apply Hall; by constructor.
Qed.

(** A step makes events of the routes in use only; it leaves the table as it is, or
    is the store of a new one. *)
Lemma sys_step_events f64_exp obtained linux s s' :
  sys_step f64_exp obtained linux s s' ->
  exists es, sy_health s' = sy_health s ++ es /\
    (forall e, e ∈ es -> e.1 ∈ failover_routes (pc_table (sp_proc (sy_wrap s)))) /\
    (pc_table (sp_proc (sy_wrap s')) = pc_table (sp_proc (sy_wrap s)) \/
     exists routes t, SwapTable routes t ∈ sy_pending s /\ pc_table (sp_proc (sy_wrap s')) = t /\ es = [] /\
       pc_fleet (sp_proc (sy_wrap s')) = pc_fleet (sp_proc (sy_wrap s))).
Proof.
  assert (forall e : FailoverRoute * bool, e ∈ [] -> e.1 ∈ failover_routes (pc_table (sp_proc (sy_wrap s)))) as Hnil
    by (intros e He; by apply not_elem_of_nil in He).
  destruct 1 as [s kn acc nf Hi|s t Hi|s su hot Hi|s su c cs Hp|s describe su id r Hi|s mode mx ctx peer local Hin|s p' Hs|s k a e Hk Hw|s k].
  - exists []. rewrite app_nil_r. unfold after_start. destruct (start_keeps_settings kn acc nf (sy_wrap s)) as (_ & _ & Hp).
    destruct (start kn acc nf (sy_wrap s)) as [[r nf'] w]. simpl in *. split_and!; [done | done | left; by rewrite Hp].
  - exists []. rewrite app_nil_r. split_and!; [done | done | by left].
  - exists []. rewrite app_nil_r. split_and!; [done | done | left]. simpl. apply (prepare_undisturbed su (sy_wrap s) hot).
  - exists []. rewrite app_nil_r. split_and!; [done | done |]. simpl. destruct (commit_fleet su (sy_wrap s) c) as [Hf ->].
    destruct c as [routes t|u|u]; [|by left ..]. right. exists routes, t. split_and!; try done. rewrite Hp. constructor.
  - exists []. rewrite app_nil_r. split_and!; [done | done | left]. apply (resolve_keeps same_reported).
  - exists []. rewrite app_nil_r. split_and!; [done | done | left]. apply (accept_keeps same_reported).
  - exists []. rewrite app_nil_r. split_and!; [done | done | left]. exact (proj1 (task_step_keeps same_reported _ _ _ Hs)).
  - exists (ef_events e). destruct (works_unreported _ _ _ _ _ _ _ Hw) as [[Hev [Ht _]]|[queued ->]].
    + rewrite Hev. split_and!; [simpl; by rewrite Hev | done | by left].
    + unfold report_pass. pose proof (fun e => report_all_listed (pc_shared (sp_proc (sy_wrap s))) queued (pc_fleet (sp_proc (sy_wrap s)))
        (failover_routes (pc_table (sp_proc (sy_wrap s)))) e) as Hl. simpl. unfold report_pass. destruct (report_all _ _ _ _) as [fl es]. simpl in *.
      split_and!; [done | exact Hl | by left].
  - exists []. rewrite app_nil_r. split_and!; [done | done | by left].
Qed.

(** [since name group s es]: in the reachable state [s], [name] has a failover route
    of [group] and has had one ever since it got its first, or since the process
    was made; [es] are the events of that time. *)
Inductive since (f64_exp : f64 -> f64) (m : machine) (cfg : JsProxyConfig) (linux : bool) (name group : bytes)
    : system -> list (FailoverRoute * bool) -> Prop :=
  | SinceMade w r :
      SymphonyProxyWrap_new m cfg = Ok w -> route_of (deploy w cfg) name = Some r -> fr_group r = group ->
      since f64_exp m cfg linux name group (deploy w cfg) []
  | SinceStored s s' r :
      deployed f64_exp m cfg linux s -> sys_step f64_exp any_reply linux s s' -> small (pool_of s') ->
      route_of s name = None -> route_of s' name = Some r -> fr_group r = group ->
      since f64_exp m cfg linux name group s' []
  | SinceStep s s' es es' r :
      since f64_exp m cfg linux name group s es -> sys_step f64_exp any_reply linux s s' -> small (pool_of s') ->
      route_of s' name = Some r -> fr_group r = group -> sy_health s' = sy_health s ++ es' ->
      since f64_exp m cfg linux name group s' (es ++ es').

Lemma since_deployed f64_exp m cfg linux name group s es :
  since f64_exp m cfg linux name group s es -> deployed f64_exp m cfg linux s.
Proof. induction 1; [by constructor | by eapply DeployStep | by eapply DeployStep]. Qed.

Lemma since_heard f64_exp m cfg linux name group s es :
  since f64_exp m cfg linux name group s es ->
  exists r, route_of s name = Some r /\ fr_group r = group /\
    foldl hear (Some false) (ups_named name es) = Some (reported s r).
Proof.
  induction 1 as [w r Hw Hr Hg|s s' r Hd Hst Hsm Hno Hr Hg|s s' es es' r Hs (r0 & Hr0 & Hg0 & Hh) Hst Hsm Hr Hg He].
  - exists r. split_and!; [done | done |].
    pose proof (ho_heard _ _ _ (deployed_heard f64_exp m cfg linux _ (DeployNew _ _ _ _ _ Hw)) (status_cell r)) as Hh. exact Hh.
  - exists r. split_and!; [done | done |]. pose proof (deployed_heard _ _ _ _ _ Hd) as Hok. unfold route_of in *.
    destruct (sys_step_events _ _ _ _ _ Hst) as (es & _ & _ & [Ht|(routes & t & Hin & Ht & _ & Hf)]); rewrite Ht in Hr; [congruence |].
    destruct (ho_pending _ _ _ Hok _ _ Hin) as [_ [_ Hnew]]. destruct (Hnew _ _ Hr Hno) as [Hrep _]. simpl. unfold reported.
    by rewrite Hf, Hrep.
  - exists r. split_and!; [done | done |]. pose proof (since_deployed _ _ _ _ _ _ _ _ Hs) as Hd.
    pose proof (deployed_heard _ _ _ _ _ Hd) as Hok. pose proof (deployed_heard _ _ _ _ _ (DeployStep _ _ _ _ _ _ Hd Hst Hsm)) as Hok'.
    destruct (sys_step_events _ _ _ _ _ Hst) as (es1 & He1 & Hl & Htab). rewrite He in He1. apply app_inv_head in He1 as <-.
    assert (status_cell r = status_cell r0) as Hcell.
    { unfold route_of in *. destruct Htab as [Ht|(routes & t & Hin & Ht & _)]; rewrite Ht in Hr; [congruence |].
      destruct (ho_pending _ _ _ Hok _ _ Hin) as [_ [Hsame _]]. eapply Hsame; [done | done | congruence]. }
    pose proof (ho_heard _ _ _ Hok (status_cell r0)) as H1'. pose proof (ho_heard _ _ _ Hok' (status_cell r0)) as H2'.
    rewrite He, ups_app, foldl_app, H1' in H2'.
    rewrite ups_named_app, foldl_app, Hh, (ups_of_name _ _ _ _ es' (ho_cells _ _ _ Hok) Hr0 Hl). unfold reported at 2. rewrite Hcell. exact H2'.
Qed.

(** A schedule in which a name keeps its failover and its group. *)
Definition has_route (s : system) (name group : bytes) : bool :=
  match route_of s name with Some r => bytes_eqb (fr_group r) group | None => false end.
Fixpoint kept_schedule (f64_exp : f64 -> f64) (i : http_io) (peer : SocketAddr) (name group : bytes) (s : system) (ms : list sys_move)
    : option system :=
  match ms with
  | [] => Some s
  | m :: ms =>
      s' ← sys_make f64_exp i peer s m;
      if (guards_held (fun _ _ => true) (sy_tasks s') <=? u32_max) && has_route s' name group
      then kept_schedule f64_exp i peer name group s' ms else None
  end.

Lemma kept_since f64_exp m cfg i peer name group s ms s' :
  since f64_exp m cfg true name group s (sy_health s) -> kept_schedule f64_exp i peer name group s ms = Some s' ->
  since f64_exp m cfg true name group s' (sy_health s').
Proof.
  revert s. induction ms as [|mv ms IH]; intros s Hs; simpl; [by intros [= <-] |].
  destruct (sys_make f64_exp i peer s mv) as [s1|] eqn:Em; [|done]. simpl. destruct (_ && _) eqn:Hc; [|done].
  apply andb_true_iff in Hc as [Hg Hr]. unfold has_route in Hr. destruct (route_of s1 name) as [r|] eqn:Er; [|done].
  apply IH. pose proof (sys_make_step f64_exp any_reply i peer s mv s1 Em) as Hst.
  destruct (sys_step_events _ _ _ _ _ Hst) as (es & He & _). rewrite He.
  eapply SinceStep; [exact Hs | exact Hst | by apply Z.leb_le | exact Er | by apply bytes_eqb_eq | exact He].
Qed.
End SystemHealth.

(** The events that name a route alternate, the first says down, and they come to
    [down]. *)
Definition heard_as (events : list (FailoverRoute * bool)) (name : bytes) (down : bool) : Prop :=
  foldl hear (Some false) (ups_named name events) = Some down.

Module Properties.


#[local] Existing Instance Net.cidr_lib.
#[local] Existing Instance Protection.ascii_lowercase.
#[local] Existing Instance Tls.Properties.raw_tls.
#[local] Existing Instance Tls.Properties.tagged_digests.

(** A failover route whose upstream refuses a connection, and the report after
    it. *)
Definition failover_config : JsProxyConfig :=
  mkJsProxy [ProxyLife.Properties.tls_listener 443 None]
    [mkJsRoute (bs "a.example.com") None
       [mkJsUpstream (bs "tcp") (Some (bs "127.0.0.1")) (Some 80) None None None None None None] false None None None None
       None None None None None None None (Some (mkJsFailover [(bs "10.0.0.9", 443)] None None None None))]
    None None None None None None.
Definition refusing_io : http_io :=
  let j := ConnectionRuns.Properties.sample_io in
  mkHttpIo false (fun n => n) false [] true
    (mkIo (io_now j) (io_now' j) (io_header j) (io_peek j) (io_queued j) (io_acquired j) (io_hash j) (io_rotation j)
       (io_peers j) (io_read j) (io_load j) (io_seen j) (mkWorld (fun _ _ => Some ConnectionRefused) (fun _ => false) (fun _ => 7))
       (io_closed j) (io_accepted j) (io_copy j)).
(** The upstream refuses a connection and the route goes down; then the routes are
    loaded again and the probe reports once more. *)
Definition went_down : option system :=
  match SymphonyProxyWrap_new ProxyLife.Properties.sample_machine failover_config with
  | Ok w => kept_schedule (fun x => x) refusing_io ConnectionRuns.Properties.sample_peer (bs "a.example.com") []
      (deploy w failover_config)
      ([DoStart; DoAccept 0] ++ replicate 8 (DoAsk 0) ++ [DoReport 3;
        DoUpdate Router.Properties.quiet (mkJsHot (Some (jx_routes failover_config)) None None);
        DoCommit Router.Properties.quiet; DoReport 3])
  | Err _ => None
  end.

Lemma went_down_made (P : system -> bool) :
  match went_down with Some s => P s | None => false end = true -> exists s, went_down = Some s /\ P s = true.
Proof. destruct went_down as [s|]; [by exists s | discriminate]. Qed.

Lemma went_down_since s :
  went_down = Some s ->
  since (fun x => x) ProxyLife.Properties.sample_machine failover_config true (bs "a.example.com") [] s (sy_health s).
Proof.
  unfold went_down. destruct (SymphonyProxyWrap_new _ _) as [w|] eqn:Hw; [|discriminate]. apply kept_since.
  assert (match SymphonyProxyWrap_new ProxyLife.Properties.sample_machine failover_config with
    | Ok w => match route_of (deploy w failover_config) (bs "a.example.com") with Some r => bytes_eqb (fr_group r) [] | None => false end
    | Err _ => false end = true) as Hr by (vm_compute; reflexivity).
  rewrite Hw in Hr. destruct (route_of (deploy w failover_config) (bs "a.example.com")) as [r|] eqn:Er; [|done].
  eapply SinceMade; [exact Hw | exact Er | by apply bytes_eqb_eq].
Qed.

End Properties.
