(* ===== verification/SystemLoad.v ===== *)
(** * What peers are told of this host's load (src/src/thread_cpu.rs,
    src/src/router.rs, src/src/proxy_conn.rs and src/src/ingress.rs)

    The reading a load query is answered with starts as ticks of a worker thread:
    a sampling pass publishes a balancer's smoothed load with the time it holds
    until, [load_answer] reads it for a route that is served here, and the answer
    crosses the wire as text. [peers_hear_the_sampled_load] follows it through the
    whole process. *)

From S2P Require Import Prelude Bytes Float64 Net IpText TokenBucket Sni Tls Protection ProxyProtocol Balancer BalancerState Metrics Failover Router HttpHead HttpPump Background Forwarding Task Suspended Liveness Sockets Connection ConnectionRuns HttpListener Pool Config Proxy ProxyLife ThreadCpu System.

Open Scope Z_scope.

(** A smoothed load as it is published. *)
Definition permille_of (x : f64) : Z := Z.min (f64_as_u64 (f64_round x)) 1000.

Lemma permille_of_bounds x : 0 <= permille_of x <= 1000.
Proof. pose proof (f64_as_u64_bounds (f64_round x)) as Hb. unfold is_u64 in Hb. unfold permille_of. lia. Qed.

(** What a load cell publishes: the smoothed load, for a second from the pass that
    measured it, unless a later pass found nothing to measure. *)
Definition ewma_ok (e : LoadEwma) : Prop :=
  forall t permille until_ms, 0 <= t ->
    load_get e t = Some (permille, until_ms) <->
    exists x, ew_value e = Some (x, ew_last_pass_ns e) /\ permille = permille_of x /\
      until_ms = (ew_last_pass_ns e + SAMPLE_VALID_NS) / 1000000 /\ t / 1000000 < until_ms.

(** The last value is not younger than the last pass. *)
Definition ewma_past (e : LoadEwma) : Prop := forall x at_ns, ew_value e = Some (x, at_ns) -> at_ns <= ew_last_pass_ns e.

Definition loads_ok (sa : sampler) : Prop := forall c e, sa_loads sa !! c = Some e -> ewma_ok e /\ ewma_past e.

Lemma unpublished e t : published e = 0 -> 0 <= t -> load_get e t = None.
Proof.
  intros Hp Ht. unfold load_get. rewrite Hp. change (Z.shiftr 0 10) with 0. cbv zeta.
  pose proof (Z.div_pos t 1000000). destruct (Z.ltb_spec (t / 1000000) 0); [lia | done].
Qed.

Lemma ewma_default_ok : ewma_ok LoadEwma_default /\ ewma_past LoadEwma_default.
Proof.
  split; [|done]. intros t pm u Ht. rewrite unpublished by done. split; [done |]. by intros (x & ? & _).
Qed.

Section SystemLoad.
Context `{TlsLib} `{Digests} `{NetLib} `{Lowercase} (f64_exp : f64 -> f64).

Lemma ewma_update_ok e mean now :
  clock_ok now -> ewma_ok e /\ ewma_past e -> ewma_ok (load_update f64_exp e mean now) /\ ewma_past (load_update f64_exp e mean now).
Proof.
  intros Hn [He Hpast]. unfold load_update. destruct (Z.leb_spec now (ew_last_pass_ns e)) as [Hle|Hlt]; [done |].
  destruct mean as [mean|].
  - rewrite until_small by done. set (v := smoothed _ _ _ _). set (u := (now + SAMPLE_VALID_NS) / 1000000).
    fold (permille_of v). pose proof (permille_of_bounds v) as Hpm. split; [|by intros ? ? [= _ <-]].
    assert (0 <= u < 2 ^ 54) as Hu.
    { unfold clock_ok in Hn. unfold u, SAMPLE_VALID_NS. split; [apply Z.div_pos | apply Z.div_lt_upper_bound]; lia. }
    intros t pm until_ms Ht. unfold load_get. simpl. fold u. rewrite Z.mod_small by (rewrite Z.shiftl_mul_pow2 by lia; unfold u64_max; lia).
    rewrite shiftr_until, land_low by lia. destruct (Z.ltb_spec (t / 1000000) u) as [Hlt'|Hge].
    + split; [intros [= <- <-]; by exists v | by intros (x & [= <-] & -> & -> & _)].
    + split; [done |]. intros (x & _ & _ & -> & ?). lia.
  - split; [|intros x at_ns Hx; specialize (Hpast _ _ Hx); simpl; lia]. intros t pm until_ms Ht.
    rewrite unpublished by done. split; [done |]. intros (x & Hx & _). simpl in Hx. specialize (Hpast _ _ Hx). lia.
Qed.

Lemma sample_balancer_loads hz now p inodes sa b :
  clock_ok now -> loads_ok sa -> loads_ok (sample_balancer f64_exp hz now p inodes sa b).
Proof.
  intros Hn Hs c e. unfold sample_balancer. destruct (foldl _ _ _) as [[ts sum] count]. simpl.
  intros [[<- <-]|[_ Hc]]%lookup_insert_Some; [|by apply (Hs c)]. apply ewma_update_ok; [done |].
  destruct (sa_loads sa !! bc_load b) as [e'|] eqn:E; simpl; [by apply (Hs (bc_load b)) | apply ewma_default_ok].
Qed.

Lemma sample_table_loads hz now p inodes sa bs :
  clock_ok now -> loads_ok sa -> loads_ok (sample_table f64_exp hz now p inodes sa bs).
Proof.
  intros Hn. unfold sample_table. revert sa. induction bs as [|b bs IH]; intros sa Hs; [exact Hs |]. simpl.
  by apply IH, sample_balancer_loads.
Qed.

Lemma works_loads obtained linux a w sa e : works f64_exp obtained linux a w sa e -> loads_ok sa -> loads_ok (ef_sampler e).
Proof.
  destruct 1; intros Hs; try exact Hs.
  all: try (by apply sample_table_loads).
  all: unfold start_probes, report_pass, poll_once, start_pass; cbv zeta; repeat case_match; exact Hs.
Qed.

Lemma deployed_loads m cfg linux s : deployed f64_exp m cfg linux s -> loads_ok (sy_sampler s).
Proof.
  induction 1 as [w Hw|s s' _ IH Hst _]; [intros c e Hc; simpl in Hc; by rewrite lookup_empty in Hc |].
  destruct Hst as [s kn acc nf Hi|s t Hi|s su hot Hi|s su c cs Hp|s describe su id r Hi|s mode mx ctx peer local Hin|s p' Hs|s k a e Hk Hw|s k];
    try exact IH.
  - unfold after_start. by destruct (start _ _ _ _) as [[]].
  - by eapply works_loads.
Qed.

Lemma load_now_ok sa c t permille until_ms :
  loads_ok sa -> 0 <= t ->
  load_now sa c t = Some (permille, until_ms) <->
  exists e x, sa_loads sa !! c = Some e /\ ew_value e = Some (x, ew_last_pass_ns e) /\ permille = permille_of x /\
    until_ms = (ew_last_pass_ns e + SAMPLE_VALID_NS) / 1000000 /\ t / 1000000 < until_ms.
Proof.
  intros Hs Ht. unfold load_now. destruct (sa_loads sa !! c) as [e|] eqn:E; simpl.
  - destruct (Hs c e E) as [He _]. rewrite (He t permille until_ms Ht). split; [intros (x & ?); by exists e, x |].
    intros (e' & x & [= <-] & ?). by exists x.
  - rewrite unpublished by done. split; [done |]. by intros (e & x & ? & _).
Qed.

(** ** An answer *)

(** A destination of which a pass published the load [u], less than a second ago:
    the smoothed load of its balancer, as the last pass left it. *)
Definition measured (sa : sampler) (now : Z) (d : Destination) (u : Z) : Prop :=
  exists b e x, d = UdsSet b /\ sa_loads sa !! load b = Some e /\ ew_value e = Some (x, ew_last_pass_ns e) /\
    u = permille_of x /\ now / 1000000 < (ew_last_pass_ns e + SAMPLE_VALID_NS) / 1000000.

Lemma destination_measured sa now d u :
  loads_ok sa -> 0 <= now -> (exists until_ms, destination_load (load_now sa) now d = Some (u, until_ms)) <-> measured sa now d u.
Proof.
  intros Hs Hn. unfold measured. destruct d as [addr|b]; simpl.
  - split; [by intros [? ?] | by intros (b & e & x & ? & _)].
  - split.
    + intros [until_ms Hl]. apply (load_now_ok sa (load b) now u until_ms Hs Hn) in Hl as (e & x & ? & ? & ? & -> & ?).
      by exists b, e, x.
    + intros (b' & e & x & [= <-] & ? & ? & -> & ?). eexists. apply (load_now_ok _ _ _ _ _ Hs Hn). eauto 10.
Qed.

(** Of a route: of both its destinations, when it has two, and the higher counts. *)
Definition route_measures (sa : sampler) (now : Z) (d : Destination) (h2 : option Destination) (v : Z) : Prop :=
  exists u, measured sa now d u /\
    match h2 with None => v = u | Some d2 => exists u2, measured sa now d2 u2 /\ v = Z.max u u2 end.

Lemma route_measured sa now d h2 v :
  loads_ok sa -> 0 <= now -> (exists until_ms, route_load (load_now sa) d h2 now = Some (v, until_ms)) <-> route_measures sa now d h2 v.
Proof.
  intros Hs Hn. unfold route_load, route_measures. destruct h2 as [d2|]; setoid_rewrite <- (destination_measured _ _ _ _ Hs Hn);
    (destruct (destination_load (load_now sa) now d) as [[pm u]|]; simpl;
      [|split; [by intros [? ?] | by intros (? & [? ?] & _)]]).
  - destruct (destination_load (load_now sa) now d2) as [[pm2 u2]|]; simpl;
      [|split; [by intros [? ?] | by intros (? & _ & ? & [? ?] & _)]]. split.
    + intros [until_ms Hl]. injection Hl as <- _. exists pm. split; [by exists u |]. exists pm2. split; [by exists u2 | done].
    + intros (u' & [ms Hl] & u2' & [ms2 Hl2] & ->). injection Hl as <- <-. injection Hl2 as <- <-. eauto.
  - split.
    + intros [until_ms Hl]. injection Hl as <- _. exists pm. split; [by exists u | done].
    + intros (u' & [until_ms Hl] & ->). eauto.
Qed.

Lemma measured_bounds sa now d u : measured sa now d u -> 0 <= u <= 1000.
Proof. intros (b & e & x & _ & _ & _ & -> & _). apply permille_of_bounds. Qed.
Lemma route_measures_bounds sa now d h2 v : route_measures sa now d h2 v -> 0 <= v <= 1000.
Proof.
  intros (u & Hu%measured_bounds & Hv). destruct h2; [|by subst]. destruct Hv as (u2 & Hu2%measured_bounds & ->). lia.
Qed.

(** What a route must be for its name to have the load [v]. *)
Definition tells (sa : sampler) (p : proc) (now : Z) (n : bytes) (v : Z) : Prop :=
  exists r, exact (pc_table p) !! n = Some r /\ rt_suspended r = false /\
    (forall f, rt_failover r = Some f ->
       fo_drain f = false /\ locally_down (pc_shared p) f (rt_destination r) (rt_destination_h2 r) = false) /\
    route_measures sa now (rt_destination r) (rt_destination_h2 r) v.

Lemma answer_tells sa p now n v :
  loads_ok sa -> 0 <= now -> load_answer (pc_shared p) (load_now sa) (pc_table p) n now = Some v <-> tells sa p now n v.
Proof.
  intros Hs Hn. unfold load_answer, tells. setoid_rewrite <- (route_measured _ _ _ _ _ Hs Hn).
  destruct (exact (pc_table p) !! n) as [r|]; simpl; [|split; [done | by intros (r & ? & _)]].
  destruct (rt_suspended r) eqn:Hsus; [split; [done | intros (r' & [= <-] & ? & _); congruence] |].
  destruct (match rt_failover r with Some f => _ | None => false end) eqn:Hf.
  - split; [done |]. intros (r' & [= <-] & _ & Hno & _). destruct (rt_failover r) as [f|]; [|done].
    destruct (Hno f eq_refl) as [Hd Hl]. by rewrite Hd, Hl in Hf.
  - assert (forall f, rt_failover r = Some f ->
      fo_drain f = false /\ locally_down (pc_shared p) f (rt_destination r) (rt_destination_h2 r) = false) as Hup
      by (intros f Hff; rewrite Hff in Hf; by apply orb_false_iff in Hf).
    split.
    + destruct (route_load _ _ _ _) as [[pm u]|] eqn:El; [|done]. simpl. intros [= <-]. exists r. split_and!; eauto.
    + intros (r' & [= <-] & _ & _ & [u ->]). done.
Qed.

Lemma tells_bounds sa p now n v : tells sa p now n v -> 0 <= v <= 1000.
Proof. intros (r & _ & _ & _ & Hm). by eapply route_measures_bounds. Qed.

Lemma capped_same loads :
  Forall (fun l => match l with Some v => 0 <= v <= 1000 | None => True end) loads ->
  Forall load_ok loads /\ capped_load <$> loads = loads.
Proof.
  induction 1 as [|l loads Hl _ [IH1 IH2]]; [done |]. split; [constructor; [destruct l; simpl in *; lia || done | done] |].
  rewrite fmap_cons, IH2. f_equal. destruct l as [v|]; [|done]. simpl in *. by rewrite Z.min_l by lia.
Qed.
End SystemLoad.

Module Properties.

(** C23: A peer hears what was measured. The answer to a load query, in any state
    the process reaches, has one line per name asked, and the peer reads back from
    it exactly the values the answer was made of. A name has the value [v], between
    0 and 1000, exactly when it is served here under that very name by a route that
    is not suspended, not draining and not down, and the last sampling pass over
    each balancer the route sends to was less than a second before and found
    something to measure; [v] is then the smoothed load that pass left for it,
    rounded to a permille, or the higher of the two for a route with a second
    balancer for HTTP/2. In every other case the peer hears that there is none. *)
Theorem peers_hear_the_sampled_load `{TlsLib} `{Digests} `{NetLib} `{Lowercase} f64_exp m cfg linux s ctx i names :
  deployed f64_exp m cfg linux s -> io_load (hi_io i) = load_now (sy_sampler s) -> 0 <= io_now (hi_io i) ->
  let p := sp_proc (sy_wrap s) in
  let answers := (perform ctx (hi_io i) p _ (LoadAnswers names)).1 in
  parse_load_answer (encode_load_answer answers) (length names) = Some answers /\
  (forall k name v, names !! k = Some name ->
     answers !! k = Some (Some v) <-> exists n, name = Some n /\ tells (sy_sampler s) p (io_now (hi_io i)) n v) /\
  (forall n v, tells (sy_sampler s) p (io_now (hi_io i)) n v -> 0 <= v <= 1000).
Proof.
  intros Hd Hi Ht p answers. pose proof (deployed_loads _ _ _ _ _ Hd) as Hs.
  assert (answers = (fun name => n ← name; load_answer (pc_shared p) (load_now (sy_sampler s)) (pc_table p) n (io_now (hi_io i))) <$> names)
    as Ha by (unfold answers; simpl; by rewrite Hi). clearbody answers. subst answers. split_and!.
  - match goal with |- parse_load_answer (encode_load_answer ?l) _ = _ => destruct (capped_same l) as [Hok Hcap] end.
    + apply Forall_fmap, Forall_forall. intros [n|] _; simpl; [|done].
      destruct (load_answer _ _ _ _ _) as [v|] eqn:E; [|done]. by eapply tells_bounds, answer_tells.
    + rewrite <- Hcap at 2. erewrite <- (length_fmap _ names). by apply ProxyProtocol.Properties.load_answer_roundtrip.
  - intros k name v Hk. rewrite list_lookup_fmap, Hk. simpl. destruct name as [n|]; simpl.
    + pose proof (answer_tells _ p _ n v Hs Ht) as Htell. split; [intros [= Ha]; exists n; by rewrite <- Htell |].
      intros (n' & [= <-] & Hv). f_equal. by apply Htell.
    + split; [done | by intros (n & ? & _)].
  - intros n v. apply tells_bounds.
Qed.

#[local] Existing Instance Net.cidr_lib.
#[local] Existing Instance Protection.ascii_lowercase.
#[local] Existing Instance Tls.Properties.raw_tls.
#[local] Existing Instance Tls.Properties.tagged_digests.

(** A route to one worker socket, whose thread a connect has found and two passes
    have sampled. *)
Definition worker_config : JsProxyConfig :=
  mkJsProxy [ProxyLife.Properties.tls_listener 443 None]
    [mkJsRoute (bs "a.example.com") None
       [mkJsUpstream (bs "uds") None None (Some (bs "/w.sock")) None None (Some 12) (Some 15) None] false None None None None
       None None None None None None None None]
    None None None None None None.
Definition sampled : option system :=
  match SymphonyProxyWrap_new ProxyLife.Properties.sample_machine worker_config with
  | Ok w => sys_schedule (fun x => x) HttpListener.Properties.challenge_io ConnectionRuns.Properties.sample_peer (deploy w worker_config)
      [DoStart; DoPass 1 100; DoFound 1 0 (Some 4711) (Some 8);
       DoSampled 1 100 1000 ThreadCpu.Properties.container_proc (Some 8); DoPass 1 250000000;
       DoSampled 1 100 250001000 ThreadCpu.Properties.container_proc (Some 8)]
  | Err _ => None
  end.

Lemma sampled_made (P : system -> bool) :
  match sampled with Some s => P s | None => false end = true -> exists s, sampled = Some s /\ P s = true.
Proof. destruct sampled as [s|]; [by exists s | discriminate]. Qed.

(** A query that arrives half a second after the last pass. *)
Definition query_io (s : system) : http_io :=
  let j := ConnectionRuns.Properties.sample_io in
  tied_io (sy_sampler s) (mkHttpIo false (fun n => n) false [] true
    (mkIo 700000000 700000000 (io_header j) (io_peek j) (io_queued j) (io_acquired j) (io_hash j) (io_rotation j)
       (io_peers j) (io_read j) (io_load j) (io_seen j) (io_connects j) (io_closed j) (io_accepted j) (io_copy j))).
Definition queried (s : system) : list (option Z) :=
  (perform (ConnectionRuns.Properties.sample_ctx false) (hi_io (query_io s)) (sp_proc (sy_wrap s)) _
     (LoadAnswers [Some (bs "a.example.com"); None])).1.

Lemma peers_hear_the_sampled_load_witness :
  exists s, sampled = Some s /\ queried s = [Some 0; None] /\
    parse_load_answer (encode_load_answer (queried s)) 2 = Some (queried s) /\
    exists n, Some (bs "a.example.com") = Some n /\ tells (sy_sampler s) (sp_proc (sy_wrap s)) 700000000 n 0.
Proof.
  destruct (sampled_made (fun s => bool_decide (queried s = [Some 0; None]))) as (s & E & Hp); [vm_compute; reflexivity |].
  pose proof (bool_decide_eq_true_1 _ Hp) as Hq. exists s. split; [exact E |]. split; [exact Hq |].
  assert (deployed (fun x => x) ProxyLife.Properties.sample_machine worker_config true s) as Hd.
  { revert E. unfold sampled. destruct (SymphonyProxyWrap_new _ _) as [w|] eqn:Hw; [|discriminate]. intros E.
    eapply sys_schedule_deployed; [apply DeployNew; exact Hw | exact E]. }
  destruct (peers_hear_the_sampled_load (fun x => x) ProxyLife.Properties.sample_machine worker_config true s
    (ConnectionRuns.Properties.sample_ctx false) (query_io s) [Some (bs "a.example.com"); None] Hd eq_refl) as (Hr & Hv & _).
  - discriminate.
  - split; [exact Hr |]. apply (Hv 0%nat (Some (bs "a.example.com")) 0 eq_refl). fold (queried s). rewrite Hq. reflexivity.
Defined.
End Properties.
