(* ===== verification/SystemReports.v ===== *)
(** * What a host holds of its peers' loads, in the whole process
    (src/src/failover.rs and src/src/router.rs)

    A route's failover keeps, for each of its peers, the load the peer last
    reported for that route, and in its spill state the peer connections may be
    spilled to. A reload hands both on to the route of the same name. Here every
    such cell has one owner, the name of the route it was made for, and through
    any history of the process ([System.sys_step]) it holds only what a query for
    that name brought: [says] is what the peers answered and [here] what this host
    measured itself, both as the surroundings of the process see them (see
    Cluster). *)

From S2P Require Import Prelude Bytes Float64 Net IpText TokenBucket Sni Tls Protection ProxyProtocol Balancer BalancerState Metrics Failover Router HttpHead HttpPump Background Forwarding Task Suspended Liveness Sockets Connection ConnectionRuns HttpListener Pool Config Proxy ProxyLife ThreadCpu System SystemHealth SystemLoad.

Open Scope Z_scope.

(** ** Owners *)

(** The route a peer cell was made for; for a spill cell also the thresholds and
    the peers it is about. *)
Record owners : Type := mkOwners {
  ow_peer : gmap nat bytes;
  ow_spill : gmap nat (bytes * (Z * Z) * list SocketAddr);
}.

Definition peer_addr (fl : fleet) (c : nat) : SocketAddr := fp_addr (peer_at fl c).

Definition failover_owned (ow : owners) (fl : fleet) (n : bytes) (f : Failover) : Prop :=
  Forall (fun c => ow_peer ow !! c = Some n) (fo_peers f) /\
  forall policy cell, fo_spill f = Some (policy, cell) ->
    ow_spill ow !! cell = Some (n, (high_water policy, margin policy), peer_addr fl <$> fo_peers f).

(** More cells, whose peers are where they were. *)
Record extends (ow : owners) (fl : fleet) (ow' : owners) (fl' : fleet) : Prop := {
  ex_peer : ow_peer ow ⊆ ow_peer ow';
  ex_spill : ow_spill ow ⊆ ow_spill ow';
  ex_addr : forall c n, ow_peer ow !! c = Some n -> peer_addr fl' c = peer_addr fl c;
}.

Lemma extends_refl ow fl : extends ow fl ow fl.
Proof. done. Qed.

Lemma extends_trans ow1 fl1 ow2 fl2 ow3 fl3 :
  extends ow1 fl1 ow2 fl2 -> extends ow2 fl2 ow3 fl3 -> extends ow1 fl1 ow3 fl3.
Proof.
  intros [Hp Hs Ha] [Hp' Hs' Ha']. split; [by etrans .. |].
  intros c n Hc. rewrite (Ha' c n (lookup_weaken _ _ _ _ Hc Hp)). by apply (Ha c n).
Qed.

Lemma owned_extends ow fl ow' fl' n f :
  extends ow fl ow' fl' -> failover_owned ow fl n f -> failover_owned ow' fl' n f.
Proof.
  intros [Hp Hs Ha] [Hf Hc]. split.
  - eapply Forall_impl; [|exact Hf]. intros c Hn. exact (lookup_weaken _ _ _ _ Hn Hp).
  - intros policy cell Hsp. assert (peer_addr fl' <$> fo_peers f = peer_addr fl <$> fo_peers f) as ->.
    { apply list_fmap_ext. intros i c Hi. apply (Ha c n). by apply (Forall_lookup_1 _ _ _ _ Hf Hi). }
    by eapply lookup_weaken; [apply Hc |].
Qed.

Section SystemReports.
Context `{TlsLib} `{Digests} `{NetLib} `{Lowercase}.
Context (says : SocketAddr -> bytes -> Z -> Prop) (here : bytes -> Z -> Prop).

(** Why a spill word may admit connections: a peer's report for the route was at
    least half the margin below this host's own load, and that was within half the
    margin of the high water mark. *)
Definition justified (n : bytes) (hw mg : Z) (addrs : list SocketAddr) (word : Z) : Prop :=
  forall a, Admission_unpack word = Some a -> Z.of_nat (length addrs) <= 65536 -> Failover.permille hw -> Failover.permille mg ->
  exists addr l v, addrs !! adm_target a = Some addr /\ here n l /\ says addr n v /\
    2 * v + mg <= 2 * l /\ 2 * hw <= 2 * l + mg.

Record fleet_told (ow : owners) (fl : fleet) : Prop := {
  ft_peers : forall c n, ow_peer ow !! c = Some n -> (c < next_fleet fl)%nat /\
    forall v at_ms, peer_report (peer_at fl c) = Some (v, at_ms) -> says (peer_addr fl c) n v;
  ft_spills : forall c n hw mg addrs, ow_spill ow !! c = Some (n, (hw, mg), addrs) -> (c < next_fleet fl)%nat /\
    justified n hw mg addrs (sp_admission (spill_at fl c));
}.

(** ** A new failover's cells *)

Lemma peer_at_below fl fl' c :
  fleet_grows fl fl' -> (c < next_fleet fl)%nat -> peer_at fl' c = peer_at fl c.
Proof. intros (_ & Hp & _) Hc. unfold peer_at. by rewrite Hp. Qed.

Lemma adopt_told ow fl previous n addrs :
  fleet_told ow fl -> Forall (fun c => ow_peer ow !! c = Some n) previous ->
  let '(peers, fl') := adopt_peers fl previous addrs in
  exists ow', extends ow fl ow' fl' /\ fleet_told ow' fl' /\ ow_spill ow' = ow_spill ow /\
    Forall (fun c => ow_peer ow' !! c = Some n) peers /\ peer_addr fl' <$> peers = addrs.
Proof.
  revert ow fl. induction addrs as [|addr addrs IH]; intros ow fl Ht Hp; cbn [adopt_peers].
  { exists ow. split_and!; try done. }
  destruct (find_first _ previous) as [p|] eqn:Hfind.
  - specialize (IH ow fl Ht Hp). destruct (adopt_peers fl previous addrs) as [rest fl2].
    destruct IH as (ow' & He & Ht' & Hs & Hr & Ha). apply find_first_Some in Hfind as [Hin Haddr%bool_decide_eq_true_1].
    rewrite Forall_forall in Hp. pose proof (Hp p (proj1 (list_elem_of_In _ _) Hin)) as Hown. exists ow'. split_and!; try done.
    + constructor; [|done]. by eapply lookup_weaken; [|apply (ex_peer _ _ _ _ He)].
    + rewrite fmap_cons, Ha. f_equal. by rewrite (ex_addr _ _ _ _ He p n).
  - cbv zeta. set (i := next_fleet fl). set (fl1 := mkFleet _ _ _ _). set (ow1 := mkOwners (<[i := n]> (ow_peer ow)) (ow_spill ow)).
    assert (forall c m, ow_peer ow !! c = Some m -> c <> i) as Hfresh
      by (intros c m Hc; destruct (ft_peers _ _ Ht c m Hc); unfold i; lia).
    assert (forall c, c <> i -> peer_at fl1 c = peer_at fl c) as Hsame
      by (intros c Hc; unfold peer_at, fl1; simpl; by rewrite lookup_insert_ne).
    assert (peer_at fl1 i = FailoverPeer_new addr) as Hnew by (unfold peer_at, fl1; simpl; by rewrite lookup_insert_eq).
    assert (extends ow fl ow1 fl1) as He1.
    { split; [|done |]; simpl.
      - apply insert_subseteq. destruct (ow_peer ow !! i) as [m|] eqn:E; [|done]. by destruct (Hfresh i m E).
      - intros c m Hc. unfold peer_addr. by rewrite Hsame by (by eapply Hfresh). }
    assert (fleet_told ow1 fl1) as Ht1.
    { split; simpl.
      - intros c m [[<- <-]|[Hne Hc]]%lookup_insert_Some; [rewrite Hnew; split; [lia | done] |].
        destruct (ft_peers _ _ Ht c m Hc) as [Hlt Hr]. split; [lia |]. unfold peer_addr. rewrite Hsame by done. exact Hr.
      - intros c m hw mg as_ Hc. destruct (ft_spills _ _ Ht c m hw mg as_ Hc). split; [lia | done]. }
    assert (Forall (fun c => ow_peer ow1 !! c = Some n) previous) as Hp1
      by (eapply Forall_impl; [|exact Hp]; intros c Hc; by eapply lookup_weaken; [|apply (ex_peer _ _ _ _ He1)]).
    specialize (IH ow1 fl1 Ht1 Hp1). destruct (adopt_peers fl1 previous addrs) as [rest fl2].
    destruct IH as (ow' & He & Ht' & Hs & Hr & Ha).
    assert (ow_peer ow1 !! i = Some n) as Hi by (simpl; apply lookup_insert_eq). exists ow'. split_and!.
    + by eapply extends_trans.
    + done.
    + done.
    + constructor; [|done]. by eapply lookup_weaken; [|apply (ex_peer _ _ _ _ He)].
    + rewrite fmap_cons, Ha. f_equal. rewrite (ex_addr _ _ _ _ He i n Hi). unfold peer_addr. by rewrite Hnew.
Qed.

(** A cell more, of a kind that has no report and no admission. *)
Lemma told_alloc ow fl fl' :
  fleet_told ow fl -> (next_fleet fl <= next_fleet fl')%nat -> peer_cells fl' = peer_cells fl ->
  (forall c, (c < next_fleet fl)%nat -> spill_cells fl' !! c = spill_cells fl !! c) -> fleet_told ow fl'.
Proof.
  intros [Hp Hs] Hn Hpc Hsc. split.
  - intros c n Hc. destruct (Hp c n Hc) as [Hlt Hr]. unfold peer_addr, peer_at. rewrite Hpc. split; [lia | exact Hr].
  - intros c n hw mg addrs Hc. destruct (Hs c n hw mg addrs Hc) as [Hlt Hj]. unfold spill_at. rewrite Hsc by done.
    split; [lia | exact Hj].
Qed.

Lemma spill_told ow fl sp n addrs :
  fleet_told ow fl ->
  let i := next_fleet fl in
  let fl' := mkFleet (peer_cells fl) (<[i := SpillState_default]> (spill_cells fl)) (status_cells fl) (S i) in
  let ow' := mkOwners (ow_peer ow) (<[i := (n, sp, addrs)]> (ow_spill ow)) in
  extends ow fl ow' fl' /\ fleet_told ow' fl'.
Proof.
  intros Ht i fl' ow'. split.
  - split; simpl; try done. apply insert_subseteq. destruct (ow_spill ow !! i) as [[[m [hw mg]] as_]|] eqn:E; [|done].
    destruct (ft_spills _ _ Ht _ _ _ _ _ E). unfold i in *. lia.
  - assert (fleet_told ow fl') as [Hp Hs].
    { apply (told_alloc ow fl); [done | simpl; lia | done |]. intros c Hc. simpl. apply lookup_insert_ne. unfold i. lia. }
    split; [exact Hp |]. intros c m hw mg as_. simpl. intros [[<- [= -> -> ->]]|[_ Hc]]%lookup_insert_Some; [|by apply Hs].
    split; [unfold i; lia |]. unfold spill_at. simpl. rewrite lookup_insert_eq. intros a Ha. by vm_compute in Ha.
Qed.

Lemma continued_owner ow fl prev sp addrs same cell n :
  failover_owned ow fl n prev -> continue_spill fl prev sp addrs same = Some cell ->
  ow_spill ow !! cell = Some (n, (high_water sp, margin sp), addrs).
Proof.
  intros [_ Ho]. unfold continue_spill. destruct (fo_spill prev) as [[p c]|]; [|done]. destruct (_ && _) eqn:E; [|done].
  intros [= <-]. apply andb_true_iff in E as [E Ha%bool_decide_eq_true_1]. apply andb_true_iff in E as [_ E].
  unfold SpillPolicy_eqb in E. repeat (apply andb_true_iff in E as [E ?]). apply Z.eqb_eq in E.
  rewrite (Ho p c eq_refl). unfold peer_addr. rewrite Ha. bool_to_prop. congruence.
Qed.

(** A failover over peers and a spill cell that have their owners; its own status
    cell changes neither. *)
Lemma failover_told ow1 fl1 ow2 fl2 fl3 n addrs f :
  Forall (fun c => ow_peer ow1 !! c = Some n) (fo_peers f) -> peer_addr fl1 <$> fo_peers f = addrs ->
  extends ow1 fl1 ow2 fl2 -> fleet_told ow2 fl2 ->
  (forall sp cell, fo_spill f = Some (sp, cell) -> ow_spill ow2 !! cell = Some (n, (high_water sp, margin sp), addrs)) ->
  (next_fleet fl2 <= next_fleet fl3)%nat -> peer_cells fl3 = peer_cells fl2 -> spill_cells fl3 = spill_cells fl2 ->
  extends ow1 fl1 ow2 fl3 /\ fleet_told ow2 fl3 /\ failover_owned ow2 fl3 n f.
Proof.
  intros Hpe Haddr He2 Ht2 Hs2 Hn3 Hp3 Hs3.
  assert (extends ow2 fl2 ow2 fl3) as He3 by (split; [done | done |]; intros c m _; unfold peer_addr, peer_at; by rewrite Hp3).
  pose proof (extends_trans _ _ _ _ _ _ He2 He3) as He. split_and!; [done | |].
  - apply (told_alloc ow2 fl2); [done | done | done |]. by rewrite Hs3.
  - split.
    + eapply Forall_impl; [|exact Hpe]. intros c Hc. exact (lookup_weaken _ _ _ _ Hc (ex_peer _ _ _ _ He2)).
    + intros sp cell Hc. rewrite (Hs2 sp cell Hc). do 2 f_equal. rewrite <- Haddr. apply list_fmap_ext.
      intros i c Hi. symmetry. apply (ex_addr _ _ _ _ He c n). by apply (Forall_lookup_1 _ _ _ _ Hpe Hi).
Qed.

Lemma Failover_new_told ow fl policy previous h same n :
  fleet_told ow fl -> (forall p, previous = Some p -> failover_owned ow fl n p) ->
  let '(f, fl') := Failover_new fl policy previous h same in
  exists ow', extends ow fl ow' fl' /\ fleet_told ow' fl' /\ failover_owned ow' fl' n f.
Proof.
  intros Ht Hp. unfold Failover_new.
  pose proof (adopt_told ow fl (match previous with Some p => fo_peers p | None => [] end) n (pol_peers policy) Ht) as Ha.
  destruct (adopt_peers _ _ _) as [peers fl1]. destruct Ha as (ow1 & He1 & Ht1 & Hsp1 & Hpe & Haddr).
  { destruct previous as [p|]; [|constructor]. by destruct (Hp p eq_refl). }
  assert (forall ow2 fl2 spill, extends ow1 fl1 ow2 fl2 -> fleet_told ow2 fl2 ->
    (forall sp cell, spill = Some (sp, cell) -> ow_spill ow2 !! cell = Some (n, (high_water sp, margin sp), pol_peers policy)) ->
    let '(status, fl3) := match previous with
      | Some p => (fo_status p, fl2)
      | None => let i := next_fleet fl2 in (i, mkFleet (peer_cells fl2) (spill_cells fl2)
          (<[i := FailoverStatus_default]> (status_cells fl2)) (S i)) end in
    exists ow', extends ow fl ow' fl3 /\ fleet_told ow' fl3 /\
      failover_owned ow' fl3 n (mkFailover (pol_drain policy) (pol_probe_interval policy) (pol_cooldown_min policy)
        (pol_cooldown_max policy) peers 0 h status spill)) as Hfin.
  { intros ow2 fl2 spill He2 Ht2 Hs2.
    destruct previous as [p|]; cbv zeta; exists ow2;
      match goal with |- extends _ _ _ ?fl3 /\ _ /\ failover_owned _ _ _ ?f =>
        destruct (failover_told ow1 fl1 ow2 fl2 fl3 n (pol_peers policy) f Hpe Haddr He2 Ht2 Hs2) as (He & Ht3 & Ho);
          [simpl; lia | done | done | split_and!; [by eapply extends_trans | done | done]] end. }
  destruct (pol_spill policy) as [sp|].
  - destruct (prev ← previous; _) as [cell|] eqn:Hcont.
    + specialize (Hfin ow1 fl1 (Some (sp, cell)) (extends_refl _ _) Ht1). destruct previous as [prev|]; [|done]. apply Hfin.
      intros sp' cell' [= <- <-]. rewrite Hsp1. by eapply continued_owner; [apply Hp |].
    + cbv zeta. destruct (spill_told ow1 fl1 (high_water sp, margin sp) n (pol_peers policy) Ht1) as [He2 Ht2].
      specialize (Hfin _ _ (Some (sp, next_fleet fl1)) He2 Ht2). simpl in Hfin.
      destruct previous; apply Hfin; intros sp' cell' [= <- <-]; apply lookup_insert_eq.
  - specialize (Hfin ow1 fl1 None (extends_refl _ _) Ht1). by destruct previous; apply Hfin.
Qed.

(** ** The cells of a table *)

Definition route_owned (ow : owners) (fl : fleet) (n : bytes) (r : Route) : Prop :=
  mi_route (rt_identity r) = n /\ forall f, rt_failover r = Some f -> failover_owned ow fl n f.

Record table_owned (ow : owners) (fl : fleet) (t : RouteTable) : Prop := {
  to_routes : forall sni r, get_for_spec_sni t sni = Some r -> route_owned ow fl sni r;
  to_listed : forall r, r ∈ failover_routes t -> failover_owned ow fl (fr_route r) (fr_failover r);
}.

Lemma route_extends ow fl ow' fl' n r : extends ow fl ow' fl' -> route_owned ow fl n r -> route_owned ow' fl' n r.
Proof. intros He [Hn Hf]. split; [done |]. intros f Hr. by eapply owned_extends, Hf. Qed.

Lemma table_extends ow fl ow' fl' t : extends ow fl ow' fl' -> table_owned ow fl t -> table_owned ow' fl' t.
Proof.
  intros He [Hr Hl]. split.
  - intros sni r Hs. by eapply route_extends, Hr.
  - intros r Hin. by eapply owned_extends, Hl.
Qed.

Lemma finish_route_told ow su e spec prev down sources policy carried r n :
  fleet_told ow (e_fleet e) -> (forall p, prev = Some p -> route_owned ow (e_fleet e) n p) -> mi_route (rt_identity r) = n ->
  let '(r', e') := finish_route su e spec prev down sources policy carried r in
  exists ow', extends ow (e_fleet e) ow' (e_fleet e') /\ fleet_told ow' (e_fleet e') /\ route_owned ow' (e_fleet e') n r'.
Proof.
  intros Ht Hp Hr. unfold finish_route. destruct (retrack _ _ _ _ _) as [[d h2] sh1]. cbv zeta.
  assert (mi_route (match prev with
    | Some p => if bytes_eqb (mi_group (rt_identity p)) (rs_metrics_group spec) then rt_identity p else rt_identity r
    | None => rt_identity r end) = n) as Hname.
  { destruct prev as [p|]; [|done]. destruct (bytes_eqb _ _); [|done]. by destruct (Hp p eq_refl). }
  destruct policy as [policy|]; [|by exists ow]. destruct (tcp_health_of _ _ _ _ _) as [th sh2].
  match goal with |- context [Failover_new ?a ?b ?p ?d ?s] => pose proof (Failover_new_told ow a b p d s n Ht) as Hf;
    destruct (Failover_new a b p d s) as [f fl] end.
  destruct Hf as (ow' & He & Ht' & Ho).
  { intros q. destruct prev as [p|]; [|done]. simpl. destruct (_ =? _)%nat; [|done]. by apply Hp. }
  exists ow'. split_and!; [done | done |]. split; [exact Hname |]. by intros f' [= <-].
Qed.

Lemma spec_outcome_told ow su lt previous e spec :
  fleet_told ow (e_fleet e) -> (forall p, previous = Some p -> table_owned ow (e_fleet e) p) ->
  let '(res, e') := spec_outcome su lt previous e spec in
  exists ow', extends ow (e_fleet e) ow' (e_fleet e') /\ fleet_told ow' (e_fleet e') /\
    forall r, sr_route res = Some r -> route_owned ow' (e_fleet e') (rs_sni spec) r.
Proof.
  intros Ht Hp. unfold spec_outcome. destruct (validate_route_protocol_declaration spec); [|by exists ow].
  destruct (SourceAllowlist_parse _) as [sources|]; [|by exists ow]. cbv zeta.
  destruct (failover_policy spec) as [[policy bf] bsp]. set (prev := p ← previous; get_for_spec_sni p (rs_sni spec)).
  assert (forall p, prev = Some p -> route_owned ow (e_fleet e) (rs_sni spec) p) as Hprev.
  { unfold prev. destruct previous as [t|]; [|done]. intros p Hs. by eapply to_routes; [apply Hp |]. }
  match goal with |- context [build_route su e spec lt ?i] => pose proof (build_route_made su e spec lt i) as Hmade;
    destruct (build_route su e spec lt i) as [built e1] end. destruct Hmade as [Hfl Hnamed].
  assert (forall r, built = Ok r -> mi_route (rt_identity r) = rs_sni spec) as Hname by (intros r Hr; by destruct (Hnamed r Hr)).
  assert (forall down carried r, mi_route (rt_identity r) = rs_sni spec ->
    let '(r', e') := finish_route su e1 spec prev down sources policy carried r in
    exists ow', extends ow (e_fleet e) ow' (e_fleet e') /\ fleet_told ow' (e_fleet e') /\
      route_owned ow' (e_fleet e') (rs_sni spec) r') as Hfin.
  { intros down carried r Hr. rewrite <- Hfl in Ht, Hprev. rewrite <- Hfl. by apply finish_route_told. }
  destruct built as [r|].
  - match goal with |- context [finish_route su e1 spec prev ?d sources policy ?c r] => specialize (Hfin d c r (Hname r eq_refl)) end.
    destruct (finish_route _ _ _ _ _ _ _ _ _) as [r' e']. destruct Hfin as (ow' & ? & ? & ?). exists ow'.
    split_and!; [done | done |]. by intros r0 [= <-].
  - destruct (carry_forward previous spec _) as [r|] eqn:Hc; [|exists ow; by rewrite Hfl].
    assert (mi_route (rt_identity r) = rs_sni spec) as Hr.
    { unfold carry_forward in Hc. fold prev in Hc. destruct previous as [t|]; [|done]. simpl in Hc, prev. fold prev in Hc.
      destruct prev as [q|]; [|done]. simpl in Hc. case_bool_decide; [|done]. injection Hc as <-. by destruct (Hprev q eq_refl). }
    match goal with |- context [finish_route su e1 spec prev ?d sources policy ?c r] => specialize (Hfin d c r Hr) end.
    destruct (finish_route _ _ _ _ _ _ _ _ _) as [r' e']. destruct Hfin as (ow' & ? & ? & ?). exists ow'.
    split_and!; [done | done |]. by intros r0 [= <-].
Qed.

(** ** The cells of a build *)

Section Build.
Context (su : surroundings) (lt : ListenerTlsSpec) (previous : option RouteTable) (specs : list RouteSpec).
Context (ow0 : owners) (fl0 : fleet) (Hprevious : forall p, previous = Some p -> table_owned ow0 fl0 p).

Definition built_told (b : builder) (e : env) : Prop :=
  exists ow, extends ow0 fl0 ow (e_fleet e) /\ fleet_told ow (e_fleet e) /\ table_owned ow (e_fleet e) (table_of b).

Lemma build_step_told pre x post b e :
  specs = pre ++ x :: post -> decided lt previous specs pre b -> built_told b e ->
  let '(b', e') := build_step su lt previous (last_exact specs) (b, e) (length pre, x) in built_told b' e'.
Proof.
  intros Hsp Hdec (ow & He & Ht & Hto). pose proof (decides_spec lt previous specs pre x post b Hsp Hdec) as Hd. unfold build_step.
  destruct (decides _ _ _ _) eqn:Hb.
  - destruct Hd as [Hnone _]. pose proof (dec_status _ _ _ _ _ Hdec (rs_sni x)) as Hst. rewrite Hnone in Hst.
    pose proof (spec_outcome_told ow (holding su b) lt previous e x Ht) as Hs.
    destruct (spec_outcome _ _ _ _ _) as [res e']. destruct Hs as (ow' & He' & Ht' & Hr).
    { intros p Hp. by eapply table_extends; [|apply Hprevious]. }
    exists ow'. split_and!; [by eapply extends_trans | done |]. pose proof (table_extends _ _ _ _ _ He' Hto) as [Hro Hli].
    destruct (sr_route res) as [r|].
    + specialize (Hr r eq_refl). split.
      * intros sni q. rewrite spec_route_status, status_install by done. case_bool_decide as Hq; [subst sni; by intros [= <-] |].
        rewrite status_note, <- spec_route_status. apply Hro.
      * simpl. intros q. rewrite elem_of_app. intros [Hq|Hq]; [by apply Hli |]. destruct (rt_failover r) as [f|] eqn:Ef;
          [|by apply not_elem_of_nil in Hq]. apply list_elem_of_singleton in Hq as ->. simpl. destruct Hr as [-> Hf]. by apply Hf.
    + split.
      * intros sni q. rewrite spec_route_status, status_tombstone by done. case_bool_decide; [done |].
        rewrite status_note, <- spec_route_status. apply Hro.
      * unfold tombstone. by destruct (strip_prefix _ _).
  - destruct (strip_prefix star_dot (rs_sni x)); exists ow; (split_and!; [done | done |]); [|done].
    destruct Hto as [Hro Hli]. split; [exact Hro | exact Hli].
Qed.

Lemma build_told pre post e :
  specs = pre ++ post -> built_told builder_new e ->
  let '(b', e') := foldl (build_step su lt previous (last_exact specs)) (builder_new, e) (enumerate pre) in built_told b' e'.
Proof.
  revert post. induction pre as [|x pre IH] using rev_ind; intros post Hsp Hok; [exact Hok |].
  rewrite <- app_assoc in Hsp. rewrite enumerate_snoc, foldl_app. specialize (IH _ Hsp Hok).
  pose proof (build_decided su lt previous specs pre (x :: post) e Hsp) as Hdec.
  destruct (foldl _ (builder_new, e) (enumerate pre)) as [b e1]. by apply (build_step_told pre x post).
Qed.
End Build.

Lemma table_owned_new ow fl : table_owned ow fl (table_of builder_new).
Proof.
  split; [intros sni r; by rewrite spec_route_status, status_new |]. intros r Hr. by apply not_elem_of_nil in Hr.
Qed.

Lemma build_route_table_told ow su e specs lt previous :
  fleet_told ow (e_fleet e) -> (forall p, previous = Some p -> table_owned ow (e_fleet e) p) ->
  let '(t, e') := build_route_table su e specs lt previous in
  exists ow', extends ow (e_fleet e) ow' (e_fleet e') /\ fleet_told ow' (e_fleet e') /\ table_owned ow' (e_fleet e') t.
Proof.
  intros Ht Hp. unfold build_route_table.
  pose proof (build_told su lt previous specs ow (e_fleet e) Hp specs [] (clear_cache su e) (eq_sym (app_nil_r _))) as Hb.
  destruct (foldl _ _ _) as [b e']. apply Hb. exists ow. split_and!; [apply extends_refl | done | apply table_owned_new].
Qed.

(** ** What a step leaves of reports and admissions *)

Definition untold (fl fl' : fleet) : Prop :=
  next_fleet fl' = next_fleet fl /\
  (forall c, peer_addr fl' c = peer_addr fl c /\ fp_report (peer_at fl' c) = fp_report (peer_at fl c)) /\
  (forall c, sp_admission (spill_at fl' c) = sp_admission (spill_at fl c) \/ sp_admission (spill_at fl' c) = 0).

#[local] Instance untold_preorder : PreOrder untold.
Proof.
  split; [intros fl; split_and!; auto |]. intros a b c (Hn & Hp & Hs) (Hn' & Hp' & Hs'). split_and!; [congruence | |].
  - intros x. destruct (Hp x), (Hp' x). split; congruence.
  - intros x. destruct (Hs x) as [E|E], (Hs' x) as [E'|E']; rewrite ?E', ?E; auto.
Qed.

Lemma peer_at_put fl c p d : peer_at (put_peer fl c p) d = if decide (c = d) then p else peer_at fl d.
Proof. unfold peer_at, put_peer. simpl. case_decide as Hd; [subst; by rewrite lookup_insert_eq | by rewrite lookup_insert_ne]. Qed.
Lemma spill_at_put fl c s d : spill_at (put_spill fl c s) d = if decide (c = d) then s else spill_at fl d.
Proof. unfold spill_at, put_spill. simpl. case_decide as Hd; [subst; by rewrite lookup_insert_eq | by rewrite lookup_insert_ne]. Qed.

Lemma put_peer_untold fl c p :
  fp_addr p = peer_addr fl c -> fp_report p = fp_report (peer_at fl c) -> untold fl (put_peer fl c p).
Proof. intros Ha Hr. split_and!; [done | |]; intros d; [|by left]. unfold peer_addr. rewrite peer_at_put. case_decide; by subst. Qed.
Lemma put_status_untold fl c s : untold fl (put_status fl c s).
Proof. split_and!; auto. Qed.

#[local] Instance untold_connecting : Connecting untold.
Proof.
  split; try apply _; intros; try apply put_status_untold; try (apply put_peer_untold; try done; by destruct mode).
  split_and!; auto. intros c. rewrite spill_at_put. case_decide; simpl; auto.
Qed.

(** Of a process, and the stores an update has still to make. *)
Definition told (p : proc) (cs : list commit) : Prop :=
  exists ow, fleet_told ow (pc_fleet p) /\ table_owned ow (pc_fleet p) (pc_table p) /\
    forall routes t, SwapTable routes t ∈ cs -> table_owned ow (pc_fleet p) t.

Lemma untold_told ow fl fl' : untold fl fl' -> fleet_told ow fl -> fleet_told ow fl' /\ extends ow fl ow fl'.
Proof.
  intros (Hn & Hp & Hs) [Htp Hts]. split; [split |].
  - intros c n Hc. destruct (Htp c n Hc) as [Hlt Hr]. destruct (Hp c) as [-> Hrep]. unfold peer_report in *. rewrite Hrep.
    split; [lia | exact Hr].
  - intros c n hw mg addrs Hc. destruct (Hts c n hw mg addrs Hc) as [Hlt Hj]. split; [lia |].
    destruct (Hs c) as [->| ->]; [exact Hj |]. intros a Ha. by vm_compute in Ha.
  - split; [done | done |]. intros c n _. apply Hp.
Qed.

(** Other cells, under the same tables. *)
Lemma extends_told p p' cs ow fl :
  fleet_told ow fl -> extends ow (pc_fleet p) ow fl -> pc_fleet p' = fl -> pc_table p' = pc_table p ->
  table_owned ow (pc_fleet p) (pc_table p) ->
  (forall routes t, SwapTable routes t ∈ cs -> table_owned ow (pc_fleet p) t) -> told p' cs.
Proof.
  intros Ht He <- Htab Ho Hcs. exists ow. split_and!; [done | rewrite Htab; by eapply table_extends |].
  intros routes t Hin. by eapply table_extends, Hcs.
Qed.

Lemma keeps_told p p' cs : keeps untold p p' -> told p cs -> told p' cs.
Proof.
  intros [Ht Hf] (ow & Hw & Ho & Hcs). destruct (untold_told ow _ _ Hf Hw) as [Hw' He].
  by eapply (extends_told p p').
Qed.

(** ** The controller *)

Lemma pack_target f t u :
  0 < f -> Z.of_nat t < 65536 ->
  Z.to_nat (Z.land (Z.shiftr (Admission_pack (mkAdmission f t u)) 10) 65535) = t.
Proof.
  intros Hf Ht. unfold Admission_pack. cbn [adm_fraction adm_target adm_until_ms].
  change 65535 with (2 ^ 16 - 1). rewrite !Z.shiftr_lor, !Z.land_lor_distr_l, !land_mask by lia.
  assert (Z.shiftr (Z.shiftl u 26 mod (u64_max + 1)) 10 mod 2 ^ 16 = 0) as ->.
  { rewrite Z.shiftl_mul_pow2, Z.shiftr_div_pow2 by lia. change (u64_max + 1) with (2 ^ 38 * 2 ^ 26).
    rewrite Z.mul_mod_distr_r by done. change (2 ^ 26) with (2 ^ 16 * 2 ^ 10). rewrite Z.mul_assoc, Z.div_mul by done.
    by apply Z.mod_mul. }
  assert (Z.shiftr (Z.min f 1000) 10 = 0) as ->.
  { rewrite Z.shiftr_div_pow2 by lia. change (2 ^ 10) with 1024. apply Z.div_small. lia. }
  rewrite Z.shiftr_shiftl_l, Z.shiftl_0_r by lia. rewrite Z.lor_0_l, Z.lor_0_r, Z.mod_mod by done.
  change (2 ^ 16) with 65536. rewrite Z.mod_small by lia. lia.
Qed.

Lemma control_word policy s local views now a :
  Admission_unpack (sp_admission (control policy s local views now).2) = Some a ->
  exists tr t until, assess policy local views (now / 1000000) = (tr, Some (t, until)) /\
    (Z.of_nat t < 65536 -> adm_target a = t).
Proof.
  unfold control. destruct (assess _ _ _ _) as [tr [[t until]|]]; cbn [snd sp_admission]; [|by intros Ha; vm_compute in Ha].
  match goal with |- context [0 <? ?x] => generalize x; intros f end. destruct (Z.ltb_spec 0 f) as [Hf|Hf];
    [|by intros Ha; vm_compute in Ha].
  intros Ha. exists tr, t, until. split; [done |]. intros Ht. revert Ha. unfold Admission_unpack.
  destruct (_ =? 0); [done |]. intros [= <-]. simpl. by apply pack_target.
Qed.

Section Told.
Context (Hsays : forall addr n v, says addr n v -> Failover.permille v).

(** Routes whose cells have their owners, under one fleet. *)
Definition routes_owned (ow : owners) (fl : fleet) (routes : list FailoverRoute) : Prop :=
  Forall (fun r => failover_owned ow fl (fr_route r) (fr_failover r)) routes.

Lemma routes_extends ow fl ow' fl' routes : extends ow fl ow' fl' -> routes_owned ow fl routes -> routes_owned ow' fl' routes.
Proof. intros He. apply Forall_impl. intros r. by apply owned_extends. Qed.

Lemma view_load fl ttl now c v : pv_load (peer_view fl ttl now c) = Some v -> exists at_ms, peer_report (peer_at fl c) = Some (v, at_ms).
Proof. unfold peer_view. simpl. destruct (peer_report _) as [[w u]|]; [|done]. simpl. intros [= ->]. eauto. Qed.

Lemma control_route_told ow fl load now r :
  fleet_told ow fl -> failover_owned ow fl (fr_route r) (fr_failover r) ->
  (forall l u, load r = Some (l, u) -> here (fr_route r) l /\ Failover.permille l) ->
  fleet_told ow (control_route fl load now r) /\ extends ow fl ow (control_route fl load now r).
Proof.
  intros Ht [Hpeers Hspill] Hload. unfold control_route. destruct (fo_spill (fr_failover r)) as [[policy cell]|]; [|done].
  specialize (Hspill policy cell eq_refl). split; [|done]. destruct Ht as [Htp Hts]. split; [exact Htp |].
  intros c n hw mg addrs Hc. destruct (Hts c n hw mg addrs Hc) as [Hlt Hj]. split; [exact Hlt |]. rewrite spill_at_put.
  case_decide as Hd; [subst c | exact Hj]. rewrite Hspill in Hc. injection Hc as <- <- <- <-.
  intros a Ha Hlen Hhw Hmg. apply control_word in Ha as (tr & t & until & Has & Ht).
  destruct (load r) as [[l lu]|] eqn:Hl; [|by vm_compute in Has]. destruct (Hload l lu eq_refl) as [Hhere Hlp].
  eapply assess_target in Has as (v & pl & Hv & _ & Hpl & H1' & H2' & _); [|done .. |].
  2:{ intros i v pl. rewrite list_lookup_fmap. destruct (fo_peers (fr_failover r) !! i) as [p|] eqn:Hp; [|done]. simpl.
    intros [= <-] [at_ms Hr]%view_load. destruct (Htp p _ (Forall_lookup_1 _ _ _ _ Hpeers Hp)) as [_ Hs]. eapply Hsays, Hs, Hr. }
  rewrite list_lookup_fmap in Hv. destruct (fo_peers (fr_failover r) !! t) as [p|] eqn:Hp; [|done]. injection Hv as <-.
  apply view_load in Hpl as [at_ms Hr]. destruct (Htp p _ (Forall_lookup_1 _ _ _ _ Hpeers Hp)) as [_ Hs].
  exists (peer_addr fl p), l, pl. rewrite Ht, list_lookup_fmap, Hp; [split_and!; try done; by eapply Hs |].
  apply lookup_lt_Some in Hp. rewrite length_fmap in Hlen. lia.
Qed.

Lemma control_all_told ow fl load now routes :
  fleet_told ow fl -> routes_owned ow fl routes ->
  (forall r l u, r ∈ routes -> load r = Some (l, u) -> here (fr_route r) l /\ Failover.permille l) ->
  fleet_told ow (control_all fl load now routes) /\ extends ow fl ow (control_all fl load now routes).
Proof.
  unfold control_all. revert fl. induction routes as [|r routes IH]; intros fl Ht Ho Hload; [done |]. simpl.
  apply Forall_cons_iff in Ho as [Hr Ho].
  destruct (control_route_told ow fl load now r Ht Hr) as [Ht1 He1]; [intros l u; apply Hload; constructor |].
  destruct (IH _ Ht1 (routes_extends _ _ _ _ _ He1 Ho)) as [Ht2 He2]; [intros q l u Hq; apply Hload; by constructor |].
  split; [done | by eapply extends_trans].
Qed.

(** ** An answer that came *)

Lemma report_of_set p load at_ms v t :
  (forall l, load = Some l -> 0 <= l) -> peer_report (set_report p load at_ms) = Some (v, t) ->
  exists l, load = Some l /\ v = Z.min l 1000.
Proof.
  intros Hl. unfold peer_report, set_report. cbn [fp_report]. destruct load as [l|]; [|done]. specialize (Hl l eq_refl).
  destruct (_ =? 0); [done |]. intros [= <- _]. exists l. split; [done |]. change 1023 with (2 ^ 10 - 1).
  rewrite Z.land_lor_distr_l, !land_mask by lia.
  assert (Z.shiftl (Z.max at_ms 1) 10 mod (u64_max + 1) mod 2 ^ 10 = 0) as ->.
  { rewrite Z.shiftl_mul_pow2 by lia. change (u64_max + 1) with (2 ^ 54 * 2 ^ 10).
    rewrite Z.mul_mod_distr_r by done. by apply Z.mod_mul. }
  rewrite Z.lor_0_l. change (2 ^ 10) with 1024. apply Z.mod_small. lia.
Qed.

(** What an answer says, name by name. *)
Definition heard_from (addr : SocketAddr) (names : list bytes) (answer : LoadAnswer) : Prop :=
  forall i n l at_ms, names !! i = Some n -> la_loads answer !! i = Some (Some (Some l, at_ms)) -> says addr n l.

Lemma apply_to_route_told ow addr names answer fl r :
  fleet_told ow fl -> failover_owned ow fl (fr_route r) (fr_failover r) -> heard_from addr names answer ->
  fleet_told ow (apply_to_route addr names answer fl r) /\ extends ow fl ow (apply_to_route addr names answer fl r).
Proof.
  intros Ht [Hpeers _] Hheard. unfold apply_to_route. destruct (fo_spill _) as [sp|]; [|done]. destruct (find_first _ _) as [p|] eqn:Hf; [|done].
  destruct (position _ names) as [i|] eqn:Hi; [|done]. apply find_first_Some in Hf as [Hin Haddr%bool_decide_eq_true_1].
  apply position_Some in Hi as [(n & Hn & Heq) _]. apply bytes_eqb_eq in Heq. subst n.
  rewrite Forall_forall in Hpeers. pose proof (Hpeers p (proj1 (list_elem_of_In _ _) Hin)) as Hown.
  set (cell := match la_loads answer !! i with Some (Some (load, at_ms)) => _ | _ => _ end).
  assert (fp_addr cell = addr) as Hca by (rewrite <- Haddr; unfold cell; repeat case_match; done).
  assert (forall c, peer_addr (put_peer fl p cell) c = peer_addr fl c) as Hsame.
  { intros c. unfold peer_addr. rewrite peer_at_put. case_decide; [subst c; by rewrite Hca | done]. }
  destruct Ht as [Htp Hts]. split; [split; [|exact Hts] | split; auto].
  intros c n Hc. rewrite Hsame. destruct (Htp c n Hc) as [Hlt Hr]. split; [exact Hlt |]. rewrite peer_at_put.
  case_decide as Hd; [subst c | exact Hr]. rewrite Hown in Hc. injection Hc as <-. intros v t. unfold cell, peer_addr. rewrite Haddr.
  destruct (la_loads answer !! i) as [[[load at_ms]|]|] eqn:Hla; intros Hrep; [|rewrite <- Haddr; by eapply Hr ..].
  assert (forall l, load = Some l -> says addr (fr_route r) l) as Hs by (intros l ->; by eapply Hheard).
  destruct (report_of_set _ _ _ _ _ (fun l Hl => proj1 (Hsays _ _ _ (Hs l Hl))) Hrep) as (l & Hl & ->).
  specialize (Hs l Hl). pose proof (proj2 (Hsays _ _ _ Hs)). by rewrite Z.min_l by lia.
Qed.

Lemma apply_answer_told ow fl routes addr names answer :
  fleet_told ow fl -> routes_owned ow fl routes -> (forall a, answer = Some a -> heard_from addr names a) ->
  fleet_told ow (apply_answer fl routes addr names answer) /\ extends ow fl ow (apply_answer fl routes addr names answer).
Proof.
  unfold apply_answer. destruct answer as [a|]; [|done]. intros Ht Ho Ha. specialize (Ha a eq_refl). revert fl Ht Ho.
  induction routes as [|r routes IH]; intros fl Ht Ho; [done |]. simpl. apply Forall_cons_iff in Ho as [Hr Ho].
  destruct (apply_to_route_told ow addr names a fl r Ht Hr Ha) as [Ht1 He1].
  destruct (IH _ Ht1 (routes_extends _ _ _ _ _ He1 Ho)) as [Ht2 He2]. split; [done | by eapply extends_trans].
Qed.

(** ** Every step of the process *)

Lemma table_routes_owned ow fl t : table_owned ow fl t -> routes_owned ow fl (failover_routes t).
Proof. intros [_ Hl]. apply Forall_forall. intros r Hr. by apply Hl, list_elem_of_In. Qed.

Lemma poll_told w sa p o cs (routes := failover_routes (pc_table w)) (load : FailoverRoute -> option (Z * Z)) :
  told w cs -> (forall r l u, r ∈ routes -> load r = Some (l, u) -> here (fr_route r) l /\ Failover.permille l) ->
  match o with
  | PlTick now table order load' => table = routes /\ load' = load
  | PlDone id done_ table now load' => table = routes /\ load' = load /\
      forall addr names a, done_ = Some (addr, names, Some a) -> heard_from addr names a
  | PlOther fl => False
  end -> told (ef_proc (poll_once w sa p o)) cs.
Proof.
  intros (ow & Ht & Ho & Hcs) Hload Hop. pose proof (table_routes_owned _ _ _ Ho) as Hro. unfold poll_once.
  destruct o as [now table order load'|id done_ table now load'|fl]; [| |done]; simpl.
  - destruct Hop as [-> ->]. destruct (poll_tick _ _ _ _ _) as [q started]. simpl.
    destruct (control_all_told ow _ load now routes Ht Hro Hload) as [Ht' He]. by eapply (extends_told w).
  - destruct Hop as (-> & -> & Hd). set (fl1 := match done_ with Some (addr, names, answer) => _ | None => _ end).
    assert (fleet_told ow fl1 /\ extends ow (pc_fleet w) ow fl1) as [Ht1 He1].
    { unfold fl1. destruct done_ as [[[addr names] answer]|]; [|done]. apply apply_answer_told; [done | exact Hro |].
      intros a ->. by eapply Hd. }
    destruct (control_all_told ow fl1 load now routes Ht1 (routes_extends _ _ _ _ _ He1 Hro) Hload) as [Ht' He].
    eapply (extends_told w _ cs ow _ Ht'); try done. by eapply extends_trans.
Qed.

Lemma report_all_untold sh queued fl routes : untold fl (report_all sh queued fl routes).1.
Proof.
  unfold report_all. generalize (@nil (FailoverRoute * bool)) as es. revert fl. induction routes as [|r routes IH]; intros fl es; [done |].
  cbn [foldl]. unfold report_route at 2. destruct (report_health _ _ _). etrans; [|apply IH]. apply put_status_untold.
Qed.

Lemma probe_due_untold fl sh routes now : untold fl (probe_due fl sh routes now).1.
Proof.
  unfold probe_due. generalize (@nil (Endpoint * nat * Z)) as due. revert fl.
  induction routes as [|r routes IH]; intros fl due; [done |]. cbn [foldl]. unfold probe_route at 2. cbv zeta.
  destruct (_ <? _); [apply IH |]. destruct (route_targets sh r); [apply IH |]. etrans; [|apply IH]. apply put_status_untold.
Qed.

Lemma works_told f64_exp obtained linux a w sa e cs :
  works f64_exp obtained linux a w sa e -> told w cs ->
  (forall addr names a, obtained addr names (Some a) -> heard_from addr names a) ->
  (forall now r l u, 0 <= now -> r ∈ failover_routes (pc_table w) -> local_load sa now r = Some (l, u) ->
     here (fr_route r) l /\ Failover.permille l) ->
  told (ef_proc e) cs.
Proof.
  intros Hw Ht Hobt Hhere. destruct Hw; try exact Ht.
  - unfold start_probes. pose proof (probe_due_untold (pc_fleet w) (pc_shared w) (failover_routes (pc_table w)) now) as Hu.
    destruct (probe_due _ _ _ _). eapply keeps_told; [|exact Ht]. by split.
  - unfold report_pass. pose proof (report_all_untold (pc_shared w) queued (pc_fleet w) (failover_routes (pc_table w))) as Hu.
    destruct (report_all _ _ _ _). eapply keeps_told; [|exact Ht]. by split.
  - apply (poll_told w sa p _ cs (local_load sa now)); [done | | done]. intros r l u. by apply Hhere.
  - apply (poll_told w sa p _ cs (local_load sa now)); [done | |]. { intros r l u. by apply Hhere. }
    split_and!; [done | done |]. intros addr names a Hd.
    match goal with Hdone : forall addr names answer, _ -> _ /\ obtained _ _ _ |- _ => by eapply Hobt, Hdone end.
  - unfold start_pass. cbv zeta. case_bool_decide; [exact Ht |]. destruct (discovery_pass _ _ _ _ _ _) as [[]]. exact Ht.
Qed.

Lemma prepare_told su w hot : told (sp_proc w) [] -> told (sp_proc (prepare_update su w hot).2) (prepared su w hot).
Proof.
  intros (ow & Ht & Ho & _). pose proof (fun routes t => prepared_swap su w hot routes t) as Hsw.
  rewrite prepare_proc. unfold build_hot_table in *.
  destruct (jh_routes hot) as [routes|]; [|exists ow; split_and!; try done; intros rs t Hin; by specialize (Hsw rs t Hin)].
  destruct (try_map _ _) as [specs|]; [|exists ow; split_and!; try done; intros rs t Hin; by specialize (Hsw rs t Hin)].
  match goal with |- context [build_route_table ?a ?b ?c ?d ?e] =>
    pose proof (build_route_table_told ow a b c d e Ht) as Hbt; destruct (build_route_table a b c d e) as [t e'] end.
  destruct Hbt as (ow' & He & Ht' & Hto'); [by intros p [= <-] |]. exists ow'. split_and!; [done | by eapply table_extends |].
  intros rs t' Hin. by specialize (Hsw rs t' Hin) as [= <-].
Qed.

Lemma commit_told su w c cs : told (sp_proc w) (c :: cs) -> told (sp_proc (commit_one su w c)) cs.
Proof.
  intros (ow & Ht & Ho & Hcs). destruct (commit_fleet su w c) as [Hf Htab]. exists ow. rewrite Hf, Htab. split_and!; [done | |].
  - destruct c as [routes t|u|u]; [|done ..]. eapply Hcs. constructor.
  - intros routes t Hin. eapply Hcs. by constructor.
Qed.

Lemma sys_step_told f64_exp obtained linux s s' :
  sys_step f64_exp obtained linux s s' -> told (sp_proc (sy_wrap s)) (sy_pending s) ->
  (forall addr names a, obtained addr names (Some a) -> heard_from addr names a) ->
  (forall now r l u, 0 <= now -> r ∈ failover_routes (pc_table (sp_proc (sy_wrap s))) ->
     local_load (sy_sampler s) now r = Some (l, u) -> here (fr_route r) l /\ Failover.permille l) ->
  told (sp_proc (sy_wrap s')) (sy_pending s').
Proof.
  intros Hst Ht Hobt Hhere.
  destruct Hst as [s kn acc nf Hi|s t Hi|s su hot Hi|s su c cs Hp|s describe su id r Hi|s mode mx ctx peer local Hin|s p' Hs|s k a e Hk Hw|s k].
  - unfold after_start. destruct (start_keeps_settings kn acc nf (sy_wrap s)) as (_ & _ & Hp).
    destruct (start kn acc nf (sy_wrap s)) as [[r nf'] w]. simpl in *. by rewrite Hp.
  - rewrite Hi in Ht. exact Ht.
  - rewrite Hi in Ht. by apply prepare_told.
  - rewrite Hp in Ht. by eapply commit_told.
  - rewrite Hi in Ht. by eapply keeps_told; [apply (resolve_keeps _) |].
  - eapply keeps_told; [|exact Ht]. by apply (accept_keeps _ mode ctx mx peer local (pool_of s)).
  - eapply keeps_told; [|exact Ht]. exact (task_step_keeps _ _ _ _ Hs).
  - by eapply works_told.
  - exact Ht.
Qed.
End Told.

Lemma deploy_told m cfg w : SymphonyProxyWrap_new m cfg = Ok w -> told (sp_proc w) [].
Proof.
  unfold SymphonyProxyWrap_new. cbv zeta. intros Hn.
  repeat match type of Hn with
  | context [mbind _ ?x] => destruct x as [?|?]; [cbn [mbind result_bind] in Hn | discriminate Hn]
  end.
  match type of Hn with context [build_route_table ?a ?b ?c ?d ?e] =>
    pose proof (build_route_table_told (mkOwners ∅ ∅) a b c d e) as Ht; destruct (build_route_table a b c d e) as [t e'] end.
  destruct (negb _); [discriminate Hn |]. injection Hn as <-. simpl in *. destruct Ht as (ow & _ & Hf & Ho); [| done |].
  - by split; intros *; simpl; rewrite lookup_empty.
  - exists ow. split_and!; [done | done |]. by intros ? ? ?%not_elem_of_nil.
Qed.
End SystemReports.

Lemma told_mono `{TlsLib} `{Digests} `{NetLib} `{Lowercase} (says says' : SocketAddr -> bytes -> Z -> Prop) (here here' : bytes -> Z -> Prop) p cs :
  (forall addr n v, says addr n v -> says' addr n v) -> (forall n l, here n l -> here' n l) -> told says here p cs -> told says' here' p cs.
Proof.
  intros Hs Hh (ow & [Hp Hsp] & Ho). exists ow. split; [split | done].
  - intros c n Hc. destruct (Hp c n Hc) as [Hlt Hr]. split; [done |]. intros v at_ms Hv. by eapply Hs, Hr.
  - intros c n hw mg addrs Hc. destruct (Hsp c n hw mg addrs Hc) as [Hlt Hj]. split; [done |]. intros a Ha Hl Hhw Hmg.
    destruct (Hj a Ha Hl Hhw Hmg) as (addr & l & v & ? & ? & ? & ? & ?). exists addr, l, v. split_and!; auto.
Qed.
