(* ===== verification/Cluster.v ===== *)
(** * Several hosts (src/src/failover.rs, src/src/ingress.rs and
    src/src/proxy_conn.rs)

    Hosts that are each other's failover peers ask each other for the load of
    their routes: the poll of one ([poll_peer_loads], [query_load]) connects to the
    ingress of another ([handle], [answer_load_query]), and what it reads decides
    which connections it spills. Here every host is a whole process
    ([System.system]) that takes its own steps; what a query brings is tied to what
    the process at the peer's address answered, byte by byte: the query text, the
    answer text, and an answer that was cut off when the connection broke. Other
    addresses answer anything. *)

From S2P Require Import Prelude Bytes Float64 Net IpText TokenBucket Sni Tls Protection ProxyProtocol Balancer BalancerState Metrics Failover Router HttpHead HttpPump Background Forwarding Task Suspended Liveness Sockets Connection ConnectionRuns HttpListener Pool Config Proxy ProxyLife ThreadCpu System SystemHealth SystemLoad SystemReports.

Open Scope Z_scope.

Section Cluster.
Context `{TlsLib} `{Digests} `{NetLib} `{Lowercase} (f64_exp : f64 -> f64).

(** A host: what it runs on, and its configuration. *)
Record member : Type := mkMember { mb_machine : machine; mb_config : JsProxyConfig; mb_linux : bool }.

(** The states each host has been in, so far. *)
Definition history : Type := list (nat * system).

Record cluster : Type := mkCluster { cl_nodes : list system; cl_past : history }.

(** The names a connection is about to answer for. *)
Definition standing (t : conn_task) : option (list (option bytes)) :=
  match ct_rest t with
  | Ask (TlsE (LoadAnswers names)) _ => Some names
  | _ => None
  end.

Context (members : list member) (node_at : SocketAddr -> option nat).

(** A connection of the host has answered for these names: as the host was at one
    moment, with its sampler's readings. *)
Inductive gave (past : history) (k : nat) (names : list (option bytes)) (answers : list (option Z)) : Prop :=
  | Gave s t i :
      (k, s) ∈ past -> t ∈ sy_tasks s -> standing t = Some names ->
      io_load (hi_io i) = load_now (sy_sampler s) -> 0 <= io_now (hi_io i) ->
      answers = (perform (ct_ctx t) (hi_io i) (sp_proc (sy_wrap s)) _ (LoadAnswers names)).1 ->
      gave past k names answers.

(** What can be read back after a query for some names was written to an address:
    all or a first part of an answer of the host there to the query it read. *)
Definition replied (past : history) (addr : SocketAddr) (chunk : list bytes) (reply : bytes) : Prop :=
  match node_at addr with
  | None => True
  | Some k =>
      exists names answers rest, read_proxy_v2 (mkStream (encode_load_query chunk) false) = Ok (LoadQuery names, rest) /\
        gave past k names answers /\ reply `prefix_of` encode_load_answer answers
  end.

(** Route names are Rust strings. *)
Definition exchanged (past : history) : System.replies := fun addr names answer =>
  Forall (fun n => is_utf8 n = true) names /\
  exists rs, answer = query_load names rs /\
    forall i chunk connect reply at_ms, load_query_chunks names !! i = Some chunk ->
      rs !! i = Some (Some (connect, reply, at_ms)) -> replied past addr chunk reply.

Inductive cluster_step : cluster -> cluster -> Prop :=
  | NodeStep c k m s s' :
      members !! k = Some m -> cl_nodes c !! k = Some s ->
      sys_step f64_exp (exchanged (cl_past c)) (mb_linux m) s s' -> small (pool_of s') ->
      cluster_step c (mkCluster (<[k := s']> (cl_nodes c)) (cl_past c ++ [(k, s')])).

Definition boots (m : member) (s : system) : Prop :=
  exists w, SymphonyProxyWrap_new (mb_machine m) (mb_config m) = Ok w /\ s = deploy w (mb_config m).

(** Every state the hosts reach. *)
Inductive formed : cluster -> Prop :=
  | FormNew nodes : Forall2 boots members nodes -> formed (mkCluster nodes (enumerate nodes))
  | FormStep c c' : formed c -> cluster_step c c' -> formed c'.

(** ** What the hosts have said and measured *)

(** Asked by a peer, the host at [k] has said that its load for a route is [v]:
    there was a route of that name, it was served, and [v] is what was measured of
    its balancers (see SystemLoad). *)
Definition answered (past : history) (k : nat) (n : bytes) (v : Z) : Prop :=
  exists s t names now, (k, s) ∈ past /\ t ∈ sy_tasks s /\ standing t = Some names /\ Some n ∈ names /\
    load_answer (pc_shared (sp_proc (sy_wrap s))) (load_now (sy_sampler s)) (pc_table (sp_proc (sy_wrap s))) n now = Some v /\
    tells (sy_sampler s) (sp_proc (sy_wrap s)) now n v.

Definition says (past : history) (addr : SocketAddr) (n : bytes) (v : Z) : Prop :=
  Failover.permille v /\ forall k, node_at addr = Some k -> answered past k n v.

(** The host itself has measured a load of [l] for a failover route of its own. *)
Definition measured_here (past : history) (k : nat) (n : bytes) (l : Z) : Prop :=
  exists s r now until_ms, (k, s) ∈ past /\ r ∈ failover_routes (pc_table (sp_proc (sy_wrap s))) /\ fr_route r = n /\
    local_load (sy_sampler s) now r = Some (l, until_ms).

Record cluster_ok (c : cluster) : Prop := {
  ck_deployed : forall k s, (k, s) ∈ cl_past c -> exists m, members !! k = Some m /\
    deployed f64_exp (mb_machine m) (mb_config m) (mb_linux m) s;
  ck_now : forall k s, cl_nodes c !! k = Some s -> (k, s) ∈ cl_past c;
  ck_told : forall k s, cl_nodes c !! k = Some s ->
    told (says (cl_past c)) (measured_here (cl_past c) k) (sp_proc (sy_wrap s)) (sy_pending s);
}.

(** ** Lemmas: the exchange *)

Lemma sys_step_more obtained obtained' linux s s' :
  (forall addr names answer, obtained addr names answer -> obtained' addr names answer) ->
  sys_step f64_exp obtained linux s s' -> sys_step f64_exp obtained' linux s s'.
Proof.
  intros Hmore Hst.
  destruct Hst as [s kn Hi|s t Hi|s su hot Hi|s su c cs Hp|s describe su id r Hi|s mode mx ctx peer local Hin|s p' Hs|s k a e Hk Hw|s k];
    try (by econstructor).
  eapply SysWork; [exact Hk |]. destruct Hw; try (by econstructor).
  apply WPollDone; [done |]. intros addr names answer Hd.
  match goal with Hdone : forall addr names answer, _ -> _ /\ obtained _ _ _ |- _ => destruct (Hdone _ _ _ Hd) as [? ?] end. auto.
Qed.

Lemma answered_more past past' k n v : past ⊆ past' -> answered past k n v -> answered past' k n v.
Proof. intros Hp (s & t & names & now & Hin & Hrest). exists s, t, names, now. by split; [apply Hp |]. Qed.

Lemma chunk_ok names i chunk :
  load_query_chunks names !! i = Some chunk -> Forall (fun n => is_utf8 n = true) names ->
  chunk <> [] /\ (length chunk <= MAX_QUERY_NAMES)%nat /\ Forall (fun n => is_utf8 n = true) chunk.
Proof.
  intros Hi Hu. destruct (chunks_spec (length names) MAX_QUERY_NAMES names) as [Hc Hall]; [unfold MAX_QUERY_NAMES; lia | done |].
  fold (load_query_chunks names) in Hc, Hall. pose proof (Forall_lookup_1 _ _ _ _ Hall Hi) as Hlen. simpl in Hlen. split_and!.
  - intros ->. simpl in Hlen. lia.
  - lia.
  - apply Forall_forall. intros n Hn. rewrite Forall_forall in Hu. apply Hu. rewrite <- Hc. apply in_concat. exists chunk.
    split; [|done]. by eapply list_elem_of_In, list_elem_of_lookup_2.
Qed.

(** What a host answers for the names it read. *)
Lemma gave_values past k names answers :
  (forall s, (k, s) ∈ past -> loads_ok (sy_sampler s)) -> gave past k names answers ->
  Forall (fun l => match l with Some v => 0 <= v <= 1000 | None => True end) answers /\ length answers = length names /\
  forall j n v, names !! j = Some n -> answers !! j = Some (Some v) -> exists n', n = Some n' /\ answered past k n' v.
Proof.
  intros Hl [s t i Hin Ht Hst Hio Hnow ->]. specialize (Hl s Hin). simpl. rewrite Hio. split_and!.
  - apply Forall_fmap, Forall_forall. intros [n|] _; simpl; [|done]. destruct (load_answer _ _ _ _ _) as [v|] eqn:E; [|done].
    by eapply tells_bounds, answer_tells.
  - apply length_fmap.
  - intros j n v Hj. rewrite list_lookup_fmap, Hj. simpl. destruct n as [n|]; [|done]. simpl. intros [= Hv]. exists n. split; [done |].
    exists s, t, names, (io_now (hi_io i)). split_and!; try done; [by eapply list_elem_of_lookup_2 | by eapply answer_tells].
Qed.

Lemma replied_says past addr chunk reply :
  (forall k s, (k, s) ∈ past -> loads_ok (sy_sampler s)) ->
  chunk <> [] -> (length chunk <= MAX_QUERY_NAMES)%nat -> Forall (fun n => is_utf8 n = true) chunk ->
  replied past addr chunk reply -> reply_says (says past addr) chunk reply.
Proof.
  intros Hl Hne Hlen Hu Hr loads j n v Hparse Hj Hv.
  split; [by eapply parse_load_answer_permille, list_elem_of_lookup_2 |]. intros k Hk. unfold replied in Hr. rewrite Hk in Hr.
  destruct Hr as (names & answers & rest & Hread & Hgave & Hpre).
  pose proof (ProxyProtocol.Properties.load_query_roundtrip chunk [] false Hne Hlen Hu) as Hq. rewrite app_nil_r, Hread in Hq.
  injection Hq as -> _. destruct (gave_values past k _ _ (Hl k) Hgave) as (Hok & Hal & Hans). rewrite length_fmap in Hal.
  destruct (capped_same answers Hok) as [Hlo Hcap].
  destruct (ProxyProtocol.Properties.load_answer_roundtrip answers Hlo) as [Hmax Hrt]. rewrite Hcap, Hal in Hrt. rewrite Hal in Hmax.
  rewrite take_ge in Hparse by (apply prefix_length in Hpre; lia).
  assert (reply = encode_load_answer answers) as ->.
  { apply cut_answer; [done | by intros ->; destruct chunk | done |]. rewrite Hal. eauto. }
  rewrite Hrt in Hparse. injection Hparse as <-.
  destruct (Hans j (asked n) v) as (n' & Hn' & Ha); [by rewrite list_lookup_fmap, Hj | done |].
  unfold asked in Hn'. destruct (_ && _); [|done]. by injection Hn' as ->.
Qed.

Lemma exchanged_heard past addr names a :
  (forall k s, (k, s) ∈ past -> loads_ok (sy_sampler s)) ->
  exchanged past addr names (Some a) -> heard_from (says past) addr names a.
Proof.
  intros Hl (Hu & rs & Hq & Hr) i n l at_ms. apply (query_load_says (says past addr) names rs a); [done |].
  intros j chunk connect reply at_ms' Hj Hrep. destruct (chunk_ok _ _ _ Hj Hu) as (? & ? & ?).
  apply replied_says; try done. by eapply Hr.
Qed.

(** ** Lemmas: the invariant *)

Lemma local_load_permille sa now r l u :
  loads_ok sa -> 0 <= now -> local_load sa now r = Some (l, u) -> Failover.permille l.
Proof. intros Hl Hn Hr. eapply route_measures_bounds, (route_measured _ _ _ _ _ Hl Hn). by exists u. Qed.

Lemma says_permille past addr n v : says past addr n v -> Failover.permille v.
Proof. by intros []. Qed.

Lemma told_more past x j p cs :
  told (says past) (measured_here past j) p cs -> told (says (past ++ [x])) (measured_here (past ++ [x]) j) p cs.
Proof.
  assert (past ⊆ past ++ [x]) as Hsub by set_solver. apply told_mono.
  - intros addr n v [Hp Ha]. split; [done |]. intros q Hq. by eapply answered_more, Ha.
  - intros n l (s1 & r & now & u & Hin & Hrest). exists s1, r, now, u. by split; [apply Hsub |].
Qed.

Lemma formed_ok c : formed c -> cluster_ok c.
Proof.
  induction 1 as [nodes Hb|c c' _ IH Hst].
  - assert (forall k s, nodes !! k = Some s -> exists m w, members !! k = Some m /\
      SymphonyProxyWrap_new (mb_machine m) (mb_config m) = Ok w /\ s = deploy w (mb_config m)) as Hn.
    { intros k s Hk. destruct (Forall2_lookup_r _ _ _ _ _ Hb Hk) as (m & Hm & w & Hw & ->). eauto. }
    split; simpl.
    + intros k s Hin%elem_of_enumerate. destruct (Hn k s Hin) as (m & w & Hm & Hw & ->). exists m. split; [done |]. by apply DeployNew.
    + intros k s Hk. by apply elem_of_enumerate.
    + intros k s Hk. destruct (Hn k s Hk) as (m & w & _ & Hw & ->). by eapply deploy_told.
  - destruct Hst as [c k m s s' Hm Hk Hst Hsm]. pose proof IH as [Hd Hnow Htold].
    assert (forall j x, (j, x) ∈ cl_past c -> loads_ok (sy_sampler x)) as Hl.
    { intros j x Hin. destruct (Hd j x Hin) as (q & _ & Hq). by eapply deployed_loads. }
    destruct (Hd k s (Hnow k s Hk)) as (m' & Hm' & Hs). rewrite Hm in Hm'. injection Hm' as <-.
    assert (deployed f64_exp (mb_machine m) (mb_config m) (mb_linux m) s') as Hs'.
    { eapply DeployStep; [exact Hs | | exact Hsm]. by eapply sys_step_more; [|exact Hst]. }
    assert (told (says (cl_past c)) (measured_here (cl_past c) k) (sp_proc (sy_wrap s')) (sy_pending s')) as Ht'.
    { eapply (sys_step_told _ _ (says_permille (cl_past c))); [exact Hst | by apply Htold | |].
      - intros addr names a. by apply exchanged_heard.
      - intros now r l u Hn Hr Hll. split; [exists s, r, now, u; split_and!; auto |].
        eapply local_load_permille; [by eapply Hl, Hnow | done | done]. }
    split; simpl.
    + intros j x [Hin|[= -> ->]%list_elem_of_singleton]%elem_of_app; [by apply Hd | by exists m].
    + intros j x Hj. apply list_lookup_insert_Some in Hj as [(-> & -> & _)|[_ Hj]]; apply elem_of_app;
        [right; by apply list_elem_of_singleton | left; by apply Hnow].
    + intros j x Hj. apply list_lookup_insert_Some in Hj as [(-> & -> & _)|[_ Hj]]; apply told_more; [done | by apply Htold].
Qed.

(** ** Schedules *)

(** A host's step, a tick of its load poll, or the end of a query: what a
    connection of the host asked answered in a past state, read back whole. *)
Inductive cl_move : Type :=
  | At (k : nat) (i : http_io) (peer : SocketAddr) (m : sys_move)
  | Tick (k j : nat) (now : Z)
  | Answered (k j id : nat) (names : list bytes) (p q : nat) (i : http_io) (connect at_ms now : Z).

Definition advance_node (c : cluster) (k : nat) (s : system) : option cluster :=
  if guards_held (fun _ _ => true) (sy_tasks s) <=? u32_max
  then Some (mkCluster (<[k := s]> (cl_nodes c)) (cl_past c ++ [(k, s)])) else None.

Definition tick_node (s : system) (j : nat) (now : Z) : option system :=
  let w := sp_proc (sy_wrap s) in
  match sy_activities s !! j with
  | Some (Polling p) =>
      let routes := failover_routes (pc_table w) in
      Some (after_work s j (poll_once w (sy_sampler s) p (PlTick now routes
        (map_to_list (due_queries (pc_fleet w) (List.filter spills routes))) (local_load (sy_sampler s) now))))
  | _ => None
  end.

Definition answer_node (s : system) (j id : nat) (names : list bytes) (reply : option (Z * bytes * Z)) (now : Z) : option system :=
  let w := sp_proc (sy_wrap s) in
  match sy_activities s !! j with
  | Some (Polling p) =>
      (fun addr => after_work s j (poll_once w (sy_sampler s) p (PlDone id (Some (addr, names, query_load names [reply]))
         (failover_routes (pc_table w)) now (local_load (sy_sampler s) now)))) <$> in_flight p !! id
  | _ => None
  end.

(** The address a query in flight is to. *)
Definition queried_at (s : system) (j id : nat) : option SocketAddr :=
  match sy_activities s !! j with Some (Polling p) => in_flight p !! id | _ => None end.

Definition answer_of (s : system) (t : conn_task) (names : list (option bytes)) (i : http_io) : list (option Z) :=
  (perform (ct_ctx t) (hi_io (tied_io (sy_sampler s) i)) (sp_proc (sy_wrap s)) _ (LoadAnswers names)).1.

Definition cl_make (c : cluster) (mv : cl_move) : option cluster :=
  match mv with
  | At k i peer m => s ← cl_nodes c !! k; s' ← sys_make f64_exp i peer s m; advance_node c k s'
  | Tick k j now => if now <? 0 then None else s ← cl_nodes c !! k; s' ← tick_node s j now; advance_node c k s'
  | Answered k j id names p q i connect at_ms now =>
      s ← cl_nodes c !! k; addr ← queried_at s j id; '(k', s1) ← cl_past c !! p; t ← sy_tasks s1 !! q;
      if (0 <=? now) && (0 <=? io_now (hi_io i)) && bool_decide (node_at addr = Some k') &&
         bool_decide (standing t = Some (asked <$> names)) && forallb is_utf8 names &&
         (1 <=? length names)%nat && (length names <=? MAX_QUERY_NAMES)%nat
      then s' ← answer_node s j id names (Some (connect, encode_load_answer (answer_of s1 t (asked <$> names) i), at_ms)) now;
           advance_node c k s'
      else None
  end.

Fixpoint cl_schedule (c : cluster) (ms : list cl_move) : option cluster :=
  match ms with [] => Some c | mv :: ms => c' ← cl_make c mv; cl_schedule c' ms end.

Lemma advance_step c k m s s' c' :
  members !! k = Some m -> cl_nodes c !! k = Some s -> sys_step f64_exp (exchanged (cl_past c)) (mb_linux m) s s' ->
  advance_node c k s' = Some c' -> cluster_step c c'.
Proof.
  intros Hm Hs Hst. unfold advance_node. destruct (Z.leb_spec (guards_held (fun _ _ => true) (sy_tasks s')) u32_max); [|done].
  intros [= <-]. by eapply NodeStep.
Qed.

Lemma one_chunk (names : list bytes) i chunk :
  (1 <= length names <= MAX_QUERY_NAMES)%nat -> load_query_chunks names !! i = Some chunk -> i = 0%nat /\ chunk = names.
Proof.
  intros Hl. unfold load_query_chunks. destruct names as [|n names]; [simpl in Hl; lia |]. cbn [length chunks].
  rewrite take_ge, drop_ge by (simpl in *; lia). destruct i as [|i]; [by intros [= <-] |]. simpl.
  assert (chunks (length names) MAX_QUERY_NAMES (@nil bytes) = []) as -> by (by destruct (length names)). done.
Qed.

Lemma exchanged_whole past addr k s t i names connect at_ms :
  node_at addr = Some k -> (k, s) ∈ past -> t ∈ sy_tasks s -> standing t = Some (asked <$> names) -> 0 <= io_now (hi_io i) ->
  Forall (fun n => is_utf8 n = true) names -> (1 <= length names <= MAX_QUERY_NAMES)%nat ->
  exchanged past addr names (query_load names [Some (connect, encode_load_answer (answer_of s t (asked <$> names) i), at_ms)]).
Proof.
  intros Hk Hin Ht Hst Hi Hu Hl. split; [done |]. eexists. split; [reflexivity |]. intros j chunk c r a Hj.
  destruct (one_chunk _ _ _ Hl Hj) as [-> ->]. intros [= <- <- <-]. unfold replied. rewrite Hk.
  eexists _, _, _. split_and!; [| |reflexivity].
  - rewrite <- (app_nil_r (encode_load_query names)). apply ProxyProtocol.Properties.load_query_roundtrip; [|lia | done].
    intros ->. simpl in Hl. lia.
  - by apply (Gave past k _ _ s t (tied_io (sy_sampler s) i)).
Qed.

Lemma cl_make_step c mv c' : Forall (fun m => mb_linux m = true) members -> length (cl_nodes c) = length members ->
  cl_make c mv = Some c' -> cluster_step c c'.
Proof.
  intros Hlinux Hlen. assert (forall k s, cl_nodes c !! k = Some s -> exists m, members !! k = Some m /\ mb_linux m = true) as Hm.
  { intros k s Hk. apply lookup_lt_Some in Hk. rewrite Hlen in Hk. apply lookup_lt_is_Some in Hk as [m Hm]. exists m.
    split; [done |]. by apply (Forall_lookup_1 _ _ _ _ Hlinux Hm). }
  assert (forall k s s', cl_nodes c !! k = Some s -> sys_step f64_exp (exchanged (cl_past c)) true s s' ->
    advance_node c k s' = Some c' -> cluster_step c c') as Hgo.
  { intros k s s' Hk Hst Ha. destruct (Hm k s Hk) as (m & Hmk & Hl). eapply advance_step; [exact Hmk | exact Hk | by rewrite Hl | done]. }
  destruct mv as [k i peer m|k j now|k j id names p q i connect at_ms now]; simpl.
  - destruct (cl_nodes c !! k) as [s|] eqn:Hk; [|done]. simpl. destruct (sys_make _ _ _ _ _) as [s'|] eqn:Hs; [|done]. simpl.
    eapply Hgo; [exact Hk |]. by eapply sys_make_step.
  - destruct (Z.ltb_spec now 0); [done |]. destruct (cl_nodes c !! k) as [s|] eqn:Hk; [|done]. simpl.
    destruct (tick_node s j now) as [s'|] eqn:Hs; [|done]. simpl. eapply Hgo; [exact Hk |]. unfold tick_node in Hs.
    destruct (sy_activities s !! j) as [[]|] eqn:Hj; try done. injection Hs as <-. eapply SysWork; [exact Hj |].
    by apply WPollTick.
  - destruct (cl_nodes c !! k) as [s|] eqn:Hk; [|done]. simpl. destruct (queried_at s j id) as [addr|] eqn:Hq; [|done]. simpl.
    destruct (cl_past c !! p) as [[k' s1]|] eqn:Hp; [|done]. simpl. destruct (sy_tasks s1 !! q) as [t|] eqn:Ht; [|done]. simpl.
    destruct (_ && (length names <=? MAX_QUERY_NAMES)%nat) eqn:Hc; [|done].
    apply andb_true_iff in Hc as [Hc Hmax%Nat.leb_le]. apply andb_true_iff in Hc as [Hc Hmin].
    apply andb_true_iff in Hc as [Hc Hutf]. apply andb_true_iff in Hc as [Hc Hstand%bool_decide_eq_true_1].
    apply andb_true_iff in Hc as [Hc Hnode%bool_decide_eq_true_1]. apply andb_true_iff in Hc as [Hnow%Z.leb_le Hio%Z.leb_le].
    destruct (answer_node _ _ _ _ _ _) as [s'|] eqn:Hs; [|done]. simpl. eapply Hgo; [exact Hk |]. unfold answer_node in Hs.
    unfold queried_at in Hq. destruct (sy_activities s !! j) as [[]|] eqn:Hj; try done. rewrite Hq in Hs. injection Hs as <-.
    eapply SysWork; [exact Hj |]. apply WPollDone; [done |]. intros a n r [= <- <- <-]. split; [done |].
    eapply exchanged_whole; [exact Hnode | by eapply list_elem_of_lookup_2 | by eapply list_elem_of_lookup_2 | exact Hstand | exact Hio | |].
    + apply Forall_forall. by apply forallb_forall.
    + destruct names; [done |]. simpl in *. lia.
Qed.

Lemma cl_schedule_formed c ms c' :
  Forall (fun m => mb_linux m = true) members -> length (cl_nodes c) = length members ->
  formed c -> cl_schedule c ms = Some c' -> formed c'.
Proof.
  intros Hlinux. revert c. induction ms as [|mv ms IH]; intros c Hlen Hf; simpl; [by intros [= <-] |].
  destruct (cl_make c mv) as [c1|] eqn:Hc; [|done]. simpl. pose proof (cl_make_step c mv c1 Hlinux Hlen Hc) as Hst.
  apply IH; [|by eapply FormStep]. destruct Hst. simpl. by rewrite length_insert.
Qed.
End Cluster.

Module Properties.

(** C12: A host spills connections only to where a peer said there is room. Hosts
    poll the load of each other's routes over the network, through any traffic,
    reloads and reconfigurations on every side, with replies that come late, are
    cut short or fail. In every state the hosts reach, a load that a failover route
    of one of them holds for a peer, where another of them is, is a value that host
    has answered for exactly that route, at a moment when the route was served
    there, not suspended, draining or down, and its load was measured. And a
    connection is spilled to a peer only after this host has measured its own load
    for the route to be within half the margin of the high water mark, and at least
    half the margin above the load that peer has answered for it. *)
Theorem spills_follow_the_peers_answers `{TlsLib} `{Digests} `{NetLib} `{Lowercase} f64_exp members node_at c k s r :
  formed f64_exp members node_at c -> cl_nodes c !! k = Some s ->
  let p := sp_proc (sy_wrap s) in
  let fl := pc_fleet p in
  let f := fr_failover r in
  r ∈ failover_routes (pc_table p) ->
  (forall i v at_ms, i ∈ fo_peers f -> peer_report (peer_at fl i) = Some (v, at_ms) ->
     forall k', node_at (peer_addr fl i) = Some k' -> answered (cl_past c) k' (fr_route r) v) /\
  (forall policy cell hash now target,
     fo_spill f = Some (policy, cell) -> Failover.permille (high_water policy) -> Failover.permille (margin policy) ->
     Z.of_nat (length (fo_peers f)) <= 65536 -> (spill_target fl f cell hash now).1 = Some target ->
     exists i l v, fo_peers f !! target = Some i /\ measured_here (cl_past c) k (fr_route r) l /\
       2 * v + margin policy <= 2 * l /\ 2 * high_water policy <= 2 * l + margin policy /\
       forall k', node_at (peer_addr fl i) = Some k' -> answered (cl_past c) k' (fr_route r) v).
Proof.
  intros Hc Hs p fl f Hr. destruct (ck_told _ _ _ _ (formed_ok _ _ _ _ Hc) k s Hs) as (ow & [Htp Hts] & Ho & _).
  destruct (to_listed _ _ _ Ho r Hr) as [Hpeers Hspill]. split.
  - intros i v at_ms Hi Hrep. rewrite Forall_forall in Hpeers.
    destruct (Htp i _ (Hpeers i (proj1 (list_elem_of_In _ _) Hi))) as [_ Hv]. by destruct (Hv v at_ms Hrep).
  - intros policy cell hash now target Hsp Hhw Hmg Hlen Ht. destruct (Hts _ _ _ _ _ (Hspill policy cell Hsp)) as [_ Hj].
    unfold spill_target in Ht. destruct (Admission_unpack _) as [a|] eqn:Ha; [|done]. destruct (_ <=? _); [done |].
    destruct (fo_peers f !! adm_target a) as [i|] eqn:Hi; [|done]. destruct (_ && _); [|done]. injection Ht as <-.
    destruct (Hj a Ha) as (addr & l & v & Haddr & Hl & [_ Hv] & ? & ?); [by rewrite length_fmap | done | done |].
    rewrite list_lookup_fmap in Haddr. unfold f in Hi. rewrite Hi in Haddr. injection Haddr as <-. exists i, l, v. by split_and!.
Qed.

#[local] Existing Instance Net.cidr_lib.
#[local] Existing Instance Protection.ascii_lowercase.
#[local] Existing Instance Tls.Properties.raw_tls.
#[local] Existing Instance Tls.Properties.tagged_digests.

(** Two hosts with one configuration: a route to a worker socket, whose peer is the
    second host, and an ingress that trusts their network. *)
Definition pair_config : JsProxyConfig :=
  mkJsProxy [mkJsListener None 443 None (Some (mkJsCert (EitherA (bs "cert")) (EitherA (bs "c")))) None (Some 1000) None None
               (Some [[8; 10; 0; 0; 0]])]
    [mkJsRoute (bs "a.example.com") None
       [mkJsUpstream (bs "uds") None None (Some (bs "/w.sock")) None None (Some 12) (Some 15) None] false None None None None
       None None None None None None None
       (Some (mkJsFailover [(bs "10.0.0.9", 443)] None None None (Some (mkJsSpill None None None None None))))]
    None None None None None None.
Definition pair : list member :=
  let m := mkMember ProxyLife.Properties.sample_machine pair_config true in [m; m].
Definition second : SocketAddr := mkSocketAddr (V4 167772169) 443.
Definition pair_at (addr : SocketAddr) : option nat := if bool_decide (addr = second) then Some 1%nat else None.

Definition busy_stat : bytes := bs "4711 (node) S 1 1 1 0 -1 0 0 0 0 0 65 2 0 0 20 0 4 0 99 0 0".
Definition busy_proc : ProcFs :=
  mkProcFs (fun pid tid => if (pid =? 4711) && (tid =? 4715) then Some busy_stat else None)
    (status_file ThreadCpu.Properties.container_proc) (task_dir ThreadCpu.Properties.container_proc).

Definition asking_io : http_io :=
  let j := ConnectionRuns.Properties.sample_io in
  mkHttpIo false (fun n => n) false [] true
    (mkIo 700000000 700000000 (Ok (LoadQuery [Some (bs "a.example.com")])) (io_peek j) (io_queued j) (io_acquired j) (io_hash j)
       (io_rotation j) (io_peers j) (io_read j) (io_load j) (io_seen j) (io_connects j) (io_closed j) (io_accepted j) (io_copy j)).

(** Both are sampled, the first is busy; the second is asked. *)
Definition sampling (k : nat) (p : ProcFs) : list cl_move :=
  At k asking_io ConnectionRuns.Properties.sample_peer <$>
    [DoStart; DoPass 1 100; DoFound 1 0 (Some 4711) (Some 8);
     DoSampled 1 100 1000 ThreadCpu.Properties.container_proc (Some 8); DoPass 1 250000000; DoSampled 1 100 250001000 p (Some 8)].
Definition pair_moves : list cl_move :=
  sampling 0 busy_proc ++ sampling 1 ThreadCpu.Properties.container_proc ++
  (At 1 asking_io ConnectionRuns.Properties.sample_peer <$> (DoAccept 0 :: replicate 5 (DoAsk 0))) ++
  [Tick 0 4 950000000; Answered 0 4 0 [bs "a.example.com"] 19 0 asking_io 5000 960 960000000; Tick 0 4 1100000000].
Definition pair_run (moves : list cl_move) : option cluster :=
  match SymphonyProxyWrap_new ProxyLife.Properties.sample_machine pair_config with
  | Ok w => let nodes := [deploy w pair_config; deploy w pair_config] in
            cl_schedule (fun x => x) pair_at (mkCluster nodes (enumerate nodes)) moves
  | Err _ => None
  end.

Lemma pair_formed c moves : pair_run moves = Some c -> formed (fun x => x) pair pair_at c.
Proof.
  unfold pair_run. destruct (SymphonyProxyWrap_new _ _) as [w|] eqn:Hw; [|discriminate]. intros E.
  assert (boots (mkMember ProxyLife.Properties.sample_machine pair_config true) (deploy w pair_config)) as Hb by (exists w; by split).
  refine (cl_schedule_formed (fun x => x) pair pair_at _ moves c _ _ _ E); [|reflexivity |].
  - apply Forall_cons; [reflexivity |]. apply Forall_cons; [reflexivity |]. constructor.
  - apply FormNew. constructor; [exact Hb |]. constructor; [exact Hb |]. constructor.
Qed.

(** The first host, its route and what it spills by. *)
Definition first_route (c : cluster) : option (system * FailoverRoute * SpillPolicy * nat) :=
  s ← cl_nodes c !! 0%nat; r ← failover_routes (pc_table (sp_proc (sy_wrap s))) !! 0%nat;
  '(policy, cell) ← fo_spill (fr_failover r); Some (s, r, policy, cell).

Definition spills_to_second (e : system * FailoverRoute * SpillPolicy * nat) : bool :=
  let '(s, r, policy, cell) := e in
  let fl := pc_fleet (sp_proc (sy_wrap s)) in
  (high_water policy =? 750) && (margin policy =? 200) && (length (fo_peers (fr_failover r)) =? 1)%nat &&
  bool_decide ((spill_target fl (fr_failover r) cell 0 1100000000).1 = Some 0%nat) &&
  bool_decide (pair_at ∘ peer_addr fl <$> fo_peers (fr_failover r) = [Some 1%nat]).

Lemma pair_made : match pair_run pair_moves ≫= first_route with Some e => spills_to_second e | None => false end = true.
Proof. vm_compute. reflexivity. Qed.

(** The busy host, whose own load is full, spills a client of the route to its peer,
    which said that it is idle. *)
Lemma spills_follow_the_peers_answers_witness :
  exists c s r policy cell, pair_run pair_moves = Some c /\ cl_nodes c !! 0%nat = Some s /\
    fo_spill (fr_failover r) = Some (policy, cell) /\
    (spill_target (pc_fleet (sp_proc (sy_wrap s))) (fr_failover r) cell 0 1100000000).1 = Some 0%nat /\
    exists l v, measured_here (cl_past c) 0 (fr_route r) l /\ answered (cl_past c) 1 (fr_route r) v /\ 2 * v + 200 <= 2 * l.
Proof.
  pose proof pair_made as Hp. destruct (pair_run pair_moves) as [c|] eqn:Ec; [|discriminate Hp]. cbn [mbind option_bind] in Hp.
  destruct (first_route c) as [[[[s r] policy] cell]|] eqn:Ef; [|discriminate Hp]. unfold first_route in Ef.
  destruct (cl_nodes c !! 0%nat) as [s0|] eqn:Hs; [|discriminate Ef]. cbn [mbind option_bind] in Ef.
  destruct (failover_routes _ !! 0%nat) as [r0|] eqn:Hr; [|discriminate Ef]. cbn [mbind option_bind] in Ef.
  destruct (fo_spill (fr_failover r0)) as [[policy0 cell0]|] eqn:Hsp; [|discriminate Ef]. injection Ef as -> -> -> ->.
  unfold spills_to_second in Hp. apply andb_true_iff in Hp as [Hp Hat%bool_decide_eq_true_1].
  apply andb_true_iff in Hp as [Hp Ht%bool_decide_eq_true_1]. apply andb_true_iff in Hp as [Hp Hlen%Nat.eqb_eq].
  apply andb_true_iff in Hp as [Hhw%Z.eqb_eq Hmg%Z.eqb_eq].
  destruct (spills_follow_the_peers_answers (fun x => x) pair pair_at c 0 s r (pair_formed c pair_moves Ec) Hs) as [_ Hspill].
  { by eapply list_elem_of_lookup_2. }
  destruct (Hspill policy cell 0 1100000000 0%nat Hsp) as (i & l & v & Hi & Hl & Hle & _ & Hv).
  - rewrite Hhw. unfold Failover.permille. lia.
  - rewrite Hmg. unfold Failover.permille. lia.
  - rewrite Hlen. lia.
  - exact Ht.
  - exists c, s, r, policy, cell. split_and!; [reflexivity | exact Hs | exact Hsp | exact Ht |]. exists l, v. split_and!; [exact Hl | | lia].
    apply Hv. apply (f_equal (fun x => x !! 0%nat)) in Hat. rewrite list_lookup_fmap, Hi in Hat. by injection Hat.
Defined.
End Properties.
